(* ===== verification/_CoqProject ===== *)
-Q . S2P
Prelude.v
GoStr.v
Json.v
JsonText.v
JsonCodec.v
EnvWal.v
EnvWalInv.v
EnvWalLog.v
EnvWalSpec.v
EnvWalBounds.v
WalBytes.v
WalCrash.v
Pb.v
CursorStore.v
CursorBytes.v
ClusterPeers.v
ClusterPeersSpec.v
K8s.v
Discovery.v
AgentDiscovery.v
DiscoverySpec.v
Aggregator.v
Fleet.v
AggregatorSpec.v
ReExport.v
System.v
Interleaving.v
PipelineSpec.v
ResumeSpec.v
EdgeSpec.v
Run.v
GoText.v
KubeApi.v
Metrics.v
Watcher.v
IndexTypes.v
MainCmd.v
Bridge.v
Flags.v
Process.v
Restart.v
WatcherSpec.v
WholeSpec.v
