(* ===== verification/Prelude.v ===== *)
(** * kloudlens-aggregator: a verification development

    kloudlens-aggregator is the cluster fan-in of KloudLens: it subscribes to the
    event stream of every node agent, merges the envelopes into one numbered
    stream, writes that stream as NDJSON and to a write-ahead log, joins network
    peers across nodes, and re-exports the stream to downstream subscribers that
    can resume from a cursor.  The sources are under src/; the Go packages are
    src/internal/aggregator with its sub-packages envwal, clusterpeers and
    discovery, and src/cmd/kloudlens-aggregator.

    ** How the parts interact

    One goroutine per (agent, stream) receives envelopes, saves the cursor of
    each in the cursor store and puts it on a bounded queue, dropping it when the
    queue is full.  A single writer takes envelopes off the queue.  Listener
    advertises and withdraws update the peer registry and go no further; anything
    else gets a number (from the log, or from a counter when there is no log or
    it fails), is broadcast to the subscribers without blocking, and is written.
    A network exchange whose peer the registry can name yields one more envelope,
    the peer edge.  A re-export call registers a subscriber, replays the log from
    its cursor and then follows the broadcast, skipping what it has sent.  The
    registry consults two indexes that watchers rebuild from Kubernetes objects;
    a third watcher tells which agents there are.

    ** Files

    - [Prelude]: 64-bit arithmetic with its wrap-around, sorted lists, the hint
      database and tactics shared by the other files.
    - [GoStr], [Json], [GoText]: the functions of Go's strings, strconv, net,
      net/url and encoding/json the sources call.  [JsonText]: the grammar of
      JSON, that the scanner takes its texts and what it makes of a text
      cut short.  [JsonCodec]: compaction, quoting and the decoder that splits
      objects, arrays and streams, with what they undo of each other.
    - [EnvWal]: envwal/envwal.go.  [WAL], [segment], [Open], [Append],
      [ReadFrom], [GC], [Close], [reload] are the Go declarations of that name;
      a directory is a map from names to files and a file the list of chunks
      written to it.  Outcomes of system calls are arguments.
      [EnvWalInv] has the invariant under every failure and the order of a
      replay that runs against concurrent writers; [EnvWalLog] the dense log of
      failure-free runs; [EnvWalSpec] the abstract log, the simulation and the
      stated properties; [EnvWalBounds] the sizes of the files.  [WalBytes] is
      the log once more on files of bytes, written by the JSON encoder and read
      by the decoder, and that these bytes implement the chunks of [EnvWal];
      [WalCrash] the log after a process died inside a record.
    - [Pb]: the protobuf messages, as far as the sources touch them.
    - [CursorStore]: cursorstore.go.  The interface is a class with its law;
      the null store and the file store are instances.  The flusher goroutine
      and Close are a step relation.  [CursorBytes]: the same file as the bytes
      json.MarshalIndent writes and json.Unmarshal reads, and the store on them
      as a refinement of two maps, what clients see and what survives.
    - [ClusterPeers], [ClusterPeersSpec]: clusterpeers/registry.go and
      advertise.go, and the registry as a refinement of the trace of advertises
      and withdraws.
    - [K8s], [Discovery], [AgentDiscovery], [DiscoverySpec]:
      discovery/service.go, podindex.go and endpointslice.go: decoding, the two
      indexes, watch states, the list of agents.
    - [KubeApi]: what the watchers start with and the requests they send (Run,
      buildClient, bearerAuth, the list and watch URLs, read back the way the
      server reads them).
    - [Watcher]: the list and watch loops, with their waits, as one section the
      two watchers instantiate, and the goroutines of ServiceWatcher.Run as
      interleavings of calls on the shared indexes.  [IndexTypes]: what those
      calls keep well formed.  [WatcherSpec]: the loops composed with the
      indexes, with the discovery bridge and with the fleet.  [WholeSpec]: the
      watchers and the aggregator in one run.
    - [Aggregator]: aggregator.go: configuration, queue, writer ([handle] is
      one iteration of writeLoop), broadcast, cross-node hook, receive loop,
      statistics.  [AggregatorSpec] has its lemmas.
    - [Fleet]: the part of aggregator.go that starts and cancels endpoints.
    - [ReExport]: reexport.go.
    - [System]: the goroutines of the aggregator as one transition system, whose
      steps are an envelope received, an envelope handled by the writer, and what
      the others do.  [Interleaving]: the same system action by action, with the
      counter updates, the save, the send, the append, the broadcast, the write and
      the lookup as separate steps; every step of [System] is a run of these.
    - [Run]: Aggregator.Run: the main goroutine, the writer and one goroutine
      per run and stream, from seeding to the end of the shutdown; its steps on
      the shared aggregator are those of [System].
    - [PipelineSpec]: theorems that need several components.  [ResumeSpec]: a
      consumer over two processes on one log.  [EdgeSpec]: runs with a clock,
      and where the edges of the writer come from.
    - [Metrics]: metrics.go.  [MainCmd], [Flags]: cmd/kloudlens-aggregator
      /main.go: start-up, janitor and operator endpoints; the command line.
    - [Bridge]: the channels and the goroutine between the agent watcher and the
      reconcile loop.
    - [Process]: the function run of main.go from the wired state to the exit:
      [Run] inside it, the calls the re-export server is serving, the goroutine
      of the cursor store behind a class, and the deferred calls in their order.
      [Restart]: the file store as an instance of that class, and the next
      process on the same cursor file, after an exit or after a crash.

    ** What the theorems show

    Log: an invariant over every interleaving and failure; replay is strictly
    increasing even while segments rotate and are collected; a simulation by an
    abstract counter and record list; round trips append/read and close/open;
    what GC keeps; that a gap is reported; how much disk the files take; the
    bytes on disk implement the records under every failure, so that replay and
    reload decode what was appended; a crash inside a record costs no complete
    one.
    Cursors: no rewinding, restart round trip, the file is always a complete
    snapshot, also in bytes when a flush fails or the process dies at any byte of
    it, Close flushes and ends.
    Registry: lookups are those of the trace; every edge of the running system is
    backed by an advertise the writer took within the TTL and nothing has
    contradicted since, and one that went through a Service address also by the
    Service and the ready backend the API server sent; a listener found through a
    wildcard, or under an address that changed hands, is that of the pod which owns
    the address now (two exceptions are stated there); a Service address resolves
    exactly when some replica is live and all live replicas agree.
    Discovery: requests say exactly what was configured; the indexes stay well
    formed, do not depend on how the watch goroutines interleave, answer only
    what the API server sent in one round of a loop, and catch up with it after
    any failures; so does the fleet of agents, to which every list the agent
    watcher sends gets in order.
    Pipeline: log and broadcast carry the same numbers; a resuming subscriber
    gets every matching record exactly once, also over a restart; the counters
    balance in every state, also between two actions on one envelope;
    subscriptions resume from received cursors; the fleet follows discovery.
    Run: every run has a goroutine for each stream the configuration names; nothing is sent on the
    closed queue; a cancelled context leads to a return in boundedly many steps
    of its own, with the queue empty and every envelope accounted for.
    Process: after the signal it exits, with log and cursor store closed, exactly
    when every attached consumer has gone; the process started next asks every
    agent for the cursor the last one would have asked for, and after a crash for
    the one it would have asked for at one moment since the last complete write.
    Command: every configuration has a command line; when start-up succeeds and
    what is wired.
    Some theorems state behaviour that departs from a comment or an evident
    intention (a torn write ends replay, a crash in a fresh segment swallows the
    records the next process appends to it, numbering restarts over an empty log, an
    unencodable envelope hides its successor, a dropped envelope is acknowledged,
    a late withdraw evicts a successor, a duplicate agent is never cancelled, an
    attached consumer keeps the process from exiting, a crash loses envelopes
    that were queued and already acknowledged).

    ** Bounds, fuel, assumptions

    Integers keep Go's width where they can wrap: sequence numbers and counters
    are taken modulo 2^64 and theorems that need it assume room below the
    maximum.  Times are integers in nanoseconds.  The
    space trimming of [GoText] and the terms of a duration in [Flags] recurse on
    fuel equal to the length of the input, which each round shortens; so do the
    member and element loops of [JsonCodec] and the read and reload loops of
    [WalBytes] (lemmas [read_text_fuel], [scan_text_fuel]).  [scan_value] of [Json] takes twice the length of its
    text and one more, which lemma [scan_jval] of [JsonText] shows enough.  All
    other recursion is structural.  Termination in [Run], [Process] and [Bridge] is a
    measure on states, under the steps the goroutines make by themselves; what
    arrives from outside is a separate relation.  [receive] and [handle] are the
    work on one envelope as one function; [Interleaving] takes them apart into
    actions, with a lookup in the registry, an append to the log and a broadcast,
    each of which the source does under a lock or on its own state only, as one
    action.  Maps are visited in an order that is a parameter.  A queue depth is too
    large when a Go channel of 24-byte elements of that size exceeds the 2^48 bytes
    of a 64-bit Linux process; a smaller one that finds no memory is not modelled.  protojson is the class [ProtoJSON] of [EnvWal], with the law that decoding undoes encoding up to
    JSON compaction; grpc's GracefulStop is the class of that name in [Process],
    which says that it returns once no call is pending and not before; nothing
    else is assumed of code outside src/.  In [WalBytes] a Write that fails has
    stopped before its last byte, and the clock is a 64-bit integer; the nesting
    limit of encoding/json, 10000 levels, is not in the scanner.

    ** What is not modelled

    The transports: net/http, crypto/tls, gRPC and the line scanners of the
    watch streams, which are outcome arguments of the definitions that call them; the listeners of the
    HTTP and gRPC servers; the delivery of signals, which is the cancellation
    step of [Run]; help and log texts.  In [Run] a reconcile is one step of the
    main goroutine, and in [System], [Run], [Process], [EdgeSpec] and [WholeSpec]
    so is an envelope received, or handled by the writer, for its goroutine.  In [System] and [Run] an index update is any change of what
    the resolvers answer; [WatcherSpec] says which answers the watchers give and
    [WholeSpec] puts them in.  A crash is the end of the process: what it has
    written is in the files.  Loss of power, which could undo writes that were not
    synced, is not modelled. *)
From stdpp Require Import base numbers gmap strings sorting list.
Local Open Scope Z_scope.

(** ** Machine integers

    Go's [uint64] values are integers in [[0, 2^64)]; every arithmetic
    operation of the source on them is written with its wrap-around. *)

Definition u64_mod : Z := 2 ^ 64.
Definition u64_max : Z := u64_mod - 1.
Definition u64 (z : Z) : Z := z mod u64_mod.
Arguments u64 : simpl never.
Definition is_u64 (z : Z) : Prop := 0 ≤ z < u64_mod.

Global Instance is_u64_dec z : Decision (is_u64 z).
Proof. unfold is_u64. apply _. Defined.

Declare Scope go_scope.
Delimit Scope go_scope with go.
Notation "a +u b" := (u64 (a + b)) (at level 50, left associativity) : go_scope.

(** ** Hint databases and tactics *)

Create HintDb agg discriminated.
Create HintDb agg_arith.

(** Case analysis on every [match]/[if] scrutinee of the goal, keeping the
    equations, and closing the branches that are contradictory. *)
Ltac case_all :=
  repeat (case_match; simplify_eq/=; try done).

(** Turn boolean tests of the code into the propositions they decide. *)
Ltac reflect_bools :=
  repeat match goal with
  | H : bool_decide _ = true |- _ => apply bool_decide_eq_true_1 in H
  | H : bool_decide _ = false |- _ => apply bool_decide_eq_false_1 in H
  | H : (_ && _)%bool = true |- _ => apply andb_true_iff in H; destruct H
  | H : (_ || _)%bool = false |- _ => apply orb_false_iff in H; destruct H
  | H : negb _ = true |- _ => apply negb_true_iff in H
  | H : negb _ = false |- _ => apply negb_false_iff in H
  | H : (_ <? _) = true |- _ => apply Z.ltb_lt in H
  | H : (_ <? _) = false |- _ => apply Z.ltb_ge in H
  | H : (_ <=? _) = true |- _ => apply Z.leb_le in H
  | H : (_ <=? _) = false |- _ => apply Z.leb_gt in H
  | H : (_ =? _) = true |- _ => apply Z.eqb_eq in H
  | H : (_ =? _) = false |- _ => apply Z.eqb_neq in H
  | H : (_ =? _)%string = true |- _ => apply String.eqb_eq in H
  | H : (_ =? _)%string = false |- _ => apply String.eqb_neq in H
  end.

Ltac unfold_u64 := unfold is_u64, u64, u64_max, u64_mod in *.

Section u64.
Implicit Types z : Z.

Lemma u64_small z : is_u64 z → u64 z = z.
Proof. unfold is_u64, u64. intros ?. by apply Z.mod_small. Qed.

Lemma u64_range z : is_u64 (u64 z).
Proof. unfold is_u64, u64. apply Z.mod_pos_bound. by vm_compute. Qed.

Lemma u64_succ z : is_u64 z → z < u64_max → u64 (z + 1) = z + 1.
Proof. intros. apply u64_small. unfold is_u64, u64_max in *. lia. Qed.

Lemma u64_wrap : u64 (u64_max + 1) = 0.
Proof. by vm_compute. Qed.
End u64.

(** ** Sorted lists *)

Lemma StronglySorted_snoc (l : list Z) z :
  StronglySorted Z.lt l → Forall (λ y, y < z) l → StronglySorted Z.lt (l ++ [z]).
Proof.
  intros Hl Hz. apply StronglySorted_app_2; [|done|repeat constructor].
  intros x1 x2 H1 ->%list_elem_of_singleton. by eapply Forall_forall in Hz.
Qed.

Lemma seqZ_snoc a n : 0 ≤ n → seqZ a (n + 1) = seqZ a n ++ [a + n].
Proof. intros Hn. rewrite seqZ_app by lia. done. Qed.

Lemma Forall_sublist {A} (P : A → Prop) (l k : list A) :
  sublist l k → Forall P k → Forall P l.
Proof. rewrite !Forall_forall. intros Hs%sublist_subseteq Hk x Hx. auto. Qed.

Lemma sublist_fmap {A B} (g : A → B) (l k : list A) :
  sublist l k → sublist (g <$> l) (g <$> k).
Proof. induction 1; cbn; [done|by apply sublist_skip|by apply sublist_cons]. Qed.

Lemma StronglySorted_sublist {A} (R : relation A) (l k : list A) :
  sublist l k → StronglySorted R k → StronglySorted R l.
Proof.
  induction 1 as [|x l k Hsub IH|x l k Hsub IH]; intros Hk; [done|..].
  - apply StronglySorted_cons in Hk as [Hx Hk]. apply StronglySorted_cons.
    split; [|auto]. apply Forall_forall. intros y Hy.
    eapply Forall_forall in Hx; [done|]. by eapply sublist_subseteq.
  - apply StronglySorted_cons in Hk as [_ Hk]. auto.
Qed.

Lemma filter_fmap {A B} (g : A → B) (P : B → Prop) `{∀ x, Decision (P x)} (l : list A) :
  filter P (g <$> l) = g <$> filter (λ x, P (g x)) l.
Proof.
  induction l as [|x l IH]; [done|]. rewrite fmap_cons, !filter_cons, IH. by case_decide.
Qed.

#[export] Hint Resolve u64_range u64_small u64_succ : agg.
