(* ===== verification/GoStr.v ===== *)
(** * Go string and number functions used by the sources

    Definitions of the standard-library functions the aggregator calls on
    strings: byte search, slicing, [net.SplitHostPort], [strconv.Itoa] and
    [strconv.Atoi], [fmt]'s zero-padded decimal, and the facts about them the
    components rely on (when an "ip:port" splits back into its parts, when it
    does not, injectivity of separator-joined keys). *)
From Stdlib Require Import Ascii.
From stdpp Require Import base numbers gmap strings pretty list.
From S2P Require Import Prelude.
Local Open Scope Z_scope.

(** ** Bytes and slices *)

Fixpoint has_byte (c : ascii) (s : string) : bool :=
  match s with
  | EmptyString => false
  | String d s' => bool_decide (c = d) || has_byte c s'
  end.

(** [strings.IndexByte] *)
Fixpoint index_byte (c : ascii) (s : string) : option nat :=
  match s with
  | EmptyString => None
  | String d s' => if bool_decide (c = d) then Some 0%nat else S <$> index_byte c s'
  end.

(** [strings.LastIndexByte] *)
Fixpoint last_index_byte (c : ascii) (s : string) : option nat :=
  match s with
  | EmptyString => None
  | String d s' =>
      match last_index_byte c s' with
      | Some i => Some (S i)
      | None => if bool_decide (c = d) then Some 0%nat else None
      end
  end.

(** [s[:n]] and [s[n:]] *)
Fixpoint str_take (n : nat) (s : string) : string :=
  match n, s with
  | S n', String c s' => String c (str_take n' s')
  | _, _ => EmptyString
  end.

Fixpoint str_drop (n : nat) (s : string) : string :=
  match n, s with
  | S n', String _ s' => str_drop n' s'
  | _, _ => s
  end.

Definition first_byte (s : string) : option ascii :=
  match s with EmptyString => None | String c _ => Some c end.

(** ** net.SplitHostPort *)

Definition SplitHostPort (hostport : string) : option (string * string) :=
  match last_index_byte ":" hostport with
  | None => None
  | Some i =>
      let finish (host : string) (j k : nat) :=
        if has_byte "[" (str_drop j hostport) then None
        else if has_byte "]" (str_drop k hostport) then None
        else Some (host, str_drop (S i) hostport) in
      if bool_decide (first_byte hostport = Some "["%char) then
        match index_byte "]" hostport with
        | None => None
        | Some e =>
            if bool_decide (S e = String.length hostport) then None
            else if bool_decide (S e = i)
            then finish (str_drop 1 (str_take e hostport)) 1%nat (S e)
            else None
        end
      else
        let host := str_take i hostport in
        if has_byte ":" host then None else finish host 0%nat 0%nat
  end.

(** ** strconv and fmt *)

Definition Itoa (z : Z) : string := pretty z.

Definition digit_val (c : ascii) : option Z :=
  let n := Z.of_N (N_of_ascii c) in
  if bool_decide (48 ≤ n ≤ 57) then Some (n - 48) else None.

Fixpoint parse_digits (acc : Z) (s : string) : option Z :=
  match s with
  | EmptyString => Some acc
  | String c s' =>
      match digit_val c with
      | Some d => parse_digits (acc * 10 + d) s'
      | None => None
      end
  end.

(** Unsigned decimal: at least one digit, digits only. *)
Definition parse_uint (s : string) : option Z :=
  match s with EmptyString => None | _ => parse_digits 0 s end.

(** [strconv.Atoi]: optional sign, decimal digits, range of a 64-bit [int]. *)
Definition Atoi (s : string) : option Z :=
  let v := match s with
           | String "-" s' => Z.opp <$> parse_uint s'
           | String "+" s' => parse_uint s'
           | _ => parse_uint s
           end in
  match v with
  | Some z => if bool_decide (- 2 ^ 63 ≤ z < 2 ^ 63) then Some z else None
  | None => None
  end.

Definition digit_char (d : Z) : ascii := ascii_of_N (Z.to_N (48 + d)).

(** [fmt.Sprintf("%0<k>d", n)] for [0 ≤ n < 10^k]: [k] decimal digits. *)
Fixpoint fixed_digits (k : nat) (n : Z) : string :=
  match k with
  | O => EmptyString
  | S k' => fixed_digits k' (n / 10) +:+ String (digit_char (n mod 10)) EmptyString
  end.

(** ** Facts on byte search and slicing *)

Section strings.
Implicit Types (s t h p : string) (c : ascii).

Lemma str_app_cons c s t : String c s +:+ t = String c (s +:+ t).
Proof. done. Qed.

Lemma str_app_nil_l s : "" +:+ s = s.
Proof. done. Qed.

Lemma str_app_assoc s t p : (s +:+ t) +:+ p = s +:+ (t +:+ p).
Proof. induction s as [|d s IH]; [done|]. rewrite !str_app_cons. cbn. by rewrite IH. Qed.

Lemma str_app_nil_r s : s +:+ "" = s.
Proof. induction s as [|d s IH]; [done|]. rewrite !str_app_cons. cbn. by rewrite IH. Qed.

Lemma str_length_app s t : String.length (s +:+ t) = (String.length s + String.length t)%nat.
Proof. induction s as [|d s IH]; [done|]. rewrite !str_app_cons. cbn. by rewrite IH. Qed.

Lemma has_byte_app c s t : has_byte c (s +:+ t) = has_byte c s || has_byte c t.
Proof. induction s as [|d s IH]; [done|]. rewrite str_app_cons. cbn. by rewrite IH, orb_assoc. Qed.

Lemma str_take_app s t : str_take (String.length s) (s +:+ t) = s.
Proof. induction s as [|d s IH]; rewrite ?str_app_cons, ?str_app_nil_l; cbn; [by destruct t|]. by rewrite ?IH. Qed.

Lemma str_app_inj_length s1 s2 t1 t2 :
  String.length s1 = String.length s2 → s1 +:+ t1 = s2 +:+ t2 → s1 = s2 ∧ t1 = t2.
Proof.
  revert s2. induction s1 as [|c s1 IH]; intros [|d s2] Hlen; try done.
  rewrite !str_app_cons. intros [= -> Heq]. injection Hlen as Hlen.
  by destruct (IH s2 Hlen Heq) as [-> ->].
Qed.

Lemma str_drop_app s t : str_drop (String.length s) (s +:+ t) = t.
Proof. induction s as [|d s IH]; rewrite ?str_app_cons, ?str_app_nil_l; cbn; [by destruct t|]. by rewrite ?IH. Qed.

Lemma str_drop_app_S s c t : str_drop (S (String.length s)) (s +:+ String c t) = t.
Proof.
  induction s as [|d s IH]; [by destruct t|].
  by change (str_drop (S (String.length s)) (s +:+ String c t) = t).
Qed.

Lemma str_drop_0 s : str_drop 0 s = s.
Proof. by destruct s. Qed.

Lemma str_take_length n s : (n ≤ String.length s)%nat → String.length (str_take n s) = n.
Proof. revert s. induction n as [|n IH]; intros [|c s] H; cbn in *; try lia. by rewrite IH by lia. Qed.

Lemma str_take_drop n s : str_take n s +:+ str_drop n s = s.
Proof. revert s. induction n as [|n IH]; intros [|c s]; [done..|]. cbn [str_take str_drop]. by rewrite str_app_cons, IH. Qed.

Lemma str_drop_nonempty n s : (n < String.length s)%nat → str_drop n s ≠ "".
Proof. revert s. induction n as [|n IH]; intros [|c s] H; cbn in *; try lia; [done|]. apply IH. lia. Qed.

Lemma has_byte_take c n s : has_byte c s = false → has_byte c (str_take n s) = false.
Proof.
  revert n. induction s as [|d s IH]; intros [|n]; cbn; try done.
  intros [? ?]%orb_false_iff. apply orb_false_iff; auto.
Qed.

Lemma has_byte_drop c n s : has_byte c s = false → has_byte c (str_drop n s) = false.
Proof.
  revert n. induction s as [|d s IH]; intros [|n]; cbn; try done.
  intros [? ?]%orb_false_iff. auto.
Qed.

Lemma last_index_byte_None c s : last_index_byte c s = None ↔ has_byte c s = false.
Proof.
  induction s as [|d s IH]; cbn; [done|].
  destruct (last_index_byte c s) eqn:E; [|pose proof (proj1 IH eq_refl) as Hno].
  - destruct (has_byte c s) eqn:E'; [by rewrite orb_true_r|].
    by pose proof (proj2 IH eq_refl).
  - rewrite Hno, orb_false_r. by case_bool_decide.
Qed.

Lemma last_index_byte_sep c s t :
  has_byte c t = false → last_index_byte c (s +:+ String c t) = Some (String.length s).
Proof.
  intros Ht%last_index_byte_None. induction s as [|d s IH]; rewrite ?str_app_cons, ?str_app_nil_l; cbn.
  - rewrite Ht. by rewrite bool_decide_eq_true_2.
  - by rewrite IH.
Qed.

Lemma last_index_byte_Some c s i :
  last_index_byte c s = Some i →
  s = str_take i s +:+ String c (str_drop (S i) s) ∧ has_byte c (str_drop (S i) s) = false.
Proof.
  revert i. induction s as [|d s IH]; cbn; intros i; [done|].
  destruct (last_index_byte c s) as [j|] eqn:E.
  - intros [= <-]. destruct (IH j eq_refl) as [Heq Hno]. split; [|done].
    change (String d s = String d (str_take j s +:+ String c (str_drop (S j) s))).
    by rewrite <-Heq.
  - case_bool_decide; [|done]. intros [= <-]. subst d. cbn.
    apply last_index_byte_None in E. by destruct s.
Qed.

Lemma first_cut c s :
  has_byte c s = true → ∃ a b, s = a +:+ String c b ∧ has_byte c a = false.
Proof.
  induction s as [|d s IH]; cbn; [done|].
  case_bool_decide as Hd; cbn.
  - intros _. exists "", s. by subst.
  - intros Hs. destruct (IH Hs) as (a & b & -> & Ha). exists (String d a), b. split; [done|].
    cbn. by rewrite bool_decide_eq_false_2.
Qed.

(** Cutting at the first separator determines both halves. *)
Lemma sep_inj c s1 s2 t1 t2 :
  has_byte c s1 = false → has_byte c s2 = false →
  s1 +:+ String c t1 = s2 +:+ String c t2 → s1 = s2 ∧ t1 = t2.
Proof.
  revert s2. induction s1 as [|d1 s1 IH]; intros [|d2 s2]; rewrite ?str_app_cons, ?str_app_nil_l; cbn; intros H1 H2 Heq;
    simplify_eq; try done.
  - by rewrite bool_decide_eq_true_2 in H2.
  - by rewrite bool_decide_eq_true_2 in H1.
  - apply orb_false_iff in H1 as [_ H1], H2 as [_ H2].
    by destruct (IH s2 H1 H2) as [-> ->].
Qed.
End strings.

(** ** net.SplitHostPort: when it splits, and into what *)

(** A string that can be one side of a splittable "host:port". *)
Definition plain (s : string) : Prop :=
  has_byte ":" s = false ∧ has_byte "[" s = false ∧ has_byte "]" s = false.

Global Instance plain_dec s : Decision (plain s).
Proof. unfold plain. apply _. Defined.

Lemma first_byte_plain h t : has_byte "[" h = false → t ≠ "["%char →
  ∀ p, first_byte (h +:+ String t p) ≠ Some "["%char.
Proof.
  intros Hh Ht p. destruct h as [|c h].
  - rewrite str_app_nil_l. cbn. congruence.
  - rewrite str_app_cons. cbn. by intros [= ->].
Qed.

Lemma SplitHostPort_join h p :
  plain h → plain p → SplitHostPort (h +:+ ":" +:+ p) = Some (h, p).
Proof.
  intros (Hh1 & Hh2 & Hh3) (Hp1 & Hp2 & Hp3).
  change (":" +:+ p) with (String ":" p). unfold SplitHostPort.
  rewrite last_index_byte_sep by done.
  rewrite bool_decide_eq_false_2 by (by apply first_byte_plain).
  rewrite str_take_app, Hh1, str_drop_0, str_drop_app_S.
  rewrite !has_byte_app, Hh2, Hh3. cbn [has_byte orb].
  by rewrite Hp2, Hp3.
Qed.

(** Without a leading bracket, a successful split is the exact inverse of
    joining with a colon, and neither half holds a colon. *)
Lemma SplitHostPort_inv s h p :
  first_byte s ≠ Some "["%char → SplitHostPort s = Some (h, p) →
  s = h +:+ ":" +:+ p ∧ plain h ∧ plain p.
Proof.
  intros Hb. unfold SplitHostPort, plain.
  destruct (last_index_byte ":" s) as [i|] eqn:Hi; [|done].
  apply last_index_byte_Some in Hi as [Hs Hp].
  rewrite bool_decide_eq_false_2 by done.
  destruct (has_byte ":" (str_take i s)) eqn:Hc; [done|].
  destruct (has_byte "[" (str_drop 0 s)) eqn:H1; [done|].
  destruct (has_byte "]" (str_drop 0 s)) eqn:H2; [done|].
  change (str_drop 0 s) with s in *.
  intros Heq. apply (inj Some) in Heq. apply pair_eq in Heq as [<- <-].
  split_and!; auto using has_byte_take, has_byte_drop.
Qed.

(** A host that holds a colon itself (an unbracketed IPv6 address) makes the
    joined string unsplittable. *)
Lemma SplitHostPort_colon_host h p :
  has_byte ":" h = true → first_byte h ≠ Some "["%char →
  SplitHostPort (h +:+ ":" +:+ p) = None.
Proof.
  intros Hh Hb. destruct (first_cut ":" h Hh) as (a & b & -> & Ha).
  destruct (SplitHostPort _) as [[h' p']|] eqn:E; [|done].
  apply SplitHostPort_inv in E as (Heq & (Hh1 & _ & _) & (Hp1 & _ & _)).
  - rewrite str_app_assoc, str_app_cons in Heq.
    apply sep_inj in Heq as [_ <-]; [|done..].
    by rewrite has_byte_app, orb_true_r in Hp1.
  - by destruct a.
Qed.

(** ** Decimal numerals *)

Lemma digit_val_char d : 0 ≤ d < 10 → digit_val (digit_char d) = Some d.
Proof.
  intros Hd. unfold digit_val, digit_char.
  rewrite N_ascii_embedding by lia.
  rewrite bool_decide_eq_true_2 by lia. f_equal. lia.
Qed.

Lemma parse_digits_app acc s t :
  parse_digits acc (s +:+ t) = (parse_digits acc s ≫= λ v, parse_digits v t).
Proof.
  revert acc. induction s as [|c s IH]; intros acc; [done|].
  rewrite str_app_cons. cbn. destruct (digit_val c); [apply IH|done].
Qed.

Lemma parse_fixed_digits k n acc :
  0 ≤ n < 10 ^ Z.of_nat k →
  parse_digits acc (fixed_digits k n) = Some (acc * 10 ^ Z.of_nat k + n).
Proof.
  revert n acc. induction k as [|k IH]; intros n acc Hn; cbn [fixed_digits].
  - cbn. f_equal. rewrite Z.pow_0_r in Hn. lia.
  - rewrite Nat2Z.inj_succ, Z.pow_succ_r in * by lia.
    rewrite parse_digits_app, IH by (split; [apply Z.div_pos; lia|apply Z.div_lt_upper_bound; lia]).
    cbn. pose proof (Z.mod_pos_bound n 10 ltac:(lia)).
    rewrite digit_val_char by lia. f_equal.
    pose proof (Z.div_mod n 10 ltac:(lia)). lia.
Qed.

Lemma fixed_digits_inj k n m :
  0 ≤ n < 10 ^ Z.of_nat k → 0 ≤ m < 10 ^ Z.of_nat k →
  fixed_digits k n = fixed_digits k m → n = m.
Proof.
  intros Hn Hm Heq. apply (f_equal (parse_digits 0)) in Heq.
  rewrite !parse_fixed_digits in Heq by done. by simplify_eq.
Qed.

Lemma fixed_digits_length k n : String.length (fixed_digits k n) = k.
Proof.
  revert n. induction k as [|k IH]; intros n; [done|].
  cbn [fixed_digits]. rewrite str_length_app, IH. cbn. lia.
Qed.

(** [strconv.Itoa] of a non-negative number is a run of decimal digits. *)
Definition all_digits (s : string) : Prop := ∃ v, parse_digits 0 s = Some v.

Lemma pretty_N_char_digit (x : N) : (x < 10)%N → pretty_N_char x = digit_char (Z.of_N x).
Proof.
  intros Hx. assert (x = 0 ∨ x = 1 ∨ x = 2 ∨ x = 3 ∨ x = 4 ∨ x = 5 ∨ x = 6 ∨ x = 7 ∨ x = 8 ∨ x = 9)%N
    as Hc by lia. by destruct_or! Hc; subst x.
Qed.

Lemma parse_pretty_N_go (x : N) s :
  ∃ k, 0 ≤ k ∧ ∀ acc, parse_digits acc (pretty_N_go x s) = parse_digits (acc * 10 ^ k + Z.of_N x) s.
Proof.
  revert s. induction (N.lt_wf_0 x) as [x _ IH]; intros s.
  destruct (decide (x = 0%N)) as [->|Hx].
  - exists 0. split; [done|]. intros acc. rewrite pretty_N_go_0. f_equal. lia.
  - rewrite pretty_N_go_step by lia.
    destruct (IH (x / 10)%N ltac:(apply N.div_lt; lia)
                (String (pretty_N_char (x mod 10)) s)) as (k & Hk & IHk).
    exists (k + 1). split; [lia|]. intros acc. rewrite IHk. cbn [parse_digits].
    pose proof (N.mod_lt x 10 ltac:(lia)).
    pose proof (N.div_mod x 10 ltac:(lia)).
    set (r := (x mod 10)%N) in *. set (q := (x / 10)%N) in *. clearbody r q.
    rewrite pretty_N_char_digit, digit_val_char by lia.
    f_equal. rewrite Z.pow_add_r by lia. lia.
Qed.

Lemma parse_pretty_N (x : N) : parse_digits 0 (pretty x) = Some (Z.of_N x).
Proof.
  unfold pretty, pretty_N. case_decide; [by subst|].
  destruct (parse_pretty_N_go x "") as (k & _ & ->). done.
Qed.

Lemma parse_digits_no_byte c acc s :
  digit_val c = None → is_Some (parse_digits acc s) → has_byte c s = false.
Proof.
  intros Hc. revert acc. induction s as [|d s IH]; intros acc [v Hv]; cbn in *; [done|].
  destruct (digit_val d) eqn:Hd; [|done].
  rewrite bool_decide_eq_false_2 by congruence. cbn. eauto.
Qed.

Lemma Itoa_nonneg z : 0 ≤ z → Itoa z = pretty (Z.to_N z).
Proof. intros Hz. destruct z as [|q|q]; [done|done|lia]. Qed.

Lemma Itoa_plain z : 0 ≤ z → plain (Itoa z).
Proof.
  intros Hz. rewrite Itoa_nonneg by done.
  unfold plain; split_and!; (eapply parse_digits_no_byte; [done|]);
    rewrite parse_pretty_N; eauto.
Qed.

Lemma Itoa_inj z1 z2 : Itoa z1 = Itoa z2 → z1 = z2.
Proof. apply (inj pretty). Qed.

Lemma Atoi_Itoa z : 0 ≤ z < 2 ^ 63 → Atoi (Itoa z) = Some z.
Proof.
  intros Hz. rewrite Itoa_nonneg by lia.
  pose proof (parse_pretty_N (Z.to_N z)) as Hp. rewrite Z2N.id in Hp by lia.
  destruct (pretty (Z.to_N z)) as [|c s] eqn:E.
  { exfalso. clear Hp. unfold pretty, pretty_N in E. case_decide; [done|].
    destruct (parse_pretty_N_go (Z.to_N z) "") as (k & Hk & H1). rewrite E in H1. 
    specialize (H1 0). cbn in H1. simplify_eq. lia. }
  assert (c ≠ "-"%char ∧ c ≠ "+"%char) as [Hm Hpl].
  { split; intros ->; cbn in Hp; done. }
  unfold Atoi. assert (match String c s with
    | String "-" s' => Z.opp <$> parse_uint s'
    | String "+" s' => parse_uint s'
    | _ => parse_uint (String c s) end = Some z) as ->.
  { destruct c as [[] [] [] [] [] [] [] []]; try done; exact Hp. }
  by rewrite bool_decide_eq_true_2 by lia.
Qed.

(** The decimal form of a positive number starts with a digit other than 0. *)
Lemma pretty_N_go_first (x : N) s :
  (0 < x)%N → ∃ d s', 1 ≤ d < 10 ∧ pretty_N_go x s = String (digit_char d) s'.
Proof.
  revert s. induction (N.lt_wf_0 x) as [x _ IH]; intros s Hx.
  rewrite pretty_N_go_step by lia. destruct (decide (x < 10)%N) as [Hlt|Hge].
  - rewrite N.div_small, pretty_N_go_0, N.mod_small, pretty_N_char_digit by lia.
    exists (Z.of_N x), s. split; [lia|done].
  - apply IH; [apply N.div_lt; lia|]. apply N.div_str_pos. lia.
Qed.

(** The decimal form of a number: no sign, and no leading 0 unless it is 0. *)
Lemma pretty_N_first (x : N) : ∃ d s', 0 ≤ d < 10 ∧ pretty x = String (digit_char d) s' ∧ (d = 0 → x = 0%N).
Proof.
  destruct (decide (x = 0)%N) as [->|Hne]; [exists 0, ""; split_and!; [lia..|done|done]|].
  destruct (pretty_N_go_first x "") as (d & s' & Hd & Heq); [lia|]. exists d, s'.
  split_and!; [lia..| |lia]. unfold pretty, pretty_N. by rewrite decide_False.
Qed.
