(* ===== verification/Json.v ===== *)
(** * encoding/json as the sources use it

    The Go encoder's string quoting (HTML-escaping on, invalid UTF-8 replaced),
    the compaction [json.Marshal] applies to a [json.RawMessage], and the
    validity check that decides whether it fails.  The write-ahead log builds
    its lines with these and the NDJSON sink quotes agent names with them. *)
From Stdlib Require Import Ascii.
From stdpp Require Import base numbers strings list.
From S2P Require Import Prelude GoStr.
Local Open Scope Z_scope.

Definition byte_of (c : ascii) : Z := Z.of_N (N_of_ascii c).
Definition chr (z : Z) : ascii := ascii_of_N (Z.to_N z).

(** ** UTF-8 *)

Definition is_cont (c : ascii) : bool := bool_decide (128 ≤ byte_of c ≤ 191).

(** Number of bytes of the well-formed rune at the head of a string, following
    the accept ranges of [unicode/utf8]; [None] when the head byte starts no
    well-formed rune ([RuneError] of width 1). *)
Definition rune_len (s : string) : option nat :=
  match s with
  | EmptyString => None
  | String c0 r =>
      let b0 := byte_of c0 in
      if bool_decide (b0 < 128) then Some 1%nat else
      match r with
      | EmptyString => None
      | String c1 r1 =>
          let b1 := byte_of c1 in
          if bool_decide (194 ≤ b0 ≤ 223) then if is_cont c1 then Some 2%nat else None else
          match r1 with
          | EmptyString => None
          | String c2 r2 =>
              let lo3 := if bool_decide (b0 = 224) then 160 else 128 in
              let hi3 := if bool_decide (b0 = 237) then 159 else 191 in
              if bool_decide (224 ≤ b0 ≤ 239) then
                if bool_decide (lo3 ≤ b1 ≤ hi3) && is_cont c2 then Some 3%nat else None else
              match r2 with
              | EmptyString => None
              | String c3 _ =>
                  let lo4 := if bool_decide (b0 = 240) then 144 else 128 in
                  let hi4 := if bool_decide (b0 = 244) then 143 else 191 in
                  if bool_decide (240 ≤ b0 ≤ 244) && bool_decide (lo4 ≤ b1 ≤ hi4)
                     && is_cont c2 && is_cont c3 then Some 4%nat else None
              end
          end
      end
  end.

(** What a string decodes back to after JSON encoding: ill-formed bytes become
    U+FFFD.  [k] counts the continuation bytes of the current rune still to be
    copied. *)
Fixpoint to_valid_utf8_go (k : nat) (s : string) : string :=
  match s with
  | EmptyString => EmptyString
  | String c s' =>
      match k with
      | S k' => String c (to_valid_utf8_go k' s')
      | O =>
          match rune_len s with
          | Some n => String c (to_valid_utf8_go (pred n) s')
          | None => String (chr 239) (String (chr 191) (String (chr 189) (to_valid_utf8_go 0 s')))
          end
      end
  end.
Definition to_valid_utf8 : string → string := to_valid_utf8_go 0.

(** ** Quoting *)

Definition hex_digit (d : Z) : ascii := if bool_decide (d < 10) then chr (48 + d) else chr (87 + d).

(** The escape of one ASCII byte under [escapeHTML]; safe bytes stand for themselves. *)
Definition escape_byte (c : ascii) : string :=
  let b := byte_of c in
  if bool_decide (b = 34) || bool_decide (b = 92) then String (chr 92) (String c "")
  else if bool_decide (b = 8) then "\b"
  else if bool_decide (b = 12) then "\f"
  else if bool_decide (b = 10) then "\n"
  else if bool_decide (b = 13) then "\r"
  else if bool_decide (b = 9) then "\t"
  else if bool_decide (b < 32) || bool_decide (b = 60) || bool_decide (b = 62) || bool_decide (b = 38)
  then "\u00" +:+ String (hex_digit (b / 16)) (String (hex_digit (b mod 16)) "")
  else String c "".

(** U+2028 and U+2029 (bytes E2 80 A8, E2 80 A9) at the head of a string. *)
Definition line_sep (s : string) : option ascii :=
  match s with
  | String c0 (String c1 (String c2 _)) =>
      if bool_decide (byte_of c0 = 226) && bool_decide (byte_of c1 = 128) then
        if bool_decide (byte_of c2 = 168) then Some "8"%char
        else if bool_decide (byte_of c2 = 169) then Some "9"%char else None
      else None
  | _ => None
  end.

(** [skip]: bytes of the current rune to drop (already escaped);
    [copy]: bytes of the current rune to copy. *)
Fixpoint quote_go (skip copy : nat) (s : string) : string :=
  match s with
  | EmptyString => EmptyString
  | String c s' =>
      match skip, copy with
      | S k, _ => quote_go k copy s'
      | O, S k => String c (quote_go 0 k s')
      | O, O =>
          if bool_decide (byte_of c < 128) then escape_byte c +:+ quote_go 0 0 s'
          else match line_sep s with
               | Some d => "\u202" +:+ String d (quote_go 2 0 s')
               | None =>
                   match rune_len s with
                   | Some n => String c (quote_go 0 (pred n) s')
                   | None => "\ufffd" +:+ quote_go 0 0 s'
                   end
               end
      end
  end.

(** [json.Marshal] of a string. *)
Definition json_string (s : string) : string :=
  String (chr 34) (quote_go 0 0 s) +:+ String (chr 34) "".

(** ** json.RawMessage: validity and compaction *)

Definition is_json_space (c : ascii) : bool :=
  let b := byte_of c in
  bool_decide (b = 32) || bool_decide (b = 9) || bool_decide (b = 10) || bool_decide (b = 13).

(** [appendCompact] with [escape = true]; [ins]: inside a string literal;
    [esc]: after a backslash in one. *)
Fixpoint compact_go (skip : nat) (ins esc : bool) (s : string) : string :=
  match s with
  | EmptyString => EmptyString
  | String c s' =>
      match skip with
      | S k => compact_go k ins esc s'
      | O =>
          let b := byte_of c in
          let ins' := if ins then negb (bool_decide (b = 34)) || esc else bool_decide (b = 34) in
          let esc' := ins && negb esc && bool_decide (b = 92) in
          if bool_decide (b = 60) || bool_decide (b = 62) || bool_decide (b = 38)
          then "\u00" +:+ String (hex_digit (b / 16))
                 (String (hex_digit (b mod 16)) (compact_go 0 ins' esc' s'))
          else match line_sep s with
               | Some d => "\u202" +:+ String d (compact_go 2 ins' esc' s')
               | None =>
                   if negb ins && is_json_space c then compact_go 0 ins' esc' s'
                   else String c (compact_go 0 ins' esc' s')
               end
      end
  end.
Definition compact : string → string := compact_go 0 false false.

Fixpoint skip_space (s : string) : string :=
  match s with
  | String c s' => if is_json_space c then skip_space s' else s
  | EmptyString => EmptyString
  end.

Definition is_hex (c : ascii) : bool :=
  let b := byte_of c in
  bool_decide (48 ≤ b ≤ 57) || bool_decide (65 ≤ b ≤ 70) || bool_decide (97 ≤ b ≤ 102).

(** The rest of a string literal after its opening quote. *)
Fixpoint scan_string (s : string) : option string :=
  match s with
  | EmptyString => None
  | String c s' =>
      let b := byte_of c in
      if bool_decide (b = 34) then Some s'
      else if bool_decide (b < 32) then None
      else if bool_decide (b = 92) then
        match s' with
        | String e s2 =>
            if has_byte e (String (chr 34) "\/bfnrt") then scan_string s2
            else if bool_decide (e = "u"%char) then
              match s2 with
              | String h1 (String h2 (String h3 (String h4 s3))) =>
                  if is_hex h1 && is_hex h2 && is_hex h3 && is_hex h4 then scan_string s3 else None
              | _ => None
              end
            else None
        | EmptyString => None
        end
      else scan_string s'
  end.

Fixpoint scan_digits (s : string) : string :=
  match s with
  | String c s' => if bool_decide (48 ≤ byte_of c ≤ 57) then scan_digits s' else s
  | EmptyString => EmptyString
  end.

(** One or more digits. *)
Definition scan_digits1 (s : string) : option string :=
  match s with
  | String c s' => if bool_decide (48 ≤ byte_of c ≤ 57) then Some (scan_digits s') else None
  | EmptyString => None
  end.

(** The rest of a string that starts with byte [c]. *)
Definition peel (c : ascii) (s : string) : option string :=
  match s with
  | String d r => if bool_decide (d = c) then Some r else None
  | EmptyString => None
  end.

Definition scan_int (s : string) : option string :=
  match peel "0" s with Some r => Some r | None => scan_digits1 s end.

Definition scan_frac (s : string) : option string :=
  match peel "." s with Some r => scan_digits1 r | None => Some s end.

Definition scan_exp (s : string) : option string :=
  match (match peel "e" s with Some r => Some r | None => peel "E" s end) with
  | Some r => scan_digits1 (match peel "+" r with Some r' => r' | None => default r (peel "-" r) end)
  | None => Some s
  end.

Definition scan_number (s : string) : option string :=
  scan_int (default s (peel "-" s)) ≫= λ r, scan_frac r ≫= scan_exp.

Fixpoint strip_prefix (p s : string) : option string :=
  match p, s with
  | EmptyString, _ => Some s
  | String a p', String b s' => if bool_decide (a = b) then strip_prefix p' s' else None
  | _, _ => None
  end.

Definition scan_lit (s : string) : option string :=
  match strip_prefix "true" s, strip_prefix "false" s, strip_prefix "null" s with
  | Some r, _, _ | None, Some r, _ | None, None, Some r => Some r
  | None, None, None => scan_number s
  end.

(** One JSON value, with what follows it; [fuel] bounds the nesting and the
    number of elements, twice the length of the text being enough. *)
Fixpoint scan_value (fuel : nat) (s : string) : option string :=
  match fuel with
  | O => None
  | S n =>
      match skip_space s with
      | EmptyString => None
      | String c r as s0 =>
          if bool_decide (c = chr 34) then scan_string r
          else if bool_decide (c = "{"%char) then
            match peel "}" (skip_space r) with Some r' => Some r' | None => scan_members n r end
          else if bool_decide (c = "["%char) then
            match peel "]" (skip_space r) with Some r' => Some r' | None => scan_elems n r end
          else scan_lit s0
      end
  end
with scan_members (fuel : nat) (s : string) : option string :=
  match fuel with
  | O => None
  | S n =>
      peel (chr 34) (skip_space s) ≫= λ r0,
      scan_string r0 ≫= λ r1,
      peel ":" (skip_space r1) ≫= λ r2,
      scan_value n r2 ≫= λ r3,
      match peel "," (skip_space r3) with
      | Some r4 => scan_members n r4
      | None => peel "}" (skip_space r3)
      end
  end
with scan_elems (fuel : nat) (s : string) : option string :=
  match fuel with
  | O => None
  | S n =>
      scan_value n s ≫= λ r1,
      match peel "," (skip_space r1) with
      | Some r2 => scan_elems n r2
      | None => peel "]" (skip_space r1)
      end
  end.

(** [json.Valid]: exactly one value and trailing space. *)
Definition json_valid (s : string) : bool :=
  match scan_value (S (2 * String.length s)) s with
  | Some r => bool_decide (skip_space r = "")
  | None => false
  end.

(** [json.Marshal] of a [json.RawMessage]. *)
Definition json_raw (s : string) : option string :=
  if json_valid s then Some (compact s) else None.

(** ** Facts *)

Lemma byte_of_range c : 0 ≤ byte_of c < 256.
Proof.
  unfold byte_of. split; [lia|]. pose proof (N_ascii_bounded c) as H. change 256%N with (Z.to_N 256) in H. lia.
Qed.

Lemma chr_byte_of c : chr (byte_of c) = c.
Proof. unfold chr, byte_of. by rewrite N2Z.id, ascii_N_embedding. Qed.

(** A check of all bytes decides a statement about one. *)
Lemma all_ascii (P : ascii → bool) : forallb P (chr <$> seqZ 0 256) = true → ∀ c, P c = true.
Proof.
  intros H c. rewrite forallb_forall in H. apply H, list_elem_of_In. rewrite <-(chr_byte_of c).
  apply list_elem_of_fmap_2, elem_of_seqZ. pose proof (byte_of_range c). lia.
Qed.

Fixpoint all_bytes (P : ascii → bool) (s : string) : bool :=
  match s with EmptyString => true | String c s' => P c && all_bytes P s' end.

Definition is_ascii7 (c : ascii) : bool := bool_decide (byte_of c < 128).

(** Pure ASCII text survives the encoder's UTF-8 repair unchanged. *)
Lemma to_valid_utf8_ascii s : all_bytes is_ascii7 s = true → to_valid_utf8 s = s.
Proof.
  unfold to_valid_utf8. induction s as [|c s IH]; [done|].
  cbn [all_bytes]. intros [Hc Hs]%andb_true_iff.
  unfold is_ascii7 in Hc. cbn [to_valid_utf8_go rune_len]. rewrite Hc. cbn. by rewrite IH.
Qed.
