(* ===== verification/JsonText.v ===== *)
(** * The texts of encoding/json: grammar and scanner

    The JSON grammar as an inductive definition, and the scanner of [Json]
    measured against it: what the scanner takes is, compacted, a text of the
    grammar; a text of the grammar is taken whole, whatever follows; a text that
    was cut short and continued by another object is refused.  The files of the
    write-ahead log and of the cursor store are read with this scanner. *)
From Stdlib Require Import Ascii.
From stdpp Require Import base numbers strings list.
From S2P Require Import Prelude GoStr Json.
Local Open Scope Z_scope.

Definition quote : ascii := chr 34.

(** ** White space *)

Definition spaces (w : string) : Prop := all_bytes is_json_space w = true.

Lemma spaces_nil : spaces "".
Proof. done. Qed.

Lemma skip_spaces w s : spaces w → skip_space (w +:+ s) = skip_space s.
Proof.
  unfold spaces. induction w as [|c w IH]; [done|]. rewrite str_app_cons. cbn [all_bytes skip_space].
  intros [-> Hw]%andb_true_iff. auto.
Qed.

Lemma skip_space_cons c s : is_json_space c = false → skip_space (String c s) = String c s.
Proof. intros H. cbn. by rewrite H. Qed.

Lemma skip_space_idem s : skip_space (skip_space s) = skip_space s.
Proof. induction s as [|c s IH]; [done|]. cbn. destruct (is_json_space c) eqn:E; [done|]. cbn. by rewrite E. Qed.

Lemma skip_space_split s : ∃ w, spaces w ∧ s = w +:+ skip_space s.
Proof.
  induction s as [|c s (w & Hw & Hs)]; [by exists ""|]. cbn. destruct (is_json_space c) eqn:E.
  - exists (String c w). split; [unfold spaces; cbn; by rewrite E|]. rewrite str_app_cons. by f_equal.
  - by exists "".
Qed.

Lemma peel_Some c s r : peel c s = Some r ↔ s = String c r.
Proof.
  destruct s as [|d s]; cbn; [done|]. case_bool_decide; split; congruence.
Qed.

Lemma peel_eq c s : peel c (String c s) = Some s.
Proof. by apply peel_Some. Qed.

Lemma peel_ne c d s : d ≠ c → peel c (String d s) = None.
Proof. intros. cbn. by rewrite bool_decide_eq_false_2. Qed.

(** ** Splitting a concatenation *)

Lemma str_app_split p q a b :
  p +:+ q = a +:+ b → (∃ x, a = p +:+ x ∧ q = x +:+ b) ∨ (∃ x, p = a +:+ x ∧ b = x +:+ q).
Proof.
  revert a. induction p as [|c p IH]; intros a; [left; by exists a|].
  destruct a as [|d a]; rewrite ?str_app_cons, ?str_app_nil_l; [right; by exists (String c p)|].
  intros [= -> H]. destruct (IH a H) as [(x & -> & ->)|(x & -> & ->)]; [left|right]; by exists x.
Qed.

(** A cut strictly before the end of [a] or behind it. *)
Lemma str_cut p q a b :
  p +:+ q = a +:+ b → (∃ x, a = p +:+ x ∧ x ≠ "" ∧ q = x +:+ b) ∨ (∃ x, p = a +:+ x ∧ b = x +:+ q).
Proof.
  intros [(x & -> & ->)|H]%str_app_split; [|by right]. destruct x as [|c x]; [right|left].
  - exists "". by rewrite !str_app_nil_r.
  - by exists (String c x).
Qed.

Lemma all_bytes_app P s t : all_bytes P (s +:+ t) = all_bytes P s && all_bytes P t.
Proof. induction s as [|c s IH]; [done|]. rewrite str_app_cons. cbn. by rewrite IH, andb_assoc. Qed.

(** ** The grammar *)

Definition is_plain (c : ascii) : bool :=
  bool_decide (32 ≤ byte_of c) && negb (bool_decide (c = quote)) && negb (bool_decide (byte_of c = 92)).
Definition is_escape (c : ascii) : bool := has_byte c (String quote "\/bfnrt").

(** What stands between the quotes of a string. *)
Inductive jbody : string → Prop :=
| jb_nil : jbody ""
| jb_plain c b : is_plain c = true → jbody b → jbody (String c b)
| jb_esc e b : is_escape e = true → jbody b → jbody (String (chr 92) (String e b))
| jb_hex h1 h2 h3 h4 b : is_hex h1 && is_hex h2 && is_hex h3 && is_hex h4 = true → jbody b →
    jbody (String (chr 92) (String "u" (String h1 (String h2 (String h3 (String h4 b)))))).

Definition is_digit (c : ascii) : bool := bool_decide (48 ≤ byte_of c ≤ 57).
Definition num_char (c : ascii) : bool := is_digit c || has_byte c "+-.eE".

(** A number is a text the number scanner takes whole. *)
Definition jnum (v : string) : Prop := scan_number v = Some "" ∧ all_bytes num_char v = true.

Definition jstr (b : string) : string := String quote (b +:+ String quote "").

Inductive jval : string → Prop :=
| jv_str b : jbody b → jval (jstr b)
| jv_num v : jnum v → jval v
| jv_true : jval "true"
| jv_false : jval "false"
| jv_null : jval "null"
| jv_obj0 w : spaces w → jval (String "{" (w +:+ "}"))
| jv_obj m : jmembers m → jval (String "{" (m +:+ "}"))
| jv_arr0 w : spaces w → jval (String "[" (w +:+ "]"))
| jv_arr m : jelems m → jval (String "[" (m +:+ "]"))
with jmembers : string → Prop :=
| jm_one w1 b w2 w3 v w4 : spaces w1 → jbody b → spaces w2 → spaces w3 → jval v → spaces w4 →
    jmembers (w1 +:+ jstr b +:+ w2 +:+ String ":" (w3 +:+ v +:+ w4))
| jm_cons w1 b w2 w3 v w4 m : spaces w1 → jbody b → spaces w2 → spaces w3 → jval v → spaces w4 → jmembers m →
    jmembers (w1 +:+ jstr b +:+ w2 +:+ String ":" (w3 +:+ v +:+ w4 +:+ String "," m))
with jelems : string → Prop :=
| je_one w1 v w2 : spaces w1 → jval v → spaces w2 → jelems (w1 +:+ v +:+ w2)
| je_cons w1 v w2 m : spaces w1 → jval v → spaces w2 → jelems m → jelems (w1 +:+ v +:+ w2 +:+ String "," m).

Scheme jval_min := Minimality for jval Sort Prop
  with jmembers_min := Minimality for jmembers Sort Prop
  with jelems_min := Minimality for jelems Sort Prop.
Combined Scheme json_ind from jval_min, jmembers_min, jelems_min.

(** ** Strings *)

Lemma scan_plain c s : is_plain c = true → scan_string (String c s) = scan_string s.
Proof.
  unfold is_plain. intros Hc. reflect_bools. cbn [scan_string].
  rewrite (bool_decide_eq_false_2 (byte_of c = 34)); [by rewrite !bool_decide_eq_false_2 by lia|].
  intros Hq. match goal with H : c ≠ _ |- _ => apply H end. by rewrite <-(chr_byte_of c), Hq.
Qed.

Lemma scan_backslash e s :
  scan_string (String (chr 92) (String e s)) =
    if is_escape e then scan_string s
    else if bool_decide (e = "u"%char) then
      match s with
      | String h1 (String h2 (String h3 (String h4 s3))) =>
          if is_hex h1 && is_hex h2 && is_hex h3 && is_hex h4 then scan_string s3 else None
      | _ => None
      end
    else None.
Proof. reflexivity. Qed.

Lemma scan_backslash_brace s : scan_string (String (chr 92) (String "{" s)) = None.
Proof. reflexivity. Qed.

Lemma scan_body b t : jbody b → scan_string (b +:+ String quote t) = Some t.
Proof.
  induction 1 as [|c b Hc _ IH|e b He _ IH|h1 h2 h3 h4 b Hh _ IH]; rewrite ?str_app_cons, ?str_app_nil_l.
  - done.
  - by rewrite scan_plain.
  - by rewrite scan_backslash, He.
  - rewrite scan_backslash. change (is_escape "u") with false. cbn match. by rewrite Hh.
Qed.

(** A text after which no part of a cut value can go on: the next significant
    byte is not one a key, a member or an element is followed by. *)
Definition dead (s : string) : Prop :=
  match skip_space s with String c _ => has_byte c ",:]}" = false | EmptyString => True end.

(** What can stand behind a cut: nothing, or the brace of another object, in which
    the next quote does not close a string of the cut text. *)
Definition opens_entry (t : string) : Prop :=
  t = "" ∨ ∃ u, t = String "{" u ∧ ∀ r, scan_string u = Some r → dead r.

Lemma scan_opens t r : opens_entry t → scan_string t = Some r → dead r.
Proof.
  intros [->|(u & -> & Hu)]; [done|]. rewrite scan_plain by done. apply Hu.
Qed.

Lemma scan_cut_body b t p q r :
  jbody b → opens_entry t → b = p +:+ q → scan_string (p +:+ t) = Some r → dead r.
Proof.
  intros Hb Ht. revert p q r. induction Hb as [|c b Hc _ IH|e b He _ IH|h1 h2 h3 h4 b Hh _ IH]; intros p q r Heq.
  - destruct p; [|done]. by apply scan_opens.
  - destruct p as [|d p]; [by apply scan_opens|]. injection Heq as <- ->. rewrite str_app_cons, scan_plain by done. by eapply IH.
  - destruct p as [|d [|d' p]]; [by apply scan_opens|injection Heq as <- _|injection Heq as <- <- ->];
      rewrite ?str_app_cons, ?str_app_nil_l; [|rewrite scan_backslash, He; by eapply IH].
    destruct Ht as [->|(u & -> & _)]; [by vm_compute|]. by rewrite scan_backslash_brace.
  - destruct p as [|d0 [|d1 p]]; [by apply scan_opens|injection Heq as <- _|injection Heq as <- <- Heq];
      rewrite ?str_app_cons, ?str_app_nil_l.
    { destruct Ht as [->|(u & -> & _)]; [by vm_compute|]. by rewrite scan_backslash_brace. }
    rewrite scan_backslash. change (is_escape "u") with false. cbn match. rewrite bool_decide_eq_true_2 by done.
    destruct p as [|d2 [|d3 [|d4 [|d5 p]]]]; rewrite ?str_app_cons, ?str_app_nil_l.
    5: { injection Heq as <- <- <- <- ->. rewrite Hh. by eapply IH. }
    all: destruct Ht as [->|(u & -> & _)]; [done|]; destruct u as [|? [|? [|? u]]]; change (is_hex "{") with false;
      by rewrite ?andb_false_r.
Qed.

(** ** Numbers *)

Definition starts (P : ascii → bool) (t : string) : bool :=
  match t with String c _ => P c | EmptyString => false end.
Definition in_frac (c : ascii) : bool := is_digit c || bool_decide (c = "."%char).
Definition in_exp (c : ascii) : bool := is_digit c || bool_decide (c = "e"%char) || bool_decide (c = "E"%char).

(** What can follow a number without becoming a part of it. *)
Definition ends_number (t : string) : bool := negb (starts num_char t).

Lemma starts_app P v t : v ≠ "" → starts P (v +:+ t) = starts P v.
Proof. by destruct v. Qed.

Lemma starts_weaken (P Q : ascii → bool) t : (∀ c, P c = true → Q c = true) → starts Q t = false → starts P t = false.
Proof. intros H. destruct t as [|c t]; [done|]. cbn. intros Hq. destruct (P c) eqn:E; [|done]. by rewrite H in Hq. Qed.

Lemma digit_num c : is_digit c = true → num_char c = true.
Proof. unfold num_char. by intros ->. Qed.

Lemma digits_num v : all_bytes is_digit v = true → all_bytes num_char v = true.
Proof.
  induction v as [|c v IH]; [done|]. cbn. intros [Hc Hv]%andb_true_iff. by rewrite digit_num, IH.
Qed.

Lemma scan_digits_all v t : all_bytes is_digit v = true → starts is_digit t = false → scan_digits (v +:+ t) = t.
Proof.
  intros Hv Ht. induction v as [|c v IH].
  - rewrite str_app_nil_l. destruct t as [|c t]; [done|]. cbn in Ht |- *. unfold is_digit in Ht. by rewrite Ht.
  - cbn in Hv. apply andb_true_iff in Hv as [Hc Hv]. rewrite str_app_cons. cbn. unfold is_digit in Hc. rewrite Hc. auto.
Qed.

Lemma scan_digits_split s : ∃ v, s = v +:+ scan_digits s ∧ all_bytes is_digit v = true.
Proof.
  induction s as [|c s (v & Hs & Hv)]; [by exists ""|]. cbn. fold (is_digit c). destruct (is_digit c) eqn:E; [|by exists ""].
  exists (String c v). rewrite str_app_cons. cbn. rewrite E. split; [by f_equal|done].
Qed.

Lemma scan_digits1_inv s r :
  scan_digits1 s = Some r →
  ∃ v, s = v +:+ r ∧ all_bytes is_digit v = true ∧ starts is_digit v = true ∧
    ∀ t, starts is_digit t = false → scan_digits1 (v +:+ t) = Some t.
Proof.
  destruct s as [|c s]; [done|]. cbn. fold (is_digit c). destruct (is_digit c) eqn:E; [|done]. intros [= <-].
  destruct (scan_digits_split s) as (v & Hs & Hv). exists (String c v). cbn [all_bytes starts]. rewrite E.
  split_and!; [rewrite str_app_cons; by f_equal|done|done|]. intros t Ht. rewrite str_app_cons. cbn. fold (is_digit c).
  by rewrite E, scan_digits_all.
Qed.

Lemma scan_int_inv s r :
  scan_int s = Some r →
  ∃ v, s = v +:+ r ∧ all_bytes num_char v = true ∧ starts is_digit v = true ∧
    ∀ t, starts is_digit t = false → scan_int (v +:+ t) = Some t.
Proof.
  unfold scan_int. destruct (peel "0" s) as [r'|] eqn:E.
  - intros [= ->]. apply peel_Some in E as ->. by exists "0".
  - intros (v & -> & Hv & Hs & Ht)%scan_digits1_inv. exists v. split_and!; try done; [by apply digits_num|].
    intros t Hd. destruct v as [|c v]; [done|]. rewrite str_app_cons in *. rewrite peel_ne; [by apply Ht|].
    intros ->. by rewrite peel_eq in E.
Qed.

Lemma scan_frac_inv s r :
  scan_frac s = Some r →
  ∃ v, s = v +:+ r ∧ all_bytes num_char v = true ∧ (v = "" ∨ ∃ v', v = String "." v') ∧
    ∀ t, starts in_frac t = false → scan_frac (v +:+ t) = Some t.
Proof.
  unfold scan_frac. destruct (peel "." s) as [r'|] eqn:E.
  - apply peel_Some in E as ->. intros (v & -> & Hv & Hs & Ht)%scan_digits1_inv. exists (String "." v).
    split_and!; [done|exact (digits_num v Hv)|by right; exists v|]. intros t Hd. rewrite str_app_cons, peel_eq. apply Ht.
    apply (starts_weaken _ in_frac); [|done]. unfold in_frac. by intros c ->.
  - intros [= ->]. exists "". split_and!; [done|done|by left|]. intros t Hd. rewrite str_app_nil_l.
    destruct (peel "." t) as [t'|] eqn:E'; [|done]. apply peel_Some in E' as ->. done.
Qed.

Lemma scan_exp_inv s r :
  scan_exp s = Some r →
  ∃ v, s = v +:+ r ∧ all_bytes num_char v = true ∧ (v = "" ∨ ∃ v', v = String "e" v' ∨ v = String "E" v') ∧
    ∀ t, starts in_exp t = false → scan_exp (v +:+ t) = Some t.
Proof.
  unfold scan_exp. intros H.
  assert (Hsign : ∀ s', scan_digits1 (match peel "+" s' with Some r' => r' | None => default s' (peel "-" s') end) = Some r →
    ∃ v, s' = v +:+ r ∧ all_bytes num_char v = true ∧ ∀ t, starts is_digit t = false →
      scan_digits1 (match peel "+" (v +:+ t) with Some r' => r' | None => default (v +:+ t) (peel "-" (v +:+ t)) end) = Some t).
  { intros s' Hs. destruct (peel "+" s') as [r'|] eqn:E1; [|destruct (peel "-" s') as [r'|] eqn:E2; cbn in Hs].
    - apply peel_Some in E1 as ->. apply scan_digits1_inv in Hs as (v & -> & Hv & _ & Ht). exists (String "+" v).
      split_and!; [done|exact (digits_num v Hv)|]. intros t Hd. rewrite str_app_cons, peel_eq. by apply Ht.
    - apply peel_Some in E2 as ->. apply scan_digits1_inv in Hs as (v & -> & Hv & _ & Ht). exists (String "-" v).
      split_and!; [done|exact (digits_num v Hv)|]. intros t Hd. rewrite str_app_cons, peel_ne, peel_eq by done. by apply Ht.
    - apply scan_digits1_inv in Hs as (v & -> & Hv & Hd & Ht). exists v. split_and!; [done|by apply digits_num|].
      intros t Ht'. destruct v as [|c v]; [done|]. rewrite str_app_cons in *. rewrite !peel_ne.
      + by apply Ht.
      + intros ->. by rewrite peel_eq in E2.
      + intros ->. by rewrite peel_eq in E1. }
  assert (Hend : ∀ t, starts in_exp t = false → starts is_digit t = false).
  { intros t. apply starts_weaken. unfold in_exp. by intros c ->. }
  destruct (peel "e" s) as [r'|] eqn:E1; [|destruct (peel "E" s) as [r'|] eqn:E2].
  - apply peel_Some in E1 as ->. apply Hsign in H as (v & -> & Hv & Ht). exists (String "e" v).
    split_and!; [done|done|right; eauto|]. intros t Hd. rewrite str_app_cons, peel_eq. auto.
  - apply peel_Some in E2 as ->. apply Hsign in H as (v & -> & Hv & Ht). exists (String "E" v).
    split_and!; [done|done|right; eauto|]. intros t Hd. rewrite str_app_cons, peel_ne, peel_eq by done. auto.
  - injection H as ->. exists "". split_and!; [done|done|by left|]. intros t Hd. rewrite str_app_nil_l.
    destruct (peel "e" t) as [t'|] eqn:E3; [by apply peel_Some in E3 as ->|].
    destruct (peel "E" t) as [t'|] eqn:E4; [by apply peel_Some in E4 as ->|done].
Qed.

Lemma scan_number_inv s r :
  scan_number s = Some r →
  ∃ v, s = v +:+ r ∧ v ≠ "" ∧ all_bytes num_char v = true ∧ ∀ t, ends_number t = true → scan_number (v +:+ t) = Some t.
Proof.
  unfold scan_number. intros H.
  assert (Hrest : ∀ s', scan_int s' ≫= (λ r, scan_frac r ≫= scan_exp) = Some r →
    ∃ v, s' = v +:+ r ∧ starts is_digit v = true ∧ all_bytes num_char v = true ∧
      ∀ t, ends_number t = true → scan_int (v +:+ t) ≫= (λ r, scan_frac r ≫= scan_exp) = Some t).
  { intros s'. destruct (scan_int s') as [r1|] eqn:E1; [|done]. cbn. destruct (scan_frac r1) as [r2|] eqn:E2; [|done]. cbn.
    intros E3. apply scan_int_inv in E1 as (v1 & -> & Hn1 & Hs1 & H1). apply scan_frac_inv in E2 as (v2 & -> & Hn2 & Hs2 & H2).
    apply scan_exp_inv in E3 as (v3 & -> & Hn3 & Hs3 & H3). exists (v1 +:+ v2 +:+ v3). rewrite !str_app_assoc. split_and!; [done|..].
    - destruct v1; [done|]. done.
    - by rewrite !all_bytes_app, Hn1, Hn2, Hn3.
    - intros t Ht%negb_true_iff. rewrite !str_app_assoc. rewrite H1.
      + cbn. rewrite H2; [cbn; apply H3; revert Ht; apply starts_weaken|].
        * intros c Hc. unfold in_exp in Hc. unfold num_char. destruct (is_digit c); [done|]. cbn in Hc.
          apply orb_true_iff in Hc as [->%bool_decide_eq_true_1| ->%bool_decide_eq_true_1]; done.
        * destruct Hs3 as [->|(v' & [-> | ->])]; [|done|done]. rewrite str_app_nil_l. revert Ht. apply starts_weaken.
          intros c Hc. unfold in_frac in Hc. unfold num_char. destruct (is_digit c); [done|]. cbn in Hc.
          by apply bool_decide_eq_true_1 in Hc as ->.
      + destruct Hs2 as [->|(v' & ->)]; [|done]. rewrite str_app_nil_l.
        destruct Hs3 as [->|(v' & [-> | ->])]; [|done|done]. rewrite str_app_nil_l. revert Ht. apply starts_weaken. apply digit_num. }
  destruct (peel "-" s) as [s'|] eqn:E.
  - apply peel_Some in E as ->. destruct (Hrest s' H) as (v & -> & _ & Hn & Ht). exists (String "-" v).
    split_and!; [done|done|done|]. intros t He. rewrite str_app_cons, peel_eq. by apply Ht.
  - destruct (Hrest s H) as (v & -> & Hd & Hn & Ht). exists v. split_and!; [done|by destruct v|done|]. intros t He.
    destruct v as [|c v]; [done|]. rewrite str_app_cons in *. rewrite peel_ne; [by apply Ht|]. intros ->. by rewrite peel_eq in E.
Qed.

Lemma jnum_scan v t : jnum v → ends_number t = true → scan_number (v +:+ t) = Some t.
Proof.
  intros [Hv _] Ht. apply scan_number_inv in Hv as (v' & Heq & _ & _ & H). rewrite str_app_nil_r in Heq. subst v'. auto.
Qed.

(** ** The scanner takes every text of the grammar *)

Lemma scan_value_spaces n w s : spaces w → scan_value n (w +:+ s) = scan_value n s.
Proof. intros Hw. destruct n as [|n]; [done|]. cbn [scan_value]. by rewrite skip_spaces. Qed.

Lemma num_not_space c : num_char c = true → is_json_space c = false.
Proof. destruct c as [[] [] [] [] [] [] [] []]; intros Hc; vm_compute in Hc |- *; congruence. Qed.

Lemma ends_spaces w s : spaces w → ends_number s = true → ends_number (w +:+ s) = true.
Proof.
  unfold spaces. destruct w as [|c w]; [done|]. cbn. intros [Hc _]%andb_true_iff _.
  unfold ends_number. rewrite str_app_cons. cbn [starts]. destruct (num_char c) eqn:E; [|done]. by rewrite num_not_space in Hc.
Qed.

Lemma scan_num_value n v t : jnum v → ends_number t = true → scan_value (S n) (v +:+ t) = Some t.
Proof.
  intros Hv Ht. pose proof (jnum_scan v t Hv Ht) as Hs. destruct Hv as [Hv Hn].
  destruct v as [|c v]; [done|]. cbn [all_bytes] in Hn. apply andb_true_iff in Hn as [Hc _].
  rewrite str_app_cons in *. cbn [scan_value]. rewrite skip_space_cons by (by apply num_not_space).
  assert (Hlit : scan_lit (String c (v +:+ t)) = scan_number (String c (v +:+ t))).
  { unfold scan_lit. cbn [strip_prefix].
    rewrite !bool_decide_eq_false_2 by (intros <-; vm_compute in Hc; discriminate). done. }
  rewrite !bool_decide_eq_false_2 by (intros ->; vm_compute in Hc; discriminate). by rewrite Hlit.
Qed.

(** The first byte of a value. *)
Lemma jval_first v : jval v → ∃ c v', v = String c v' ∧ is_json_space c = false ∧ has_byte c ",:]}" = false.
Proof.
  destruct 1 as [b Hb|v [Hv Hn]| | | |w Hw|m Hm|w Hw|m Hm]; try by eexists _, _.
  destruct v as [|c v]; [done|]. cbn in Hn. apply andb_true_iff in Hn as [Hc _]. exists c, v. split_and!; [done|by apply num_not_space|].
  destruct c as [[] [] [] [] [] [] [] []]; vm_compute in Hc |- *; congruence.
Qed.

Lemma jmembers_first m : jmembers m → ∃ w m', spaces w ∧ m = w +:+ String quote m'.
Proof.
  destruct 1 as [w1 b w2 w3 v w4 Hw|w1 b w2 w3 v w4 m Hw]; eexists w1, _; (split; [done|]); unfold jstr;
    rewrite str_app_cons; done.
Qed.

Lemma jelems_first m : jelems m → ∃ w c m', spaces w ∧ m = w +:+ String c m' ∧ is_json_space c = false ∧ has_byte c ",:]}" = false.
Proof.
  destruct 1 as [w1 v w2 Hw Hv|w1 v w2 m Hw Hv];
    destruct (jval_first v Hv) as (c & v' & -> & Hc); eexists w1, c, _; (split; [done|]); rewrite str_app_cons; done.
Qed.

Lemma skip_to c w s : spaces w → is_json_space c = false → skip_space (w +:+ String c s) = String c s.
Proof. intros Hw Hc. by rewrite skip_spaces, skip_space_cons. Qed.

Lemma scan_complete :
  (∀ v, jval v → ∀ n t, (2 * String.length v ≤ n)%nat → ends_number t = true → scan_value n (v +:+ t) = Some t) ∧
  (∀ m, jmembers m → ∀ n t, (2 * String.length m < n)%nat → scan_members n (m +:+ String "}" t) = Some t) ∧
  (∀ m, jelems m → ∀ n t, (2 * String.length m < n)%nat → scan_elems n (m +:+ String "]" t) = Some t).
Proof.
  apply json_ind.
  - intros b Hb [|n] t Hn Ht; [cbn in Hn; lia|]. unfold jstr. rewrite str_app_cons, str_app_assoc, str_app_cons, str_app_nil_l.
    cbn [scan_value]. rewrite skip_space_cons by done. by apply scan_body.
  - intros v Hv [|n] t Hn Ht; [|by apply scan_num_value]. destruct v; [by destruct Hv|cbn in Hn; lia].
  - by intros [|n] t Hn Ht; [cbn in Hn; lia|].
  - by intros [|n] t Hn Ht; [cbn in Hn; lia|].
  - by intros [|n] t Hn Ht; [cbn in Hn; lia|].
  - intros w Hw [|n] t Hn Ht; [cbn in Hn; lia|]. rewrite str_app_cons, str_app_assoc, str_app_cons, str_app_nil_l.
    cbn [scan_value]. rewrite skip_space_cons by done. cbn. by rewrite skip_to, peel_eq.
  - intros m Hm IH [|n] t Hn Ht; [cbn in Hn; lia|]. rewrite str_app_cons, str_app_assoc, str_app_cons, str_app_nil_l.
    cbn [scan_value]. rewrite skip_space_cons by done. destruct (jmembers_first m Hm) as (w & m' & Hw & Heq).
    rewrite bool_decide_eq_false_2, bool_decide_eq_true_2 by done.
    assert (peel "}" (skip_space (m +:+ String "}" t)) = None) as ->.
    { rewrite Heq, str_app_assoc, str_app_cons, skip_to by done. by apply peel_ne. }
    apply IH. cbn [String.length] in Hn. rewrite str_length_app in Hn. cbn in Hn. lia.
  - intros w Hw [|n] t Hn Ht; [cbn in Hn; lia|]. rewrite str_app_cons, str_app_assoc, str_app_cons, str_app_nil_l.
    cbn [scan_value]. rewrite skip_space_cons by done. cbn. by rewrite skip_to, peel_eq.
  - intros m Hm IH [|n] t Hn Ht; [cbn in Hn; lia|]. rewrite str_app_cons, str_app_assoc, str_app_cons, str_app_nil_l.
    cbn [scan_value]. rewrite skip_space_cons by done. destruct (jelems_first m Hm) as (w & c & m' & Hw & Heq & Hc & Hd).
    rewrite !bool_decide_eq_false_2, bool_decide_eq_true_2 by done.
    assert (peel "]" (skip_space (m +:+ String "]" t)) = None) as ->.
    { rewrite Heq, str_app_assoc, str_app_cons, skip_to by done. apply peel_ne. intros ->. done. }
    apply IH. cbn [String.length] in Hn. rewrite str_length_app in Hn. cbn in Hn. lia.
  - intros w1 b w2 w3 v w4 H1 Hb H2 H3 Hv IH H4 [|n] t Hn; [cbn in Hn; lia|]. unfold jstr in *. cbn [scan_members].
    repeat (rewrite ?str_app_assoc, ?str_app_cons, ?str_app_nil_l, ?str_length_app in *; cbn [String.length] in Hn).
    rewrite skip_to, peel_eq by done. cbn. rewrite scan_body by done. cbn. rewrite skip_to, peel_eq by done. cbn.
    rewrite scan_value_spaces, IH by (done || lia || by apply ends_spaces). cbn. rewrite !skip_to by done.
    by rewrite peel_ne, peel_eq.
  - intros w1 b w2 w3 v w4 m H1 Hb H2 H3 Hv IH H4 Hm IHm [|n] t Hn; [cbn in Hn; lia|]. unfold jstr in *. cbn [scan_members].
    repeat (rewrite ?str_app_assoc, ?str_app_cons, ?str_app_nil_l, ?str_length_app in *; cbn [String.length] in Hn).
    rewrite skip_to, peel_eq by done. cbn. rewrite scan_body by done. cbn. rewrite skip_to, peel_eq by done. cbn.
    rewrite scan_value_spaces, IH by (done || lia || by apply ends_spaces). cbn. rewrite !skip_to, peel_eq by done.
    apply IHm. lia.
  - intros w1 v w2 H1 Hv IH H2 [|n] t Hn; [cbn in Hn; lia|]. cbn [scan_elems].
    rewrite !str_app_assoc, !str_length_app in *.
    rewrite scan_value_spaces, IH by (done || lia || by apply ends_spaces). cbn. rewrite !skip_to by done.
    by rewrite peel_ne, peel_eq.
  - intros w1 v w2 m H1 Hv IH H2 Hm IHm [|n] t Hn; [cbn in Hn; lia|]. cbn [scan_elems].
    repeat (rewrite ?str_app_assoc, ?str_app_cons, ?str_length_app in *; cbn [String.length] in Hn).
    rewrite scan_value_spaces, IH by (done || lia || by apply ends_spaces). cbn. rewrite !skip_to, peel_eq by done.
    apply IHm. lia.
Qed.

Lemma scan_jval v n t : jval v → (2 * String.length v ≤ n)%nat → ends_number t = true → scan_value n (v +:+ t) = Some t.
Proof. intros. by apply scan_complete. Qed.

(** ** More fuel changes no answer *)

Lemma scan_mono n :
  (∀ s r, scan_value n s = Some r → scan_value (S n) s = Some r) ∧
  (∀ s r, scan_members n s = Some r → scan_members (S n) s = Some r) ∧
  (∀ s r, scan_elems n s = Some r → scan_elems (S n) s = Some r).
Proof.
  induction n as [|n (IHv & IHm & IHe)]; [done|]. split_and!; intros s r H.
  - cbn [scan_value] in H. remember (S n) as k. cbn [scan_value].
    destruct (skip_space s) as [|c s']; [done|]. case_bool_decide; [done|].
    case_bool_decide; [destruct (peel "}" _); [done|subst k; by apply IHm]|].
    case_bool_decide; [destruct (peel "]" _); [done|subst k; by apply IHe]|]. done.
  - cbn [scan_members] in H. remember (S n) as k. cbn [scan_members].
    apply bind_Some in H as (r0 & -> & H). cbn. apply bind_Some in H as (r1 & -> & H). cbn.
    apply bind_Some in H as (r2 & -> & H). cbn. apply bind_Some in H as (r3 & Hv & H). subst k. rewrite (IHv _ _ Hv). cbn [mbind option_bind].
    destruct (peel "," _); [by apply IHm|done].
  - cbn [scan_elems] in H. remember (S n) as k. cbn [scan_elems].
    apply bind_Some in H as (r1 & Hv & H). subst k. rewrite (IHv _ _ Hv). cbn [mbind option_bind].
    destruct (peel "," _); [by apply IHe|done].
Qed.

Lemma scan_value_mono n m s r : (n ≤ m)%nat → scan_value n s = Some r → scan_value m s = Some r.
Proof. induction 1 as [|m _ IH]; [done|]. intros H. by apply scan_mono, IH. Qed.

(** Whatever the fuel, an answer on a text of the grammar is the right one. *)
Lemma scan_jval_any v n t r : jval v → ends_number t = true → scan_value n (v +:+ t) = Some r → r = t.
Proof.
  intros Hv Ht H. apply (scan_value_mono _ (n + 2 * String.length v)) in H; [|lia].
  rewrite scan_jval in H; [congruence|done|lia|done].
Qed.

(** ** A text cut short

    A value that stops before its end and goes on with [t] is not a value, where
    [t] is nothing or another object. *)

Definition interrupts (t : string) : Prop := opens_entry t ∧ ∀ n r, scan_value n t = Some r → dead r.

Lemma dead_peel c s : has_byte c ",:]}" = true → dead s → peel c (skip_space s) = None.
Proof.
  unfold dead. destruct (skip_space s) as [|d s']; [done|]. intros Hc Hd. apply peel_ne. intros ->. congruence.
Qed.

Lemma dead_spaces w t : spaces w → opens_entry t → dead (w +:+ t).
Proof. intros Hw Ht. unfold dead. rewrite skip_spaces by done. by destruct Ht as [->|(u & -> & _)]. Qed.

Lemma opens_ends t : opens_entry t → ends_number t = true.
Proof. by intros [->|(u & -> & _)]. Qed.

Lemma spaces_prefix p x w : w = p +:+ x → spaces w → spaces p.
Proof. unfold spaces. intros ->. rewrite all_bytes_app. by intros [? _]%andb_true_iff. Qed.

Lemma peel_opens c w t : spaces w → opens_entry t → c ≠ "{"%char → peel c (skip_space (w +:+ t)) = None.
Proof. intros Hw Ht Hc. rewrite skip_spaces by done. destruct Ht as [->|(u & -> & _)]; [done|]. by apply peel_ne. Qed.

Section cut.
Context (t : string) (Ht : interrupts t).

Definition cut_value (v : string) : Prop :=
  ∀ p q n r, v = p +:+ q → q ≠ "" → scan_value n (p +:+ t) = Some r → dead r.

(** The cut falls before or into a value with space around it, or behind them. *)
Lemma cut_spaced w1 v w2 e z q :
  spaces w1 → jval v → cut_value v → spaces w2 → w1 +:+ v +:+ w2 +:+ e = z +:+ q → ends_number e = true →
  (∀ n r, scan_value n (z +:+ t) = Some r → dead r) ∨
  ∃ u, z = w1 +:+ v +:+ w2 +:+ u ∧ u ≠ "" ∧ e = u +:+ q.
Proof.
  destruct Ht as [Ho Hi]. intros H1 Hv Hcut H2 Heq He. symmetry in Heq.
  apply str_cut in Heq as [(x & Hw & _ & _)|(x & -> & Heq)].
  { left. intros n r. rewrite scan_value_spaces by (by eapply spaces_prefix). apply Hi. }
  symmetry in Heq. apply str_cut in Heq as [(y & Hx & Hne & _)|(y & -> & Heq)].
  { left. intros n r. rewrite str_app_assoc, scan_value_spaces by done. by eapply Hcut. }
  symmetry in Heq. apply str_app_split in Heq as [(x & Hy & _)|(u & -> & ->)].
  { left. intros n r. rewrite !str_app_assoc, scan_value_spaces by done. intros H.
    pose proof (spaces_prefix _ _ _ Hy H2) as Hyw. apply scan_jval_any in H as ->; [|done|]; [by apply dead_spaces|].
    by apply ends_spaces, opens_ends. }
  destruct u as [|c u]; [left|right].
  - intros n r. rewrite str_app_nil_r, !str_app_assoc, scan_value_spaces by done. intros H.
    apply scan_jval_any in H as ->; [by apply dead_spaces|done|by apply ends_spaces, opens_ends].
  - by exists (String c u).
Qed.

(** The same for the key of a member. *)
Lemma cut_key w1 b w2 R n p q :
  spaces w1 → jbody b → spaces w2 → w1 +:+ jstr b +:+ w2 +:+ String ":" R = p +:+ q →
  scan_members n (p +:+ t) = None ∨ ∃ z, p = w1 +:+ jstr b +:+ w2 +:+ String ":" z ∧ R = z +:+ q.
Proof.
  destruct Ht as [Ho _]. intros H1 Hb H2 Heq. destruct n as [|n]; [by left|]. cbn [scan_members]. symmetry in Heq.
  apply str_cut in Heq as [(x & Hw & _ & _)|(x & -> & Heq)].
  { left. by rewrite peel_opens by (done || by eapply spaces_prefix). }
  rewrite str_app_assoc, skip_spaces by done. unfold jstr in *.
  destruct x as [|c x]; [left; by rewrite <-(str_app_nil_l t), (peel_opens quote "")|].
  rewrite !str_app_cons in Heq. injection Heq as <- Heq. rewrite str_app_cons, skip_space_cons, peel_eq by done. cbn [mbind option_bind].
  rewrite str_app_assoc, str_app_cons, str_app_nil_l in Heq. symmetry in Heq.
  apply str_app_split in Heq as [(y & Hx & _)|(y & -> & Heq)].
  { left. destruct (scan_string (x +:+ t)) as [r|] eqn:E; [|done]. cbn. eapply scan_cut_body in E; [|done..].
    by rewrite dead_peel. }
  destruct y as [|c y].
  { left. rewrite str_app_nil_r. destruct (scan_string (b +:+ t)) as [r|] eqn:E; [|done]. cbn.
    eapply (scan_cut_body b t b "") in E; [by rewrite dead_peel|done|done|by rewrite str_app_nil_r]. }
  rewrite str_app_cons in Heq. injection Heq as <- Heq. rewrite str_app_assoc, str_app_cons, scan_body by done. cbn [mbind option_bind].
  symmetry in Heq. apply str_cut in Heq as [(z & Hy & _ & _)|(z & -> & Heq)].
  { left. by rewrite peel_opens by (done || by eapply spaces_prefix). }
  destruct z as [|c z].
  { left. rewrite str_app_nil_r. by rewrite peel_opens. }
  rewrite str_app_cons in Heq. injection Heq as <- ->. right. exists z. split; [|done].
  by rewrite !str_app_cons, !str_app_assoc, ?str_app_cons.
Qed.

(** No closing bracket where the contents should start. *)
Lemma cut_first w c m p x d :
  spaces w → is_json_space c = false → w +:+ String c m = p +:+ x → d ≠ c → d ≠ "{"%char →
  peel d (skip_space (p +:+ t)) = None.
Proof.
  destruct Ht as [Ho _]. intros Hw Hc Heq Hdc Hd. symmetry in Heq.
  apply str_cut in Heq as [(y & Hp & _ & _)|(y & -> & Heq)]; [by rewrite peel_opens by (done || by eapply spaces_prefix)|].
  destruct y as [|c' y]; [rewrite str_app_nil_r; by rewrite peel_opens|].
  rewrite str_app_cons in Heq. injection Heq as <- ->. rewrite str_app_assoc, str_app_cons, skip_to by done. by apply peel_ne.
Qed.

(** The part of an object or array before its last bracket, cut. *)
Lemma cut_inner m c p q : m +:+ String c "" = p +:+ q → q ≠ "" → ∃ x, m = p +:+ x.
Proof.
  intros Heq Hq. symmetry in Heq. apply str_app_split in Heq as [(x & -> & _)|(x & -> & Heq)]; [by exists x|].
  destruct x as [|d x]; [exists ""; by rewrite !str_app_nil_r|]. rewrite str_app_cons in Heq. injection Heq as _ Heq.
  destruct x; [|done]. by destruct q.
Qed.

Lemma cut_empty p q n r : p +:+ q = "" → scan_value n (p +:+ t) = Some r → dead r.
Proof. intros Heq. destruct p; [|done]. by apply Ht. Qed.

Lemma cut_lit v : v = "true" ∨ v = "false" ∨ v = "null" → cut_value v.
Proof.
  intros Hv p q n r Heq Hq. destruct p as [|c p]; [by apply Ht|]. destruct n as [|n]; [done|].
  assert (Hn : scan_lit (String c p +:+ t) = None).
  { destruct Ht as [[->|(u & -> & _)] _]; destruct Hv as [->|[->| ->]];
      repeat (destruct p as [|? p]; [cbn in Heq; injection Heq; intros; subst; reflexivity|]).
    all: destruct p; cbn in Heq; injection Heq; intros; subst; try discriminate.
    all: by destruct Hq. }
  assert (Hc : c = "t"%char ∨ c = "f"%char ∨ c = "n"%char) by (destruct Hv as [->|[->| ->]]; injection Heq as <- _; auto).
  rewrite str_app_cons in *. cbn [scan_value]. rewrite skip_space_cons by (by destruct Hc as [->|[->| ->]]).
  rewrite !bool_decide_eq_false_2 by (by destruct Hc as [->|[->| ->]]). by rewrite Hn.
Qed.

Lemma cut_num v : jnum v → cut_value v.
Proof.
  intros [_ Hn] p q n r -> Hq. destruct p as [|c p]; [by apply Ht|]. destruct n as [|n]; [done|].
  rewrite all_bytes_app in Hn. apply andb_true_iff in Hn as [Hn _]. pose proof Hn as Hcp.
  cbn [all_bytes] in Hcp. apply andb_true_iff in Hcp as [Hc _].
  rewrite str_app_cons. cbn [scan_value]. rewrite skip_space_cons by (by apply num_not_space).
  rewrite !bool_decide_eq_false_2 by (intros ->; vm_compute in Hc; discriminate).
  unfold scan_lit. cbn [strip_prefix]. rewrite !bool_decide_eq_false_2 by (intros <-; vm_compute in Hc; discriminate).
  change (String c (p +:+ t)) with (String c p +:+ t). intros (v & Heq & _ & Hv & _)%scan_number_inv. destruct Ht as [Ho _].
  apply str_app_split in Heq as [(x & -> & Hx)|(x & Hp & ->)].
  - destruct x as [|d x]; [by rewrite str_app_nil_l in Hx; subst; destruct Ho as [->|(u & -> & _)]|].
    rewrite all_bytes_app in Hv. apply andb_true_iff in Hv as [_ Hv]. destruct Ho as [->|(u & -> & _)]; [done|]. by injection Hx as <- _.
  - rewrite Hp, all_bytes_app in Hn. apply andb_true_iff in Hn as [_ Hn]. destruct x as [|d x]; [by destruct Ho as [->|(u & -> & _)]|].
    cbn [all_bytes] in Hn. apply andb_true_iff in Hn as [Hd _]. rewrite str_app_cons. unfold dead.
    rewrite skip_space_cons by (by apply num_not_space). destruct (jval_first "0") as (? & ? & _); [by apply jv_num|].
    destruct d as [[] [] [] [] [] [] [] []]; vm_compute in Hd |- *; congruence.
Qed.

(** What follows a value in an object or array: a comma and more, or the bracket. *)
Definition after_value (k : string → option string) (c : ascii) (r : string) : option string :=
  match peel "," (skip_space r) with Some r' => k r' | None => peel c (skip_space r) end.

Lemma after_dead k c n z :
  has_byte c ",:]}" = true → (∀ r, scan_value n (z +:+ t) = Some r → dead r) → scan_value n (z +:+ t) ≫= after_value k c = None.
Proof.
  intros Hc Hz. destruct (scan_value n (z +:+ t)) as [r|] eqn:E; [|done]. cbn. unfold after_value. by rewrite !dead_peel by auto.
Qed.

Lemma cut_last k c n w1 v w2 z q :
  has_byte c ",:]}" = true → spaces w1 → jval v → cut_value v → spaces w2 → w1 +:+ v +:+ w2 = z +:+ q →
  scan_value n (z +:+ t) ≫= after_value k c = None.
Proof.
  intros Hc H1 Hv IH H2 Heq. apply after_dead; [done|].
  destruct (cut_spaced w1 v w2 "" z q H1 Hv IH H2) as [Hr|(u & _ & Hu & Hq)];
    [by rewrite str_app_nil_r|done|intros; by eapply Hr|by destruct u].
Qed.

Lemma cut_next k c n w1 v w2 m z q :
  has_byte c ",:]}" = true → spaces w1 → jval v → cut_value v → spaces w2 → w1 +:+ v +:+ w2 +:+ String "," m = z +:+ q →
  (∀ p q, m = p +:+ q → k (p +:+ t) = None) → scan_value n (z +:+ t) ≫= after_value k c = None.
Proof.
  intros Hc H1 Hv IH H2 Heq Hk.
  destruct (cut_spaced w1 v w2 (String "," m) z q) as [Hr|(u & -> & Hu & Hq)]; try done; [apply after_dead; [done|intros; by eapply Hr]|].
  destruct u as [|d u]; [done|]. injection Hq as <- Hq. rewrite !str_app_assoc, scan_value_spaces by done.
  destruct (scan_value n _) as [r|] eqn:E; [|done]. cbn [mbind option_bind].
  apply scan_jval_any in E as ->; [|done|by apply ends_spaces]. unfold after_value.
  rewrite str_app_cons, !skip_to, peel_eq by done. by eapply Hk.
Qed.

(** A member whose key is not cut. *)
Lemma scan_key n w1 b w2 z :
  spaces w1 → jbody b → spaces w2 →
  scan_members (S n) ((w1 +:+ jstr b +:+ w2 +:+ String ":" z) +:+ t) = scan_value n (z +:+ t) ≫= after_value (scan_members n) "}".
Proof.
  intros H1 Hb H2. unfold jstr. cbn [scan_members]. rewrite !str_app_assoc, !str_app_cons, skip_to, peel_eq by done.
  cbn [mbind option_bind]. rewrite !str_app_assoc, str_app_cons, str_app_nil_l, scan_body by done. cbn [mbind option_bind].
  by rewrite skip_to, peel_eq by done.
Qed.

Lemma cut_str b : jbody b → cut_value (jstr b).
Proof.
  intros Hb p q n r Heq Hq. destruct p as [|c p]; [by apply Ht|]. destruct n as [|n]; [done|].
  unfold jstr in Heq. rewrite str_app_cons in Heq. injection Heq as <- Heq.
  destruct (cut_inner b quote p q Heq Hq) as [x Hx]. rewrite str_app_cons. cbn [scan_value]. rewrite skip_space_cons by done.
  rewrite bool_decide_eq_true_2 by done. eapply scan_cut_body; [done|apply Ht|done].
Qed.

(** An object or array: nothing behind the bracket that opens it can be taken when
    its contents are cut. *)
Lemma cut_object m :
  (∀ p x n, m = p +:+ x → peel "}" (skip_space (p +:+ t)) = None ∧ scan_members n (p +:+ t) = None) →
  cut_value (String "{" (m +:+ "}")).
Proof.
  intros IH p q n r Heq Hq. destruct p as [|c p]; [by apply Ht|]. destruct n as [|n]; [done|].
  rewrite str_app_cons in Heq. injection Heq as <- Heq. destruct (cut_inner m _ p q Heq Hq) as [x Hx].
  rewrite str_app_cons. cbn [scan_value]. rewrite skip_space_cons, bool_decide_eq_false_2, bool_decide_eq_true_2 by done.
  destruct (IH p x n Hx) as [-> ->]. done.
Qed.

Lemma cut_array m :
  (∀ p x n, m = p +:+ x → peel "]" (skip_space (p +:+ t)) = None ∧ scan_elems n (p +:+ t) = None) →
  cut_value (String "[" (m +:+ "]")).
Proof.
  intros IH p q n r Heq Hq. destruct p as [|c p]; [by apply Ht|]. destruct n as [|n]; [done|].
  rewrite str_app_cons in Heq. injection Heq as <- Heq. destruct (cut_inner m _ p q Heq Hq) as [x Hx].
  rewrite str_app_cons. cbn [scan_value]. rewrite skip_space_cons, !bool_decide_eq_false_2, bool_decide_eq_true_2 by done.
  destruct (IH p x n Hx) as [-> ->]. done.
Qed.

Lemma scan_cut :
  (∀ v, jval v → cut_value v) ∧
  (∀ m, jmembers m → ∀ p q n, m = p +:+ q → scan_members n (p +:+ t) = None) ∧
  (∀ m, jelems m → ∀ p q n, m = p +:+ q → scan_elems n (p +:+ t) = None).
Proof.
  pose proof (proj1 Ht) as Ho. apply json_ind; try first [by apply cut_str|by apply cut_num|apply cut_lit; by auto].
  - intros w Hw. apply cut_object. intros p x n Hx. pose proof (spaces_prefix _ _ _ Hx Hw). split; [by rewrite peel_opens|].
    destruct n as [|n]; [done|]. cbn [scan_members]. by rewrite peel_opens.
  - intros m Hm IH. apply cut_object. intros p x n Hx. split; [|by eapply IH].
    destruct (jmembers_first m Hm) as (w & m' & Hw & Hm'). by rewrite (cut_first w quote m' p x "}") by (done || congruence).
  - intros w Hw. apply cut_array. intros p x n Hx. pose proof (spaces_prefix _ _ _ Hx Hw). split; [by rewrite peel_opens|].
    destruct n as [|n]; [done|]. apply after_dead; [done|]. intros r. rewrite scan_value_spaces by done. apply Ht.
  - intros m Hm IH. apply cut_array. intros p x n Hx. split; [|by eapply IH].
    destruct (jelems_first m Hm) as (w & c & m' & Hw & Hm' & Hc & Hd).
    by rewrite (cut_first w c m' p x "]") by (done || congruence || by intros <-).
  - intros w1 b w2 w3 v w4 H1 Hb H2 H3 Hv IH H4 p q n Heq.
    destruct (cut_key w1 b w2 _ n p q H1 Hb H2 Heq) as [Hn|(z & -> & Hz)]; [done|]. destruct n as [|n]; [done|].
    rewrite scan_key by done. by apply (cut_last _ _ _ w3 v w4 _ q).
  - intros w1 b w2 w3 v w4 m H1 Hb H2 H3 Hv IH H4 Hm IHm p q n Heq.
    destruct (cut_key w1 b w2 _ n p q H1 Hb H2 Heq) as [Hn|(z & -> & Hz)]; [done|]. destruct n as [|n]; [done|].
    rewrite scan_key by done. apply (cut_next _ _ _ w3 v w4 m _ q); eauto.
  - intros w1 v w2 H1 Hv IH H2 p q n Heq. destruct n as [|n]; [done|]. by apply (cut_last (scan_elems n) _ _ w1 v w2 _ q).
  - intros w1 v w2 m H1 Hv IH H2 Hm IHm p q n Heq. destruct n as [|n]; [done|]. apply (cut_next (scan_elems n) _ _ w1 v w2 m _ q); eauto.
Qed.

(** An object cut anywhere behind its first byte is refused. *)
Lemma scan_cut_object m p q n : jval (String "{" m) → m = p +:+ q → q ≠ "" → scan_value n (String "{" p +:+ t) = None.
Proof.
  intros Hv Hm Hq. destruct n as [|n]; [done|]. rewrite str_app_cons. cbn [scan_value].
  rewrite skip_space_cons, bool_decide_eq_false_2, bool_decide_eq_true_2 by done.
  inversion Hv as [| v' [_ Hn] | | | |w Hw Heq|m' Hm' Heq| |]; subst; [by vm_compute in Hn| |].
  - destruct (cut_inner w _ p q Heq Hq) as [x Hx]. pose proof (spaces_prefix _ _ _ Hx Hw) as Hp. destruct Ht as [Ho _].
    rewrite peel_opens by done. destruct n as [|n]; [done|]. cbn [scan_members]. by rewrite peel_opens.
  - destruct (cut_inner m' _ p q Heq Hq) as [x Hx]. destruct (jmembers_first m' Hm') as (w & m2 & Hw & Hm2).
    rewrite (cut_first w quote m2 p x "}") by (done || congruence). by eapply scan_cut.
Qed.
End cut.

(** ** What the scanner takes is not empty *)

Lemma scan_string_shorter s r : scan_string s = Some r → (String.length r < String.length s)%nat.
Proof.
  induction s as [s IH] using (induction_ltof1 _ String.length). unfold ltof in IH. destruct s as [|c s]; [done|].
  assert (Hrec : ∀ s', (String.length s' < String.length (String c s))%nat → scan_string s' = Some r →
    (String.length r < String.length (String c s))%nat) by (intros s' Hs' H; specialize (IH s' Hs' H); lia).
  cbn [scan_string]. case_bool_decide; [intros [= <-]; cbn; lia|]. case_bool_decide; [done|].
  case_bool_decide; [|apply Hrec; cbn; lia]. destruct s as [|e s]; [done|]. destruct (has_byte e _); [apply Hrec; cbn; lia|].
  case_bool_decide; [|done]. destruct s as [|h1 [|h2 [|h3 [|h4 s]]]]; try done. destruct (_ && _ && _ && _); [|done]. apply Hrec. cbn. lia.
Qed.

Lemma skip_space_length s : (String.length (skip_space s) ≤ String.length s)%nat.
Proof. induction s as [|c s IH]; [done|]. cbn. destruct (is_json_space c); cbn; lia. Qed.

Lemma peel_skip_shorter c s r : peel c (skip_space s) = Some r → (String.length r < String.length s)%nat.
Proof. intros H%peel_Some. pose proof (skip_space_length s) as Hl. rewrite H in Hl. cbn in Hl. lia. Qed.

Lemma strip_prefix_length p s r : strip_prefix p s = Some r → (String.length s = String.length p + String.length r)%nat.
Proof.
  revert s. induction p as [|c p IH]; intros s; [by intros [= ->]|]. destruct s as [|d s]; [done|]. cbn.
  case_bool_decide; [|done]. intros Hr%IH. lia.
Qed.

Lemma scan_lit_shorter s r : scan_lit s = Some r → (String.length r < String.length s)%nat.
Proof.
  unfold scan_lit. destruct (strip_prefix "true" s) eqn:E1; [intros [= ->]; apply strip_prefix_length in E1; cbn in E1; lia|].
  destruct (strip_prefix "false" s) eqn:E2; [intros [= ->]; apply strip_prefix_length in E2; cbn in E2; lia|].
  destruct (strip_prefix "null" s) eqn:E3; [intros [= ->]; apply strip_prefix_length in E3; cbn in E3; lia|].
  intros (v & -> & Hv & _)%scan_number_inv. rewrite str_length_app. destruct v; [done|cbn; lia].
Qed.

Lemma scan_shorter n :
  (∀ s r, scan_value n s = Some r → (String.length r < String.length s)%nat) ∧
  (∀ s r, scan_members n s = Some r → (String.length r < String.length s)%nat) ∧
  (∀ s r, scan_elems n s = Some r → (String.length r < String.length s)%nat).
Proof.
  induction n as [|n (IHv & IHm & IHe)]; [done|]. split_and!; intros s r H.
  - cbn [scan_value] in H. pose proof (skip_space_length s) as Hl. destruct (skip_space s) as [|c s'] eqn:E; [done|]. cbn in Hl.
    case_bool_decide; [apply scan_string_shorter in H; lia|].
    case_bool_decide; [destruct (peel "}" (skip_space s')) eqn:E'; [injection H as ->; apply peel_skip_shorter in E'|apply IHm in H]; lia|].
    case_bool_decide; [destruct (peel "]" (skip_space s')) eqn:E'; [injection H as ->; apply peel_skip_shorter in E'|apply IHe in H]; lia|].
    apply scan_lit_shorter in H. cbn in H. lia.
  - cbn [scan_members] in H. apply bind_Some in H as (r0 & E0%peel_skip_shorter & H). apply bind_Some in H as (r1 & E1%scan_string_shorter & H).
    apply bind_Some in H as (r2 & E2%peel_skip_shorter & H). apply bind_Some in H as (r3 & E3%IHv & H).
    destruct (peel "," (skip_space r3)) eqn:E4; [apply peel_skip_shorter in E4; apply IHm in H|apply peel_skip_shorter in H]; lia.
  - cbn [scan_elems] in H. apply bind_Some in H as (r1 & E1%IHv & H).
    destruct (peel "," (skip_space r1)) eqn:E2; [apply peel_skip_shorter in E2; apply IHe in H|apply peel_skip_shorter in H]; lia.
Qed.
