(* ===== verification/JsonCodec.v ===== *)
(** * Encoding and decoding with encoding/json

    What [json.Marshal] makes of a [json.RawMessage] and of a string, read back:
    compaction yields a text of the grammar of [JsonText]; unquoting undoes
    quoting up to the repair of ill-formed UTF-8; the decoder splits an object
    into its members and a stream into its values. *)
From Stdlib Require Import Ascii.
From stdpp Require Import base numbers strings pretty list.
From S2P Require Import Prelude GoStr Json JsonText.
Local Open Scope Z_scope.

(** ** Compaction *)

(** Bytes that compaction copies wherever they stand. *)
Definition copied (c : ascii) : bool :=
  negb (bool_decide (byte_of c = 60) || bool_decide (byte_of c = 62) || bool_decide (byte_of c = 38)
        || bool_decide (byte_of c = 226)).

Lemma line_sep_226 c s : byte_of c ≠ 226 → line_sep (String c s) = None.
Proof. intros H. cbn. destruct s as [|c1 [|c2 s]]; [done|done|]. by rewrite bool_decide_eq_false_2. Qed.

Lemma compact_copied ins esc c s :
  copied c = true → (ins = true ∨ is_json_space c = false) →
  compact_go 0 ins esc (String c s) =
    String c (compact_go 0 (if ins then negb (bool_decide (byte_of c = 34)) || esc else bool_decide (byte_of c = 34))
                (ins && negb esc && bool_decide (byte_of c = 92)) s).
Proof.
  unfold copied. intros Hc Hs. apply negb_true_iff in Hc. apply orb_false_iff in Hc as [Hc H226]. cbn [compact_go].
  rewrite Hc. apply bool_decide_eq_false_1 in H226. rewrite line_sep_226 by done.
  assert (negb ins && is_json_space c = false) as ->; [|done]. destruct Hs as [-> | ->]; [done|apply andb_false_r].
Qed.

Lemma compact_spaces w s : spaces w → compact (w +:+ s) = compact s.
Proof.
  unfold spaces, compact. induction w as [|c w IH]; [done|]. rewrite str_app_cons. cbn [all_bytes]. intros [Hc Hw]%andb_true_iff.
  cbn [compact_go]. assert (line_sep (String c (w +:+ s)) = None) as ->.
  { apply line_sep_226. intros H. unfold is_json_space in Hc. by rewrite H in Hc. }
  assert (Hb : byte_of c = 32 ∨ byte_of c = 9 ∨ byte_of c = 10 ∨ byte_of c = 13).
  { unfold is_json_space in Hc. repeat (apply orb_true_iff in Hc as [Hc|Hc]); apply bool_decide_eq_true_1 in Hc; auto. }
  rewrite !(bool_decide_eq_false_2 (byte_of c = _)) by (intros ?; lia). rewrite Hc. cbn. auto.
Qed.

Lemma compact_skip s : compact s = compact (skip_space s).
Proof. destruct (skip_space_split s) as (w & Hw & ->). rewrite compact_spaces, skip_spaces, skip_space_idem by done. done. Qed.

Lemma num_copied c : num_char c = true → copied c = true ∧ byte_of c ≠ 34.
Proof. destruct c as [[] [] [] [] [] [] [] []]; intros Hc; vm_compute in Hc |- *; (discriminate || split; congruence). Qed.

Lemma compact_num v s : all_bytes num_char v = true → compact (v +:+ s) = v +:+ compact s.
Proof.
  unfold compact. induction v as [|c v IH]; [done|]. rewrite !str_app_cons. cbn [all_bytes]. intros [Hc Hv]%andb_true_iff.
  destruct (num_copied c Hc) as [Hp H34]. rewrite compact_copied by (done || right; by apply num_not_space).
  rewrite bool_decide_eq_false_2 by done. cbn [andb]. f_equal. auto.
Qed.

(** ** The text between two quotes *)

Lemma hex_bytes b : 0 ≤ b < 256 → is_hex (hex_digit (b / 16)) && is_hex (hex_digit (b mod 16)) = true.
Proof.
  intros Hb. assert (Hd : ∀ d, 0 ≤ d < 16 → is_hex (hex_digit d) = true).
  { intros d Hd. assert (H : forallb (λ d, is_hex (hex_digit d)) (seqZ 0 16) = true) by (vm_compute; reflexivity).
    rewrite forallb_forall in H. apply H, list_elem_of_In, elem_of_seqZ. lia. }
  rewrite !Hd; [done|apply Z.mod_pos_bound; lia|]. split; [apply Z.div_pos; lia|apply Z.div_lt_upper_bound; lia].
Qed.

Lemma line_sep_Some c s d :
  line_sep (String c s) = Some d →
  ∃ c1 c2 s', s = String c1 (String c2 s') ∧ byte_of c = 226 ∧ byte_of c1 = 128 ∧
    (byte_of c2 = 168 ∧ d = "8"%char ∨ byte_of c2 = 169 ∧ d = "9"%char).
Proof.
  destruct s as [|c1 [|c2 s']]; [done|done|]. cbn [line_sep].
  destruct (_ && _) eqn:E; [|done]. reflect_bools. intros Hd. exists c1, c2, s'. split_and!; try done.
  case_bool_decide; [injection Hd as <-; auto|]. case_bool_decide; [injection Hd as <-; auto|done].
Qed.

Lemma plain_high c : 128 ≤ byte_of c → is_plain c = true.
Proof.
  intros H. unfold is_plain. rewrite bool_decide_eq_true_2, !bool_decide_eq_false_2; [done|lia|intros ->; by apply H|lia].
Qed.

Lemma hex_copied c : is_hex c = true → copied c = true ∧ byte_of c ≠ 34 ∧ byte_of c ≠ 92.
Proof. destruct c as [[] [] [] [] [] [] [] []]; intros Hc; vm_compute in Hc |- *; (discriminate || split_and!; congruence). Qed.

Lemma escape_copied c : is_escape c = true → copied c = true.
Proof. destruct c as [[] [] [] [] [] [] [] []]; intros Hc; vm_compute in Hc |- *; congruence. Qed.

Lemma compact_hex c s : is_hex c = true → compact_go 0 true false (String c s) = String c (compact_go 0 true false s).
Proof.
  intros Hc. destruct (hex_copied c Hc) as (? & ? & ?). rewrite compact_copied by auto. by rewrite !bool_decide_eq_false_2.
Qed.

Lemma compact_string n s r :
  (String.length s ≤ n)%nat → scan_string s = Some r →
  ∃ b, jbody b ∧ compact_go 0 true false s = b +:+ String quote (compact r).
Proof.
  revert s. induction n as [|n IH]; intros s Hn Hs; (destruct s as [|c s]; [done|]); [cbn in Hn; lia|].
  cbn [String.length] in Hn. destruct (decide (byte_of c = 34)) as [H34|H34].
  { assert (c = quote) as -> by (by rewrite <-(chr_byte_of c), H34). injection Hs as <-. exists "". split; [apply jb_nil|by rewrite compact_copied by auto]. }
  destruct (decide (byte_of c = 92)) as [H92|H92].
  { assert (c = chr 92) as -> by (by rewrite <-(chr_byte_of c), H92). destruct s as [|e s]; [done|]. cbn [String.length] in Hn.
    rewrite scan_backslash in Hs. rewrite compact_copied by auto. cbn [negb orb andb].
    assert (Hins : ∀ e, (if true then negb (bool_decide (byte_of e = 34)) || true else bool_decide (byte_of e = 34)) = true)
      by (intros; apply orb_true_r).
    change (bool_decide (byte_of (chr 92) = 34)) with false. change (bool_decide (byte_of (chr 92) = 92)) with true. cbn [negb orb].
    destruct (is_escape e) eqn:He.
    - rewrite compact_copied by auto using escape_copied. rewrite Hins. cbn [negb andb].
      destruct (IH s) as (b & Hb & ->); [lia|done|]. eexists (String _ (String e b)). split; [by constructor|done].
    - case_bool_decide as Hu; [|done]. subst e. destruct s as [|h1 [|h2 [|h3 [|h4 s]]]]; try done.
      destruct (is_hex h1 && is_hex h2 && is_hex h3 && is_hex h4) eqn:Hh; [|done]. pose proof Hh as Hh'.
      apply andb_true_iff in Hh as [Hh H4]. apply andb_true_iff in Hh as [Hh H3]. apply andb_true_iff in Hh as [H1 H2].
      rewrite compact_copied by auto. rewrite Hins. cbn [negb andb]. rewrite !compact_hex by done.
      destruct (IH s) as (b & Hb & ->); [cbn in Hn; lia|done|].
      eexists (String _ (String "u" (String h1 (String h2 (String h3 (String h4 b)))))). split; [by apply jb_hex|done]. }
  cbn [scan_string] in Hs. rewrite bool_decide_eq_false_2 in Hs by done. case_bool_decide as H32; [done|].
  rewrite bool_decide_eq_false_2 in Hs by done.
  assert (Hp : is_plain c = true).
  { unfold is_plain. rewrite bool_decide_eq_true_2, !bool_decide_eq_false_2; [done|done|by intros ->|lia]. }
  cbn [compact_go]. rewrite !(bool_decide_eq_false_2 (byte_of c = 34)), !(bool_decide_eq_false_2 (byte_of c = 92)) by done. cbn [negb orb andb].
  destruct (bool_decide (byte_of c = 60) || bool_decide (byte_of c = 62) || bool_decide (byte_of c = 38)).
  { destruct (IH s) as (b & Hb & ->); [lia|done|].
    eexists (String _ (String "u" (String "0" (String "0" (String (hex_digit (byte_of c / 16)) (String (hex_digit (byte_of c mod 16)) b)))))).
    split; [|done]. apply jb_hex; [|done]. rewrite <-!andb_assoc. cbn [andb]. apply hex_bytes, byte_of_range. }
  destruct (line_sep (String c s)) as [d|] eqn:Hsep.
  - apply line_sep_Some in Hsep as (c1 & c2 & s' & -> & _ & Hc1 & Hc2). cbn [compact_go].
    rewrite !scan_plain in Hs by (apply plain_high; lia). destruct (IH s') as (b & Hb & ->); [cbn in Hn; lia|done|].
    eexists (String _ (String "u" (String "2" (String "0" (String "2" (String d b)))))). split; [|done].
    apply jb_hex; [|done]. by destruct Hc2 as [[_ ->]|[_ ->]].
  - destruct (IH s) as (b & Hb & ->); [lia|done|]. exists (String c b). split; [by apply jb_plain|done].
Qed.

(** ** What the scanner takes is, compacted, a text of the grammar *)

Lemma compact_char c s :
  copied c = true → is_json_space c = false → byte_of c ≠ 34 → compact (String c s) = String c (compact s).
Proof. intros. unfold compact. rewrite compact_copied by auto. by rewrite bool_decide_eq_false_2. Qed.

Lemma compact_quote s : compact (String quote s) = String quote (compact_go 0 true false s).
Proof. unfold compact. by rewrite compact_copied by auto. Qed.

Lemma strip_prefix_split p s r : strip_prefix p s = Some r → s = p +:+ r.
Proof.
  revert s. induction p as [|c p IH]; intros s; [by intros [= ->]|]. destruct s as [|d s]; [done|]. cbn.
  case_bool_decide; [|done]. subst d. intros H. by rewrite (IH _ H).
Qed.

Lemma compact_lit s r :
  scan_lit s = Some r → ∃ v, jval v ∧ compact s = v +:+ compact r.
Proof.
  unfold scan_lit. destruct (strip_prefix "true" s) as [r'|] eqn:E1.
  { intros [= ->]. apply strip_prefix_split in E1 as ->. exists "true". split; [apply jv_true|].
    rewrite !str_app_cons, str_app_nil_l. by rewrite !compact_char. }
  destruct (strip_prefix "false" s) as [r'|] eqn:E2.
  { intros [= ->]. apply strip_prefix_split in E2 as ->. exists "false". split; [apply jv_false|].
    rewrite !str_app_cons, str_app_nil_l. by rewrite !compact_char. }
  destruct (strip_prefix "null" s) as [r'|] eqn:E3.
  { intros [= ->]. apply strip_prefix_split in E3 as ->. exists "null". split; [apply jv_null|].
    rewrite !str_app_cons, str_app_nil_l. by rewrite !compact_char. }
  intros (v & -> & _ & Hv & Hs)%scan_number_inv. exists v. split; [|by apply compact_num].
  apply jv_num. split; [|done]. rewrite <-(str_app_nil_r v). by apply Hs.
Qed.

Lemma compact_close c s r :
  copied c = true → is_json_space c = false → byte_of c ≠ 34 → peel c (skip_space s) = Some r →
  compact s = String c (compact r).
Proof. intros ??? H%peel_Some. rewrite compact_skip, H. by apply compact_char. Qed.

Lemma compact_sound n :
  (∀ s r, scan_value n s = Some r → ∃ v, jval v ∧ compact s = v +:+ compact r) ∧
  (∀ s r, scan_members n s = Some r → ∃ m, jmembers m ∧ compact s = m +:+ String "}" (compact r)) ∧
  (∀ s r, scan_elems n s = Some r → ∃ m, jelems m ∧ compact s = m +:+ String "]" (compact r)).
Proof.
  induction n as [|n (IHv & IHm & IHe)]; [done|]. split_and!; intros s r H.
  - cbn [scan_value] in H. rewrite compact_skip. destruct (skip_space s) as [|c s']; [done|].
    case_bool_decide as Hc; [|case_bool_decide as Hc2; [|case_bool_decide as Hc3; [|by apply compact_lit]]].
    + subst c. destruct (compact_string _ s' r (le_n _) H) as (b & Hb & Heq). exists (jstr b). split; [by apply jv_str|].
      rewrite compact_quote, Heq. unfold jstr. by rewrite str_app_cons, str_app_assoc.
    + subst c. rewrite compact_char by done. destruct (peel "}" (skip_space s')) as [r'|] eqn:E.
      * injection H as ->. exists "{}". split; [by apply (jv_obj0 "")|]. by rewrite (compact_close "}" s' r).
      * destruct (IHm _ _ H) as (m & Hm & ->). exists (String "{" (m +:+ "}")). split; [by apply jv_obj|].
        by rewrite str_app_cons, str_app_assoc.
    + subst c. rewrite compact_char by done. destruct (peel "]" (skip_space s')) as [r'|] eqn:E.
      * injection H as ->. exists "[]". split; [by apply (jv_arr0 "")|]. by rewrite (compact_close "]" s' r).
      * destruct (IHe _ _ H) as (m & Hm & ->). exists (String "[" (m +:+ "]")). split; [by apply jv_arr|].
        by rewrite str_app_cons, str_app_assoc.
  - cbn [scan_members] in H. apply bind_Some in H as (r0 & E0 & H). apply bind_Some in H as (r1 & E1 & H).
    apply bind_Some in H as (r2 & E2 & H). apply bind_Some in H as (r3 & E3 & H).
    rewrite compact_skip. apply peel_Some in E0 as ->. change (chr 34) with quote. rewrite compact_quote.
    destruct (compact_string _ r0 r1 (le_n _) E1) as (b & Hb & ->). rewrite (compact_close ":" r1 r2) by done.
    destruct (IHv _ _ E3) as (v & Hv & ->). destruct (peel "," (skip_space r3)) as [r4|] eqn:E4.
    + rewrite (compact_close "," r3 r4) by done. destruct (IHm _ _ H) as (m & Hm & ->).
      exists ("" +:+ jstr b +:+ "" +:+ String ":" ("" +:+ v +:+ "" +:+ String "," m)). split; [by apply jm_cons|].
      unfold jstr. by rewrite !str_app_nil_l, !str_app_cons, !str_app_assoc, !str_app_cons, str_app_nil_l, str_app_assoc, str_app_cons.
    + rewrite (compact_close "}" r3 r) by done.
      exists ("" +:+ jstr b +:+ "" +:+ String ":" ("" +:+ v +:+ "")). split; [by apply jm_one|].
      unfold jstr. by rewrite str_app_nil_r, !str_app_nil_l, !str_app_cons, !str_app_assoc, !str_app_cons, str_app_nil_l.
  - cbn [scan_elems] in H. apply bind_Some in H as (r1 & E1 & H). destruct (IHv _ _ E1) as (v & Hv & ->).
    destruct (peel "," (skip_space r1)) as [r2|] eqn:E2.
    + rewrite (compact_close "," r1 r2) by done. destruct (IHe _ _ H) as (m & Hm & ->).
      exists ("" +:+ v +:+ "" +:+ String "," m). split; [by apply je_cons|].
      by rewrite !str_app_nil_l, !str_app_assoc, !str_app_cons.
    + rewrite (compact_close "]" r1 r) by done. exists ("" +:+ v +:+ ""). split; [by apply je_one|].
      by rewrite str_app_nil_r, str_app_nil_l.
Qed.

Lemma compact_jval b : json_valid b = true → jval (compact b).
Proof.
  unfold json_valid. destruct (scan_value _ b) as [r|] eqn:E; [|done]. intros Hr%bool_decide_eq_true_1.
  destruct (proj1 (compact_sound _) _ _ E) as (v & Hv & ->). rewrite (compact_skip r), Hr. by rewrite str_app_nil_r.
Qed.

(** ** Unquoting *)

Definition hex_val (c : ascii) : Z :=
  let b := byte_of c in
  if bool_decide (b ≤ 57) then b - 48 else if bool_decide (b ≤ 70) then b - 55 else b - 87.
Definition u4 (h1 h2 h3 h4 : ascii) : Z := ((hex_val h1 * 16 + hex_val h2) * 16 + hex_val h3) * 16 + hex_val h4.

Definition replacement : string := String (chr 239) (String (chr 191) (String (chr 189) "")).

(** [utf8.EncodeRune]: surrogates and numbers that are no code point become U+FFFD. *)
Definition encode_rune (r : Z) : string :=
  if bool_decide (r < 128) then String (chr r) ""
  else if bool_decide (r < 2048) then String (chr (192 + r / 64)) (String (chr (128 + r mod 64)) "")
  else if bool_decide (55296 ≤ r < 57344) || bool_decide (1114111 < r) then replacement
  else if bool_decide (r < 65536) then
    String (chr (224 + r / 4096)) (String (chr (128 + r / 64 mod 64)) (String (chr (128 + r mod 64)) ""))
  else String (chr (240 + r / 262144)) (String (chr (128 + r / 4096 mod 64))
         (String (chr (128 + r / 64 mod 64)) (String (chr (128 + r mod 64)) ""))).

Definition unescape_char (e : ascii) : ascii :=
  if bool_decide (e = "b"%char) then chr 8 else if bool_decide (e = "f"%char) then chr 12
  else if bool_decide (e = "n"%char) then chr 10 else if bool_decide (e = "r"%char) then chr 13
  else if bool_decide (e = "t"%char) then chr 9 else e.

Definition is_surrogate (r : Z) : bool := bool_decide (55296 ≤ r < 57344).

(** The text of a string literal, between its quotes, decoded; [copy] counts the
    bytes of the current rune still to be copied.  A surrogate escape is joined
    with the one that follows it when the two are a pair. *)
Fixpoint unquote_go (copy : nat) (s : string) : string :=
  match s with
  | EmptyString => EmptyString
  | String c s' =>
      match copy with
      | S k => String c (unquote_go k s')
      | O =>
          if bool_decide (byte_of c = 92) then
            match s' with
            | EmptyString => EmptyString
            | String e s2 =>
                if bool_decide (e = "u"%char) then
                  match s2 with
                  | String h1 (String h2 (String h3 (String h4 s3))) =>
                      let r := u4 h1 h2 h3 h4 in
                      if is_surrogate r then
                        match s3 with
                        | String b (String u (String g1 (String g2 (String g3 (String g4 s4))))) =>
                            let r' := u4 g1 g2 g3 g4 in
                            if bool_decide (byte_of b = 92) && bool_decide (u = "u"%char) &&
                               bool_decide (r < 56320) && bool_decide (56320 ≤ r' < 57344)
                            then encode_rune ((r - 55296) * 1024 + (r' - 56320) + 65536) +:+ unquote_go 0 s4
                            else replacement +:+ unquote_go 0 s3
                        | _ => replacement +:+ unquote_go 0 s3
                        end
                      else encode_rune r +:+ unquote_go 0 s3
                  | _ => EmptyString
                  end
                else String (unescape_char e) (unquote_go 0 s2)
            end
          else match rune_len s with
               | Some n => String c (unquote_go (pred n) s')
               | None => replacement +:+ unquote_go 0 s'
               end
      end
  end.
Definition unquote : string → string := unquote_go 0.

(** The shapes the quoting of one ASCII byte has. *)
Definition escape_shape (c : ascii) : bool :=
  match escape_byte c with
  | String d "" => is_plain d && bool_decide (d = c)
  | String b (String e "") => bool_decide (b = chr 92) && is_escape e && bool_decide (unescape_char e = c)
  | String b (String u (String h1 (String h2 (String h3 (String h4 ""))))) =>
      bool_decide (b = chr 92) && bool_decide (u = "u"%char) && (is_hex h1 && is_hex h2 && is_hex h3 && is_hex h4) &&
      negb (is_surrogate (u4 h1 h2 h3 h4)) && bool_decide (encode_rune (u4 h1 h2 h3 h4) = String c "")
  | _ => false
  end.

Lemma escape_cases c :
  byte_of c < 128 →
  (escape_byte c = String c "" ∧ is_plain c = true) ∨
  (∃ e, escape_byte c = String (chr 92) (String e "") ∧ is_escape e = true ∧ unescape_char e = c) ∨
  (∃ h1 h2 h3 h4, escape_byte c = String (chr 92) (String "u" (String h1 (String h2 (String h3 (String h4 ""))))) ∧
     is_hex h1 && is_hex h2 && is_hex h3 && is_hex h4 = true ∧ is_surrogate (u4 h1 h2 h3 h4) = false ∧
     encode_rune (u4 h1 h2 h3 h4) = String c "").
Proof.
  intros Hc. assert (Hall : implb (is_ascii7 c) (escape_shape c) = true).
  { apply (all_ascii (λ c, implb (is_ascii7 c) (escape_shape c))). vm_compute. reflexivity. }
  unfold is_ascii7 in Hall. rewrite bool_decide_eq_true_2 in Hall by done. cbn in Hall. unfold escape_shape in Hall.
  destruct (escape_byte c) as [|d [|e [|h1 [|h2 [|h3 [|h4 [|]]]]]]]; try done; reflect_bools; subst.
  - by left.
  - right; left. by exists e.
  - right; right. exists h1, h2, h3, h4. split_and!; try done.
    repeat match goal with H : is_hex _ = true |- _ => rewrite H; clear H end. done.
Qed.

Lemma rune_len_ascii c s : byte_of c < 128 → rune_len (String c s) = Some 1%nat.
Proof. intros H. cbn. by rewrite bool_decide_eq_true_2. Qed.

(** A rune of more than one byte, with what follows it. *)
Lemma rune_len_long c s n :
  128 ≤ byte_of c → rune_len (String c s) = Some n →
  ∃ x r, s = x +:+ r ∧ n = S (String.length x) ∧ (1 ≤ String.length x ≤ 3)%nat ∧ all_bytes (λ c, bool_decide (128 ≤ byte_of c)) x = true ∧
    ∀ t, rune_len (String c (x +:+ t)) = Some n.
Proof.
  intros Hc H. cbn [rune_len] in H. rewrite bool_decide_eq_false_2 in H by lia. destruct s as [|c1 s]; [done|].
  assert (Hcont : ∀ c, is_cont c = true → 128 ≤ byte_of c) by (intros ? ?%bool_decide_eq_true_1; lia).
  destruct (bool_decide (194 ≤ byte_of c ≤ 223)) eqn:E2.
  { destruct (is_cont c1) eqn:E1; [|done]. injection H as <-. exists (String c1 ""), s. split_and!; try done; try (cbn; lia).
    - cbn. by rewrite bool_decide_eq_true_2 by auto.
    - intros t. rewrite !str_app_cons, str_app_nil_l. cbn [rune_len]. rewrite bool_decide_eq_false_2 by lia. by rewrite E2, E1. }
  destruct s as [|c2 s]; [done|]. destruct (bool_decide (224 ≤ byte_of c ≤ 239)) eqn:E3.
  { destruct (_ && is_cont c2) eqn:E1; [|done]. injection H as <-. exists (String c1 (String c2 "")), s. split_and!; try done; try (cbn; lia).
    - cbn. apply andb_true_iff in E1 as [Hb Hc2]. apply bool_decide_eq_true_1 in Hb.
      rewrite !bool_decide_eq_true_2; [done|by auto|]. repeat case_bool_decide; lia.
    - intros t. rewrite !str_app_cons, str_app_nil_l. cbn [rune_len]. rewrite bool_decide_eq_false_2 by lia. by rewrite E2, E3, E1. }
  destruct s as [|c3 s]; [done|]. destruct (_ && is_cont c3) eqn:E1; [|done]. injection H as <-.
  exists (String c1 (String c2 (String c3 ""))), s. split_and!; try done; try (cbn; lia).
  - cbn. apply andb_true_iff in E1 as [E1 Hc3]. apply andb_true_iff in E1 as [E1 Hc2]. apply andb_true_iff in E1 as [_ Hb].
    apply bool_decide_eq_true_1 in Hb. rewrite !bool_decide_eq_true_2; [done|by auto|by auto|]. repeat case_bool_decide; lia.
  - intros t. rewrite !str_app_cons, str_app_nil_l. cbn [rune_len]. rewrite bool_decide_eq_false_2 by lia. by rewrite E2, E3, E1.
Qed.

Lemma quote_copy x r : quote_go 0 (String.length x) (x +:+ r) = x +:+ quote_go 0 0 r.
Proof. induction x as [|c x IH]; [done|]. rewrite !str_app_cons. cbn. by rewrite IH. Qed.
Lemma unquote_copy x r : unquote_go (String.length x) (x +:+ r) = x +:+ unquote_go 0 r.
Proof. induction x as [|c x IH]; [by destruct r|]. rewrite !str_app_cons. cbn. by rewrite IH. Qed.
Lemma valid_copy x r : to_valid_utf8_go (String.length x) (x +:+ r) = x +:+ to_valid_utf8_go 0 r.
Proof. induction x as [|c x IH]; [by destruct r|]. rewrite !str_app_cons. cbn. by rewrite IH. Qed.

(** The four ways a string starts, as its quoting sees them. *)
Lemma quote_cases s :
  s = "" ∨
  (∃ c r, s = String c r ∧ byte_of c < 128 ∧ quote_go 0 0 s = escape_byte c +:+ quote_go 0 0 r ∧
     to_valid_utf8_go 0 s = String c (to_valid_utf8_go 0 r)) ∨
  (∃ c x r d, s = String c (x +:+ r) ∧ (d = "8"%char ∨ d = "9"%char) ∧ encode_rune (u4 "2" "0" "2" d) = String c x ∧
     quote_go 0 0 s = "\u202" +:+ String d (quote_go 0 0 r) ∧ to_valid_utf8_go 0 s = String c (x +:+ to_valid_utf8_go 0 r)) ∨
  (∃ c x r, s = String c (x +:+ r) ∧ 128 ≤ byte_of c ∧ all_bytes (λ c, bool_decide (128 ≤ byte_of c)) x = true ∧
     (∀ t, rune_len (String c (x +:+ t)) = Some (S (String.length x))) ∧
     quote_go 0 0 s = String c (x +:+ quote_go 0 0 r) ∧ to_valid_utf8_go 0 s = String c (x +:+ to_valid_utf8_go 0 r)) ∨
  (∃ c r, s = String c r ∧ quote_go 0 0 s = "\ufffd" +:+ quote_go 0 0 r ∧
     to_valid_utf8_go 0 s = replacement +:+ to_valid_utf8_go 0 r).
Proof.
  destruct s as [|c s]; [by left|]. right. destruct (decide (byte_of c < 128)) as [Hc|Hc].
  { left. exists c, s. split_and!; [done|done|..].
    - cbn [quote_go]. by rewrite bool_decide_eq_true_2.
    - cbn [to_valid_utf8_go]. by rewrite rune_len_ascii. }
  right. cbn [quote_go to_valid_utf8_go]. rewrite bool_decide_eq_false_2 by done.
  destruct (line_sep (String c s)) as [d|] eqn:Hsep.
  { left. apply line_sep_Some in Hsep as (c1 & c2 & r & -> & Hb & Hb1 & Hb2).
    assert (c = chr 226) as -> by (by rewrite <-(chr_byte_of c), Hb). assert (c1 = chr 128) as -> by (by rewrite <-(chr_byte_of c1), Hb1).
    exists (chr 226), (String (chr 128) (String c2 "")), r, d. destruct Hb2 as [[Hb2 ->]|[Hb2 ->]];
      [assert (c2 = chr 168) as -> by (by rewrite <-(chr_byte_of c2), Hb2)|assert (c2 = chr 169) as -> by (by rewrite <-(chr_byte_of c2), Hb2)];
      split_and!; auto; reflexivity. }
  right. destruct (rune_len (String c s)) as [n|] eqn:Hr; [left|right].
  - apply rune_len_long in Hr as (x & r & -> & -> & _ & Hx & Ht); [|lia]. exists c, x, r. cbn [pred].
    rewrite quote_copy, valid_copy. split_and!; try done. lia.
  - by exists c, s.
Qed.

Lemma quote_body s : jbody (quote_go 0 0 s).
Proof.
  induction s as [s IH] using (induction_ltof1 _ String.length). unfold ltof in IH.
  destruct (quote_cases s) as [->|[(c & r & -> & Hc & -> & _)|[(c & x & r & d & -> & Hd & _ & -> & _)|
    [(c & x & r & -> & Hc & Hx & _ & -> & _)|(c & r & -> & -> & _)]]]].
  - apply jb_nil.
  - pose proof (IH r ltac:(cbn; lia)) as Hb.
    destruct (escape_cases c Hc) as [[-> Hp]|[(e & -> & He & _)|(h1 & h2 & h3 & h4 & -> & Hh & _)]];
      rewrite !str_app_cons, str_app_nil_l; by constructor.
  - pose proof (IH r ltac:(cbn; rewrite str_length_app; lia)) as Hb. rewrite !str_app_cons, str_app_nil_l.
    apply jb_hex; [by destruct Hd as [-> | ->]|done].
  - pose proof (IH r ltac:(cbn; rewrite str_length_app; lia)) as Hb. apply jb_plain; [by apply plain_high|].
    clear IH. induction x as [|d x IHx]; [done|]. cbn in Hx. apply andb_true_iff in Hx as [Hd Hx].
    apply bool_decide_eq_true_1 in Hd. rewrite str_app_cons. apply jb_plain; [by apply plain_high|auto].
  - pose proof (IH r ltac:(cbn; lia)) as Hb. rewrite !str_app_cons, str_app_nil_l. by apply jb_hex.
Qed.

Lemma unquote_plain c s : byte_of c < 128 → is_plain c = true → unquote_go 0 (String c s) = String c (unquote_go 0 s).
Proof.
  intros Hc Hp. unfold is_plain in Hp. reflect_bools. cbn [unquote_go]. rewrite bool_decide_eq_false_2, rune_len_ascii by done. done.
Qed.

Lemma unquote_esc e s : e ≠ "u"%char → unquote_go 0 (String (chr 92) (String e s)) = String (unescape_char e) (unquote_go 0 s).
Proof. intros He. cbn [unquote_go]. by rewrite (bool_decide_eq_false_2 (e = _)). Qed.

Lemma unquote_hex h1 h2 h3 h4 s :
  is_surrogate (u4 h1 h2 h3 h4) = false →
  unquote_go 0 (String (chr 92) (String "u" (String h1 (String h2 (String h3 (String h4 s)))))) =
    encode_rune (u4 h1 h2 h3 h4) +:+ unquote_go 0 s.
Proof. intros Hr. cbn [unquote_go]. by rewrite Hr. Qed.

Lemma unquote_quote s : unquote (quote_go 0 0 s) = to_valid_utf8 s.
Proof.
  unfold unquote, to_valid_utf8. induction s as [s IH] using (induction_ltof1 _ String.length). unfold ltof in IH.
  destruct (quote_cases s) as [->|[(c & r & -> & Hc & -> & ->)|[(c & x & r & d & -> & Hd & Hr & -> & ->)|
    [(c & x & r & -> & Hc & Hx & Hr & -> & ->)|(c & r & -> & -> & ->)]]]].
  - done.
  - specialize (IH r ltac:(cbn; lia)).
    destruct (escape_cases c Hc) as [[-> Hp]|[(e & -> & He & Hu)|(h1 & h2 & h3 & h4 & -> & Hh & Hs & He)]];
      rewrite !str_app_cons, str_app_nil_l.
    + by rewrite unquote_plain, IH.
    + rewrite unquote_esc, Hu, IH; [done|]. by intros ->.
    + by rewrite unquote_hex, He, IH.
  - specialize (IH r ltac:(cbn; rewrite str_length_app; lia)). rewrite !str_app_cons, str_app_nil_l.
    rewrite unquote_hex by (by destruct Hd as [-> | ->]). by rewrite Hr, IH.
  - specialize (IH r ltac:(cbn; rewrite str_length_app; lia)). cbn [unquote_go].
    rewrite bool_decide_eq_false_2 by lia. rewrite Hr. cbn [pred]. by rewrite unquote_copy, IH.
  - specialize (IH r ltac:(cbn; lia)). rewrite !str_app_cons, str_app_nil_l, unquote_hex by done. by rewrite IH.
Qed.

(** ** Numbers *)

Lemma parse_digits_all acc s v : parse_digits acc s = Some v → all_bytes is_digit s = true.
Proof.
  revert acc. induction s as [|c s IH]; intros acc; [done|]. cbn. unfold digit_val. fold (byte_of c). fold (is_digit c).
  destruct (is_digit c) eqn:E; [|done]. by intros H%IH.
Qed.

Lemma digits_jnum x : scan_int (pretty x) = Some "" ∧ all_bytes is_digit (pretty (x : N)) = true.
Proof.
  pose proof (parse_digits_all _ _ _ (parse_pretty_N x)) as Hd. split; [|done].
  destruct (pretty_N_first x) as (d & s & Hd0 & Heq & H0). rewrite Heq in *. cbn [all_bytes] in Hd. apply andb_true_iff in Hd as [Hc Hs].
  unfold scan_int. destruct (decide (d = 0)) as [->|Hne].
  - rewrite H0 in Heq by done. by injection Heq as <-.
  - rewrite peel_ne.
    + cbn. fold (is_digit (digit_char d)). rewrite Hc. by rewrite <-(str_app_nil_r s), scan_digits_all.
    + intros Hz. apply (f_equal digit_val) in Hz. rewrite digit_val_char in Hz by done. vm_compute in Hz. congruence.
Qed.

Lemma scan_number_int s : scan_int s = Some "" → scan_int s ≫= (λ r, scan_frac r ≫= scan_exp) = Some "".
Proof. by intros ->. Qed.

Lemma Itoa_jnum z : jnum (Itoa z).
Proof.
  assert (Hpos : ∀ x : N, jnum (pretty x)).
  { intros x. destruct (digits_jnum x) as [Hi Hd]. split; [|by apply digits_num]. unfold scan_number.
    assert (peel "-" (pretty x) = None) as ->; [|by apply scan_number_int].
    destruct (pretty x) as [|c s]; [done|]. apply peel_ne. intros ->. done. }
  unfold Itoa. destruct z as [|p|p]; [apply (Hpos 0%N)|apply (Hpos (Npos p))|].
  destruct (digits_jnum (Npos p)) as [Hi Hd]. change (pretty (Z.neg p)) with (String "-" (pretty (Npos p))). split; [|exact (digits_num _ Hd)].
  unfold scan_number. cbn [peel]. by apply scan_number_int.
Qed.

(** ** The decoder *)

Definition fuel_for (s : string) : nat := S (2 * String.length s).

(** The part of [s] before its rest [r]. *)
Definition text_before (s r : string) : string := str_take (String.length s - String.length r) s.

(** The members of an object, behind its opening brace: decoded keys and the
    texts of the values. *)
Fixpoint members_go (fuel : nat) (s : string) : option (list (string * string)) :=
  match fuel with
  | O => None
  | S n =>
      peel quote (skip_space s) ≫= λ r0,
      scan_string r0 ≫= λ r1,
      peel ":" (skip_space r1) ≫= λ r2,
      let v := skip_space r2 in
      scan_value (fuel_for v) v ≫= λ r3,
      let kv := (unquote (text_before r0 (String quote r1)), text_before v r3) in
      match peel "," (skip_space r3) with
      | Some r4 => cons kv <$> members_go n r4
      | None => peel "}" (skip_space r3) ≫= λ _, Some [kv]
      end
  end.

Definition object_members (v : string) : option (list (string * string)) :=
  peel "{" v ≫= λ r,
  match peel "}" (skip_space r) with
  | Some _ => Some []
  | None => members_go (String.length r) r
  end.

(** The texts of the elements of an array, behind its opening bracket. *)
Fixpoint elems_go (fuel : nat) (s : string) : option (list string) :=
  match fuel with
  | O => None
  | S n =>
      let v := skip_space s in
      scan_value (fuel_for v) v ≫= λ r1,
      match peel "," (skip_space r1) with
      | Some r2 => cons (text_before v r1) <$> elems_go n r2
      | None => peel "]" (skip_space r1) ≫= λ _, Some [text_before v r1]
      end
  end.

Definition array_elems (v : string) : option (list string) :=
  peel "[" v ≫= λ r,
  match peel "]" (skip_space r) with
  | Some _ => Some []
  | None => elems_go (String.length r) r
  end.

(** Field names match exactly, or else up to case: [foldName] maps a letter, and
    the two signs outside ASCII that fold to one, to its capital. *)
Definition upper (c : ascii) : ascii := if bool_decide (97 ≤ byte_of c ≤ 122) then chr (byte_of c - 32) else c.
Fixpoint fold_name (s : string) : string :=
  match s with
  | String a (String b ((String c r) as s2) as s1) =>
      if bool_decide (byte_of a = 197) && bool_decide (byte_of b = 191) then String "S" (fold_name s2)
      else if bool_decide (byte_of a = 226) && bool_decide (byte_of b = 132) && bool_decide (byte_of c = 170)
      then String "K" (fold_name r)
      else String (upper a) (fold_name s1)
  | String a (String b "" as s1) =>
      if bool_decide (byte_of a = 197) && bool_decide (byte_of b = 191) then "S"
      else String (upper a) (fold_name s1)
  | String a "" => String (upper a) ""
  | EmptyString => EmptyString
  end.

Section decode.
Context {A : Type}.

(** The fields of a struct: a name, and what decoding a value text into the field
    does; [None] is an error. *)
Definition fields : Type := list (string * (string → A → option A)).

Definition field_named (fs : fields) (k : string) : option (string → A → option A) :=
  match list_find (λ f, f.1 = k) fs with
  | Some (_, f) => Some f.2
  | None => (λ x, (snd x).2) <$> list_find (λ f, fold_name f.1 = fold_name k) fs
  end.

(** A struct: members in order into the fields they name, the others skipped. *)
Fixpoint decode_members (fs : fields) (ms : list (string * string)) (a : A) : option A :=
  match ms with
  | [] => Some a
  | (k, v) :: ms' =>
      match field_named fs k with
      | Some set => set v a ≫= decode_members fs ms'
      | None => decode_members fs ms' a
      end
  end.

Definition decode_struct (fs : fields) (v : string) (a : A) : option A :=
  if bool_decide (v = "null") then Some a else object_members v ≫= λ ms, decode_members fs ms a.

Definition set_string (put : string → A → A) (v : string) (a : A) : option A :=
  if bool_decide (v = "null") then Some a
  else (λ r, put (unquote (text_before r (String quote ""))) a) <$> peel quote v.

Definition set_uint64 (put : Z → A → A) (v : string) (a : A) : option A :=
  if bool_decide (v = "null") then Some a
  else parse_uint v ≫= λ z, if bool_decide (z < 2 ^ 64) then Some (put z a) else None.

Definition set_int64 (put : Z → A → A) (v : string) (a : A) : option A :=
  if bool_decide (v = "null") then Some a
  else (match peel "-" v with Some r => Z.opp <$> parse_uint r | None => parse_uint v end) ≫= λ z,
       if bool_decide (- 2 ^ 63 ≤ z < 2 ^ 63) then Some (put z a) else None.

(** [json.RawMessage] takes the text as it stands. *)
Definition set_raw (put : string → A → A) (v : string) (a : A) : option A := Some (put v a).
End decode.
Arguments fields : clear implicits.

(** ** json.Decoder and json.Unmarshal *)

(** [More]: there is something that does not close an array or object. *)
Definition More (s : string) : bool :=
  match skip_space s with
  | EmptyString => false
  | String c _ => negb (bool_decide (c = "]"%char) || bool_decide (c = "}"%char))
  end.

(** The next value of the stream and what follows it. *)
Definition next_value (s : string) : option (string * string) :=
  let s0 := skip_space s in (λ r, (text_before s0 r, r)) <$> scan_value (fuel_for s0) s0.

(** [Unmarshal] wants one value and nothing else. *)
Definition whole_value (s : string) : option string :=
  next_value s ≫= λ '(v, r), if bool_decide (skip_space r = "") then Some v else None.

Lemma text_before_app v r : text_before (v +:+ r) r = v.
Proof.
  unfold text_before. rewrite str_length_app. replace (_ + _ - _)%nat with (String.length v) by lia. apply str_take_app.
Qed.

Lemma skip_jval v r : jval v → skip_space (v +:+ r) = v +:+ r.
Proof. intros (c & v' & -> & Hc & _)%jval_first. rewrite str_app_cons. by apply skip_space_cons. Qed.

Lemma scan_fuel_for v r : jval v → ends_number r = true → scan_value (fuel_for (v +:+ r)) (v +:+ r) = Some r.
Proof. intros Hv Hr. apply scan_jval; [done| |done]. unfold fuel_for. rewrite str_length_app. lia. Qed.

Lemma next_value_app v r : jval v → ends_number r = true → next_value (v +:+ r) = Some (v, r).
Proof. intros Hv Hr. unfold next_value. rewrite skip_jval, scan_fuel_for by done. cbn. by rewrite text_before_app. Qed.

Lemma whole_value_jval v : jval v → whole_value v = Some v.
Proof. intros Hv. unfold whole_value. rewrite <-(str_app_nil_r v), next_value_app by done. cbn. by rewrite str_app_nil_r. Qed.

Section members.
Context (w1 b w2 w3 v w4 r : string) (H1 : spaces w1) (Hb : jbody b) (H2 : spaces w2) (H3 : spaces w3) (Hv : jval v) (H4 : spaces w4).

Lemma members_cons n :
  members_go (S n) (w1 +:+ jstr b +:+ w2 +:+ String ":" (w3 +:+ v +:+ w4 +:+ String "," r)) =
    cons (unquote b, v) <$> members_go n r.
Proof.
  unfold jstr. cbn [members_go]. rewrite !str_app_cons, skip_to, peel_eq by done. cbn [mbind option_bind].
  rewrite str_app_assoc, str_app_cons, str_app_nil_l, scan_body by done. cbn [mbind option_bind].
  rewrite text_before_app, skip_to, peel_eq by done. cbn [mbind option_bind]. rewrite skip_spaces, skip_jval by done.
  rewrite scan_fuel_for by (done || by apply ends_spaces). cbn [mbind option_bind].
  by rewrite skip_to, peel_eq, text_before_app by done.
Qed.

Lemma members_one n :
  members_go (S n) (w1 +:+ jstr b +:+ w2 +:+ String ":" (w3 +:+ v +:+ w4 +:+ String "}" r)) = Some [(unquote b, v)].
Proof.
  unfold jstr. cbn [members_go]. rewrite !str_app_cons, skip_to, peel_eq by done. cbn [mbind option_bind].
  rewrite str_app_assoc, str_app_cons, str_app_nil_l, scan_body by done. cbn [mbind option_bind].
  rewrite text_before_app, skip_to, peel_eq by done. cbn [mbind option_bind]. rewrite skip_spaces, skip_jval by done.
  rewrite scan_fuel_for by (done || by apply ends_spaces). cbn [mbind option_bind].
  by rewrite !skip_to, peel_ne, peel_eq, text_before_app by done.
Qed.

Lemma elems_cons n : elems_go (S n) (w3 +:+ v +:+ w4 +:+ String "," r) = cons v <$> elems_go n r.
Proof.
  cbn [elems_go]. rewrite skip_spaces, skip_jval by done. rewrite scan_fuel_for by (done || by apply ends_spaces).
  cbn [mbind option_bind]. by rewrite skip_to, peel_eq, text_before_app by done.
Qed.

Lemma elems_one n : elems_go (S n) (w3 +:+ v +:+ w4 +:+ String "]" r) = Some [v].
Proof.
  cbn [elems_go]. rewrite skip_spaces, skip_jval by done. rewrite scan_fuel_for by (done || by apply ends_spaces).
  cbn [mbind option_bind]. by rewrite !skip_to, peel_ne, peel_eq, text_before_app by done.
Qed.
End members.

(** ** Scalars, printed and read back *)

Lemma json_string_jval s : json_string s = jstr (quote_go 0 0 s) ∧ jval (json_string s).
Proof. split; [done|]. apply jv_str, quote_body. Qed.

Lemma set_string_json {A} (put : string → A → A) s a : set_string put (json_string s) a = Some (put (to_valid_utf8 s) a).
Proof.
  unfold set_string, json_string. rewrite bool_decide_eq_false_2 by done. rewrite str_app_cons. change (chr 34) with quote.
  rewrite peel_eq. cbn. by rewrite text_before_app, unquote_quote.
Qed.

Lemma parse_uint_Itoa z : 0 ≤ z → parse_uint (Itoa z) = Some z ∧ Itoa z ≠ "null".
Proof.
  intros Hz. rewrite Itoa_nonneg by done. pose proof (parse_pretty_N (Z.to_N z)) as Hp. rewrite Z2N.id in Hp by done.
  destruct (pretty_N_first (Z.to_N z)) as (d & s & _ & Heq & _). rewrite Heq in *. split; [exact Hp|].
  intros E. by rewrite E in Hp.
Qed.

Lemma set_uint64_json {A} (put : Z → A → A) z a : is_u64 z → set_uint64 put (Itoa z) a = Some (put z a).
Proof.
  intros Hz. destruct (parse_uint_Itoa z) as [Hp Hn]; [apply Hz|]. unfold set_uint64. rewrite bool_decide_eq_false_2, Hp by done.
  cbn. by rewrite bool_decide_eq_true_2 by apply Hz.
Qed.

Lemma set_int64_json {A} (put : Z → A → A) z a : - 2 ^ 63 ≤ z < 2 ^ 63 → set_int64 put (Itoa z) a = Some (put z a).
Proof.
  intros Hz. unfold set_int64. destruct (decide (0 ≤ z)) as [H0|H0].
  - destruct (parse_uint_Itoa z H0) as [Hp Hn]. rewrite bool_decide_eq_false_2 by done.
    assert (peel "-" (Itoa z) = None) as ->; [|rewrite Hp; cbn; by rewrite bool_decide_eq_true_2].
    destruct (Itoa z) as [|c s]; [done|]. apply peel_ne. intros ->. done.
  - assert (Itoa z = String "-" (Itoa (- z))) as ->.
    { destruct z as [|p|p]; [lia|lia|]. done. }
    rewrite bool_decide_eq_false_2, peel_eq by done. destruct (parse_uint_Itoa (- z)) as [-> _]; [lia|]. cbn.
    rewrite Z.opp_involutive. by rewrite bool_decide_eq_true_2.
Qed.
