(* ===== verification/EnvWal.v ===== *)
(** * envwal: the write-ahead log of merged envelopes

    Model of src/internal/aggregator/envwal/envwal.go.  A [WAL] value is the Go
    struct; the directory it lives in is a finite map from names to files, and
    a file is the sequence of chunks that were written to it.  Every system
    call that can fail takes its outcome from an argument, so the theorems
    range over all failures. *)
From Stdlib Require Import Ascii.
From stdpp Require Import base numbers gmap strings sorting list.
From S2P Require Import Prelude GoStr Json.
Local Open Scope Z_scope.

(** ** The protojson codec

    [google.golang.org/protobuf/encoding/protojson] is not part of the sources:
    it is a parameter, with the one documented fact the log relies on, that
    [Unmarshal] reads back what [Marshal] wrote, insignificant white space and
    HTML escaping of string literals aside (what [json.Marshal] does to an
    embedded message). *)
Class ProtoJSON (Env : Type) := {
  Marshal : Env → option string;
  Unmarshal : string → option Env;
}.

Class ProtoJSONOk (Env : Type) `{!ProtoJSON Env} : Prop := {
  marshal_valid : ∀ e b, Marshal e = Some b → json_valid b = true;
  unmarshal_compact : ∀ e b, Marshal e = Some b → Unmarshal (compact b) = Some e;
}.

(** ** Data *)

Record diskEntry := mkDiskEntry {
  d_seq : Z;
  d_agent : string;
  d_envelope : string;
  d_ts : Z;
}.

Record Entry (Env : Type) := mkEntry {
  Seq : Z;
  Agent : string;
  Envelope : Env;
  TS : Z;
}.
Arguments mkEntry {_}.
Arguments Seq {_}.
Arguments Agent {_}.
Arguments Envelope {_}.
Arguments TS {_}.

Record Options := mkOptions {
  Dir : string;
  MaxBytes : Z;
  SegmentSize : Z;
  TTL : Z;
}.

(** [sid] is the address of the Go struct: two segments are the same pointer
    exactly when their [sid]s are equal.  [f] tells whether the file handle is
    non-nil. *)
Record segment := mkSegment {
  sid : nat;
  path : string;
  startSeq : Z;
  endSeq : Z;
  bytes : Z;
  createdAt : Z;
  f : bool;
}.

Record WAL := mkWAL {
  opts : Options;
  seq : Z;
  segments : list segment;
  cur : option nat;
  overflowTrims : Z;
  next_sid : nat;
}.

(** A chunk of a segment file: a complete record (with its length in bytes), or
    the bytes an interrupted write left behind.  Such a fragment is a proper,
    non-empty prefix of a JSON object, so nothing from it on decodes. *)
Inductive cell :=
| CRec (d : diskEntry) (n : Z)
| CFrag (n : Z).

Definition cell_size (c : cell) : Z := match c with CRec _ n | CFrag n => n end.

Record file := mkFile { cells : list cell; mtime : Z }.
Definition file_size (fl : file) : Z := foldr (λ c acc, cell_size c + acc) 0 (cells fl).

Inductive node := NDir | NFile (fl : file).

Global Instance diskEntry_eq_dec : EqDecision diskEntry.
Proof. solve_decision. Defined.
Global Instance cell_eq_dec : EqDecision cell.
Proof. solve_decision. Defined.
Global Instance file_eq_dec : EqDecision file.
Proof. solve_decision. Defined.
Global Instance node_eq_dec : EqDecision node.
Proof. solve_decision. Defined.
Global Instance segment_eq_dec : EqDecision segment.
Proof. solve_decision. Defined.

Abbreviation FS := (gmap string node).

Inductive wal_err :=
| ErrEmptyDir | ErrMkdir | ErrReadDir | ErrOpen
| ErrNilEnvelope | ErrMarshal | ErrJSON | ErrWrite
| ErrCursorExpired | ErrDecode | ErrUnmarshal (sq : Z) | ErrCallback.

Inductive res (A : Type) := Ok (a : A) | Err (e : wal_err).
Arguments Ok {_}.
Arguments Err {_}.

(** Outcome of one [Write] call: all bytes, or an error after [k] of them. *)
Inductive write_res := WrOk | WrErr (k : Z).

(** ** Record updates *)

Definition set_seq (z : Z) (w : WAL) : WAL :=
  mkWAL (opts w) z (segments w) (cur w) (overflowTrims w) (next_sid w).
Definition set_segments (l : list segment) (w : WAL) : WAL :=
  mkWAL (opts w) (seq w) l (cur w) (overflowTrims w) (next_sid w).

(** Assignment through the pointer [w.cur]: the struct it points to is the one
    the segment list holds. *)
Definition upd_cur (g : segment → segment) (w : WAL) : WAL :=
  set_segments ((λ s, if bool_decide (cur w = Some (sid s)) then g s else s) <$> segments w) w.

Definition cur_seg (w : WAL) : option segment :=
  list_find (λ s, cur w = Some (sid s)) (segments w) ≫= λ '(_, s), Some s.

Definition close_f (s : segment) : segment :=
  mkSegment (sid s) (path s) (startSeq s) (endSeq s) (bytes s) (createdAt s) false.

Definition grow (n : Z) (sq : Z) (s : segment) : segment :=
  mkSegment (sid s) (path s) (startSeq s) sq (bytes s + n) (createdAt s) (f s).

Definition append_cell (p : string) (c : cell) (now : Z) (fs : FS) : FS :=
  alter (λ nd, match nd with
               | NFile fl => NFile (mkFile (cells fl ++ [c]) now)
               | NDir => NDir
               end) p fs.

(** ** openSegment, rotate *)

Definition seg_name (sq : Z) : string := "aggwal-" +:+ fixed_digits 20 sq +:+ ".jsonl".
Arguments seg_name : simpl never.

(** [os.OpenFile] with O_CREATE|O_APPEND: an existing file is kept as it is. *)
Definition create_file (p : string) (now : Z) (fs : FS) : FS :=
  match fs !! p with
  | Some _ => fs
  | None => <[p := NFile (mkFile [] now)]> fs
  end.

Definition openSegment (ok : bool) (now : Z) (w : WAL) (fs : FS) : WAL * FS * option wal_err :=
  let p := seg_name (u64 (seq w + 1)) in
  if negb ok || bool_decide (fs !! p = Some NDir) then (w, fs, Some ErrOpen)
  else
    let s := mkSegment (next_sid w) p (u64 (seq w + 1)) (seq w) 0 now true in
    (mkWAL (opts w) (seq w) (segments w ++ [s]) (Some (sid s)) (overflowTrims w) (S (next_sid w)),
     create_file p now fs, None).

Definition rotate (ok : bool) (now : Z) (w : WAL) (fs : FS) : WAL * FS * option wal_err :=
  let w1 := match cur_seg w with
            | Some s => if f s then upd_cur close_f w else w
            | None => w
            end in
  openSegment ok now w1 fs.

(** ** Append *)

(** The JSONL record: [json.Marshal] of the struct. *)
Definition marshal_line (d : diskEntry) : option string :=
  match json_raw (d_envelope d) with
  | Some e =>
      let q := String (chr 34) "" in
      Some ("{" +:+ q +:+ "seq" +:+ q +:+ ":" +:+ Itoa (d_seq d) +:+ "," +:+
            q +:+ "agent" +:+ q +:+ ":" +:+ json_string (d_agent d) +:+ "," +:+
            q +:+ "envelope" +:+ q +:+ ":" +:+ e +:+ "," +:+
            q +:+ "ts_ns" +:+ q +:+ ":" +:+ Itoa (d_ts d) +:+ "}")
  | None => None
  end.

(** What that line decodes back to. *)
Definition stored (d : diskEntry) : diskEntry :=
  mkDiskEntry (d_seq d) (to_valid_utf8 (d_agent d)) (compact (d_envelope d)) (d_ts d).

Record append_io := mkAppendIO {
  io_now : Z;           (** time.Now() for the record *)
  io_line : write_res;  (** f.Write(line) *)
  io_nl : bool;         (** f.Write of the newline succeeded *)
  io_open : bool;       (** the OpenFile of a rotation succeeded *)
  io_open_now : Z;      (** time.Now() in openSegment *)
}.

Section append.
Context {Env : Type} `{!ProtoJSON Env}.

Definition Append (io : append_io) (agent : string) (env : option Env) (w : WAL) (fs : FS)
    : WAL * FS * res Z :=
  match env with
  | None => (w, fs, Err ErrNilEnvelope)
  | Some e =>
    match Marshal e with
    | None => (w, fs, Err ErrMarshal)
    | Some envBytes =>
      let w1 := set_seq (u64 (seq w + 1)) w in
      let d := mkDiskEntry (seq w1) agent envBytes (io_now io) in
      match marshal_line d, cur_seg w1 with
      | None, _ => (w1, fs, Err ErrJSON)
      | Some _, None => (w1, fs, Err ErrWrite)
      | Some line, Some c =>
        if negb (f c) then (w1, fs, Err ErrWrite)
        else
          let len := Z.of_nat (String.length line) in
          match io_line io with
          | WrErr k =>
              (w1, if bool_decide (0 < k) then append_cell (path c) (CFrag k) (io_now io) fs else fs,
               Err ErrWrite)
          | WrOk =>
              if negb (io_nl io) then
                (w1, append_cell (path c) (CRec (stored d) len) (io_now io) fs, Err ErrWrite)
              else
                let fs1 := append_cell (path c) (CRec (stored d) (len + 1)) (io_now io) fs in
                let w2 := upd_cur (grow (len + 1) (seq w1)) w1 in
                if bool_decide (SegmentSize (opts w2) ≤ bytes c + (len + 1)) then
                  match rotate (io_open io) (io_open_now io) w2 fs1 with
                  | (w3, fs3, Some er) => (w3, fs3, Err er)
                  | (w3, fs3, None) => (w3, fs3, Ok (seq w3))
                  end
                else (w2, fs1, Ok (seq w2))
          end
      end
    end
  end.
End append.

Definition LastSeq (w : WAL) : Z := seq w.
Definition OverflowCount (w : WAL) : Z := overflowTrims w.

(** ** ReadFrom *)

Record segView := mkSegView { v_path : string; v_endSeq : Z }.

(** What opening a segment file during a replay finds. *)
Inductive open_res := ONotExist | OErr | OCells (cs : list cell).

(** The file system as the replay finds it when it reaches a given path: other
    goroutines append and collect between the snapshot and the read.  A directory
    opens, but reading it fails, which [More] takes for the end. *)
Definition open_view (fs : FS) (deny : string → bool) (p : string) : open_res :=
  match fs !! p with
  | None => ONotExist
  | Some NDir => if deny p then OErr else OCells []
  | Some (NFile fl) => if deny p then OErr else OCells (cells fl)
  end.

Section readfrom.
Context {Env : Type} `{!ProtoJSON Env} {S : Type}.
(** The callback: it updates the caller's state and may return an error. *)
Context (cb : S → Entry Env → S * bool).
Context (fromSeq : Z).

(** The decode loop over one file. *)
Fixpoint read_cells (cs : list cell) (st : S) : S * option wal_err :=
  match cs with
  | [] => (st, None)
  | CFrag _ :: _ => (st, Some ErrDecode)
  | CRec d _ :: cs' =>
      if bool_decide (d_seq d ≤ fromSeq) then read_cells cs' st
      else match Unmarshal (d_envelope d) with
           | None => (st, Some (ErrUnmarshal (d_seq d)))
           | Some env =>
               let '(st', ok) := cb st (mkEntry (d_seq d) (d_agent d) env (d_ts d)) in
               if ok : bool then read_cells cs' st' else (st', Some ErrCallback)
           end
  end.

(** The loop over the snapshot; [opens] yields what each open finds. *)
Fixpoint read_views (opens : string → open_res) (vs : list segView) (gap : bool) (st : S)
    : S * option wal_err :=
  match vs with
  | [] => (st, if gap then Some ErrCursorExpired else None)
  | v :: vs' =>
      if bool_decide (v_endSeq v ≤ fromSeq) then read_views opens vs' gap st
      else match opens (v_path v) with
           | ONotExist => read_views opens vs' true st
           | OErr => (st, Some ErrOpen)
           | OCells cs =>
               match read_cells cs st with
               | (st', None) => read_views opens vs' gap st'
               | (st', Some er) => (st', Some er)
               end
           end
  end.

(** The part under the lock: the oldest sequence number and the views. *)
Definition views_of (w : WAL) : list segView :=
  (λ s, mkSegView (path s) (endSeq s)) <$> segments w.

Definition ReadFrom (w : WAL) (opens : string → open_res) (st : S) : S * option wal_err :=
  match segments w with
  | [] => (st, None)
  | s0 :: _ =>
      if bool_decide (0 < fromSeq) && bool_decide (u64 (fromSeq + 1) < startSeq s0)
      then (st, Some ErrCursorExpired)
      else read_views opens (views_of w) false st
  end.
End readfrom.

(** ** GC *)

Section gc.
(** The directory, whatever its files hold: a collection only removes names. *)
Context {A : Type}.

Definition remove_file (rm_ok : string → bool) (p : string) (fs : gmap string A) : gmap string A :=
  if rm_ok p then delete p fs else fs.

(** The first loop: keep the current segment and those within the TTL. *)
Definition gc_keep (now : Z) (w : WAL) (s : segment) : bool :=
  bool_decide (cur w = Some (sid s)) || bool_decide (now - createdAt s ≤ TTL (opts w)).

Definition gc_ttl (rm_ok : string → bool) (now : Z) (w : WAL) (fs : gmap string A) : WAL * gmap string A :=
  (set_segments (filter (λ s, gc_keep now w s = true) (segments w)) w,
   foldr (λ s fs', if gc_keep now w s then fs' else remove_file rm_ok (path s) fs')
     fs (reverse (segments w))).

Definition total_bytes (l : list segment) : Z := foldr (λ s acc, bytes s + acc) 0 l.

(** The second loop: drop the oldest while over the cap. *)
Fixpoint gc_trim (rm_ok : string → bool) (max : Z) (c : option nat) (total : Z)
    (l : list segment) (fs : gmap string A) (n : Z) : list segment * gmap string A * Z :=
  match l with
  | victim :: ((_ :: _) as rest) =>
      if bool_decide (max < total) then
        if bool_decide (c = Some (sid victim)) then (l, fs, n)
        else gc_trim rm_ok max c (total - bytes victim) rest
               (remove_file rm_ok (path victim) fs) (u64 (n + 1))
      else (l, fs, n)
  | _ => (l, fs, n)
  end.

Definition GC (rm_ok : string → bool) (now : Z) (w : WAL) (fs : gmap string A) : WAL * gmap string A :=
  let '(w1, fs1) := gc_ttl rm_ok now w fs in
  let '(l, fs2, n) := gc_trim rm_ok (MaxBytes (opts w1)) (cur w1) (total_bytes (segments w1))
                        (segments w1) fs1 (overflowTrims w1) in
  (mkWAL (opts w1) (seq w1) l (cur w1) n (next_sid w1), fs2).
End gc.

(** ** Close, TrimForTest *)

Definition Close (w : WAL) : WAL :=
  match cur_seg w with
  | Some s => if f s then upd_cur close_f w else w
  | None => w
  end.

Definition TrimForTest (start : Z) (w : WAL) : WAL :=
  match segments w with
  | [] => w
  | s :: r => set_segments (mkSegment (sid s) (path s) start (endSeq s) (bytes s) (createdAt s) (f s) :: r) w
  end.

(** ** reload, Open *)

(** Decode a file until the end or the first error: first and last sequence
    number seen. *)
Fixpoint scan_range (cs : list cell) (acc : option (Z * Z)) : option (Z * Z) :=
  match cs with
  | [] | CFrag _ :: _ => acc
  | CRec d _ :: cs' =>
      scan_range cs' (Some (match acc with Some (lo, _) => lo | None => d_seq d end, d_seq d))
  end.

Definition is_seg_name (name : string) : bool :=
  bool_decide (8 ≤ String.length name)%nat && bool_decide (str_take 7 name = "aggwal-").

(** One directory entry; [acc_ok] tells whether stat and open succeed. *)
Definition reload_one (acc_ok : string → bool) (fs : FS) (id : nat) (name : string) : option segment :=
  match fs !! name with
  | Some (NFile fl) =>
      if is_seg_name name && acc_ok name then
        match scan_range (cells fl) None with
        | Some (lo, hi) => Some (mkSegment id name lo hi (file_size fl) (mtime fl) false)
        | None => None
        end
      else None
  | _ => None
  end.

Fixpoint reload_all (acc_ok : string → bool) (fs : FS) (id : nat) (names : list string) : list segment :=
  match names with
  | [] => []
  | name :: ns =>
      match reload_one acc_ok fs id name with
      | Some s => s :: reload_all acc_ok fs (S id) ns
      | None => reload_all acc_ok fs id ns
      end
  end.

(** [os.ReadDir] lists the names in ascending order. *)
Definition read_dir {A} (fs : gmap string A) : list string := merge_sort String.le (map_to_list fs).*1.

Definition start_le (s1 s2 : segment) : Prop := startSeq s1 ≤ startSeq s2.
Global Instance start_le_dec : RelDecision start_le.
Proof. intros s1 s2. unfold start_le. apply _. Defined.

Definition reload (acc_ok : string → bool) (w : WAL) (fs : FS) : WAL :=
  let segs := reload_all acc_ok fs (next_sid w) (read_dir fs) in
  mkWAL (opts w) (seq w) (merge_sort start_le segs) (cur w) (overflowTrims w)
    (next_sid w + length segs).

Definition defaults (o : Options) : Options :=
  mkOptions (Dir o)
    (if bool_decide (MaxBytes o ≤ 0) then 2 * 2 ^ 30 else MaxBytes o)
    (if bool_decide (SegmentSize o ≤ 0) then 32 * 2 ^ 20 else SegmentSize o)
    (if bool_decide (TTL o ≤ 0) then 2 * 3600 * 10 ^ 9 else TTL o).

Record open_io := mkOpenIO {
  oi_mkdir : bool;
  oi_readdir : bool;
  oi_access : string → bool;
  oi_open : bool;
  oi_now : Z;
}.

Definition Open (io : open_io) (o : Options) (fs : FS) : FS * res WAL :=
  if bool_decide (Dir o = "") then (fs, Err ErrEmptyDir)
  else if negb (oi_mkdir io) then (fs, Err ErrMkdir)
  else if negb (oi_readdir io) then (fs, Err ErrReadDir)
  else
    let w1 := reload (oi_access io) (mkWAL (defaults o) 0 [] None 0 0) fs in
    let w2 := match list.last (segments w1) with
              | Some s => set_seq (endSeq s) w1
              | None => w1
              end in
    match openSegment (oi_open io) (oi_now io) w2 fs with
    | (w3, fs3, None) => (fs3, Ok w3)
    | (_, fs3, Some er) => (fs3, Err er)
    end.
