(* ===== verification/EnvWalInv.v ===== *)
(** * envwal: invariant under every failure, and replay order

    The write-ahead log as a transition system whose steps are [Append] (with
    any outcome of its system calls), [GC] and [Close], and the invariant all
    reachable states satisfy.  The replay theorem lets every segment file of a
    [ReadFrom] snapshot be opened at a later moment of the execution. *)
From Stdlib Require Import Ascii.
From stdpp Require Import base numbers gmap strings sorting relations list.
From S2P Require Import Prelude GoStr Json EnvWal.
Local Open Scope Z_scope.

(** ** Reading a directory as a log *)

Definition rec_of (c : cell) : option diskEntry :=
  match c with CRec d _ => Some d | CFrag _ => None end.
Definition recs (cs : list cell) : list diskEntry := omap rec_of cs.

Definition content (fs : FS) (p : string) : list cell :=
  match fs !! p with Some (NFile fl) => cells fl | _ => [] end.

Definition seg_log (fs : FS) (s : segment) : list diskEntry := recs (content fs (path s)).
Definition log (fs : FS) (l : list segment) : list diskEntry := l ≫= seg_log fs.

(** ** Segment names *)

Lemma seg_name_inj n m :
  is_u64 n → is_u64 m → seg_name n = seg_name m → n = m.
Proof.
  unfold seg_name. intros Hn Hm Heq. apply (inj (String.app _)) in Heq.
  apply (fixed_digits_inj 20).
  1,2: unfold_u64; change (10 ^ Z.of_nat 20) with 100000000000000000000; lia.
  apply str_app_inj_length in Heq as [Heq _]; [done|].
  by rewrite !fixed_digits_length.
Qed.

Lemma is_seg_name_seg_name n : is_seg_name (seg_name n) = true.
Proof.
  unfold is_seg_name, seg_name. rewrite !str_length_app, fixed_digits_length.
  rewrite bool_decide_eq_true_2 by (cbn; lia).
  by rewrite bool_decide_eq_true_2 by reflexivity.
Qed.

(** ** Effect of the file operations on the contents *)

Lemma content_append_eq fs p c now :
  content (append_cell p c now fs) p =
    match fs !! p with Some (NFile fl) => cells fl ++ [c] | _ => [] end.
Proof.
  unfold content, append_cell. rewrite lookup_alter_eq.
  by destruct (fs !! p) as [[|fl]|].
Qed.

Lemma lookup_append_ne fs p q c now : p ≠ q → append_cell p c now fs !! q = fs !! q.
Proof. intros. unfold append_cell. by rewrite lookup_alter_ne. Qed.

Lemma lookup_create_ne fs p q now : p ≠ q → create_file p now fs !! q = fs !! q.
Proof. intros. unfold create_file. case_match; [done|]. by rewrite lookup_insert_ne. Qed.

Lemma content_create fs p q now : content (create_file p now fs) q = content fs q.
Proof.
  unfold create_file, content. destruct (fs !! p) eqn:E; [done|].
  destruct (decide (p = q)) as [->|]; [by rewrite lookup_insert_eq, E|].
  by rewrite lookup_insert_ne.
Qed.

Lemma recs_app cs1 cs2 : recs (cs1 ++ cs2) = recs cs1 ++ recs cs2.
Proof. apply omap_app. Qed.

Lemma log_app fs l1 l2 : log fs (l1 ++ l2) = log fs l1 ++ log fs l2.
Proof. apply bind_app. Qed.

Lemma log_ext fs fs' l :
  (∀ s, s ∈ l → content fs' (path s) = content fs (path s)) → log fs' l = log fs l.
Proof.
  intros H. unfold log. induction l as [|s l IH]; [done|]. cbn.
  unfold seg_log at 1 3. rewrite H by set_solver. f_equal. apply IH. set_solver.
Qed.

(** ** Pointer assignment through [w.cur] *)

Lemma upd_cur_last w old c g :
  segments w = old ++ [c] → cur w = Some (sid c) → Forall (λ s, sid s ≠ sid c) old →
  segments (upd_cur g w) = old ++ [g c].
Proof.
  intros Hs Hc Ho. unfold upd_cur, set_segments. cbn. rewrite Hs, fmap_app, Hc. cbn.
  rewrite bool_decide_eq_true_2 by done. f_equal. clear Hs.
  induction Ho as [|s l Hs' Ho IH]; [done|]. cbn.
  rewrite bool_decide_eq_false_2 by congruence. by f_equal.
Qed.

Lemma cur_seg_last w old c :
  segments w = old ++ [c] → cur w = Some (sid c) → Forall (λ s, sid s ≠ sid c) old →
  cur_seg w = Some c.
Proof.
  intros Hs Hc Ho. unfold cur_seg. rewrite Hs, list_find_app_r.
  - cbn. by rewrite decide_True.
  - apply list_find_None. eapply Forall_impl; [exact Ho|]. cbn. congruence.
Qed.

(** ** What one operation does

    [same_seg c c'] is the same struct after assignments to its mutable fields.
    [Effect] covers [Append], [Close] and the failures of both: the sequence
    number advances by at most one, the current file gains at most one chunk,
    and at most one new segment is opened behind it. *)
Definition same_seg (c c' : segment) : Prop :=
  sid c' = sid c ∧ path c' = path c ∧ startSeq c' = startSeq c.

Definition put_cell (p : string) (oc : option (cell * Z)) (fs : FS) : FS :=
  match oc with Some (cl, now) => append_cell p cl now fs | None => fs end.

Definition put_file (on : option (segment * Z)) (fs : FS) : FS :=
  match on with Some (s, now) => create_file (path s) now fs | None => fs end.

Record Effect (w : WAL) (fs : FS) (old : list segment) (c c' : segment)
    (oc : option (cell * Z)) (on : option (segment * Z)) (w' : WAL) (fs' : FS) : Prop := {
  eff_opts : opts w' = opts w;
  eff_trims : overflowTrims w' = overflowTrims w;
  eff_same : same_seg c c';
  eff_segs : segments w' = old ++ c' :: option_list (fst <$> on);
  eff_cur : cur w' = Some (sid (default c' (fst <$> on)));
  eff_seq : seq w ≤ seq w' ≤ seq w + 1;
  eff_cell : ∀ cl now, oc = Some (cl, now) →
    seq w' = seq w + 1 ∧ ∀ d, rec_of cl = Some d → d_seq d = seq w + 1;
  eff_new : ∀ s now, on = Some (s, now) →
    seq w' = seq w + 1 ∧ startSeq s = seq w + 2 ∧ path s = seg_name (seq w + 2) ∧ sid s = next_sid w;
  eff_next : next_sid w' = (next_sid w + length (option_list on))%nat;
  eff_fs : fs' = put_file on (put_cell (path c) oc fs);
}.

(** ** The invariant *)

Record Inv (w : WAL) (fs : FS) (old : list segment) (c : segment) : Prop := {
  inv_segs : segments w = old ++ [c];
  inv_cur : cur w = Some (sid c);
  inv_sid : Forall (λ s, sid s ≠ sid c) old;
  inv_next : Forall (λ s, (sid s < next_sid w)%nat) (old ++ [c]);
  inv_seq : 0 ≤ seq w < u64_max;
  inv_path : Forall (λ s, path s = seg_name (startSeq s) ∧ 1 ≤ startSeq s) (old ++ [c]);
  inv_starts : StronglySorted Z.lt (startSeq <$> (old ++ [c]));
  inv_start_c : startSeq c ≤ seq w + 1;
  inv_dom : ∀ n, is_u64 n → is_Some (fs !! seg_name n) → n ≤ startSeq c;
  inv_log : StronglySorted Z.lt (d_seq <$> log fs (old ++ [c]));
  inv_log_le : Forall (λ d, d_seq d ≤ seq w) (log fs (old ++ [c]));
}.

(** [rotate], on a log whose last segment is the current one. *)
Lemma rotate_spec ok now w fs old c w' fs' er :
  segments w = old ++ [c] → cur w = Some (sid c) → Forall (λ s, sid s ≠ sid c) old →
  is_u64 (seq w + 1) →
  rotate ok now w fs = (w', fs', er) →
  ∃ c' on, same_seg c c' ∧ endSeq c' = endSeq c ∧
    w' = mkWAL (opts w) (seq w) (old ++ c' :: option_list (fst <$> on))
           (Some (sid (default c' (fst <$> on)))) (overflowTrims w)
           (next_sid w + length (option_list on)) ∧
    fs' = put_file on fs ∧
    match on with
    | Some (s, _) => er = None ∧ startSeq s = seq w + 1 ∧ endSeq s = seq w ∧ f s = true ∧
        path s = seg_name (seq w + 1) ∧ sid s = next_sid w ∧ bytes s = 0 ∧ createdAt s = now
    | None => er = Some ErrOpen
    end ∧ (er = None → ok = true) ∧
    (ok = true → fs !! seg_name (seq w + 1) = None → er = None).
Proof.
  intros Hs Hc Ho Hu. unfold rotate. rewrite (cur_seg_last w old c) by done.
  set (c' := if f c then close_f c else c).
  assert (same_seg c c' ∧ endSeq c' = endSeq c) as [Hsame Hend]
    by (unfold c', same_seg; by destruct (f c)).
  assert ((if f c then upd_cur close_f w else w) =
          mkWAL (opts w) (seq w) (old ++ [c']) (cur w) (overflowTrims w) (next_sid w)) as ->.
  { unfold c'. destruct (f c).
    - pose proof (upd_cur_last w old c close_f Hs Hc Ho) as Hup.
      unfold upd_cur, set_segments in *. cbn in *. by rewrite Hup.
    - destruct w. cbn in *. by subst. }
  unfold openSegment. cbn [seq opts segments cur overflowTrims next_sid].
  rewrite u64_small by done.
  destruct (negb ok || _) eqn:Hok; intros [= <- <- <-].
  - exists c', None. cbn. rewrite Hc, Nat.add_0_r. 
    rewrite (proj1 Hsame). split_and!; try done. intros -> Hf. cbn in Hok. rewrite Hf in Hok. done.
  - exists c', (Some (mkSegment (next_sid w) (seg_name (seq w + 1)) (seq w + 1) (seq w) 0 now true, now)).
    cbn. rewrite Nat.add_1_r, <-(assoc_L (++)). split_and!; try done.
    intros _. by destruct ok.
Qed.

Section effect.
Context {Env : Type} `{!ProtoJSON Env}.
Implicit Types (w : WAL) (fs : FS) (c : segment).

(** What a successful append has done. *)
Definition appended (io : append_io) (agent : string) (env : option Env) (w : WAL) (c c' : segment)
    (oc : option (cell * Z)) (on : option (segment * Z)) (w' : WAL) (q : Z) : Prop :=
  q = seq w + 1 ∧ seq w' = seq w + 1 ∧ endSeq c' = seq w + 1 ∧ f c = true ∧
  (∃ e b n, env = Some e ∧ Marshal e = Some b ∧
     oc = Some (CRec (stored (mkDiskEntry (seq w + 1) agent b (io_now io))) n, io_now io)) ∧
  match on with Some (s, _) => endSeq s = seq w + 1 ∧ f s = true | None => f c' = true end.

Lemma Append_effect io agent (env : option Env) w fs old c w' fs' r :
  segments w = old ++ [c] → cur w = Some (sid c) → Forall (λ s, sid s ≠ sid c) old →
  0 ≤ seq w < u64_max - 1 →
  Append io agent env w fs = (w', fs', r) →
  ∃ c' oc on, Effect w fs old c c' oc on w' fs' ∧
    (∀ q, r = Ok q → appended io agent env w c c' oc on w' q).
Proof.
  intros Hs Hc Ho Hq. unfold Append.
  assert (Hu : u64 (seq w + 1) = seq w + 1) by (apply u64_succ; unfold_u64; lia).
  rewrite Hu. rewrite (cur_seg_last (set_seq (seq w + 1) w) old c Hs Hc Ho).
  set (w1 := set_seq (seq w + 1) w).
  assert (Hidle : ∀ e, Effect w fs old c c None None w fs ∧ (∀ q : Z, Err e = Ok q →
    appended io agent env w c c None None w q)).
  { intros e. split; [|done]. split; cbn; try done; try lia. }
  assert (Hfail : ∀ oc e, (∀ cl now, oc = Some (cl, now) → ∀ d, rec_of cl = Some d → d_seq d = seq w + 1) →
    Effect w fs old c c oc None w1 (put_cell (path c) oc fs) ∧ (∀ q : Z, Err e = Ok q →
    appended io agent env w c c oc None w1 q)).
  { intros oc e Hcl. split; [|done]. split; cbn; try done; try lia. eauto. }
  destruct env as [e|]; [|intros [= <- <- <-]; exists c, None, None; apply Hidle].
  destruct (Marshal e) as [b|] eqn:Hm; [|intros [= <- <- <-]; exists c, None, None; apply Hidle].
  destruct (marshal_line _) as [line|]; [|intros [= <- <- <-]; exists c, None, None; by apply (Hfail None)].
  destruct (f c) eqn:Hf; cbn [negb]; [|intros [= <- <- <-]; exists c, None, None; by apply (Hfail None)].
  destruct (io_line io) as [|k].
  2: { case_bool_decide; intros [= <- <- <-].
       - exists c, (Some (CFrag k, io_now io)), None. apply (Hfail (Some (CFrag k, io_now io))).
         by intros ?? [= <- <-].
       - exists c, None, None. by apply (Hfail None). }
  set (d := mkDiskEntry _ _ _ _). set (n := Z.of_nat (String.length line)).
  destruct (io_nl io); cbn [negb].
  2: { intros [= <- <- <-]. exists c, (Some (CRec (stored d) n, io_now io)), None.
       apply (Hfail (Some (CRec (stored d) n, io_now io))). by intros ?? [= <- <-] ? [= <-]. }
  set (w2 := upd_cur _ w1).
  assert (w2 = mkWAL (opts w) (seq w + 1) (old ++ [grow (n + 1) (seq w + 1) c]) (cur w)
                 (overflowTrims w) (next_sid w)) as Hw2.
  { pose proof (upd_cur_last w1 old c (grow (n + 1) (seq w + 1)) Hs Hc Ho) as Hup.
    unfold w2, upd_cur, set_segments in *. cbn in *. by rewrite Hup. }
  rewrite Hw2. clear w2 Hw2. cbn [opts seq].
  set (cl := CRec (stored d) (n + 1)).
  assert (Hcl : ∀ d', rec_of cl = Some d' → d_seq d' = seq w + 1) by (by intros ? [= <-]).
  assert (Hex : ∃ e' b' n', Some e = Some e' ∧ Marshal e' = Some b' ∧ Some (cl, io_now io) =
     Some (CRec (stored (mkDiskEntry (seq w + 1) agent b' (io_now io))) n', io_now io)) by (by exists e, b, (n + 1)).
  case_bool_decide.
  - destruct (rotate _ _ _ _) as [[w3 fs3] er] eqn:Hrot.
    apply (rotate_spec _ _ _ _ old (grow (n + 1) (seq w + 1) c)) in Hrot
      as (c' & on & (Hs1 & Hs2 & Hs3) & Hend & -> & -> & Hon & _); [|done..|unfold_u64; cbn; lia].
    cbn [seq opts overflowTrims next_sid] in *.
    assert (Effect w fs old c c' (Some (cl, io_now io)) on
      (mkWAL (opts w) (seq w + 1) (old ++ c' :: option_list (fst <$> on))
         (Some (sid (default c' (fst <$> on)))) (overflowTrims w) (next_sid w + length (option_list on)))
      (put_file on (append_cell (path c) cl (io_now io) fs))) as Heff.
    { split; cbn; try done; try lia.
      - by intros ?? [= <- <-].
      - intros s nw ->. destruct Hon as (_ & -> & _ & _ & -> & -> & _).
        rewrite <-Z.add_assoc. done. }
    destruct er as [e'|]; intros [= <- <- <-]; exists c', (Some (cl, io_now io)), on;
      (split; [exact Heff|]); [done|]. intros q [= <-]. unfold appended. cbn. rewrite Hend.
    split_and!; try done. destruct on as [[s nw]|]; [|done]. by destruct Hon as (_ & _ & -> & -> & _).
  - intros [= <- <- <-]. exists (grow (n + 1) (seq w + 1) c), (Some (cl, io_now io)), None. split.
    + split; cbn; try done; try lia. by intros ?? [= <- <-].
    + intros q [= <-]. unfold appended. by split_and!.
Qed.

(** When nothing fails, an append succeeds. *)
Lemma Append_succeeds io agent (e : Env) b w fs old c :
  segments w = old ++ [c] → cur w = Some (sid c) → Forall (λ s, sid s ≠ sid c) old →
  0 ≤ seq w < u64_max - 1 → f c = true → Marshal e = Some b → json_valid b = true →
  io_line io = WrOk → io_nl io = true → io_open io = true →
  path c ≠ seg_name (seq w + 2) → fs !! seg_name (seq w + 2) = None →
  (Append io agent (Some e) w fs).2 = Ok (seq w + 1).
Proof.
  intros Hs Hc Ho Hq Hf Hm Hv Hio1 Hio2 Hio3 Hne Hnone. unfold Append. rewrite Hm.
  assert (Hu : u64 (seq w + 1) = seq w + 1) by (apply u64_succ; unfold_u64; lia).
  rewrite Hu, (cur_seg_last (set_seq (seq w + 1) w) old c Hs Hc Ho).
  set (d := mkDiskEntry _ _ _ _).
  assert (is_Some (marshal_line d)) as [line ->].
  { unfold marshal_line, json_raw, d. cbn [d_envelope]. rewrite Hv. eauto. }
  rewrite Hf, Hio1, Hio2. cbn [negb].
  set (w2 := upd_cur _ _).
  assert (segments w2 = old ++ [grow (Z.of_nat (String.length line) + 1) (seq w + 1) c]) as Hw2
    by (by apply upd_cur_last).
  case_bool_decide; [|done]. destruct (rotate _ _ _ _) as [[w3 fs3] er] eqn:Hrot.
  eapply (rotate_spec _ _ _ _ old) in Hrot
    as (c' & on & _ & _ & -> & _ & _ & _ & Her); [|done..|cbn; unfold_u64; lia].
  rewrite Her; [done|done|]. cbn. rewrite <-Z.add_assoc, lookup_append_ne; done.
Qed.
End effect.

(** ** Preservation *)

Section preserve.
Implicit Types (w : WAL) (fs : FS) (c : segment).

Lemma Inv_start_u64 w fs old c s :
  Inv w fs old c → s ∈ old ++ [c] → is_u64 (startSeq s) ∧ startSeq s ≤ startSeq c.
Proof.
  intros HI Hs. pose proof (inv_path _ _ _ _ HI) as Hp.
  assert (startSeq s ≤ startSeq c) as Hle.
  { apply elem_of_app in Hs as [Hs|Hs%list_elem_of_singleton]; [|by subst].
    pose proof (inv_starts _ _ _ _ HI) as Hst. rewrite fmap_app in Hst.
    apply Z.lt_le_incl.
    apply (StronglySorted_app_1_elem_of Z.lt (startSeq <$> old) [startSeq c]); [done|..].
    - by apply list_elem_of_fmap_2.
    - by apply list_elem_of_singleton. }
  rewrite Forall_forall in Hp. destruct (Hp s Hs) as [_ Hp1].
  pose proof (inv_seq _ _ _ _ HI). pose proof (inv_start_c _ _ _ _ HI). unfold_u64. lia.
Qed.

Lemma Inv_path_ne w fs old c s :
  Inv w fs old c → s ∈ old → path c ≠ path s.
Proof.
  intros HI Hs Heq.
  destruct (Inv_start_u64 _ _ _ _ s HI ltac:(set_solver)) as [Hu1 _].
  destruct (Inv_start_u64 _ _ _ _ c HI ltac:(set_solver)) as [Hu2 _].
  pose proof (inv_path _ _ _ _ HI) as Hp. rewrite Forall_forall in Hp.
  destruct (Hp s ltac:(set_solver)) as [Hp1 _], (Hp c ltac:(set_solver)) as [Hp2 _].
  rewrite Hp1, Hp2 in Heq. apply seg_name_inj in Heq; [|done..].
  pose proof (inv_starts _ _ _ _ HI) as Hst. rewrite fmap_app in Hst.
  assert (startSeq s < startSeq c); [|lia].
  apply (StronglySorted_app_1_elem_of Z.lt (startSeq <$> old) [startSeq c]); [done|..].
  - by apply list_elem_of_fmap_2.
  - by apply list_elem_of_singleton.
Qed.

Lemma put_cell_dom p oc fs q : is_Some (put_cell p oc fs !! q) ↔ is_Some (fs !! q).
Proof.
  destruct oc as [[cl now]|]; [|done]. cbn. unfold append_cell.
  rewrite lookup_alter. case_decide as Hp; [subst q|done]. by rewrite fmap_is_Some.
Qed.

(** The current file after a chunk went to it. *)
Lemma content_put_cell w fs old c c' oc on w' fs' :
  Effect w fs old c c' oc on w' fs' →
  ∃ ext, recs (content fs' (path c)) = recs (content fs (path c)) ++ ext ∧
    (ext = [] ∨ ∃ d, ext = [d] ∧ d_seq d = seq w + 1 ∧ seq w' = seq w + 1).
Proof.
  intros [_ _ _ _ _ _ Hcl _ _ ->].
  assert (content (put_file on (put_cell (path c) oc fs)) (path c) =
          content (put_cell (path c) oc fs) (path c)) as ->.
  { destruct on as [[s' now]|]; [apply content_create|done]. }
  destruct oc as [[cl now]|]; cbn; [|exists []; rewrite app_nil_r; auto].
  rewrite content_append_eq. unfold content.
  destruct (fs !! path c) as [[|fl]|]; [by exists []; auto| |by exists []; auto].
  rewrite recs_app. exists (recs [cl]). split; [done|].
  destruct (Hcl _ _ eq_refl) as [Hq Hd]. unfold recs. cbn.
  destruct (rec_of cl) as [d|] eqn:Hr; [|auto]. right. exists d. auto.
Qed.

Lemma log_put_cell w fs old c c' oc on w' fs' :
  Inv w fs old c → Effect w fs old c c' oc on w' fs' →
  ∃ ext, log fs' (old ++ [c']) = log fs (old ++ [c]) ++ ext ∧
    (ext = [] ∨ ∃ d, ext = [d] ∧ d_seq d = seq w + 1 ∧ seq w' = seq w + 1).
Proof.
  intros HI HE. destruct (content_put_cell _ _ _ _ _ _ _ _ _ HE) as (ext & Hc & Hext).
  exists ext. split; [|done]. rewrite !log_app. cbn. rewrite !app_nil_r.
  destruct (eff_same _ _ _ _ _ _ _ _ _ HE) as (_ & Hp & _).
  unfold seg_log. rewrite Hp, Hc, (assoc_L (++)). do 2 f_equal.
  apply log_ext. intros s Hs. rewrite (eff_fs _ _ _ _ _ _ _ _ _ HE).
  transitivity (content (put_cell (path c) oc fs) (path s)).
  - destruct on as [[s' now]|]; [apply content_create|done].
  - destruct oc as [[cl now]|]; [|done]. unfold content; cbn.
    rewrite lookup_append_ne; [done|]. by eapply Inv_path_ne.
Qed.

Lemma Effect_log w fs old c c' oc on w' fs' :
  Inv w fs old c → Effect w fs old c c' oc on w' fs' →
  StronglySorted Z.lt (d_seq <$> log fs' (old ++ [c'])) ∧
  Forall (λ d, d_seq d ≤ seq w') (log fs' (old ++ [c'])).
Proof.
  intros HI HE. destruct (log_put_cell _ _ _ _ _ _ _ _ _ HI HE) as (ext & -> & Hext).
  pose proof (eff_seq _ _ _ _ _ _ _ _ _ HE) as Hq.
  pose proof (inv_log_le _ _ _ _ HI) as Hle.
  assert (Forall (λ d, d_seq d ≤ seq w') (log fs (old ++ [c]))) as Hle'.
  { eapply Forall_impl; [exact Hle|]. cbn. lia. }
  destruct Hext as [->|(d & -> & Hd & Hs)].
  - rewrite !app_nil_r. split; [apply HI|done].
  - rewrite fmap_app. split.
    + apply StronglySorted_snoc; [apply HI|]. rewrite Forall_fmap.
      eapply Forall_impl; [exact Hle|]. cbn. lia.
    + apply Forall_app. split; [done|]. apply Forall_singleton. lia.
Qed.

Lemma Effect_dom w fs old c c' oc on w' fs' q :
  Effect w fs old c c' oc on w' fs' → is_Some (fs' !! q) →
  is_Some (fs !! q) ∨ ∃ s now, on = Some (s, now) ∧ q = path s.
Proof.
  intros HE. rewrite (eff_fs _ _ _ _ _ _ _ _ _ HE).
  destruct on as [[s now]|]; cbn; [|rewrite put_cell_dom; auto].
  destruct (decide (path s = q)) as [<-|Hne]; [eauto|].
  rewrite lookup_create_ne, put_cell_dom by done. auto.
Qed.

(** The split of the segment list after an operation. *)
Definition next_old (old : list segment) (c' : segment) (on : option (segment * Z)) : list segment :=
  match on with Some _ => old ++ [c'] | None => old end.
Definition next_cur (c' : segment) (on : option (segment * Z)) : segment :=
  match on with Some (s, _) => s | None => c' end.

Lemma Effect_Inv w fs old c c' oc on w' fs' :
  Inv w fs old c → seq w < u64_max - 1 → Effect w fs old c c' oc on w' fs' →
  Inv w' fs' (next_old old c' on) (next_cur c' on) ∧ startSeq c ≤ startSeq (next_cur c' on).
Proof.
  intros HI Hlt HE. pose proof HE as [_ _ (Hsid & Hp & Hst) Hsegs Hcur Hq _ Hnew Hnext _].
  destruct (Effect_log _ _ _ _ _ _ _ _ _ HI HE) as [Hlog Hle].
  pose proof (inv_seq _ _ _ _ HI) as Hseq.
  pose proof (inv_start_c _ _ _ _ HI) as Hsc.
  assert (Hf : ∀ P : segment → Prop, (P c → P c') → Forall P (old ++ [c]) → Forall P (old ++ [c'])).
  { intros P HP. rewrite !Forall_app, !Forall_singleton. tauto. }
  assert (Hnx : Forall (λ s, (sid s < next_sid w')%nat) (old ++ [c'])).
  { apply Hf; [by rewrite Hsid|]. eapply Forall_impl; [apply HI|]. cbn. lia. }
  assert (Hnx0 : Forall (λ s, (sid s < next_sid w)%nat) (old ++ [c'])).
  { apply Hf; [by rewrite Hsid|]. apply HI. }
  assert (Hpath : Forall (λ s, path s = seg_name (startSeq s) ∧ 1 ≤ startSeq s) (old ++ [c'])).
  { apply Hf; [by rewrite Hp, Hst|]. apply HI. }
  assert (Hstarts : StronglySorted Z.lt (startSeq <$> old ++ [c'])).
  { rewrite fmap_app in *. cbn. rewrite Hst. pose proof (inv_starts _ _ _ _ HI) as Hs.
    by rewrite fmap_app in Hs. }
  destruct on as [[s now]|]; cbn in *.
  - destruct (Hnew _ _ eq_refl) as (Hq' & Hs1 & Hs2 & Hs3).
    assert (Hnone : fs !! path s = None).
    { destruct (fs !! path s) eqn:E; [|done]. exfalso.
      rewrite Hs2 in E. assert (seq w + 2 ≤ startSeq c); [|lia].
      apply (inv_dom _ _ _ _ HI); [unfold_u64; lia|eauto]. }
    assert (Hlogs : seg_log fs' s = []).
    { unfold seg_log. rewrite (eff_fs _ _ _ _ _ _ _ _ _ HE). cbn. rewrite content_create.
      unfold content. destruct (put_cell _ _ _ !! _) eqn:E; [|done].
      assert (is_Some (fs !! path s)) as [? ?]; [|congruence].
      eapply put_cell_dom. eauto. }
    split; [|lia]. split; try done.
    + by rewrite Hsegs, <-(assoc_L (++)).
    + eapply Forall_impl; [exact Hnx0|]. cbn. lia.
    + apply Forall_app. split; [done|]. apply Forall_singleton. lia.
    + unfold u64_max in *. lia.
    + apply Forall_app. split; [done|]. apply Forall_singleton. rewrite Hs1, Hs2. split; [done|lia].
    + rewrite fmap_app. apply StronglySorted_snoc; [done|]. rewrite Forall_fmap.
      apply Forall_forall. intros x Hx. cbn.
      assert (startSeq x ≤ startSeq c); [|lia].
      apply elem_of_app in Hx as [Hx|Hx%list_elem_of_singleton]; [|by rewrite Hx, Hst].
      apply (Inv_start_u64 _ _ _ _ x HI). set_solver.
    + lia.
    + intros n Hn Hin. destruct (Effect_dom _ _ _ _ _ _ _ _ _ _ HE Hin) as [Hin'|(? & ? & [= <- <-] & Heq)].
      * pose proof (inv_dom _ _ _ _ HI n Hn Hin'). lia.
      * rewrite Hs2 in Heq. apply seg_name_inj in Heq; [lia|done|unfold_u64; lia].
    + rewrite log_app. cbn. by rewrite Hlogs, !app_nil_r.
    + rewrite log_app. cbn. by rewrite Hlogs, !app_nil_r.
  - split; [|lia]. split; try done.
    + rewrite Hsid. apply HI.
    + lia.
    + lia.
    + rewrite Hst. intros n Hn Hin.
      destruct (Effect_dom _ _ _ _ _ _ _ _ _ _ HE Hin) as [Hin'|(? & ? & ? & ?)]; [|done].
      by apply (inv_dom _ _ _ _ HI).
Qed.
End preserve.

(** ** GC *)

(** [fs'] differs from [fs] only by files of [l] that are gone. *)
Definition fs_trim (l : list segment) (fs fs' : FS) : Prop :=
  ∀ p, fs' !! p = fs !! p ∨ (fs' !! p = None ∧ p ∈ path <$> l).

Section gc.
Implicit Types (w : WAL) (fs : FS) (c : segment).

Lemma remove_file_lookup rm_ok p fs q :
  remove_file rm_ok p fs !! q = fs !! q ∨ (remove_file rm_ok p fs !! q = None ∧ q = p).
Proof.
  unfold remove_file. case_match; [|auto]. rewrite lookup_delete. case_decide; auto.
Qed.

Lemma fs_trim_refl l fs : fs_trim l fs fs.
Proof. intros p. auto. Qed.

Lemma fs_trim_step rm_ok s l fs fs' :
  s ∈ l → fs_trim l fs fs' → fs_trim l fs (remove_file rm_ok (path s) fs').
Proof.
  intros Hs Ht p. destruct (remove_file_lookup rm_ok (path s) fs' p) as [->|[-> ->]]; [done|].
  right. split; [done|]. by apply list_elem_of_fmap_2.
Qed.

Lemma fs_trim_mono l l' fs fs' : (∀ s, s ∈ l → s ∈ l') → fs_trim l fs fs' → fs_trim l' fs fs'.
Proof.
  intros Hl Ht p. destruct (Ht p) as [ |[? (s & -> & Hs)%list_elem_of_fmap]]; [auto|].
  right. split; [done|]. by apply list_elem_of_fmap_2, Hl.
Qed.

(** The segments the TTL pass removes. *)
Definition gc_expired (now : Z) (w : WAL) (l : list segment) : list segment :=
  filter (λ s, gc_keep now w s = false) l.

Lemma gc_ttl_fs rm_ok now w fs old c :
  segments w = old ++ [c] → cur w = Some (sid c) →
  fs_trim (gc_expired now w old) fs (gc_ttl rm_ok now w fs).2 ∧
  ((∀ p, rm_ok p = true) → ∀ s, s ∈ gc_expired now w old → (gc_ttl rm_ok now w fs).2 !! path s = None).
Proof.
  intros Hs Hc. unfold gc_ttl. cbn. rewrite Hs.
  assert (∀ l, let fs' := foldr (λ s fs', if gc_keep now w s then fs' else remove_file rm_ok (path s) fs') fs l in
    fs_trim (gc_expired now w l) fs fs' ∧
    ((∀ p, rm_ok p = true) → ∀ s, s ∈ gc_expired now w l → fs' !! path s = None)) as H.
  { induction l as [|s l [IH1 IH2]]; cbn zeta; cbn [foldr]; [split; [apply fs_trim_refl|set_solver]|].
    unfold gc_expired in *. rewrite filter_cons. destruct (gc_keep now w s) eqn:Hk; [done|].
    rewrite decide_True by done. split.
    - apply fs_trim_step; [set_solver|]. eapply fs_trim_mono; [|exact IH1]. set_solver.
    - intros Hrm x. rewrite elem_of_cons. unfold remove_file. rewrite Hrm, lookup_delete.
      case_decide; [done|]. intros [->|Hx]; [done|auto]. }
  assert (∀ s, s ∈ gc_expired now w (reverse (old ++ [c])) ↔ s ∈ gc_expired now w old) as Heq.
  { intros s. unfold gc_expired. rewrite !list_elem_of_filter, elem_of_reverse.
    rewrite elem_of_app, list_elem_of_singleton. split; [|tauto].
    intros [Hk [? | ->]]; [done|]. unfold gc_keep in Hk. by rewrite Hc, bool_decide_eq_true_2 in Hk. }
  destruct (H (reverse (old ++ [c]))) as [H1 H2]. split.
  - eapply fs_trim_mono; [|exact H1]. intros s. apply Heq.
  - intros Hrm s Hin. apply H2; [done|]. by apply Heq.
Qed.

Lemma gc_ttl_segs rm_ok now w fs old c :
  segments w = old ++ [c] → cur w = Some (sid c) →
  segments (gc_ttl rm_ok now w fs).1 = filter (λ s, gc_keep now w s = true) old ++ [c].
Proof.
  intros Hs Hc. unfold gc_ttl, set_segments. cbn. rewrite Hs, filter_app. f_equal.
  rewrite filter_cons_True; [done|]. unfold gc_keep. by rewrite Hc, bool_decide_eq_true_2.
Qed.

Lemma gc_trim_cons rm_ok max cu total v x r fs n :
  gc_trim rm_ok max cu total (v :: x :: r) fs n =
    if bool_decide (max < total) then
      if bool_decide (cu = Some (sid v)) then (v :: x :: r, fs, n)
      else gc_trim rm_ok max cu (total - bytes v) (x :: r)
             (remove_file rm_ok (path v) fs) (u64 (n + 1))
    else (v :: x :: r, fs, n).
Proof. done. Qed.

(** The trimming loop removes the [k] oldest; it stops at the current segment,
    and if it stops early the rest fits. *)
Lemma gc_trim_spec rm_ok max old c total fs n :
  Forall (λ s, sid s ≠ sid c) old →
  ∃ k fs' n', gc_trim rm_ok max (Some (sid c)) total (old ++ [c]) fs n = (drop k old ++ [c], fs', n') ∧
    (k ≤ length old)%nat ∧ fs_trim (take k old) fs fs' ∧
    ((drop k old = [] ∨ total - total_bytes (take k old) ≤ max) ∧
     ∀ j, (j < k)%nat → max < total - total_bytes (take j old)) ∧
    fs' = foldl (λ m s, remove_file rm_ok (path s) m) fs (take k old) ∧
    n' = (if decide (k = 0%nat) then n else u64 (n + Z.of_nat k)).
Proof.
  intros Ho. revert total fs n. induction Ho as [|s l Hs Ho IH]; intros total fs n.
  - exists 0%nat, fs, n. cbn. split_and!; auto using fs_trim_refl. lia.
  - cbn [app]. destruct (l ++ [c]) as [|x r] eqn:Hl; [by destruct l|]. rewrite gc_trim_cons.
    case_bool_decide as Hm.
    2: { exists 0%nat, fs, n. split_and!; auto using fs_trim_refl; cbn; [by rewrite Hl|lia| |lia].
         right. lia. }
    rewrite bool_decide_eq_false_2 by congruence.
    destruct (IH (total - bytes s) (remove_file rm_ok (path s) fs) (u64 (n + 1)))
      as (k & fs' & n' & -> & Hk & Ht & [Hb Hmin] & Hfs & Hn).
    exists (S k), fs', n'. cbn. split_and!; try done; try lia.
    + intros p. destruct (Ht p) as [->|[-> Hp]].
      * destruct (remove_file_lookup rm_ok (path s) fs p) as [->|[-> ->]]; [auto|]. right. set_solver.
      * right. set_solver.
    + destruct Hb; [auto|right]. unfold total_bytes in *. cbn. lia.
    + intros [|j] Hj; cbn; [lia|]. specialize (Hmin j ltac:(lia)). unfold total_bytes in *. cbn. lia.
    + rewrite Hn. case_decide; subst; [done|].
      unfold u64. rewrite Zplus_mod_idemp_l. f_equal. lia.
Qed.

Lemma total_bytes_app l1 l2 : total_bytes (l1 ++ l2) = total_bytes l1 + total_bytes l2.
Proof. unfold total_bytes. induction l1 as [|s l1 IH]; cbn; lia. Qed.

Lemma foldl_remove rm_ok (l : list segment) fs :
  (∀ p, rm_ok p = true) → ∀ p,
  (p ∈ path <$> l ∨ fs !! p = None) →
  foldl (λ m s, remove_file rm_ok (path s) m) fs l !! p = None.
Proof.
  intros Hrm. revert fs. induction l as [|s l IH]; intros fs p Hp; cbn in *; [set_solver|].
  apply IH. unfold remove_file. rewrite Hrm, lookup_delete. case_decide; set_solver.
Qed.

(** [GC] keeps a run of the youngest segments that are within the TTL, in
    order, and removes only files of the ones it drops. *)
Lemma GC_spec rm_ok now w fs old c w' fs' :
  segments w = old ++ [c] → cur w = Some (sid c) → Forall (λ s, sid s ≠ sid c) old →
  GC rm_ok now w fs = (w', fs') →
  ∃ k, let kept := filter (λ s, gc_keep now w s = true) old in
    let gone := gc_expired now w old ++ take k kept in
    (k ≤ length kept)%nat ∧
    w' = mkWAL (opts w) (seq w) (drop k kept ++ [c]) (cur w)
           (if decide (k = 0%nat) then overflowTrims w else u64 (overflowTrims w + Z.of_nat k))
           (next_sid w) ∧
    fs_trim gone fs fs' ∧
    ((drop k kept = [] ∨ total_bytes (drop k kept ++ [c]) ≤ MaxBytes (opts w)) ∧
     ∀ j, (j < k)%nat → MaxBytes (opts w) < total_bytes (drop j kept ++ [c])) ∧
    ((∀ p, rm_ok p = true) → ∀ s, s ∈ gone → fs' !! path s = None).
Proof.
  intros Hs Hc Ho. unfold GC.
  pose proof (gc_ttl_segs rm_ok now w fs old c Hs Hc) as Hseg.
  destruct (gc_ttl_fs rm_ok now w fs old c Hs Hc) as [Hfs Hfs0].
  destruct (gc_ttl rm_ok now w fs) as [w1 fs1] eqn:E1. cbn in Hseg, Hfs, Hfs0.
  unfold gc_ttl in E1. injection E1 as E1 E2. rewrite <-E1 in *. cbn in Hseg. cbn.
  change (foldr (λ s acc, bytes s + acc) 0) with total_bytes.
  set (kept := filter _ old) in *. rewrite Hseg, Hc.
  destruct (gc_trim_spec rm_ok (MaxBytes (opts w)) kept c (total_bytes (kept ++ [c])) fs1 (overflowTrims w))
    as (k & fs2 & n' & -> & Hk & Ht & [Hb Hmin] & Hf2 & ->).
  { unfold kept. rewrite Forall_forall in *. intros s [_ Hin]%list_elem_of_filter. auto. }
  assert (Hsplit : ∀ j, total_bytes (kept ++ [c]) = total_bytes (take j kept) + total_bytes (drop j kept ++ [c])).
  { intros j. by rewrite <-total_bytes_app, (assoc_L (++)), take_drop. }
  intros [= <- <-]. exists k. cbn. split_and!; try done.
  - intros p. rewrite fmap_app. destruct (Ht p) as [->|[-> Hp]]; [|right; set_solver].
    destruct (Hfs p) as [->|[-> Hp]]; [auto|right; set_solver].
  - destruct Hb as [Hb|Hb]; [auto|right]. rewrite (Hsplit k) in Hb. lia.
  - intros j Hj. specialize (Hmin j Hj). rewrite (Hsplit j) in Hmin. lia.
  - intros Hrm s Hin. rewrite Hf2. apply foldl_remove; [done|].
    apply elem_of_app in Hin as [Hin|Hin]; [right; by apply Hfs0|left; by apply list_elem_of_fmap_2].
Qed.

Lemma gc_gone_old now w k old s :
  s ∈ gc_expired now w old ++ take k (filter (λ s, gc_keep now w s = true) old) → s ∈ old.
Proof.
  intros [Hin|Hin%subseteq_take]%elem_of_app; by apply list_elem_of_filter in Hin as [_ ?].
Qed.

Lemma log_sublist fs l1 l2 : sublist l1 l2 → sublist (log fs l1) (log fs l2).
Proof.
  induction 1; cbn; [done|by apply sublist_app|by apply sublist_inserts_l].
Qed.

Lemma log_trim l0 fs fs' l : fs_trim l0 fs fs' → sublist (log fs' l) (log fs l).
Proof.
  intros Ht. induction l as [|s l IH]; [done|]. cbn. apply sublist_app; [|done].
  unfold seg_log, content. destruct (Ht (path s)) as [->|[-> _]]; [done|].
  apply sublist_nil_l.
Qed.

Lemma GC_Inv rm_ok now w fs old c w' fs' :
  Inv w fs old c → GC rm_ok now w fs = (w', fs') →
  ∃ old', Inv w' fs' old' c ∧ sublist old' old.
Proof.
  intros HI HG. pose proof HI as [Hs Hc Ho Hn Hq Hp Hst Hsc Hd Hl Hle].
  apply (GC_spec _ _ _ _ old c) in HG as (k & Hk & -> & Ht & _ & _); [|done..].
  apply (fs_trim_mono _ old) in Ht; [|intros s; apply gc_gone_old].
  set (old' := drop k _) in *.
  assert (Hsub : sublist old' old) by (unfold old'; etrans; [apply sublist_drop|apply sublist_filter]).
  assert (Hsub' : sublist (old' ++ [c]) (old ++ [c])) by (by apply sublist_app).
  assert (Hlog : sublist (log fs' (old' ++ [c])) (log fs (old ++ [c]))).
  { etrans; [by eapply log_trim|by apply log_sublist]. }
  exists old'. split; [|done]. split; cbn; try done.
  - eapply Forall_sublist; [done|]. exact Ho.
  - eapply Forall_sublist; [done|]. exact Hn.
  - eapply Forall_sublist; [done|]. exact Hp.
  - eapply StronglySorted_sublist; [|exact Hst]. by apply sublist_fmap.
  - intros n Hu Hin. apply Hd; [done|]. destruct (Ht (seg_name n)) as [<-|[E _]]; [done|].
    rewrite E in Hin. by destruct Hin.
  - eapply StronglySorted_sublist; [|exact Hl]. by apply sublist_fmap.
  - eapply Forall_sublist; [done|]. exact Hle.
Qed.
End gc.

(** ** The transition system *)

(** Callback that records what it is given, and may refuse an entry. *)
Definition collect {Env} (accept : list (Entry Env) → Entry Env → bool)
    (st : list (Entry Env)) (e : Entry Env) : list (Entry Env) * bool :=
  (st ++ [e], accept st e).

Section machine.
Context {Env : Type} `{!ProtoJSON Env}.
Implicit Types (w : WAL) (fs : FS) (c : segment).

(** One atomic operation: each runs under [w.mu].  The sequence counter is
    taken to stay below its last two values. *)
Inductive wal_step : WAL * FS → WAL * FS → Prop :=
| step_append io agent (env : option Env) w fs w' fs' r :
    seq w < u64_max - 1 → Append io agent env w fs = (w', fs', r) →
    wal_step (w, fs) (w', fs')
| step_gc rm_ok now w fs w' fs' :
    GC rm_ok now w fs = (w', fs') → wal_step (w, fs) (w', fs')
| step_close w fs : wal_step (w, fs) (Close w, fs).

Definition wal_inv (st : WAL * FS) : Prop := ∃ old c, Inv st.1 st.2 old c.

Lemma Close_effect w fs old c :
  Inv w fs old c → ∃ c', Effect w fs old c c' None None (Close w) fs.
Proof.
  intros HI. unfold Close. rewrite (cur_seg_last w old c) by apply HI.
  destruct (f c).
  - exists (close_f c). pose proof (upd_cur_last w old c close_f) as Hup.
    split; cbn; try done; try lia; [by apply Hup; apply HI|by apply HI].
  - exists c. split; cbn; try done; try lia; apply HI.
Qed.

Lemma wal_step_inv st st' : wal_inv st → wal_step st st' → wal_inv st'.
Proof.
  intros (old & c & HI) Hst.
  destruct Hst as [io agent env w fs w' fs' r Hlt HA|rm_ok now w fs w' fs' HG|w fs]; cbn in HI.
  - apply (Append_effect _ _ _ _ _ old c) in HA as (c' & oc & on & HE & _);
      [|apply HI..|pose proof (inv_seq _ _ _ _ HI); lia].
    destruct (Effect_Inv _ _ _ _ _ _ _ _ _ HI Hlt HE) as (HI' & _). by eexists _, _.
  - destruct (GC_Inv _ _ _ _ _ _ _ _ HI HG) as (old' & HI' & _). by exists old', c.
  - destruct (Close_effect _ _ _ _ HI) as [c' HE].
    exists old, c'. destruct HE as [? ? (Hsid & Hp & Hs) Hsegs Hcur Hq _ _ Hn _]. cbn in *.
    destruct HI as [? ? ? Hnx ? Hpath Hst ? Hdom Hlog Hle]. rewrite Nat.add_0_r in Hn.
    assert (seq (Close w) = seq w) as Hq'.
    { unfold Close. by destruct (cur_seg w) as [x|]; [destruct (f x)|]. }
    assert (log fs (old ++ [c']) = log fs (old ++ [c])) as Hl.
    { rewrite !log_app. cbn. unfold seg_log. by rewrite Hp. }
    assert (Hf : ∀ P : segment → Prop, (P c → P c') → Forall P (old ++ [c]) → Forall P (old ++ [c'])).
    { intros P HP. rewrite !Forall_app, !Forall_singleton. tauto. }
    rewrite Hsid in Hcur.
    split; cbn; rewrite ?Hq', ?Hn, ?Hl, ?Hs, ?Hsid; try done.
    + apply Hf; [by rewrite Hsid|done].
    + apply Hf; [by rewrite Hp, Hs|done].
    + rewrite fmap_app in *. cbn in *. by rewrite Hs.
Qed.

Lemma wal_steps_inv st st' : wal_inv st → rtc wal_step st st' → wal_inv st'.
Proof. intros HI Hr. induction Hr; eauto using wal_step_inv. Qed.

Lemma read_cells_collect accept from cs st st' er :
  read_cells (collect accept) from cs st = (st', er) →
  ∃ es, st' = st ++ es ∧ sublist (Seq <$> es) (d_seq <$> recs cs) ∧ Forall (λ e, from < Seq e) es.
Proof.
  revert st. induction cs as [|[d n|n] cs IH]; intros st; cbn.
  - intros [= <- <-]. exists []. by rewrite app_nil_r.
  - case_bool_decide as Hd.
    + intros H. destruct (IH _ H) as (es & -> & Hsub & Hall).
      exists es. split_and!; try done. by apply sublist_cons.
    + destruct (Unmarshal (d_envelope d)) as [e|].
      2: { intros [= <- <-]. exists []. rewrite app_nil_r. split_and!; try done. apply sublist_nil_l. }
      set (en := mkEntry (d_seq d) _ _ _). unfold collect at 1. destruct (accept st en).
      * intros H. destruct (IH _ H) as (es & -> & Hsub & Hall).
        exists (en :: es). rewrite <-(assoc_L (++)). split_and!; try done.
        -- by apply sublist_skip.
        -- constructor; [cbn; lia|done].
      * intros [= <- <-]. exists [en]. split_and!; try done.
        -- apply sublist_skip, sublist_nil_l.
        -- constructor; [cbn; lia|done].
  - intros [= <- <-]. exists []. rewrite app_nil_r. split_and!; try done. apply sublist_nil_l.
Qed.

Definition opened (o : open_res) : list diskEntry :=
  match o with OCells cs => recs cs | _ => [] end.

Lemma read_views_collect accept from opens vs gap st st' er :
  read_views (collect accept) from opens vs gap st = (st', er) →
  ∃ es, st' = st ++ es ∧
    sublist (Seq <$> es) (d_seq <$> (vs ≫= λ v, opened (opens (v_path v)))) ∧
    Forall (λ e, from < Seq e) es.
Proof.
  revert gap st. induction vs as [|v vs IH]; intros gap st; cbn.
  - intros [= <- <-]. exists []. by rewrite app_nil_r.
  - rewrite fmap_app. case_bool_decide.
    { intros H'. destruct (IH _ _ H') as (es & -> & Hsub & Hall).
      exists es. split_and!; try done. by apply sublist_inserts_l. }
    destruct (opens (v_path v)) as [| |cs] eqn:Ho.
    + intros H'. destruct (IH _ _ H') as (es & -> & Hsub & Hall). by exists es.
    + intros [= <- <-]. exists []. rewrite app_nil_r. split_and!; try done. apply sublist_nil_l.
    + destruct (read_cells _ _ _ _) as [st1 er1] eqn:Hc.
      apply read_cells_collect in Hc as (es1 & -> & Hsub1 & Hall1).
      destruct er1 as [e'|].
      * intros [= <- <-]. exists es1. split_and!; try done. by apply sublist_inserts_r.
      * intros H'. destruct (IH _ _ H') as (es & -> & Hsub & Hall).
        exists (es1 ++ es). rewrite (assoc_L (++)), fmap_app. split_and!; [done| |by apply Forall_app].
        by apply sublist_app.
Qed.

(** What a replay that snapshots [(w0, fs0)] can find later: closed segments
    are as they were or gone, the then-current one is gone or has gained
    younger records. *)
Definition frame (w0 : WAL) (fs0 : FS) (old0 : list segment) (c0 : segment) (st : WAL * FS) : Prop :=
  ∃ old c, Inv st.1 st.2 old c ∧ startSeq c0 ≤ startSeq c ∧ seq w0 ≤ seq st.1 ∧
    (∀ s, s ∈ old0 → st.2 !! path s = fs0 !! path s ∨ st.2 !! path s = None) ∧
    ((st.2 !! path c0 = None ∧ startSeq c0 < startSeq c) ∨ ∃ ext,
      recs (content st.2 (path c0)) = recs (content fs0 (path c0)) ++ ext ∧
      StronglySorted Z.lt (d_seq <$> ext) ∧ Forall (λ d, seq w0 < d_seq d ≤ seq st.1) ext).

Lemma Effect_lookup w fs old c c' oc on w' fs' n :
  Inv w fs old c → seq w < u64_max - 1 → Effect w fs old c c' oc on w' fs' →
  is_u64 n → n ≤ startSeq c → n ≠ startSeq c → fs' !! seg_name n = fs !! seg_name n.
Proof.
  intros HI Hlt HE Hn Hle Hne. rewrite (eff_fs _ _ _ _ _ _ _ _ _ HE).
  pose proof (inv_path _ _ _ _ HI) as Hp. rewrite Forall_forall in Hp.
  destruct (Hp c ltac:(set_solver)) as [Hpc _].
  destruct (Inv_start_u64 _ _ _ _ c HI ltac:(set_solver)) as [Hu _].
  pose proof (inv_start_c _ _ _ _ HI). pose proof (inv_seq _ _ _ _ HI).
  assert (put_cell (path c) oc fs !! seg_name n = fs !! seg_name n) as Hput.
  { destruct oc as [[cl now]|]; [|done]. cbn. apply lookup_append_ne.
    rewrite Hpc. intros Heq%seg_name_inj; done. }
  destruct on as [[s now]|]; cbn; [|done]. rewrite lookup_create_ne; [done|].
  destruct (eff_new _ _ _ _ _ _ _ _ _ HE _ _ eq_refl) as (_ & _ & Hps & _).
  rewrite Hps. intros Heq%seg_name_inj; [lia|unfold_u64; lia|done].
Qed.

Lemma frame_effect w0 fs0 old0 c0 w fs old c c' oc on w' fs' :
  Inv w0 fs0 old0 c0 → Inv w fs old c → seq w < u64_max - 1 →
  Effect w fs old c c' oc on w' fs' → startSeq c0 ≤ startSeq c → seq w0 ≤ seq w →
  (∀ s, s ∈ old0 → fs' !! path s = fs !! path s) ∧
  (startSeq c0 < startSeq c → fs' !! path c0 = fs !! path c0) ∧
  (startSeq c0 = startSeq c → path c0 = path c).
Proof.
  intros HI0 HI Hlt HE Hle Hq. pose proof (inv_path _ _ _ _ HI0) as Hp0.
  pose proof (inv_path _ _ _ _ HI) as Hp. rewrite Forall_forall in Hp0, Hp.
  destruct (Hp0 c0 ltac:(set_solver)) as [Hpc0 _], (Hp c ltac:(set_solver)) as [Hpc _].
  destruct (Inv_start_u64 _ _ _ _ c0 HI0 ltac:(set_solver)) as [Hu0 _].
  split_and!.
  - intros s Hs. destruct (Hp0 s ltac:(set_solver)) as [-> _].
    destruct (Inv_start_u64 _ _ _ _ s HI0 ltac:(set_solver)) as [Hu Hles].
    assert (startSeq s ≠ startSeq c0).
    { intros Heq. apply (Inv_path_ne _ _ _ _ s HI0 Hs).
      destruct (Hp0 s ltac:(set_solver)) as [-> _]. by rewrite Hpc0, Heq. }
    eapply Effect_lookup; try done; lia.
  - intros Hl. rewrite Hpc0. eapply Effect_lookup; try done; lia.
  - intros Heq. by rewrite Hpc0, Hpc, Heq.
Qed.

Lemma frame_step_effect w0 fs0 old0 c0 w fs old c c' oc on w' fs' :
  Inv w0 fs0 old0 c0 → Inv w fs old c → seq w < u64_max - 1 →
  Effect w fs old c c' oc on w' fs' → frame w0 fs0 old0 c0 (w, fs) →
  frame w0 fs0 old0 c0 (w', fs').
Proof.
  intros HI0 HI Hlt HE (old1 & c1 & HI1 & Hle & Hq & Hold & Hcur). cbn in *.
  assert (c1 = c) as ->.
  { pose proof (inv_segs _ _ _ _ HI) as E. rewrite (inv_segs _ _ _ _ HI1) in E.
    by apply app_inj_tail in E as [_ ?]. }
  destruct (Effect_Inv _ _ _ _ _ _ _ _ _ HI Hlt HE) as [HI' Hle'].
  set (old' := next_old old c' on) in *. set (c'' := next_cur c' on) in *.
  destruct (frame_effect _ _ _ _ _ _ _ _ _ _ _ _ _ HI0 HI Hlt HE Hle Hq) as (Hfo & Hfc & Hfe).
  pose proof (eff_seq _ _ _ _ _ _ _ _ _ HE) as Hqq.
  exists old', c''. cbn. split_and!; try done; try lia.
  - intros s Hs. rewrite Hfo by done. auto.
  - destruct (decide (startSeq c0 = startSeq c)) as [Heq|Hne].
    + destruct Hcur as [[_ ?]|(ext & Hc & Hs & Hall)]; [lia|right].
      destruct (content_put_cell _ _ _ _ _ _ _ _ _ HE) as (ext' & Hc' & Hext).
      rewrite (Hfe Heq) in *. rewrite Hc', Hc. exists (ext ++ ext').
      rewrite (assoc_L (++)), fmap_app. split; [done|].
      assert (Forall (λ d, seq w0 < d_seq d ≤ seq w') ext) by (eapply Forall_impl; [exact Hall|cbn; lia]).
      destruct Hext as [->|(d & -> & Hd & Hw)]; [by rewrite !app_nil_r|]. split.
      * apply StronglySorted_snoc; [done|]. rewrite Forall_fmap.
        eapply Forall_impl; [exact Hall|]. cbn. lia.
      * apply Forall_app. split; [done|]. apply Forall_singleton. lia.
    + rewrite Hfc by lia. destruct Hcur as [[? ?]|(ext & Hc & Hs & Hall)]; [left; split; [done|lia]|right].
      unfold content in *. rewrite Hfc by lia. exists ext. split_and!; try done.
      eapply Forall_impl; [exact Hall|cbn; lia].
Qed.

Lemma frame_step w0 fs0 old0 c0 st st' :
  Inv w0 fs0 old0 c0 → frame w0 fs0 old0 c0 st → wal_step st st' → frame w0 fs0 old0 c0 st'.
Proof.
  intros HI0 HF Hst. pose proof HF as (old & c & HI & Hle & Hq & Hold & Hcur).
  destruct Hst as [io agent env w fs w' fs' r Hlt HA|rm_ok now w fs w' fs' HG|w fs]; cbn in *.
  - destruct (Append_effect io agent env w fs old c w' fs' r) as (c' & oc & on & HE & _);
      [apply HI..|pose proof (inv_seq _ _ _ _ HI); lia|done|].
    by eapply frame_step_effect.
  - destruct (GC_Inv _ _ _ _ _ _ _ _ HI HG) as (old' & HI' & _).
    destruct (GC_spec rm_ok now w fs old c w' fs') as (k & _ & -> & Ht & _); [apply HI..|done|].
    apply (fs_trim_mono _ old) in Ht; [|intros s; apply gc_gone_old].
    exists old', c. cbn. split_and!; try done.
    + intros s Hs. destruct (Ht (path s)) as [->|[-> _]]; auto.
    + unfold content in *. destruct (Ht (path c0)) as [->|[-> Hp]]; [done|]. left. split; [done|].
      apply list_elem_of_fmap in Hp as (s & Hp & Hs).
      pose proof (inv_path _ _ _ _ HI0) as Hp0. pose proof (inv_path _ _ _ _ HI) as Hp1.
      rewrite Forall_forall in Hp0, Hp1.
      destruct (Hp0 c0 ltac:(set_solver)) as [E0 _], (Hp1 s ltac:(set_solver)) as [E1 _].
      rewrite E0, E1 in Hp. apply seg_name_inj in Hp;
        [|apply (Inv_start_u64 _ _ _ _ c0 HI0); set_solver|apply (Inv_start_u64 _ _ _ _ s HI); set_solver].
      rewrite Hp. pose proof (inv_starts _ _ _ _ HI) as Hst. rewrite fmap_app in Hst.
      apply (StronglySorted_app_1_elem_of Z.lt (startSeq <$> old) [startSeq c]); [done|..].
      * by apply list_elem_of_fmap_2.
      * by apply list_elem_of_singleton.
  - assert (wal_inv (Close w, fs)) as (old' & c' & HI').
    { eapply wal_step_inv; [|apply (step_close w fs)]. by exists old, c. }
    cbn in HI'.
    destruct (Close_effect _ _ _ _ HI) as [c'' HE].
    assert (seq (Close w) = seq w) as Hq'.
    { unfold Close. destruct (cur_seg w) as [x|]; [|done]. by destruct (f x). }
    assert (c'' = c') as <-.
    { pose proof (eff_segs _ _ _ _ _ _ _ _ _ HE) as E. rewrite (inv_segs _ _ _ _ HI') in E.
      cbn in E. by apply app_inj_tail in E as [_ ?]. }
    destruct (eff_same _ _ _ _ _ _ _ _ _ HE) as (_ & _ & Hs).
    exists old', c''. cbn. rewrite Hq', Hs. done.
Qed.

Lemma frame_steps w0 fs0 old0 c0 st st' :
  Inv w0 fs0 old0 c0 → rtc wal_step st st' →
  frame w0 fs0 old0 c0 st → frame w0 fs0 old0 c0 st'.
Proof. intros HI Hr. induction Hr; eauto using frame_step. Qed.

Lemma frame_refl w fs old c : Inv w fs old c → frame w fs old c (w, fs).
Proof.
  intros HI. exists old, c. cbn. split_and!; auto; try lia.
  right. exists []. rewrite app_nil_r. split_and!; try done. constructor.
Qed.

Lemma opened_sublist fs deny p : sublist (opened (open_view fs deny p)) (recs (content fs p)).
Proof.
  unfold open_view, content. destruct (fs !! p) as [[|fl]|]; cbn; [|destruct (deny p); cbn; [apply sublist_nil_l|done]|done].
  by destruct (deny p).
Qed.

(** The records a replay can meet are in ascending order, whenever each file
    of the snapshot is opened. *)
Lemma replay_sorted w0 fs0 opens :
  wal_inv (w0, fs0) →
  (∀ p, ∃ st deny, rtc wal_step (w0, fs0) st ∧ opens p = open_view st.2 deny p) →
  StronglySorted Z.lt (d_seq <$> (views_of w0 ≫= λ v, opened (opens (v_path v)))).
Proof.
  intros (old & c & HI) Hop. cbn in HI.
  assert (Hfr : ∀ p, ∃ st deny, frame w0 fs0 old c st ∧ opens p = open_view st.2 deny p).
  { intros p. destruct (Hop p) as (st & deny & Hr & Hp). exists st, deny. split; [|done].
    eapply frame_steps; [done..|]. by apply frame_refl. }
  unfold views_of. rewrite (inv_segs _ _ _ _ HI), fmap_app, bind_app, fmap_app.
  assert (Hold : ∀ l, (∀ s, s ∈ l → s ∈ old) →
    sublist (((λ s, mkSegView (path s) (endSeq s)) <$> l) ≫= λ v, opened (opens (v_path v))) (log fs0 l)).
  { induction l as [|s l IH]; intros Hl; [done|]. cbn. apply sublist_app; [|apply IH; set_solver].
    destruct (Hfr (path s)) as (st & deny & (? & ? & _ & _ & _ & Ho & _) & ->).
    etrans; [apply opened_sublist|]. unfold seg_log, content.
    destruct (Ho s ltac:(set_solver)) as [->| ->]; [done|apply sublist_nil_l]. }
  destruct (Hfr (path c)) as (st & deny & (? & ? & _ & _ & _ & _ & Hc) & Hpc).
  assert (∃ ext, sublist (opened (opens (path c))) (seg_log fs0 c ++ ext) ∧
    StronglySorted Z.lt (d_seq <$> ext) ∧ Forall (λ d, seq w0 < d_seq d) ext) as (ext & Hsub & Hs & Hall).
  { rewrite Hpc. destruct Hc as [[Hn _]|(ext & Hext & Hs & Hall)].
    - exists []. split_and!; [|constructor|done]. etrans; [apply opened_sublist|].
      unfold content. rewrite Hn. apply sublist_nil_l.
    - exists ext. split_and!; [|done|eapply Forall_impl; [exact Hall|cbn; lia]].
      etrans; [apply opened_sublist|]. by rewrite Hext. }
  eapply (StronglySorted_sublist _ _ (d_seq <$> (log fs0 (old ++ [c]) ++ ext))).
  - rewrite <-fmap_app. apply sublist_fmap. rewrite log_app. cbn. rewrite !app_nil_r, <-(assoc_L (++)).
    apply sublist_app; [by apply Hold|done].
  - rewrite fmap_app. apply StronglySorted_app_2; [|apply HI|done].
    intros x1 x2 (d1 & -> & H1)%list_elem_of_fmap (d2 & -> & H2)%list_elem_of_fmap.
    pose proof (inv_log_le _ _ _ _ HI) as Hle. rewrite Forall_forall in Hle, Hall.
    specialize (Hle _ H1). specialize (Hall _ H2). lia.
Qed.

Lemma replay_collect w0 fs0 opens accept from es er :
  wal_inv (w0, fs0) →
  (∀ p, ∃ st deny, rtc wal_step (w0, fs0) st ∧ opens p = open_view st.2 deny p) →
  ReadFrom (collect accept) from w0 opens [] = (es, er) →
  StronglySorted Z.lt (Seq <$> es) ∧ Forall (λ e, from < Seq e) es.
Proof.
  intros HI Hop. unfold ReadFrom. pose proof (replay_sorted _ _ _ HI Hop) as Hs.
  destruct (segments w0) as [|s0 ss]; [intros [= <- <-]; repeat constructor|].
  destruct (_ && _); [intros [= <- <-]; repeat constructor|].
  intros (es' & -> & Hsub & Hall)%read_views_collect. cbn. split; [|done].
  by eapply StronglySorted_sublist.
Qed.
End machine.

(** ** Opening an empty directory *)

Definition fresh_dir (fs : FS) : Prop := ∀ name, is_seg_name name = true → fs !! name = None.

Lemma reload_all_fresh acc_ok fs id names : fresh_dir fs → reload_all acc_ok fs id names = [].
Proof.
  intros Hf. induction names as [|name ns IH]; [done|]. cbn.
  assert (reload_one acc_ok fs id name = None) as ->; [|done].
  unfold reload_one. destruct (is_seg_name name) eqn:Hn.
  - by rewrite (Hf name Hn).
  - by destruct (fs !! name) as [[]|].
Qed.

Lemma Open_fresh_inv io o fs fs' w :
  fresh_dir fs → Open io o fs = (fs', Ok w) → wal_inv (w, fs') ∧ seq w = 0 ∧ log fs' (segments w) = [].
Proof.
  intros Hf. unfold Open. case_bool_decide; [done|].
  destruct (oi_mkdir io); [|done]. destruct (oi_readdir io); [|done]. cbn [negb].
  unfold reload. rewrite reload_all_fresh by done. cbn.
  unfold openSegment. cbn. destruct (negb _ || _); [done|]. intros [= <- <-].
  change (u64 (0 + 1)) with 1.
  assert (Hnone : fs !! seg_name 1 = None) by (apply Hf, is_seg_name_seg_name).
  assert (Hlog : content (create_file (seg_name 1) (oi_now io) fs) (seg_name 1) = []).
  { rewrite content_create. unfold content. by rewrite Hnone. }
  split_and!; [|done|cbn; unfold seg_log; cbn; by rewrite Hlog].
  exists [], (mkSegment 0 (seg_name 1) 1 0 0 (oi_now io) true). cbn.
  split; cbn; unfold seg_log; cbn; rewrite ?Hlog; try done; try lia.
  - apply Forall_singleton. cbn. lia.
  - apply Forall_singleton. cbn. done.
  - repeat constructor.
  - intros n Hn [x Hx]. destruct (decide (seg_name 1 = seg_name n)) as [Heq|Hne].
    + apply seg_name_inj in Heq; [lia|by vm_compute|done].
    + rewrite lookup_create_ne in Hx by done. rewrite (Hf _ (is_seg_name_seg_name n)) in Hx. done.
  - repeat constructor.
Qed.
