(* ===== verification/EnvWalLog.v ===== *)
(** * envwal: refinement of an abstract log

    While no write fails, the segments of a write-ahead log hold one dense run
    of sequence numbers.  Under that reading [Append] extends an abstract log by
    one entry, [GC] drops a prefix of it, [ReadFrom] feeds its callback with a
    suffix, and [Open] finds it again. *)
From Stdlib Require Import Ascii.
From stdpp Require Import base numbers gmap strings sorting relations list.
From S2P Require Import Prelude GoStr Json EnvWal EnvWalInv.
Local Open Scope Z_scope.

(** ** Dense segments *)

Definition is_rec (cl : cell) : bool := match cl with CRec _ _ => true | CFrag _ => false end.

Fixpoint contig (l : list segment) (b : Z) : Prop :=
  match l with
  | [] => True
  | s :: r => endSeq s + 1 = match r with [] => b | s' :: _ => startSeq s' end ∧ contig r b
  end.

Section clean.
Context {Env : Type} `{!ProtoJSON Env}.
Implicit Types (w : WAL) (fs : FS) (c s : segment).

Definition decodable (d : diskEntry) : Prop := is_Some (Unmarshal (Env := Env) (d_envelope d)).

Definition seg_clean (fs : FS) (s : segment) : Prop :=
  ∃ fl, fs !! path s = Some (NFile fl) ∧ Forall (λ cl, is_rec cl = true) (cells fl) ∧
    d_seq <$> recs (cells fl) = seqZ (startSeq s) (endSeq s - startSeq s + 1) ∧
    Forall decodable (recs (cells fl)) ∧ startSeq s ≤ endSeq s + 1.

Record Clean (w : WAL) (fs : FS) (old : list segment) (c : segment) : Prop := {
  cl_inv : Inv w fs old c;
  cl_segs : Forall (seg_clean fs) (old ++ [c]);
  cl_contig : contig (old ++ [c]) (seq w + 1);
  cl_full : Forall (λ s, startSeq s ≤ endSeq s) old;
  cl_dir : ∀ name, is_seg_name name = true → is_Some (fs !! name) → name ∈ path <$> (old ++ [c]);
}.

Lemma seg_clean_log fs s :
  seg_clean fs s → d_seq <$> seg_log fs s = seqZ (startSeq s) (endSeq s - startSeq s + 1) ∧
    Forall decodable (seg_log fs s).
Proof. intros (fl & Hf & _ & Hq & Hd & _). unfold seg_log, content. by rewrite Hf. Qed.

Lemma seg_clean_ext fs fs' s :
  fs' !! path s = fs !! path s → seg_clean fs s → seg_clean fs' s.
Proof. intros Heq (fl & Hf & H). exists fl. by rewrite Heq. Qed.

(** The whole log is one dense run. *)
Lemma clean_seqs fs s0 l b :
  Forall (seg_clean fs) (s0 :: l) → contig (s0 :: l) b →
  startSeq s0 ≤ b ∧ d_seq <$> log fs (s0 :: l) = seqZ (startSeq s0) (b - startSeq s0).
Proof.
  revert s0. induction l as [|s1 l IH]; intros s0 Hall Hc;
    apply Forall_cons in Hall as [H0 Hall]; destruct (seg_clean_log _ _ H0) as [Hs0 _];
    destruct H0 as (fl & _ & _ & _ & _ & Hle); destruct Hc as [He Hc].
  - split; [lia|]. cbn. rewrite app_nil_r, Hs0. f_equal. lia.
  - destruct (IH s1 Hall Hc) as [Hle1 Hlog]. split; [lia|].
    change (log fs (s0 :: s1 :: l)) with (seg_log fs s0 ++ log fs (s1 :: l)).
    rewrite fmap_app, Hs0, Hlog. cbn in He.
    replace (endSeq s0 - startSeq s0 + 1) with (startSeq s1 - startSeq s0) by lia.
    replace (b - startSeq s0) with ((startSeq s1 - startSeq s0) + (b - startSeq s1)) by lia.
    rewrite seqZ_app by lia. do 2 f_equal. lia.
Qed.

Lemma contig_snoc l c b b' : contig (l ++ [c]) b → startSeq c ≤ b' →
  ∀ c', startSeq c' = startSeq c → endSeq c' + 1 = b' → contig (l ++ [c']) b'.
Proof.
  intros Hc Hle c' Hs He. induction l as [|s l IH]; cbn in *; [done|].
  destruct Hc as [H1 H2]. split; [|auto]. by destruct l; cbn in *; rewrite ?Hs.
Qed.

Lemma contig_app l c s b : contig (l ++ [c]) (startSeq s) → endSeq s + 1 = b → contig (l ++ [c; s]) b.
Proof.
  intros Hc He. induction l as [|x l IH]; cbn in *; [tauto|].
  destruct Hc as [H1 H2]. split; [|auto]. by destruct l.
Qed.

Lemma contig_drop l1 l2 b : contig (l1 ++ l2) b → contig l2 b.
Proof. induction l1; cbn; [done|]. intros [_ ?]. auto. Qed.

Lemma contig_last l c b : contig (l ++ [c]) b → endSeq c + 1 = b.
Proof. induction l; cbn; [tauto|]. intros [_ ?]. auto. Qed.

Lemma Inv_path_start w fs old c s :
  Inv w fs old c → s ∈ old ++ [c] → path s = seg_name (startSeq s) ∧ is_u64 (startSeq s).
Proof.
  intros HI Hs. split; [|by apply (Inv_start_u64 _ _ _ _ s HI)].
  pose proof (inv_path _ _ _ _ HI) as Hp. rewrite Forall_forall in Hp. by apply Hp.
Qed.

Lemma Inv_NoDup_paths w fs old c : Inv w fs old c → NoDup (path <$> (old ++ [c])).
Proof.
  intros HI. pose proof (inv_starts _ _ _ _ HI) as Hst.
  assert (Hps : ∀ s, s ∈ old ++ [c] → path s = seg_name (startSeq s) ∧ is_u64 (startSeq s)).
  { intros s. by apply (Inv_path_start w fs). }
  revert Hst Hps. generalize (old ++ [c]). clear. induction l as [|s l IH]; [constructor|].
  rewrite !fmap_cons. intros [Hhd Hst]%StronglySorted_cons Hps. apply NoDup_cons. split.
  - intros (x & Heq & Hx)%list_elem_of_fmap.
    destruct (Hps s) as [E Hu]; [set_solver|]. destruct (Hps x) as [E' Hux]; [set_solver|].
    rewrite E, E' in Heq. apply seg_name_inj in Heq; [|done..].
    rewrite Forall_fmap, Forall_forall in Hhd. specialize (Hhd x Hx). cbn in Hhd. lia.
  - apply IH; [done|]. intros x Hx. apply Hps. by right.
Qed.

(** ** Append *)

Section effect.
Context (w : WAL) (fs : FS) (old : list segment) (c : segment).
Context (c' : segment) (d : diskEntry) (n now : Z) (on : option (segment * Z)) (w' : WAL) (fs' : FS).
Hypothesis HC : Clean w fs old c.
Hypothesis Hlt : seq w < u64_max - 1.
Hypothesis HE : Effect w fs old c c' (Some (CRec d n, now)) on w' fs'.
Hypothesis Hend : endSeq c' = seq w + 1.
Hypothesis Hnew : ∀ s nw, on = Some (s, nw) → endSeq s = seq w + 1.
Hypothesis Hdec : decodable d.

Let HI : Inv w fs old c := cl_inv _ _ _ _ HC.

Lemma on_case : on = None ∨ ∃ s nw, on = Some (s, nw).
Proof. destruct on as [[s nw]|]; eauto. Qed.

Lemma eff_seq_succ : seq w' = seq w + 1 ∧ d_seq d = seq w + 1.
Proof. destruct (eff_cell _ _ _ _ _ _ _ _ _ HE _ _ eq_refl) as [? Hd]. auto. Qed.

Lemma eff_new_ne s nw : on = Some (s, nw) → path s ≠ path c ∧ fs !! path s = None.
Proof.
  intros Hon. destruct (eff_new _ _ _ _ _ _ _ _ _ HE _ _ Hon) as (_ & _ & Hps & _).
  pose proof (inv_start_c _ _ _ _ HI). pose proof (inv_seq _ _ _ _ HI).
  destruct (Inv_path_start _ _ _ _ c HI ltac:(set_solver)) as [Hpc Hu].
  rewrite Hps, Hpc. split; [intros Heq%seg_name_inj; [lia|unfold_u64; lia|done]|].
  destruct (fs !! _) eqn:E; [|done]. exfalso. assert (seq w + 2 ≤ startSeq c); [|lia].
  apply (inv_dom _ _ _ _ HI); [unfold_u64; lia|eauto].
Qed.

Lemma eff_lookup_old s : s ∈ old → fs' !! path s = fs !! path s.
Proof.
  intros Hs. destruct (Inv_path_start _ _ _ _ s HI ltac:(set_solver)) as [Hps Hu].
  pose proof (Inv_path_ne _ _ _ _ s HI Hs) as Hne.
  destruct (Inv_path_start _ _ _ _ c HI ltac:(set_solver)) as [Hpc _].
  rewrite Hps. eapply Effect_lookup; try done.
  - apply (Inv_start_u64 _ _ _ _ s HI). set_solver.
  - intros Heq. apply Hne. by rewrite Hps, Hpc, Heq.
Qed.

Lemma eff_lookup_cur fl :
  fs !! path c = Some (NFile fl) → fs' !! path c = Some (NFile (mkFile (cells fl ++ [CRec d n]) now)).
Proof.
  intros Hfl. rewrite (eff_fs _ _ _ _ _ _ _ _ _ HE).
  assert (put_cell (path c) (Some (CRec d n, now)) fs !! path c =
          Some (NFile (mkFile (cells fl ++ [CRec d n]) now))) as Hput.
  { cbn. unfold append_cell. by rewrite lookup_alter_eq, Hfl. }
  destruct on_case as [Hon|(s & nw & Hon)]; rewrite Hon; cbn [put_file]; [done|].
  rewrite lookup_create_ne; [done|]. by eapply eff_new_ne.
Qed.

Lemma eff_seg_clean_cur : seg_clean fs' c'.
Proof.
  pose proof (cl_segs _ _ _ _ HC) as Hsegs. apply Forall_app in Hsegs as [_ Hc].
  apply Forall_singleton in Hc as (fl & Hfl & Hrec & Hq & Hd & Hle).
  destruct (eff_same _ _ _ _ _ _ _ _ _ HE) as (_ & Hp & Hs).
  pose proof (contig_last _ _ _ (cl_contig _ _ _ _ HC)) as He.
  exists (mkFile (cells fl ++ [CRec d n]) now). cbn. rewrite Hp, Hs, Hend.
  split_and!; [by apply eff_lookup_cur|by apply Forall_app; rewrite Forall_singleton| | |lia].
  2: { rewrite recs_app. apply Forall_app. split; [done|]. by apply Forall_singleton. }
  rewrite recs_app, fmap_app, Hq. cbn. rewrite (proj2 eff_seq_succ).
  replace (seq w + 1 - startSeq c + 1) with ((endSeq c - startSeq c + 1) + 1) by lia.
  rewrite (seqZ_snoc _ (endSeq c - startSeq c + 1)) by lia. do 2 f_equal. lia.
Qed.

Lemma eff_seg_clean_new s nw : on = Some (s, nw) → seg_clean fs' s.
Proof.
  intros Hon. destruct (eff_new_ne _ _ Hon) as [Hne Hnone].
  destruct (eff_new _ _ _ _ _ _ _ _ _ HE _ _ Hon) as (_ & Hst & _).
  exists (mkFile [] nw). rewrite (Hnew _ _ Hon), Hst.
  split_and!; [|done| |done|lia].
  - rewrite (eff_fs _ _ _ _ _ _ _ _ _ HE), Hon. cbn. unfold create_file.
    rewrite lookup_append_ne, Hnone by done. by rewrite lookup_insert_eq.
  - cbn. by replace (seq w + 1 - (seq w + 2) + 1) with 0 by lia.
Qed.

Lemma eff_log :
  log fs' (segments w') = log fs (segments w) ++ [d].
Proof.
  rewrite (eff_segs _ _ _ _ _ _ _ _ _ HE), (inv_segs _ _ _ _ HI), !log_app.
  assert (log fs' old = log fs old) as ->.
  { apply log_ext. intros s Hs. unfold content. by rewrite eff_lookup_old. }
  rewrite <-(assoc_L (++)). f_equal. cbn. rewrite app_nil_r.
  pose proof (cl_segs _ _ _ _ HC) as Hsegs. apply Forall_app in Hsegs as [_ Hc].
  apply Forall_singleton in Hc as (fl & Hfl & _).
  destruct (eff_same _ _ _ _ _ _ _ _ _ HE) as (_ & Hp & _).
  unfold seg_log at 1 3, content. rewrite Hp, Hfl, (eff_lookup_cur _ Hfl). cbn.
  rewrite recs_app, <-(assoc_L (++)). f_equal. cbn. f_equal.
  destruct on_case as [Hon|(s & nw & Hon)]; rewrite Hon; [done|]. cbn. rewrite app_nil_r.
  destruct (eff_seg_clean_new s nw Hon) as (fl' & Hfl' & _ & Hq & _).
  destruct (eff_new _ _ _ _ _ _ _ _ _ HE _ _ Hon) as (_ & Hst & _).
  unfold seg_log, content. rewrite Hfl'. apply (f_equal length) in Hq.
  rewrite length_fmap, length_seqZ, (Hnew s nw), Hst in Hq by done.
  apply nil_length_inv. rewrite Hq. lia.
Qed.

Lemma eff_Clean : Clean w' fs' (next_old old c' on) (next_cur c' on).
Proof.
  destruct (Effect_Inv _ _ _ _ _ _ _ _ _ HI Hlt HE) as [HI' _].
  destruct (eff_same _ _ _ _ _ _ _ _ _ HE) as (_ & Hp & Hs).
  destruct eff_seq_succ as [Hq _]. pose proof (cl_contig _ _ _ _ HC) as Hct.
  pose proof (inv_start_c _ _ _ _ HI) as Hsc.
  assert (Hold : Forall (seg_clean fs') old).
  { pose proof (cl_segs _ _ _ _ HC) as Hsegs. apply Forall_app in Hsegs as [Ho _].
    rewrite Forall_forall in *. intros s Hin. eapply seg_clean_ext; [by apply eff_lookup_old|auto]. }
  assert (Hct' : contig (old ++ [c']) (seq w + 2)).
  { eapply contig_snoc; [exact Hct|lia|done|lia]. }
  split; [done|..].
  - destruct on_case as [Hon|(s & nw & Hon)]; rewrite Hon; cbn.
    + apply Forall_app. split; [done|]. apply Forall_singleton, eff_seg_clean_cur.
    + rewrite !Forall_app, !Forall_singleton. eauto using eff_seg_clean_cur, eff_seg_clean_new.
  - rewrite Hq. replace (seq w + 1 + 1) with (seq w + 2) by lia.
    destruct on_case as [Hon|(s & nw & Hon)]; rewrite Hon; cbn; [done|].
    destruct (eff_new _ _ _ _ _ _ _ _ _ HE _ _ Hon) as (_ & Hst & _).
    rewrite <-(assoc_L (++)). cbn. apply contig_app; [by rewrite Hst|].
    rewrite (Hnew s nw) by done. lia.
  - pose proof (cl_full _ _ _ _ HC) as Hfull. destruct on as [[s nw]|]; cbn; [|done].
    apply Forall_app. split; [done|]. apply Forall_singleton. lia.
  - intros name Hname Hin.
    assert (name ∈ path <$> (old ++ [c']) ∨ ∃ s nw, on = Some (s, nw) ∧ name = path s) as Hcase.
    { destruct (Effect_dom _ _ _ _ _ _ _ _ _ _ HE Hin) as [Hin'|?]; [|auto]. left.
      pose proof (cl_dir _ _ _ _ HC _ Hname Hin') as Hd. rewrite fmap_app in *. cbn. by rewrite Hp. }
    destruct on as [[s nw]|]; cbn; [|set_solver].
    rewrite fmap_app. destruct Hcase as [?|(? & ? & [= <- <-] & ->)]; set_solver.
Qed.
End effect.

Definition io_ok (io : append_io) : Prop :=
  io_line io = WrOk ∧ io_nl io = true ∧ io_open io = true.

Lemma Append_clean `{!ProtoJSONOk Env} io agent (e : Env) b w fs old c :
  Clean w fs old c → f c = true → seq w < u64_max - 1 → io_ok io → Marshal e = Some b →
  ∃ w' fs' old' c',
    Append io agent (Some e) w fs = (w', fs', Ok (seq w + 1)) ∧ Clean w' fs' old' c' ∧
    f c' = true ∧ seq w' = seq w + 1 ∧
    log fs' (segments w') = log fs (segments w) ++ [stored (mkDiskEntry (seq w + 1) agent b (io_now io))].
Proof.
  intros HC Hf Hlt (Hio1 & Hio2 & Hio3) Hm.
  pose proof (cl_inv _ _ _ _ HC) as HI.
  pose proof HI as [Hs Hc Ho Hnx Hq Hp Hst Hsc Hdom Hlg Hle].
  assert (path c = seg_name (startSeq c) ∧ is_u64 (startSeq c)) as [Hpc Huc].
  { split; [|by apply (Inv_start_u64 _ _ _ _ c HI); set_solver].
    apply Forall_app in Hp as [_ Hp]. by apply Forall_singleton in Hp as [? _]. }
  assert (Hnew : fs !! seg_name (seq w + 2) = None).
  { destruct (fs !! seg_name (seq w + 2)) eqn:E; [|done]. exfalso.
    assert (seq w + 2 ≤ startSeq c); [|lia]. apply Hdom; [unfold_u64; lia|eauto]. }
  assert (HR : (Append io agent (Some e) w fs).2 = Ok (seq w + 1)).
  { eapply Append_succeeds; try done; [lia|by eapply marshal_valid|].
    rewrite Hpc. intros Heq%seg_name_inj; [lia|done|unfold_u64; lia]. }
  destruct (Append io agent (Some e) w fs) as [[w' fs'] r] eqn:HA. cbn in HR. subst r.
  destruct (Append_effect io agent (Some e) w fs old c w' fs' (Ok (seq w + 1)))
    as (c1 & oc & on & HE & HR); [done..|lia|done|].
  destruct (HR _ eq_refl) as (_ & Hq' & He1 & _ & (e' & b' & n & [= <-] & Hm' & ->) & Hon).
  rewrite Hm in Hm'. injection Hm' as <-. set (d := stored _) in *.
  assert (Hdec : decodable d).
  { unfold decodable, d. cbn. exists e. by apply unmarshal_compact. }
  assert (Hnews : ∀ s nw, on = Some (s, nw) → endSeq s = seq w + 1).
  { intros s nw ->. tauto. }
  exists w', fs', (next_old old c1 on), (next_cur c1 on). split_and!; [done|..|done|].
  - by eapply eff_Clean.
  - destruct on as [[? ?]|]; cbn; tauto.
  - by eapply eff_log.
Qed.

(** ** ReadFrom *)

Section read.
Context {S : Type} (cb : S → Entry Env → S * bool) (fromSeq : Z).

(** Hand entries to the callback until it refuses one. *)
Fixpoint feed (es : list (Entry Env)) (st : S) : S * option wal_err :=
  match es with
  | [] => (st, None)
  | e :: es' => let '(st', ok) := cb st e in
                if ok : bool then feed es' st' else (st', Some ErrCallback)
  end.

Definition to_entry (d : diskEntry) : option (Entry Env) :=
  (λ e, mkEntry (d_seq d) (d_agent d) e (d_ts d)) <$> Unmarshal (d_envelope d).

(** The entries of a log above a sequence number. *)
Definition above (l : list diskEntry) : list (Entry Env) :=
  omap to_entry (filter (λ d, fromSeq < d_seq d) l).

Lemma above_app l1 l2 : above (l1 ++ l2) = above l1 ++ above l2.
Proof. unfold above. by rewrite filter_app, omap_app. Qed.

Lemma above_nil l : Forall (λ d, d_seq d ≤ fromSeq) l → above l = [].
Proof.
  intros Hl. unfold above. induction Hl as [|d l Hd Hl IH]; [done|].
  rewrite filter_cons_False by lia. done.
Qed.

Lemma feed_app es1 es2 st :
  feed (es1 ++ es2) st =
    match feed es1 st with (st', None) => feed es2 st' | (st', Some er) => (st', Some er) end.
Proof.
  revert st. induction es1 as [|e es IH]; intros st; [done|]. cbn.
  destruct (cb st e) as [st' []]; [apply IH|done].
Qed.

Lemma read_cells_clean cs st :
  Forall (λ cl, is_rec cl = true) cs → Forall decodable (recs cs) →
  read_cells cb fromSeq cs st = feed (above (recs cs)) st.
Proof.
  intros Hr. revert st. induction Hr as [|[d n|n] cs Hc Hr IH]; intros st Hd; [done| |done].
  unfold recs in Hd. cbn in Hd. fold recs in Hd. apply Forall_cons in Hd as [[e He] Hd].
  change (recs (CRec d n :: cs)) with ([d] ++ recs cs). rewrite above_app. cbn [read_cells].
  case_bool_decide as Hle.
  - rewrite above_nil by (by apply Forall_singleton). by apply IH.
  - unfold above at 1. rewrite filter_cons_True by lia. cbn. unfold to_entry. rewrite He. cbn.
    destruct (cb st _) as [st' []]; [by apply IH|done].
Qed.

Lemma read_views_clean_app fs l vs st :
  Forall (seg_clean fs) l →
  read_views cb fromSeq (open_view fs (λ _, false)) (((λ s, mkSegView (path s) (endSeq s)) <$> l) ++ vs) false st =
    match feed (above (log fs l)) st with
    | (st', None) => read_views cb fromSeq (open_view fs (λ _, false)) vs false st'
    | (st', Some er) => (st', Some er)
    end.
Proof.
  revert st. induction l as [|s l IH]; intros st Hl; [done|].
  apply Forall_cons in Hl as [Hs Hl].
  change (log fs (s :: l)) with (seg_log fs s ++ log fs l). rewrite above_app, feed_app.
  destruct (seg_clean_log _ _ Hs) as [Hq Hd]. cbn [read_views fmap list_fmap app v_endSeq v_path].
  case_bool_decide as Hle.
  - rewrite above_nil; [by apply IH|].
    assert (Forall (λ q, q ≤ fromSeq) (d_seq <$> seg_log fs s)) as Hall.
    { rewrite Hq, Forall_forall. intros q Hin%elem_of_seqZ. lia. }
    by rewrite Forall_fmap in Hall.
  - destruct Hs as (fl & Hf & Hr & _ & Hd' & _).
    unfold seg_log, content, open_view. rewrite Hf, read_cells_clean by done.
    destruct (feed _ st) as [st' [er|]]; [done|]. by apply IH.
Qed.

Lemma read_views_clean fs l st :
  Forall (seg_clean fs) l →
  read_views cb fromSeq (open_view fs (λ _, false))
    ((λ s, mkSegView (path s) (endSeq s)) <$> l) false st = feed (above (log fs l)) st.
Proof.
  intros Hl. rewrite <-(app_nil_r (_ <$> l)), read_views_clean_app by done.
  by destruct (feed _ st) as [st' [er|]].
Qed.

(** The oldest retained sequence number. *)
Definition oldest (w : WAL) : Z := match segments w with s :: _ => startSeq s | [] => 0 end.

Lemma ReadFrom_clean w fs old c st :
  Clean w fs old c → fromSeq < u64_max → 0 ≤ fromSeq →
  ReadFrom cb fromSeq w (open_view fs (λ _, false)) st =
    if decide (0 < fromSeq ∧ fromSeq + 1 < oldest w) then (st, Some ErrCursorExpired)
    else feed (above (log fs (segments w))) st.
Proof.
  intros HC Hlt H0. unfold ReadFrom, oldest, views_of.
  pose proof (cl_segs _ _ _ _ HC) as Hs. rewrite <-(inv_segs _ _ _ _ (cl_inv _ _ _ _ HC)) in Hs.
  destruct (segments w) as [|s0 ss] eqn:E.
  { rewrite (inv_segs _ _ _ _ (cl_inv _ _ _ _ HC)) in E. by destruct old. }
  rewrite u64_succ by (unfold_u64; lia).
  destruct (bool_decide (0 < fromSeq)) eqn:E1, (bool_decide (fromSeq + 1 < startSeq s0)) eqn:E2;
    reflect_bools; cbn [andb].
  1: by rewrite decide_True.
  all: rewrite decide_False by lia; by apply read_views_clean.
Qed.
End read.

(** ** GC *)

Lemma filter_keep_drop now w l :
  Forall (λ s, cur w ≠ Some (sid s)) l → StronglySorted Z.le (createdAt <$> l) →
  ∃ j, filter (λ s, gc_keep now w s = true) l = drop j l ∧ gc_expired now w l = take j l.
Proof.
  intros Hl. induction Hl as [|s l Hs Hl IH]; intros Hst; [by exists 0%nat|].
  rewrite fmap_cons in Hst.
  apply StronglySorted_cons in Hst as [Hhd Hst]. destruct (IH Hst) as (j & Hk & He).
  assert (Hkeep : ∀ x, cur w ≠ Some (sid x) →
    gc_keep now w x = bool_decide (now - createdAt x ≤ TTL (opts w))).
  { intros x Hx. unfold gc_keep. by rewrite bool_decide_eq_false_2. }
  destruct (bool_decide (now - createdAt s ≤ TTL (opts w))) eqn:Hb.
  - exists 0%nat. apply bool_decide_eq_true in Hb.
    assert (Hall : Forall (λ x, gc_keep now w x = true) l).
    { rewrite Forall_fmap in Hhd. rewrite Forall_forall in *. intros x Hx.
      rewrite Hkeep by auto. apply bool_decide_eq_true. specialize (Hhd x Hx). cbn in Hhd. lia. }
    unfold gc_expired. rewrite filter_cons_True, filter_cons_False
      by (rewrite Hkeep by done; rewrite bool_decide_eq_true_2; done).
    split.
    + cbn. f_equal. clear -Hall. induction Hall; [done|]. rewrite filter_cons_True by done. by f_equal.
    + cbn. clear -Hall. induction Hall; [done|]. rewrite filter_cons_False by congruence. done.
  - exists (Datatypes.S j). unfold gc_expired in *. rewrite filter_cons_False, filter_cons_True
      by (rewrite Hkeep by done; congruence).
    cbn. split; [done|]. by f_equal.
Qed.

(** With a clock that does not run backwards and removals that succeed, [GC]
    forgets a prefix of the log and nothing else. *)
Lemma GC_clean now w fs old c w' fs' :
  Clean w fs old c → StronglySorted Z.le (createdAt <$> old) →
  GC (λ _, true) now w fs = (w', fs') →
  ∃ k, Clean w' fs' (drop k old) c ∧ seq w' = seq w ∧
    log fs (segments w) = log fs (take k old) ++ log fs' (segments w') ∧
    (drop k old = [] ∨ total_bytes (segments w') ≤ MaxBytes (opts w)).
Proof.
  intros HC Hcr HG. pose proof (cl_inv _ _ _ _ HC) as HI.
  destruct (GC_Inv _ _ _ _ _ _ _ _ HI HG) as (old' & HI' & _).
  destruct (GC_spec (λ _, true) now w fs old c w' fs') as (k & Hk & -> & Ht & [Hb _] & Hgone);
    [apply HI..|done|].
  destruct (filter_keep_drop now w old) as (j & Hkeep & Hexp); [|done|].
  { rewrite (inv_cur _ _ _ _ HI). eapply Forall_impl; [apply HI|]. cbn. congruence. }
  rewrite Hkeep, Hexp, drop_drop in *.
  assert (Htk : take j old ++ take k (drop j old) = take (j + k) old).
  { rewrite <-(take_drop j (take (j + k) old)), take_take, take_drop_commute. do 2 f_equal; lia. }
  rewrite Htk in *. exists (j + k)%nat.
  assert (old' = drop (j + k) old) as ->.
  { pose proof (inv_segs _ _ _ _ HI') as E. cbn in E. by apply app_inj_tail in E as [? _]. }
  cbn [segments seq opts]. set (m := (j + k)%nat) in *.
  assert (Hsplit : old ++ [c] = take m old ++ (drop m old ++ [c])) by (by rewrite (assoc_L (++)), take_drop).
  pose proof (Inv_NoDup_paths _ _ _ _ HI) as Hnd. rewrite Hsplit, fmap_app in Hnd.
  apply NoDup_app in Hnd as (_ & Hdisj & _).
  assert (Hlook : ∀ s, s ∈ drop m old ++ [c] → fs' !! path s = fs !! path s).
  { intros s Hs. destruct (Ht (path s)) as [->|[_ Hin]]; [done|].
    destruct (Hdisj _ Hin). by apply list_elem_of_fmap_2. }
  assert (Hdrop : ∀ P : segment → Prop, Forall P old → Forall P (drop m old)).
  { intros P HP. rewrite <-(take_drop m old), Forall_app in HP. tauto. }
  split_and!; [|done| |done].
  - split; cbn [seq]; [done|..].
    + pose proof (cl_segs _ _ _ _ HC) as Hsegs. rewrite Hsplit, Forall_app in Hsegs.
      destruct Hsegs as [_ Hsegs]. rewrite Forall_forall in *. intros s Hs.
      eapply seg_clean_ext; [by apply Hlook|auto].
    + eapply contig_drop. rewrite <-Hsplit. apply HC.
    + apply Hdrop, HC.
    + intros name Hname Hin.
      assert (is_Some (fs !! name) ∧ name ∉ path <$> take m old) as [Hin' Hnot].
      { destruct (decide (name ∈ path <$> take m old)) as [Hel|Hel].
        - apply list_elem_of_fmap in Hel as (s & -> & Hs).
          rewrite (Hgone (λ _, eq_refl) s Hs) in Hin. by destruct Hin.
        - split; [|done]. destruct (Ht name) as [<-|[_ ?]]; done. }
      pose proof (cl_dir _ _ _ _ HC _ Hname Hin') as Hel.
      rewrite Hsplit, fmap_app, elem_of_app in Hel. tauto.
  - rewrite (inv_segs _ _ _ _ HI), Hsplit, log_app. f_equal. symmetry. apply log_ext.
    intros s Hs. unfold content. by rewrite Hlook.
Qed.

(** ** Open after Close

    What [reload] reads back of a segment, and what the clean reading of a
    directory depends on. *)
Definition strip (s : segment) : string * Z * Z := (path s, startSeq s, endSeq s).

Lemma strip_path (l l' : list segment) : strip <$> l = strip <$> l' → path <$> l = path <$> l'.
Proof.
  intros H. apply (f_equal (fmap (λ x : string * Z * Z, x.1.1))) in H.
  by rewrite <-!list_fmap_compose in H.
Qed.

Lemma strip_start (l l' : list segment) : strip <$> l = strip <$> l' → startSeq <$> l = startSeq <$> l'.
Proof.
  intros H. apply (f_equal (fmap (λ x : string * Z * Z, x.1.2))) in H.
  by rewrite <-!list_fmap_compose in H.
Qed.

Lemma strip_Forall (P : string * Z * Z → Prop) (l l' : list segment) :
  strip <$> l = strip <$> l' → Forall (λ s, P (strip s)) l → Forall (λ s, P (strip s)) l'.
Proof.
  intros H Hl. assert (Forall P (strip <$> l')) as Hf by (rewrite <-H; by apply Forall_fmap).
  rewrite Forall_fmap in Hf. exact Hf.
Qed.

Lemma strip_log fs l l' : strip <$> l = strip <$> l' → log fs l = log fs l'.
Proof.
  revert l'. induction l as [|s l IH]; intros [|s' l'] H; try done.
  rewrite !fmap_cons in H. injection H as Hp _ _ H.
  change (seg_log fs s ++ log fs l = seg_log fs s' ++ log fs l').
  unfold seg_log. by rewrite Hp, (IH _ H).
Qed.

Lemma strip_contig l l' b : strip <$> l = strip <$> l' → contig l b → contig l' b.
Proof.
  revert l'. induction l as [|s l IH]; intros [|s' l'] H; try done.
  rewrite !fmap_cons in H. injection H as _ _ He H. intros [H1 H2]. split; [|by eapply IH].
  rewrite <-He, H1. destruct l, l'; try done. by injection H as _ -> _.
Qed.

Lemma Clean_strip w fs old c w' old' c' :
  Clean w fs old c → strip <$> (old ++ [c]) = strip <$> (old' ++ [c']) →
  segments w' = old' ++ [c'] → cur w' = Some (sid c') → seq w' = seq w →
  Forall (λ s, (sid s < sid c')%nat) old' → (sid c' < next_sid w')%nat → Clean w' fs old' c'.
Proof.
  intros [HI Hsegs Hct Hfull Hdir] Hst Hw Hcur Hq Hsid Hnext.
  assert (strip <$> old = strip <$> old' ∧ strip c = strip c') as [Hold Hc].
  { rewrite !fmap_app in Hst. by apply app_inj_tail in Hst. }
  injection Hc as Hp Hs He. split; [|..].
  - split; rewrite ?Hq; rewrite <-?(strip_log fs _ _ Hst), <-?(strip_start _ _ Hst), <-?Hs; try apply HI; try done.
    + eapply Forall_impl; [exact Hsid|]. cbn. lia.
    + apply Forall_app. split; [|by apply Forall_singleton].
      eapply Forall_impl; [exact Hsid|]. cbn. lia.
    + eapply (strip_Forall (λ x, x.1.1 = seg_name x.1.2 ∧ 1 ≤ x.1.2)); [exact Hst|apply HI].
  - eapply (strip_Forall (λ x, ∃ fl, fs !! x.1.1 = Some (NFile fl) ∧
      Forall (λ cl, is_rec cl = true) (cells fl) ∧
      d_seq <$> recs (cells fl) = seqZ x.1.2 (x.2 - x.1.2 + 1) ∧
      Forall decodable (recs (cells fl)) ∧ x.1.2 ≤ x.2 + 1)); [exact Hst|exact Hsegs].
  - rewrite Hq. by eapply strip_contig.
  - eapply (strip_Forall (λ x, x.1.2 ≤ x.2)); [exact Hold|exact Hfull].
  - intros name Hn Hin. rewrite <-(strip_path _ _ Hst). by apply Hdir.
Qed.

(** A log whose current segment is not empty, with a fresh one behind it. *)
Lemma Clean_extend w fs old c s nw :
  Clean w fs old c → startSeq c ≤ endSeq c → sid s = next_sid w →
  path s = seg_name (seq w + 1) → startSeq s = seq w + 1 → endSeq s = seq w →
  let w' := mkWAL (opts w) (seq w) (old ++ [c; s]) (Some (sid s)) (overflowTrims w) (S (next_sid w)) in
  let fs' := create_file (path s) nw fs in
  Clean w' fs' (old ++ [c]) s ∧ log fs' (segments w') = log fs (segments w).
Proof.
  intros [HI Hsegs Hct Hfull Hdir] Hne Hsid Hp Hs He w' fs'.
  pose proof (contig_last _ _ _ Hct) as Hlast. pose proof (inv_seq _ _ _ _ HI) as Hq.
  assert (Hnone : fs !! path s = None).
  { destruct (fs !! path s) eqn:E; [|done]. exfalso. assert (seq w + 1 ≤ startSeq c); [|lia].
    apply (inv_dom _ _ _ _ HI); [unfold_u64; lia|]. rewrite <-Hp. eauto. }
  assert (Hlog : log fs' (old ++ [c; s]) = log fs (old ++ [c])).
  { change [c; s] with ([c] ++ [s]). rewrite (assoc_L (++)), log_app.
    assert (log fs' [s] = []) as ->.
    { cbn. unfold fs', seg_log. rewrite content_create. unfold content. by rewrite Hnone. }
    rewrite app_nil_r. apply log_ext. intros. apply content_create. }
  assert (Hsn : old ++ [c; s] = (old ++ [c]) ++ [s]) by (by rewrite <-(assoc_L (++))).
  split; [|cbn [segments w']; by rewrite Hlog, (inv_segs _ _ _ _ HI)].
  split; [split|..]; cbn [segments w' cur seq next_sid]; rewrite <-?Hsn, ?Hlog; try apply HI; try done; try lia.
  - eapply Forall_impl; [apply HI|]. cbn. lia.
  - rewrite Hsn, Forall_app, Forall_singleton. split; [|lia]. eapply Forall_impl; [apply HI|]. cbn. lia.
  - rewrite Hsn, Forall_app, Forall_singleton. split; [apply HI|]. rewrite Hp, Hs. split; [done|lia].
  - rewrite Hsn, fmap_app. apply StronglySorted_snoc; [apply HI|]. rewrite Forall_fmap, Forall_forall.
    intros x Hx. cbn. destruct (Inv_start_u64 _ _ _ _ x HI Hx). lia.
  - intros n Hn Hin. destruct (decide (n = seq w + 1)) as [->|Hnn]; [lia|].
    unfold fs' in Hin. rewrite lookup_create_ne in Hin.
    + pose proof (inv_dom _ _ _ _ HI n Hn Hin). lia.
    + rewrite Hp. intros Heq%seg_name_inj; [lia|unfold_u64; lia|done].
  - rewrite Hsn, Forall_app, Forall_singleton. split.
    + rewrite Forall_forall in *. intros x Hx. eapply seg_clean_ext; [|by apply Hsegs].
      unfold fs'. apply lookup_create_ne. intros Heq.
      destruct (Hsegs x Hx) as (fl & Hfl & _). by rewrite <-Heq, Hnone in Hfl.
    + exists (mkFile [] nw). rewrite Hs, He. split_and!; [|done| |done|lia].
      * unfold fs', create_file. by rewrite Hnone, lookup_insert_eq.
      * cbn. by replace (seq w - (seq w + 1) + 1) with 0 by lia.
  - apply contig_app; [by rewrite Hs|lia].
  - apply Forall_app. split; [done|]. by apply Forall_singleton.
  - intros name Hn Hin. rewrite Hsn, fmap_app. destruct (decide (path s = name)) as [<-|Hnn].
    + cbn. set_solver.
    + unfold fs' in Hin. rewrite lookup_create_ne in Hin by done. set_solver.
Qed.

(** *** reload *)

Lemma scan_range_recs cs acc :
  Forall (λ cl, is_rec cl = true) cs →
  scan_range cs acc =
    match list.last (d_seq <$> recs cs) with
    | None => acc
    | Some hi => Some (match acc with Some (lo, _) => lo | None => default 0 (head (d_seq <$> recs cs)) end, hi)
    end.
Proof.
  intros Hr. revert acc. induction Hr as [|[d n|n] cs Hc Hr IH]; intros acc; [done| |done].
  cbn [scan_range]. rewrite IH. change (recs (CRec d n :: cs)) with (d :: recs cs).
  rewrite fmap_cons, last_cons. destruct (list.last _); by destruct acc as [[??]|].
Qed.

Lemma last_seqZ a n : 0 < n → list.last (seqZ a n) = Some (a + n - 1).
Proof.
  intros Hn. replace n with ((n - 1) + 1) at 1 by lia. rewrite seqZ_snoc by lia.
  rewrite last_snoc. f_equal. lia.
Qed.

Definition full_seg (s : segment) : Prop := startSeq s ≤ endSeq s.
Global Instance full_seg_dec s : Decision (full_seg s).
Proof. unfold full_seg. apply _. Defined.

Lemma reload_one_clean acc fs s id :
  (∀ n, acc n = true) → seg_clean fs s → is_seg_name (path s) = true →
  strip <$> reload_one acc fs id (path s) = if decide (full_seg s) then Some (strip s) else None.
Proof.
  intros Hacc (fl & Hf & Hr & Hq & _ & Hle) Hn. unfold reload_one, full_seg.
  rewrite Hf, Hn, Hacc. cbn [andb].
  rewrite scan_range_recs, Hq by done. case_decide.
  - rewrite last_seqZ by lia. rewrite seqZ_cons by lia. cbn. unfold strip. cbn. do 2 f_equal. lia.
  - by replace (endSeq s - startSeq s + 1) with 0 by lia.
Qed.

Lemma reload_one_id acc fs id id' name :
  strip <$> reload_one acc fs id name = strip <$> reload_one acc fs id' name.
Proof. unfold reload_one. by repeat case_match. Qed.

Lemma reload_one_path acc fs id name s : reload_one acc fs id name = Some s → path s = name.
Proof. unfold reload_one. intros ?. by case_all. Qed.

Lemma reload_all_strip acc fs id names :
  strip <$> reload_all acc fs id names = omap (λ n, strip <$> reload_one acc fs 0 n) names.
Proof.
  revert id. induction names as [|n ns IH]; intros id; [done|]. cbn [reload_all omap list_omap].
  rewrite (reload_one_id acc fs 0 id). destruct (reload_one acc fs id n) as [s|]; cbn [fmap option_fmap option_map].
  - by rewrite fmap_cons, IH.
  - apply IH.
Qed.

Lemma reload_all_sids acc fs id names :
  Forall (λ s, (sid s < id + length (reload_all acc fs id names))%nat) (reload_all acc fs id names).
Proof.
  revert id. induction names as [|n ns IH]; intros id; [done|]. cbn [reload_all].
  destruct (reload_one acc fs id n) as [s|] eqn:E; [|apply IH]. cbn [length].
  apply Forall_cons. split.
  - assert (sid s = id) by (unfold reload_one in E; by case_all). lia.
  - eapply Forall_impl; [apply IH|]. cbn. lia.
Qed.

Lemma read_dir_elem fs name : name ∈ read_dir fs ↔ is_Some (fs !! name).
Proof.
  unfold read_dir. rewrite merge_sort_Permutation, list_elem_of_fmap. split.
  - intros ([n nd] & -> & H%elem_of_map_to_list). eauto.
  - intros [nd H]. exists (name, nd). by rewrite elem_of_map_to_list.
Qed.

Lemma read_dir_NoDup fs : NoDup (read_dir fs).
Proof. unfold read_dir. rewrite merge_sort_Permutation. apply NoDup_fst_map_to_list. Qed.

Lemma reload_nodup acc fs names : NoDup names → NoDup (omap (λ n, strip <$> reload_one acc fs 0 n) names).
Proof.
  induction 1 as [|n ns Hn Hnd IH]; [constructor|].
  cbn [omap list_omap]. destruct (reload_one _ fs 0 n) as [s|] eqn:E; cbn; [|done].
  constructor; [|done]. rewrite list_elem_of_omap. intros (n' & Hn' & Heq).
  destruct (reload_one _ fs 0 n') as [s'|] eqn:E'; [|done]. injection Heq as Hpp _ _.
  rewrite (reload_one_path _ _ _ _ _ E), (reload_one_path _ _ _ _ _ E') in Hpp. by subst.
Qed.

(** Directories in which every name reads the same give the same segments. *)
Lemma reload_same acc fs fs' id id' :
  (∀ n, strip <$> reload_one acc fs' 0 n = strip <$> reload_one acc fs 0 n) →
  strip <$> reload_all acc fs' id (read_dir fs') ≡ₚ strip <$> reload_all acc fs id' (read_dir fs).
Proof.
  intros Hone. rewrite !reload_all_strip. apply NoDup_Permutation; [apply reload_nodup, read_dir_NoDup..|]. intros x.
  assert (Hin : ∀ fs n, strip <$> reload_one acc fs 0 n = Some x → n ∈ read_dir fs).
  { intros fs0 n H. apply read_dir_elem. unfold reload_one in H. destruct (fs0 !! n); [eauto|done]. }
  rewrite !list_elem_of_omap. split; intros (n & _ & H); exists n; [rewrite Hone in H|rewrite <-Hone in H]; eauto.
Qed.

Lemma reload_perm acc w fs old c id :
  (∀ n, acc n = true) → Clean w fs old c →
  strip <$> reload_all acc fs id (read_dir fs) ≡ₚ strip <$> filter full_seg (old ++ [c]).
Proof.
  intros Hacc [HI Hsegs Hct Hfull Hdir]. rewrite reload_all_strip.
  assert (Hone : ∀ s, s ∈ old ++ [c] → is_seg_name (path s) = true ∧
    strip <$> reload_one acc fs 0 (path s) = if decide (full_seg s) then Some (strip s) else None).
  { intros s Hs. destruct (Inv_path_start w fs old c s HI Hs) as [Hp _].
    assert (is_seg_name (path s) = true) by (rewrite Hp; apply is_seg_name_seg_name).
    split; [done|]. rewrite Forall_forall in Hsegs. by apply reload_one_clean; [|apply Hsegs|]. }
  apply NoDup_Permutation.
  - apply reload_nodup, read_dir_NoDup.
  - pose proof (Inv_NoDup_paths _ _ _ _ HI) as Hnd. 
    eapply (NoDup_fmap_1 (λ x : string * Z * Z, x.1.1)). rewrite <-list_fmap_compose.
    eapply sublist_NoDup; [exact Hnd|]. apply (sublist_fmap path), sublist_filter.
  - intros x. rewrite list_elem_of_omap, list_elem_of_fmap. split.
    + intros (name & Hname%read_dir_elem & Hx). 
      assert (Hseg : is_seg_name name = true).
      { unfold reload_one in Hx. case_all. by reflect_bools. }
      apply (Hdir name Hseg) in Hname as (s & -> & Hs)%list_elem_of_fmap.
      destruct (Hone s Hs) as [_ E]. rewrite E in Hx. case_decide; [|done]. injection Hx as <-.
      exists s. split; [done|]. by apply list_elem_of_filter.
    + intros (s & -> & [Hf Hs]%list_elem_of_filter). exists (path s).
      destruct (Hone s Hs) as [_ E]. rewrite E, decide_True by done. split; [|done].
      apply read_dir_elem. rewrite Forall_forall in Hsegs. destruct (Hsegs s Hs) as (fl & -> & _). eauto.
Qed.

(** Sorting by first number finds the one order segments with distinct ones have. *)
Lemma sorted_strip (l k : list segment) :
  strip <$> l ≡ₚ strip <$> k → StronglySorted Z.lt (startSeq <$> k) →
  strip <$> merge_sort start_le l = strip <$> k.
Proof.
  intros Hperm Hlt. set (R := λ x y : string * Z * Z, x.1.2 ≤ y.1.2).
  assert (HR : ∀ l : list segment, StronglySorted start_le l → StronglySorted R (strip <$> l)).
  { intros m. induction 1 as [|s m Hm IH Hs]; [constructor|]. rewrite fmap_cons.
    constructor; [done|]. rewrite Forall_fmap. exact Hs. }
  assert (HF : StronglySorted start_le k).
  { clear -Hlt. induction k as [|s k IH]; [constructor|].
    rewrite fmap_cons in Hlt. apply StronglySorted_cons in Hlt as [Hs Hk].
    constructor; [auto|]. rewrite Forall_fmap in Hs. eapply Forall_impl; [exact Hs|].
    unfold start_le. cbn. lia. }
  assert (Hp : strip <$> merge_sort start_le l ≡ₚ strip <$> k) by (by rewrite merge_sort_Permutation).
  eapply (StronglySorted_unique_strong R); [|apply HR|by apply HR|exact Hp].
  - intros x1 x2 H1 H2 H12 H21. rewrite Hp in H1.
    apply list_elem_of_fmap in H1 as (s1 & -> & H1), H2 as (s2 & -> & H2).
    assert (startSeq s1 = startSeq s2) as Heq by (unfold R, strip in *; cbn in *; lia).
    f_equal. clear -Hlt H1 H2 Heq. induction k as [|s k IH]; [set_solver|].
    rewrite fmap_cons in Hlt. apply StronglySorted_cons in Hlt as [Hs Hk].
    rewrite Forall_fmap, Forall_forall in Hs. cbn in Hs.
    apply elem_of_cons in H1 as [->|H1], H2 as [->|H2]; auto.
    + specialize (Hs _ H2). lia.
    + specialize (Hs _ H1). lia.
  - apply StronglySorted_merge_sort.
    + intros x y z. unfold start_le. lia.
    + intros x y. unfold start_le. lia.
Qed.

Lemma full_starts w fs old c : Inv w fs old c → StronglySorted Z.lt (startSeq <$> filter full_seg (old ++ [c])).
Proof. intros HI. eapply StronglySorted_sublist; [apply sublist_fmap, sublist_filter|apply HI]. Qed.

Lemma reload_clean acc w0 w fs old c :
  (∀ n, acc n = true) → Clean w fs old c →
  strip <$> segments (reload acc w0 fs) = strip <$> filter full_seg (old ++ [c]).
Proof.
  intros Hacc HC. apply sorted_strip; [by eapply reload_perm|by eapply full_starts, HC].
Qed.

Lemma clean_filter_full w fs old c :
  Clean w fs old c → log fs (segments w) ≠ [] →
  ∃ l s, filter full_seg (old ++ [c]) = l ++ [s] ∧ endSeq s = seq w ∧
    ((full_seg c ∧ l = old ∧ s = c) ∨ (startSeq c = seq w + 1 ∧ l ++ [s] = old)).
Proof.
  intros [HI Hsegs Hct Hfull _] Hne. pose proof (contig_last _ _ _ Hct) as Hlast.
  assert (Hfo : filter full_seg old = old).
  { clear -Hfull. induction Hfull; [done|]. rewrite filter_cons_True by done. by f_equal. }
  rewrite filter_app, Hfo. destruct (decide (full_seg c)) as [Hf|Hf].
  - exists old, c. rewrite filter_cons_True by done. split_and!; [done|lia|]. by left.
  - rewrite filter_cons_False by done. cbn. rewrite app_nil_r.
    rewrite Forall_app, Forall_singleton in Hsegs. destruct Hsegs as [_ Hc].
    destruct (seg_clean_log _ _ Hc) as [Hlc _]. destruct Hc as (? & _ & _ & _ & _ & Hle).
    unfold full_seg in Hf.
    destruct old as [|s l _] using rev_ind.
    + exfalso. apply Hne. rewrite (inv_segs _ _ _ _ HI). cbn. rewrite app_nil_r.
      apply (fmap_nil_inv d_seq). rewrite Hlc. by replace (endSeq c - startSeq c + 1) with 0 by lia.
    + exists l, s. split_and!; [done| |right; split; [lia|done]].
      rewrite <-(assoc_L (++)) in Hct. apply contig_drop in Hct. destruct Hct as [H1 _]. cbn in H1. lia.
Qed.

Definition open_ok (io : open_io) : Prop :=
  oi_mkdir io = true ∧ oi_readdir io = true ∧ (∀ n, oi_access io n = true) ∧ oi_open io = true.

Lemma clean_cur_path w fs old c :
  Clean w fs old c → path c = seg_name (startSeq c) ∧ endSeq c = seq w ∧ is_Some (fs !! path c).
Proof.
  intros HC. pose proof (contig_last _ _ _ (cl_contig _ _ _ _ HC)) as Hlast.
  destruct (Inv_path_start w fs old c c (cl_inv _ _ _ _ HC) ltac:(set_solver)) as [Hpc _].
  pose proof (cl_segs _ _ _ _ HC) as Hsg. rewrite Forall_app, Forall_singleton in Hsg.
  destruct Hsg as [_ (fl & Hfl & _)]. split_and!; [done|lia|eauto].
Qed.

Lemma clean_not_dir w fs old c n : Clean w fs old c → fs !! seg_name n ≠ Some NDir.
Proof.
  intros HC E. pose proof (cl_dir _ _ _ _ HC _ (is_seg_name_seg_name n) ltac:(eauto)) as Hel.
  apply list_elem_of_fmap in Hel as (x & Hx & Hin).
  pose proof (cl_segs _ _ _ _ HC) as Hsg. rewrite Forall_forall in Hsg.
  destruct (Hsg x Hin) as (fl & Hfl & _). rewrite <-Hx in Hfl. congruence.
Qed.

(** The state [Open] builds: the segments with records, and a current one
    behind them that is either a new file or the empty file already there. *)
Lemma reopened w fs old c l s w' old' cn now :
  Clean w fs old c →
  (full_seg c ∧ l = old ∧ s = c) ∨ (startSeq c = seq w + 1 ∧ l ++ [s] = old) →
  strip <$> old' = strip <$> (l ++ [s]) → segments w' = old' ++ [cn] →
  strip cn = (seg_name (seq w + 1), seq w + 1, seq w) → cur w' = Some (sid cn) → seq w' = seq w →
  Forall (λ s, (sid s < sid cn)%nat) old' → (sid cn < next_sid w')%nat →
  let fs' := create_file (seg_name (seq w + 1)) now fs in
  Clean w' fs' old' cn ∧ log fs' (segments w') = log fs (segments w).
Proof.
  intros HC Hcase Hold Hw' Hcn Hcur Hq Hsid Hnx fs'. pose proof (cl_inv _ _ _ _ HC) as HI.
  destruct Hcase as [(Hf & -> & ->)|[Hsc Hlo]].
  - set (cx := mkSegment (next_sid w) (seg_name (seq w + 1)) (seq w + 1) (seq w) 0 0 true).
    destruct (Clean_extend w fs old c cx now) as [HC' Hlog]; [done..|].
    assert (Heq : strip <$> ((old ++ [c]) ++ [cx]) = strip <$> (old' ++ [cn])).
    { rewrite (fmap_app _ old'), Hold, fmap_app. cbn. by rewrite Hcn. }
    split; [by eapply Clean_strip; [exact HC'|exact Heq|..]|].
    rewrite Hw', <-(strip_log _ _ _ Heq), <-Hlog. cbn [segments]. by rewrite <-(assoc_L (++)).
  - destruct (clean_cur_path _ _ _ _ HC) as (Hpc & Hec & [nd Hex]).
    assert (Heq : strip <$> (old ++ [c]) = strip <$> (old' ++ [cn])).
    { rewrite !fmap_app, Hold, Hlo. cbn. rewrite Hcn. unfold strip. by rewrite Hpc, Hec, Hsc. }
    assert (fs' = fs) as Hfs.
    { unfold fs', create_file. rewrite <-Hsc, <-Hpc, Hex. done. }
    rewrite Hfs. split; [by eapply Clean_strip; [exact HC|exact Heq|..]|].
    by rewrite Hw', <-(strip_log _ _ _ Heq), (inv_segs _ _ _ _ HI).
Qed.

(** What [Open] does once the segments are found. *)
Lemma Open_reloaded io o fs l s :
  open_ok io → Dir o ≠ "" →
  strip <$> segments (reload (oi_access io) (mkWAL (defaults o) 0 [] None 0 0) fs) = strip <$> (l ++ [s]) →
  0 ≤ endSeq s < u64_max → fs !! seg_name (endSeq s + 1) ≠ Some NDir →
  ∃ w' old' cn, Open io o fs = (create_file (seg_name (endSeq s + 1)) (oi_now io) fs, Ok w') ∧
    segments w' = old' ++ [cn] ∧ strip <$> old' = strip <$> (l ++ [s]) ∧
    strip cn = (seg_name (endSeq s + 1), endSeq s + 1, endSeq s) ∧ f cn = true ∧ cur w' = Some (sid cn) ∧
    seq w' = endSeq s ∧ opts w' = defaults o ∧ Forall (λ s, (sid s < sid cn)%nat) old' ∧ (sid cn < next_sid w')%nat.
Proof.
  intros (Hmk & Hrd & Hacc & Hop) Hdir Hst Hq Hnd.
  unfold Open. rewrite bool_decide_eq_false_2, Hmk, Hrd by done. cbn [negb].
  set (w0 := mkWAL (defaults o) 0 [] None 0 0) in *.
  assert (Hsid : Forall (λ s, (sid s < next_sid (reload (oi_access io) w0 fs))%nat)
            (segments (reload (oi_access io) w0 fs))).
  { unfold reload. cbn [segments next_sid w0]. rewrite merge_sort_Permutation. apply reload_all_sids. }
  assert (opts (reload (oi_access io) w0 fs) = defaults o) as Hopts by done.
  destruct (reload (oi_access io) w0 fs) as [o1 q1 segs c1 t1 nx]. cbn in Hst, Hsid, Hopts. subst o1.
  rewrite fmap_app in Hst. cbn in Hst. destruct segs as [|s' l' _] using rev_ind; [by destruct (strip <$> l)|].
  pose proof Hst as Hst'. rewrite fmap_app in Hst. cbn in Hst. apply app_inj_tail in Hst as [Hl [= Hp Hss He]].
  cbn [segments]. rewrite last_snoc, He. unfold set_seq, openSegment.
  cbn [seq opts segments cur overflowTrims next_sid]. rewrite u64_small by (unfold_u64; lia).
  rewrite Hop, bool_decide_eq_false_2 by done. cbn [negb orb].
  eexists _, (l' ++ [s']), _. split; [reflexivity|]. cbn. split_and!; try done; [by rewrite Hst', fmap_app|cbn; lia].
Qed.

Lemma Open_clean io o w fs old c :
  Clean w fs old c → log fs (segments w) ≠ [] → open_ok io → Dir o ≠ "" →
  ∃ fs' w' old' c', Open io o fs = (fs', Ok w') ∧ Clean w' fs' old' c' ∧ f c' = true ∧
    opts w' = defaults o ∧ seq w' = seq w ∧ log fs' (segments w') = log fs (segments w).
Proof.
  intros HC Hne Hio Hdir. pose proof (inv_seq _ _ _ _ (cl_inv _ _ _ _ HC)) as Hq.
  destruct (clean_filter_full _ _ _ _ HC Hne) as (l & s & Hfil & Hend & Hcase).
  destruct (Open_reloaded io o fs l s) as (w' & old' & cn & HO & Hw' & Hold & Hcn & Hf & Hcur & Hsq & Hopts & Hsid & Hnx);
    [done|done|rewrite <-Hfil; apply (reload_clean _ _ w); [apply Hio|done]|lia|rewrite Hend; by eapply clean_not_dir|].
  rewrite Hend in *. destruct (reopened w fs old c l s w' old' cn (oi_now io)) as [HC' Hlog]; try done.
  exists (create_file (seg_name (seq w + 1)) (oi_now io) fs), w', old', cn. done.
Qed.
End clean.
