(* ===== verification/EnvWalSpec.v ===== *)
(** * envwal: the properties of the write-ahead log

    The abstract log the implementation promises (a counter and a list of
    records, extended at one end and trimmed at the other), the simulation, and
    the theorems about [Append], [ReadFrom], [GC] and [Open], each with a run of
    the model on a small log as its witness. *)
From Stdlib Require Import Ascii.
From stdpp Require Import base numbers gmap strings sorting relations list.
From S2P Require Import Prelude GoStr Json EnvWal EnvWalInv EnvWalLog.
Local Open Scope Z_scope.

(** ** The abstract log *)

(** A counter and the retained records.  Every step is total: nothing about
    segments, files or handles is left. *)
Inductive alog_step : Z * list diskEntry → Z * list diskEntry → Prop :=
| alog_append q l d : d_seq d = q + 1 → alog_step (q, l) (q + 1, l ++ [d])
| alog_trim q l1 l2 : alog_step (q, l1 ++ l2) (q, l2).

Section spec.
Context {Env : Type} `{!ProtoJSON Env}.
Implicit Types (w : WAL) (fs : FS) (c s : segment).

(** One operation whose system calls succeed, on a clock that does not run
    backwards. *)
Inductive good_step : WAL * FS → WAL * FS → Prop :=
| good_append io agent (e : Env) b w fs w' fs' r :
    io_ok io → Marshal e = Some b → f <$> cur_seg w = Some true → seq w < u64_max - 1 →
    Append io agent (Some e) w fs = (w', fs', r) → good_step (w, fs) (w', fs')
| good_gc now w fs w' fs' :
    StronglySorted Z.le (createdAt <$> segments w) →
    GC (λ _, true) now w fs = (w', fs') → good_step (w, fs) (w', fs')
| good_close w fs : good_step (w, fs) (Close w, fs)
| good_reopen io o w fs w' fs' :
    log fs (segments w) ≠ [] → open_ok io → Open io o fs = (fs', Ok w') →
    good_step (w, fs) (w', fs').

(** What relates a log in memory and on disk to the abstract one. *)
Definition refines (st : WAL * FS) (a : Z * list diskEntry) : Prop :=
  ∃ old c, Clean (Env := Env) st.1 st.2 old c ∧ a = (seq st.1, log st.2 (segments st.1)).

Lemma cur_seg_clean w fs old c : Clean (Env := Env) w fs old c → cur_seg w = Some c.
Proof. intros [HI _ _ _ _]. apply (cur_seg_last w old c); apply HI. Qed.

Lemma clean_length w fs old c :
  Clean (Env := Env) w fs old c → length (segments w) = S (length old).
Proof. intros [HI _ _ _ _]. rewrite (inv_segs _ _ _ _ HI), length_app. cbn. lia. Qed.

Lemma GC_clean_two now w fs old c w' fs' :
  Clean (Env := Env) w fs old c → length (segments w) = 2%nat →
  GC (λ _, true) now w fs = (w', fs') → length (segments w') = 1%nat → Clean (Env := Env) w' fs' [] c.
Proof.
  intros HC Hw HG Hw'. rewrite (clean_length _ _ _ _ HC) in Hw.
  destruct (GC_clean now w fs old c w' fs' HC) as (k & HC' & _); [|done|].
  - destruct old as [|s [|s' l]]; [done|repeat constructor|done].
  - rewrite (clean_length _ _ _ _ HC') in Hw'. by destruct (drop k old).
Qed.

Lemma Close_clean w fs old c :
  Clean (Env := Env) w fs old c →
  ∃ c', Clean (Env := Env) (Close w) fs old c' ∧ seq (Close w) = seq w ∧
    log fs (segments (Close w)) = log fs (segments w).
Proof.
  intros HC. pose proof (cl_inv _ _ _ _ HC) as HI. unfold Close. rewrite (cur_seg_clean _ _ _ _ HC).
  destruct (f c); [|by exists c]. exists (close_f c).
  pose proof (upd_cur_last w old c close_f (inv_segs _ _ _ _ HI) (inv_cur _ _ _ _ HI) (inv_sid _ _ _ _ HI)) as Hup.
  assert (Hst : strip <$> (old ++ [c]) = strip <$> (old ++ [close_f c])) by (by rewrite !fmap_app).
  assert (HF : Forall (λ s, (sid s < next_sid w)%nat) (old ++ [c])) by apply HI.
  split_and!; [|done|rewrite Hup, (inv_segs _ _ _ _ HI); symmetry; by apply strip_log].
  destruct HC as [_ Hsegs Hct Hfull Hdir]. destruct HI as [? ? ? ? ? Hp Hss ? ? Hlg ?].
  split; [split|..]; cbn [seq upd_cur set_segments cur next_sid sid close_f startSeq]; try done.
  - rewrite Forall_app, Forall_singleton in *. done.
  - by eapply (strip_Forall (λ x, x.1.1 = seg_name x.1.2 ∧ 1 ≤ x.1.2)).
  - by rewrite <-(strip_start _ _ Hst).
  - by rewrite <-(strip_log fs _ _ Hst).
  - by rewrite <-(strip_log fs _ _ Hst).
  - rewrite Forall_app, Forall_singleton in *. done.
  - by eapply strip_contig.
  - by rewrite <-(strip_path _ _ Hst).
Qed.

Lemma good_step_sim `{!ProtoJSONOk Env} st st' a :
  refines st a → good_step st st' → ∃ a', rtc alog_step a a' ∧ refines st' a'.
Proof.
  intros (old & c & HC & ->) Hst. 
  destruct Hst as [io agent e b w fs w' fs' r Hio Hm Hf Hlt HA|now w fs w' fs' Hcr HG|w fs|io o w fs w' fs' Hne Hio HO];
    cbn in HC |- *.
  - rewrite (cur_seg_clean _ _ _ _ HC) in Hf. injection Hf as Hf.
    destruct (Append_clean io agent e b w fs old c) as (w1 & fs1 & old1 & c1 & HA' & HC' & _ & Hq & Hl); [done..|].
    rewrite HA' in HA. injection HA as <- <- <-. eexists. split; [|by exists old1, c1].
    cbn. rewrite Hq, Hl. by apply rtc_once, alog_append.
  - rewrite (inv_segs _ _ _ _ (cl_inv _ _ _ _ HC)), fmap_app in Hcr.
    destruct (GC_clean now w fs old c w' fs') as (k & HC' & Hq & Hl & _); [done|..|done|].
    { by eapply StronglySorted_app_1_l. }
    eexists. split; [|by exists (drop k old), c]. cbn. rewrite Hq, Hl. apply rtc_once, alog_trim.
  - destruct (Close_clean _ _ _ _ HC) as (c' & HC' & Hq & Hl).
    eexists. split; [|by exists old, c']. cbn. by rewrite Hq, Hl.
  - assert (Dir o ≠ "") by (unfold Open in HO; by case_bool_decide).
    destruct (Open_clean io o w fs old c HC Hne Hio) as (fs1 & w1 & old1 & c1 & HO' & HC' & _ & _ & Hq & Hl); [done|].
    rewrite HO' in HO. injection HO as <- <-. eexists. split; [|by exists old1, c1].
    cbn. by rewrite Hq, Hl.
Qed.

Lemma good_steps_sim `{!ProtoJSONOk Env} st st' a :
  rtc good_step st st' → refines st a → ∃ a', rtc alog_step a a' ∧ refines st' a'.
Proof.
  intros Hr. revert a. induction Hr as [st|st st1 st' Hs Hr IH]; intros a Ha; [by exists a|].
  destruct (good_step_sim _ _ _ Ha Hs) as (a1 & Ha1 & H1). destruct (IH _ H1) as (a2 & Ha2 & H2).
  exists a2. split; [by etrans|done].
Qed.

Lemma Open_fresh_clean io o fs fs' w :
  fresh_dir fs → Open io o fs = (fs', Ok w) →
  ∃ c, Clean (Env := Env) w fs' [] c ∧ f c = true ∧ seq w = 0 ∧ log fs' (segments w) = [].
Proof.
  intros Hf HO. destruct (Open_fresh_inv _ _ _ _ _ Hf HO) as ((old & c & HI) & Hq & Hlog).
  revert HO. unfold Open. case_bool_decide; [done|].
  destruct (oi_mkdir io); [|done]. destruct (oi_readdir io); [|done]. cbn [negb].
  unfold reload. rewrite reload_all_fresh by done. cbn. unfold openSegment. cbn.
  destruct (negb _ || _); [done|]. intros [= <- <-]. change (u64 (0 + 1)) with 1 in *.
  set (c0 := mkSegment _ _ _ _ _ _ _) in *. set (w := mkWAL _ _ _ _ _ _) in *.
  assert (old = [] ∧ c = c0) as [-> ->].
  { pose proof (inv_segs _ _ _ _ HI) as E. cbn in E. destruct old as [|? [|??]]; by injection E as ->. }
  assert (Hnone : fs !! seg_name 1 = None) by (apply Hf, is_seg_name_seg_name).
  exists c0. split; [|done]. split; cbn [app]; [done|..|constructor|].
  - apply Forall_singleton. exists (mkFile [] (oi_now io)). cbn. split_and!; try done.
    unfold create_file. by rewrite Hnone, lookup_insert_eq.
  - done.
  - intros name Hn Hin. cbn. unfold create_file in Hin. rewrite Hnone in Hin.
    destruct (decide (seg_name 1 = name)) as [<-|Hne]; [set_solver|].
    rewrite lookup_insert_ne, (Hf _ Hn) in Hin by done. by destruct Hin.
Qed.

Lemma oldest_log w fs old c :
  Clean (Env := Env) w fs old c →
  oldest w ≤ seq w + 1 ∧ d_seq <$> log fs (segments w) = seqZ (oldest w) (seq w + 1 - oldest w).
Proof.
  intros HC. pose proof (cl_segs _ _ _ _ HC) as Hs. pose proof (cl_contig _ _ _ _ HC) as Hct.
  unfold oldest. rewrite (inv_segs _ _ _ _ (cl_inv _ _ _ _ HC)).
  destruct (old ++ [c]) as [|s0 l] eqn:E; [by destruct old|]. by apply clean_seqs.
Qed.

Lemma oldest_same w fs old c w' fs' old' c' :
  Clean (Env := Env) w fs old c → Clean (Env := Env) w' fs' old' c' →
  log fs (segments w) = log fs' (segments w') → log fs (segments w) ≠ [] → oldest w = oldest w'.
Proof.
  intros HC HC' Hlog Hne. destruct (oldest_log _ _ _ _ HC) as [Hle Hs], (oldest_log _ _ _ _ HC') as [Hle' Hs'].
  rewrite <-Hlog in Hs'. destruct (log fs (segments w)) as [|d l]; [done|].
  rewrite fmap_cons in Hs, Hs'.
  destruct (decide (0 < seq w + 1 - oldest w)), (decide (0 < seq w' + 1 - oldest w')).
  - rewrite seqZ_cons in Hs, Hs' by lia. congruence.
  - by replace (seq w' + 1 - oldest w') with 0 in Hs' by lia.
  - by replace (seq w + 1 - oldest w) with 0 in Hs by lia.
  - by replace (seq w + 1 - oldest w) with 0 in Hs by lia.
Qed.

(** The files [GC] may remove are not those of the segments it keeps. *)
Lemma gc_partition now w k old c :
  gc_expired now w old ++ take k (filter (λ s, gc_keep now w s = true) old) ++
    (drop k (filter (λ s, gc_keep now w s = true) old) ++ [c]) ≡ₚ old ++ [c].
Proof.
  rewrite (assoc_L (++) (take k _)), take_drop, (assoc_L (++)). apply Permutation_app; [|done].
  unfold gc_expired. rewrite (comm (++)).
  rewrite <-(filter_app_complement (λ s, gc_keep now w s = true) old) at 3.
  apply Permutation_app; [done|].
  assert (filter (λ s, gc_keep now w s = false) old = filter (λ s, gc_keep now w s ≠ true) old) as ->; [|done].
  apply list_filter_iff. intros s. destruct (gc_keep now w s); naive_solver.
Qed.

Lemma gc_kept_files w fs old c now k fs' s :
  Inv w fs old c →
  fs_trim (gc_expired now w old ++ take k (filter (λ s, gc_keep now w s = true) old)) fs fs' →
  s ∈ drop k (filter (λ s, gc_keep now w s = true) old) ++ [c] → fs' !! path s = fs !! path s.
Proof.
  intros HI Ht Hs. destruct (Ht (path s)) as [->|[_ Hin]]; [done|]. exfalso.
  pose proof (Inv_NoDup_paths w fs old c HI) as Hnd.
  rewrite <-(gc_partition now w k old c), (assoc_L (++)), fmap_app in Hnd.
  apply NoDup_app in Hnd as (_ & Hdisj & _). apply (Hdisj (path s)); [done|].
  by apply list_elem_of_fmap_2.
Qed.

Lemma gc_keep_old now w old c :
  Forall (λ s, sid s ≠ sid c) old → cur w = Some (sid c) →
  filter (λ s, gc_keep now w s = true) old = filter (λ s, now - createdAt s ≤ TTL (opts w)) old.
Proof.
  intros Ho Hc. induction Ho as [|s l Hs Ho IH]; [done|]. rewrite !filter_cons, IH.
  assert (gc_keep now w s = bool_decide (now - createdAt s ≤ TTL (opts w))) as ->.
  { unfold gc_keep. by rewrite (bool_decide_eq_false_2 (cur w = Some (sid s))) by congruence. }
  case_bool_decide; case_decide; case_decide; done.
Qed.

(** A segment of the snapshot that is gone when its turn comes. *)
Lemma read_views_gap {S} (cb : S → Entry Env → S * bool) from opens vs gap st :
  gap = true ∨ (∃ v, v ∈ vs ∧ from < v_endSeq v ∧ opens (v_path v) = ONotExist) →
  (read_views cb from opens vs gap st).2 ≠ None.
Proof.
  revert gap st. induction vs as [|v vs IH]; intros gap st Hg; cbn.
  - destruct Hg as [->|(v & Hv & _)]; [done|set_solver].
  - assert (Hrest : v_endSeq v ≤ from ∨ opens (v_path v) ≠ ONotExist →
      gap = true ∨ ∃ v, v ∈ vs ∧ from < v_endSeq v ∧ opens (v_path v) = ONotExist).
    { intros Hv. destruct Hg as [?|(x & [->|Hx]%elem_of_cons & Hlt & Ho)]; [auto| |eauto].
      destruct Hv; [lia|done]. }
    case_bool_decide; [by apply IH, Hrest; left|].
    destruct (opens (v_path v)) as [| |cs]; [by apply IH; left|done|].
    destruct (read_cells _ _ _ _) as [st' [er|]]; [done|]. apply IH, Hrest. by right.
Qed.

Lemma read_cells_torn {S} (cb : S → Entry Env → S * bool) from cs1 n cs2 st st' :
  read_cells cb from cs1 st = (st', None) →
  read_cells cb from (cs1 ++ CFrag n :: cs2) st = (st', Some ErrDecode).
Proof.
  revert st. induction cs1 as [|[d m|m] cs1 IH]; intros st; cbn; [by intros [= <-]| |done].
  case_bool_decide; [apply IH|]. destruct (Unmarshal _); [|done].
  destruct (cb st _) as [st1 []]; [apply IH|done].
Qed.
End spec.

(** ** A small log to evaluate

    Messages are booleans, encoded as the JSON literals. *)
Module Demo.
Global Instance bool_proto : ProtoJSON bool := {|
  Marshal (b : bool) := Some (if b then "true" else "false");
  Unmarshal (s : string) := if bool_decide (s = "true") then Some true
                 else if bool_decide (s = "false") then Some false else None;
|}.

Global Instance bool_proto_ok : ProtoJSONOk bool.
Proof. split; intros [] b [= <-]; vm_compute; reflexivity. Qed.

Definition oio : open_io := mkOpenIO true true (λ _, true) true 100.
Definition o : Options := mkOptions "wal" 0 60 0.
Definition aio (now : Z) : append_io := mkAppendIO now WrOk true true now.
Definition st0 : WAL * FS :=
  match Open oio o ∅ with (fs, Ok w) => (w, fs) | (fs, _) => (mkWAL o 0 [] None 0 0, fs) end.
Definition put (io : append_io) (agent : string) (e : bool) (st : WAL * FS) : WAL * FS :=
  (Append io agent (Some e) st.1 st.2).1.
Definition st1 : WAL * FS := put (aio 110) "n1" true st0.
Definition st2 : WAL * FS := put (aio 120) "n2" false st1.
Definition seg0 (w : WAL) : segment :=
  match segments w with s :: _ => s | [] => mkSegment 0 "" 0 0 0 0 false end.
Definition torn : WAL * FS :=
  put (aio 110) "n1" true (put (mkAppendIO 105 (WrErr 9) true true 105) "n0" true st0).
Definition st3 : WAL * FS := GC (λ _, true) (10 ^ 14) st2.1 st2.2.
Definition keep_all {A} : list A → A → bool := λ _ _, true.

Lemma st0_open : Open oio o ∅ = (st0.2, Ok st0.1).
Proof. vm_compute. reflexivity. Qed.

Lemma oio_ok : open_ok oio.
Proof. by split_and!. Qed.
Lemma o_dir : Dir o ≠ "".
Proof. done. Qed.

Lemma fresh_empty : fresh_dir ∅.
Proof. intros name _. apply lookup_empty. Qed.

Lemma put_good io agent e st :
  io_ok io → f <$> cur_seg st.1 = Some true → seq st.1 < u64_max - 1 → good_step st (put io agent e st).
Proof.
  destruct st as [w fs]. intros Hio Hf Hq. unfold put. cbn [fst snd] in *.
  destruct (Append io agent (Some e) w fs) as [[w' fs'] r] eqn:E. cbn [fst].
  by eapply good_append.
Qed.

Lemma put_step io agent (e : bool) st : seq st.1 < u64_max - 1 → wal_step st (put io agent e st).
Proof.
  destruct st as [w fs]. intros Hq. unfold put. cbn [fst snd] in *.
  destruct (Append io agent (Some e) w fs) as [[w' fs'] r] eqn:E. cbn [fst].
  by eapply (step_append io agent (Some e)).
Qed.

Lemma st1_good : good_step st0 st1.
Proof. apply put_good; [done|vm_compute; reflexivity|vm_compute; done]. Qed.
Lemma st2_good : good_step st1 st2.
Proof. apply put_good; [done|vm_compute; reflexivity|vm_compute; done]. Qed.

Lemma st2_run : rtc good_step st0 st2.
Proof. eapply rtc_l; [apply st1_good|]. apply rtc_once, st2_good. Qed.

Lemma st2_steps : rtc (wal_step (Env := bool)) st0 st2.
Proof.
  eapply rtc_l; [apply (put_step (aio 110) "n1" true); vm_compute; done|].
  apply rtc_once, (put_step (aio 120) "n2" false). vm_compute. done.
Qed.

Lemma st0_clean : ∃ c, Clean (Env := bool) st0.1 st0.2 [] c ∧ f c = true.
Proof.
  destruct (Open_fresh_clean (Env := bool) oio o ∅ st0.2 st0.1 fresh_empty st0_open) as (c & ? & ? & _).
  by exists c.
Qed.

Lemma st2_clean : ∃ old c, Clean (Env := bool) st2.1 st2.2 old c.
Proof.
  destruct st0_clean as (c0 & HC & _).
  destruct (good_steps_sim st0 st2 (seq st0.1, log st0.2 (segments st0.1)) st2_run) as (a & _ & old & c & HC' & _); [by exists [], c0|].
  by exists old, c.
Qed.
End Demo.

(** ** Every reachable log is ordered *)

Section claims.
Context {Env : Type} `{!ProtoJSON Env}.

(** C1: a log opened on a directory without segments keeps, through any
    sequence of appends (with every outcome of their system calls), collections
    and closes, its current segment last, one file per segment named after its
    first sequence number, and records whose sequence numbers are strictly
    increasing across all segments and never above the counter. *)
Theorem wal_invariant io o (fs0 fs1 fs : FS) (w1 w : WAL) :
  fresh_dir fs0 → Open io o fs0 = (fs1, Ok w1) →
  rtc (wal_step (Env := Env)) (w1, fs1) (w, fs) →
  (∃ old c, segments w = old ++ [c] ∧ cur w = Some (sid c)) ∧
  Forall (λ s, path s = seg_name (startSeq s)) (segments w) ∧
  StronglySorted Z.lt (startSeq <$> segments w) ∧
  StronglySorted Z.lt (d_seq <$> log fs (segments w)) ∧
  Forall (λ d, d_seq d ≤ LastSeq w) (log fs (segments w)).
Proof.
  intros Hf HO Hr. destruct (Open_fresh_inv _ _ _ _ _ Hf HO) as (HI & _).
  destruct (wal_steps_inv _ _ HI Hr) as (old & c & HI'). cbn in HI'.
  pose proof HI' as [-> ? _ _ _ Hp ? _ _ ? ?]. split_and!; try done; [eauto|].
  eapply Forall_impl; [exact Hp|]. by intros s [? _].
Qed.

(** C8: a replay hands its callback strictly increasing sequence numbers, all
    above the cursor, even when other goroutines append, rotate, collect and
    close between the snapshot and the opening of each segment file, and
    whatever error ends it. *)
Theorem replay_in_order (w0 : WAL) (fs0 : FS) opens accept from es er :
  wal_inv (w0, fs0) →
  (∀ p, ∃ st deny, rtc (wal_step (Env := Env)) (w0, fs0) st ∧ opens p = open_view st.2 deny p) →
  ReadFrom (collect (Env := Env) accept) from w0 opens [] = (es, er) →
  StronglySorted Z.lt (Seq <$> es) ∧ Forall (λ e, from < Seq e) es.
Proof. apply replay_collect. Qed.

(** C9: on runs whose system calls succeed, whose clock never goes back, and which
    append only what can be encoded and reopen the log only while it holds a
    record, the log implements the abstract one: every append extends it by one
    record with the next number, every collection forgets a prefix, closing and
    reopening change nothing, and the retained records are exactly the numbers
    from [oldest] to [LastSeq]. *)
Theorem wal_refines_log `{!ProtoJSONOk Env} io o (fs0 fs1 fs : FS) (w1 w : WAL) :
  fresh_dir fs0 → Open io o fs0 = (fs1, Ok w1) →
  rtc (good_step (Env := Env)) (w1, fs1) (w, fs) →
  rtc alog_step (0, []) (LastSeq w, log fs (segments w)) ∧
  d_seq <$> log fs (segments w) = seqZ (oldest w) (LastSeq w + 1 - oldest w).
Proof.
  intros Hf HO Hr. destruct (Open_fresh_clean (Env := Env) _ _ _ _ _ Hf HO) as (c & HC & _ & Hq & Hl).
  destruct (good_steps_sim _ _ (0, []) Hr) as (a & Ha & old & c' & HC' & ->).
  { exists [], c. cbn. by rewrite Hq, Hl. }
  split; [done|]. by apply (oldest_log w fs old c').
Qed.

(** Replaying a log feeds the callback exactly the retained records above
    the cursor, in order, until the callback refuses one; a cursor from before
    the retained window is refused before anything is delivered. *)
Theorem read_from_suffix {S} (cb : S → Entry Env → S * bool) from w fs old c st :
  Clean (Env := Env) w fs old c → 0 ≤ from < u64_max →
  ReadFrom cb from w (open_view fs (λ _, false)) st =
    if decide (0 < from ∧ from + 1 < oldest w) then (st, Some ErrCursorExpired)
    else feed cb (above from (log fs (segments w))) st.
Proof. intros HC [H0 Hlt]. by apply (ReadFrom_clean cb from w fs old c). Qed.

(** An envelope that was appended is what a subscriber at the previous
    cursor reads back: same number, agent, message and time. *)
Theorem append_then_read `{!ProtoJSONOk Env} io agent (e : Env) b w fs old c :
  Clean (Env := Env) w fs old c → f c = true → LastSeq w < u64_max - 1 → io_ok io →
  Marshal e = Some b → all_bytes is_ascii7 agent = true →
  ∃ w' fs', Append io agent (Some e) w fs = (w', fs', Ok (LastSeq w + 1)) ∧
    ReadFrom (collect (λ _ _, true)) (LastSeq w) w' (open_view fs' (λ _, false)) [] =
      ([mkEntry (LastSeq w + 1) agent e (io_now io)], None).
Proof.
  intros HC Hf Hlt Hio Hm Hag. unfold LastSeq in *.
  pose proof (inv_seq _ _ _ _ (cl_inv _ _ _ _ HC)) as Hq0.
  destruct (Append_clean io agent e b w fs old c) as (w' & fs' & old' & c' & HA & HC' & _ & Hq & Hl); [done..|].
  exists w', fs'. split; [done|]. rewrite (ReadFrom_clean _ _ w' fs' old' c') by (done || lia).
  destruct (oldest_log _ _ _ _ HC') as [Hle Hs]. rewrite decide_False.
  2: { intros [_ Hlt']. rewrite Hl, fmap_app in Hs. apply (f_equal length) in Hs.
       rewrite length_app, length_seqZ in Hs. cbn in Hs. lia. }
  rewrite Hl, above_app, above_nil.
  2: { rewrite (inv_segs _ _ _ _ (cl_inv _ _ _ _ HC)). apply (cl_inv _ _ _ _ HC). }
  unfold above. rewrite filter_cons_True by (cbn; lia). cbn. unfold to_entry. cbn.
  rewrite (unmarshal_compact e b Hm), to_valid_utf8_ascii by done. done.
Qed.

(** C33: when no write has failed before, reopening the directory of a log that
    holds a record, with system calls that succeed, gives a writable log with the
    same counter, the same records, and the same answer to every replay from a
    cursor below 2^64 - 1. *)
Theorem reopen_same_log io o w fs old c :
  Clean (Env := Env) w fs old c → log fs (segments w) ≠ [] → open_ok io → Dir o ≠ "" →
  ∃ fs' w', Open io o fs = (fs', Ok w') ∧ LastSeq w' = LastSeq w ∧ f <$> cur_seg w' = Some true ∧
    log fs' (segments w') = log fs (segments w) ∧
    ∀ S (cb : S → Entry Env → S * bool) from st, 0 ≤ from < u64_max →
      ReadFrom cb from w' (open_view fs' (λ _, false)) st =
      ReadFrom cb from w (open_view fs (λ _, false)) st.
Proof.
  intros HC Hne Hio Hdir.
  destruct (Open_clean io o w fs old c HC Hne Hio Hdir) as (fs' & w' & old' & c' & HO & HC' & Hf & _ & Hq & Hl).
  exists fs', w'. split_and!; try done.
  - by rewrite (cur_seg_clean _ _ _ _ HC'), <-Hf.
  - intros S cb from st [H0 Hlt].
    rewrite (ReadFrom_clean cb from w' fs' old' c'), (ReadFrom_clean cb from w fs old c) by done.
    by rewrite Hl, (oldest_same w fs old c w' fs' old' c').
Qed.

(** C36: a collection keeps the current segment and, of the others, the
    youngest ones within the TTL, as many as the byte cap allows and no fewer;
    it counts the segments the cap cost, never touches the file of a segment
    it keeps, and leaves the counter alone. *)
Theorem gc_retention rm_ok now w fs w' fs' :
  wal_inv (w, fs) → GC rm_ok now w fs = (w', fs') →
  ∃ old c k, let kept := filter (λ s, now - createdAt s ≤ TTL (opts w)) old in
    segments w = old ++ [c] ∧ cur w = Some (sid c) ∧
    segments w' = drop k kept ++ [c] ∧ cur w' = cur w ∧ LastSeq w' = LastSeq w ∧
    (drop k kept = [] ∨ total_bytes (segments w') ≤ MaxBytes (opts w)) ∧
    (∀ j, (j < k)%nat → MaxBytes (opts w) < total_bytes (drop j kept ++ [c])) ∧
    OverflowCount w' = (if decide (k = 0%nat) then OverflowCount w else u64 (OverflowCount w + Z.of_nat k)) ∧
    (∀ s, s ∈ segments w' → fs' !! path s = fs !! path s).
Proof.
  intros (old & c & HI) HG. cbn in HI.
  destruct (GC_spec rm_ok now w fs old c w' fs') as (k & _ & -> & Ht & [Hb Hmin] & _); [apply HI..|done|].
  exists old, c, k. cbn zeta.
  rewrite <-(gc_keep_old now w old c) by apply HI. cbn [segments cur seq LastSeq OverflowCount overflowTrims].
  split_and!; try done; [apply HI..|]. intros s. by apply gc_kept_files.
Qed.

(** A replay during which a segment it still needed was collected never
    reports success. *)
Theorem replay_gap_reported {S} (cb : S → Entry Env → S * bool) from w opens st s :
  s ∈ segments w → from < endSeq s → opens (path s) = ONotExist →
  (ReadFrom cb from w opens st).2 ≠ None.
Proof.
  intros Hs Hlt Ho. unfold ReadFrom. destruct (segments w) as [|s0 l] eqn:E; [set_solver|].
  rewrite <-E in Hs. destruct (_ && _); [done|]. apply read_views_gap. right.
  exists (mkSegView (path s) (endSeq s)). split_and!; try done.
  unfold views_of. by apply (list_elem_of_fmap_2 (λ s, mkSegView (path s) (endSeq s))).
Qed.

(** Bytes an interrupted write left in a segment end every later replay
    that reaches them with a decode error: what precedes them is delivered,
    the records written after them and all younger segments are not. *)
Theorem torn_write_ends_replay {S} (cb : S → Entry Env → S * bool) from w opens s r cs1 n cs2 st st' :
  segments w = s :: r → (from = 0 ∨ startSeq s ≤ u64 (from + 1)) → from < endSeq s → 0 ≤ from →
  opens (path s) = OCells (cs1 ++ CFrag n :: cs2) → read_cells cb from cs1 st = (st', None) →
  ReadFrom cb from w opens st = (st', Some ErrDecode).
Proof.
  intros Hw Hc Hlt H0 Ho Hr. unfold ReadFrom, views_of. rewrite Hw.
  destruct (_ && _) eqn:E; [reflect_bools; lia|]. rewrite fmap_cons. cbn [read_views v_endSeq v_path].
  rewrite bool_decide_eq_false_2, Ho by lia. by rewrite (read_cells_torn _ _ _ _ _ _ st').
Qed.

(** A write that fails before its first byte leaves the files as they
    were but uses up its number: the next append gets the one after it, so the
    numbers on disk are not dense. *)
Theorem failed_write_burns_seq `{!ProtoJSONOk Env} io agent (e : Env) b now open_ok0 w fs old c :
  Clean (Env := Env) w fs old c → f c = true → LastSeq w < u64_max - 2 → io_ok io → Marshal e = Some b →
  let lost := mkAppendIO now (WrErr 0) true open_ok0 now in
  let w1 := set_seq (LastSeq w + 1) w in
  Append lost agent (Some e) w fs = (w1, fs, Err ErrWrite) ∧
  (Append io agent (Some e) w1 fs).2 = Ok (LastSeq w + 2).
Proof.
  intros HC Hf Hlt (Hio1 & Hio2 & Hio3) Hm lost w1. unfold LastSeq in *.
  pose proof (cl_inv _ _ _ _ HC) as HI. pose proof (inv_seq _ _ _ _ HI) as Hq.
  pose proof (marshal_valid e b Hm) as Hv. destruct (clean_cur_path _ _ _ _ HC) as (Hpc & _ & _).
  pose proof (inv_start_c _ _ _ _ HI) as Hsc.
  destruct (Inv_start_u64 _ _ _ _ c HI ltac:(set_solver)) as [Hu _]. split.
  - unfold Append, lost. rewrite Hm, u64_succ by (unfold_u64; lia).
    rewrite (cur_seg_last (set_seq (seq w + 1) w) old c) by apply HI.
    unfold marshal_line, json_raw. cbn [d_envelope]. by rewrite Hv, Hf.
  - replace (seq w + 2) with (seq w1 + 1) by (cbn; lia).
    assert (fs !! seg_name (seq w1 + 2) = None ∧ path c ≠ seg_name (seq w1 + 2)) as [Hne1 Hne2].
    { cbn. split.
      - destruct (fs !! _) eqn:E; [|done]. exfalso. assert (seq w + 1 + 2 ≤ startSeq c); [|lia].
        apply (inv_dom _ _ _ _ HI); [unfold_u64; lia|eauto].
      - rewrite Hpc. intros Heq%seg_name_inj; [lia|done|unfold_u64; lia]. }
    eapply (Append_succeeds _ _ _ _ _ _ old c); try done; try apply HI. cbn. lia.
Qed.

(** When a collection has left only an empty current segment, reopening
    starts the numbering again at zero although the counter was higher: the
    name of the empty file, which still carries it, is not read. *)
Theorem reopen_empty_resets io o w fs c :
  Clean (Env := Env) w fs [] c → log fs (segments w) = [] → open_ok io → Dir o ≠ "" →
  ∃ fs' w', Open io o fs = (fs', Ok w') ∧ LastSeq w' = 0.
Proof.
  intros HC Hl (Hmk & Hrd & Hacc & Hop) Hdir. unfold Open.
  rewrite bool_decide_eq_false_2, Hmk, Hrd by done. cbn [negb].
  set (w0 := mkWAL (defaults o) 0 [] None 0 0).
  pose proof (reload_clean (oi_access io) w0 w fs [] c Hacc HC) as Hst.
  assert (filter full_seg ([] ++ [c]) = []) as Hfil.
  { cbn [app]. rewrite filter_cons_False; [done|]. intros Hf. unfold full_seg in Hf.
    destruct (oldest_log _ _ _ _ HC) as [_ Hs]. destruct (clean_cur_path _ _ _ _ HC) as (_ & He & _).
    unfold oldest in Hs. rewrite Hl, (inv_segs _ _ _ _ (cl_inv _ _ _ _ HC)) in Hs. cbn [app fmap list_fmap] in Hs.
    rewrite seqZ_cons in Hs by lia. done. }
  rewrite Hfil in Hst. apply fmap_nil_inv in Hst. rewrite Hst.
  unfold openSegment. rewrite Hop, bool_decide_eq_false_2 by (by eapply clean_not_dir).
  cbn [negb orb]. eexists _, _. split; reflexivity.
Qed.
End claims.

Lemma wal_invariant_witness :
  StronglySorted Z.lt (d_seq <$> log Demo.st2.2 (segments Demo.st2.1)) ∧ LastSeq Demo.st2.1 = 2.
Proof.
  split; [|vm_compute; reflexivity].
  apply (wal_invariant (Env := bool) Demo.oio Demo.o ∅ Demo.st0.2 Demo.st2.2 Demo.st0.1 Demo.st2.1).
  - apply Demo.fresh_empty.
  - apply Demo.st0_open.
  - apply Demo.st2_steps.
Defined.

(** The snapshot is taken after one append, the file is opened after the next:
    both records arrive, in order. *)
Lemma replay_in_order_witness :
  ∃ es, ReadFrom (collect (Env := bool) Demo.keep_all) 0 Demo.st1.1
          (open_view Demo.st2.2 (λ _, false)) [] = (es, None) ∧
    length es = 2%nat ∧ StronglySorted Z.lt (Seq <$> es).
Proof.
  eexists. split; [vm_compute; reflexivity|]. split; [reflexivity|].
  apply (replay_in_order (Env := bool) Demo.st1.1 Demo.st1.2 (open_view Demo.st2.2 (λ _, false))
           Demo.keep_all 0 _ None).
  - apply (wal_steps_inv (Env := bool) Demo.st0).
    + by apply (Open_fresh_inv Demo.oio Demo.o ∅ Demo.st0.2 Demo.st0.1 Demo.fresh_empty Demo.st0_open).
    + apply rtc_once, (Demo.put_step (Demo.aio 110) "n1" true). vm_compute. done.
  - intros p. exists Demo.st2, (λ _, false). split; [|reflexivity].
    apply rtc_once, (Demo.put_step (Demo.aio 120) "n2" false). vm_compute. done.
  - vm_compute. reflexivity.
Defined.

Lemma wal_refines_log_witness :
  rtc alog_step (0, []) (2, log Demo.st2.2 (segments Demo.st2.1)).
Proof.
  apply (wal_refines_log (Env := bool) Demo.oio Demo.o ∅ Demo.st0.2 Demo.st2.2 Demo.st0.1 Demo.st2.1).
  - apply Demo.fresh_empty.
  - apply Demo.st0_open.
  - apply Demo.st2_run.
Defined.

Lemma read_from_suffix_witness :
  ReadFrom (collect (Env := bool) Demo.keep_all) 1 Demo.st2.1 (open_view Demo.st2.2 (λ _, false)) [] =
    ([mkEntry 2 "n2" false 120], None).
Proof.
  destruct Demo.st2_clean as (old & c & HC).
  rewrite (read_from_suffix _ 1 Demo.st2.1 Demo.st2.2 old c [] HC); [|vm_compute; done].
  vm_compute. reflexivity.
Defined.

Lemma append_then_read_witness :
  ∃ w' fs', Append (Demo.aio 110) "n1" (Some true) Demo.st0.1 Demo.st0.2 = (w', fs', Ok 1) ∧
    ReadFrom (collect (λ _ _, true)) 0 w' (open_view fs' (λ _, false)) [] =
      ([mkEntry 1 "n1" true 110], None).
Proof.
  destruct Demo.st0_clean as (c & HC & Hf).
  apply (append_then_read (Demo.aio 110) "n1" true "true" Demo.st0.1 Demo.st0.2 [] c HC Hf).
  - vm_compute. reflexivity.
  - done.
  - reflexivity.
  - vm_compute. reflexivity.
Defined.

Lemma reopen_same_log_witness :
  ∃ fs' w', Open Demo.oio Demo.o Demo.st2.2 = (fs', Ok w') ∧ LastSeq w' = 2.
Proof.
  destruct Demo.st2_clean as (old & c & HC).
  destruct (reopen_same_log Demo.oio Demo.o Demo.st2.1 Demo.st2.2 old c HC) as (fs' & w' & HO & Hq & _).
  - vm_compute. discriminate.
  - apply Demo.oio_ok.
  - apply Demo.o_dir.
  - exists fs', w'. split; [exact HO|exact Hq].
Defined.

Lemma gc_retention_witness :
  let w := Demo.st2.1 in let fs := Demo.st2.2 in
  length (segments w) = 2%nat ∧ length (segments (GC (λ _, true) (10 ^ 14) w fs).1) = 1%nat ∧
  ∃ old c k, segments w = old ++ [c] ∧
    segments (GC (λ _, true) (10 ^ 14) w fs).1 =
      drop k (filter (λ s, 10 ^ 14 - createdAt s ≤ TTL (opts w)) old) ++ [c].
Proof.
  split; [vm_compute; reflexivity|]. split; [vm_compute; reflexivity|].
  destruct (gc_retention (λ _, true) (10 ^ 14) Demo.st2.1 Demo.st2.2
    (GC (λ _, true) (10 ^ 14) Demo.st2.1 Demo.st2.2).1 (GC (λ _, true) (10 ^ 14) Demo.st2.1 Demo.st2.2).2)
    as (old & c & k & Hw & _ & Hw' & _).
  - destruct Demo.st2_clean as (old & c & HC). exists old, c. apply HC.
  - apply surjective_pairing.
  - exists old, c, k. split; [exact Hw|exact Hw'].
Defined.

(** The first segment of [st2] is collected between the snapshot and the read. *)
Lemma replay_gap_reported_witness :
  (ReadFrom (collect (Env := bool) Demo.keep_all) 0 Demo.st2.1
     (open_view (GC (λ _, true) (10 ^ 14) Demo.st2.1 Demo.st2.2).2 (λ _, false)) []).2 ≠ None.
Proof.
  apply (replay_gap_reported _ 0 Demo.st2.1 _ [] (Demo.seg0 Demo.st2.1)).
  - assert (segments Demo.st2.1 = Demo.seg0 Demo.st2.1 :: tail (segments Demo.st2.1)) as ->
      by (vm_compute; reflexivity). left.
  - vm_compute. reflexivity.
  - vm_compute. reflexivity.
Defined.

(** Half a record, then a whole one. *)
Lemma torn_write_ends_replay_witness :
  ReadFrom (collect (Env := bool) Demo.keep_all) 0 Demo.torn.1 (open_view Demo.torn.2 (λ _, false)) [] =
    ([], Some ErrDecode).
Proof.
  apply (torn_write_ends_replay _ 0 Demo.torn.1 _ (Demo.seg0 Demo.torn.1) (tail (segments Demo.torn.1))
           [] 9 (tail (content Demo.torn.2 (path (Demo.seg0 Demo.torn.1)))) [] []).
  - vm_compute. reflexivity.
  - left. reflexivity.
  - vm_compute. reflexivity.
  - lia.
  - vm_compute. reflexivity.
  - reflexivity.
Defined.

Lemma failed_write_burns_seq_witness :
  (Append (Demo.aio 110) "n1" (Some true) (set_seq 1 Demo.st0.1) Demo.st0.2).2 = Ok 2.
Proof.
  destruct Demo.st0_clean as (c & HC & Hf).
  apply (failed_write_burns_seq (Demo.aio 110) "n1" true "true" 105 true Demo.st0.1 Demo.st0.2 [] c HC Hf).
  - vm_compute. reflexivity.
  - done.
  - reflexivity.
Defined.

(** Two appends fill and rotate the first segment, which then expires. *)
Lemma reopen_empty_resets_witness :
  LastSeq Demo.st3.1 = 2 ∧ ∃ fs' w', Open Demo.oio Demo.o Demo.st3.2 = (fs', Ok w') ∧ LastSeq w' = 0.
Proof.
  split; [vm_compute; reflexivity|]. destruct Demo.st2_clean as (old & c & HC).
  apply (reopen_empty_resets (Env := bool) Demo.oio Demo.o Demo.st3.1 Demo.st3.2 c).
  - apply (GC_clean_two (10 ^ 14) Demo.st2.1 Demo.st2.2 old c _ _ HC); vm_compute; reflexivity.
  - vm_compute. reflexivity.
  - apply Demo.oio_ok.
  - apply Demo.o_dir.
Defined.
