(* ===== verification/EnvWalBounds.v ===== *)
(** * envwal: how much disk the log takes

    The sizes of the segment files against [SegmentSize] and [MaxBytes] of
    src/internal/aggregator/envwal/envwal.go: what the segment list accounts for
    is what the files hold, a file outgrows the segment size by less than one
    line, and a collection brings the directory under the cap. *)
From Stdlib Require Import Ascii.
From stdpp Require Import base numbers gmap strings sorting relations list.
From S2P Require Import Prelude GoStr Json EnvWal EnvWalInv EnvWalLog EnvWalSpec.
Local Open Scope Z_scope.

(** ** Sizes on disk *)

Definition size_at (fs : FS) (p : string) : Z :=
  match fs !! p with Some (NFile fl) => file_size fl | _ => 0 end.

(** What the log's files take together. *)
Definition disk_usage (fs : FS) : Z :=
  foldr (λ name acc, size_at fs name + acc) 0 (filter (λ n, is_seg_name n = true) (map_to_list fs).*1).

Definition segments_usage (fs : FS) (l : list segment) : Z :=
  foldr (λ s acc, size_at fs (path s) + acc) 0 l.

(** The bytes [Append] writes for a record. *)
Definition line_size (d : diskEntry) : Z :=
  match marshal_line d with Some l => Z.of_nat (String.length l) + 1 | None => 0 end.

Lemma size_at_ext fs fs' p : fs' !! p = fs !! p → size_at fs' p = size_at fs p.
Proof. unfold size_at. by intros ->. Qed.

Lemma size_at_append fs p fl cl now :
  fs !! p = Some (NFile fl) → size_at (append_cell p cl now fs) p = size_at fs p + cell_size cl.
Proof.
  intros Hf. unfold size_at, append_cell. rewrite lookup_alter_eq, Hf. cbn. unfold file_size. cbn [cells].
  rewrite foldr_app. cbn [foldr]. generalize (cells fl). intros l. induction l as [|x l IH]; cbn; lia.
Qed.

Lemma size_at_create fs p now : fs !! p = None → size_at (create_file p now fs) p = 0.
Proof. intros Hn. unfold size_at, create_file. by rewrite Hn, lookup_insert_eq. Qed.

Lemma foldr_size_perm fs (l1 l2 : list string) :
  l1 ≡ₚ l2 → foldr (λ n acc, size_at fs n + acc) 0 l1 = foldr (λ n acc, size_at fs n + acc) 0 l2.
Proof. induction 1; cbn; lia. Qed.

Section bounds.
Context {Env : Type} `{!ProtoJSON Env}.
Implicit Types (w : WAL) (fs : FS) (c s : segment).

(** A clean directory holds the segments' files and no other of that name. *)
Lemma disk_usage_segments w fs old c :
  Clean (Env := Env) w fs old c → disk_usage fs = segments_usage fs (old ++ [c]).
Proof.
  intros HC. unfold disk_usage, segments_usage.
  rewrite (foldr_size_perm fs _ (path <$> (old ++ [c]))).
  { generalize (old ++ [c]). intros l. induction l as [|s l IH]; [done|]. cbn. by rewrite IH. }
  apply NoDup_Permutation.
  - apply NoDup_filter, NoDup_fst_map_to_list.
  - apply (Inv_NoDup_paths w fs), HC.
  - intros name. rewrite list_elem_of_filter, list_elem_of_fmap. split.
    + intros [Hn ([name' nd] & -> & Hin)]. apply elem_of_map_to_list in Hin. eapply (cl_dir _ _ _ _ HC); eauto.
    + intros Hin. apply list_elem_of_fmap in Hin as (s & -> & Hs).
      pose proof (cl_segs _ _ _ _ HC) as Hcs. rewrite Forall_forall in Hcs. destruct (Hcs _ Hs) as (fl & Hf & _).
      pose proof (inv_path _ _ _ _ (cl_inv _ _ _ _ HC)) as Hp. rewrite Forall_forall in Hp.
      destruct (Hp _ Hs) as [Hps _]. split; [rewrite Hps; apply is_seg_name_seg_name|].
      exists (path s, NFile fl). split; [done|]. by apply elem_of_map_to_list.
Qed.

(** ** What the segment list accounts for *)

Record Sized (m : Z) (w : WAL) (fs : FS) (old : list segment) (c : segment) : Prop := {
  sz_clean : Clean (Env := Env) w fs old c;
  sz_bytes : Forall (λ s, size_at fs (path s) = bytes s) (old ++ [c]);
  sz_old : Forall (λ s, bytes s < SegmentSize (opts w) + m) old;
  sz_cur : bytes c < SegmentSize (opts w);
  sz_pos : 0 < SegmentSize (opts w);
}.

Lemma Sized_total m w fs old c : Sized m w fs old c → disk_usage fs = total_bytes (old ++ [c]).
Proof.
  intros [HC Hb _ _ _]. rewrite (disk_usage_segments _ _ _ _ HC). unfold segments_usage, total_bytes.
  induction Hb as [|s l Hs Hb IH]; [done|]. cbn. by rewrite Hs, IH.
Qed.

(** A successful append: the current segment grows by the line, and is closed
    behind a new one when it has reached the segment size. *)
Lemma Append_bytes io agent (e : Env) b w fs old c w' fs' q :
  Inv w fs old c → Marshal e = Some b → seq w < u64_max - 1 → Append io agent (Some e) w fs = (w', fs', Ok q) →
  let d := mkDiskEntry (seq w + 1) agent b (io_now io) in
  let fs1 := append_cell (path c) (CRec (stored d) (line_size d)) (io_now io) fs in
  opts w' = opts w ∧ ∃ c', path c' = path c ∧ bytes c' = bytes c + line_size d ∧
    ((segments w' = old ++ [c'] ∧ fs' = fs1 ∧ bytes c' < SegmentSize (opts w)) ∨
     ∃ s now, segments w' = old ++ [c'; s] ∧ path s = seg_name (seq w + 2) ∧ bytes s = 0 ∧
       fs' = create_file (path s) now fs1).
Proof.
  intros HI Hm Hlt HA. pose proof HI as [Hs Hc Ho _ Hq _ _ _ _ _ _]. revert HA. unfold Append. rewrite Hm.
  assert (Hu : u64 (seq w + 1) = seq w + 1) by (apply u64_succ; unfold_u64; lia).
  rewrite Hu, (cur_seg_last (set_seq (seq w + 1) w) old c Hs Hc Ho). cbn zeta. cbn [seq set_seq].
  unfold line_size. set (d := mkDiskEntry _ _ _ _). destruct (marshal_line d) as [line|]; [|done].
  destruct (f c); [|done]. destruct (io_line io); [|done]. destruct (io_nl io); [|done]. cbn [negb].
  set (n := Z.of_nat (String.length line) + 1). set (w2 := upd_cur _ _).
  assert (Hw2 : segments w2 = old ++ [grow n (seq w + 1) c]) by (by apply upd_cur_last).
  case_bool_decide as Hsz.
  - unfold rotate. rewrite (cur_seg_last w2 old (grow n (seq w + 1) c)) by done. cbn [f grow].
    set (w2' := if f c then upd_cur close_f w2 else w2).
    assert (Hw2' : ∃ c', segments w2' = old ++ [c'] ∧ path c' = path c ∧ bytes c' = bytes c + n ∧
      opts w2' = opts w ∧ seq w2' = seq w + 1).
    { unfold w2'. destruct (f c); [|by exists (grow n (seq w + 1) c)].
      exists (close_f (grow n (seq w + 1) c)). split; [by apply upd_cur_last|done]. }
    destruct Hw2' as (c' & Hs' & Hp' & Hb' & Ho' & Hq'). unfold openSegment. rewrite Hq'.
    assert (Hu2 : u64 (seq w + 1 + 1) = seq w + 2) by (rewrite u64_succ by (unfold_u64; lia); lia).
    rewrite Hu2. destruct (negb (io_open io) || _); [done|]. intros [= <- <- _]. cbn [opts segments].
    split; [done|]. exists c'. split_and!; [done..|]. right. eexists _, _. rewrite Hs', <-(assoc_L (++)).
    split_and!; [done|..|reflexivity]; done.
  - intros [= <- <- _]. split; [done|]. exists (grow n (seq w + 1) c). split_and!; [done..|]. left.
    split_and!; [done..|]. cbn. unfold n. cbn in Hsz. lia.
Qed.

Lemma Sized_append `{!ProtoJSONOk Env} m io agent (e : Env) b w fs old c w' fs' r :
  Sized m w fs old c → io_ok io → Marshal e = Some b → f c = true → seq w < u64_max - 1 →
  line_size (mkDiskEntry (seq w + 1) agent b (io_now io)) ≤ m → Append io agent (Some e) w fs = (w', fs', r) →
  opts w' = opts w ∧ ∃ old' c', Sized m w' fs' old' c'.
Proof.
  intros HS Hio Hm Hf Hlt Hn HA. pose proof HS as [HC Hb Hold Hcur Hpos]. pose proof (cl_inv _ _ _ _ HC) as HI.
  destruct (Append_clean io agent e b w fs old c) as (w1 & fs1 & old' & c' & HA' & HC' & _); [done..|].
  rewrite HA in HA'. injection HA' as -> -> ->.
  destruct (Append_bytes io agent e b w fs old c w1 fs1 _ HI Hm Hlt HA) as (Ho & c1 & Hp & Hb1 & Hcase).
  set (d := mkDiskEntry _ _ _ _) in *. split; [done|]. exists old', c'.
  pose proof (inv_segs _ _ _ _ (cl_inv _ _ _ _ HC')) as Hsegs.
  pose proof (Inv_NoDup_paths _ _ _ _ HI) as Hnd. rewrite fmap_app, NoDup_app in Hnd. destruct Hnd as (_ & Hdis & _).
  apply Forall_app in Hb as [Hbo Hbc]. rewrite Forall_singleton in Hbc.
  pose proof (cl_segs _ _ _ _ HC) as Hcs. apply Forall_app in Hcs as [Hcs Hcc]. rewrite Forall_singleton in Hcc.
  destruct Hcc as (fl & Hfl & _).
  set (fs0 := append_cell (path c) (CRec (stored d) (line_size d)) (io_now io) fs) in *.
  assert (Hold0 : Forall (λ s, size_at fs0 (path s) = bytes s) old).
  { rewrite Forall_forall in *. intros s Hs. rewrite <-(Hbo s Hs). apply size_at_ext, lookup_append_ne.
    intros Heq. apply (Hdis (path s)); [by apply list_elem_of_fmap_2|]. rewrite <-Heq. by left. }
  assert (Hc0 : size_at fs0 (path c1) = bytes c1) by (unfold fs0; rewrite Hp, (size_at_append fs _ fl), Hbc by done; cbn; lia).
  destruct Hcase as [(Hs & -> & Hsz)|(s & now & Hs & Hps & Hbs & ->)]; rewrite Hsegs in Hs.
  - apply app_inj_tail in Hs as [-> ->]. split; [done|..]; rewrite ?Ho; try done.
    rewrite Forall_app, Forall_singleton. done.
  - change (old ++ [c1; s]) with (old ++ [c1] ++ [s]) in Hs. rewrite (assoc_L (++)) in Hs.
    apply app_inj_tail in Hs as [-> ->].
    assert (Hnone : fs !! path s = None).
    { destruct (fs !! path s) eqn:E; [|done]. exfalso. pose proof (inv_seq _ _ _ _ HI) as Hq. rewrite Hps in E.
      pose proof (inv_start_c _ _ _ _ HI). assert (seq w + 2 ≤ startSeq c); [|lia].
      apply (inv_dom _ _ _ _ HI); [unfold_u64; lia|eauto]. }
    assert (Hne : ∀ s0, s0 ∈ old ++ [c1] → path s ≠ path s0).
    { pose proof (Inv_NoDup_paths _ _ _ _ (cl_inv _ _ _ _ HC')) as Hnd'. rewrite fmap_app, NoDup_app in Hnd'.
      destruct Hnd' as (_ & Hd & _). intros s0 Hs0 Heq. apply (Hd (path s0)); [by apply list_elem_of_fmap_2|]. rewrite <-Heq. by left. }
    assert (Hn0 : fs0 !! path s = None).
    { unfold fs0. rewrite lookup_append_ne; [done|]. rewrite <-Hp. intros Heq. apply (Hne c1); [set_solver|done]. }
    split; [done|..]; rewrite ?Ho, ?Hbs; try done.
    + rewrite Forall_app, Forall_singleton. split; [|rewrite Hbs; by apply size_at_create].
      assert (HF : Forall (λ s, size_at fs0 (path s) = bytes s) (old ++ [c1])) by (by rewrite Forall_app, Forall_singleton).
      rewrite Forall_forall in *. intros s0 Hs0. rewrite <-(HF s0 Hs0). by apply size_at_ext, lookup_create_ne, Hne.
    + rewrite Forall_app, Forall_singleton. split; [done|]. lia.
Qed.

Lemma Sized_gc m now w fs old c w' fs' :
  Sized m w fs old c → StronglySorted Z.le (createdAt <$> old) → GC (λ _, true) now w fs = (w', fs') →
  opts w' = opts w ∧ ∃ k, Sized m w' fs' (drop k old) c ∧
    (drop k old = [] ∨ total_bytes (drop k old ++ [c]) ≤ MaxBytes (opts w)).
Proof.
  intros [HC Hb Hold Hcur Hpos] Hcr HG. pose proof (cl_inv _ _ _ _ HC) as HI.
  destruct (GC_clean now w fs old c w' fs' HC Hcr HG) as (k & HC' & _ & _ & Ht).
  assert (Ho : opts w' = opts w).
  { destruct (GC_spec (λ _, true) now w fs old c w' fs') as (? & _ & -> & _); [apply HI..|done|done]. }
  pose proof (inv_segs _ _ _ _ (cl_inv _ _ _ _ HC')) as Hsegs. rewrite Hsegs in Ht.
  split; [done|]. exists k. split; [|done].
  assert (Hsub : ∀ s, s ∈ drop k old ++ [c] → s ∈ old ++ [c]).
  { intros s. rewrite !elem_of_app. intros [Hs|Hs]; [left|by right]. rewrite <-(take_drop k old), elem_of_app. by right. }
  split; rewrite ?Ho; try done.
  - rewrite Forall_forall in *. intros s Hs. rewrite <-(Hb s) by auto.
    destruct (GC_spec (λ _, true) now w fs old c w' fs') as (k' & _ & -> & Htr & _); [apply HI..|done|].
    apply size_at_ext. eapply gc_kept_files; [exact HI|exact Htr|]. cbn in Hsegs. by rewrite Hsegs.
  - rewrite <-(take_drop k old), Forall_app in Hold. tauto.
Qed.

(** Appends of lines of at most [m] bytes whose system calls succeed, and
    collections, on a clock that does not run backwards. *)
Inductive sized_step (m : Z) : WAL * FS → WAL * FS → Prop :=
| sized_append io agent (e : Env) b w fs w' fs' r :
    io_ok io → Marshal e = Some b → f <$> cur_seg w = Some true → seq w < u64_max - 1 →
    line_size (mkDiskEntry (seq w + 1) agent b (io_now io)) ≤ m →
    Append io agent (Some e) w fs = (w', fs', r) → sized_step m (w, fs) (w', fs')
| sized_gc now w fs w' fs' :
    StronglySorted Z.le (createdAt <$> segments w) →
    GC (λ _, true) now w fs = (w', fs') → sized_step m (w, fs) (w', fs').

Lemma sized_steps `{!ProtoJSONOk Env} m st st' :
  rtc (sized_step m) st st' → (∃ old c, Sized m st.1 st.2 old c) →
  opts st'.1 = opts st.1 ∧ ∃ old c, Sized m st'.1 st'.2 old c.
Proof.
  induction 1 as [st|st st1 st' Hs _ IH]; [done|]. intros (old & c & HS).
  assert (H : opts st1.1 = opts st.1 ∧ ∃ old c, Sized m st1.1 st1.2 old c); [|destruct H as [<- H]; by apply IH].
  destruct Hs as [io agent e b w fs w' fs' r Hio Hm Hf Hlt Hn HA|now w fs w' fs' Hcr HG]; cbn in *.
  - rewrite (cur_seg_clean _ _ _ _ (sz_clean _ _ _ _ _ HS)) in Hf. injection Hf as Hf. by eapply Sized_append.
  - rewrite (inv_segs _ _ _ _ (cl_inv _ _ _ _ (sz_clean _ _ _ _ _ HS))), fmap_app in Hcr.
    destruct (Sized_gc m now w fs old c w' fs' HS) as (Ho & k & HS' & _); [by eapply StronglySorted_app_1_l|done|].
    split; [done|]. eauto.
Qed.

Lemma Open_fresh_sized m io o fs fs' w :
  0 ≤ m → fresh_dir fs → Open io o fs = (fs', Ok w) → opts w = defaults o ∧ ∃ c, Sized m w fs' [] c.
Proof.
  intros Hm0 Hf HO. destruct (Open_fresh_clean (Env := Env) _ _ _ _ _ Hf HO) as (c & HC & _).
  pose proof (inv_segs _ _ _ _ (cl_inv _ _ _ _ HC)) as Hsegs. revert HO. unfold Open. case_bool_decide; [done|].
  destruct (oi_mkdir io); [|done]. destruct (oi_readdir io); [|done]. cbn [negb].
  unfold reload. rewrite reload_all_fresh by done. cbn. unfold openSegment. cbn.
  destruct (negb _ || _); [done|]. intros [= <- <-]. cbn in *. injection Hsegs as <-.
  split; [done|]. eexists. split; [exact HC|..]; cbn; [|constructor|..].
  - apply Forall_singleton. cbn. apply size_at_create. apply Hf, is_seg_name_seg_name.
  - case_bool_decide; lia.
  - case_bool_decide; lia.
Qed.

(** C29: in a directory of its own, with lines of at most [m] bytes, system calls
    that succeed and a clock that does not go back, no segment file ever reaches
    the segment size plus one line, what the segment list accounts for is what is
    on disk, and right after a collection the log takes no more than the byte cap,
    or than one segment where that is more. *)
Theorem wal_disk_bound `{!ProtoJSONOk Env} m io o (fs0 fs1 fs : FS) (w1 w : WAL) :
  0 ≤ m → fresh_dir fs0 → Open io o fs0 = (fs1, Ok w1) → rtc (sized_step m) (w1, fs1) (w, fs) →
  let so := defaults o in
  disk_usage fs = total_bytes (segments w) ∧
  (∀ name, is_seg_name name = true → size_at fs name < SegmentSize so + m) ∧
  ∀ now w' fs', StronglySorted Z.le (createdAt <$> segments w) → GC (λ _, true) now w fs = (w', fs') →
    disk_usage fs' ≤ Z.max (MaxBytes so) (SegmentSize so).
Proof.
  intros Hm0 Hf HO Hr so. destruct (Open_fresh_sized m _ _ _ _ _ Hm0 Hf HO) as (Ho & c0 & HS0).
  destruct (sized_steps m _ _ Hr) as (Ho' & old & c & HS); [eauto|]. cbn in Ho', HS.
  assert (Hopt : opts w = so) by (by rewrite Ho', Ho). clearbody so. pose proof (inv_segs _ _ _ _ (cl_inv _ _ _ _ (sz_clean _ _ _ _ _ HS))) as Hsegs.
  split_and!.
  - rewrite Hsegs. by eapply Sized_total.
  - destruct HS as [HC Hb Hold Hcur Hpos]. rewrite Hopt in Hold, Hcur, Hpos. intros name Hn.
    destruct (fs !! name) as [nd|] eqn:E; [|unfold size_at; rewrite E; cbn; lia].
    pose proof (cl_dir _ _ _ _ HC name Hn) as Hin. rewrite E in Hin.
    apply list_elem_of_fmap in Hin as (s & -> & Hs); [|eauto].
    rewrite Forall_forall in Hb, Hold. rewrite (Hb s Hs). apply elem_of_app in Hs as [Hs|Hs%list_elem_of_singleton].
    + by apply Hold.
    + subst s. lia.
  - intros now w' fs' Hcr HG. rewrite Hsegs, fmap_app in Hcr.
    destruct (Sized_gc m now w fs old c w' fs' HS) as (Ho1 & k & HS' & Ht); [by eapply StronglySorted_app_1_l|done|].
    rewrite (Sized_total _ _ _ _ _ HS'). rewrite Hopt in Ht. destruct Ht as [->|Ht]; [|lia].
    cbn. pose proof (sz_cur _ _ _ _ _ HS) as Hc. rewrite Hopt in Hc. lia.
Qed.
End bounds.

Lemma wal_disk_bound_witness :
  disk_usage Demo.st2.2 = total_bytes (segments Demo.st2.1) ∧ 0 < disk_usage Demo.st2.2.
Proof.
  split; [|vm_compute; reflexivity].
  apply (wal_disk_bound (Env := bool) 200 Demo.oio Demo.o ∅ Demo.st0.2 Demo.st2.2 Demo.st0.1 Demo.st2.1).
  - lia.
  - apply Demo.fresh_empty.
  - apply Demo.st0_open.
  - eapply (rtc_l _ _ Demo.st1).
    + by eapply (sized_append 200 (Demo.aio 110) "n1" true).
    + apply rtc_once. by eapply (sized_append 200 (Demo.aio 120) "n2" false).
Defined.
