(* ===== verification/WalBytes.v ===== *)
(** * The bytes of the write-ahead log

    src/internal/aggregator/envwal/envwal.go once more, on the bytes of its
    files: what [Append] writes, and the loops of [ReadFrom] and [reload] over a
    [json.Decoder].  The log of records of [EnvWal] is shown to be what these
    bytes stand for, whatever writes were cut short. *)
From Stdlib Require Import Ascii.
From stdpp Require Import base numbers gmap strings sorting relations list.
From S2P Require Import Prelude GoStr Json JsonText JsonCodec EnvWal EnvWalInv EnvWalLog EnvWalSpec.
Local Open Scope Z_scope.

(** ** Files *)

Inductive bnode := BDir | BFile (text : string) (mt : Z).
Abbreviation BFS := (gmap string bnode).

Definition write_text (p t : string) (now : Z) (bs : BFS) : BFS :=
  alter (λ nd, match nd with BFile s _ => BFile (s +:+ t) now | BDir => BDir end) p bs.

Definition create_text (p : string) (now : Z) (bs : BFS) : BFS :=
  match bs !! p with Some _ => bs | None => <[p := BFile "" now]> bs end.

(** ** Writing *)

Definition newline : string := String (chr 10) "".

Definition openSegmentB (ok : bool) (now : Z) (w : WAL) (bs : BFS) : WAL * BFS * option wal_err :=
  let p := seg_name (u64 (seq w + 1)) in
  if negb ok || (match bs !! p with Some BDir => true | _ => false end) then (w, bs, Some ErrOpen)
  else
    let s := mkSegment (next_sid w) p (u64 (seq w + 1)) (seq w) 0 now true in
    (mkWAL (opts w) (seq w) (segments w ++ [s]) (Some (sid s)) (overflowTrims w) (S (next_sid w)),
     create_text p now bs, None).

Definition rotateB (ok : bool) (now : Z) (w : WAL) (bs : BFS) : WAL * BFS * option wal_err :=
  let w1 := match cur_seg w with
            | Some s => if f s then upd_cur close_f w else w
            | None => w
            end in
  openSegmentB ok now w1 bs.

Section append.
Context {Env : Type} `{!ProtoJSON Env}.

Definition AppendB (io : append_io) (agent : string) (env : option Env) (w : WAL) (bs : BFS)
    : WAL * BFS * res Z :=
  match env with
  | None => (w, bs, Err ErrNilEnvelope)
  | Some e =>
    match Marshal e with
    | None => (w, bs, Err ErrMarshal)
    | Some envBytes =>
      let w1 := set_seq (u64 (seq w + 1)) w in
      match marshal_line (mkDiskEntry (seq w1) agent envBytes (io_now io)), cur_seg w1 with
      | None, _ => (w1, bs, Err ErrJSON)
      | Some _, None => (w1, bs, Err ErrWrite)
      | Some line, Some c =>
        if negb (f c) then (w1, bs, Err ErrWrite)
        else
          let len := Z.of_nat (String.length line) in
          match io_line io with
          | WrErr k =>
              (w1, if bool_decide (0 < k) then write_text (path c) (str_take (Z.to_nat k) line) (io_now io) bs else bs,
               Err ErrWrite)
          | WrOk =>
              let bs0 := write_text (path c) line (io_now io) bs in
              if negb (io_nl io) then (w1, bs0, Err ErrWrite)
              else
                let bs1 := write_text (path c) newline (io_now io) bs0 in
                let w2 := upd_cur (grow (len + 1) (seq w1)) w1 in
                if bool_decide (SegmentSize (opts w2) ≤ bytes c + (len + 1)) then
                  match rotateB (io_open io) (io_open_now io) w2 bs1 with
                  | (w3, bs3, Some er) => (w3, bs3, Err er)
                  | (w3, bs3, None) => (w3, bs3, Ok (seq w3))
                  end
                else (w2, bs1, Ok (seq w2))
          end
      end
    end
  end.
End append.

(** ** Reading *)

(** The fields of [diskEntry] under their JSON names. *)
Definition entry_fields : fields diskEntry := [
  ("seq", set_uint64 (λ z d, mkDiskEntry z (d_agent d) (d_envelope d) (d_ts d)));
  ("agent", set_string (λ s d, mkDiskEntry (d_seq d) s (d_envelope d) (d_ts d)));
  ("envelope", set_raw (λ s d, mkDiskEntry (d_seq d) (d_agent d) s (d_ts d)));
  ("ts_ns", set_int64 (λ z d, mkDiskEntry (d_seq d) (d_agent d) (d_envelope d) z))].

Definition decode_entry (v : string) : option diskEntry := decode_struct entry_fields v (mkDiskEntry 0 "" "" 0).

(** [dec.Decode(&d)]: the entry and what is left of the stream. *)
Definition Decode (s : string) : option (diskEntry * string) :=
  next_value s ≫= λ '(v, r), (λ d, (d, r)) <$> decode_entry v.

Section readfrom.
Context {Env : Type} `{!ProtoJSON Env} {S : Type}.
Context (cb : S → Entry Env → S * bool).
Context (fromSeq : Z).

(** The decode loop; each round takes a byte or more, so the length of the text is
    fuel enough. *)
Fixpoint read_text (fuel : nat) (s : string) (st : S) : S * option wal_err :=
  match fuel with
  | O => (st, None)
  | Datatypes.S n =>
      if negb (More s) then (st, None)
      else match Decode s with
           | None => (st, Some ErrDecode)
           | Some (d, r) =>
               if bool_decide (d_seq d ≤ fromSeq) then read_text n r st
               else match Unmarshal (d_envelope d) with
                    | None => (st, Some (ErrUnmarshal (d_seq d)))
                    | Some env =>
                        let '(st', ok) := cb st (mkEntry (d_seq d) (d_agent d) env (d_ts d)) in
                        if ok : bool then read_text n r st' else (st', Some ErrCallback)
                    end
           end
  end.

Inductive open_text_res := TNotExist | TErr | TText (s : string).

Definition open_text (bs : BFS) (deny : string → bool) (p : string) : open_text_res :=
  match bs !! p with
  | None => TNotExist
  | Some BDir => if deny p then TErr else TText ""
  | Some (BFile s _) => if deny p then TErr else TText s
  end.

Fixpoint read_text_views (opens : string → open_text_res) (vs : list segView) (gap : bool) (st : S)
    : S * option wal_err :=
  match vs with
  | [] => (st, if gap then Some ErrCursorExpired else None)
  | v :: vs' =>
      if bool_decide (v_endSeq v ≤ fromSeq) then read_text_views opens vs' gap st
      else match opens (v_path v) with
           | TNotExist => read_text_views opens vs' true st
           | TErr => (st, Some ErrOpen)
           | TText s =>
               match read_text (Datatypes.S (String.length s)) s st with
               | (st', None) => read_text_views opens vs' gap st'
               | (st', Some er) => (st', Some er)
               end
           end
  end.

Definition ReadFromB (w : WAL) (opens : string → open_text_res) (st : S) : S * option wal_err :=
  match segments w with
  | [] => (st, None)
  | s0 :: _ =>
      if bool_decide (0 < fromSeq) && bool_decide (u64 (fromSeq + 1) < startSeq s0)
      then (st, Some ErrCursorExpired)
      else read_text_views opens (views_of w) false st
  end.
End readfrom.

(** ** Opening *)

(** The loop of [reload] over one file. *)
Fixpoint scan_text (fuel : nat) (s : string) (acc : option (Z * Z)) : option (Z * Z) :=
  match fuel with
  | O => acc
  | S n =>
      if negb (More s) then acc
      else match Decode s with
           | None => acc
           | Some (d, r) =>
               scan_text n r (Some (match acc with Some (lo, _) => lo | None => d_seq d end, d_seq d))
           end
  end.

Definition reload_oneB (acc_ok : string → bool) (bs : BFS) (id : nat) (name : string) : option segment :=
  match bs !! name with
  | Some (BFile s mt) =>
      if is_seg_name name && acc_ok name then
        match scan_text (S (String.length s)) s None with
        | Some (lo, hi) => Some (mkSegment id name lo hi (Z.of_nat (String.length s)) mt false)
        | None => None
        end
      else None
  | _ => None
  end.

Fixpoint reload_allB (acc_ok : string → bool) (bs : BFS) (id : nat) (names : list string) : list segment :=
  match names with
  | [] => []
  | name :: ns =>
      match reload_oneB acc_ok bs id name with
      | Some s => s :: reload_allB acc_ok bs (S id) ns
      | None => reload_allB acc_ok bs id ns
      end
  end.

Definition reloadB (acc_ok : string → bool) (w : WAL) (bs : BFS) : WAL :=
  let segs := reload_allB acc_ok bs (next_sid w) (read_dir bs) in
  mkWAL (opts w) (seq w) (merge_sort start_le segs) (cur w) (overflowTrims w)
    (next_sid w + length segs).

Definition OpenB (io : open_io) (o : Options) (bs : BFS) : BFS * res WAL :=
  if bool_decide (Dir o = "") then (bs, Err ErrEmptyDir)
  else if negb (oi_mkdir io) then (bs, Err ErrMkdir)
  else if negb (oi_readdir io) then (bs, Err ErrReadDir)
  else
    let w1 := reloadB (oi_access io) (mkWAL (defaults o) 0 [] None 0 0) bs in
    let w2 := match list.last (segments w1) with
              | Some s => set_seq (endSeq s) w1
              | None => w1
              end in
    match openSegmentB (oi_open io) (oi_now io) w2 bs with
    | (w3, bs3, None) => (bs3, Ok w3)
    | (_, bs3, Some er) => (bs3, Err er)
    end.

(** ** One record *)

Definition is_i64 (z : Z) : Prop := - 2 ^ 63 ≤ z < 2 ^ 63.

Lemma marshal_line_inv d line :
  marshal_line d = Some line →
  json_valid (d_envelope d) = true ∧
  line = String "{" ("" +:+ jstr "seq" +:+ "" +:+ String ":" ("" +:+ Itoa (d_seq d) +:+ "" +:+ String ","
           ("" +:+ jstr "agent" +:+ "" +:+ String ":" ("" +:+ json_string (d_agent d) +:+ "" +:+ String ","
           ("" +:+ jstr "envelope" +:+ "" +:+ String ":" ("" +:+ compact (d_envelope d) +:+ "" +:+ String ","
           ("" +:+ jstr "ts_ns" +:+ "" +:+ String ":" ("" +:+ Itoa (d_ts d) +:+ "" +:+ String "}" "")))))))).
Proof.
  unfold marshal_line, json_raw. destruct (json_valid (d_envelope d)); [|done]. by intros [= <-].
Qed.

Lemma key_body k : all_bytes is_plain k = true → jbody k.
Proof. induction k as [|c k IH]; [constructor|]. cbn. intros [Hc Hk]%andb_true_iff. apply jb_plain; auto. Qed.

Lemma line_jval d line : marshal_line d = Some line → jval line ∧ ∃ m, line = String "{" (String quote (String "s" m)).
Proof.
  intros [Hv ->]%marshal_line_inv. split; [|by eexists].
  assert (H : ∀ k v m, all_bytes is_plain k = true → jval v → jmembers m →
    jmembers ("" +:+ jstr k +:+ "" +:+ String ":" ("" +:+ v +:+ "" +:+ String "," m))).
  { intros k v m Hk Hv' Hm. apply jm_cons; try apply spaces_nil; try done. by apply key_body. }
  assert (H1 : ∀ k v, all_bytes is_plain k = true → jval v → jmembers ("" +:+ jstr k +:+ "" +:+ String ":" ("" +:+ v +:+ ""))).
  { intros k v Hk Hv'. apply jm_one; try apply spaces_nil; try done. by apply key_body. }
  pose proof (H1 "ts_ns" _ eq_refl (jv_num _ (Itoa_jnum (d_ts d)))) as Hm.
  apply (H "envelope" _ _ eq_refl (compact_jval _ Hv)) in Hm.
  apply (H "agent" _ _ eq_refl (proj2 (json_string_jval (d_agent d)))) in Hm.
  apply (H "seq" _ _ eq_refl (jv_num _ (Itoa_jnum (d_seq d)))) in Hm.
  apply jv_obj in Hm. revert Hm.
  repeat (rewrite ?str_app_nil_l, ?str_app_nil_r, ?str_app_assoc, ?str_app_cons). done.
Qed.

Lemma members_fuel n s ms : members_go n s = Some ms → members_go (S n) s = Some ms.
Proof.
  revert s ms. induction n as [|n IH]; intros s ms; [done|]. intros H. cbn [members_go] in H. remember (S n) as k. cbn [members_go].
  apply bind_Some in H as (r0 & -> & H). cbn [mbind option_bind]. apply bind_Some in H as (r1 & -> & H). cbn [mbind option_bind].
  apply bind_Some in H as (r2 & -> & H). cbn [mbind option_bind]. apply bind_Some in H as (r3 & -> & H). cbn [mbind option_bind].
  destruct (peel "," (skip_space r3)) as [r4|]; [|done]. apply fmap_Some in H as (ms' & Hm & ->). subst k. by rewrite (IH _ _ Hm).
Qed.

Lemma members_fuel_le n m s ms : (n ≤ m)%nat → members_go n s = Some ms → members_go m s = Some ms.
Proof. induction 1; [done|]. intros. by apply members_fuel; auto. Qed.

(** What [Append] writes for an entry decodes to it, its agent repaired and its
    envelope compacted. *)
Lemma decode_line d line :
  marshal_line d = Some line → is_u64 (d_seq d) → is_i64 (d_ts d) → decode_entry line = Some (stored d).
Proof.
  intros HM Hs Ht. destruct (marshal_line_inv _ _ HM) as [Hv Hline].
  assert (Hm : object_members line = Some [("seq", Itoa (d_seq d)); ("agent", json_string (d_agent d));
    ("envelope", compact (d_envelope d)); ("ts_ns", Itoa (d_ts d))]).
  { unfold object_members. rewrite Hline, peel_eq. cbn [mbind option_bind].
    match goal with |- context [peel "}" (skip_space ?r)] => set (body := r) end.
    assert (peel "}" (skip_space body) = None) as -> by done.
    apply (members_fuel_le 4); [unfold body, jstr; rewrite !str_app_cons, !str_app_nil_l; cbn [String.length]; lia|]. unfold body.
    pose proof (proj2 (json_string_jval (d_agent d))) as Ha. pose proof (compact_jval _ Hv) as He.
    pose proof (jv_num _ (Itoa_jnum (d_seq d))) as H1. pose proof (jv_num _ (Itoa_jnum (d_ts d))) as H2.
    rewrite !members_cons, members_one by (done || by apply key_body). reflexivity. }
  unfold decode_entry, decode_struct. rewrite bool_decide_eq_false_2 by (by rewrite Hline). rewrite Hm. cbn [mbind option_bind].
  cbn [decode_members].
  change (field_named entry_fields "seq") with (Some (set_uint64 (λ z d, mkDiskEntry z (d_agent d) (d_envelope d) (d_ts d)))).
  change (field_named entry_fields "agent") with (Some (set_string (λ s d, mkDiskEntry (d_seq d) s (d_envelope d) (d_ts d)))).
  change (field_named entry_fields "envelope") with (Some (set_raw (λ s d, mkDiskEntry (d_seq d) (d_agent d) s (d_ts d)))).
  change (field_named entry_fields "ts_ns") with (Some (set_int64 (λ z d, mkDiskEntry (d_seq d) (d_agent d) (d_envelope d) z))).
  cbn match. rewrite set_uint64_json by done. cbn. rewrite set_string_json. cbn. by rewrite set_int64_json.
Qed.

(** ** Files as the bytes of their cells *)

(** The bytes a cell stands for: a record with its newline, or without when that
    write failed; or a proper part of a record. *)
Inductive cell_text : cell → string → Prop :=
| ct_record d line : marshal_line d = Some line → is_u64 (d_seq d) → is_i64 (d_ts d) →
    cell_text (CRec (stored d) (Z.of_nat (String.length line) + 1)) (line +:+ newline)
| ct_bare d line : marshal_line d = Some line → is_u64 (d_seq d) → is_i64 (d_ts d) →
    cell_text (CRec (stored d) (Z.of_nat (String.length line))) line
| ct_frag d line k : marshal_line d = Some line → 0 < k < Z.of_nat (String.length line) →
    cell_text (CFrag k) (str_take (Z.to_nat k) line).

Inductive text_of : list cell → string → Prop :=
| to_nil : text_of [] ""
| to_cons c t cs s : cell_text c t → text_of cs s → text_of (c :: cs) (t +:+ s).

Lemma text_of_snoc cs s c t : text_of cs s → cell_text c t → text_of (cs ++ [c]) (s +:+ t).
Proof.
  induction 1 as [|c' t' cs s Hc _ IH]; intros Ht; cbn [app].
  - rewrite str_app_nil_l, <-(str_app_nil_r t). by repeat constructor.
  - rewrite str_app_assoc. constructor; auto.
Qed.

Lemma text_of_size cs s : text_of cs s → foldr (λ c acc, cell_size c + acc) 0 cs = Z.of_nat (String.length s).
Proof.
  induction 1 as [|c t cs s Hc _ IH]; [done|]. cbn [foldr]. rewrite IH, str_length_app, Nat2Z.inj_add. f_equal.
  destruct Hc as [d line HM _ _|d line HM _ _|d line k HM Hk]; cbn [cell_size]; [|done|].
  - rewrite str_length_app. cbn. lia.
  - rewrite str_take_length; lia.
Qed.

(** A part of a record: its first brace, and what is missing. *)
Lemma frag_split d line k :
  marshal_line d = Some line → 0 < k < Z.of_nat (String.length line) →
  ∃ p q, str_take (Z.to_nat k) line = String "{" p ∧ line = String "{" (p +:+ q) ∧ q ≠ "".
Proof.
  intros HM Hk. destruct (line_jval _ _ HM) as (_ & m & Hline).
  pose proof (str_take_drop (Z.to_nat k) line) as Htd. pose proof (str_drop_nonempty (Z.to_nat k) line ltac:(lia)) as Hne.
  destruct (str_take (Z.to_nat k) line) as [|c p] eqn:E.
  - pose proof (str_take_length (Z.to_nat k) line ltac:(lia)) as Hl. rewrite E in Hl. cbn in Hl. lia.
  - rewrite Hline in Htd at 2. rewrite str_app_cons in Htd. injection Htd as -> Htd. exists p, (str_drop (Z.to_nat k) line).
    split_and!; [done| |done]. by rewrite Htd, Hline.
Qed.

Lemma newline_spaces : spaces newline.
Proof. done. Qed.

(** Whatever was cut off before it, a file's bytes do not complete it. *)
Lemma text_of_interrupts cs s : text_of cs s → interrupts s.
Proof.
  induction 1 as [|c t cs s Hc _ IH].
  { split; [by left|]. intros [|n] r; [done|]. done. }
  assert (Hrec : ∀ d line w, marshal_line d = Some line → spaces w → interrupts (line +:+ w +:+ s)).
  { intros d line w HM Hw. destruct (line_jval _ _ HM) as (Hv & m & ->). split.
    - right. eexists. split; [by rewrite !str_app_cons|]. by intros r [= <-].
    - intros n r H. apply scan_jval_any in H as ->; [by apply dead_spaces, IH|done|]. apply ends_spaces, opens_ends, IH. done. }
  destruct Hc as [d line HM _ _|d line HM _ _|d line k HM Hk].
  - rewrite str_app_assoc. by eapply Hrec, newline_spaces.
  - rewrite <-(str_app_nil_l s). by eapply Hrec, spaces_nil.
  - destruct (frag_split _ _ _ HM Hk) as (p & q & -> & Hline & Hq). destruct (line_jval _ _ HM) as (Hv & m & Hm).
    split; [|intros n r; rewrite Hline in Hv; by rewrite (scan_cut_object s IH _ p q n Hv)].
    right. eexists. split; [by rewrite str_app_cons|]. rewrite Hm in Hline. injection Hline as Hline. intros r.
    destruct p as [|c p]; [rewrite str_app_nil_l; apply scan_opens, IH|]. rewrite str_app_cons in Hline |- *. injection Hline as <- Hline.
    intros [= <-]. destruct p as [|c p]; [rewrite <-(str_app_nil_l s); by apply dead_spaces, IH|].
    rewrite str_app_cons in Hline |- *. by injection Hline as <- _.
Qed.

(** ** The decode loops *)

Lemma More_spaces w s : spaces w → More (w +:+ s) = More s.
Proof. intros Hw. unfold More. by rewrite skip_spaces. Qed.

Lemma Decode_spaces w s : spaces w → Decode (w +:+ s) = Decode s.
Proof. intros Hw. unfold Decode, next_value. by rewrite skip_spaces. Qed.

(** One step of either loop at the head of a file's bytes. *)
Lemma decode_cell c t cs s :
  cell_text c t → text_of cs s →
  More (t +:+ s) = true ∧ (1 ≤ String.length t)%nat ∧
  match c with
  | CRec d _ => ∃ w, spaces w ∧ Decode (t +:+ s) = Some (d, w +:+ s)
  | CFrag _ => Decode (t +:+ s) = None
  end.
Proof.
  intros Hc Hs. pose proof (text_of_interrupts _ _ Hs) as Hi.
  assert (Hrec : ∀ d line w, marshal_line d = Some line → is_u64 (d_seq d) → is_i64 (d_ts d) → spaces w →
    More (line +:+ w +:+ s) = true ∧ Decode (line +:+ w +:+ s) = Some (stored d, w +:+ s)).
  { intros d line w HM Hu Ht Hw. destruct (line_jval _ _ HM) as (Hv & m & Hline). split; [by rewrite Hline|].
    unfold Decode. rewrite next_value_app by (done || apply ends_spaces, opens_ends, Hi; done). cbn.
    by rewrite (decode_line _ _ HM). }
  destruct Hc as [d line HM Hu Ht|d line HM Hu Ht|d line k HM Hk].
  - rewrite str_app_assoc. destruct (Hrec d line newline HM Hu Ht newline_spaces) as [H1 H2]. split_and!; [done| |by exists newline].
    rewrite str_length_app. cbn. lia.
  - destruct (Hrec d line "" HM Hu Ht spaces_nil) as [H1 H2]. rewrite str_app_nil_l in H1, H2. split_and!; [done| |by exists ""].
    destruct (line_jval _ _ HM) as (_ & m & ->). cbn. lia.
  - destruct (frag_split _ _ _ HM Hk) as (p & q & -> & Hline & Hq). split_and!; [done|cbn; lia|].
    destruct (line_jval _ _ HM) as (Hv & _). rewrite Hline in Hv. unfold Decode, next_value.
    rewrite str_app_cons, skip_space_cons by done. change (String "{" (p +:+ s)) with (String "{" p +:+ s).
    by rewrite (scan_cut_object s Hi _ p q _ Hv).
Qed.

(** Every round of a loop makes its text shorter, whatever the bytes. *)
Lemma Decode_shorter s d r : Decode s = Some (d, r) → (String.length r < String.length s)%nat.
Proof.
  unfold Decode, next_value. intros H. apply bind_Some in H as ([v r'] & H & Hd). apply fmap_Some in H as (r0 & H & [= -> ->]).
  apply fmap_Some in Hd as (d' & _ & [= -> ->]). apply scan_shorter in H. pose proof (skip_space_length s). lia.
Qed.

Section loops.
Context {Env : Type} `{!ProtoJSON Env} {S : Type} (cb : S → Entry Env → S * bool) (fromSeq : Z).

(** So the fuel given is enough: more changes nothing. *)
Lemma read_text_fuel n m s st :
  (String.length s < n)%nat → (String.length s < m)%nat → read_text cb fromSeq n s st = read_text cb fromSeq m s st.
Proof.
  revert m s st. induction n as [|n IH]; intros [|m] s st Hn Hm; try lia. cbn [read_text].
  destruct (More s); [|done]. cbn [negb]. destruct (Decode s) as [[d r]|] eqn:E; [|done]. apply Decode_shorter in E.
  case_bool_decide; [apply IH; lia|]. destruct (Unmarshal _) as [env|]; [|done]. destruct (cb st _) as [st' [|]]; [apply IH; lia|done].
Qed.

Lemma read_text_spaces n w s st : spaces w → read_text cb fromSeq n (w +:+ s) st = read_text cb fromSeq n s st.
Proof. intros Hw. destruct n as [|n]; [done|]. cbn [read_text]. by rewrite More_spaces, Decode_spaces. Qed.

Lemma read_text_cells cs s : text_of cs s → ∀ n st, (String.length s < n)%nat →
  read_text cb fromSeq n s st = read_cells cb fromSeq cs st.
Proof.
  induction 1 as [|c t cs s Hc Hs IH]; intros [|n] st Hn; try lia; [done|]. cbn [read_text].
  destruct (decode_cell c t cs s Hc Hs) as (-> & Ht & Hd). cbn [negb]. rewrite str_length_app in Hn. destruct c as [d k|k]; [|by rewrite Hd].
  destruct Hd as (w & Hw & ->). cbn [read_cells]. assert (Hr : ∀ st, read_text cb fromSeq n (w +:+ s) st = read_cells cb fromSeq cs st).
  { intros st'. rewrite read_text_spaces by done. apply IH. lia. }
  rewrite Hr. case_bool_decide; [done|]. destruct (Unmarshal _) as [env|]; [|done]. destruct (cb st _) as [st' [|]]; [apply Hr|done].
Qed.
End loops.

Lemma scan_text_fuel n m s acc :
  (String.length s < n)%nat → (String.length s < m)%nat → scan_text n s acc = scan_text m s acc.
Proof.
  revert m s acc. induction n as [|n IH]; intros [|m] s acc Hn Hm; try lia. cbn [scan_text].
  destruct (More s); [|done]. cbn [negb]. destruct (Decode s) as [[d r]|] eqn:E; [|done]. apply Decode_shorter in E. apply IH; lia.
Qed.

Lemma scan_text_spaces n w s acc : spaces w → scan_text n (w +:+ s) acc = scan_text n s acc.
Proof. intros Hw. destruct n as [|n]; [done|]. cbn [scan_text]. by rewrite More_spaces, Decode_spaces. Qed.

Lemma scan_text_cells cs s : text_of cs s → ∀ n acc, (String.length s < n)%nat → scan_text n s acc = scan_range cs acc.
Proof.
  induction 1 as [|c t cs s Hc Hs IH]; intros [|n] acc Hn; try lia; [done|]. cbn [scan_text].
  destruct (decode_cell c t cs s Hc Hs) as (-> & Ht & Hd). cbn [negb]. rewrite str_length_app in Hn. destruct c as [d k|k]; [|by rewrite Hd].
  destruct Hd as (w & Hw & ->). cbn [scan_range]. rewrite scan_text_spaces by done. apply IH. lia.
Qed.

(** ** Directories *)

Inductive node_agrees : node → bnode → Prop :=
| na_dir : node_agrees NDir BDir
| na_file cs s mt : text_of cs s → node_agrees (NFile (mkFile cs mt)) (BFile s mt).

(** The bytes [bs] are those of the records [fs]. *)
Definition agree (fs : FS) (bs : BFS) : Prop := map_relation (λ _, node_agrees) (λ _ _, False) (λ _ _, False) fs bs.

Lemma agree_lookup fs bs p :
  agree fs bs →
  (fs !! p = None ∧ bs !! p = None) ∨ ∃ nd bn, fs !! p = Some nd ∧ bs !! p = Some bn ∧ node_agrees nd bn.
Proof.
  intros H. specialize (H p). destruct (fs !! p) as [nd|], (bs !! p) as [bn|]; try done; [right; eauto|by left].
Qed.

Lemma agree_empty : agree ∅ ∅.
Proof. intros p. by rewrite !lookup_empty. Qed.

Lemma agree_write fs bs p c t now :
  agree fs bs → cell_text c t → agree (append_cell p c now fs) (write_text p t now bs).
Proof.
  intros H Hc q. unfold append_cell, write_text. destruct (decide (p = q)) as [->|Hne]; [|rewrite !lookup_alter_ne by done; apply H].
  rewrite !lookup_alter_eq. destruct (agree_lookup _ _ q H) as [(-> & ->)|(nd & bn & -> & -> & Hn)]; [done|]. cbn.
  destruct Hn as [|cs s mt Hs]; constructor. by apply text_of_snoc.
Qed.

Lemma agree_create fs bs p now : agree fs bs → agree (create_file p now fs) (create_text p now bs).
Proof.
  intros H. unfold create_file, create_text. destruct (agree_lookup _ _ p H) as [(E1 & E2)|(nd & bn & E1 & E2 & Hn)]; rewrite E1, E2; [|done].
  intros q. destruct (decide (p = q)) as [->|Hne]; [rewrite !lookup_insert_eq|rewrite !lookup_insert_ne by done; apply H].
  do 2 constructor.
Qed.

Lemma agree_remove fs bs rm_ok p : agree fs bs → agree (remove_file rm_ok p fs) (remove_file rm_ok p bs).
Proof.
  intros H. unfold remove_file. destruct (rm_ok p); [|done]. intros q.
  destruct (decide (p = q)) as [->|Hne]; [by rewrite !lookup_delete_eq|rewrite !lookup_delete_ne by done; apply H].
Qed.

Lemma agree_domain fs bs : agree fs bs → dom fs = dom bs.
Proof.
  intros H. apply set_eq. intros p. rewrite !elem_of_dom. destruct (agree_lookup _ _ p H) as [(-> & ->)|(nd & bn & -> & -> & _)].
  - split; intros [? ?]; done.
  - split; eauto.
Qed.

Lemma agree_gc fs bs rm_ok now w :
  agree fs bs → (GC rm_ok now w fs).1 = (GC rm_ok now w bs).1 ∧ agree (GC rm_ok now w fs).2 (GC rm_ok now w bs).2.
Proof.
  intros H. unfold GC, gc_ttl. set (w1 := set_segments _ w).
  assert (H1 : agree (foldr (λ s fs', if gc_keep now w s then fs' else remove_file rm_ok (path s) fs') fs (reverse (segments w)))
    (foldr (λ s fs', if gc_keep now w s then fs' else remove_file rm_ok (path s) fs') bs (reverse (segments w)))).
  { induction (reverse (segments w)) as [|s l IH]; [done|]. cbn. destruct (gc_keep now w s); [done|by apply agree_remove]. }
  revert H1. set (fs1 := foldr _ fs _). set (bs1 := foldr _ bs _). clearbody fs1 bs1. clear H. intros H1.
  assert (Htrim : ∀ l fs bs total n, agree fs bs →
    (gc_trim rm_ok (MaxBytes (opts w1)) (cur w1) total l fs n).1.1 = (gc_trim rm_ok (MaxBytes (opts w1)) (cur w1) total l bs n).1.1 ∧
    (gc_trim rm_ok (MaxBytes (opts w1)) (cur w1) total l fs n).2 = (gc_trim rm_ok (MaxBytes (opts w1)) (cur w1) total l bs n).2 ∧
    agree (gc_trim rm_ok (MaxBytes (opts w1)) (cur w1) total l fs n).1.2 (gc_trim rm_ok (MaxBytes (opts w1)) (cur w1) total l bs n).1.2).
  { clear. induction l as [|v l IH]; intros fs bs total n H; [done|]. destruct l as [|x r]; [done|].
    change (gc_trim rm_ok (MaxBytes (opts w1)) (cur w1) total (v :: x :: r) fs n) with
      (if bool_decide (MaxBytes (opts w1) < total) then if bool_decide (cur w1 = Some (sid v)) then (v :: x :: r, fs, n)
       else gc_trim rm_ok (MaxBytes (opts w1)) (cur w1) (total - bytes v) (x :: r) (remove_file rm_ok (path v) fs) (u64 (n + 1))
       else (v :: x :: r, fs, n)).
    change (gc_trim rm_ok (MaxBytes (opts w1)) (cur w1) total (v :: x :: r) bs n) with
      (if bool_decide (MaxBytes (opts w1) < total) then if bool_decide (cur w1 = Some (sid v)) then (v :: x :: r, bs, n)
       else gc_trim rm_ok (MaxBytes (opts w1)) (cur w1) (total - bytes v) (x :: r) (remove_file rm_ok (path v) bs) (u64 (n + 1))
       else (v :: x :: r, bs, n)).
    case_bool_decide; [|done]. case_bool_decide; [done|]. apply IH. by apply agree_remove. }
  destruct (Htrim (segments w1) fs1 bs1 (total_bytes (segments w1)) (overflowTrims w1) H1) as (Hl & Hn & Ha).
  destruct (gc_trim _ _ _ _ _ fs1 _) as [[l1 f2] n1], (gc_trim _ _ _ _ _ bs1 _) as [[l2 b2] n2]. cbn in *. by subst.
Qed.

Lemma agree_openSegment fs bs ok now w :
  agree fs bs →
  (openSegment ok now w fs).1.1 = (openSegmentB ok now w bs).1.1 ∧ (openSegment ok now w fs).2 = (openSegmentB ok now w bs).2 ∧
  agree (openSegment ok now w fs).1.2 (openSegmentB ok now w bs).1.2.
Proof.
  intros H. unfold openSegment, openSegmentB. set (p := seg_name _).
  assert (bool_decide (fs !! p = Some NDir) = match bs !! p with Some BDir => true | _ => false end) as ->.
  { destruct (agree_lookup _ _ p H) as [(-> & ->)|(nd & bn & -> & -> & Hn)]; [done|]. by destruct Hn. }
  destruct (_ || _); [done|]. cbn. split_and!; [done..|]. by apply agree_create.
Qed.

(** ** Appending *)

(** What the system calls promise: the clock is a 64-bit integer, and a write that
    fails stops before the end of its bytes. *)
Definition sound_io {Env} `{!ProtoJSON Env} (io : append_io) (agent : string) (env : option Env) (w : WAL) : Prop :=
  is_i64 (io_now io) ∧
  ∀ e b line k, env = Some e → Marshal e = Some b → marshal_line (mkDiskEntry (u64 (seq w + 1)) agent b (io_now io)) = Some line →
    io_line io = WrErr k → k < Z.of_nat (String.length line).

Lemma write_text_twice p s t now bs : write_text p t now (write_text p s now bs) = write_text p (s +:+ t) now bs.
Proof.
  apply map_eq. intros q. unfold write_text. destruct (decide (p = q)) as [->|Hne]; [|by rewrite !lookup_alter_ne].
  rewrite !lookup_alter_eq. destruct (bs !! q) as [[|x mt]|]; [done| |done]. cbn. by rewrite str_app_assoc.
Qed.

Section simulation.
Context {Env : Type} `{!ProtoJSON Env}.

Lemma agree_append io agent (env : option Env) w fs bs :
  agree fs bs → sound_io io agent env w →
  (Append io agent env w fs).1.1 = (AppendB io agent env w bs).1.1 ∧ (Append io agent env w fs).2 = (AppendB io agent env w bs).2 ∧
  agree (Append io agent env w fs).1.2 (AppendB io agent env w bs).1.2.
Proof.
  intros H [Hts Hio]. unfold Append, AppendB. destruct env as [e|]; [|done]. destruct (Marshal e) as [b|] eqn:Hm; [|done].
  cbn [seq set_seq]. set (d := mkDiskEntry _ _ _ _). set (w1 := set_seq _ w).
  destruct (marshal_line d) as [line|] eqn:Hline; [|done]. destruct (cur_seg w1) as [c|]; [|done]. destruct (f c); [|done]. cbn [negb].
  pose proof (u64_range (seq w + 1)) as Hu. destruct (io_line io) as [|k] eqn:Hio'.
  - destruct (io_nl io); cbn [negb].
    + rewrite write_text_twice. set (fs1 := append_cell _ _ _ fs). set (bs1 := write_text _ _ _ bs).
      assert (Ha : agree fs1 bs1) by (apply agree_write; [done|by apply ct_record]). set (w2 := upd_cur _ w1).
      case_bool_decide; [|done]. unfold rotate, rotateB. set (w3 := match cur_seg w2 with Some s => _ | None => _ end).
      destruct (agree_openSegment fs1 bs1 (io_open io) (io_open_now io) w3 Ha) as (H1 & H2 & H3).
      destruct (openSegment _ _ w3 fs1) as [[x1 x2] x3], (openSegmentB _ _ w3 bs1) as [[y1 y2] y3]. cbn in *. subst. by destruct y3.
    + cbn. split_and!; [done..|]. apply agree_write; [done|by apply ct_bare].
  - cbn. split_and!; [done..|]. case_bool_decide as Hk; [|done]. apply agree_write; [done|]. eapply ct_frag; [exact Hline|].
    split; [done|]. by eapply Hio.
Qed.

(** ** Reading *)

Lemma agree_read {S} (cb : S → Entry Env → S * bool) fromSeq opens topens vs :
  (∀ v, v ∈ vs → match opens (v_path v), topens (v_path v) with
      | ONotExist, TNotExist | OErr, TErr => True
      | OCells cs, TText s => text_of cs s
      | _, _ => False
      end) →
  ∀ gap st, read_text_views cb fromSeq topens vs gap st = read_views cb fromSeq opens vs gap st.
Proof.
  induction vs as [|v vs IH]; intros Hv gap st; [done|]. cbn [read_text_views read_views].
  assert (IH' := IH (λ v' Hin, Hv v' (list_elem_of_further _ _ _ Hin))). case_bool_decide; [done|].
  specialize (Hv v (list_elem_of_here _ _)). destruct (opens (v_path v)) as [| |cs], (topens (v_path v)) as [| |s]; try done.
  rewrite (read_text_cells cb fromSeq cs s Hv) by lia. destruct (read_cells cb fromSeq cs st) as [st' [er|]]; [done|]. apply IH'.
Qed.

Lemma agree_ReadFrom {S} (cb : S → Entry Env → S * bool) fromSeq fs bs deny w st :
  agree fs bs → ReadFromB cb fromSeq w (open_text bs deny) st = ReadFrom cb fromSeq w (open_view fs deny) st.
Proof.
  intros H. unfold ReadFromB, ReadFrom. destruct (segments w) as [|s0 l]; [done|]. destruct (_ && _); [done|].
  apply agree_read. intros v _. unfold open_view, open_text.
  destruct (agree_lookup _ _ (v_path v) H) as [(-> & ->)|(nd & bn & -> & -> & Hn)]; [done|].
  destruct Hn; destruct (deny (v_path v)); [done|constructor|done|done].
Qed.
End simulation.

(** ** Opening *)

Lemma agree_reload fs bs acc_ok w : agree fs bs → reloadB acc_ok w bs = reload acc_ok w fs.
Proof.
  intros H. unfold reloadB, reload, read_dir.
  assert (Hone : ∀ id name, reload_oneB acc_ok bs id name = reload_one acc_ok fs id name).
  { intros id name. unfold reload_oneB, reload_one.
    destruct (agree_lookup _ _ name H) as [(-> & ->)|(nd & bn & -> & -> & Hn)]; [done|]. destruct Hn as [|cs s mt Hs]; [done|].
    destruct (_ && _); [|done]. cbn [cells]. rewrite (scan_text_cells cs s Hs) by lia. unfold file_size. cbn [cells mtime].
    by rewrite (text_of_size cs s Hs). }
  assert (Hall : ∀ names id, reload_allB acc_ok bs id names = reload_all acc_ok fs id names).
  { induction names as [|n ns IH]; intros id; [done|]. cbn. rewrite Hone. destruct (reload_one acc_ok fs id n); by rewrite IH. }
  assert ((map_to_list bs).*1 ≡ₚ (map_to_list fs).*1) as Hp.
  { apply NoDup_Permutation; [apply NoDup_fst_map_to_list..|]. intros p. rewrite !list_elem_of_fmap.
    assert (Hin : p ∈ dom bs ↔ p ∈ dom fs) by (by rewrite (agree_domain _ _ H)). rewrite !elem_of_dom in Hin. split.
    - intros ([q x] & -> & Hx%elem_of_map_to_list). destruct (proj1 Hin ltac:(eauto)) as [y Hy]. exists (q, y).
      split; [done|by apply elem_of_map_to_list].
    - intros ([q x] & -> & Hx%elem_of_map_to_list). destruct (proj2 Hin ltac:(eauto)) as [y Hy]. exists (q, y).
      split; [done|by apply elem_of_map_to_list]. }
  assert (merge_sort String.le (map_to_list bs).*1 = merge_sort String.le (map_to_list fs).*1) as ->.
  { apply (Sorted_unique String.le); [apply Sorted_merge_sort, _|apply Sorted_merge_sort, _|].
    by rewrite !merge_sort_Permutation. }
  by rewrite Hall.
Qed.

Lemma agree_open fs bs io o :
  agree fs bs → (OpenB io o bs).2 = (Open io o fs).2 ∧ agree (Open io o fs).1 (OpenB io o bs).1.
Proof.
  intros H. unfold OpenB, Open. case_bool_decide; [done|]. destruct (oi_mkdir io); [|done]. destruct (oi_readdir io); [|done]. cbn [negb].
  rewrite (agree_reload fs bs) by done. set (w2 := match list.last _ with Some s => _ | None => _ end).
  destruct (agree_openSegment fs bs (oi_open io) (oi_now io) w2 H) as (H1 & H2 & H3).
  destruct (openSegment _ _ w2 fs) as [[x1 x2] x3], (openSegmentB _ _ w2 bs) as [[y1 y2] y3]. cbn in *. subst. by destruct y3.
Qed.

(** ** Runs *)

Section runs.
Context {Env : Type} `{!ProtoJSON Env}.

(** The operations of the log on its bytes, each under [w.mu]. *)
Inductive disk_step : WAL * BFS → WAL * BFS → Prop :=
| ds_append io agent (env : option Env) w bs w' bs' r :
    seq w < u64_max - 1 → sound_io io agent env w → AppendB io agent env w bs = (w', bs', r) →
    disk_step (w, bs) (w', bs')
| ds_gc rm_ok now w bs w' bs' : GC rm_ok now w bs = (w', bs') → disk_step (w, bs) (w', bs')
| ds_close w bs : disk_step (w, bs) (Close w, bs).

Lemma disk_step_sim st st' fs :
  disk_step st st' → agree fs st.2 → ∃ fs', wal_step (Env := Env) (st.1, fs) (st'.1, fs') ∧ agree fs' st'.2.
Proof.
  intros Hst Ha. destruct Hst as [io agent env w bs w' bs' r Hlt Hio HA|rm_ok now w bs w' bs' HG|w bs]; cbn [fst snd] in *.
  - destruct (agree_append io agent env w fs bs Ha Hio) as (H1 & H2 & H3). rewrite HA in H1, H2, H3. cbn in H1, H2, H3.
    destruct (Append io agent env w fs) as [[w1 fs1] r1] eqn:E. cbn in *. subst. exists fs1. split; [|done].
    by eapply step_append.
  - destruct (agree_gc fs bs rm_ok now w Ha) as (H1 & H2). rewrite HG in H1, H2. destruct (GC rm_ok now w fs) as [w1 fs1] eqn:E.
    cbn in *. subst. exists fs1. split; [|done]. by apply (step_gc rm_ok now).
  - exists fs. split; [apply step_close|done].
Qed.

Lemma disk_steps_sim st st' fs :
  rtc disk_step st st' → agree fs st.2 → ∃ fs', rtc (wal_step (Env := Env)) (st.1, fs) (st'.1, fs') ∧ agree fs' st'.2.
Proof.
  intros Hr. revert fs. induction Hr as [st|st1 st2 st3 H12 _ IH]; intros fs Ha; [by exists fs|].
  destruct (disk_step_sim _ _ _ H12 Ha) as (fs2 & Hs & Ha2). destruct (IH fs2 Ha2) as (fs3 & Hs3 & Ha3).
  exists fs3. split; [|done]. by eapply rtc_l.
Qed.

(** C10: the bytes implement the records: from any directory whose bytes are
    those of some records, an empty one to start with, whatever the log does to
    its files, torn writes included, there is a run of the log of records that
    goes through the same states and leaves what the bytes stand for; every
    replay decodes the bytes to what that log delivers, with the same error, and
    opening the directory again finds the same segments. *)
Theorem bytes_implement_records fs bs (w w' : WAL) bs' :
  agree fs bs → rtc disk_step (w, bs) (w', bs') →
  ∃ fs', rtc (wal_step (Env := Env)) (w, fs) (w', fs') ∧ agree fs' bs' ∧
    (∀ S (cb : S → Entry Env → S * bool) from deny st,
       ReadFromB cb from w' (open_text bs' deny) st = ReadFrom cb from w' (open_view fs' deny) st) ∧
    ∀ io o, (OpenB io o bs').2 = (Open io o fs').2 ∧ agree (Open io o fs').1 (OpenB io o bs').1.
Proof.
  intros Ha Hr. destruct (disk_steps_sim _ _ fs Hr Ha) as (fs' & Hs & Ha'). exists fs'. split_and!; [done|done|..].
  - intros S cb from deny st. by apply agree_ReadFrom.
  - intros io o. by apply agree_open.
Qed.
End runs.

(** ** Witness *)

Module BytesDemo.
Import EnvWalSpec.Demo.
Definition putB (io : append_io) (agent : string) (e : bool) (st : WAL * BFS) : WAL * BFS := (AppendB io agent (Some e) st.1 st.2).1.
Definition b0 : BFS := (OpenB oio o ∅).1.
(** A record, a write that stops after nine bytes, another record. *)
Definition torn_io : append_io := mkAppendIO 115 (WrErr 9) true true 115.
Definition b1 : WAL * BFS := putB (aio 110) "n1" true (st0.1, b0).
Definition b2 : WAL * BFS := putB torn_io "n0" true b1.
Definition b3 : WAL * BFS := putB (aio 120) "n2" false b2.

Lemma putB_step io agent e st :
  seq st.1 < u64_max - 1 → sound_io io agent (Some e) st.1 → disk_step (Env := bool) st (putB io agent e st).
Proof.
  destruct st as [w bs]. intros Hq Hio. unfold putB. cbn [fst snd] in *.
  destruct (AppendB io agent (Some e) w bs) as [[w' bs'] r] eqn:E. cbn [fst]. by eapply (ds_append io agent (Some e)).
Qed.

Lemma aio_sound now agent e w : is_i64 now → sound_io (aio now) agent (Some (e : bool)) w.
Proof. intros Hn. by split. Qed.

Lemma torn_sound w : seq w = 1 → sound_io torn_io "n0" (Some true) w.
Proof.
  intros Hw. split; [by vm_compute|]. rewrite Hw. intros e b line k [= <-] [= <-] Hl [= <-].
  vm_compute in Hl. injection Hl as <-. vm_compute. reflexivity.
Qed.

Lemma b3_steps : rtc (disk_step (Env := bool)) (st0.1, b0) b3.
Proof.
  eapply rtc_l; [apply (putB_step (aio 110) "n1" true); [by vm_compute|apply aio_sound; by vm_compute]|].
  eapply rtc_l; [apply (putB_step torn_io "n0" true); [by vm_compute|apply torn_sound; by vm_compute]|].
  apply rtc_once, (putB_step (aio 120) "n2" false); [by vm_compute|apply aio_sound; by vm_compute].
Qed.
End BytesDemo.

Lemma bytes_implement_records_witness :
  ReadFromB (collect (Env := bool) Demo.keep_all) 0 BytesDemo.b3.1 (open_text BytesDemo.b3.2 (λ _, false)) [] =
    ([mkEntry 1 "n1" true 110], Some ErrDecode) ∧
  ∃ fs', ReadFrom (collect (Env := bool) Demo.keep_all) 0 BytesDemo.b3.1 (open_view fs' (λ _, false)) [] =
    ([mkEntry 1 "n1" true 110], Some ErrDecode).
Proof.
  assert (Hr : ReadFromB (collect (Env := bool) Demo.keep_all) 0 BytesDemo.b3.1 (open_text BytesDemo.b3.2 (λ _, false)) [] =
    ([mkEntry 1 "n1" true 110], Some ErrDecode)) by (vm_compute; reflexivity).
  split; [exact Hr|].
  destruct (bytes_implement_records (Env := bool) Demo.st0.2 BytesDemo.b0 Demo.st0.1 BytesDemo.b3.1 BytesDemo.b3.2)
    as (fs' & _ & _ & Hread & _).
  - exact (proj2 (agree_open ∅ ∅ Demo.oio Demo.o agree_empty)).
  - exact BytesDemo.b3_steps.
  - exists fs'. rewrite <-Hread. exact Hr.
Defined.
