(* ===== verification/WalCrash.v ===== *)
(** * The write-ahead log after a crash

    A process that dies in the middle of a write leaves a part of a record at the
    end of the current segment of src/internal/aggregator/envwal/envwal.go.  What
    the next process finds when it opens the directory: which numbers it goes on
    with, what a replay delivers, and what becomes of the records it appends. *)
From Stdlib Require Import Ascii.
From stdpp Require Import base numbers gmap strings sorting relations list.
From S2P Require Import Prelude GoStr Json EnvWal EnvWalInv EnvWalLog EnvWalSpec.
Local Open Scope Z_scope.

Section crash.
Context {Env : Type} `{!ProtoJSON Env}.
Implicit Types (w : WAL) (fs : FS) (c s : segment).

(** The directory when the process dies after [k] bytes of a record. *)
Definition crashed (c : segment) (k now : Z) (fs : FS) : FS := append_cell (path c) (CFrag k) now fs.

(** ** What reload makes of it *)

Lemma scan_range_behind cs1 k cs2 acc : scan_range (cs1 ++ CFrag k :: cs2) acc = scan_range cs1 acc.
Proof. revert acc. induction cs1 as [|[d n|n] cs IH]; intros acc; [done|apply IH|done]. Qed.

(** Chunks behind a fragment are not seen. *)
Lemma reload_one_behind acc fs fs' n cs1 cs2 k mt mt' :
  fs !! n = Some (NFile (mkFile cs1 mt)) → fs' !! n = Some (NFile (mkFile (cs1 ++ CFrag k :: cs2) mt')) →
  strip <$> reload_one acc fs' 0 n = strip <$> reload_one acc fs 0 n.
Proof.
  intros H H'. unfold reload_one. rewrite H, H'. destruct (_ && _); [|done]. cbn [cells]. rewrite scan_range_behind.
  by destruct (scan_range cs1 None) as [[lo hi]|].
Qed.

Lemma clean_cells w fs old c : Clean (Env := Env) w fs old c →
  ∃ cs mt, fs !! path c = Some (NFile (mkFile cs mt)) ∧ Forall (λ cl, is_rec cl = true) cs ∧ Forall (decodable (Env := Env)) (recs cs) ∧
    d_seq <$> recs cs = seqZ (startSeq c) (endSeq c - startSeq c + 1).
Proof.
  intros HC. pose proof (cl_segs _ _ _ _ HC) as Hsg. rewrite Forall_app, Forall_singleton in Hsg.
  destruct Hsg as [_ ([cs mt] & Hfl & Hr & Hq & Hd & _)]. by exists cs, mt.
Qed.

Lemma crashed_lookup w fs old c k now cs mt :
  Clean (Env := Env) w fs old c → fs !! path c = Some (NFile (mkFile cs mt)) →
  crashed c k now fs !! path c = Some (NFile (mkFile (cs ++ [CFrag k]) now)) ∧
  ∀ p, p ≠ path c → crashed c k now fs !! p = fs !! p.
Proof.
  intros HC Hfl. unfold crashed, append_cell. split; [by rewrite lookup_alter_eq, Hfl|]. intros p Hp. by rewrite lookup_alter_ne.
Qed.

Lemma reload_crashed acc w fs old c k now w0 :
  (∀ n, acc n = true) → Clean (Env := Env) w fs old c →
  strip <$> segments (reload acc w0 (crashed c k now fs)) = strip <$> filter full_seg (old ++ [c]).
Proof.
  intros Hacc HC. destruct (clean_cells _ _ _ _ HC) as (cs & mt & Hfl & _).
  destruct (crashed_lookup _ _ _ _ k now cs mt HC Hfl) as [Hc Hne].
  apply sorted_strip; [|by eapply full_starts, HC]. rewrite <-(reload_perm acc w fs old c 0 Hacc HC). apply reload_same.
  intros n. destruct (decide (n = path c)) as [->|Hn]; [by eapply reload_one_behind|]. unfold reload_one. by rewrite Hne.
Qed.

(** ** What a replay finds *)

Definition view_of (x : string * Z * Z) : segView := mkSegView x.1.1 x.2.

Lemma views_strip w l : strip <$> segments w = l → views_of w = view_of <$> l.
Proof. intros <-. unfold views_of. by rewrite <-list_fmap_compose. Qed.

Lemma read_cells_frag {S} (cb : S → Entry Env → S * bool) from cs k cs2 st :
  read_cells cb from (cs ++ CFrag k :: cs2) st =
    match read_cells cb from cs st with (st', None) => (st', Some ErrDecode) | r => r end.
Proof.
  revert st. induction cs as [|[d n|n] cs IH]; intros st; cbn; [done| |done].
  case_bool_decide; [apply IH|]. destruct (Unmarshal _); [|done]. destruct (cb st _) as [st' []]; [apply IH|done].
Qed.

(** The segments with records before the last view, and a last view whose file
    starts with what [cs] holds and goes on with a fragment. *)
Lemma replay_torn {S} (cb : S → Entry Env → S * bool) from w fs old c w' fs' cs k cs2 mt mt' e rest st :
  Clean (Env := Env) w fs old c → fs !! path c = Some (NFile (mkFile cs mt)) →
  (∀ s, s ∈ old → fs' !! path s = fs !! path s) →
  fs' !! path c = Some (NFile (mkFile (cs ++ CFrag k :: cs2) mt')) →
  views_of w' = ((λ s, mkSegView (path s) (endSeq s)) <$> old) ++ mkSegView (path c) e :: rest →
  (startSeq <$> head (segments w') = startSeq <$> head (old ++ [c])) → LastSeq w ≤ e → Forall (λ v, v_endSeq v = e) rest →
  0 ≤ from < u64_max →
  ReadFrom cb from w' (open_view fs' (λ _, false)) st =
    match ReadFrom cb from w (open_view fs (λ _, false)) st with
    | (st', None) => (st', if bool_decide (from < e) then Some ErrDecode else None)
    | r => r
    end.
Proof.
  intros HC Hfl Hold Hc Hv Hhd Hle Hrest [H0 Hlt]. rewrite (ReadFrom_clean cb from w fs old c) by done.
  destruct (clean_cells _ _ _ _ HC) as (cs' & mt0 & Hfl' & Hrec & Hdec & Hseqs). rewrite Hfl in Hfl'. injection Hfl' as <- <-.
  destruct (clean_cur_path _ _ _ _ HC) as (_ & Hend & _). unfold LastSeq in *.
  assert (Hlog : log fs (segments w) = log fs old ++ recs cs).
  { rewrite (inv_segs _ _ _ _ (cl_inv _ _ _ _ HC)), log_app. cbn. rewrite app_nil_r. unfold seg_log, content. by rewrite Hfl. }
  assert (Hlog' : log fs' old = log fs old) by (apply log_ext; intros s Hs; unfold content; by rewrite Hold).
  assert (Hold' : Forall (seg_clean (Env := Env) fs') old).
  { pose proof (cl_segs _ _ _ _ HC) as Hsg. apply Forall_app in Hsg as [Hsg _]. rewrite Forall_forall in *. intros s Hs.
    eapply seg_clean_ext; [by apply Hold|auto]. }
  assert (Hskip : ∀ st, e ≤ from → read_views cb from (open_view fs' (λ _, false)) rest false st = (st, None)).
  { intros st' He. clear -Hrest He. induction Hrest as [|v l Hv _ IH]; [done|]. cbn. by rewrite bool_decide_eq_true_2 by lia. }
  unfold ReadFrom, oldest. rewrite Hv. rewrite (inv_segs _ _ _ _ (cl_inv _ _ _ _ HC)).
  destruct (segments w') as [|s1 l1] eqn:Es; [by unfold views_of in Hv; rewrite Es in Hv; destruct old|].
  destruct (old ++ [c]) as [|s0 l0] eqn:Eo; [by destruct old|]. cbn in Hhd. injection Hhd as ->. rewrite u64_succ by (unfold_u64; lia).
  destruct (decide (0 < from ∧ from + 1 < startSeq s0)) as [Hd|Hd].
  { by rewrite !bool_decide_eq_true_2 by lia. }
  assert (bool_decide (0 < from) && bool_decide (from + 1 < startSeq s0) = false) as ->.
  { apply andb_false_iff. rewrite !bool_decide_eq_false. lia. }
  rewrite read_views_clean_app, Hlog' by done. rewrite <-Eo, <-(inv_segs _ _ _ _ (cl_inv _ _ _ _ HC)), Hlog, above_app, feed_app.
  destruct (feed cb (above from (log fs old)) st) as [st1 [er|]]; [done|]. cbn [read_views v_endSeq v_path].
  assert (Ho : open_view fs' (λ _, false) (path c) = OCells (cs ++ CFrag k :: cs2)).
  { unfold open_view. by rewrite Hc. }
  rewrite Ho, read_cells_frag, read_cells_clean by done.
  destruct (decide (from < e)) as [He|He].
  - rewrite bool_decide_eq_false_2, bool_decide_eq_true_2 by lia. by destruct (feed cb (above from (recs cs)) st1) as [st2 [er|]].
  - rewrite bool_decide_eq_true_2, bool_decide_eq_false_2 by lia. rewrite above_nil; [by rewrite Hskip by lia|].
    assert (Forall (λ q, q ≤ from) (d_seq <$> recs cs)) as Hall.
    { rewrite Hseqs, Forall_forall. intros q Hin%elem_of_seqZ. lia. }
    by rewrite Forall_fmap in Hall.
Qed.

Lemma create_keeps p now fs q : is_Some (fs !! q) → create_file p now fs !! q = fs !! q.
Proof.
  intros [nd Hq]. unfold create_file. destruct (fs !! p) eqn:E; [done|]. rewrite lookup_insert_ne; [done|]. by intros ->; rewrite Hq in E.
Qed.

Lemma head_starts (l : list segment) : startSeq <$> head l = head (startSeq <$> l).
Proof. by destruct l. Qed.

(** The states [Open] can come to, with their views. *)
Lemma reopen_crashed io o w fs old c k now :
  Clean (Env := Env) w fs old c → log fs (segments w) ≠ [] → open_ok io → Dir o ≠ "" →
  ∃ fs2 w2 old' cn, Open io o (crashed c k now fs) = (fs2, Ok w2) ∧ segments w2 = old' ++ [cn] ∧ cur w2 = Some (sid cn) ∧
    Forall (λ s, (sid s < sid cn)%nat) old' ∧ seq w2 = seq w ∧ f cn = true ∧
    strip cn = (seg_name (seq w + 1), seq w + 1, seq w) ∧ startSeq <$> head (segments w2) = startSeq <$> head (old ++ [c]) ∧
    (∀ p, is_Some (fs !! p) → fs2 !! p = crashed c k now fs !! p) ∧
    (full_seg c ∧ strip <$> old' = strip <$> (old ++ [c]) ∨
     startSeq c = seq w + 1 ∧ strip <$> old' = strip <$> old ∧ path cn = path c ∧ fs2 = crashed c k now fs ∧
       strip <$> filter full_seg (old ++ [c]) = strip <$> old ∧ old ≠ []).
Proof.
  intros HC Hne Hio Hdir. pose proof (inv_seq _ _ _ _ (cl_inv _ _ _ _ HC)) as Hq.
  destruct (clean_filter_full _ _ _ _ HC Hne) as (l & s & Hfil & Hend & Hcase).
  destruct (clean_cells _ _ _ _ HC) as (cs & mt & Hfl & _). destruct (crashed_lookup _ _ _ _ k now cs mt HC Hfl) as [Hc Hne'].
  destruct (clean_cur_path _ _ _ _ HC) as (Hpc & Hec & _).
  destruct (Open_reloaded io o (crashed c k now fs) l s) as (w' & old' & cn & HO & Hw' & Hold & Hcn & Hf & Hcur & Hsq & _ & Hsid & _);
    [done|done|rewrite <-Hfil; apply (reload_crashed _ w); [apply Hio|done]|lia|..].
  { rewrite Hend. destruct (decide (seg_name (seq w + 1) = path c)) as [->|Hn]; [by rewrite Hc|]. rewrite Hne' by done. by eapply clean_not_dir. }
  rewrite Hend in *. eexists _, w', old', cn. split; [exact HO|]. split_and!; try done.
  - apply strip_start in Hold. rewrite Hw', !head_starts, fmap_app, Hold, <-fmap_app.
    destruct Hcase as [(_ & -> & ->)|[_ <-]]; [by destruct old|by destruct l].
  - intros p [nd Hp]. apply create_keeps. destruct (decide (p = path c)) as [->|Hn]; [rewrite Hc|rewrite Hne' by done]; eauto.
  - destruct Hcase as [(Hf' & -> & ->)|[Hs Hl]]; [by left|right]. rewrite Hl in *. injection Hcn as Hp _ _.
    split_and!; try done; [by rewrite Hp, Hpc, Hs| |by rewrite Hfil|by rewrite <-Hl; destruct l].
    unfold create_file. by rewrite <-Hs, <-Hpc, Hc.
Qed.

(** C11: a crash in the middle of a write costs no complete record.  Take a log
    none of whose earlier writes failed and that holds at least one record in its
    files: opening the directory again with system calls that succeed gives a log
    whose numbering goes on where the last complete record left it, and a replay
    delivers from every cursor below 2^64 - 1 exactly what it delivered before the
    crash; it then reports the broken record as a
    decode error, unless the cursor is already at the end. *)
Theorem crash_keeps_records io o w fs old c k now :
  Clean (Env := Env) w fs old c → log fs (segments w) ≠ [] → open_ok io → Dir o ≠ "" →
  ∃ fs2 w2, Open io o (crashed c k now fs) = (fs2, Ok w2) ∧ LastSeq w2 = LastSeq w ∧ f <$> cur_seg w2 = Some true ∧
    ∀ S (cb : S → Entry Env → S * bool) from st, 0 ≤ from < u64_max →
      ReadFrom cb from w2 (open_view fs2 (λ _, false)) st =
        match ReadFrom cb from w (open_view fs (λ _, false)) st with
        | (st', None) => (st', if bool_decide (from < LastSeq w) then Some ErrDecode else None)
        | r => r
        end.
Proof.
  intros HC Hne Hio Hdir. destruct (clean_cells _ _ _ _ HC) as (cs & mt & Hfl & _).
  destruct (crashed_lookup _ _ _ _ k now cs mt HC Hfl) as [Hc Hne']. destruct (clean_cur_path _ _ _ _ HC) as (Hpc & Hec & _).
  destruct (reopen_crashed io o w fs old c k now HC Hne Hio Hdir)
    as (fs2 & w2 & old' & cn & HO & Hw2 & Hcur & Hsid & Hsq & Hf & Hcn & Hhd & Hfs2 & Hcase).
  exists fs2, w2. split_and!; [done|done| |].
  { rewrite (cur_seg_last w2 old' cn); [by rewrite <-Hf|done|done|]. eapply Forall_impl; [exact Hsid|]. cbn. lia. }
  intros S cb from st Hfrom. pose proof (cl_segs _ _ _ _ HC) as Hsg. apply Forall_app in Hsg as [Hsg _]. rewrite Forall_forall in Hsg.
  assert (Hkeep : ∀ s, s ∈ old → fs2 !! path s = fs !! path s).
  { intros s Hs. destruct (Hsg s Hs) as (fl & Hs' & _). rewrite Hfs2, Hne'; [done| |eauto].
    apply not_eq_sym, (Inv_path_ne w fs old c s); [apply HC|done]. }
  assert (Hc2 : fs2 !! path c = Some (NFile (mkFile (cs ++ [CFrag k]) now))) by (rewrite Hfs2, Hc; [done|eauto]).
  injection Hcn as Hcp Hcs Hce. unfold LastSeq. destruct Hcase as [[_ Hold]|(_ & Hold & Hcp' & _)].
  - eapply (replay_torn cb from w fs old c w2 fs2 cs k [] mt now (seq w) [mkSegView (path cn) (seq w)]); try done; try (unfold LastSeq; lia); try (by repeat constructor).
    rewrite (views_strip w2 _ eq_refl), Hw2, fmap_app, Hold, !fmap_app, <-list_fmap_compose, <-(assoc_L (++)). cbn.
    unfold view_of, strip. cbn. by rewrite Hec, Hce.
  - eapply (replay_torn cb from w fs old c w2 fs2 cs k [] mt now (seq w) []); try done; try (unfold LastSeq; lia).
    rewrite (views_strip w2 _ eq_refl), Hw2, !fmap_app, Hold, <-list_fmap_compose. cbn.
    unfold view_of, strip. cbn. by rewrite Hcp', Hce.
Qed.

(** An append of the next process, when the broken record is the first of its
    segment: it goes behind it. *)
Lemma append_crashed w fs old c k now cs mt w2 old' cn aio agent (e : Env) w3 fs3 q :
  Clean (Env := Env) w fs old c → fs !! path c = Some (NFile (mkFile cs mt)) → startSeq c = seq w + 1 → seq w < u64_max - 1 →
  segments w2 = old' ++ [cn] → cur w2 = Some (sid cn) → Forall (λ s, (sid s < sid cn)%nat) old' → seq w2 = seq w →
  path cn = path c → Append aio agent (Some e) w2 (crashed c k now fs) = (w3, fs3, Ok q) →
  q = seq w + 1 ∧ ∃ c' news cl mt', segments w3 = old' ++ c' :: news ∧ path c' = path c ∧ startSeq c' = startSeq cn ∧ endSeq c' = q ∧
    fs3 !! path c = Some (NFile (mkFile (cs ++ CFrag k :: [cl]) mt')) ∧
    Forall (λ s, endSeq s = q ∧ fs !! path s = None ∧ ∃ mt, fs3 !! path s = Some (NFile (mkFile [] mt))) news ∧
    ∀ p, p ≠ path c → Forall (λ s, p ≠ path s) news → fs3 !! p = fs !! p.
Proof.
  intros HC Hfl Hemp Hlt Hw2 Hcur Hsid Hsq Hcp HA. pose proof (inv_seq _ _ _ _ (cl_inv _ _ _ _ HC)) as Hq0.
  destruct (crashed_lookup _ _ _ _ k now cs mt HC Hfl) as [Hc Hne'].
  destruct (Append_effect aio agent (Some e) w2 (crashed c k now fs) old' cn w3 fs3 (Ok q)) as (c' & oc & on & HE & Happ);
    [done|done|eapply Forall_impl; [exact Hsid|cbn; lia]|lia|done|].
  destruct (Happ q eq_refl) as (Hqq & Hsq3 & Hend' & _ & (e' & b & n & _ & _ & ->) & Hnew).
  destruct HE as [_ _ (_ & Hp' & Hs') Hsegs _ _ _ Hen _ Hfs]. rewrite Hcp in Hfs, Hp'. cbn [put_cell] in Hfs.
  set (cl := CRec _ n) in Hfs. set (fs' := append_cell _ _ _ _) in Hfs.
  assert (Hc' : fs' !! path c = Some (NFile (mkFile (cs ++ CFrag k :: [cl]) (io_now aio)))).
  { unfold fs', append_cell. rewrite lookup_alter_eq, Hc. cbn. by rewrite <-(assoc_L (++)). }
  assert (Hother : ∀ p, p ≠ path c → fs' !! p = fs !! p).
  { intros p Hp. unfold fs', append_cell. rewrite lookup_alter_ne by done. by apply Hne'. }
  split; [lia|]. exists c', (option_list (fst <$> on)), cl, (io_now aio). rewrite Hend', Hqq. split_and!; try done; rewrite Hfs.
  - destruct on as [[s nw]|]; cbn [put_file]; [rewrite create_keeps by eauto|]; done.
  - destruct on as [[s nw]|]; [|constructor]. apply Forall_singleton. cbn [put_file fst].
    destruct (Hen s nw eq_refl) as (_ & _ & Hps & _). destruct Hnew as [Hes _]. split; [exact Hes|].
    assert (fs !! path s = None) as Hno.
    { destruct (fs !! path s) eqn:E; [|done]. exfalso. assert (seq w + 2 ≤ startSeq c); [|lia].
      apply (inv_dom _ _ _ _ (cl_inv _ _ _ _ HC)); [unfold_u64; lia|]. rewrite <-Hsq, <-Hps. eauto. }
    split; [done|]. exists nw. unfold create_file. rewrite Hother, Hno; [by rewrite lookup_insert_eq|]. intros Heq. by rewrite Heq, Hfl in Hno.
  - intros p Hp Hn. destruct on as [[s nw]|]; cbn [put_file]; [|by apply Hother]. apply Forall_cons in Hn as [Hn _].
    rewrite lookup_create_ne; [by apply Hother|]. exact (not_eq_sym Hn).
Qed.

(** C24: when the record the crash broke was the first of its segment, the next
    process appends behind it to the same file: a record it acknowledges is not
    delivered by any replay, each of which ends in a decode error before it, and
    the process after that forgets it was written and gives its number away
    again. *)
Theorem crash_swallows_successors io o w fs old c k now aio agent e w3 fs3 q :
  Clean (Env := Env) w fs old c → log fs (segments w) ≠ [] → open_ok io → Dir o ≠ "" →
  startSeq c = LastSeq w + 1 → LastSeq w < u64_max - 1 →
  (∃ fs2 w2, Open io o (crashed c k now fs) = (fs2, Ok w2) ∧ Append aio agent (Some e) w2 fs2 = (w3, fs3, Ok q)) →
  q = LastSeq w + 1 ∧
  (∀ S (cb : S → Entry Env → S * bool) from st, 0 ≤ from < u64_max →
     ReadFrom cb from w3 (open_view fs3 (λ _, false)) st =
       match ReadFrom cb from w (open_view fs (λ _, false)) st with
       | (st', None) => (st', if bool_decide (from < q) then Some ErrDecode else None)
       | r => r
       end) ∧
  ∃ fs4 w4, Open io o fs3 = (fs4, Ok w4) ∧ LastSeq w4 = LastSeq w.
Proof.
  intros HC Hne Hio Hdir Hemp Hlt (fs2 & w2 & HO & HA). unfold LastSeq in *.
  destruct (clean_cells _ _ _ _ HC) as (cs & mt & Hfl & _). destruct (clean_cur_path _ _ _ _ HC) as (Hpc & Hec & _).
  destruct (reopen_crashed io o w fs old c k now HC Hne Hio Hdir)
    as (fs2' & w2' & old' & cn & HO' & Hw2 & Hcur & Hsid & Hsq & Hf & Hcn & Hhd & _ & Hcase).
  rewrite HO' in HO. injection HO as -> ->. pose proof (inv_seq _ _ _ _ (cl_inv _ _ _ _ HC)) as Hq0.
  destruct Hcase as [[Hfull _]|(_ & Hold & Hcp' & -> & Hfil & Hon)]; [unfold full_seg in Hfull; lia|].
  destruct (append_crashed w fs old c k now cs mt w2 old' cn aio agent e w3 fs3 q)
    as (Hq & c' & news & cl & mt' & Hsegs & Hp' & Hs' & He' & Hc3 & Hnews & Hfs3); [done..|].
  split_and!; [done|..].
  - intros S cb from st Hfrom.
    eapply (replay_torn cb from w fs old c w3 fs3 cs k [cl] mt mt' q ((λ s, mkSegView (path s) (endSeq s)) <$> news));
      try done; try (unfold LastSeq; lia).
    + intros s Hs. pose proof (cl_segs _ _ _ _ HC) as Hsg. apply Forall_app in Hsg as [Hsg _]. rewrite Forall_forall in Hsg.
      destruct (Hsg s Hs) as (fl & Hs2 & _).
      apply Hfs3; [by apply not_eq_sym, (Inv_path_ne w fs old c s); [apply HC|done]|].
      eapply Forall_impl; [exact Hnews|]. intros x (_ & Hx & _) Heq. rewrite <-Heq in Hx. congruence.
    + unfold views_of. rewrite Hsegs, fmap_app, fmap_cons, Hp', He'. f_equal.
      change ((λ s, mkSegView (path s) (endSeq s)) <$> old') with ((view_of ∘ strip) <$> old').
      change ((λ s, mkSegView (path s) (endSeq s)) <$> old) with ((view_of ∘ strip) <$> old).
      by rewrite !list_fmap_compose, Hold.
    + rewrite Hw2 in Hhd. rewrite Hsegs. by destruct old'; [destruct old|].
    + rewrite Forall_fmap. eapply Forall_impl; [exact Hnews|]. by intros x [? _].
  - destruct old as [|s l _] using rev_ind; [done|]. assert (Hes : endSeq s = seq w).
    { pose proof (cl_contig _ _ _ _ HC) as Hct. rewrite <-(assoc_L (++)) in Hct. apply contig_drop in Hct as [H1 _]. cbn in H1. lia. }
    destruct (Open_reloaded io o fs3 l s) as (w4 & ? & ? & HO4 & _ & _ & _ & _ & _ & Hq4 & _); [done|done| |lia| |].
    + rewrite <-Hfil. apply sorted_strip; [|by eapply full_starts, HC].
      rewrite <-(reload_perm (oi_access io) w fs _ c 0 (proj1 (proj2 (proj2 Hio))) HC). apply reload_same. intros nm.
      destruct (decide (nm = path c)) as [->|Hn]; [by eapply reload_one_behind|]. unfold reload_one.
      destruct (decide (Forall (λ s, nm ≠ path s) news)) as [Hall|Hex]; [by rewrite Hfs3|].
      apply not_Forall_Exists, Exists_exists in Hex as (x & Hx & ->%dec_stable); [|apply _]. rewrite Forall_forall in Hnews.
      destruct (Hnews x Hx) as (_ & -> & mt0 & ->). by destruct (_ && _).
    + rewrite Hes, <-Hemp, <-Hpc. by rewrite Hc3.
    + eexists _, w4. split; [exact HO4|lia].
Qed.
End crash.

(** ** Witnesses

    Two records that fill a segment; the crash breaks the first of the next. *)
Module CrashDemo.
Import EnvWalSpec.Demo.
Definition cur2 : segment := default (seg0 st2.1) (cur_seg st2.1).
Definition dir1 : FS := crashed cur2 9 130 st2.2.
Definition st3 : WAL * FS := match Open oio o dir1 with (fs, Ok w) => (w, fs) | (fs, _) => (st2.1, fs) end.
Definition st4 : WAL * FS := put (aio 140) "n3" true st3.

Lemma clean2 : ∃ old, Clean (Env := bool) st2.1 st2.2 old cur2.
Proof.
  destruct st2_clean as (old & c & HC). exists old. assert (c = cur2) as <-; [|done].
  unfold cur2. by rewrite (cur_seg_clean _ _ _ _ HC).
Qed.
End CrashDemo.

Lemma crash_keeps_records_witness :
  ∃ fs2 w2, Open Demo.oio Demo.o CrashDemo.dir1 = (fs2, Ok w2) ∧ LastSeq w2 = 2 ∧
    ReadFrom (collect (Env := bool) Demo.keep_all) 0 w2 (open_view fs2 (λ _, false)) [] =
      ([mkEntry 1 "n1" true 110; mkEntry 2 "n2" false 120], Some ErrDecode) ∧
    ReadFrom (collect (Env := bool) Demo.keep_all) 2 w2 (open_view fs2 (λ _, false)) [] = ([], None).
Proof.
  destruct CrashDemo.clean2 as (old & HC).
  destruct (crash_keeps_records Demo.oio Demo.o Demo.st2.1 Demo.st2.2 old CrashDemo.cur2 9 130 HC) as (fs2 & w2 & HO & Hq & _ & Hr).
  - vm_compute. discriminate.
  - exact Demo.oio_ok.
  - exact Demo.o_dir.
  - exists fs2, w2. split_and!; [exact HO|rewrite Hq; vm_compute; reflexivity|..];
      (rewrite Hr; [vm_compute; reflexivity|vm_compute; by split]).
Defined.

Lemma crash_swallows_successors_witness :
  (Append (Demo.aio 140) "n3" (Some true) CrashDemo.st3.1 CrashDemo.st3.2).2 = Ok 3 ∧
  ReadFrom (collect (Env := bool) Demo.keep_all) 2 CrashDemo.st4.1 (open_view CrashDemo.st4.2 (λ _, false)) [] = ([], Some ErrDecode) ∧
  ∃ fs4 w4, Open Demo.oio Demo.o CrashDemo.st4.2 = (fs4, Ok w4) ∧ LastSeq w4 = 2.
Proof.
  destruct CrashDemo.clean2 as (old & HC). split; [vm_compute; reflexivity|].
  destruct (crash_swallows_successors Demo.oio Demo.o Demo.st2.1 Demo.st2.2 old CrashDemo.cur2 9 130 (Demo.aio 140) "n3" true
    CrashDemo.st4.1 CrashDemo.st4.2 3 HC) as (_ & Hr & Hopen).
  - vm_compute. discriminate.
  - exact Demo.oio_ok.
  - exact Demo.o_dir.
  - vm_compute. reflexivity.
  - vm_compute. reflexivity.
  - exists CrashDemo.st3.2, CrashDemo.st3.1. split; vm_compute; reflexivity.
  - split; [rewrite Hr; [vm_compute; reflexivity|vm_compute; by split]|exact Hopen].
Defined.
