(* ===== verification/Pb.v ===== *)
(** * The wire messages

    The messages of github.com/boanlab/kloudlens/protobuf, as far as the sources
    read or write them.  The Go types are generated code outside the repository;
    a field of type [string] named [.._other] stands for all fields a message
    carries that no source line touches.  Getters on a nil message return the
    zero value, as the generated getters do. *)
From Stdlib Require Import QArith.
From stdpp Require Import base numbers gmap strings list.
From S2P Require Import Prelude.
Local Open Scope Z_scope.

Record Cursor := mkCursor {
  NodeId : string;
  Stream : string;
  CurSeq : Z;
}.

Record ContainerMeta := mkMeta {
  NodeName : string;
  Namespace : string;
  Pod : string;
  Container : string;
  ContainerId : string;
  Image : string;
  m_other : string;
}.

Record IntentEvent := mkIntent {
  Kind : string;
  Attributes : gmap string string;
  Meta : option ContainerMeta;
  ContributingEventIds : list string;
  Severity : Z;
  Confidence : Q;
  i_other : string;
}.

Record DeviationEvent := mkDeviation {
  d_Kind : string;
  d_Meta : option ContainerMeta;
  d_other : string;
}.

Record RawSyscall := mkRawSyscall {
  SyscallName : string;
  Category : string;
  r_Meta : option ContainerMeta;
  r_Severity : Z;
  r_other : string;
}.

(** The payload oneof; the last constructor stands for the alternatives the
    sources do not distinguish. *)
Inductive Payload :=
| EventEnvelope_Intent (i : IntentEvent)
| EventEnvelope_Deviation (d : DeviationEvent)
| EventEnvelope_GraphEdge (other : string)
| EventEnvelope_Lifecycle (other : string)
| EventEnvelope_Audit (other : string)
| EventEnvelope_RawSyscall (r : RawSyscall)
| EventEnvelope_Other (other : string).

Record EventEnvelope := mkEnvelope {
  e_Cursor : option Cursor;
  e_Payload : option Payload;
  e_other : string;
}.

Record EventFilter := mkFilter {
  Kinds : list string;
  Namespaces : list string;
  Pods : list string;
  MinSeverity : Z;
}.

Record SubscribeRequest := mkSubscribeRequest {
  ConsumerId : string;
  Streams : list string;
  r_Cursor : option Cursor;
  Filter : option EventFilter;
}.

Global Instance Cursor_eq_dec : EqDecision Cursor.
Proof. solve_decision. Defined.
Global Instance ContainerMeta_eq_dec : EqDecision ContainerMeta.
Proof. solve_decision. Defined.

Definition GetIntent (e : EventEnvelope) : option IntentEvent :=
  match e_Payload e with Some (EventEnvelope_Intent i) => Some i | _ => None end.
Definition GetDeviation (e : EventEnvelope) : option DeviationEvent :=
  match e_Payload e with Some (EventEnvelope_Deviation d) => Some d | _ => None end.
Definition GetRawSyscall (e : EventEnvelope) : option RawSyscall :=
  match e_Payload e with Some (EventEnvelope_RawSyscall r) => Some r | _ => None end.

(** Reading a string map: an absent key yields the empty string. *)
Definition attr (k : string) (m : gmap string string) : string := default "" (m !! k).

Definition GetNodeName (m : option ContainerMeta) : string := from_option NodeName "" m.
Definition GetNamespace (m : option ContainerMeta) : string := from_option Namespace "" m.
Definition GetPod (m : option ContainerMeta) : string := from_option Pod "" m.
Definition GetContainer (m : option ContainerMeta) : string := from_option Container "" m.
Definition GetContainerId (m : option ContainerMeta) : string := from_option ContainerId "" m.
Definition GetImage (m : option ContainerMeta) : string := from_option Image "" m.
