(* ===== verification/CursorStore.v ===== *)
(** * Cursor persistence

    Model of src/internal/aggregator/cursorstore.go: the per-(agent, stream)
    resume points, their JSON file, the background flusher and [Close].  The
    interface the aggregator relies on is the class [CursorStore]; the null
    store and the file store are its instances. *)
From Stdlib Require Import Ascii.
From stdpp Require Import base numbers gmap strings relations list.
From S2P Require Import Prelude GoStr Json Pb.
Local Open Scope Z_scope.

(** ** The interface *)

Class CursorStore (S : Type) := {
  cs_Load : S → string → string → option Cursor;
  cs_Save : S → string → string → option Cursor → S;
}.

(** No store makes up a cursor: what is loaded under a key after a save is what
    was there, or what was just saved under that very key.  Agent names hold no
    NUL byte. *)
Class CursorStoreOk (S : Type) `{!CursorStore S} : Prop := {
  load_save : ∀ s a st c a' st',
    has_byte (chr 0) a = false → has_byte (chr 0) a' = false →
    cs_Load (cs_Save s a st c) a' st' = cs_Load s a' st' ∨
    (a' = a ∧ st' = st ∧ cs_Load (cs_Save s a st c) a' st' = c);
}.

Inductive nullStore := NullCursorStore.

Global Instance null_store : CursorStore nullStore := {|
  cs_Load _ _ _ := None;
  cs_Save s _ _ _ := s;
|}.

(** ** Data *)

Record persistedCursor := mkPersisted {
  pc_NodeID : string;
  pc_Stream : string;
  pc_Seq : Z;
}.

Global Instance persistedCursor_eq_dec : EqDecision persistedCursor.
Proof. solve_decision. Defined.

Record cs_diskEntry := mkCsEntry {
  ce_Agent : string;
  ce_Cursor : persistedCursor;
}.

Record disk := mkDisk {
  Version : Z;
  Entries : list cs_diskEntry;
}.

(** A file of the cursor directory: absent, empty, the JSON of a [disk] value,
    or bytes that are not. *)
Inductive cfile := FAbsent | FEmpty | FDisk (d : disk) | FGarbage.

(** The cursor file and its [.tmp] sibling. *)
Record cdir := mkCdir { main_file : cfile; tmp_file : cfile }.

(** [wake] tells whether the one-slot [wakeCh] is full. *)
Record fileCursorStore := mkStore {
  data : gmap string persistedCursor;
  dirty : bool;
  closing : bool;
  wake : bool;
  wake_closed : bool;
}.

Inductive cs_err := EMkdir | ERead | EParse | EWriteTmp | ERename.

(** ** Keys *)

Definition keyOf (agent stream : string) : string := agent +:+ String (chr 0) stream.

Fixpoint indexNull (s : string) : option nat :=
  match s with
  | EmptyString => None
  | String c s' => if bool_decide (c = chr 0) then Some 0%nat else S <$> indexNull s'
  end.

(** ** NewFileCursorStore, loadFromDisk *)

(** The result of [os.ReadFile], when it is not an error. *)
Definition loadFromDisk (read_ok : bool) (f : cfile) (m : gmap string persistedCursor)
    : gmap string persistedCursor + cs_err :=
  match f with
  | FAbsent => inl m
  | _ => if negb read_ok then inr ERead
         else match f with
              | FAbsent | FEmpty => inl m
              | FGarbage => inr EParse
              | FDisk d =>
                  inl (foldl (λ acc e, <[keyOf (ce_Agent e) (pc_Stream (ce_Cursor e)) := ce_Cursor e]> acc)
                         m (Entries d))
              end
  end.

Definition flush_ival (flushIval : Z) : Z := if bool_decide (flushIval ≤ 0) then 10 ^ 9 else flushIval.

Definition NewFileCursorStore (mkdir_ok read_ok : bool) (d : cdir) : fileCursorStore + cs_err :=
  if negb mkdir_ok then inr EMkdir
  else match loadFromDisk read_ok (main_file d) ∅ with
       | inl m => inl (mkStore m false false false false)
       | inr e => inr e
       end.

(** ** Load, Save *)

Definition Load (s : fileCursorStore) (agent stream : string) : option Cursor :=
  match data s !! keyOf agent stream with
  | None => None
  | Some c => Some (mkCursor (pc_NodeID c) (pc_Stream c) (pc_Seq c))
  end.

(** The part of [Save] under the lock; the flag tells whether the cursor was
    accepted, after which the goroutine goes on to wake the flusher. *)
Definition Save_locked (s : fileCursorStore) (agent stream : string) (c : Cursor) : fileCursorStore * bool :=
  let put := mkStore (<[keyOf agent stream := mkPersisted (NodeId c) (Pb.Stream c) (CurSeq c)]> (data s))
               true (closing s) (wake s) (wake_closed s) in
  match data s !! keyOf agent stream with
  | Some prev =>
      if bool_decide (CurSeq c < pc_Seq prev) && bool_decide (NodeId c = pc_NodeID prev)
      then (s, false) else (put, true)
  | None => (put, true)
  end.

(** The non-blocking send on [wakeCh]: a closed channel panics. *)
Definition Save_wake (s : fileCursorStore) : option fileCursorStore :=
  if wake_closed s then None
  else Some (mkStore (data s) (dirty s) (closing s) true (wake_closed s)).

(** [Save] when nothing runs in between; [None] is the panic. *)
Definition Save (s : fileCursorStore) (agent stream : string) (c : option Cursor) : option fileCursorStore :=
  match c with
  | None => Some s
  | Some c => let '(s', ok) := Save_locked s agent stream c in if ok then Save_wake s' else Some s'
  end.

(** ** flushLockedBare *)

(** Outcome of writing the temporary file (all of it, or an error that leaves
    some other contents) and of the rename. *)
Record flush_io := mkFlushIO {
  fio_tmp : option cfile;   (** [None]: written; [Some f]: failed, leaving [f] *)
  fio_rename : bool;
}.

(** What a JSON round trip makes of a cursor: strings become valid UTF-8. *)
Definition json_cursor (c : persistedCursor) : persistedCursor :=
  mkPersisted (to_valid_utf8 (pc_NodeID c)) (to_valid_utf8 (pc_Stream c)) (pc_Seq c).

Definition agent_of_key (k : string) : string :=
  match indexNull k with Some i => str_take i k | None => k end.

Section flush.
(** The order in which Go ranges over the map: any permutation. *)
Context (ord : list (string * persistedCursor) → list (string * persistedCursor)).

Definition payload (m : gmap string persistedCursor) : disk :=
  mkDisk 1 ((λ kc : string * persistedCursor,
              mkCsEntry (to_valid_utf8 (agent_of_key kc.1)) (json_cursor kc.2)) <$> ord (map_to_list m)).

Definition flushLockedBare (io : flush_io) (s : fileCursorStore) (d : cdir)
    : fileCursorStore * cdir * option cs_err :=
  if negb (dirty s) then (s, d, None)
  else match fio_tmp io with
       | Some junk => (s, mkCdir (main_file d) junk, Some EWriteTmp)
       | None =>
           let f := FDisk (payload (data s)) in
           if negb (fio_rename io) then (s, mkCdir (main_file d) f, Some ERename)
           else (mkStore (data s) false (closing s) (wake s) (wake_closed s), mkCdir f FAbsent, None)
       end.

(** The same under the lock, which nothing between its acquisition and its release
    gives up. *)
Definition flushLocked := flushLockedBare.
Definition Flush := flushLocked.

(** ** The flusher goroutine and Close

    The goroutine is waiting in its select ([LWait]), has left it with a tick or
    a wake-up ([LWoken]), is between the check of [closing] and [flushLocked]
    ([LFlush]), found the channel closed ([LClosed]), or has returned
    ([LDone]). *)
Inductive lphase := LWait | LWoken | LFlush | LClosed | LDone.

Record csys := mkSys { store : fileCursorStore; dir : cdir; phase : lphase }.

Definition set_wake (b : bool) (s : fileCursorStore) : fileCursorStore :=
  mkStore (data s) (dirty s) (closing s) b (wake_closed s).

(** The moves of the goroutine; [io_may] bounds what its system calls do. *)
Inductive loop_step (io_may : flush_io → Prop) : csys → csys → Prop :=
| loop_tick s d : loop_step io_may (mkSys s d LWait) (mkSys s d LWoken)
| loop_wake s d : wake s = true → loop_step io_may (mkSys s d LWait) (mkSys (set_wake false s) d LWoken)
| loop_chan_closed s d : wake s = false → wake_closed s = true →
    loop_step io_may (mkSys s d LWait) (mkSys s d LClosed)
| loop_check_closing io s d s' d' e : closing s = true → io_may io → flushLockedBare io s d = (s', d', e) →
    loop_step io_may (mkSys s d LWoken) (mkSys s' d' LDone)
| loop_check_open s d : closing s = false → loop_step io_may (mkSys s d LWoken) (mkSys s d LFlush)
| loop_flush io s d s' d' e : io_may io → flushLocked io s d = (s', d', e) →
    loop_step io_may (mkSys s d LFlush) (mkSys s' d' LWait)
| loop_last io s d s' d' e : io_may io → flushLocked io s d = (s', d', e) →
    loop_step io_may (mkSys s d LClosed) (mkSys s' d' LDone).

(** [Close] up to its wait for the goroutine; a second call returns at once. *)
Definition Close_start (s : fileCursorStore) : fileCursorStore :=
  if closing s then s else mkStore (data s) (dirty s) true (wake s) true.

Inductive cs_step : csys → csys → Prop :=
| cs_loop x y : loop_step (λ _, True) x y → cs_step x y
| cs_save s d p a st c s' : Save s a st c = Some s' → cs_step (mkSys s d p) (mkSys s' d p)
| cs_flush io s d p s' d' e : Flush io s d = (s', d', e) → cs_step (mkSys s d p) (mkSys s' d' p)
| cs_close s d p : cs_step (mkSys s d p) (mkSys (Close_start s) d p).
End flush.

(** ** Keys identify (agent, stream) *)

Lemma keyOf_inj a st a' st' :
  has_byte (chr 0) a = false → has_byte (chr 0) a' = false →
  keyOf a st = keyOf a' st' → a = a' ∧ st = st'.
Proof. unfold keyOf. intros. by eapply sep_inj. Qed.

Lemma indexNull_app a st : has_byte (chr 0) a = false → indexNull (keyOf a st) = Some (String.length a).
Proof.
  unfold keyOf. induction a as [|c a IH]; intros H; [done|].
  cbn [has_byte] in H. apply orb_false_iff in H as [Hc H]. rewrite str_app_cons. cbn [indexNull].
  apply bool_decide_eq_false in Hc. case_bool_decide as Heq; [congruence|].
  by rewrite IH.
Qed.

Lemma agent_of_keyOf a st : has_byte (chr 0) a = false → agent_of_key (keyOf a st) = a.
Proof. intros H. unfold agent_of_key. rewrite indexNull_app by done. apply str_take_app. Qed.

(** ** The file store as an instance of the interface *)

Global Instance file_store : CursorStore fileCursorStore := {|
  cs_Load := Load;
  cs_Save s a st c := default s (Save s a st c);
|}.

Global Instance null_store_ok : CursorStoreOk nullStore.
Proof. split. by left. Qed.

Lemma Load_put s m b1 b2 b3 b4 a st :
  data s = m → Load (mkStore m b1 b2 b3 b4) a st = Load s a st.
Proof. unfold Load. by intros <-. Qed.

(** What a save does to the map, on every branch. *)
Lemma Save_data s a st c s' :
  Save s a st c = Some s' →
  data s' = data s ∨
  (∃ c0, c = Some c0 ∧
     data s' = <[keyOf a st := mkPersisted (NodeId c0) (Pb.Stream c0) (CurSeq c0)]> (data s) ∧
     dirty s' = true ∧ wake_closed s = false ∧
     ∀ prev, data s !! keyOf a st = Some prev → NodeId c0 = pc_NodeID prev → pc_Seq prev ≤ CurSeq c0).
Proof.
  unfold Save, Save_locked, Save_wake. destruct c as [c|]; [|intros [= <-]; auto].
  destruct (data s !! keyOf a st) as [prev|] eqn:E.
  - destruct (_ && _) eqn:Hg; [intros [= <-]; auto|]. cbn. destruct (wake_closed s); [done|].
    intros [= <-]. right. exists c. split_and!; try done. intros ? [= <-] Hn.
    apply andb_false_iff in Hg as [Hg|Hg]; reflect_bools; [lia|done].
  - cbn. destruct (wake_closed s); [done|]. intros [= <-]. right. by exists c.
Qed.

Global Instance file_store_ok : CursorStoreOk fileCursorStore.
Proof.
  split. intros s a st c a' st' Ha Ha'. cbn. destruct (Save s a st c) as [s'|] eqn:E; [|auto]. cbn.
  destruct (Save_data _ _ _ _ _ E) as [Hd|(c0 & -> & Hd & _)].
  - left. unfold Load. by rewrite Hd.
  - unfold Load. rewrite Hd. destruct (decide (keyOf a st = keyOf a' st')) as [Heq|Hne].
    + apply keyOf_inj in Heq as [-> ->]; [|done..]. right. rewrite lookup_insert_eq. by destruct c0.
    + left. by rewrite lookup_insert_ne.
Qed.

(** ** Traces of saves *)

Definition saves (s : fileCursorStore) (l : list (string * string * Cursor)) : fileCursorStore :=
  foldl (λ s x, default s (Save s x.1.1 x.1.2 (Some x.2))) s l.

Lemma saves_mono n a st l s c :
  Forall (λ x, keyOf x.1.1 x.1.2 = keyOf a st → NodeId x.2 = n) l →
  Load s a st = Some c → NodeId c = n →
  ∃ c', Load (saves s l) a st = Some c' ∧ NodeId c' = n ∧ CurSeq c ≤ CurSeq c'.
Proof.
  intros Hl. revert s c. induction Hl as [|[[a1 st1] c1] l Hx Hl IH]; intros s c HL Hn.
  { exists c. split_and!; [done..|lia]. }
  cbn [saves foldl fst snd] in *. fold (saves (default s (Save s a1 st1 (Some c1))) l).
  destruct (Save s a1 st1 (Some c1)) as [s1|] eqn:E; cbn [default from_option]; [|by eapply IH].
  destruct (Save_data _ _ _ _ _ E) as [Hd|(c0 & [= <-] & Hd & _ & _ & Hmono)].
  - apply (IH s1 c); [|done]. unfold Load in *. by rewrite Hd.
  - destruct (decide (keyOf a1 st1 = keyOf a st)) as [Heq|Hne].
    + assert (Load s1 a st = Some c1) as HL1.
      { unfold Load. rewrite Hd, Heq, lookup_insert_eq. by destruct c1. }
      destruct (IH _ _ HL1 (Hx Heq)) as (c' & ? & ? & Hle). exists c'. split_and!; [done..|].
      unfold Load in HL. rewrite <-Heq in HL. destruct (data s !! keyOf a1 st1) as [prev|]; [|done].
      injection HL as <-. cbn in Hn, Hle |- *.
      specialize (Hmono prev eq_refl ltac:(rewrite (Hx Heq); done)). lia.
    + apply (IH s1 c); [|done]. unfold Load in *. by rewrite Hd, lookup_insert_ne.
Qed.

(** ** Flush and reopen *)

(** Cursors stored under the key their own [Stream] gives, in plain text. *)
Definition well_keyed (m : gmap string persistedCursor) : Prop :=
  ∀ k c, m !! k = Some c → ∃ a, k = keyOf a (pc_Stream c) ∧ has_byte (chr 0) a = false ∧
    all_bytes is_ascii7 a = true ∧ all_bytes is_ascii7 (pc_Stream c) = true ∧
    all_bytes is_ascii7 (pc_NodeID c) = true.

Lemma foldl_insert {A} (l : list (string * A)) (acc : gmap string A) :
  NoDup l.*1 → foldl (λ m kc, <[kc.1 := kc.2]> m) acc l = list_to_map l ∪ acc.
Proof.
  revert acc. induction l as [|[k x] l IH]; intros acc Hnd; cbn; [by rewrite (left_id_L ∅ (∪))|].
  apply NoDup_cons in Hnd as [Hk Hnd]. rewrite IH by done. cbn.
  rewrite <-insert_union_l, insert_union_r; [done|]. by apply not_elem_of_list_to_map_1.
Qed.

Section reopen.
Context (ord : list (string * persistedCursor) → list (string * persistedCursor)).
Hypothesis ord_perm : ∀ l, ord l ≡ₚ l.

Lemma load_payload m : well_keyed m → loadFromDisk true (FDisk (payload ord m)) ∅ = inl m.
Proof.
  intros Hwk. cbn. f_equal. rewrite foldl_fmap.
  assert (Hord : ∀ l (acc : gmap string persistedCursor), (∀ kc, kc ∈ l → kc ∈ map_to_list m) →
    foldl (λ acc kc, <[keyOf (to_valid_utf8 (agent_of_key kc.1)) (pc_Stream (json_cursor kc.2)) :=
      json_cursor kc.2]> acc) acc l = foldl (λ acc kc, <[kc.1 := kc.2]> acc) acc l).
  { induction l as [|[k c] l IH]; intros acc Hl; [done|]. cbn [foldl fst snd].
    assert (m !! k = Some c) as Hk by (apply elem_of_map_to_list, Hl; set_solver).
    destruct (Hwk k c Hk) as (a & -> & Ha & Hu & Hs & Hn).
    assert (json_cursor c = c) as ->.
    { unfold json_cursor. rewrite !to_valid_utf8_ascii by done. by destruct c. }
    rewrite agent_of_keyOf, to_valid_utf8_ascii by done. apply IH. set_solver. }
  rewrite Hord by (intros kc; by rewrite ord_perm).
  assert (Hnd : NoDup (ord (map_to_list m)).*1) by (rewrite ord_perm; apply NoDup_fst_map_to_list).
  rewrite foldl_insert, (right_id_L ∅ (∪)) by done.
  rewrite (list_to_map_proper _ (map_to_list m)) by (done || apply ord_perm). apply list_to_map_to_list.
Qed.

(** ** Coherence of the store and the file *)

(** Since the store was opened with [d0] and [m0], a clean store is the opened
    one or has been written out. *)
Definition coherent (d0 : cfile) (m0 : gmap string persistedCursor) (x : csys) : Prop :=
  (main_file (dir x) = d0 ∨ ∃ m, main_file (dir x) = FDisk (payload ord m)) ∧
  (dirty (store x) = false →
     (main_file (dir x) = d0 ∧ data (store x) = m0) ∨ main_file (dir x) = FDisk (payload ord (data (store x)))).

Lemma flush_cases io s d s' d' e :
  flushLockedBare ord io s d = (s', d', e) →
  data s' = data s ∧ closing s' = closing s ∧ wake s' = wake s ∧ wake_closed s' = wake_closed s ∧
  ((s' = s ∧ main_file d' = main_file d ∧ (e = None → dirty s = false ∧ d' = d)) ∨
   (e = None ∧ dirty s' = false ∧ main_file d' = FDisk (payload ord (data s)))).
Proof.
  unfold flushLockedBare. destruct (dirty s) eqn:Hd; cbn [negb].
  - destruct (fio_tmp io); [|destruct (fio_rename io)]; intros [= <- <- <-]; split_and!; try done;
      [left|right|left]; by split_and!.
  - intros [= <- <- <-]. split_and!; try done. left. by split_and!.
Qed.

Lemma flush_coherent d0 m0 io s d p p' s' d' e :
  coherent d0 m0 (mkSys s d p) → flushLockedBare ord io s d = (s', d', e) → coherent d0 m0 (mkSys s' d' p').
Proof.
  unfold coherent. cbn. intros [H1 H2] HF.
  destruct (flush_cases _ _ _ _ _ _ HF) as (Hd & _ & _ & _ & [(-> & -> & _)|(_ & _ & ->)]); [done|].
  rewrite Hd. eauto.
Qed.

Lemma cs_step_coherent d0 m0 x y : coherent d0 m0 x → cs_step ord x y → coherent d0 m0 y.
Proof.
  intros HC Hst. destruct Hst as [x y Hl|s d p a st c s' HS|io s d p s' d' e HF|s d p].
  - destruct Hl; try done; by eapply flush_coherent.
  - destruct HC as [H1 H2]. split; [done|]. cbn in *. intros Hcl.
    destruct (Save_data _ _ _ _ _ HS) as [Hd|(c0 & -> & Hd & Hdirty & _)]; [|congruence].
    rewrite Hd. apply H2. revert HS Hcl. unfold Save, Save_locked, Save_wake.
    destruct c as [c|]; [|by intros [= <-]]. intros HS Hcl. case_all.
  - by eapply flush_coherent.
  - destruct HC as [H1 H2]. split; [done|]. cbn in *. unfold Close_start. by destruct (closing s).
Qed.

Lemma cs_steps_coherent d0 m0 x y : rtc (cs_step ord) x y → coherent d0 m0 x → coherent d0 m0 y.
Proof. intros Hr. induction Hr; eauto using cs_step_coherent. Qed.

(** ** Close *)

Definition rank (p : lphase) : nat :=
  match p with LDone => 0 | LWoken | LClosed => 1 | LWait => 2 | LFlush => 3 end.

(** What the store holds is still to be written, or in the file. *)
Definition pending_or_saved (x : csys) : Prop :=
  dirty (store x) = true ∨ main_file (dir x) = FDisk (payload ord (data (store x))).

Lemma flush_saved io s d p p' s' d' e :
  flushLockedBare ord io s d = (s', d', e) → pending_or_saved (mkSys s d p) → pending_or_saved (mkSys s' d' p').
Proof.
  unfold pending_or_saved. cbn. intros HF.
  destruct (flush_cases _ _ _ _ _ _ HF) as (-> & _ & _ & _ & [(-> & -> & _)|(_ & _ & ->)]); auto.
Qed.

Lemma loop_steps_saved P n x y :
  nsteps (loop_step ord P) n x y → pending_or_saved x → pending_or_saved y.
Proof.
  induction 1 as [x|n x y z Hxy _ IH]; intros Hx; [done|]. apply IH. clear IH.
  destruct Hxy; try exact Hx; by eapply flush_saved.
Qed.

Lemma loop_step_closing P x y :
  loop_step ord P x y → closing (store x) = true →
  closing (store y) = true ∧ (rank (phase y) < rank (phase x))%nat ∧ data (store y) = data (store x).
Proof.
  intros Hst Hc. destruct Hst as [| | |io s d s' d' e ? ? HF| |io s d s' d' e ? HF|io s d s' d' e ? HF]; cbn in *;
    try (split_and!; [done|lia|done]); [|congruence|..];
    destruct (flush_cases _ _ _ _ _ _ HF) as (Hd & Hc' & _); rewrite Hc'; split_and!; [done|lia|done..|lia|done|done|lia|done].
Qed.
End reopen.

(** ** Properties *)

Definition io_good (io : flush_io) : Prop := fio_tmp io = None ∧ fio_rename io = true.

Lemma flush_good ord io s d s' d' e :
  io_good io → flushLockedBare ord io s d = (s', d', e) → dirty s' = false ∧ e = None.
Proof.
  intros [Ht Hr]. unfold flushLockedBare. rewrite Ht, Hr. cbn.
  destruct (dirty s) eqn:E; by intros [= <- <- <-].
Qed.

(** The flusher can always move until it has returned. *)
Lemma loop_progress ord (io_may : flush_io → Prop) io x :
  io_may io → phase x ≠ LDone → ∃ y, loop_step ord io_may x y.
Proof.
  intros Hio Hp. destruct x as [s d p]. destruct (flushLockedBare ord io s d) as [[s1 d1] e1] eqn:HF.
  destruct p; [eexists; apply loop_tick| |eexists; by eapply loop_flush|eexists; by eapply loop_last|done].
  destruct (closing s) eqn:Hc; eexists; [by eapply loop_check_closing|by apply loop_check_open].
Qed.

(** Saves as the aggregator makes them: the stream of the key is the stream of
    the cursor, the agent name holds no NUL, everything is plain text. *)
Definition plain_save (x : string * string * Cursor) : Prop :=
  Pb.Stream x.2 = x.1.2 ∧ has_byte (chr 0) x.1.1 = false ∧ all_bytes is_ascii7 x.1.1 = true ∧
  all_bytes is_ascii7 x.1.2 = true ∧ all_bytes is_ascii7 (NodeId x.2) = true.

Lemma saves_well_keyed s l : well_keyed (data s) → Forall plain_save l → well_keyed (data (saves s l)).
Proof.
  intros Hs Hl. revert s Hs. induction Hl as [|[[a st] c] l (Hst & Ha & Hu & Hus & Hn) Hl IH]; intros s Hs; [done|].
  cbn [saves foldl fst snd] in *. apply IH. destruct (Save s a st (Some c)) as [s'|] eqn:E; [|done]. cbn.
  destruct (Save_data _ _ _ _ _ E) as [->|(c0 & [= <-] & -> & _)]; [done|].
  intros k p. rewrite lookup_insert. case_decide; [|by apply Hs].
  intros [= <-]. exists a. cbn. rewrite Hst. by subst.
Qed.

Lemma saves_steps ord s d p l : rtc (cs_step ord) (mkSys s d p) (mkSys (saves s l) d p).
Proof.
  revert s. induction l as [|[[a st] c] l IH]; intros s; [done|]. cbn [saves foldl fst snd].
  destruct (Save s a st (Some c)) as [s'|] eqn:E; cbn; [|apply IH].
  eapply rtc_l; [|apply IH]. by eapply cs_save.
Qed.

(** C4: a cursor never moves backwards: whatever else is saved, as long as the
    saves under a key carry one node id, the sequence number loaded for that key
    does not decrease. *)
Theorem cursor_never_rewinds n a st (l : list (string * string * Cursor)) (s : fileCursorStore) c :
  Forall (λ x, keyOf x.1.1 x.1.2 = keyOf a st → NodeId x.2 = n) l →
  Load s a st = Some c → NodeId c = n →
  ∃ c', Load (saves s l) a st = Some c' ∧ NodeId c' = n ∧ CurSeq c ≤ CurSeq c'.
Proof. apply saves_mono. Qed.

(** Whatever was saved, flushed and read back by a new store is loaded
    under every (agent, stream) as before the restart, in whatever order the map
    was written. *)
Theorem cursor_restart_roundtrip ord io (l : list (string * string * Cursor)) (s0 s1 : fileCursorStore) d1 e :
  (∀ x, ord x ≡ₚ x) → Forall plain_save l → io_good io →
  NewFileCursorStore true true (mkCdir FAbsent FAbsent) = inl s0 →
  Flush ord io (saves s0 l) (mkCdir FAbsent FAbsent) = (s1, d1, e) →
  ∃ s2, NewFileCursorStore true true d1 = inl s2 ∧ ∀ a st, Load s2 a st = Load (saves s0 l) a st.
Proof.
  intros Hord Hl Hio [= <-] HF. set (s0 := mkStore ∅ false false false false) in *.
  destruct (flush_good _ _ _ _ _ _ _ Hio HF) as [Hd ->].
  assert (coherent ord FAbsent ∅ (mkSys s1 d1 LWait)) as [_ HC].
  { eapply (flush_coherent ord _ _ _ _ _ LWait LWait); [|exact HF]. eapply (cs_steps_coherent ord); [apply saves_steps|].
    split; cbn; auto. }
  destruct (flush_cases _ _ _ _ _ _ _ HF) as (Hdata & _).
  assert (Hwk : well_keyed (data s1)) by (rewrite Hdata; by apply saves_well_keyed).
  cbn in HC. destruct (HC Hd) as [[Hm Hm0]|Hm]; unfold NewFileCursorStore; rewrite Hm; cbn [negb].
  - eexists. split; [done|]. intros a st. unfold Load. by rewrite <-Hdata, Hm0.
  - rewrite (load_payload ord Hord) by done. eexists. split; [done|]. intros a st. unfold Load. by rewrite <-Hdata.
Qed.

(** Through any interleaving of saves, flushes (whatever their system calls
    do), flusher moves and closes, the cursor file is the one found at start-up
    or one complete write-out, never a partial one; and a store that is not
    dirty agrees with it. *)
Theorem cursor_file_coherent ord (s0 : fileCursorStore) (d0 : cdir) x :
  NewFileCursorStore true true d0 = inl s0 → rtc (cs_step ord) (mkSys s0 d0 LWait) x →
  (main_file (dir x) = main_file d0 ∨ ∃ m, main_file (dir x) = FDisk (payload ord m)) ∧
  (dirty (store x) = false →
     (main_file (dir x) = main_file d0 ∧ data (store x) = data s0) ∨
     main_file (dir x) = FDisk (payload ord (data (store x)))).
Proof.
  intros HN Hr. apply (cs_steps_coherent ord (main_file d0) (data s0)) in Hr; [exact Hr|].
  split; cbn; auto.
Qed.

(** What a closing flusher leaves in the file, whatever its system calls do. *)
Lemma closing_file ord P n x y (f : cfile) :
  nsteps (loop_step ord P) n x y → closing (store x) = true →
  main_file (dir x) = f ∨ main_file (dir x) = FDisk (payload ord (data (store x))) →
  main_file (dir y) = f ∨ main_file (dir y) = FDisk (payload ord (data (store y))).
Proof.
  induction 1 as [x|n x y z Hxy _ IH]; intros Hc Hx; [done|]. destruct (loop_step_closing _ _ _ _ Hxy Hc) as (Hc' & _).
  apply IH; [done|]. clear IH. destruct Hxy as [| | |? ? ? ? ? ? ? ? HF| |? ? ? ? ? ? ? HF|? ? ? ? ? ? ? HF]; cbn in *; try done;
    destruct (flush_cases _ _ _ _ _ _ _ HF) as (-> & _ & _ & _ & [(_ & -> & _)|(_ & _ & ->)]); auto.
Qed.

Lemma closing_steps ord P n x y :
  nsteps (loop_step ord P) n x y → closing (store x) = true →
  closing (store y) = true ∧ (n + rank (phase y) ≤ rank (phase x))%nat ∧ data (store y) = data (store x).
Proof.
  induction 1 as [x|n x y z Hxy _ IH]; intros Hc; [done|]. destruct (loop_step_closing _ _ _ _ Hxy Hc) as (Hc' & Hlt & Hd').
  destruct (IH Hc') as (? & ? & ?). split_and!; [done|lia|congruence].
Qed.

(** A flusher whose writes succeed returns with nothing left to write. *)
Lemma closing_clean ord (P : flush_io → Prop) n x y :
  (∀ io, P io → io_good io) → nsteps (loop_step ord P) n x y → (phase x = LDone → dirty (store x) = false) →
  phase y = LDone → dirty (store y) = false.
Proof.
  intros HP. induction 1 as [x|n x y z Hxy _ IH]; intros Hx; [done|]. apply IH.
  destruct Hxy as [| | |? ? ? ? ? ? ? Hio HF| |? ? ? ? ? ? Hio HF|? ? ? ? ? ? Hio HF]; cbn in *; try done;
    intros _; by destruct (flush_good _ _ _ _ _ _ _ (HP _ Hio) HF).
Qed.

(** C34: once [Close] has begun while the flusher runs, whatever the system calls of
    its writes do, the flusher can always move until it returns and returns within
    three moves of its own; if nothing is saved or flushed meanwhile, it leaves in
    the file what was there or all the store holds; and when its writes succeed it
    returns with everything not yet written at that time in the file. *)
Theorem close_flushes ord (may : flush_io → Prop) io0 (s : fileCursorStore) d p n y :
  may io0 → closing s = false → p ≠ LDone →
  nsteps (loop_step ord may) n (mkSys (Close_start s) d p) y →
  (n ≤ 3)%nat ∧ (phase y ≠ LDone → ∃ z, loop_step ord may y z) ∧ data (store y) = data s ∧
  (main_file (dir y) = main_file d ∨ main_file (dir y) = FDisk (payload ord (data s))) ∧
  ((∀ io, may io → io_good io) → phase y = LDone →
     dirty (store y) = false ∧ (dirty s = true → main_file (dir y) = FDisk (payload ord (data s)))).
Proof.
  intros Hmay Hcl Hp Hn.
  assert (Hx : closing (Close_start s) = true ∧ data (Close_start s) = data s ∧ dirty (Close_start s) = dirty s).
  { unfold Close_start. by rewrite Hcl. }
  destruct Hx as (Hx & Hxd & Hxy). destruct (closing_steps _ _ _ _ _ Hn Hx) as (Hc & Hle & Hd). cbn in Hle, Hd. rewrite Hxd in Hd.
  split_and!; [destruct p; cbn in *; lia|by apply (loop_progress ord may io0)|done| |].
  - rewrite <-Hd. eapply closing_file; [exact Hn|done|by left].
  - intros Hgood Hph. assert (Hy : dirty (store y) = false) by (by eapply closing_clean). split; [done|]. intros Hdirty.
    destruct (loop_steps_saved ord may n _ _ Hn) as [?|Hm]; [left; cbn; congruence|congruence|by rewrite Hm, Hd].
Qed.

(** A save whose cursor names another stream than the key is loaded back
    before a restart and lost by it: the file is keyed by the cursor's own
    stream. *)
Theorem reload_rekeys ord io (s0 : fileCursorStore) a st c :
  (∀ x, ord x ≡ₚ x) → io_good io →
  NewFileCursorStore true true (mkCdir FAbsent FAbsent) = inl s0 →
  Pb.Stream c ≠ st → has_byte (chr 0) a = false → all_bytes is_ascii7 a = true →
  all_bytes is_ascii7 (Pb.Stream c) = true →
  ∃ s1 s2 d2 s3, Save s0 a st (Some c) = Some s1 ∧ Load s1 a st = Some c ∧
    Flush ord io s1 (mkCdir FAbsent FAbsent) = (s2, d2, None) ∧
    NewFileCursorStore true true d2 = inl s3 ∧ Load s3 a st = None.
Proof.
  intros Hord [Ht Hr] [= <-] Hst Ha Hu Hus. cbn.
  eexists _, _, _, _. split_and!.
  - reflexivity.
  - unfold Load. cbn. rewrite lookup_insert_eq. by destruct c.
  - unfold Flush, flushLocked, flushLockedBare. rewrite Ht, Hr. cbn. reflexivity.
  - unfold NewFileCursorStore. cbn. reflexivity.
  - unfold Load. cbn [data]. unfold payload. cbn [Entries]. rewrite insert_empty, map_to_list_singleton.
    rewrite (proj1 (Permutation_singleton_r _ _) (Hord _)). cbn.
    rewrite agent_of_keyOf, !to_valid_utf8_ascii by done.
    rewrite lookup_insert_ne; [by rewrite lookup_empty|].
    intros Heq. by apply keyOf_inj in Heq as [_ ?].
Qed.

(** A save that is accepted after [Close] has closed the wake-up channel
    panics. *)
Theorem save_after_close_panics (s : fileCursorStore) a st c :
  closing s = false → (∀ prev, data s !! keyOf a st = Some prev → pc_Seq prev ≤ CurSeq c) →
  Save (Close_start s) a st (Some c) = None.
Proof.
  intros Hcl Hok. unfold Save, Save_locked, Save_wake, Close_start. rewrite Hcl. cbn.
  destruct (data s !! keyOf a st) as [prev|] eqn:E; [|done].
  rewrite bool_decide_eq_false_2; [done|]. specialize (Hok prev eq_refl). lia.
Qed.

(** ** Witnesses *)

Module Demo.
Definition s0 : fileCursorStore := mkStore ∅ false false false false.
Definition d0 : cdir := mkCdir FAbsent FAbsent.
Definition ok : flush_io := mkFlushIO None true.
Definition l : list (string * string * Cursor) :=
  [("n1", "intent", mkCursor "n1" "intent" 7); ("n2", "intent", mkCursor "n2" "intent" 3);
   ("n1", "intent", mkCursor "n1" "intent" 5)].
Definition s1 : fileCursorStore := saves s0 [("n1", "intent", mkCursor "n1" "intent" 7)].
End Demo.

Lemma cursor_never_rewinds_witness :
  ∃ c', Load (saves Demo.s1 Demo.l) "n1" "intent" = Some c' ∧ NodeId c' = "n1" ∧ 7 ≤ CurSeq c'.
Proof.
  apply (cursor_never_rewinds "n1" "n1" "intent" Demo.l Demo.s1 (mkCursor "n1" "intent" 7)).
  - repeat constructor. intros H. vm_compute in H. discriminate.
  - vm_compute. reflexivity.
  - reflexivity.
Defined.

Lemma cursor_restart_roundtrip_witness :
  ∃ s2, NewFileCursorStore true true (Flush reverse Demo.ok (saves Demo.s0 Demo.l) Demo.d0).1.2 = inl s2 ∧
    Load s2 "n1" "intent" = Some (mkCursor "n1" "intent" 7).
Proof.
  destruct (cursor_restart_roundtrip reverse Demo.ok Demo.l Demo.s0
    (Flush reverse Demo.ok (saves Demo.s0 Demo.l) Demo.d0).1.1
    (Flush reverse Demo.ok (saves Demo.s0 Demo.l) Demo.d0).1.2
    (Flush reverse Demo.ok (saves Demo.s0 Demo.l) Demo.d0).2) as (s2 & HN & HL).
  - intros x. apply reverse_Permutation.
  - repeat constructor.
  - by split.
  - reflexivity.
  - vm_compute. reflexivity.
  - exists s2. split; [exact HN|]. rewrite HL. vm_compute. reflexivity.
Defined.

(** A failed rename: the store stays dirty and the file stays absent. *)
Lemma cursor_file_coherent_witness :
  let st := Flush (λ x, x) (mkFlushIO None false) Demo.s1 Demo.d0 in
  dirty st.1.1 = true ∧
  (main_file st.1.2 = FAbsent ∨ ∃ m, main_file st.1.2 = FDisk (payload (λ x, x) m)).
Proof.
  intros st. split; [vm_compute; reflexivity|].
  apply (cursor_file_coherent (λ x, x) Demo.s0 Demo.d0 (mkSys st.1.1 st.1.2 LWait)).
  - reflexivity.
  - eapply rtc_l; [|apply rtc_once].
    + by apply (cs_save _ Demo.s0 Demo.d0 LWait "n1" "intent" (Some (mkCursor "n1" "intent" 7)) Demo.s1).
    + by apply (cs_flush _ (mkFlushIO None false) Demo.s1 Demo.d0 LWait st.1.1 st.1.2 (Some ERename)).
Defined.

Lemma close_flushes_witness :
  let y := Flush (λ x, x) Demo.ok (Close_start Demo.s1) Demo.d0 in
  dirty y.1.1 = false ∧ data y.1.1 = data Demo.s1 ∧
  (dirty Demo.s1 = true → main_file y.1.2 = FDisk (payload (λ x, x) (data Demo.s1))).
Proof.
  intros y.
  destruct (close_flushes (λ x, x) io_good Demo.ok Demo.s1 Demo.d0 LWait 2 (mkSys y.1.1 y.1.2 LDone)) as (_ & _ & Hd & _ & Hend).
  - by split.
  - reflexivity.
  - discriminate.
  - eapply nsteps_l; [apply loop_tick|]. apply nsteps_once.
    by apply (loop_check_closing _ _ Demo.ok _ _ y.1.1 y.1.2 None).
  - destruct (Hend (λ _ H, H) eq_refl) as [H1 H2]. split; [exact H1|]. split; [exact Hd|exact H2].
Defined.

Lemma reload_rekeys_witness :
  ∃ s1 s2 d2 s3, Save Demo.s0 "n1" "intent" (Some (mkCursor "n1" "audit" 4)) = Some s1 ∧
    Load s1 "n1" "intent" = Some (mkCursor "n1" "audit" 4) ∧
    Flush (λ x, x) Demo.ok s1 Demo.d0 = (s2, d2, None) ∧
    NewFileCursorStore true true d2 = inl s3 ∧ Load s3 "n1" "intent" = None.
Proof.
  apply (reload_rekeys (λ x, x) Demo.ok Demo.s0 "n1" "intent" (mkCursor "n1" "audit" 4)).
  - reflexivity.
  - by split.
  - reflexivity.
  - discriminate.
  - vm_compute. reflexivity.
  - vm_compute. reflexivity.
  - vm_compute. reflexivity.
Defined.

Lemma save_after_close_panics_witness :
  Save (Close_start Demo.s0) "n1" "intent" (Some (mkCursor "n1" "intent" 1)) = None.
Proof.
  apply (save_after_close_panics Demo.s0 "n1" "intent" (mkCursor "n1" "intent" 1)).
  - reflexivity.
  - intros prev H. vm_compute in H. discriminate.
Defined.
