(* ===== verification/CursorBytes.v ===== *)
(** * The bytes of the cursor file

    src/internal/aggregator/cursorstore.go once more, on the bytes of its files:
    the text [json.MarshalIndent] writes and what [json.Unmarshal] reads.  The
    files of [CursorStore], which hold a value or do not, are what these bytes
    stand for, also when a write was cut short. *)
From Stdlib Require Import Ascii.
From stdpp Require Import base numbers gmap strings list.
From S2P Require Import Prelude GoStr Json JsonText JsonCodec Pb CursorStore.
Local Open Scope Z_scope.

(** ** Indented objects and arrays *)

(** A new line, [n] levels deep. *)
Fixpoint blanks (n : nat) : string := match n with O => "" | S n' => String " " (String " " (blanks n')) end.
Definition ind (n : nat) : string := String (chr 10) (blanks n).

Fixpoint members_text (w : string) (ms : list (string * string)) (w' : string) : string :=
  match ms with
  | [] => ""
  | [(k, v)] => w +:+ jstr k +:+ "" +:+ String ":" (" " +:+ v +:+ w')
  | (k, v) :: ms' => w +:+ jstr k +:+ "" +:+ String ":" (" " +:+ v +:+ "" +:+ String "," (members_text w ms' w'))
  end.
Definition object_text (n : nat) (ms : list (string * string)) : string :=
  String "{" (members_text (ind (S n)) ms (ind n) +:+ "}").

Fixpoint elems_text (w : string) (vs : list string) (w' : string) : string :=
  match vs with
  | [] => ""
  | [v] => w +:+ v +:+ w'
  | v :: vs' => w +:+ v +:+ "" +:+ String "," (elems_text w vs' w')
  end.
Definition array_text (n : nat) (vs : list string) : string :=
  String "[" (elems_text (ind (S n)) vs (ind n) +:+ "]").

Lemma ind_spaces n : spaces (ind n).
Proof. unfold spaces. cbn. induction n as [|n IH]; [done|]. exact IH. Qed.

Definition good_member (kv : string * string) : Prop := jbody kv.1 ∧ unquote kv.1 = kv.1 ∧ jval kv.2.

Lemma members_text_ok n n' ms : ms ≠ [] → Forall good_member ms → jmembers (members_text (ind n) ms (ind n')).
Proof.
  intros Hne H. induction H as [|[k v] ms (Hk & _ & Hv) _ IH]; [done|]. pose proof (ind_spaces n). pose proof (ind_spaces n').
  destruct ms as [|m ms]; cbn [members_text].
  - by apply jm_one.
  - apply jm_cons; try done. by apply IH.
Qed.

Lemma members_go_text n n' ms r : ms ≠ [] → Forall good_member ms → ∀ k, (length ms ≤ k)%nat →
  members_go k (members_text (ind n) ms (ind n') +:+ String "}" r) = Some ms.
Proof.
  intros Hne H. pose proof (ind_spaces n) as H1. pose proof (ind_spaces n') as H2.
  induction H as [|[k v] ms (Hk & Hu & Hv) Hms IH]; [done|]. cbn [fst snd] in *. intros [|m] Hm; [cbn in Hm; lia|].
  destruct ms as [|x ms]; cbn [members_text].
  - rewrite !str_app_assoc, (str_app_cons ":"), !str_app_assoc. rewrite members_one by done. by rewrite Hu.
  - rewrite !str_app_assoc, (str_app_cons ":"), !str_app_assoc, (str_app_cons ","). rewrite members_cons by done.
    rewrite IH by (done || cbn in *; lia). cbn. by rewrite Hu.
Qed.

Lemma members_text_length w w' ms : (length ms ≤ String.length (members_text w ms w'))%nat.
Proof.
  induction ms as [|[k v] ms IH]; [done|]. destruct ms as [|x ms].
  - cbn [members_text]. rewrite !str_length_app. cbn [String.length length]. lia.
  - change (members_text w ((k, v) :: x :: ms) w') with
      (w +:+ jstr k +:+ "" +:+ String ":" (" " +:+ v +:+ "" +:+ String "," (members_text w (x :: ms) w'))).
    generalize dependent (members_text w (x :: ms) w'). intros t IH.
    rewrite !str_length_app. cbn [String.length]. rewrite !str_length_app. cbn [String.length length] in *. lia.
Qed.

Lemma object_text_ok n ms : ms ≠ [] → Forall good_member ms → jval (object_text n ms) ∧ object_members (object_text n ms) = Some ms.
Proof.
  intros Hne H. pose proof (members_text_ok (S n) n ms Hne H) as Hm. split; [by apply jv_obj|].
  unfold object_members, object_text. rewrite peel_eq. cbn [mbind option_bind].
  destruct (jmembers_first _ Hm) as (w & m' & Hw & Heq).
  assert (peel "}" (skip_space (members_text (ind (S n)) ms (ind n) +:+ "}")) = None) as ->.
  { rewrite Heq, str_app_assoc, str_app_cons, skip_to by done. by apply peel_ne. }
  apply members_go_text; [done|done|]. pose proof (members_text_length (ind (S n)) (ind n) ms). rewrite str_length_app. lia.
Qed.

Lemma elems_text_ok n n' vs : vs ≠ [] → Forall jval vs → jelems (elems_text (ind n) vs (ind n')).
Proof.
  intros Hne H. pose proof (ind_spaces n). pose proof (ind_spaces n').
  induction H as [|v vs Hv _ IH]; [done|]. destruct vs as [|x vs]; cbn [elems_text]; [by apply je_one|].
  apply je_cons; try done. by apply IH.
Qed.

Lemma elems_go_text n n' vs r : vs ≠ [] → Forall jval vs → ∀ k, (length vs ≤ k)%nat →
  elems_go k (elems_text (ind n) vs (ind n') +:+ String "]" r) = Some vs.
Proof.
  intros Hne H. pose proof (ind_spaces n) as H1. pose proof (ind_spaces n') as H2.
  induction H as [|v vs Hv Hvs IH]; [done|]. intros [|m] Hm; [cbn in Hm; lia|]. destruct vs as [|x vs]; cbn [elems_text].
  - rewrite !str_app_assoc. by rewrite elems_one.
  - rewrite !str_app_assoc, (str_app_cons ","). rewrite elems_cons by done. by rewrite IH by (done || cbn in *; lia).
Qed.

Lemma elems_text_length w w' vs : Forall jval vs → (length vs ≤ String.length (elems_text w vs w'))%nat.
Proof.
  induction 1 as [|v vs Hv _ IH]; [done|]. destruct (jval_first v Hv) as (c & v' & -> & _).
  destruct vs as [|x vs].
  - cbn [elems_text]. rewrite !str_length_app. cbn [String.length length]. lia.
  - change (elems_text w (String c v' :: x :: vs) w') with (w +:+ String c v' +:+ "" +:+ String "," (elems_text w (x :: vs) w')).
    generalize dependent (elems_text w (x :: vs) w'). intros t IH.
    rewrite !str_length_app. cbn [String.length length] in *. lia.
Qed.

Lemma array_text_ok n vs : vs ≠ [] → Forall jval vs → jval (array_text n vs) ∧ array_elems (array_text n vs) = Some vs.
Proof.
  intros Hne H. pose proof (elems_text_ok (S n) n vs Hne H) as Hm. split; [by apply jv_arr|].
  unfold array_elems, array_text. rewrite peel_eq. cbn [mbind option_bind].
  destruct (jelems_first _ Hm) as (w & c & m' & Hw & Heq & Hc & Hd).
  assert (peel "]" (skip_space (elems_text (ind (S n)) vs (ind n) +:+ "]")) = None) as ->.
  { rewrite Heq, str_app_assoc, str_app_cons, skip_to by done. apply peel_ne. intros ->. done. }
  apply elems_go_text; [done|done|]. pose proof (elems_text_length (ind (S n)) (ind n) vs H). rewrite str_length_app. lia.
Qed.

(** ** What is written: json.MarshalIndent(payload, "", "  ") *)

Definition cursor_text (c : persistedCursor) : string :=
  object_text 3 [("node_id", json_string (pc_NodeID c)); ("stream", json_string (pc_Stream c)); ("seq", Itoa (pc_Seq c))].

Definition cs_entry_text (e : cs_diskEntry) : string :=
  object_text 2 [("agent", json_string (ce_Agent e)); ("cursor", cursor_text (ce_Cursor e))].

(** A slice to which nothing was appended is nil, hence [null]. *)
Definition entries_text (l : list cs_diskEntry) : string :=
  match l with [] => "null" | _ => array_text 1 (cs_entry_text <$> l) end.

Definition disk_text (d : disk) : string :=
  object_text 0 [("version", Itoa (Version d)); ("entries", entries_text (Entries d))].

(** ** What is read: json.Unmarshal(b, &on) *)

Definition set_struct {A B} (fs : fields B) (get : A → B) (put : B → A → A) (v : string) (a : A) : option A :=
  (λ b, put b a) <$> decode_struct fs v (get a).

(** A slice starts again from nothing, each of its elements from [zero]. *)
Definition set_slice {A B} (fs : fields B) (zero : B) (put : list B → A → A) (v : string) (a : A) : option A :=
  if bool_decide (v = "null") then Some (put [] a)
  else array_elems v ≫= λ vs, (λ l, put l a) <$> mapM (λ v, decode_struct fs v zero) vs.

Definition cursor_fields : fields persistedCursor := [
  ("node_id", set_string (λ x c, mkPersisted x (pc_Stream c) (pc_Seq c)));
  ("stream", set_string (λ x c, mkPersisted (pc_NodeID c) x (pc_Seq c)));
  ("seq", set_uint64 (λ x c, mkPersisted (pc_NodeID c) (pc_Stream c) x))].

Definition cs_entry_fields : fields cs_diskEntry := [
  ("agent", set_string (λ x e, mkCsEntry x (ce_Cursor e)));
  ("cursor", set_struct cursor_fields ce_Cursor (λ x e, mkCsEntry (ce_Agent e) x))].

Definition no_cursor : persistedCursor := mkPersisted "" "" 0.

Definition disk_fields : fields disk := [
  ("version", set_int64 (λ x d, mkDisk x (Entries d)));
  ("entries", set_slice cs_entry_fields (mkCsEntry "" no_cursor) (λ x d, mkDisk (Version d) x))].

Definition Unmarshal_disk (b : string) : option disk :=
  whole_value b ≫= λ v, decode_struct disk_fields v (mkDisk 0 []).

(** ** The store on bytes *)

(** A file: absent, or its bytes. *)
Record bdir := mkBdir { main_bytes : option string; tmp_bytes : option string }.

Definition loadFromDiskB (read_ok : bool) (f : option string) (m : gmap string persistedCursor)
    : gmap string persistedCursor + cs_err :=
  match f with
  | None => inl m
  | Some b =>
      if negb read_ok then inr ERead
      else if bool_decide (b = "") then inl m
      else match Unmarshal_disk b with
           | None => inr EParse
           | Some on =>
               inl (foldl (λ acc e, <[keyOf (ce_Agent e) (pc_Stream (ce_Cursor e)) := ce_Cursor e]> acc)
                      m (Entries on))
           end
  end.

Definition NewFileCursorStoreB (mkdir_ok read_ok : bool) (d : bdir) : fileCursorStore + cs_err :=
  if negb mkdir_ok then inr EMkdir
  else match loadFromDiskB read_ok (main_bytes d) ∅ with
       | inl m => inl (mkStore m false false false false)
       | inr e => inr e
       end.

(** [os.WriteFile] writes everything, fails before it truncates the file, or
    stops with an error behind some number of bytes. *)
Inductive write_result := WDone | WNotOpened | WStopped (n : nat).

Record bflush_io := mkBio { bio_write : write_result; bio_rename : bool }.

Section flushB.
Context (ord : list (string * persistedCursor) → list (string * persistedCursor)).

Definition raw_payload (m : gmap string persistedCursor) : disk :=
  mkDisk 1 ((λ kc : string * persistedCursor, mkCsEntry (agent_of_key kc.1) kc.2) <$> ord (map_to_list m)).

Definition flushLockedBareB (io : bflush_io) (s : fileCursorStore) (d : bdir)
    : fileCursorStore * bdir * option cs_err :=
  if negb (dirty s) then (s, d, None)
  else
    let b := disk_text (raw_payload (data s)) in
    match bio_write io with
    | WNotOpened => (s, d, Some EWriteTmp)
    | WStopped n => (s, mkBdir (main_bytes d) (Some (str_take n b)), Some EWriteTmp)
    | WDone =>
        if negb (bio_rename io) then (s, mkBdir (main_bytes d) (Some b), Some ERename)
        else (mkStore (data s) false (closing s) (wake s) (wake_closed s), mkBdir (Some b) None, None)
    end.
End flushB.

(** ** The text of a value, read back *)

Ltac jkey := repeat (apply jb_plain; [reflexivity|]); apply jb_nil.
Ltac good_members := repeat (apply Forall_cons; split; [split_and!; cbn [fst snd]; [jkey|vm_compute; reflexivity|]|]); [..|apply Forall_nil; exact I].

Lemma object_text_decode {A} (fs : fields A) n ms a :
  ms ≠ [] → Forall good_member ms → decode_struct fs (object_text n ms) a = decode_members fs ms a.
Proof.
  intros Hne H. destruct (object_text_ok n ms Hne H) as [_ Hm]. unfold decode_struct.
  by rewrite bool_decide_eq_false_2, Hm.
Qed.

Lemma cursor_members c : Forall good_member
  [("node_id", json_string (pc_NodeID c)); ("stream", json_string (pc_Stream c)); ("seq", Itoa (pc_Seq c))].
Proof. good_members; [apply json_string_jval..|apply jv_num, Itoa_jnum]. Qed.

Lemma cursor_text_decode c : is_u64 (pc_Seq c) → decode_struct cursor_fields (cursor_text c) no_cursor = Some (json_cursor c).
Proof.
  intros Hc. unfold cursor_text. rewrite object_text_decode by (done || apply cursor_members). cbn [decode_members].
  change (field_named cursor_fields "node_id") with (Some (set_string (λ x c, mkPersisted x (pc_Stream c) (pc_Seq c)))).
  change (field_named cursor_fields "stream") with (Some (set_string (λ x c, mkPersisted (pc_NodeID c) x (pc_Seq c)))).
  change (field_named cursor_fields "seq") with (Some (set_uint64 (λ x c, mkPersisted (pc_NodeID c) (pc_Stream c) x))).
  cbn match. rewrite !set_string_json. cbn. rewrite set_string_json. cbn. by rewrite set_uint64_json.
Qed.

Lemma cursor_text_jval c : jval (cursor_text c).
Proof. apply object_text_ok; [done|apply cursor_members]. Qed.

Lemma entry_members e : Forall good_member [("agent", json_string (ce_Agent e)); ("cursor", cursor_text (ce_Cursor e))].
Proof. good_members; [apply json_string_jval|apply cursor_text_jval]. Qed.

Definition json_entry (e : cs_diskEntry) : cs_diskEntry := mkCsEntry (to_valid_utf8 (ce_Agent e)) (json_cursor (ce_Cursor e)).

Lemma entry_text_decode e :
  is_u64 (pc_Seq (ce_Cursor e)) → decode_struct cs_entry_fields (cs_entry_text e) (mkCsEntry "" no_cursor) = Some (json_entry e).
Proof.
  intros He. unfold cs_entry_text. rewrite object_text_decode by (done || apply entry_members). cbn [decode_members].
  change (field_named cs_entry_fields "agent") with (Some (set_string (λ x e, mkCsEntry x (ce_Cursor e)))).
  change (field_named cs_entry_fields "cursor") with (Some (set_struct cursor_fields ce_Cursor (λ x e, mkCsEntry (ce_Agent e) x))).
  cbn match. rewrite set_string_json. cbn. unfold set_struct. cbn [ce_Cursor]. by rewrite cursor_text_decode.
Qed.

Lemma disk_members d : Forall good_member [("version", Itoa (Version d)); ("entries", entries_text (Entries d))].
Proof.
  good_members; [apply jv_num, Itoa_jnum|]. destruct (Entries d) as [|e l]; [apply jv_null|].
  apply array_text_ok; [done|]. apply Forall_fmap, Forall_true. intros x. apply object_text_ok; [done|apply entry_members].
Qed.

(** The values the store writes: machine integers. *)
Definition u64_entries (d : disk) : Prop :=
  - 2 ^ 63 ≤ Version d < 2 ^ 63 ∧ Forall (λ e, is_u64 (pc_Seq (ce_Cursor e))) (Entries d).

Lemma entries_decode l a :
  Forall (λ e, is_u64 (pc_Seq (ce_Cursor e))) l →
  set_slice cs_entry_fields (mkCsEntry "" no_cursor) (λ x d, mkDisk (Version d) x) (entries_text l) a = Some (mkDisk (Version a) (json_entry <$> l)).
Proof.
  intros Hl. unfold set_slice, entries_text. destruct l as [|e l]; [done|]. rewrite bool_decide_eq_false_2 by done.
  destruct (array_text_ok 1 (cs_entry_text <$> e :: l)) as [_ ->]; [done| |].
  { apply Forall_fmap, Forall_true. intros x. apply object_text_ok; [done|apply entry_members]. }
  cbn [mbind option_bind]. assert (mapM (λ v, decode_struct cs_entry_fields v (mkCsEntry "" no_cursor)) (cs_entry_text <$> e :: l)
    = Some (json_entry <$> e :: l)) as ->; [|done].
  apply mapM_Some, Forall2_fmap, Forall_Forall2_diag. eapply Forall_impl; [exact Hl|]. apply entry_text_decode.
Qed.

Lemma disk_text_decode d : u64_entries d → Unmarshal_disk (disk_text d) = Some (mkDisk (Version d) (json_entry <$> Entries d)).
Proof.
  intros [Hv Hl]. unfold Unmarshal_disk, disk_text. rewrite whole_value_jval by (apply object_text_ok; [done|apply disk_members]).
  cbn [mbind option_bind]. rewrite object_text_decode by (done || apply disk_members). cbn [decode_members].
  change (field_named disk_fields "version") with (Some (set_int64 (λ x d, mkDisk x (Entries d)))).
  change (field_named disk_fields "entries") with
    (Some (set_slice cs_entry_fields (mkCsEntry "" no_cursor) (λ x d, mkDisk (Version d) x))).
  cbn match. rewrite set_int64_json by done. cbn [mbind option_bind]. by rewrite entries_decode.
Qed.

(** ** The files of CursorStore are what the bytes stand for *)

Definition file_of (f : option string) : cfile :=
  match f with
  | None => FAbsent
  | Some b => if bool_decide (b = "") then FEmpty
              else match Unmarshal_disk b with Some d => FDisk d | None => FGarbage end
  end.
Definition dir_of (d : bdir) : cdir := mkCdir (file_of (main_bytes d)) (file_of (tmp_bytes d)).

Lemma load_bytes read_ok f m : loadFromDiskB read_ok f m = loadFromDisk read_ok (file_of f) m.
Proof.
  destruct f as [b|]; [|done]. cbn [file_of loadFromDiskB]. case_bool_decide; [by destruct read_ok|].
  destruct (Unmarshal_disk b); by destruct read_ok.
Qed.

Lemma New_bytes mkdir_ok read_ok d : NewFileCursorStoreB mkdir_ok read_ok d = NewFileCursorStore mkdir_ok read_ok (dir_of d).
Proof. unfold NewFileCursorStoreB, NewFileCursorStore. by rewrite load_bytes. Qed.

(** A write-out that was cut short is the empty file or bytes no store opens. *)
Lemma cut_file_of d n :
  (n < String.length (disk_text d))%nat →
  file_of (Some (str_take n (disk_text d))) = if bool_decide (n = 0%nat) then FEmpty else FGarbage.
Proof.
  intros Hn. destruct n as [|n]; [done|]. rewrite bool_decide_eq_false_2 by done.
  assert (jval (disk_text d)) as Hv by (apply object_text_ok; [done|apply disk_members]). unfold disk_text, object_text in *.
  set (m := members_text _ _ _ +:+ "}") in *. cbn [str_take String.length] in *.
  cbn [file_of]. rewrite bool_decide_eq_false_2 by done. unfold Unmarshal_disk, whole_value, next_value.
  assert (interrupts "") as Ht by (split; [by left|by intros [|k] r]).
  rewrite skip_space_cons by done.
  rewrite <-(str_app_nil_r (String "{" (str_take n m))), str_app_cons.
  rewrite <-(str_app_cons "{" (str_take n m)), (scan_cut_object "" Ht m _ (str_drop n m)); [done|done|by rewrite str_take_drop|].
  apply str_drop_nonempty. lia.
Qed.

Definition u64_map (m : gmap string persistedCursor) : Prop := map_Forall (λ _ c, is_u64 (pc_Seq c)) m.

Section refine.
Context (ord : list (string * persistedCursor) → list (string * persistedCursor)).
Hypothesis ord_perm : ∀ l, ord l ≡ₚ l.

Lemma payload_file m : u64_map m → file_of (Some (disk_text (raw_payload ord m))) = FDisk (payload ord m).
Proof.
  intros Hm. cbn [file_of]. rewrite bool_decide_eq_false_2 by done. rewrite disk_text_decode.
  - cbn. unfold payload. f_equal. f_equal. by rewrite <-list_fmap_compose.
  - split; [done|]. cbn. apply Forall_fmap. rewrite ord_perm. apply map_Forall_to_list in Hm.
    eapply Forall_impl; [exact Hm|]. by intros [k c].
Qed.

(** What a flush on bytes does to the files. *)
Definition io_of (io : bflush_io) (s : fileCursorStore) (d : bdir) : flush_io :=
  mkFlushIO
    match bio_write io with
    | WDone => None
    | WNotOpened => Some (file_of (tmp_bytes d))
    | WStopped n => Some (file_of (Some (str_take n (disk_text (raw_payload ord (data s))))))
    end (bio_rename io).

Lemma flush_bytes io s d s' d' e :
  u64_map (data s) → flushLockedBareB ord io s d = (s', d', e) →
  flushLockedBare ord (io_of io s d) s (dir_of d) = (s', dir_of d', e).
Proof.
  intros Hm. unfold flushLockedBareB, flushLockedBare, io_of, dir_of. destruct (dirty s); cbn [negb]; [|by intros [= <- <- <-]].
  destruct (bio_write io); cbn [fio_tmp fio_rename main_file]; try by intros [= <- <- <-].
  destruct (bio_rename io); cbn [negb]; intros [= <- <- <-]; cbn [main_bytes tmp_bytes]; by rewrite payload_file.
Qed.
End refine.

(** ** What the store promises

    Two maps from agent and stream to cursors: what a client sees, and what
    survives the process. *)
Record cursors := mkCursors {
  memory : gmap (string * string) Cursor;
  durable : gmap (string * string) Cursor;
}.

(** Operations: a save, a flush with the outcome of its system calls, and a flush
    at which the process dies and is started again. *)
Inductive cursor_op := OSave (agent stream : string) (c : Cursor) | OFlush (io : bflush_io) | OCrash (io : bflush_io).

Definition spec_save (m : gmap (string * string) Cursor) (a st : string) (c : Cursor) : gmap (string * string) Cursor :=
  match m !! (a, st) with
  | Some prev => if bool_decide (CurSeq c < CurSeq prev) && bool_decide (NodeId c = NodeId prev) then m else <[(a, st) := c]> m
  | None => <[(a, st) := c]> m
  end.

Definition completes (io : bflush_io) : bool := match bio_write io with WDone => bio_rename io | _ => false end.

Definition spec_op (x : cursors) (o : cursor_op) : cursors :=
  match o with
  | OSave a st c => mkCursors (spec_save (memory x) a st c) (durable x)
  | OFlush io => if completes io then mkCursors (memory x) (memory x) else x
  | OCrash io => if completes io then mkCursors (memory x) (memory x) else mkCursors (durable x) (durable x)
  end.

(** The same on the store and its bytes; [None] is a panic or a store that does
    not open. *)
Definition bytes_op (ord : list (string * persistedCursor) → list (string * persistedCursor))
    (x : fileCursorStore * bdir) (o : cursor_op) : option (fileCursorStore * bdir) :=
  match o with
  | OSave a st c => (λ s, (s, x.2)) <$> Save x.1 a st (Some c)
  | OFlush io => let '(s, d, _) := flushLockedBareB ord io x.1 x.2 in Some (s, d)
  | OCrash io =>
      let '(_, d, _) := flushLockedBareB ord io x.1 x.2 in
      match NewFileCursorStoreB true true d with inl s => Some (s, d) | inr _ => None end
  end.

Definition plain_op (o : cursor_op) : Prop :=
  match o with OSave a st c => plain_save (a, st, c) ∧ is_u64 (CurSeq c) | _ => True end.

(** The store shows the map [m] to its clients. *)
Definition shows (s : fileCursorStore) (m : gmap (string * string) Cursor) : Prop :=
  ∀ a st, has_byte (chr 0) a = false → Load s a st = m !! (a, st).

(** The file, when opened, shows the map [m]. *)
Definition reopens (d : bdir) (p : gmap string persistedCursor) : Prop :=
  loadFromDiskB true (main_bytes d) ∅ = inl p ∧ u64_map p ∧ well_keyed p.

Record implements (x : fileCursorStore * bdir) (y : cursors) : Prop := {
  im_memory : shows x.1 (memory y);
  im_u64 : u64_map (data x.1);
  im_keyed : well_keyed (data x.1);
  im_open : wake_closed x.1 = false;
  im_durable : ∃ p, reopens x.2 p ∧ shows (mkStore p false false false false) (durable y) ∧
                 (dirty x.1 = false → data x.1 = p);
}.

Lemma shows_put s m a st c b1 b2 b3 b4 :
  shows s m → has_byte (chr 0) a = false →
  shows (mkStore (<[keyOf a st := mkPersisted (NodeId c) (Pb.Stream c) (CurSeq c)]> (data s)) b1 b2 b3 b4) (<[(a, st) := c]> m).
Proof.
  intros Hs Ha a' st' Ha'. specialize (Hs a' st' Ha'). unfold Load in *. cbn [data].
  destruct (decide (keyOf a st = keyOf a' st')) as [Heq|Hne].
  - apply keyOf_inj in Heq as [-> ->]; [|done..]. rewrite !lookup_insert_eq. by destruct c.
  - rewrite lookup_insert_ne by done. rewrite Hs, lookup_insert_ne; [done|]. by intros [= -> ->].
Qed.

Lemma well_keyed_put m a st c :
  well_keyed m → plain_save (a, st, c) → well_keyed (<[keyOf a st := mkPersisted (NodeId c) (Pb.Stream c) (CurSeq c)]> m).
Proof.
  intros Hm (Hst & Ha & Hua & Hus & Hn) k x. cbn [fst snd] in *. rewrite lookup_insert. case_decide as Hk; [|by apply Hm].
  intros [= <-]. exists a. cbn. rewrite Hst. by subst.
Qed.

Lemma implements_save s d y a st c :
  implements (s, d) y → plain_op (OSave a st c) →
  ∃ s', Save s a st (Some c) = Some s' ∧ implements (s', d) (spec_op y (OSave a st c)).
Proof.
  intros [Hmem Hu Hk Hw (p & Hp & Hsh & Hcl)] [Hpl Hc]. cbn [fst snd] in *. pose proof Hpl as (_ & Ha & _). cbn [fst snd] in Ha.
  assert (Hput : ∃ s', (if true then Save_wake (mkStore (<[keyOf a st := mkPersisted (NodeId c) (Pb.Stream c) (CurSeq c)]> (data s))
      true (closing s) (wake s) (wake_closed s)) else None) = Some s' ∧
    implements (s', d) (mkCursors (<[(a, st) := c]> (memory y)) (durable y))).
  { unfold Save_wake. cbn. rewrite Hw. eexists. split; [reflexivity|]. split; cbn [fst snd memory durable data dirty wake_closed].
    - by apply shows_put.
    - by apply map_Forall_insert_2.
    - by apply well_keyed_put.
    - done.
    - by exists p. }
  pose proof (Hmem a st Ha) as Hload. unfold Load in Hload. unfold Save, Save_locked, spec_op, spec_save.
  destruct (data s !! keyOf a st) as [prev|]; rewrite <-Hload; [|exact Hput]. cbn [CurSeq NodeId].
  destruct (_ && _); [|exact Hput]. exists s. split; [done|]. split; try done. by exists p.
Qed.

Section steps.
Context (ord : list (string * persistedCursor) → list (string * persistedCursor)).
Hypothesis ord_perm : ∀ l, ord l ≡ₚ l.

Lemma reopens_payload m t : u64_map m → well_keyed m → reopens (mkBdir (Some (disk_text (raw_payload ord m))) t) m.
Proof. intros Hu Hk. split; [|done]. cbn [main_bytes]. by rewrite load_bytes, payload_file, load_payload. Qed.

Lemma implements_flush io s d y s' d' e :
  implements (s, d) y → flushLockedBareB ord io s d = (s', d', e) → implements (s', d') (spec_op y (OFlush io)).
Proof.
  intros [Hmem Hu Hk Hw (p & Hp & Hsh & Hcl)] HF. unfold flushLockedBareB in HF. cbn [fst snd] in *. cbn [spec_op]. unfold completes.
  destruct (dirty s) eqn:Hd; cbn [negb] in HF.
  - destruct (bio_write io) as [| |n]; [destruct (bio_rename io)| |]; injection HF as <- <- <-; split; try done.
    + exists (data s). split_and!; [by apply reopens_payload|exact Hmem|done].
    + exists p. split_and!; [done|done|]. cbn. by rewrite Hd.
    + exists p. split_and!; [done|done|]. cbn. by rewrite Hd.
    + exists p. split_and!; [done|done|]. cbn. by rewrite Hd.
  - injection HF as <- <- <-. specialize (Hcl eq_refl). subst p.
    destruct (bio_write io); [destruct (bio_rename io)| |]; split; try done; by exists (data s).
Qed.

Lemma implements_restart s d y :
  implements (s, d) y →
  ∃ s', NewFileCursorStoreB true true d = inl s' ∧ shows s' (durable y) ∧ implements (s', d) (mkCursors (durable y) (durable y)).
Proof.
  intros [_ _ _ _ (p & Hp & Hsh & _)]. unfold NewFileCursorStoreB. cbn [negb snd] in *. destruct Hp as (HL & Hu & Hk). rewrite HL.
  eexists. split; [reflexivity|]. split; [done|]. split; try done. by exists p.
Qed.

Lemma implements_op x y o : implements x y → plain_op o → ∃ x', bytes_op ord x o = Some x' ∧ implements x' (spec_op y o).
Proof.
  destruct x as [s d]. intros Hi Ho. destruct o as [a st c|io|io]; cbn [bytes_op fst snd].
  - destruct (implements_save _ _ _ _ _ _ Hi Ho) as (s' & -> & Hi'). by eexists.
  - destruct (flushLockedBareB ord io s d) as [[s' d'] e] eqn:HF. eexists. split; [done|]. by eapply implements_flush.
  - destruct (flushLockedBareB ord io s d) as [[s' d'] e] eqn:HF.
    destruct (implements_restart _ _ _ (implements_flush _ _ _ _ _ _ _ Hi HF)) as (s2 & -> & _ & Hi2).
    eexists. split; [done|]. cbn [spec_op] in *. by destruct (completes io).
Qed.

(** A run of the store, from an empty directory. *)
Definition bytes_run (ops : list cursor_op) : option (fileCursorStore * bdir) :=
  foldl (λ x o, x ≫= λ x, bytes_op ord x o) (Some (mkStore ∅ false false false false, mkBdir None None)) ops.

Lemma implements_run ops :
  Forall plain_op ops → ∃ x, bytes_run ops = Some x ∧ implements x (foldl spec_op (mkCursors ∅ ∅) ops).
Proof.
  intros Hops. unfold bytes_run.
  assert (Hinit : implements (mkStore ∅ false false false false, mkBdir None None) (mkCursors ∅ ∅)).
  { split; try done. exists ∅. by split_and!. }
  revert Hinit. generalize (mkStore ∅ false false false false, mkBdir None None) (mkCursors ∅ ∅).
  induction Hops as [|o ops Ho _ IH]; intros x y Hi; cbn [foldl mbind option_bind]; [by exists x|].
  destruct (implements_op x y o Hi Ho) as (x' & -> & Hi'). by apply IH.
Qed.
End steps.

(** C12: the store keeps its promise on the bytes of its files.  From an empty
    directory, through any saves of cursors that name the stream they are saved for
    (names in ASCII, agents without a NUL byte), flushes whose system calls fail at
    any byte, and crashes at any byte of a flush, the store opens again after each
    crash; what [Load] returns is what the saves since then and the last complete
    flush give; and the file, read back, gives every cursor as of the last
    complete flush. *)
Theorem cursor_bytes_refine ord ops :
  (∀ l, ord l ≡ₚ l) → Forall plain_op ops →
  ∃ s d s', bytes_run ord ops = Some (s, d) ∧ NewFileCursorStoreB true true d = inl s' ∧
    let y := foldl spec_op (mkCursors ∅ ∅) ops in
    ∀ a st, has_byte (chr 0) a = false → Load s a st = memory y !! (a, st) ∧ Load s' a st = durable y !! (a, st).
Proof.
  intros Hord Hops. destruct (implements_run ord Hord ops Hops) as ([s d] & Hrun & Hi).
  destruct (implements_restart _ _ _ Hi) as (s' & HN & Hs' & _). exists s, d, s'. split_and!; [done|done|].
  intros y a st Ha. split; [by apply Hi|by apply Hs'].
Qed.

(** ** Witness *)

Module CursorBytesDemo.
(** A save that is written out; one whose write stops after nine bytes; a crash
    that loses it. *)
Definition ops : list cursor_op := [
  OSave "n1" "intent" (mkCursor "n1" "intent" 7); OFlush (mkBio WDone true);
  OSave "n1" "intent" (mkCursor "n1" "intent" 9); OFlush (mkBio (WStopped 9) true); OCrash (mkBio WDone false)].
End CursorBytesDemo.

Lemma cursor_bytes_refine_witness :
  ∃ s d s', bytes_run reverse CursorBytesDemo.ops = Some (s, d) ∧ NewFileCursorStoreB true true d = inl s' ∧
    Load s "n1" "intent" = Some (mkCursor "n1" "intent" 7) ∧ Load s' "n1" "intent" = Some (mkCursor "n1" "intent" 7).
Proof.
  destruct (cursor_bytes_refine reverse CursorBytesDemo.ops) as (s & d & s' & Hr & HN & HL).
  - intros l. apply reverse_Permutation.
  - repeat constructor; done.
  - exists s, d, s'. split_and!; [exact Hr|exact HN|..]; by rewrite ?(proj1 (HL "n1" "intent" eq_refl)), ?(proj2 (HL "n1" "intent" eq_refl)).
Defined.
