(* ===== verification/ClusterPeers.v ===== *)
(** * clusterpeers: the cluster listener registry and the peer join

    Model of src/internal/aggregator/clusterpeers/registry.go and advertise.go.
    Time is an integer number of nanoseconds passed to every operation that reads
    the clock.  The resolvers the registry consults are the interfaces
    [EndpointResolver], [PodLocator] and [ServiceResolver]; a [Join] sees one
    snapshot of them. *)
From Stdlib Require Import Ascii QArith.
From stdpp Require Import base numbers gmap strings relations fin_maps list.
From S2P Require Import Prelude GoStr Json Pb.
Local Open Scope Z_scope.

(** ** Data *)

Record ServiceRef := mkServiceRef { sr_Namespace : string; sr_Name : string }.

Record Listener := mkListener {
  Addr : string;
  Port : string;
  PID : string;
  Process : string;
  Wildcard : bool;
  l_NodeName : string;
  l_Namespace : string;
  l_Pod : string;
  l_Container : string;
  l_ContainerID : string;
  l_Image : string;
  Service : ServiceRef;
  ReplicaAmbiguous : bool;
  ReplicaCount : Z;
  expires : Z;
}.

Global Instance ServiceRef_eq_dec : EqDecision ServiceRef.
Proof. solve_decision. Defined.
Global Instance Listener_eq_dec : EqDecision Listener.
Proof. solve_decision. Defined.

Inductive How := HowMiss | HowDirect | HowEndpointslice | HowWildcard | HowServiceVIP.

Global Instance How_eq_dec : EqDecision How.
Proof. solve_decision. Defined.

Definition ServiceRef_String (s : ServiceRef) : string :=
  if bool_decide (sr_Namespace s = "") && bool_decide (sr_Name s = "") then ""
  else sr_Namespace s +:+ "/" +:+ sr_Name s.

Definition How_String (h : How) : string :=
  match h with
  | HowDirect => "direct"
  | HowEndpointslice => "endpointslice"
  | HowWildcard => "wildcard"
  | HowServiceVIP => "service-vip"
  | HowMiss => "miss"
  end.

Definition Via (h : How) : string :=
  match h with
  | HowEndpointslice => "endpointslice"
  | HowServiceVIP => "service-vip"
  | _ => "direct"
  end.

(** ** The interfaces to discovery *)

Record PodLocator := mkPodLocator { PodForIP : string → option (string * string) }.

(** An endpoint resolver that also locates pods carries its locator: the type
    assertion of [NewRegistry]. *)
Record EndpointResolver := mkEndpointResolver {
  ResolvePodAddr : string → option string;
  as_PodLocator : option PodLocator;
}.

Record ServiceResolver := mkServiceResolver {
  ResolveVIP : string → option (list string * string * string);
}.

Record Registry := mkRegistry {
  exact : gmap string Listener;
  wild : gmap string (gmap string Listener);
  ttl : Z;
  resolver : option EndpointResolver;
  svc : option ServiceResolver;
  podLoc : option PodLocator;
}.

Definition DefaultTTL : Z := 30 * 10 ^ 9.

Definition NewRegistry (t : Z) (res : option EndpointResolver) (sv : option ServiceResolver) : Registry :=
  mkRegistry ∅ ∅ (if bool_decide (t ≤ 0) then DefaultTTL else t) res sv (res ≫= as_PodLocator).

Definition set_maps (e : gmap string Listener) (w : gmap string (gmap string Listener)) (r : Registry) : Registry :=
  mkRegistry e w (ttl r) (resolver r) (svc r) (podLoc r).

(** ** Observe, Remove *)

Definition portOf (explicit addr : string) : string :=
  if bool_decide (explicit ≠ "") then explicit
  else match SplitHostPort addr with Some (_, p) => p | None => "" end.

Definition podIdent (namespace pod : string) : string := namespace +:+ String "/" pod.

Definition set_expires (t : Z) (l : Listener) : Listener :=
  mkListener (Addr l) (Port l) (PID l) (Process l) (Wildcard l) (l_NodeName l) (l_Namespace l) (l_Pod l)
    (l_Container l) (l_ContainerID l) (l_Image l) (Service l) (ReplicaAmbiguous l) (ReplicaCount l) t.

Definition Observe (now : Z) (l0 : Listener) (r : Registry) : Registry :=
  if bool_decide (Addr l0 = "") then r
  else
    let l := set_expires (now + ttl r) l0 in
    if Wildcard l then
      let port := portOf (Port l) (Addr l) in
      if bool_decide (port = "") then r
      else
        let key := String ":" port in
        let inner := default ∅ (wild r !! key) in
        set_maps (exact r) (<[key := <[podIdent (l_Namespace l) (l_Pod l) := l]> inner]> (wild r)) r
    else set_maps (<[Addr l := l]> (exact r)) (wild r) r.

Definition Remove (l : Listener) (r : Registry) : Registry :=
  if bool_decide (Addr l = "") then r
  else if Wildcard l then
    let port := portOf (Port l) (Addr l) in
    if bool_decide (port = "") then r
    else
      let key := String ":" port in
      match wild r !! key with
      | None => r
      | Some inner =>
          let inner' := delete (podIdent (l_Namespace l) (l_Pod l)) inner in
          set_maps (exact r) (if bool_decide (inner' = ∅) then delete key (wild r)
                              else <[key := inner']> (wild r)) r
      end
  else set_maps (delete (Addr l) (exact r)) (wild r) r.

(** ** The read path *)

Definition live (now : Z) (l : Listener) : bool := bool_decide (now < expires l).

Definition stillOwns (r : Registry) (l : Listener) (addr : string) : bool :=
  match podLoc r with
  | None => true
  | Some pl =>
      if bool_decide (l_Pod l = "") then true
      else match SplitHostPort addr with
           | None => true
           | Some (host, _) =>
               match PodForIP pl host with
               | None => true
               | Some (ns, pod) => bool_decide (ns = l_Namespace l) && bool_decide (pod = l_Pod l)
               end
           end
  end.

Definition liveExact (r : Registry) (addr : string) (now : Z) : option Listener :=
  match exact r !! addr with
  | None => None
  | Some l =>
      if negb (live now l) then None
      else if negb (stillOwns r l addr) then None
      else Some l
  end.

Definition wild_at (r : Registry) (portKey : string) : gmap string Listener := default ∅ (wild r !! portKey).

Definition liveWildPod (r : Registry) (portKey pod : string) (now : Z) : option Listener :=
  match wild_at r portKey !! pod with
  | None => None
  | Some l => if live now l then Some l else None
  end.

(** The loop over the inner map: last live entry seen, and how many. *)
Definition sole_loop (now : Z) (ls : list (string * Listener)) : option Listener * nat :=
  foldl (λ '(found, n) '(_, l), if negb (live now l) then (found, n) else (Some l, S n)) (None, 0%nat) ls.

Definition soleLiveWild (r : Registry) (portKey : string) (now : Z) : option Listener :=
  let '(found, n) := sole_loop now (map_to_list (wild_at r portKey)) in
  if bool_decide (n = 1%nat) then found else None.

Definition soleLiveWildForPod (r : Registry) (portKey pod : string) (now : Z) : option Listener :=
  match soleLiveWild r portKey now with
  | None => None
  | Some l => if bool_decide (l_Pod l ≠ pod) then None else Some l
  end.

Definition liveWild (r : Registry) (addr : string) (now : Z) : option Listener :=
  match SplitHostPort addr with
  | None => None
  | Some (host, port) =>
      if bool_decide (port = "") then None
      else
        let key := String ":" port in
        if bool_decide (wild_at r key = ∅) then None
        else match podLoc r with
             | Some pl =>
                 match PodForIP pl host with
                 | None => None
                 | Some (ns, pod) =>
                     match liveWildPod r key (podIdent ns pod) now with
                     | Some l => Some l
                     | None => soleLiveWildForPod r key pod now
                     end
                 end
             | None => soleLiveWild r key now
             end
  end.

Definition live_backend (r : Registry) (now : Z) (b : string) : option Listener :=
  match liveExact r b now with
  | Some l => Some l
  | None => liveWild r b now
  end.

Definition set_service (s : ServiceRef) (amb : bool) (n : Z) (l : Listener) : Listener :=
  mkListener (Addr l) (Port l) (PID l) (Process l) (Wildcard l) (l_NodeName l) (l_Namespace l) (l_Pod l)
    (l_Container l) (l_ContainerID l) (l_Image l) s amb n (expires l).

Definition resolveVIP (r : Registry) (backends : list string) (s : ServiceRef) (now : Z) : option Listener :=
  match omap (live_backend r now) backends with
  | [] => None
  | rep :: [] => Some (set_service s (ReplicaAmbiguous rep) (ReplicaCount rep) rep)
  | rep :: rest =>
      if forallb (λ l, bool_decide (Process l = Process rep) && bool_decide (l_Image l = l_Image rep)) rest
      then Some (set_service s true (Z.of_nat (length (rep :: rest))) rep)
      else None
  end.

(** Step 2 of [Join]: fold through the EndpointSlice index. *)
Definition join_slice (r : Registry) (connectAddr : string) (now : Z) : option Listener :=
  match resolver r with
  | None => None
  | Some er =>
      match ResolvePodAddr er connectAddr with
      | None => None
      | Some podAddr =>
          match liveExact r podAddr now with
          | Some l => Some l
          | None => liveWild r podAddr now
          end
      end
  end.

(** Step 3 of [Join]: a Service address. *)
Definition join_vip (r : Registry) (connectAddr : string) (now : Z) : option Listener :=
  match svc r with
  | None => None
  | Some sv =>
      match ResolveVIP sv connectAddr with
      | None => None
      | Some (backends, ns, name) => resolveVIP r backends (mkServiceRef ns name) now
      end
  end.

(** The second argument of the Go method is unused; a miss is [None]. *)
Definition Join (r : Registry) (connectAddr : string) (now : Z) : option (Listener * How) :=
  match liveExact r connectAddr now with
  | Some l => Some (l, HowDirect)
  | None =>
      match join_slice r connectAddr now with
      | Some l => Some (l, HowEndpointslice)
      | None =>
          match join_vip r connectAddr now with
          | Some l => Some (l, HowServiceVIP)
          | None =>
              match liveWild r connectAddr now with
              | Some l => Some (l, HowWildcard)
              | None => None
              end
          end
      end
  end.

(** ** Stats, Sweep, Size *)

Definition sweep_maps (now : Z) (r : Registry) : Registry :=
  set_maps (filter (λ kl, live now kl.2 = true) (exact r))
    (omap (λ inner : gmap string Listener,
             let inner' := filter (λ kl, live now kl.2 = true) inner in
             if bool_decide (inner' = ∅) then None else Some inner') (wild r)) r.

Definition Stats (now : Z) (r : Registry) : Registry * (Z * Z) :=
  let r' := sweep_maps now r in
  (r', (Z.of_nat (size (exact r')),
        foldr (λ kv acc, Z.of_nat (size kv.2) + acc) 0 (map_to_list (wild r')))).

Definition Sweep (now : Z) (r : Registry) : Registry := (Stats now r).1.
Definition Size (now : Z) (r : Registry) : Registry * Z :=
  let '(r', (e, w)) := Stats now r in (r', e + w).
Definition sweep_interval (r : Registry) (interval : Z) : Z :=
  if bool_decide (interval ≤ 0) then ttl r else interval.

(** [SweepEvery]: one sweep per tick until the context is cancelled; a tick
    brings the time.  [time.NewTicker] panics on a period that is not positive. *)
Fixpoint sweep_ticks (ticks : list (bool * Z)) (r : Registry) : Registry :=
  match ticks with
  | [] => r
  | (cancelled, now) :: rest => if cancelled : bool then r else sweep_ticks rest (Sweep now r)
  end.

Definition SweepEvery (interval : Z) (ticks : list (bool * Z)) (r : Registry) : option Registry :=
  if bool_decide (sweep_interval r interval ≤ 0) then None else Some (sweep_ticks ticks r).

(** ** advertise.go *)

Definition KindListenerAdvertise : string := "ListenerAdvertise".
Definition KindListenerWithdraw : string := "ListenerWithdraw".
Definition KindNetworkExchange : string := "NetworkExchange".
Definition KindClusterPeerEdge : string := "ClusterPeerEdge".
Definition AttrPeer : string := "peer".
Definition AttrPeerPID : string := "peer_pid".

Definition ListenerFromAdvertise (ev : option IntentEvent) : option Listener :=
  match ev with
  | None => None
  | Some ev =>
      if bool_decide (Kind ev ≠ KindListenerAdvertise) then None
      else
        let attrs := Attributes ev in
        let addr := attr "addr" attrs in
        if bool_decide (addr = "") then None
        else
          let m := Meta ev in
          Some (mkListener addr (attr "port" attrs) (attr "pid" attrs) (attr "process" attrs)
                  (bool_decide (attr "wildcard" attrs = "true"))
                  (GetNodeName m) (GetNamespace m) (GetPod m) (GetContainer m) (GetContainerId m)
                  (GetImage m) (mkServiceRef "" "") false 0 0)
  end.

Definition ListenerFromWithdraw (ev : option IntentEvent) : option Listener :=
  match ev with
  | None => None
  | Some ev =>
      if bool_decide (Kind ev ≠ KindListenerWithdraw) then None
      else
        let attrs := Attributes ev in
        let addr := attr "addr" attrs in
        if bool_decide (addr = "") then None
        else
          let m := Meta ev in
          Some (mkListener addr (attr "port" attrs) "" "" (bool_decide (attr "wildcard" attrs = "true"))
                  "" (GetNamespace m) (GetPod m) "" "" "" (mkServiceRef "" "") false 0 0)
  end.

Definition PeerEdge (src : IntentEvent) (l : Listener) (how : How) (connectorNode : string) : IntentEvent :=
  let attribution :=
    if bool_decide (connectorNode ≠ "") && bool_decide (l_NodeName l = connectorNode)
    then "same-node" else "cross-node" in
  let attrs : gmap string string := list_to_map [
    ("addr", attr AttrPeer (Attributes src)); ("peer_pid", PID l); ("peer_process", Process l);
    ("peer_pod", l_Pod l); ("peer_namespace", l_Namespace l); ("peer_container", l_Container l);
    ("peer_image", l_Image l); ("peer_node", l_NodeName l); ("attribution", attribution); ("via", Via how)] in
  let s := ServiceRef_String (Service l) in
  let attrs := if bool_decide (s ≠ "") then <["peer_service" := s]> attrs else attrs in
  let attrs :=
    if ReplicaAmbiguous l
    then <["peer_replica_count" := Itoa (ReplicaCount l)]> (<["peer_replica_ambiguous" := "true"]> attrs)
    else attrs in
  mkIntent KindClusterPeerEdge attrs (Meta src) (ContributingEventIds src) (Severity src) 1%Q "".
