(* ===== verification/ClusterPeersSpec.v ===== *)
(** * clusterpeers: the properties of the registry and the join

    The registry as a trace of advertises, withdraws and sweeps, the refinement
    of that trace by the maps, and what a join may and may not answer. *)
From Stdlib Require Import Ascii QArith.
From stdpp Require Import base numbers gmap strings relations fin_maps list.
From S2P Require Import Prelude GoStr Json Pb ClusterPeers.
Local Open Scope Z_scope.

(** ** Slots

    Where an advertise is filed: under its address, or under its port and pod. *)
Inductive slot := SExact (addr : string) | SWild (portKey pod : string).

Global Instance slot_eq_dec : EqDecision slot.
Proof. solve_decision. Defined.

Definition slot_of (l : Listener) : option slot :=
  if bool_decide (Addr l = "") then None
  else if Wildcard l then
    let port := portOf (Port l) (Addr l) in
    if bool_decide (port = "") then None
    else Some (SWild (String ":" port) (podIdent (l_Namespace l) (l_Pod l)))
  else Some (SExact (Addr l)).

Definition get (r : Registry) (s : slot) : option Listener :=
  match s with SExact a => exact r !! a | SWild k p => wild_at r k !! p end.

(** The entry of a slot, when it has not expired. *)
Definition get_live (r : Registry) (now : Z) (s : slot) : option Listener :=
  match get r s with Some l => if live now l then Some l else None | None => None end.

Lemma slot_of_expires t l : slot_of (set_expires t l) = slot_of l.
Proof. done. Qed.

Lemma get_Observe now l r s :
  get (Observe now l r) s =
    if decide (slot_of l = Some s) then Some (set_expires (now + ttl r) l) else get r s.
Proof.
  unfold Observe, slot_of. case_bool_decide; [by rewrite decide_False|].
  cbn [Wildcard set_expires Port Addr]. destruct (Wildcard l) eqn:Hw.
  - cbn [l_Namespace l_Pod]. case_bool_decide; [by rewrite decide_False|].
    set (k := String ":" _). set (p := podIdent _ _).
    destruct s as [a|k' p']; cbn; [by rewrite decide_False|].
    unfold wild_at. cbn. destruct (decide (k = k')) as [<-|Hk].
    + rewrite lookup_insert_eq. cbn. destruct (decide (p = p')) as [<-|Hp].
      * by rewrite lookup_insert_eq, decide_True.
      * rewrite lookup_insert_ne, decide_False by congruence. done.
    + rewrite lookup_insert_ne, decide_False by congruence. done.
  - destruct s as [a|k' p']; cbn; [|by rewrite decide_False].
    rewrite lookup_insert. case_decide; case_decide; congruence.
Qed.

Lemma get_Remove l r s :
  get (Remove l r) s = if decide (slot_of l = Some s) then None else get r s.
Proof.
  unfold Remove, slot_of. case_bool_decide; [by rewrite decide_False|].
  destruct (Wildcard l) eqn:Hw.
  - case_bool_decide; [by rewrite decide_False|]. set (k := String ":" _). set (p := podIdent _ _).
    destruct (wild r !! k) as [inner|] eqn:Hk.
    + destruct s as [a|k' p']; cbn; [by rewrite decide_False|]. unfold wild_at. cbn.
      destruct (decide (k = k')) as [<-|Hne].
      * rewrite Hk. cbn. transitivity (delete p inner !! p').
        { case_bool_decide as He; [by rewrite lookup_delete_eq, He|by rewrite lookup_insert_eq]. }
        rewrite lookup_delete. case_decide; case_decide; congruence.
      * rewrite decide_False by congruence.
        case_bool_decide; [by rewrite lookup_delete_ne|by rewrite lookup_insert_ne].
    + case_decide as Hs; [|done]. injection Hs as <-. cbn. unfold wild_at. by rewrite Hk.
  - destruct s as [a|k' p']; cbn; [|by rewrite decide_False].
    rewrite lookup_delete. case_decide; case_decide; congruence.
Qed.

Lemma get_Sweep now r s : get (Sweep now r) s = get_live r now s.
Proof.
  unfold Sweep, Stats, get_live. cbn [fst]. destruct s as [a|k p]; cbn.
  - rewrite map_lookup_filter. destruct (exact r !! a) as [l|]; [|done]. cbn.
    destruct (live now l) eqn:Hl; [by rewrite option_guard_True|by rewrite option_guard_False by congruence].
  - unfold wild_at. cbn. rewrite lookup_omap. destruct (wild r !! k) as [inner|]; [|done]. cbn.
    transitivity (filter (λ kl, live now kl.2 = true) inner !! p).
    { case_bool_decide as He; [by rewrite He|done]. }
    rewrite map_lookup_filter. destruct (inner !! p) as [l|]; [|done]. cbn.
    destruct (live now l) eqn:Hl; [by rewrite option_guard_True|by rewrite option_guard_False by congruence].
Qed.

(** ** Traces *)

Inductive event := EObserve (l : Listener) | ERemove (l : Listener) | ESweep.

Definition step (r : Registry) (te : Z * event) : Registry :=
  match te.2 with
  | EObserve l => Observe te.1 l r
  | ERemove l => Remove l r
  | ESweep => Sweep te.1 r
  end.

Definition run (r : Registry) (tr : list (Z * event)) : Registry := foldl step r tr.

(** The abstract registry: the last word of the trace on a slot, sweeps apart. *)
Definition last_word (T : Z) (tr : list (Z * event)) (s : slot) : option Listener :=
  foldl (λ acc te, match te.2 with
                   | EObserve l => if decide (slot_of l = Some s) then Some (set_expires (te.1 + T) l) else acc
                   | ERemove l => if decide (slot_of l = Some s) then None else acc
                   | ESweep => acc
                   end) None tr.

Definition if_live (now : Z) (o : option Listener) : option Listener :=
  match o with Some l => if live now l then Some l else None | None => None end.

Lemma step_params r te : ttl (step r te) = ttl r ∧ podLoc (step r te) = podLoc r ∧
  resolver (step r te) = resolver r ∧ svc (step r te) = svc r.
Proof.
  destruct te as [t [l|l|]]; cbn; unfold Observe, Remove; cbn; [..|done];
    repeat (case_match || case_bool_decide); done.
Qed.

Lemma run_params r tr : ttl (run r tr) = ttl r ∧ podLoc (run r tr) = podLoc r ∧
  resolver (run r tr) = resolver r ∧ svc (run r tr) = svc r.
Proof.
  revert r. induction tr as [|te tr IH]; intros r; [done|].
  change (run r (te :: tr)) with (run (step r te) tr).
  destruct (IH (step r te)) as (-> & -> & -> & ->). apply step_params.
Qed.

Lemma live_mono t now l : t ≤ now → live now l = true → live t l = true.
Proof. unfold live. rewrite !bool_decide_eq_true. lia. Qed.

Lemma run_refines r tr now s :
  (∀ s, get r s = None) → Forall (λ te, te.1 ≤ now) tr →
  if_live now (get (run r tr) s) = if_live now (last_word (ttl r) tr s).
Proof.
  intros Hr. induction tr as [|te tr IH] using rev_ind; intros Hle; [cbn; by rewrite Hr|].
  apply Forall_app in Hle as [Hle Hte]. rewrite Forall_singleton in Hte. specialize (IH Hle).
  unfold run, last_word in *. rewrite !foldl_app. cbn [foldl].
  destruct (run_params r tr) as (Httl & _). unfold run in Httl.
  destruct te as [t [l|l|]]; cbn [step fst snd] in *.
  - rewrite get_Observe, Httl. by case_decide.
  - rewrite get_Remove. by case_decide.
  - rewrite get_Sweep. unfold get_live. rewrite <-IH. cbn.
    destruct (get _ s) as [l|]; [|done]. cbn. destruct (live t l) eqn:Ht; [done|]. cbn.
    destruct (live now l) eqn:Hn; [|done]. by rewrite (live_mono t now) in Ht.
Qed.

(** ** The join sees the live entries and nothing else *)

Definition live_map (now : Z) (m : gmap string Listener) : gmap string Listener :=
  filter (λ kl, live now kl.2 = true) m.

Definition sole_of (m : gmap string Listener) : option Listener :=
  match map_to_list m with [(_, l)] => Some l | _ => None end.

Lemma sole_loop_filter now ls found n :
  foldl (λ '(found, n) '(_, l), if negb (live now l) then (found, n) else (Some l, S n)) (found, n) ls =
    (match list.last (filter (λ kl : string * Listener, live now kl.2 = true) ls) with
     | Some (_, l) => Some l | None => found end,
     (n + length (filter (λ kl : string * Listener, live now kl.2 = true) ls))%nat).
Proof.
  revert found n. induction ls as [|[k l] ls IH]; intros found n; cbn [foldl]; [by rewrite Nat.add_0_r|].
  destruct (live now l) eqn:Hl; cbn [negb]; rewrite IH.
  - rewrite filter_cons_True by done. rewrite last_cons. cbn [length].
    replace (S n + length (filter _ ls))%nat with (n + S (length (filter (λ kl : string * Listener, live now kl.2 = true) ls)))%nat by lia.
    by destruct (list.last _) as [[??]|].
  - rewrite filter_cons_False by (cbn; congruence). done.
Qed.

Lemma soleLiveWild_spec r k now : soleLiveWild r k now = sole_of (live_map now (wild_at r k)).
Proof.
  unfold soleLiveWild, sole_loop, sole_of, live_map. rewrite sole_loop_filter. cbn [plus].
  pose proof (map_filter_alt (λ kl, live now kl.2 = true) (wild_at r k)) as Halt.
  set (fl := filter _ (map_to_list (wild_at r k))) in *.
  assert (Hp : map_to_list (filter (λ kl, live now kl.2 = true) (wild_at r k)) ≡ₚ fl).
  { rewrite Halt. apply map_to_list_to_map. eapply sublist_NoDup; [apply (NoDup_fst_map_to_list (wild_at r k))|].
    apply sublist_fmap, sublist_filter. }
  destruct fl as [|[k1 l1] [|x fl]]; case_bool_decide as Hn; try (cbn in Hn; lia).
  - by apply Permutation_nil_r in Hp as ->.
  - by apply Permutation_singleton_r in Hp as ->.
  - apply Permutation_length in Hp. destruct (map_to_list _) as [|[k2 l2] [|y fl']]; done.
Qed.

(** Two registries that differ only by expired entries. *)
Definition same_live (now : Z) (r r' : Registry) : Prop :=
  podLoc r = podLoc r' ∧ resolver r = resolver r' ∧ svc r = svc r' ∧
  ∀ s, get_live r now s = get_live r' now s.

Global Instance same_live_equiv now : Equivalence (same_live now).
Proof.
  split.
  - intros r. by split_and!.
  - intros r r' (?&?&?&H). by split_and!.
  - intros r1 r2 r3 (?&?&?&H) (?&?&?&H'). split_and!; congruence.
Qed.

Lemma liveExact_live r addr now :
  liveExact r addr now =
    match get_live r now (SExact addr) with
    | Some l => if stillOwns r l addr then Some l else None
    | None => None
    end.
Proof.
  unfold liveExact, get_live. cbn. destruct (exact r !! addr) as [l|]; [|done].
  destruct (live now l); [|done]. cbn. by destruct (stillOwns r l addr).
Qed.

Lemma liveWildPod_live r k p now : liveWildPod r k p now = get_live r now (SWild k p).
Proof. done. Qed.

Lemma live_map_lookup r k p now : live_map now (wild_at r k) !! p = get_live r now (SWild k p).
Proof.
  unfold live_map, get_live. cbn. rewrite map_lookup_filter. destruct (wild_at r k !! p) as [l|]; [|done].
  cbn. destruct (live now l) eqn:Hl; [by rewrite option_guard_True|by rewrite option_guard_False by congruence].
Qed.

Lemma soleLiveWild_same r r' k now :
  same_live now r r' → soleLiveWild r k now = soleLiveWild r' k now.
Proof.
  intros (_ & _ & _ & H). rewrite !soleLiveWild_spec. f_equal. apply map_eq. intros p.
  by rewrite !live_map_lookup, H.
Qed.

(** The test for an empty port only saves work. *)
Lemma liveWild_spec r addr now :
  liveWild r addr now =
    match SplitHostPort addr with
    | None => None
    | Some (host, port) =>
        if bool_decide (port = "") then None
        else match podLoc r with
             | Some pl =>
                 match PodForIP pl host with
                 | None => None
                 | Some (ns, pod) =>
                     match liveWildPod r (String ":" port) (podIdent ns pod) now with
                     | Some l => Some l
                     | None => soleLiveWildForPod r (String ":" port) pod now
                     end
                 end
             | None => soleLiveWild r (String ":" port) now
             end
    end.
Proof.
  unfold liveWild. destruct (SplitHostPort addr) as [[host port]|]; [|done].
  case_bool_decide; [done|]. case_bool_decide as He; [|done].
  assert (Hs : soleLiveWild r (String ":" port) now = None).
  { unfold soleLiveWild, sole_loop. by rewrite He, map_to_list_empty. }
  unfold liveWildPod, soleLiveWildForPod. rewrite Hs, He.
  destruct (podLoc r) as [pl|]; [|done]. by destruct (PodForIP pl host) as [[??]|].
Qed.

Lemma liveExact_same r r' addr now : same_live now r r' → liveExact r addr now = liveExact r' addr now.
Proof.
  intros (Hpl & _ & _ & H). rewrite !liveExact_live, H. unfold stillOwns. by rewrite Hpl.
Qed.

Lemma liveWild_same r r' addr now : same_live now r r' → liveWild r addr now = liveWild r' addr now.
Proof.
  intros HS. pose proof HS as (Hpl & _ & _ & H). rewrite !liveWild_spec.
  destruct (SplitHostPort addr) as [[host port]|]; [|done]. rewrite Hpl, !(soleLiveWild_same r r') by done.
  case_bool_decide; [done|]. destruct (podLoc r') as [pl|]; [|done].
  destruct (PodForIP pl host) as [[ns pod]|]; [|done].
  rewrite !liveWildPod_live, H. unfold soleLiveWildForPod. by rewrite (soleLiveWild_same r r').
Qed.

Lemma live_backend_same r r' b now : same_live now r r' → live_backend r now b = live_backend r' now b.
Proof. intros HS. unfold live_backend. by rewrite (liveExact_same r r'), (liveWild_same r r'). Qed.

Lemma resolveVIP_same r r' bs s now : same_live now r r' → resolveVIP r bs s now = resolveVIP r' bs s now.
Proof.
  intros HS. unfold resolveVIP.
  assert (omap (live_backend r now) bs = omap (live_backend r' now) bs) as ->; [|done].
  induction bs as [|b bs IH]; [done|]. cbn. by rewrite (live_backend_same r r'), IH.
Qed.

Lemma Join_same r r' addr now : same_live now r r' → Join r addr now = Join r' addr now.
Proof.
  intros HS. pose proof HS as (_ & Hres & Hsvc & _). unfold Join, join_slice, join_vip.
  rewrite (liveExact_same r r'), (liveWild_same r r'), Hres, Hsvc by done.
  destruct (resolver r') as [er|]; [destruct (ResolvePodAddr er addr) as [pa|]|];
    rewrite ?(liveExact_same r r' pa), ?(liveWild_same r r' pa) by done;
    destruct (svc r') as [sv|]; [destruct (ResolveVIP sv addr) as [[[bs ns] name]|]| |
      destruct (ResolveVIP sv addr) as [[[bs ns] name]|]| | destruct (ResolveVIP sv addr) as [[[bs ns] name]|]|];
    rewrite ?(resolveVIP_same r r' bs) by done; done.
Qed.

Global Instance Join_proper now : Proper (same_live now ==> (=) ==> (=)) (λ r addr, Join r addr now).
Proof. intros r r' HS addr ? <-. by apply Join_same. Qed.

(** ** Where an answer comes from *)

Lemma liveExact_sound r addr now l : liveExact r addr now = Some l → get_live r now (SExact addr) = Some l.
Proof. rewrite liveExact_live. by case_all. Qed.

(** [l] is the only live wildcard listener on a port. *)
Definition sole_on (r : Registry) (now : Z) (k : string) (l : Listener) : Prop :=
  ∀ p l', get_live r now (SWild k p) = Some l' → l' = l.

Lemma sole_sound r k now l :
  soleLiveWild r k now = Some l → (∃ p, get_live r now (SWild k p) = Some l) ∧ sole_on r now k l.
Proof.
  rewrite soleLiveWild_spec. unfold sole_of. destruct (map_to_list _) as [|[p l'] [|??]] eqn:E; try done.
  intros [= <-]. split.
  - exists p. rewrite <-live_map_lookup. apply elem_of_map_to_list. rewrite E. left.
  - intros p' l2. rewrite <-live_map_lookup. intros Hl%elem_of_map_to_list. rewrite E in Hl.
    by apply list_elem_of_singleton in Hl as [= _ ->].
Qed.

(** Whose wildcard listener [l] is: that of the pod the index places the host on,
    or, when the port has no other, one of a pod of that name. *)
Lemma liveWild_sound r addr now l :
  liveWild r addr now = Some l →
  ∃ host port p, SplitHostPort addr = Some (host, port) ∧ get_live r now (SWild (String ":" port) p) = Some l ∧
    match podLoc r with
    | None => sole_on r now (String ":" port) l
    | Some pl => ∃ ns pod, PodForIP pl host = Some (ns, pod) ∧
        (p = podIdent ns pod ∨ l_Pod l = pod ∧ sole_on r now (String ":" port) l)
    end.
Proof.
  rewrite liveWild_spec. destruct (SplitHostPort addr) as [[host port]|]; [|done].
  case_bool_decide; [done|]. destruct (podLoc r) as [pl|] eqn:Hpl.
  - destruct (PodForIP pl host) as [[ns pod]|] eqn:Hloc; [|done].
    destruct (liveWildPod r _ _ now) as [l'|] eqn:Hw.
    + intros [= <-]. exists host, port, (podIdent ns pod). split_and!; [done..|]. exists ns, pod. auto.
    + unfold soleLiveWildForPod. destruct (soleLiveWild r _ now) as [l'|] eqn:Hs; [|done].
      case_bool_decide as Hp; [done|]. intros [= <-]. apply sole_sound in Hs as [[p Hs] Hsole].
      exists host, port, p. split_and!; [done..|]. exists ns, pod. split; [done|]. right.
      destruct (decide (l_Pod l' = pod)); tauto.
  - intros Hs. apply sole_sound in Hs as [[p Hs] Hsole]. by exists host, port, p.
Qed.

Lemma live_backend_sound r now b l : live_backend r now b = Some l → ∃ s, get_live r now s = Some l.
Proof.
  unfold live_backend. destruct (liveExact r b now) as [l'|] eqn:E.
  - intros [= <-]. eauto using liveExact_sound.
  - intros H. apply liveWild_sound in H as (host & port & p & _ & H & _). eauto.
Qed.

(** A join result is a live entry, marked with the Service when it came through
    one. *)
Definition marked (how : How) (l0 l : Listener) : Prop :=
  l = l0 ∨ (how = HowServiceVIP ∧ ∃ s amb n, l = set_service s amb n l0).

Lemma resolveVIP_sound r bs s now l :
  resolveVIP r bs s now = Some l →
  ∃ l0, l0 ∈ omap (live_backend r now) bs ∧ ∃ amb n, l = set_service s amb n l0.
Proof.
  unfold resolveVIP. destruct (omap (live_backend r now) bs) as [|rep [|l2 rest]]; [done|..].
  - intros [= <-]. exists rep. split; [left|eauto].
  - destruct (forallb _ _); [|done]. intros [= <-]. exists rep. split; [left|eauto].
Qed.

Lemma Join_sound r addr now l how :
  Join r addr now = Some (l, how) → ∃ s l0, get_live r now s = Some l0 ∧ marked how l0 l.
Proof.
  unfold Join. destruct (liveExact r addr now) as [l1|] eqn:E1.
  { intros [= <- <-]. exists (SExact addr), l1. split; [by apply liveExact_sound|by left]. }
  destruct (join_slice r addr now) as [l2|] eqn:E2.
  { intros [= <- <-]. unfold join_slice in E2. destruct (resolver r) as [er|]; [|done].
    destruct (ResolvePodAddr er addr) as [pa|]; [|done]. change (live_backend r now pa = Some l2) in E2.
    apply live_backend_sound in E2 as [s Hs]. exists s, l2. split; [done|by left]. }
  destruct (join_vip r addr now) as [l3|] eqn:E3.
  { intros [= <- <-]. unfold join_vip in E3. destruct (svc r) as [sv|]; [|done].
    destruct (ResolveVIP sv addr) as [[[bs ns] name]|]; [|done].
    apply resolveVIP_sound in E3 as (l0 & Hin & amb & n & ->).
    apply list_elem_of_omap in Hin as (b & _ & Hb). apply live_backend_sound in Hb as [s Hs].
    exists s, l0. split; [done|]. right. eauto. }
  destruct (liveWild r addr now) as [l4|] eqn:E4; [|done]. intros [= <- <-].
  apply liveWild_sound in E4 as (host & port & p & _ & H & _). eexists _, l4. split; [done|by left].
Qed.

Lemma last_word_observed T tr s l :
  last_word T tr s = Some l →
  ∃ t l0, (t, EObserve l0) ∈ tr ∧ slot_of l0 = Some s ∧ l = set_expires (t + T) l0.
Proof.
  unfold last_word. induction tr as [|[t e] tr IH] using rev_ind; [done|].
  rewrite foldl_app. cbn [foldl snd fst]. destruct e as [l0|l0|].
  - case_decide as Hs; intros H.
    + injection H as <-. exists t, l0. split_and!; [set_solver|done..].
    + destruct (IH H) as (t' & l' & Hin & ?). exists t', l'. split; [set_solver|done].
  - case_decide; [done|]. intros Hl. destruct (IH Hl) as (t' & l' & Hin & ?). exists t', l'. split; [set_solver|done].
  - intros H. destruct (IH H) as (t' & l' & Hin & ?). exists t', l'. split; [set_solver|done].
Qed.

Lemma run_slots r tr :
  (∀ s l, get r s = Some l → slot_of l = Some s) → ∀ s l, get (run r tr) s = Some l → slot_of l = Some s.
Proof.
  revert r. induction tr as [|[t e] tr IH]; intros r Hr; [done|].
  change (run r ((t, e) :: tr)) with (run (step r (t, e)) tr). apply IH.
  intros s l. destruct e as [l0|l0|]; cbn [step fst snd].
  - rewrite get_Observe. case_decide; [|apply Hr]. intros [= <-]. by rewrite slot_of_expires.
  - rewrite get_Remove. case_decide; [done|apply Hr].
  - rewrite get_Sweep. unfold get_live. intros H. case_all. by apply Hr.
Qed.

(** The sweeper of a new registry has a positive period, whatever it is asked for. *)
Lemma SweepEvery_runs t res sv interval ticks : is_Some (SweepEvery interval ticks (NewRegistry t res sv)).
Proof.
  unfold SweepEvery, sweep_interval, NewRegistry. cbn [ttl]. unfold DefaultTTL.
  repeat (case_bool_decide; try lia); eauto.
Qed.

Lemma get_new t res sv s : get (NewRegistry t res sv) s = None.
Proof. destruct s as [a|k p]; cbn; [apply lookup_empty|]. unfold wild_at. cbn. by rewrite !lookup_empty. Qed.

(** What holds of every advertised listener holds of every entry. *)
Lemma run_entries (P : Listener → Prop) r tr :
  (∀ s l, get r s = Some l → P l) →
  Forall (λ te, ∀ l0, te.2 = EObserve l0 → ∀ t, P (set_expires t l0)) tr →
  ∀ s l, get (run r tr) s = Some l → P l.
Proof.
  revert r. induction tr as [|[t e] tr IH]; intros r Hr Htr; [done|].
  apply Forall_cons in Htr as [He Htr].
  change (run r ((t, e) :: tr)) with (run (step r (t, e)) tr). apply IH; [|done].
  intros s l. destruct e as [l0|l0|]; cbn [step fst snd] in *.
  - rewrite get_Observe. case_decide; [|apply Hr]. intros [= <-]. by apply He.
  - rewrite get_Remove. case_decide; [done|apply Hr].
  - rewrite get_Sweep. unfold get_live. intros Hl. case_all. by eapply Hr.
Qed.

Lemma get_live_get r now s l : get_live r now s = Some l → get r s = Some l ∧ now < expires l.
Proof.
  unfold get_live, live. destruct (get r s) as [l'|]; [|done]. case_bool_decide; [|done]. by intros [= <-].
Qed.

Lemma Join_direct r addr now l : Join r addr now = Some (l, HowDirect) ↔ liveExact r addr now = Some l.
Proof.
  unfold Join. destruct (liveExact r addr now) as [l'|]; [naive_solver|].
  destruct (join_slice r addr now); [naive_solver|]. destruct (join_vip r addr now); [naive_solver|].
  destruct (liveWild r addr now); naive_solver.
Qed.

Lemma Join_wildcard r addr now l : Join r addr now = Some (l, HowWildcard) → liveWild r addr now = Some l.
Proof.
  unfold Join. destruct (liveExact r addr now); [done|]. destruct (join_slice r addr now); [done|].
  destruct (join_vip r addr now); [done|]. destruct (liveWild r addr now); naive_solver.
Qed.

(** ** Properties *)

(** C7: the registry is exactly the trace of what agents said: after any
    sequence of advertises, withdraws and sweeps a slot holds, if anything live,
    the last advertise filed there that no later withdraw retired; sweeps are
    never visible. *)
Theorem registry_refines_trace t0 res sv (tr : list (Z * event)) now s :
  Forall (λ te, te.1 ≤ now) tr →
  get_live (run (NewRegistry t0 res sv) tr) now s =
    if_live now (last_word (ttl (NewRegistry t0 res sv)) tr s).
Proof. intros Hle. apply run_refines; [apply get_new|done]. Qed.

(** A join never fabricates a peer: whatever the resolvers answer, the
    identity it returns was advertised within the TTL, is the last word on its
    slot, and is copied field by field. *)
Theorem join_backed_by_advertise t0 res sv (tr : list (Z * event)) now addr l how :
  Forall (λ te, te.1 ≤ now) tr →
  Join (run (NewRegistry t0 res sv) tr) addr now = Some (l, how) →
  ∃ t l0 s, (t, EObserve l0) ∈ tr ∧ slot_of l0 = Some s ∧
    last_word (ttl (NewRegistry t0 res sv)) tr s = Some (set_expires (t + ttl (NewRegistry t0 res sv)) l0) ∧
    t ≤ now < t + ttl (NewRegistry t0 res sv) ∧
    (PID l, Process l, l_Image l, l_NodeName l, l_Namespace l, l_Pod l, l_Container l) =
    (PID l0, Process l0, l_Image l0, l_NodeName l0, l_Namespace l0, l_Pod l0, l_Container l0).
Proof.
  intros Hle HJ. set (T := ttl (NewRegistry t0 res sv)).
  destruct (Join_sound _ _ _ _ _ HJ) as (s & l1 & Hs & Hm).
  assert (Hw : if_live now (last_word T tr s) = Some l1).
  { unfold T. rewrite <-run_refines by (done || apply get_new). exact Hs. }
  destruct (last_word T tr s) as [l2|] eqn:E; [|done].
  destruct (last_word_observed _ _ _ _ E) as (t & l0 & Hin & Hsl & ->).
  cbn in Hw. unfold live in Hw. case_bool_decide as Hlt; [|done]. injection Hw as <-. cbn in Hlt.
  exists t, l0, s. split_and!; try done.
  - rewrite Forall_forall in Hle. by apply (Hle _ Hin).
  - by destruct Hm as [->|(_ & sv' & amb & n & ->)].
Qed.

(** Reclaiming expired entries changes no join from then on. *)
Theorem sweep_invisible_to_join r t now addr : t ≤ now → Join (Sweep t r) addr now = Join r addr now.
Proof.
  intros Hle. apply Join_same. split_and!; try done. intros s. unfold get_live at 1.
  rewrite get_Sweep. unfold get_live. destruct (get r s) as [l|]; [|done].
  destruct (live t l) eqn:Ht; [done|]. destruct (live now l) eqn:Hn; [|done].
  by rewrite (live_mono t now) in Ht.
Qed.

Section pods.
(** A registry with a pod index, in a cluster whose namespaces hold no slash, which
    Kubernetes guarantees. *)
Context (t0 : Z) (res : option EndpointResolver) (sv : option ServiceResolver) (tr : list (Z * event)) (pl : PodLocator).
Context (Hpl : podLoc (NewRegistry t0 res sv) = Some pl).
Context (Hns : ∀ ip ns pod, PodForIP pl ip = Some (ns, pod) → has_byte "/" ns = false).
Context (Htr : Forall (λ te, ∀ l0, te.2 = EObserve l0 → has_byte "/" (l_Namespace l0) = false) tr).

Lemma pods_index : podLoc (run (NewRegistry t0 res sv) tr) = Some pl.
Proof using Hpl. by destruct (run_params (NewRegistry t0 res sv) tr) as (_ & -> & _). Qed.

Lemma pods_slot s l now : get_live (run (NewRegistry t0 res sv) tr) now s = Some l → slot_of l = Some s.
Proof using. intros [Hg _]%get_live_get. eapply run_slots; [|exact Hg]. intros s' l'. by rewrite get_new. Qed.

Lemma pods_wild port ns pod l now :
  get_live (run (NewRegistry t0 res sv) tr) now (SWild (String ":" port) (podIdent ns pod)) = Some l →
  has_byte "/" ns = false → l_Namespace l = ns ∧ l_Pod l = pod.
Proof using Htr.
  intros Hg Hs. assert (Hobs : has_byte "/" (l_Namespace l) = false).
  { apply get_live_get in Hg as [Hg _].
    eapply (run_entries (λ l, has_byte "/" (l_Namespace l) = false) (NewRegistry t0 res sv) tr); [| |exact Hg].
    - intros s l'. by rewrite get_new.
    - eapply Forall_impl; [exact Htr|]. cbn. auto. }
  apply pods_slot in Hg. unfold slot_of in Hg. case_all. unfold podIdent in *.
  match goal with H : _ +:+ String "/" _ = _ +:+ String "/" _ |- _ => apply sep_inj in H as [<- <-]; done end.
Qed.

(** C17: with a pod index, a wildcard match never crosses pods: the listener it
    names is that of the pod, by namespace and name, that owns the destination
    IP.  Only when the port has a single live wildcard listener may its namespace
    differ from the one the index gives, never its pod name; an IP the index does
    not place gets no wildcard match.  Namespaces hold no slash. *)
Theorem wildcard_never_crosses_pods now addr l :
  Join (run (NewRegistry t0 res sv) tr) addr now = Some (l, HowWildcard) →
  ∃ host port ns, SplitHostPort addr = Some (host, port) ∧ PodForIP pl host = Some (ns, l_Pod l) ∧
    (l_Namespace l = ns ∨ sole_on (run (NewRegistry t0 res sv) tr) now (String ":" port) l).
Proof using Hpl Hns Htr.
  intros HJ%Join_wildcard. destruct (liveWild_sound _ _ _ _ HJ) as (host & port & p & Haddr & Hg & Hp).
  rewrite pods_index in Hp. destruct Hp as (ns & pod & Hloc & Hp). exists host, port, ns. split; [done|].
  destruct Hp as [->|[-> Hsole]]; [|auto]. destruct (pods_wild _ _ _ _ _ Hg) as [-> ->]; [by eapply Hns|auto].
Qed.

(** The address in which a join looked for the listener it answers: the one it was
    asked for, the one the EndpointSlice index folded it to, or a backend of the
    Service. *)
Inductive looked_up (r : Registry) (addr : string) : How → string → Prop :=
| lu_direct : looked_up r addr HowDirect addr
| lu_slice er a : resolver r = Some er → ResolvePodAddr er addr = Some a → looked_up r addr HowEndpointslice a
| lu_vip sv' bs ns name b : svc r = Some sv' → ResolveVIP sv' addr = Some (bs, ns, name) → b ∈ bs →
    looked_up r addr HowServiceVIP b
| lu_wildcard : looked_up r addr HowWildcard addr.

(** [l] is not the entry of a pod other than the one the index places [a] on. *)
Definition names_owner (r : Registry) (now : Z) (a : string) (l : Listener) : Prop :=
  ∀ host port ns pod, SplitHostPort a = Some (host, port) → PodForIP pl host = Some (ns, pod) →
    (l_Namespace l = ns ∧ l_Pod l = pod) ∨ (Wildcard l = false ∧ l_Pod l = "") ∨
    (Wildcard l = true ∧ l_Pod l = pod ∧ sole_on r now (String ":" port) l).

Lemma exact_owner a now l :
  liveExact (run (NewRegistry t0 res sv) tr) a now = Some l → names_owner (run (NewRegistry t0 res sv) tr) now a l.
Proof using Hpl.
  intros HE host port ns pod Ha Hloc. pose proof (liveExact_sound _ _ _ _ HE) as Hg%pods_slot.
  rewrite liveExact_live in HE. destruct (get_live _ now _) as [l'|]; [|done].
  destruct (stillOwns _ l' a) eqn:Ho; [|done]. injection HE as ->. unfold stillOwns in Ho. rewrite pods_index, Ha, Hloc in Ho.
  case_bool_decide as Hp; [|left; by reflect_bools]. right. left. split; [|done]. unfold slot_of in Hg. by case_all.
Qed.

Lemma wild_owner a now l :
  liveWild (run (NewRegistry t0 res sv) tr) a now = Some l → names_owner (run (NewRegistry t0 res sv) tr) now a l.
Proof using Hpl Hns Htr.
  intros (host & port & p & Ha & Hg & Hp)%liveWild_sound host' port' ns pod Ha' Hloc. rewrite Ha in Ha'. injection Ha' as <- <-.
  rewrite pods_index, Hloc in Hp. destruct Hp as (? & ? & [= <- <-] & [->|[Hpod Hsole]]).
  - left. by eapply pods_wild, Hns.
  - right. right. split_and!; [|done..]. apply pods_slot in Hg. unfold slot_of in Hg. by case_all.
Qed.

Lemma backend_owner a now l :
  live_backend (run (NewRegistry t0 res sv) tr) now a = Some l → names_owner (run (NewRegistry t0 res sv) tr) now a l.
Proof using Hpl Hns Htr.
  unfold live_backend. destruct (liveExact _ a now) eqn:E; [intros [= <-]; by apply exact_owner|apply wild_owner].
Qed.

(** C18: no join answers for a recycled IP with the departed pod's entry: whichever
    way a join found its listener, when the pod index places the address it was
    looked up under on some pod, the listener is that pod's, by namespace and
    name.  The exceptions are an exact entry that names no pod, and the only live
    wildcard listener of the port, which must still carry the pod's name.
    Namespaces hold no slash. *)
Theorem recycled_ip_never_answers now addr l how :
  Join (run (NewRegistry t0 res sv) tr) addr now = Some (l, how) →
  ∃ a l0, looked_up (run (NewRegistry t0 res sv) tr) addr how a ∧ marked how l0 l ∧
    names_owner (run (NewRegistry t0 res sv) tr) now a l0.
Proof using Hpl Hns Htr.
  set (r := run (NewRegistry t0 res sv) tr). unfold Join. destruct (liveExact r addr now) as [l1|] eqn:E1.
  { intros [= <- <-]. exists addr, l1. split_and!; [constructor|by left|by apply exact_owner]. }
  destruct (join_slice r addr now) as [l2|] eqn:E2.
  { intros [= <- <-]. unfold join_slice in E2. destruct (resolver r) as [er|] eqn:Er; [|done].
    destruct (ResolvePodAddr er addr) as [pa|] eqn:Ep; [|done]. exists pa, l2.
    split_and!; [by econstructor|by left|by apply backend_owner]. }
  destruct (join_vip r addr now) as [l3|] eqn:E3.
  { intros [= <- <-]. unfold join_vip in E3. destruct (svc r) as [sv'|] eqn:Es; [|done].
    destruct (ResolveVIP sv' addr) as [[[bs ns] name]|] eqn:Ev; [|done].
    apply resolveVIP_sound in E3 as (l0 & (b & Hb & Hlb)%list_elem_of_omap & amb & n & ->). exists b, l0.
    split_and!; [by econstructor|right; eauto|by apply backend_owner]. }
  destruct (liveWild r addr now) as [l4|] eqn:E4; [|done]. intros [= <- <-].
  exists addr, l4. split_and!; [constructor|by left|by apply wild_owner].
Qed.
End pods.


(** An advertised concrete address is joined directly, with the advertised
    identity, until its TTL ends, unless the pod index contradicts it; once
    withdrawn, or once the TTL has ended, it is not. *)
Theorem advertise_join_withdraw r t l now :
  Addr l ≠ "" → Wildcard l = false →
  let r' := Observe t l r in
  (now < t + ttl r → stillOwns r l (Addr l) = true →
     Join r' (Addr l) now = Some (set_expires (t + ttl r) l, HowDirect)) ∧
  (t + ttl r ≤ now → ∀ l', Join r' (Addr l) now ≠ Some (l', HowDirect)) ∧
  (∀ l', Join (Remove l r') (Addr l) now ≠ Some (l', HowDirect)).
Proof.
  intros Ha Hw r'.
  assert (Hsl : slot_of l = Some (SExact (Addr l))).
  { unfold slot_of. by rewrite bool_decide_eq_false_2, Hw. }
  assert (Hdir : ∀ r0 addr l', get_live r0 now (SExact addr) = None → Join r0 addr now ≠ Some (l', HowDirect)).
  { intros r0 addr l' Hn. by rewrite Join_direct, liveExact_live, Hn. }
  assert (Hg : get r' (SExact (Addr l)) = Some (set_expires (t + ttl r) l)).
  { unfold r'. by rewrite get_Observe, decide_True. }
  assert (podLoc r' = podLoc r) as Hpl by apply (step_params r (t, EObserve l)). split_and!.
  - intros Hlt Ho. rewrite Join_direct, liveExact_live. unfold get_live. rewrite Hg. unfold live. cbn [expires set_expires].
    rewrite bool_decide_eq_true_2 by done.
    assert (stillOwns r' (set_expires (t + ttl r) l) (Addr l) = true) as ->; [|done].
    unfold stillOwns in *. rewrite Hpl. exact Ho.
  - intros Hle l'. apply Hdir. unfold get_live. rewrite Hg. unfold live. cbn [expires set_expires].
    by rewrite bool_decide_eq_false_2 by lia.
  - intros l'. apply Hdir. unfold get_live. by rewrite get_Remove, decide_True.
Qed.

(** A withdraw that names the same address, port, wildcard flag and pod
    identity as an advertise retires exactly the slot that advertise filled. *)
Theorem withdraw_undoes_advertise r t (adv wd : IntentEvent) l l' s :
  ListenerFromAdvertise (Some adv) = Some l → ListenerFromWithdraw (Some wd) = Some l' →
  (∀ k, k ∈ ["addr"; "port"; "wildcard"] → attr k (Attributes adv) = attr k (Attributes wd)) →
  GetNamespace (Meta adv) = GetNamespace (Meta wd) → GetPod (Meta adv) = GetPod (Meta wd) →
  get (Remove l' (Observe t l r)) s = if decide (slot_of l = Some s) then None else get r s.
Proof.
  intros Hl Hl' Hk Hns Hpod.
  assert (slot_of l' = slot_of l) as Hsl.
  { unfold ListenerFromAdvertise in Hl. unfold ListenerFromWithdraw in Hl'. case_all.
    unfold slot_of. cbn. by rewrite Hns, Hpod, !Hk by set_solver. }
  rewrite get_Remove, Hsl, get_Observe. by case_decide.
Qed.

(** A withdraw is matched by address alone: one that a departed pod sends
    late retires the entry of the pod that now holds the address. *)
Theorem late_withdraw_evicts_successor r t (la lb : Listener) now :
  Addr la ≠ "" → Addr la = Addr lb → Wildcard la = false → Wildcard lb = false → l_Pod la ≠ l_Pod lb →
  liveExact (Remove la (Observe t lb r)) (Addr lb) now = None.
Proof.
  intros Ha Heq Hwa Hwb _. rewrite liveExact_live. unfold get_live. rewrite get_Remove, decide_True; [done|].
  unfold slot_of. by rewrite bool_decide_eq_false_2, Hwa, Heq.
Qed.

(** ** Witnesses *)

Module Demo.
Definition pl : PodLocator := mkPodLocator (λ ip,
  if bool_decide (ip = "10.0.0.1") then Some ("shop", "cart-1")
  else if bool_decide (ip = "10.0.0.2") then Some ("shop", "cart-2") else None).
Definition res : EndpointResolver := mkEndpointResolver (λ _, None) (Some pl).
Definition sv : ServiceResolver := mkServiceResolver (λ a,
  if bool_decide (a = "10.96.0.9:80") then Some (["10.0.0.1:8080"; "10.0.0.2:8080"], "shop", "cart") else None).
Definition r0 : Registry := NewRegistry 30 (Some res) (Some sv).
Definition lis (addr port pod : string) (w : bool) : Listener :=
  mkListener addr port "7" "cartd" w "node-1" "shop" pod "c" "id" "cart:1" (mkServiceRef "" "") false 0 0.
Definition exact1 : Listener := lis "10.0.0.1:8080" "8080" "cart-1" false.
Definition wild2 : Listener := lis "0.0.0.0:9090" "9090" "cart-2" true.
Definition exact2 : Listener := lis "10.0.0.2:8080" "8080" "cart-2" false.
Definition old2 : Listener := lis "10.0.0.2:8080" "8080" "gone-0" false.
Definition tr : list (Z * event) :=
  [(1, EObserve exact1); (2, EObserve wild2); (3, EObserve exact2); (20, ESweep)].
Definition adv : IntentEvent :=
  mkIntent KindListenerAdvertise (list_to_map [("addr", "10.0.0.1:8080"); ("port", "8080")])
    (Some (mkMeta "node-1" "shop" "cart-1" "c" "id" "cart:1" "")) [] 0 1%Q "".
Definition wd : IntentEvent :=
  mkIntent KindListenerWithdraw (list_to_map [("addr", "10.0.0.1:8080"); ("port", "8080")])
    (Some (mkMeta "node-1" "shop" "cart-1" "" "" "" "")) [] 0 1%Q "".

Definition tr_old : list (Z * event) := [(1, EObserve exact1); (2, EObserve old2)].

Lemma pl_plain ip ns pod : PodForIP pl ip = Some (ns, pod) → has_byte "/" ns = false.
Proof. unfold pl. cbn. repeat case_bool_decide; intros [= <- <-]; reflexivity. Qed.
Lemma tr_plain : Forall (λ te : Z * event, ∀ l0, te.2 = EObserve l0 → has_byte "/" (l_Namespace l0) = false) tr.
Proof. repeat constructor; intros l0 [= <-]; reflexivity. Qed.

Lemma tr_before now : 20 ≤ now → Forall (λ te : Z * event, te.1 ≤ now) tr.
Proof. intros. repeat constructor; cbn; lia. Qed.
End Demo.

Lemma registry_refines_trace_witness :
  get_live (run Demo.r0 Demo.tr) 25 (SExact "10.0.0.1:8080") = Some (set_expires 31 Demo.exact1).
Proof.
  unfold Demo.r0. rewrite (registry_refines_trace 30 (Some Demo.res) (Some Demo.sv) Demo.tr 25).
  - vm_compute. reflexivity.
  - apply Demo.tr_before. lia.
Defined.

(** Through the Service address: both replicas are live and agree. *)
Lemma join_backed_by_advertise_witness :
  ∃ t l0, (t, EObserve l0) ∈ Demo.tr ∧ t ≤ 25 < t + 30 ∧ Process l0 = "cartd".
Proof.
  destruct (join_backed_by_advertise 30 (Some Demo.res) (Some Demo.sv) Demo.tr 25 "10.96.0.9:80"
    (set_service (mkServiceRef "shop" "cart") true 2 (set_expires 31 Demo.exact1)) HowServiceVIP)
    as (t & l0 & s & Hin & _ & _ & Ht & Heq).
  - apply Demo.tr_before. lia.
  - vm_compute. reflexivity.
  - exists t, l0. split; [exact Hin|]. split; [exact Ht|]. injection Heq as _ <- _ _ _ _ _. reflexivity.
Defined.

Lemma sweep_invisible_to_join_witness :
  Join (Sweep 40 (run Demo.r0 Demo.tr)) "10.0.0.1:8080" 45 = Join (run Demo.r0 Demo.tr) "10.0.0.1:8080" 45.
Proof. apply (sweep_invisible_to_join (run Demo.r0 Demo.tr) 40 45 "10.0.0.1:8080"). lia. Defined.

Lemma wildcard_never_crosses_pods_witness :
  ∃ host port ns, SplitHostPort "10.0.0.2:9090" = Some (host, port) ∧ PodForIP Demo.pl host = Some (ns, "cart-2") ∧
    ("shop" = ns ∨ sole_on (run Demo.r0 Demo.tr) 25 (String ":" port) (set_expires 32 Demo.wild2)).
Proof.
  apply (wildcard_never_crosses_pods 30 (Some Demo.res) (Some Demo.sv) Demo.tr Demo.pl eq_refl Demo.pl_plain Demo.tr_plain
    25 "10.0.0.2:9090" (set_expires 32 Demo.wild2)).
  vm_compute. reflexivity.
Defined.

(** The entry of a departed pod that still sits at the address is not answered. *)
Lemma recycled_ip_never_answers_witness :
  Join (run Demo.r0 Demo.tr_old) "10.0.0.2:8080" 25 = None ∧
  ∃ a l0, looked_up (run Demo.r0 Demo.tr) "10.0.0.1:8080" HowDirect a ∧ marked HowDirect l0 (set_expires 31 Demo.exact1) ∧
    names_owner Demo.pl (run Demo.r0 Demo.tr) 25 a l0.
Proof.
  split; [vm_compute; reflexivity|].
  apply (recycled_ip_never_answers 30 (Some Demo.res) (Some Demo.sv) Demo.tr Demo.pl).
  - reflexivity.
  - exact Demo.pl_plain.
  - exact Demo.tr_plain.
  - vm_compute. reflexivity.
Defined.

Lemma advertise_join_withdraw_witness :
  Join (Observe 1 Demo.exact1 Demo.r0) "10.0.0.1:8080" 5 = Some (set_expires 31 Demo.exact1, HowDirect).
Proof.
  apply (advertise_join_withdraw Demo.r0 1 Demo.exact1 5).
  - discriminate.
  - reflexivity.
  - vm_compute. reflexivity.
  - vm_compute. reflexivity.
Defined.

Lemma withdraw_undoes_advertise_witness :
  ∃ l l', ListenerFromAdvertise (Some Demo.adv) = Some l ∧ ListenerFromWithdraw (Some Demo.wd) = Some l' ∧
    get (Remove l' (Observe 1 l Demo.r0)) (SExact "10.0.0.1:8080") = None.
Proof.
  eexists _, _. split; [vm_compute; reflexivity|]. split; [vm_compute; reflexivity|].
  rewrite (withdraw_undoes_advertise Demo.r0 1 Demo.adv Demo.wd).
  - vm_compute. reflexivity.
  - vm_compute. reflexivity.
  - vm_compute. reflexivity.
  - intros k Hk. rewrite !elem_of_cons in Hk.
    destruct Hk as [->|[->|[->|Hk]]]; [vm_compute; reflexivity..|by apply not_elem_of_nil in Hk].
  - reflexivity.
  - reflexivity.
Defined.

Lemma late_withdraw_evicts_successor_witness :
  liveExact (Remove Demo.old2 (Observe 3 Demo.exact2 Demo.r0)) "10.0.0.2:8080" 5 = None.
Proof.
  apply (late_withdraw_evicts_successor Demo.r0 3 Demo.old2 Demo.exact2 5).
  - discriminate.
  - reflexivity.
  - reflexivity.
  - reflexivity.
  - discriminate.
Defined.
