(* ===== verification/K8s.v ===== *)
(** * Decoding Kubernetes objects

    The JSON values the API server sends and the decode shapes of
    src/internal/aggregator/discovery (service.go, endpointslice.go).  A value is
    a parsed JSON document; objects carry distinct keys, as the API server's do.
    Decoding follows encoding/json: a missing or null field is the zero value, a
    value of the wrong type makes the whole decode fail, unknown fields are
    ignored. *)
From stdpp Require Import base numbers gmap strings list.
From S2P Require Import Prelude.
Local Open Scope Z_scope.

Inductive json :=
| JNull
| JBool (b : bool)
| JNum (z : Z)
| JStr (s : string)
| JArr (l : list json)
| JObj (fs : list (string * json)).

Definition jget (k : string) (fs : list (string * json)) : option json :=
  snd <$> (snd <$> list_find (λ kv : string * json, kv.1 = k) fs).

(** The value of field [k] of a JSON object, decoded by [dec]. *)
Definition fld {A} (k : string) (zero : A) (dec : json → option A) (j : json) : option A :=
  match j with
  | JObj fs => match jget k fs with None => Some zero | Some v => dec v end
  | JNull => Some zero
  | _ => None
  end.

Definition dec_string (j : json) : option string :=
  match j with JStr s => Some s | JNull => Some "" | _ => None end.
Definition dec_bool (j : json) : option bool :=
  match j with JBool b => Some b | JNull => Some false | _ => None end.
Definition dec_bool_ptr (j : json) : option (option bool) :=
  match j with JBool b => Some (Some b) | JNull => Some None | _ => None end.
Definition dec_int32 (j : json) : option Z :=
  match j with
  | JNum z => if bool_decide (- 2 ^ 31 ≤ z < 2 ^ 31) then Some z else None
  | JNull => Some 0
  | _ => None
  end.
Definition dec_list {A} (dec : json → option A) (j : json) : option (list A) :=
  match j with JArr l => mapM dec l | JNull => Some [] | _ => None end.

Definition dec_labels (j : json) : option (gmap string string) :=
  match j with
  | JObj fs => list_to_map <$> mapM (λ kv : string * json, pair kv.1 <$> dec_string kv.2) fs
  | JNull => Some ∅
  | _ => None
  end.

(** ** Pods *)

Record podObject := mkPod {
  po_Name : string;
  po_Namespace : string;
  po_HostNetwork : bool;
  po_PodIP : string;
  po_PodIPs : list string;
  po_Phase : string;
}.

Definition dec_pod (j : json) : option podObject :=
  match fld "metadata" JNull Some j, fld "spec" JNull Some j, fld "status" JNull Some j with
  | Some m, Some sp, Some st =>
      match fld "name" "" dec_string m, fld "namespace" "" dec_string m, fld "hostNetwork" false dec_bool sp,
            fld "podIP" "" dec_string st, fld "podIPs" [] (dec_list (fld "ip" "" dec_string)) st,
            fld "phase" "" dec_string st with
      | Some n, Some ns, Some h, Some ip, Some ips, Some ph => Some (mkPod n ns h ip ips ph)
      | _, _, _, _, _, _ => None
      end
  | _, _, _ => None
  end.

(** ** Services *)

Record svcPort := mkSvcPort { sp_Name : string; sp_Port : Z }.

Definition dec_port (j : json) : option svcPort :=
  match fld "name" "" dec_string j, fld "port" 0 dec_int32 j with
  | Some n, Some p => Some (mkSvcPort n p)
  | _, _ => None
  end.

Record serviceObject := mkService {
  so_Namespace : string;
  so_Name : string;
  so_ClusterIP : string;
  so_ClusterIPs : list string;
  so_Ports : list svcPort;
}.

Definition dec_service (j : json) : option serviceObject :=
  match fld "metadata" JNull Some j, fld "spec" JNull Some j with
  | Some m, Some sp =>
      match fld "namespace" "" dec_string m, fld "name" "" dec_string m, fld "clusterIP" "" dec_string sp,
            fld "clusterIPs" [] (dec_list dec_string) sp, fld "ports" [] (dec_list dec_port) sp with
      | Some ns, Some n, Some ip, Some ips, Some ps => Some (mkService ns n ip ips ps)
      | _, _, _, _, _ => None
      end
  | _, _ => None
  end.

(** ** EndpointSlices *)

Record targetRef := mkTargetRef { tr_Kind : string; tr_Namespace : string; tr_Name : string }.

Record svcSliceEndpoint := mkSliceEndpoint {
  se_Addresses : list string;
  se_Ready : option bool;
  se_Terminating : option bool;
  se_TargetRef : option targetRef;
}.

Record svcSliceObject := mkSlice {
  sl_Namespace : string;
  sl_Labels : gmap string string;
  sl_Ports : list svcPort;
  sl_Endpoints : list svcSliceEndpoint;
}.

Definition dec_target_ref (j : json) : option (option targetRef) :=
  match j with
  | JNull => Some None
  | _ =>
      match fld "kind" "" dec_string j, fld "namespace" "" dec_string j, fld "name" "" dec_string j with
      | Some k, Some ns, Some n => Some (Some (mkTargetRef k ns n))
      | _, _, _ => None
      end
  end.

Definition dec_endpoint (j : json) : option svcSliceEndpoint :=
  match fld "addresses" [] (dec_list dec_string) j, fld "conditions" JNull Some j,
        fld "targetRef" None dec_target_ref j with
  | Some a, Some c, Some t =>
      match fld "ready" None dec_bool_ptr c, fld "terminating" None dec_bool_ptr c with
      | Some r, Some te => Some (mkSliceEndpoint a r te t)
      | _, _ => None
      end
  | _, _, _ => None
  end.

Definition dec_slice (j : json) : option svcSliceObject :=
  match fld "metadata" JNull Some j with
  | Some m =>
      match fld "namespace" "" dec_string m,
            fld "labels" ∅ dec_labels m,
            fld "ports" [] (dec_list dec_port) j, fld "endpoints" [] (dec_list dec_endpoint) j with
      | Some ns, Some ls, Some ps, Some es => Some (mkSlice ns ls ps es)
      | _, _, _, _ => None
      end
  | None => None
  end.

(** ** Object identity *)

Record objMeta := mkObjMeta { om_Namespace : string; om_Name : string }.

Definition dec_meta (j : json) : option objMeta :=
  match fld "metadata" JNull Some j with
  | Some m =>
      match fld "namespace" "" dec_string m, fld "name" "" dec_string m with
      | Some ns, Some n => Some (mkObjMeta ns n)
      | _, _ => None
      end
  | None => None
  end.
