(* ===== verification/Discovery.v ===== *)
(** * discovery: the pod index, the Service index and their watchers

    Model of src/internal/aggregator/discovery/podindex.go and service.go.  The
    watchers keep the objects of one resource in a map and rebuild an index from
    all of them after every change; Go ranges over that map in any order, so the
    rebuilding functions take the values as a list in the order visited. *)
From Stdlib Require Import Ascii.
From stdpp Require Import base numbers gmap strings sorting relations fin_maps list.
From S2P Require Import Prelude GoStr Json Pb ClusterPeers K8s.
Local Open Scope Z_scope.

(** ** PodEndpointIndex *)

Record podRef := mkPodRef { pr_namespace : string; pr_pod : string }.

Record PodEndpointIndex := mkPodIndex {
  addrs : gset string;
  ports : gmap string (list string);
  byIP : gmap string podRef;
  podIP : gmap string podRef;
}.

Record PodIdentity := mkPodIdentity { pi_IP : string; pi_Namespace : string; pi_Pod : string }.

Record PodEndpointEntry := mkPodEntry {
  pe_IP : string;
  pe_Ports : list Z;
  pe_Namespace : string;
  pe_Pod : string;
}.

Definition NewPodEndpointIndex : PodEndpointIndex := mkPodIndex ∅ ∅ ∅ ∅.

Definition ReplacePodIdentities (pods : list PodIdentity) (idx : PodEndpointIndex) : PodEndpointIndex :=
  let m := foldl (λ m p, if bool_decide (pi_IP p = "") || bool_decide (pi_Pod p = "") then m
                         else <[pi_IP p := mkPodRef (pi_Namespace p) (pi_Pod p)]> m) ∅ pods in
  mkPodIndex (addrs idx) (ports idx) (byIP idx) m.

Fixpoint contains (s : list string) (v : string) : bool :=
  match s with [] => false | e :: s' => bool_decide (e = v) || contains s' v end.

(** "ip:port" as the sources build it, without brackets. *)
Definition ip_port (ip port : string) : string := ip +:+ String ":" port.

(** One iteration of the port loop, and of the entry loop, of [Replace]. *)
Definition replace_port (ip : string) (acc : gset string * gmap string (list string)) (p : Z)
    : gset string * gmap string (list string) :=
  let ps := Itoa p in
  let cur := default [] (acc.2 !! ip) in
  ({[ip_port ip ps]} ∪ acc.1, if contains cur ps then acc.2 else <[ip := cur ++ [ps]]> acc.2).

Definition replace_entry (idx : PodEndpointIndex) (e : PodEndpointEntry) : PodEndpointIndex :=
  let '(a, p) := foldl (replace_port (pe_IP e)) (addrs idx, ports idx) (pe_Ports e) in
  mkPodIndex a p
    (if bool_decide (pe_Pod e ≠ "") then <[pe_IP e := mkPodRef (pe_Namespace e) (pe_Pod e)]> (byIP idx)
     else byIP idx) (podIP idx).

Definition Replace (entries : list PodEndpointEntry) (idx : PodEndpointIndex) : PodEndpointIndex :=
  foldl replace_entry (mkPodIndex ∅ ∅ ∅ (podIP idx)) entries.

Definition ResolvePodAddr (idx : PodEndpointIndex) (connectAddr : string) : option string :=
  match SplitHostPort connectAddr with
  | None => None
  | Some (host, port) =>
      if bool_decide (connectAddr ∈ addrs idx) then Some connectAddr
      else
        match default [] (ports idx !! host) with
        | [] => None
        | (p :: rest) as ps =>
            if contains ps port then Some connectAddr
            else match rest with [] => Some (ip_port host p) | _ :: _ => None end
        end
  end.

Definition PodForIP (idx : PodEndpointIndex) (ip : string) : option (string * string) :=
  match byIP idx !! ip with
  | Some r => Some (pr_namespace r, pr_pod r)
  | None => match podIP idx !! ip with
            | Some r => Some (pr_namespace r, pr_pod r)
            | None => None
            end
  end.

Definition Len (idx : PodEndpointIndex) : Z := Z.of_nat (size (addrs idx)).

(** The index as the resolver the registry consults. *)
Definition pod_resolver (idx : PodEndpointIndex) : EndpointResolver :=
  mkEndpointResolver (ResolvePodAddr idx) (Some (mkPodLocator (PodForIP idx))).

(** ** ServiceIndex *)

Record svcPortRef := mkPortRef { pf_port : Z; pf_name : string }.

Record serviceEntry := mkServiceEntry {
  en_namespace : string;
  en_name : string;
  en_ports : list svcPortRef;
}.

Record sliceGroup := mkSliceGroup {
  sg_ports : gmap string Z;
  sg_podIPs : list string;
}.

Record ServiceIndex := mkServiceIndex {
  services : gmap string serviceEntry;
  slices : gmap string sliceGroup;
}.

Definition NewServiceIndex : ServiceIndex := mkServiceIndex ∅ ∅.
Definition SetServices (m : gmap string serviceEntry) (idx : ServiceIndex) : ServiceIndex :=
  mkServiceIndex m (slices idx).
Definition SetSlices (m : gmap string sliceGroup) (idx : ServiceIndex) : ServiceIndex :=
  mkServiceIndex (services idx) m.

Definition svc_key (namespace name : string) : string := namespace +:+ String "/" name.

Definition find_port (port : Z) (ps : list svcPortRef) : option string :=
  pf_name <$> (snd <$> list_find (λ p, pf_port p = port) ps).

Definition ResolveVIP (idx : ServiceIndex) (addr : string) : option (list string * string * string) :=
  match SplitHostPort addr with
  | None => None
  | Some (host, portStr) =>
      match Atoi portStr with
      | None => None
      | Some port =>
          match services idx !! host with
          | None => None
          | Some svc =>
              match find_port port (en_ports svc) with
              | None => None
              | Some portName =>
                  match slices idx !! svc_key (en_namespace svc) (en_name svc) with
                  | None => None
                  | Some grp =>
                      match sg_ports grp !! portName with
                      | None => None
                      | Some tp =>
                          if bool_decide (tp = 0) then None
                          else if bool_decide (sg_podIPs grp = []) then None
                          else Some ((λ ip, ip_port ip (Itoa tp)) <$> sg_podIPs grp,
                                     en_namespace svc, en_name svc)
                      end
                  end
              end
          end
      end
  end.

Definition NumServices (idx : ServiceIndex) : Z := Z.of_nat (size (services idx)).

Definition service_resolver (idx : ServiceIndex) : ServiceResolver := mkServiceResolver (ResolveVIP idx).

(** ** Rebuilding the indexes from the watched objects *)

Definition pod_ips (po : podObject) : list string :=
  (if bool_decide (po_PodIP po ≠ "") then [po_PodIP po] else []) ++
  filter (λ ip, ip ≠ "" ∧ ip ≠ po_PodIP po) (po_PodIPs po).

Definition pod_identities (j : json) : list PodIdentity :=
  match dec_pod j with
  | None => []
  | Some po =>
      if bool_decide (po_Name po = "") || po_HostNetwork po || bool_decide (po_Phase po ≠ "Running") then []
      else (λ ip, mkPodIdentity ip (po_Namespace po) (po_Name po)) <$> pod_ips po
  end.

Definition applyPods (vals : list json) (idx : PodEndpointIndex) : PodEndpointIndex :=
  ReplacePodIdentities (vals ≫= pod_identities) idx.

Definition clusterIPsOf (so : serviceObject) : list string :=
  foldl (λ out ip, if bool_decide (ip = "") || bool_decide (ip = "None") || bool_decide (ip ∈ out) then out
                   else out ++ [ip]) [] (so_ClusterIP so :: so_ClusterIPs so).

Definition service_ports (so : serviceObject) : list svcPortRef :=
  (λ p, mkPortRef (sp_Port p) (sp_Name p)) <$> filter (λ p, sp_Port p ≠ 0) (so_Ports so).

Definition apply_service (out : gmap string serviceEntry) (j : json) : gmap string serviceEntry :=
  match dec_service j with
  | None => out
  | Some so =>
      if bool_decide (so_Name so = "") then out
      else match service_ports so with
           | [] => out
           | ps => foldl (λ m ip, <[ip := mkServiceEntry (so_Namespace so) (so_Name so) ps]> m) out (clusterIPsOf so)
           end
  end.

Definition applyServices (vals : list json) (idx : ServiceIndex) : ServiceIndex :=
  SetServices (foldl apply_service ∅ vals) idx.

Definition sliceEndpointReady (ready terminating : option bool) : bool :=
  match ready with
  | None => match terminating with None => true | Some t => negb t end
  | Some r => r
  end.

Definition ready_endpoints (so : svcSliceObject) : list svcSliceEndpoint :=
  filter (λ e, sliceEndpointReady (se_Ready e) (se_Terminating e) = true) (sl_Endpoints so).

Definition service_label : string := "kubernetes.io/service-name".
Definition svc_name_of (so : svcSliceObject) : string := default "" (sl_Labels so !! service_label).

(** The accumulator of [applySlices]: ports by name and the set of ready IPs. *)
Record acc := mkAcc { ac_ports : gmap string Z; ac_ips : gset string }.

Definition acc_add (g : acc) (so : svcSliceObject) : acc :=
  mkAcc (foldl (λ m p, if bool_decide (sp_Port p ≠ 0) then <[sp_Name p := sp_Port p]> m else m) (ac_ports g) (sl_Ports so))
        (list_to_set (ready_endpoints so ≫= se_Addresses) ∪ ac_ips g).

Definition apply_slice (groups : gmap string acc) (j : json) : gmap string acc :=
  match dec_slice j with
  | None => groups
  | Some so =>
      if bool_decide (svc_name_of so = "") then groups
      else
        let key := svc_key (sl_Namespace so) (svc_name_of so) in
        <[key := acc_add (default (mkAcc ∅ ∅) (groups !! key)) so]> groups
  end.

Definition group_of (g : acc) : sliceGroup :=
  mkSliceGroup (ac_ports g) (merge_sort String.le (elements (ac_ips g))).

Fixpoint containsPort (s : list Z) (v : Z) : bool :=
  match s with [] => false | e :: s' => bool_decide (e = v) || containsPort s' v end.

Definition add_port (ps : list Z) (p : Z) : list Z := if containsPort ps p then ps else ps ++ [p].

(** One address of a ready endpoint with a Pod target. *)
Definition pod_entry_ip (pts : list Z) (ns pod : string) (m : gmap string PodEndpointEntry) (ip : string)
    : gmap string PodEndpointEntry :=
  let e := default (mkPodEntry ip [] ns pod) (m !! ip) in
  <[ip := mkPodEntry (pe_IP e) (foldl add_port (pe_Ports e) pts) (pe_Namespace e) (pe_Pod e)]> m.

Definition pod_entry_slice (m : gmap string PodEndpointEntry) (j : json) : gmap string PodEndpointEntry :=
  match dec_slice j with
  | None => m
  | Some so =>
      let pts := filter (λ p, p ≠ 0) (sp_Port <$> sl_Ports so) in
      foldl (λ m ep,
        match se_TargetRef ep with
        | Some t =>
            if bool_decide (tr_Kind t ≠ "Pod") || bool_decide (tr_Name t = "") then m
            else
              let ns := if bool_decide (tr_Namespace t = "") then sl_Namespace so else tr_Namespace t in
              foldl (pod_entry_ip pts ns (tr_Name t)) m (se_Addresses ep)
        | None => m
        end) m (ready_endpoints so)
  end.

Definition podEntriesFromSlices (vals : list json) : list PodEndpointEntry :=
  let m := foldl pod_entry_slice ∅ vals in
  (λ e, mkPodEntry (pe_IP e) (merge_sort Z.le (pe_Ports e)) (pe_Namespace e) (pe_Pod e)) <$>
    merge_sort (λ e1 e2, String.le (pe_IP e1) (pe_IP e2)) (map_to_list m).*2.

(** [applySlices] ranges twice over the state, once for each index. *)
Definition applySlices (vals vals' : list json) (idx : ServiceIndex) (pidx : option PodEndpointIndex)
    : ServiceIndex * option PodEndpointIndex :=
  (SetSlices (group_of <$> foldl apply_slice ∅ vals) idx, Replace (podEntriesFromSlices vals') <$> pidx).

(** ** List and watch *)

Definition keyOf (j : json) : option string :=
  match dec_meta j with
  | None => None
  | Some m => if bool_decide (om_Name m = "") then None else Some (svc_key (om_Namespace m) (om_Name m))
  end.

(** [list]: the state becomes the listed items. *)
Definition list_state (items : list json) : gmap string json :=
  foldl (λ m j, match keyOf j with Some k => <[k := j]> m | None => m end) ∅ items.

(** A line of the watch stream, and what one iteration of the loop does with
    it: go on (having applied a change or not) or stop with an error. *)
Inductive watch_line := WLBad | WLEvent (type : string) (obj : json).
Inductive watch_out := WOApply | WOSkip | WOErr.

Definition watch_line_step (ln : watch_line) (state : gmap string json) : gmap string json * watch_out :=
  match ln with
  | WLBad => (state, WOErr)
  | WLEvent ty obj =>
      if bool_decide (ty = "ADDED") || bool_decide (ty = "MODIFIED") then
        (match keyOf obj with Some k => <[k := obj]> state | None => state end, WOApply)
      else if bool_decide (ty = "DELETED") then
        (match keyOf obj with Some k => delete k state | None => state end, WOApply)
      else if bool_decide (ty = "BOOKMARK") then (state, WOSkip)
      else if bool_decide (ty = "ERROR") then (state, WOErr)
      else (state, WOSkip)
  end.

(** How a watch ends: the context was cancelled or the stream ended cleanly
    (both return nil), or an error. *)
Inductive watch_end := WCancelled | WCleanEOF | WError.

(** The scan loop: [lines] with, for each, whether the context is cancelled when
    it is read; [scan_ok] tells whether the scanner ended without an error. *)
Fixpoint watch_scan (lines : list (bool * watch_line)) (scan_ok : bool) (state : gmap string json)
    (applied : list (gmap string json)) : gmap string json * list (gmap string json) * watch_end :=
  match lines with
  | [] => (state, applied, if scan_ok then WCleanEOF else WError)
  | (cancelled, ln) :: rest =>
      if cancelled : bool then (state, applied, WCancelled)
      else match watch_line_step ln state with
           | (_, WOErr) => (state, applied, WError)
           | (st', WOSkip) => watch_scan rest scan_ok st' applied
           | (st', WOApply) => watch_scan rest scan_ok st' (applied ++ [st'])
           end
  end.

Definition watch_err (e : watch_end) : bool := match e with WError => true | _ => false end.
