(* ===== verification/AgentDiscovery.v ===== *)
(** * discovery: the agent fleet from EndpointSlices

    Model of src/internal/aggregator/discovery/endpointslice.go: the watcher of
    one Service's slices and the endpoint list it emits on every change. *)
From Stdlib Require Import Ascii.
From stdpp Require Import base numbers gmap strings sorting relations fin_maps list.
From S2P Require Import Prelude GoStr Json K8s Discovery.
Local Open Scope Z_scope.

Record Endpoint := mkEndpoint { ep_Name : string; ep_Addr : string }.

Record sliceEndpoint := mkAgentEndpoint {
  ae_Addresses : list string;
  ae_Ready : option bool;
  ae_Terminating : option bool;
}.

Record sliceObject := mkSliceObject {
  as_Name : string;
  as_Ports : list svcPort;
  as_Endpoints : list sliceEndpoint;
}.

Definition dec_agent_endpoint (j : json) : option sliceEndpoint :=
  match fld "addresses" [] (dec_list dec_string) j, fld "conditions" JNull Some j,
        fld "nodeName" "" dec_string j with
  | Some a, Some c, Some _ =>
      match fld "ready" None dec_bool_ptr c, fld "serving" None dec_bool_ptr c,
            fld "terminating" None dec_bool_ptr c with
      | Some r, Some _, Some t => Some (mkAgentEndpoint a r t)
      | _, _, _ => None
      end
  | _, _, _ => None
  end.

Definition dec_agent_slice (j : json) : option sliceObject :=
  match fld "metadata" JNull Some j with
  | Some m =>
      match fld "name" "" dec_string m, fld "addressType" "" dec_string j,
            fld "ports" [] (dec_list dec_port) j, fld "endpoints" [] (dec_list dec_agent_endpoint) j with
      | Some n, Some _, Some ps, Some es => Some (mkSliceObject n ps es)
      | _, _, _, _ => None
      end
  | None => None
  end.

(** ** flatten *)

Definition pickPort (s : sliceObject) (want : Z) : Z :=
  match as_Ports s with
  | p :: _ => if bool_decide (want = 0) then sp_Port p
              else if bool_decide (want ∈ sp_Port <$> as_Ports s) then want else 0
  | [] => 0
  end.

Definition endpointReady (ep : sliceEndpoint) : bool :=
  match ae_Ready ep with
  | None => match ae_Terminating ep with None => true | Some t => negb t end
  | Some r => r
  end.

Definition flatten_one (targetPort : Z) (s : sliceObject) : list Endpoint :=
  let port := pickPort s targetPort in
  if bool_decide (port = 0) then []
  else filter (λ ep, endpointReady ep = true) (as_Endpoints s) ≫= λ ep,
         (λ addr, mkEndpoint (as_Name s +:+ String "/" addr) (ip_port addr (Itoa port))) <$> ae_Addresses ep.

Definition addr_le (e1 e2 : Endpoint) : Prop := String.le (ep_Addr e1) (ep_Addr e2).
Global Instance addr_le_dec : RelDecision addr_le.
Proof. intros e1 e2. unfold addr_le. apply _. Defined.

Definition flatten (vals : list sliceObject) (targetPort : Z) : list Endpoint :=
  merge_sort addr_le (vals ≫= flatten_one targetPort).

(** ** List and watch *)

(** [list]: a decode failure of any item fails the whole call and leaves the
    state as it was. *)
Definition list_agents (items : json) : option (gmap string sliceObject) :=
  foldl (λ m s, <[as_Name s := s]> m) ∅ <$> fld "items" [] (dec_list dec_agent_slice) items.

Inductive agent_line := ALBad | ALEvent (type : string) (obj : sliceObject).

Definition agent_line_step (ln : agent_line) (state : gmap string sliceObject)
    : gmap string sliceObject * watch_out :=
  match ln with
  | ALBad => (state, WOErr)
  | ALEvent ty obj =>
      if bool_decide (ty = "ADDED") || bool_decide (ty = "MODIFIED") then (<[as_Name obj := obj]> state, WOApply)
      else if bool_decide (ty = "DELETED") then (delete (as_Name obj) state, WOApply)
      else if bool_decide (ty = "BOOKMARK") then (state, WOSkip)
      else if bool_decide (ty = "ERROR") then (state, WOErr)
      else (state, WOSkip)
  end.

(** [watchUntilErr]: the emitted states, in order. *)
Fixpoint agent_watch (lines : list (bool * agent_line)) (scan_ok : bool) (state : gmap string sliceObject)
    (emitted : list (gmap string sliceObject))
    : gmap string sliceObject * list (gmap string sliceObject) * watch_end :=
  match lines with
  | [] => (state, emitted, if scan_ok then WCleanEOF else WError)
  | (cancelled, ln) :: rest =>
      if cancelled : bool then (state, emitted, WCancelled)
      else match agent_line_step ln state with
           | (_, WOErr) => (state, emitted, WError)
           | (st', WOSkip) => agent_watch rest scan_ok st' emitted
           | (st', WOApply) => agent_watch rest scan_ok st' (emitted ++ [st'])
           end
  end.

(** ** Facts *)

Lemma flatten_elem vals tp e :
  e ∈ flatten vals tp ↔
  ∃ s ep addr, s ∈ vals ∧ ep ∈ as_Endpoints s ∧ addr ∈ ae_Addresses ep ∧ pickPort s tp ≠ 0 ∧
    endpointReady ep = true ∧
    e = mkEndpoint (as_Name s +:+ String "/" addr) (ip_port addr (Itoa (pickPort s tp))).
Proof.
  unfold flatten. rewrite merge_sort_Permutation, list_elem_of_bind. unfold flatten_one. split.
  - intros (s & He & Hs). case_bool_decide; [set_solver|].
    apply list_elem_of_bind in He as (ep & He & [Hr Hep]%list_elem_of_filter).
    apply list_elem_of_fmap in He as (addr & -> & Ha). by exists s, ep, addr.
  - intros (s & ep & addr & Hs & Hep & Ha & Hp & Hr & ->). exists s. split; [|done].
    rewrite bool_decide_eq_false_2 by done. apply list_elem_of_bind. exists ep.
    split; [|by apply list_elem_of_filter]. apply list_elem_of_fmap. by exists addr.
Qed.

Lemma pickPort_spec s want :
  want ≠ 0 → pickPort s want = if decide (want ∈ sp_Port <$> as_Ports s) then want else 0.
Proof.
  intros Hw. unfold pickPort. destruct (as_Ports s) as [|p ps]; [done|].
  rewrite bool_decide_eq_false_2 by done. case_bool_decide; by case_decide.
Qed.
