(* ===== verification/DiscoverySpec.v ===== *)
(** * discovery: what the indexes may and may not answer

    Soundness of the pod index and of the Service index against the objects they
    were built from, determinism of what they emit, and the join of the registry
    with the real indexes behind its interfaces. *)
From Stdlib Require Import Ascii QArith.
From stdpp Require Import base numbers gmap strings sorting relations fin_maps list.
From S2P Require Import Prelude GoStr Json Pb ClusterPeers ClusterPeersSpec K8s Discovery AgentDiscovery.
Local Open Scope Z_scope.

Lemma contains_elem s v : contains s v = true ↔ v ∈ s.
Proof.
  induction s as [|e s IH]; cbn; [set_solver|]. rewrite elem_of_cons, orb_true_iff, bool_decide_eq_true, IH.
  naive_solver.
Qed.

(** ** Replace *)

Lemma replace_port_spec ip acc p x q :
  (x ∈ (replace_port ip acc p).1 ↔ x = ip_port ip (Itoa p) ∨ x ∈ acc.1) ∧
  (∀ ip', q ∈ default [] ((replace_port ip acc p).2 !! ip') ↔
     (ip' = ip ∧ q = Itoa p) ∨ q ∈ default [] (acc.2 !! ip')).
Proof.
  unfold replace_port. cbn [fst snd]. split; [set_solver|]. intros ip'.
  destruct (contains (default [] (acc.2 !! ip)) (Itoa p)) eqn:Hc.
  - apply contains_elem in Hc. naive_solver.
  - rewrite lookup_insert. case_decide; [subst ip'; cbn; set_solver|naive_solver].
Qed.

Lemma replace_ports_spec ip ps acc x :
  (x ∈ (foldl (replace_port ip) acc ps).1 ↔ (∃ p, p ∈ ps ∧ x = ip_port ip (Itoa p)) ∨ x ∈ acc.1) ∧
  (∀ ip' q, q ∈ default [] ((foldl (replace_port ip) acc ps).2 !! ip') ↔
     (ip' = ip ∧ ∃ p, p ∈ ps ∧ q = Itoa p) ∨ q ∈ default [] (acc.2 !! ip')).
Proof.
  revert acc. induction ps as [|p ps IH]; intros acc; cbn [foldl]; [split; set_solver|].
  destruct (IH (replace_port ip acc p)) as [IH1 IH2]. split.
  - rewrite IH1, (proj1 (replace_port_spec ip acc p x "")). set_solver.
  - intros ip' q. rewrite IH2, (proj2 (replace_port_spec ip acc p x q)). set_solver.
Qed.

(** An entry of the list behind an address, or behind a port of an IP. *)
Definition has_endpoint (es : list PodEndpointEntry) (ip : string) (p : Z) : Prop :=
  ∃ e, e ∈ es ∧ pe_IP e = ip ∧ p ∈ pe_Ports e.

Lemma Replace_fold es idx :
  let idx' := foldl replace_entry idx es in
  (∀ x, x ∈ addrs idx' ↔ (∃ ip p, has_endpoint es ip p ∧ x = ip_port ip (Itoa p)) ∨ x ∈ addrs idx) ∧
  (∀ ip q, q ∈ default [] (ports idx' !! ip) ↔
     (∃ p, has_endpoint es ip p ∧ q = Itoa p) ∨ q ∈ default [] (ports idx !! ip)) ∧
  (∀ ip r, byIP idx' !! ip = Some r →
     (∃ e, e ∈ es ∧ pe_IP e = ip ∧ pe_Pod e ≠ "" ∧ r = mkPodRef (pe_Namespace e) (pe_Pod e)) ∨
     byIP idx !! ip = Some r) ∧
  podIP idx' = podIP idx.
Proof.
  unfold has_endpoint. revert idx. induction es as [|e es IH]; intros idx; cbn zeta; cbn [foldl].
  { split_and!; [set_solver|set_solver|auto|done]. }
  destruct (IH (replace_entry idx e)) as (H1 & H2 & H3 & H4). unfold replace_entry in *.
  destruct (foldl (replace_port (pe_IP e)) (addrs idx, ports idx) (pe_Ports e)) as [a p] eqn:E.
  assert (Ha : ∀ x, x ∈ a ↔ (∃ q, q ∈ pe_Ports e ∧ x = ip_port (pe_IP e) (Itoa q)) ∨ x ∈ addrs idx).
  { intros x. by destruct (replace_ports_spec (pe_IP e) (pe_Ports e) (addrs idx, ports idx) x) as [H _]; rewrite E in H. }
  assert (Hp : ∀ ip' q, q ∈ default [] (p !! ip') ↔
    (ip' = pe_IP e ∧ ∃ z, z ∈ pe_Ports e ∧ q = Itoa z) ∨ q ∈ default [] (ports idx !! ip')).
  { by destruct (replace_ports_spec (pe_IP e) (pe_Ports e) (addrs idx, ports idx) "") as [_ H]; rewrite E in H. }
  split_and!; [..|done].
  - intros x. rewrite H1. cbn [addrs]. rewrite Ha. set_solver.
  - intros ip q. rewrite H2. cbn [ports]. rewrite Hp. set_solver.
  - intros ip r Hr. destruct (H3 ip r Hr) as [(e' & Hin & He')|Hb].
    + left. exists e'. split; [by right|done].
    + cbn [byIP] in Hb. case_bool_decide as Hpod; [|by right].
      rewrite lookup_insert in Hb. case_decide as Hip; [|by right].
      injection Hb as <-. left. exists e. split; [by left|done].
Qed.

Lemma Replace_spec es idx :
  let idx' := Replace es idx in
  (∀ x, x ∈ addrs idx' ↔ ∃ ip p, has_endpoint es ip p ∧ x = ip_port ip (Itoa p)) ∧
  (∀ ip q, q ∈ default [] (ports idx' !! ip) ↔ ∃ p, has_endpoint es ip p ∧ q = Itoa p) ∧
  (∀ ip r, byIP idx' !! ip = Some r →
     ∃ e, e ∈ es ∧ pe_IP e = ip ∧ pe_Pod e ≠ "" ∧ r = mkPodRef (pe_Namespace e) (pe_Pod e)) ∧
  podIP idx' = podIP idx.
Proof.
  intros idx'. destruct (Replace_fold es (mkPodIndex ∅ ∅ ∅ (podIP idx))) as (H1 & H2 & H3 & H4).
  split_and!; [..|done].
  - intros x. etrans; [apply H1|]. cbn. set_solver.
  - intros ip q. etrans; [apply H2|]. cbn. rewrite lookup_empty. set_solver.
  - intros ip r Hr. destruct (H3 ip r Hr) as [?|Hb]; [done|]. cbn in Hb. by rewrite lookup_empty in Hb.
Qed.

Lemma identities_fold pods (m : gmap string podRef) ip r :
  foldl (λ m p, if bool_decide (pi_IP p = "") || bool_decide (pi_Pod p = "") then m
                else <[pi_IP p := mkPodRef (pi_Namespace p) (pi_Pod p)]> m) m pods !! ip = Some r →
  (∃ p, p ∈ pods ∧ pi_IP p = ip ∧ pi_Pod p ≠ "" ∧ r = mkPodRef (pi_Namespace p) (pi_Pod p)) ∨ m !! ip = Some r.
Proof.
  revert m. induction pods as [|p pods IH]; intros m; cbn [foldl]; [auto|]. intros H.
  destruct (IH _ H) as [(p' & Hin & Hp')|Hm]; [left; exists p'; split; [by right|done]|].
  destruct (_ || _) eqn:Hg; [by right|]. rewrite lookup_insert in Hm. case_decide; [|by right].
  injection Hm as <-. left. exists p. reflect_bools. split; [by left|done].
Qed.

(** ** The Service index against its objects *)

Lemma clusterIPs_elem so ip :
  ip ∈ clusterIPsOf so → ip ∈ so_ClusterIP so :: so_ClusterIPs so ∧ ip ≠ "" ∧ ip ≠ "None".
Proof.
  unfold clusterIPsOf. generalize (so_ClusterIP so :: so_ClusterIPs so). intros l.
  assert (∀ out, ip ∈ foldl (λ out ip, if bool_decide (ip = "") || bool_decide (ip = "None") || bool_decide (ip ∈ out)
    then out else out ++ [ip]) out l → ip ∈ out ∨ (ip ∈ l ∧ ip ≠ "" ∧ ip ≠ "None")) as H.
  { induction l as [|x l IH]; intros out; cbn [foldl]; [auto|]. intros Hin.
    destruct (IH _ Hin) as [Ho|(?&?&?)]; [|right; split_and!; [by right|done..]].
    destruct (_ || _) eqn:Hg; [by left|]. apply elem_of_app in Ho as [?|Ho%list_elem_of_singleton]; [by left|].
    subst x. reflect_bools. right. split_and!; [by left|done..]. }
  intros Hin. destruct (H [] Hin) as [?|?]; [set_solver|done].
Qed.

(** A decoded Service among the objects that publishes [ip]. *)
Definition service_for (vals : list json) (ip : string) (en : serviceEntry) (so : serviceObject) : Prop :=
  ∃ j, j ∈ vals ∧ dec_service j = Some so ∧ so_Name so ≠ "" ∧ ip ∈ clusterIPsOf so ∧
    en = mkServiceEntry (so_Namespace so) (so_Name so) (service_ports so).

Lemma foldl_insert_all {A} (x : A) ips (m : gmap string A) ip y :
  foldl (λ m ip, <[ip := x]> m) m ips !! ip = Some y → (ip ∈ ips ∧ y = x) ∨ m !! ip = Some y.
Proof.
  revert m. induction ips as [|i ips IH]; intros m; cbn [foldl]; [auto|]. intros H.
  destruct (IH _ H) as [[? ?]|Hm]; [left; split; [by right|done]|].
  rewrite lookup_insert in Hm. case_decide; [subst i|by right]. injection Hm as <-. left. split; [by left|done].
Qed.

Lemma applyServices_sound vals ip en :
  foldl apply_service ∅ vals !! ip = Some en → ∃ so, service_for vals ip en so.
Proof.
  assert (∀ m, foldl apply_service m vals !! ip = Some en →
    (∃ so, service_for vals ip en so) ∨ m !! ip = Some en) as H.
  { induction vals as [|j vals IH]; intros m; cbn [foldl]; [auto|]. intros Hl.
    destruct (IH _ Hl) as [(so & j' & Hin & Hso)|Hm]; [left; exists so, j'; split; [by right|done]|].
    unfold apply_service in Hm. destruct (dec_service j) as [so|] eqn:Hd; [|by right].
    case_bool_decide as Hn; [by right|]. destruct (service_ports so) as [|p ps] eqn:Hps; [by right|].
    apply foldl_insert_all in Hm as [[Hin ->]|?]; [|by right]. left. exists so, j.
    rewrite Hps. split_and!; try done. by left. }
  intros Hl. destruct (H ∅ Hl) as [?|Hm]; [done|]. by rewrite lookup_empty in Hm.
Qed.

(** A decoded slice among the objects that belongs to the Service [key]. *)
Definition slice_of (vals : list json) (key : string) (so : svcSliceObject) : Prop :=
  ∃ j, j ∈ vals ∧ dec_slice j = Some so ∧ svc_name_of so ≠ "" ∧
    key = svc_key (sl_Namespace so) (svc_name_of so).

Definition ready_ip (so : svcSliceObject) (ip : string) : Prop :=
  ∃ ep, ep ∈ sl_Endpoints so ∧ sliceEndpointReady (se_Ready ep) (se_Terminating ep) = true ∧ ip ∈ se_Addresses ep.

Lemma ready_ip_elem so ip : ready_ip so ip ↔ ip ∈ ready_endpoints so ≫= se_Addresses.
Proof. unfold ready_ip, ready_endpoints. rewrite list_elem_of_bind. setoid_rewrite list_elem_of_filter. naive_solver. Qed.

Lemma slice_of_nil key so : ¬ slice_of [] key so.
Proof. intros (j & Hj & _). set_solver. Qed.

Lemma slice_of_cons j vals key so :
  slice_of (j :: vals) key so ↔
  (dec_slice j = Some so ∧ svc_name_of so ≠ "" ∧ key = svc_key (sl_Namespace so) (svc_name_of so)) ∨
  slice_of vals key so.
Proof. unfold slice_of. setoid_rewrite elem_of_cons. naive_solver. Qed.

Lemma acc_add_ips g so ip : ip ∈ ac_ips (acc_add g so) ↔ ready_ip so ip ∨ ip ∈ ac_ips g.
Proof. unfold acc_add. cbn. by rewrite elem_of_union, elem_of_list_to_set, ready_ip_elem. Qed.

(** The set of IPs a group collects is exactly the ready addresses. *)
Lemma apply_slices_ips vals key ip :
  (∃ g, foldl apply_slice ∅ vals !! key = Some g ∧ ip ∈ ac_ips g) ↔
  ∃ so, slice_of vals key so ∧ ready_ip so ip.
Proof.
  assert (∀ m, (∃ g, foldl apply_slice m vals !! key = Some g ∧ ip ∈ ac_ips g) ↔
    (∃ so, slice_of vals key so ∧ ready_ip so ip) ∨ (∃ g, m !! key = Some g ∧ ip ∈ ac_ips g)) as H.
  { induction vals as [|j vals IH]; intros m; cbn [foldl].
    { pose proof (slice_of_nil key). naive_solver. }
    rewrite IH. setoid_rewrite slice_of_cons. unfold apply_slice at 1.
    destruct (dec_slice j) as [so|] eqn:Hd; [|naive_solver].
    case_bool_decide as Hn; [naive_solver|]. set (k := svc_key _ _).
    assert ((∃ g, <[k := acc_add (default (mkAcc ∅ ∅) (m !! k)) so]> m !! key = Some g ∧ ip ∈ ac_ips g) ↔
      (k = key ∧ ready_ip so ip) ∨ ∃ g, m !! key = Some g ∧ ip ∈ ac_ips g) as ->.
    { rewrite lookup_insert. case_decide as Hk; [subst key|naive_solver].
      destruct (m !! k) as [g0|] eqn:Hm; cbn [default from_option].
      - pose proof (acc_add_ips g0 so ip). naive_solver.
      - pose proof (acc_add_ips (mkAcc ∅ ∅) so ip) as Hacc. cbn [ac_ips] in Hacc.
        rewrite (elem_of_empty (C := gset string)) in Hacc. naive_solver. }
    unfold k. naive_solver. }
  rewrite H. split; [|auto]. intros [?|(g & Hg & _)]; [done|]. by rewrite lookup_empty in Hg.
Qed.

(** A numeric port a group keeps under a name was published by one of its
    slices. *)
Lemma apply_slices_ports vals key g n tp :
  foldl apply_slice ∅ vals !! key = Some g → ac_ports g !! n = Some tp →
  ∃ so p, slice_of vals key so ∧ p ∈ sl_Ports so ∧ sp_Name p = n ∧ sp_Port p = tp ∧ tp ≠ 0.
Proof.
  assert (Hp : ∀ ps (m : gmap string Z), foldl (λ m p, if bool_decide (sp_Port p ≠ 0) then <[sp_Name p := sp_Port p]> m else m)
      m ps !! n = Some tp → (∃ p, p ∈ ps ∧ sp_Name p = n ∧ sp_Port p = tp ∧ tp ≠ 0) ∨ m !! n = Some tp).
  { induction ps as [|p ps IH]; intros m; cbn [foldl]; [auto|]. intros Hl.
    destruct (IH _ Hl) as [(p' & Hin & ?)|Hm]; [left; exists p'; split; [by right|done]|].
    case_bool_decide; [|by right]. rewrite lookup_insert in Hm. case_decide; [|by right].
    injection Hm as <-. left. exists p. split; [by left|done]. }
  assert (∀ m g, foldl apply_slice m vals !! key = Some g → ac_ports g !! n = Some tp →
    (∃ so p, slice_of vals key so ∧ p ∈ sl_Ports so ∧ sp_Name p = n ∧ sp_Port p = tp ∧ tp ≠ 0) ∨
    (∃ g0, m !! key = Some g0 ∧ ac_ports g0 !! n = Some tp)) as H.
  { clear g. induction vals as [|j vals IH]; intros m g; cbn [foldl]; [naive_solver|]. intros Hg Htp.
    setoid_rewrite slice_of_cons. destruct (IH _ _ Hg Htp) as [?|(g0 & Hg0 & Htp0)]; [naive_solver|].
    unfold apply_slice in Hg0. destruct (dec_slice j) as [so|] eqn:Hd; [|naive_solver].
    case_bool_decide as Hn; [naive_solver|]. rewrite lookup_insert in Hg0. case_decide as Hk; [|naive_solver].
    injection Hg0 as <-. cbn in Htp0. destruct (Hp _ _ Htp0) as [(p & Hin & ?)|Hm]; [naive_solver|].
    right. subst key. destruct (m !! _) as [g0|]; [by exists g0|]. cbn in Hm. by rewrite lookup_empty in Hm. }
  intros Hg Htp. destruct (H ∅ g Hg Htp) as [?|(g0 & Hg0 & _)]; [done|]. by rewrite lookup_empty in Hg0.
Qed.

Lemma find_port_elem port ps n : find_port port ps = Some n → mkPortRef port n ∈ ps.
Proof.
  unfold find_port. destruct (list_find _ ps) as [[i p]|] eqn:E; [|done]. intros [= <-].
  apply list_find_Some in E as (Hi & Hp & _). apply list_elem_of_lookup_2 in Hi.
  by destruct p; cbn in *; subst.
Qed.

Lemma apply_slices_some vals key :
  is_Some (foldl apply_slice ∅ vals !! key) ↔ ∃ so, slice_of vals key so.
Proof.
  assert (∀ m, is_Some (foldl apply_slice m vals !! key) ↔ (∃ so, slice_of vals key so) ∨ is_Some (m !! key)) as H.
  { induction vals as [|j vals IH]; intros m; cbn [foldl].
    { pose proof (slice_of_nil key). naive_solver. }
    rewrite IH. setoid_rewrite slice_of_cons. unfold apply_slice at 1.
    destruct (dec_slice j) as [so|] eqn:Hd; [|naive_solver]. case_bool_decide as Hn; [naive_solver|].
    rewrite lookup_insert_is_Some'. naive_solver. }
  rewrite H, lookup_empty. split; [|auto]. intros [?|[? ?]]; done.
Qed.

Lemma slice_of_perm vals vals' key so : vals ≡ₚ vals' → slice_of vals key so ↔ slice_of vals' key so.
Proof. intros Hp. unfold slice_of. by setoid_rewrite Hp. Qed.

(** ** Properties *)

(** The pod index never makes up an address: what [ResolvePodAddr] returns
    is an endpoint of the last [Replace], on the IP that was asked for. *)
Theorem resolve_pod_addr_sound (es : list PodEndpointEntry) idx a b :
  Discovery.ResolvePodAddr (Replace es idx) a = Some b →
  ∃ host port ip p, SplitHostPort a = Some (host, port) ∧ has_endpoint es ip p ∧
    ((b = a ∧ a = ip_port ip (Itoa p)) ∨ (ip = host ∧ ((b = a ∧ port = Itoa p) ∨ b = ip_port host (Itoa p)))).
Proof.
  destruct (Replace_spec es idx) as (Ha & Hp & _). unfold Discovery.ResolvePodAddr.
  destruct (SplitHostPort a) as [[host port]|]; [|done]. case_bool_decide as Hin.
  - intros [= <-]. apply Ha in Hin as (ip & p & He & ->). exists host, port, ip, p. auto.
  - destruct (default [] (ports (Replace es idx) !! host)) as [|q rest] eqn:E; [done|].
    assert (Hq : ∀ x, x ∈ q :: rest → ∃ p, has_endpoint es host p ∧ x = Itoa p) by (intros x; rewrite <-E; apply Hp).
    destruct (contains (q :: rest) port) eqn:Hc.
    + intros [= <-]. apply contains_elem in Hc. destruct (Hq _ Hc) as (p & He & ->).
      exists host, (Itoa p), host, p. split_and!; [done..|]. right. split; [done|]. by left.
    + destruct rest; [|done]. intros [= <-]. destruct (Hq q ltac:(by left)) as (p & He & ->).
      exists host, port, host, p. split_and!; [done..|]. right. split; [done|]. by right.
Qed.

(** The pod an IP resolves to was named for that IP by the last slice
    reconcile or the last pod reconcile, whichever order they ran in: neither
    wipes the other, and what neither reports is a miss. *)
Theorem pod_for_ip_sound (es : list PodEndpointEntry) (ps : list PodIdentity) idx :
  Replace es (ReplacePodIdentities ps idx) = ReplacePodIdentities ps (Replace es idx) ∧
  ∀ ip ns pod, Discovery.PodForIP (Replace es (ReplacePodIdentities ps idx)) ip = Some (ns, pod) →
    pod ≠ "" ∧ ((∃ e, e ∈ es ∧ pe_IP e = ip ∧ pe_Namespace e = ns ∧ pe_Pod e = pod) ∨
                (∃ p, p ∈ ps ∧ pi_IP p = ip ∧ pi_Namespace p = ns ∧ pi_Pod p = pod)).
Proof.
  assert (Hcomm : ∀ m l i, i = mkPodIndex (addrs i) (ports i) (byIP i) m →
    foldl replace_entry i l = mkPodIndex (addrs (foldl replace_entry (mkPodIndex (addrs i) (ports i) (byIP i) (podIP idx)) l))
      (ports (foldl replace_entry (mkPodIndex (addrs i) (ports i) (byIP i) (podIP idx)) l))
      (byIP (foldl replace_entry (mkPodIndex (addrs i) (ports i) (byIP i) (podIP idx)) l)) m).
  { intros m. induction l as [|e l IH]; intros i Hi; [done|]. cbn [foldl]. rewrite IH.
    - unfold replace_entry. cbn [addrs ports]. by destruct (foldl (replace_port (pe_IP e)) _ _).
    - rewrite Hi. unfold replace_entry. cbn. by destruct (foldl (replace_port (pe_IP e)) _ _). }
  split.
  - unfold Replace at 1. erewrite (Hcomm _ es); [|reflexivity]. cbn. unfold ReplacePodIdentities. done.
  - intros ip ns pod. destruct (Replace_spec es (ReplacePodIdentities ps idx)) as (_ & _ & Hb & Hi).
    unfold Discovery.PodForIP. destruct (byIP _ !! ip) as [r|] eqn:E.
    + destruct (Hb _ _ E) as (e & Hin & <- & Hpod & ->). intros [= <- <-]. split; [done|]. left. by exists e.
    + rewrite Hi. unfold ReplacePodIdentities. cbn [podIP]. destruct (foldl _ ∅ ps !! ip) as [r|] eqn:E'; [|done].
      apply identities_fold in E' as [(p & Hin & <- & Hpod & ->)|E']; [|by rewrite lookup_empty in E'].
      intros [= <- <-]. split; [done|]. right. by exists p.
Qed.

(** What a successful lookup went through: the Service, its port and the merged
    slice group. *)
Lemma ResolveVIP_inv (svals vals vals' : list json) idx pidx addr bs ns name :
  ResolveVIP (applySlices vals vals' (applyServices svals idx) pidx).1 addr = Some (bs, ns, name) →
  ∃ host portStr so pr g tp, SplitHostPort addr = Some (host, portStr) ∧
    (∃ j, j ∈ svals ∧ dec_service j = Some so) ∧ so_Namespace so = ns ∧ so_Name so = name ∧
    host ∈ so_ClusterIP so :: so_ClusterIPs so ∧ pr ∈ so_Ports so ∧ Atoi portStr = Some (sp_Port pr) ∧
    foldl apply_slice ∅ vals !! svc_key ns name = Some g ∧ ac_ports g !! sp_Name pr = Some tp ∧
    sg_podIPs (group_of g) ≠ [] ∧ bs = (λ ip, ip_port ip (Itoa tp)) <$> sg_podIPs (group_of g).
Proof.
  unfold applySlices, applyServices, SetSlices, SetServices, ResolveVIP. cbn [fst services slices].
  destruct (SplitHostPort addr) as [[host portStr]|]; [|done].
  destruct (Atoi portStr) as [port|] eqn:Hport; [|done].
  destruct (foldl apply_service ∅ svals !! host) as [en|] eqn:Hen; [|done].
  destruct (find_port port (en_ports en)) as [pn|] eqn:Hpn; [|done].
  rewrite lookup_fmap. destruct (foldl apply_slice ∅ vals !! _) as [g|] eqn:Hg; [|done]. cbn [fmap option_fmap option_map].
  unfold group_of at 1. cbn [sg_ports]. destruct (ac_ports g !! pn) as [tp|] eqn:Htp; [|done].
  case_bool_decide; [done|]. case_bool_decide as Hne; [done|]. intros [= <- <- <-].
  destruct (applyServices_sound _ _ _ Hen) as (so & j & Hj & Hdec & Hn & Hip & ->). cbn [en_namespace en_name en_ports] in *.
  apply find_port_elem in Hpn. unfold service_ports in Hpn.
  apply list_elem_of_fmap in Hpn as (pr & [= Hpp Hpnm] & [_ Hpr]%list_elem_of_filter). subst pn.
  exists host, portStr, so, pr, g, tp. split_and!; try done; [eauto|by apply clusterIPs_elem|by rewrite Hport, Hpp].
Qed.

(** A Service address resolves only to what the watched objects say: some
    Service publishes that cluster IP and port, and every backend pairs a ready
    address of one of its slices with a target port one of its slices publishes
    under the Service port's name; there is at least one. *)
Lemma vip_backends (svals vals vals' : list json) idx pidx addr bs ns name :
  ResolveVIP (applySlices vals vals' (applyServices svals idx) pidx).1 addr = Some (bs, ns, name) →
  bs ≠ [] ∧ ∃ host portStr so pr, SplitHostPort addr = Some (host, portStr) ∧
    (∃ j, j ∈ svals ∧ dec_service j = Some so) ∧ so_Namespace so = ns ∧ so_Name so = name ∧
    host ∈ so_ClusterIP so :: so_ClusterIPs so ∧ pr ∈ so_Ports so ∧ Atoi portStr = Some (sp_Port pr) ∧
    ∀ b, b ∈ bs → ∃ ip sl sl' p, slice_of vals (svc_key ns name) sl ∧ ready_ip sl ip ∧
      slice_of vals (svc_key ns name) sl' ∧ p ∈ sl_Ports sl' ∧ sp_Name p = sp_Name pr ∧
      b = ip_port ip (Itoa (sp_Port p)).
Proof.
  intros HR. destruct (ResolveVIP_inv _ _ _ _ _ _ _ _ _ HR)
    as (host & portStr & so & pr & g & tp & Ha & Hso & Hns & Hnm & Hip & Hpr & Hport & Hg & Htp & Hne & ->).
  split; [by intros Hnil%fmap_nil_inv|]. exists host, portStr, so, pr. split_and!; try done.
  intros b (ip & -> & Hel)%list_elem_of_fmap. cbn [group_of sg_podIPs] in Hel.
  rewrite merge_sort_Permutation, elem_of_elements in Hel.
  destruct (proj1 (apply_slices_ips vals (svc_key ns name) ip)) as (sl & Hsl & Hr); [by exists g|].
  destruct (apply_slices_ports _ _ _ _ _ Hg Htp) as (sl' & p & Hsl' & Hp & Hpname & <- & _).
  by exists ip, sl, sl', p.
Qed.

(** The backend addresses of a Service come in one order, whatever order
    the slices are visited in: the representative replica is stable. *)
Theorem backend_order_stable (vals vals' : list json) key :
  vals ≡ₚ vals' →
  sg_podIPs <$> (group_of <$> foldl apply_slice ∅ vals) !! key =
  sg_podIPs <$> (group_of <$> foldl apply_slice ∅ vals') !! key.
Proof.
  intros Hp. rewrite !lookup_fmap.
  pose proof (apply_slices_some vals key) as Hs. pose proof (apply_slices_some vals' key) as Hs'.
  pose proof (apply_slices_ips vals key) as Hi. pose proof (apply_slices_ips vals' key) as Hi'.
  setoid_rewrite <-(slice_of_perm vals vals' key) in Hs'; [|done].
  setoid_rewrite <-(slice_of_perm vals vals' key) in Hi'; [|done].
  destruct (foldl apply_slice ∅ vals !! key) as [g|], (foldl apply_slice ∅ vals' !! key) as [g'|]; cbn.
  - assert (ac_ips g = ac_ips g') as ->; [|done]. apply set_eq. intros ip.
    specialize (Hi ip). specialize (Hi' ip). naive_solver.
  - exfalso. destruct Hs as [Hs _], Hs' as [_ Hs']. destruct Hs' as [? ?]; [|done]. apply Hs. eauto.
  - exfalso. destruct Hs as [_ Hs], Hs' as [Hs' _]. destruct Hs as [? ?]; [|done]. apply Hs'. eauto.
  - done.
Qed.

Lemma String_le_antisym_eq (l1 l2 : list Endpoint) :
  l1 ≡ₚ l2 → StronglySorted addr_le l1 → StronglySorted addr_le l2 → ep_Addr <$> l1 = ep_Addr <$> l2.
Proof.
  intros Hp H1 H2.
  assert (Hs : ∀ l, StronglySorted addr_le l → StronglySorted String.le (ep_Addr <$> l)).
  { induction 1 as [|e l Hl IH He]; [constructor|]. rewrite fmap_cons. constructor; [done|].
    by rewrite Forall_fmap. }
  apply (StronglySorted_unique String.le); auto. by rewrite Hp.
Qed.

Lemma flatten_sorted vals tp : StronglySorted addr_le (flatten vals tp).
Proof.
  unfold flatten. apply StronglySorted_merge_sort.
  - intros x y z. unfold addr_le. by intros ->.
  - intros x y. unfold addr_le. apply (total String.le).
Qed.

(** The fleet handed to the aggregator is exactly the addresses of the
    ready endpoints of the slices that publish the wanted port, in address
    order, and does not depend on the order the slices are visited in. *)
Theorem flatten_exact_and_stable (vals vals' : list sliceObject) tp :
  vals ≡ₚ vals' →
  (∀ e, e ∈ flatten vals tp ↔
     ∃ s ep addr, s ∈ vals ∧ ep ∈ as_Endpoints s ∧ addr ∈ ae_Addresses ep ∧ pickPort s tp ≠ 0 ∧
       endpointReady ep = true ∧
       e = mkEndpoint (as_Name s +:+ String "/" addr) (ip_port addr (Itoa (pickPort s tp)))) ∧
  StronglySorted String.le (ep_Addr <$> flatten vals tp) ∧
  ep_Addr <$> flatten vals tp = ep_Addr <$> flatten vals' tp.
Proof.
  intros Hp. split_and!; [apply flatten_elem|..].
  - assert (Hs := flatten_sorted vals tp). induction Hs as [|e l Hl IH He]; [constructor|].
    rewrite fmap_cons. constructor; [done|]. by rewrite Forall_fmap.
  - apply String_le_antisym_eq; [|apply flatten_sorted..].
    unfold flatten. rewrite !merge_sort_Permutation. by rewrite Hp.
Qed.

Lemma watch_scan_last lines scan_ok st applied st' applied' e :
  watch_scan lines scan_ok st applied = (st', applied', e) →
  list.last applied = Some st → list.last applied' = Some st'.
Proof.
  revert st applied. induction lines as [|[[] ln] rest IH]; intros st applied; cbn.
  - by intros [= <- <- <-].
  - by intros [= <- <- <-].
  - destruct (watch_line_step ln st) as [st1 o] eqn:Hstep. destruct o.
    + intros H _. eapply IH; [exact H|]. by rewrite last_snoc.
    + intros H Hl. eapply IH; [exact H|]. unfold watch_line_step in Hstep.
      assert (st1 = st) as ->; [|done].
      destruct ln as [|ty obj]; [done|]. repeat case_match; by injection Hstep as <-.
    + by intros [= <- <- <-].
Qed.

(** The state after a list of watch lines. *)
Definition watch_fold (lines : list (bool * watch_line)) (st : gmap string json) : gmap string json :=
  foldl (λ st x, (watch_line_step x.2 st).1) st lines.

Lemma watch_scan_fold lines scan_ok st applied st' applied' e :
  watch_scan lines scan_ok st applied = (st', applied', e) →
  ∃ k, st' = watch_fold (take k lines) st ∧ (e = WCleanEOF → k = length lines).
Proof.
  revert st applied. induction lines as [|[[] ln] rest IH]; intros st applied; cbn [watch_scan].
  - intros [= <- <- <-]. by exists 0%nat.
  - intros [= <- <- <-]. by exists 0%nat.
  - destruct (watch_line_step ln st) as [st1 o] eqn:Hstep. destruct o;
      [intros H; destruct (IH _ _ H) as (k & -> & Hk)..|intros [= <- <- <-]; by exists 0%nat];
      (exists (S k); split; [cbn; by rewrite Hstep|intros He; cbn; by rewrite Hk]).
Qed.

(** The index is never behind the watcher: however the watch ends, the
    state last handed to the apply function is the state the watcher holds, which
    is the listed objects updated by a prefix of the event lines, and by all of
    them when the stream ended cleanly. *)
Theorem watch_applies_last_state (items : list json) lines scan_ok st' applied' e :
  watch_scan lines scan_ok (list_state items) [list_state items] = (st', applied', e) →
  list.last applied' = Some st' ∧
  ∃ k, st' = watch_fold (take k lines) (list_state items) ∧ (e = WCleanEOF → k = length lines).
Proof. intros H. split; [by eapply watch_scan_last|by eapply watch_scan_fold]. Qed.

(** An address of a pod with a colon in its IP is built without brackets,
    so neither the pod index nor the wildcard index can take it apart: a backend
    of that kind is never joined through a wildcard bind, nor folded. *)
Theorem ipv6_backend_never_joins (r : Registry) idx sidx ip port now :
  has_byte ":" ip = true → first_byte ip ≠ Some "["%char →
  liveWild r (ip_port ip port) now = None ∧ Discovery.ResolvePodAddr idx (ip_port ip port) = None ∧
  ResolveVIP sidx (ip_port ip port) = None.
Proof.
  intros Hc Hb. unfold liveWild, Discovery.ResolvePodAddr, ResolveVIP, ip_port.
  change (String ":" port) with (":" +:+ port). by rewrite (SplitHostPort_colon_host ip port Hc Hb).
Qed.

(** ** Witnesses *)

Module Demo.
Definition meta (ns name : string) (more : list (string * json)) : json :=
  JObj (("namespace", JStr ns) :: ("name", JStr name) :: more).
Definition svc : json := JObj [
  ("metadata", meta "shop" "cart" []);
  ("spec", JObj [("clusterIP", JStr "10.96.0.9");
                 ("ports", JArr [JObj [("name", JStr "http"); ("port", JNum 80)]])])].
Definition slice (name : string) (port : Z) (ips : list string) : json := JObj [
  ("metadata", meta "shop" name [("labels", JObj [("kubernetes.io/service-name", JStr "cart")])]);
  ("ports", JArr [JObj [("name", JStr "http"); ("port", JNum port)]]);
  ("endpoints", JArr [JObj [("addresses", JArr (JStr <$> ips))]])].
Definition s1 : json := slice "cart-a" 8080 ["10.0.0.2"].
Definition s2 : json := slice "cart-b" 8080 ["10.0.0.1"].
Definition s3 : json := slice "cart-c" 9090 ["10.0.0.3"].
Definition resolve (vals : list json) : option (list string * string * string) :=
  ResolveVIP (applySlices vals vals (applyServices [svc] NewServiceIndex) None).1 "10.96.0.9:80".
Definition lines : list (bool * watch_line) :=
  [(false, WLEvent "ADDED" s2); (false, WLEvent "DELETED" s1)].
Definition watched : gmap string json * list (gmap string json) * watch_end :=
  watch_scan lines true (list_state [s1]) [list_state [s1]].
Definition es : list PodEndpointEntry := [mkPodEntry "10.0.0.1" [8080] "shop" "cart-1"].
Definition agents : list sliceObject :=
  [mkSliceObject "kl-a" [mkSvcPort "grpc" 9000] [mkAgentEndpoint ["10.1.0.2"] None None];
   mkSliceObject "kl-b" [mkSvcPort "grpc" 9000] [mkAgentEndpoint ["10.1.0.1"; "10.1.0.3"] (Some true) None;
                                                 mkAgentEndpoint ["10.1.0.9"] (Some false) None]].
End Demo.

Lemma resolve_pod_addr_sound_witness :
  Discovery.ResolvePodAddr (Replace Demo.es NewPodEndpointIndex) "10.0.0.1:80" = Some "10.0.0.1:8080" ∧
  ∃ ip p, has_endpoint Demo.es ip p.
Proof.
  split; [vm_compute; reflexivity|].
  destruct (resolve_pod_addr_sound Demo.es NewPodEndpointIndex "10.0.0.1:80" "10.0.0.1:8080")
    as (host & port & ip & p & _ & He & _).
  - vm_compute. reflexivity.
  - exists ip, p. exact He.
Defined.

Lemma backend_order_stable_witness :
  sg_podIPs <$> (group_of <$> foldl apply_slice ∅ [Demo.s1; Demo.s2]) !! "shop/cart" =
  sg_podIPs <$> (group_of <$> foldl apply_slice ∅ [Demo.s2; Demo.s1]) !! "shop/cart".
Proof. apply (backend_order_stable [Demo.s1; Demo.s2] [Demo.s2; Demo.s1] "shop/cart"). apply Permutation_swap. Defined.

Lemma flatten_exact_and_stable_witness :
  ep_Addr <$> flatten Demo.agents 9000 = ["10.1.0.1:9000"; "10.1.0.2:9000"; "10.1.0.3:9000"] ∧
  ep_Addr <$> flatten Demo.agents 9000 = ep_Addr <$> flatten (reverse Demo.agents) 9000.
Proof.
  split; [vm_compute; reflexivity|].
  apply (flatten_exact_and_stable Demo.agents (reverse Demo.agents) 9000). by rewrite reverse_Permutation.
Defined.

Lemma watch_applies_last_state_witness :
  length Demo.watched.1.2 = 3%nat ∧ list.last Demo.watched.1.2 = Some Demo.watched.1.1.
Proof.
  split; [vm_compute; reflexivity|].
  apply (watch_applies_last_state [Demo.s1] Demo.lines true Demo.watched.1.1 Demo.watched.1.2 Demo.watched.2).
  vm_compute. reflexivity.
Defined.

Lemma ipv6_backend_never_joins_witness :
  liveWild (NewRegistry 0 None None) "fd00::1:8080" 0 = None.
Proof.
  apply (ipv6_backend_never_joins (NewRegistry 0 None None) NewPodEndpointIndex NewServiceIndex "fd00::1" "8080" 0).
  - vm_compute. reflexivity.
  - vm_compute. discriminate.
Defined.

(** Two slices of one Service that publish one port name with different
    numbers are merged under whichever is visited last: the same objects give
    different backends, and each answer pairs an IP with a port its own slice
    does not publish. *)
Theorem port_conflict_depends_on_order :
  [Demo.s1; Demo.s3] ≡ₚ [Demo.s3; Demo.s1] ∧
  Demo.resolve [Demo.s1; Demo.s3] = Some (["10.0.0.2:9090"; "10.0.0.3:9090"], "shop", "cart") ∧
  Demo.resolve [Demo.s3; Demo.s1] = Some (["10.0.0.2:8080"; "10.0.0.3:8080"], "shop", "cart").
Proof. split; [apply Permutation_swap|]. split; vm_compute; reflexivity. Qed.
