(* ===== verification/Aggregator.v ===== *)
(** * The aggregator

    Model of src/internal/aggregator/aggregator.go: the merge queue, the writer
    (sequence numbers, broadcast, NDJSON), the cross-node hook, the subscriber
    set, the fleet of endpoints and the receive loop.  [receive] and [handle] are
    what a stream goroutine and the writer do for one envelope, written as one
    function each; the actions they consist of, between which other goroutines can
    run, are the steps of [Interleaving].  The envelope log, the registry and the
    cursor store are the components of the other files. *)
From Stdlib Require Import Ascii.
From stdpp Require Import base numbers gmap strings relations fin_maps list.
From S2P Require Import Prelude GoStr Json EnvWal Pb CursorStore ClusterPeers.
Local Open Scope Z_scope.

(** ** Data *)

Record AgentEndpoint := mkAgent { a_Name : string; a_Addr : string }.

Global Instance AgentEndpoint_eq_dec : EqDecision AgentEndpoint.
Proof. solve_decision. Defined.

(** The scalar part of [Config]; [has_..] tells whether a pointer, interface or
    channel is non-nil. *)
Record Config := mkConfig {
  Agents : list AgentEndpoint;
  has_Out : bool;
  c_Streams : list string;
  ConsumerID : string;
  Backoff : Z;
  QueueDepth : Z;
  has_Discovery : bool;
  AdvertiseTTL : Z;
}.

(** [NewPanic]: making a channel whose size is negative, or whose buffer is larger
    than an allocation can be, panics. *)
Inductive new_err := ErrNoAgents | ErrNoOut | NewPanic.

(** The deepest queue [make] accepts on 64-bit Linux: elements of 24 bytes (a string
    and a pointer) behind a header of 96 in less than 2^48.  Whether that much
    memory is there is another matter. *)
Definition max_depth : Z := (2 ^ 48 - 96) / 24.

Definition config_defaults (c : Config) : Config :=
  mkConfig (Agents c) (has_Out c)
    (match c_Streams c with [] => ["intent"] | l => l end)
    (if bool_decide (ConsumerID c = "") then "kloudlens-aggregator" else ConsumerID c)
    (if bool_decide (Backoff c = 0) then 2 * 10 ^ 9 else Backoff c)
    (if bool_decide (QueueDepth c = 0) then 1024 else QueueDepth c)
    (has_Discovery c) (AdvertiseTTL c).

Record liveEnvelope := mkLive { le_Seq : Z; le_Agent : string; le_Envelope : EventEnvelope }.

(** A subscriber's channel: its capacity and what it holds. *)
Record liveSubscriber := mkSub { sub_cap : Z; sub_ch : list liveEnvelope; sub_drops : Z }.

Record envelopeWithAgent := mkEv { ev_Agent : string; ev_Envelope : EventEnvelope }.

Record Counters := mkCounters {
  received : Z;
  written : Z;
  dropped : Z;
  c_errors : Z;
  walAppends : Z;
  walErrors : Z;
  subsDropped : Z;
  xnodeJoins : Z;
  xnodeMisses : Z;
  vipJoins : Z;
}.

(** Subscribers are identified by their address, a number here. *)
Record Aggregator := mkAgg {
  cfg : Config;
  ch : list envelopeWithAgent;
  cnt : Counters;
  liveSeq : Z;
  subs : gmap nat liveSubscriber;
  next_sub : nat;
  registry : Registry;
  wal : option (WAL * FS);
  out : list string;
}.

Definition zero_counters : Counters := mkCounters 0 0 0 0 0 0 0 0 0 0.

Definition New (c : Config) (res : option EndpointResolver) (sv : option ServiceResolver)
    (w : option (WAL * FS)) : Aggregator + new_err :=
  if bool_decide (Agents c = []) && negb (has_Discovery c) then inr ErrNoAgents
  else if negb (has_Out c) then inr ErrNoOut
  else let c' := config_defaults c in
       if bool_decide (QueueDepth c' < 0 ∨ max_depth < QueueDepth c') then inr NewPanic
       else inl (mkAgg c' [] zero_counters 0 ∅ 0 (NewRegistry (AdvertiseTTL c') res sv) w []).

(** ** Counter updates *)

Definition inc (z : Z) : Z := u64 (z + 1).
Definition add_received (k : Counters) : Counters :=
  mkCounters (inc (received k)) (written k) (dropped k) (c_errors k) (walAppends k) (walErrors k) (subsDropped k) (xnodeJoins k) (xnodeMisses k) (vipJoins k).
Definition add_written (k : Counters) : Counters :=
  mkCounters (received k) (inc (written k)) (dropped k) (c_errors k) (walAppends k) (walErrors k) (subsDropped k) (xnodeJoins k) (xnodeMisses k) (vipJoins k).
Definition add_dropped (k : Counters) : Counters :=
  mkCounters (received k) (written k) (inc (dropped k)) (c_errors k) (walAppends k) (walErrors k) (subsDropped k) (xnodeJoins k) (xnodeMisses k) (vipJoins k).
Definition add_errors (k : Counters) : Counters :=
  mkCounters (received k) (written k) (dropped k) (inc (c_errors k)) (walAppends k) (walErrors k) (subsDropped k) (xnodeJoins k) (xnodeMisses k) (vipJoins k).
Definition add_walAppends (k : Counters) : Counters :=
  mkCounters (received k) (written k) (dropped k) (c_errors k) (inc (walAppends k)) (walErrors k) (subsDropped k) (xnodeJoins k) (xnodeMisses k) (vipJoins k).
Definition add_walErrors (k : Counters) : Counters :=
  mkCounters (received k) (written k) (dropped k) (c_errors k) (walAppends k) (inc (walErrors k)) (subsDropped k) (xnodeJoins k) (xnodeMisses k) (vipJoins k).
Definition add_subsDropped (n : Z) (k : Counters) : Counters :=
  mkCounters (received k) (written k) (dropped k) (c_errors k) (walAppends k) (walErrors k) (u64 (subsDropped k + n)) (xnodeJoins k) (xnodeMisses k) (vipJoins k).
Definition add_joins (vip : bool) (k : Counters) : Counters :=
  mkCounters (received k) (written k) (dropped k) (c_errors k) (walAppends k) (walErrors k) (subsDropped k) (inc (xnodeJoins k)) (xnodeMisses k) (if vip then inc (vipJoins k) else vipJoins k).
Definition add_misses (k : Counters) : Counters :=
  mkCounters (received k) (written k) (dropped k) (c_errors k) (walAppends k) (walErrors k) (subsDropped k) (xnodeJoins k) (inc (xnodeMisses k)) (vipJoins k).

Definition upd_cnt (g : Counters → Counters) (a : Aggregator) : Aggregator :=
  mkAgg (cfg a) (ch a) (g (cnt a)) (liveSeq a) (subs a) (next_sub a) (registry a) (wal a) (out a).
Definition set_liveSeq (z : Z) (a : Aggregator) : Aggregator :=
  mkAgg (cfg a) (ch a) (cnt a) z (subs a) (next_sub a) (registry a) (wal a) (out a).
Definition set_wal (w : option (WAL * FS)) (a : Aggregator) : Aggregator :=
  mkAgg (cfg a) (ch a) (cnt a) (liveSeq a) (subs a) (next_sub a) (registry a) w (out a).
Definition set_registry (r : Registry) (a : Aggregator) : Aggregator :=
  mkAgg (cfg a) (ch a) (cnt a) (liveSeq a) (subs a) (next_sub a) r (wal a) (out a).
Definition set_subs (m : gmap nat liveSubscriber) (n : nat) (a : Aggregator) : Aggregator :=
  mkAgg (cfg a) (ch a) (cnt a) (liveSeq a) m n (registry a) (wal a) (out a).
Definition add_line (s : string) (a : Aggregator) : Aggregator :=
  mkAgg (cfg a) (ch a) (cnt a) (liveSeq a) (subs a) (next_sub a) (registry a) (wal a) (out a ++ [s]).
Definition set_ch (l : list envelopeWithAgent) (a : Aggregator) : Aggregator :=
  mkAgg (cfg a) l (cnt a) (liveSeq a) (subs a) (next_sub a) (registry a) (wal a) (out a).

(** ** Subscribers *)

Definition registerSubscriber (buf : Z) (a : Aggregator) : Aggregator * nat :=
  let cap := if bool_decide (buf ≤ 0) then 1024 else buf in
  (set_subs (<[next_sub a := mkSub cap [] 0]> (subs a)) (S (next_sub a)) a, next_sub a).

Definition unregisterSubscriber (id : nat) (a : Aggregator) : Aggregator :=
  match subs a !! id with
  | None => a
  | Some s => upd_cnt (add_subsDropped (sub_drops s)) (set_subs (delete id (subs a)) (next_sub a) a)
  end.

(** The non-blocking send to one subscriber. *)
Definition offer (ev : liveEnvelope) (s : liveSubscriber) : liveSubscriber :=
  if bool_decide (Z.of_nat (length (sub_ch s)) < sub_cap s)
  then mkSub (sub_cap s) (sub_ch s ++ [ev]) (sub_drops s)
  else mkSub (sub_cap s) (sub_ch s) (u64 (sub_drops s + 1)).

Definition broadcast (ev : liveEnvelope) (a : Aggregator) : Aggregator :=
  set_subs (offer ev <$> subs a) (next_sub a) a.

(** ** NDJSON *)

Fixpoint safe_name (s : string) : bool :=
  match s with
  | EmptyString => true
  | String c s' =>
      negb (bool_decide (byte_of c < 32) || bool_decide (byte_of c = 34) || bool_decide (byte_of c = 92) ||
            bool_decide (127 ≤ byte_of c)) && safe_name s'
  end.

Definition quote : string := String (chr 34) "".

Definition marshalJSONString (s : string) : string :=
  if safe_name s then quote +:+ s +:+ quote else json_string s.

Definition ndjson_line (agent env : string) : string :=
  "{" +:+ quote +:+ "_agent" +:+ quote +:+ ":" +:+ marshalJSONString agent +:+ "," +:+
  quote +:+ "envelope" +:+ quote +:+ ":" +:+ env +:+ "}" +:+ String (chr 10) "".

(** ** The writer *)

Section writer.
Context `{!ProtoJSON EventEnvelope}.

(** The sequence number of an envelope: the log's, or the in-memory counter's
    when there is no log or its append failed. *)
Definition assign_seq (io : append_io) (ev : envelopeWithAgent) (a : Aggregator) : Aggregator * Z :=
  match wal a with
  | Some (w, fs) =>
      match Append io (ev_Agent ev) (Some (ev_Envelope ev)) w fs with
      | (w', fs', Err _) =>
          let a1 := upd_cnt add_walErrors (set_wal (Some (w', fs')) a) in
          (set_liveSeq (inc (liveSeq a)) a1, inc (liveSeq a))
      | (w', fs', Ok s) => (set_liveSeq s (upd_cnt add_walAppends (set_wal (Some (w', fs')) a)), s)
      end
  | None => (set_liveSeq (inc (liveSeq a)) a, inc (liveSeq a))
  end.

Definition emitEnvelope (io : append_io) (out_ok : bool) (ev : envelopeWithAgent) (a : Aggregator) : Aggregator :=
  let '(a1, seq) := assign_seq io ev a in
  let a2 := broadcast (mkLive seq (ev_Agent ev) (ev_Envelope ev)) a1 in
  match Marshal (ev_Envelope ev) with
  | None => upd_cnt add_errors a2
  | Some envBytes =>
      if negb out_ok then upd_cnt add_errors a2
      else upd_cnt add_written (add_line (ndjson_line (ev_Agent ev) envBytes) a2)
  end.

Definition foldAdvertise (now : Z) (env : EventEnvelope) (a : Aggregator) : Aggregator * bool :=
  match GetIntent env with
  | None => (a, false)
  | Some intent =>
      if bool_decide (Kind intent ≠ KindListenerAdvertise) then (a, false)
      else match ListenerFromAdvertise (Some intent) with
           | Some l => (set_registry (Observe now l (registry a)) a, true)
           | None => (a, true)
           end
  end.

Definition foldWithdraw (env : EventEnvelope) (a : Aggregator) : Aggregator * bool :=
  match GetIntent env with
  | None => (a, false)
  | Some intent =>
      if bool_decide (Kind intent ≠ KindListenerWithdraw) then (a, false)
      else match ListenerFromWithdraw (Some intent) with
           | Some l => (set_registry (Remove l (registry a)) a, true)
           | None => (a, true)
           end
  end.

Definition joinPeer (now : Z) (env : EventEnvelope) (a : Aggregator) : Aggregator * option IntentEvent :=
  match GetIntent env with
  | None => (a, None)
  | Some intent =>
      if bool_decide (Kind intent ≠ KindNetworkExchange) then (a, None)
      else
        let peer := attr AttrPeer (Attributes intent) in
        if bool_decide (peer = "") then (a, None)
        else if bool_decide (is_Some (Attributes intent !! AttrPeerPID)) then (a, None)
        else
          let connectorNode := GetNodeName (Meta intent) in
          match Join (registry a) peer now with
          | None => (upd_cnt add_misses a, None)
          | Some (l, how) =>
              (upd_cnt (add_joins (bool_decide (how = HowServiceVIP))) a,
               Some (PeerEdge intent l how connectorNode))
          end
  end.

Definition edge_envelope (edge : IntentEvent) : EventEnvelope :=
  mkEnvelope None (Some (EventEnvelope_Intent edge)) "".

(** The outcomes the environment picks while the writer handles one envelope. *)
Record write_io := mkWriteIO {
  wi_now : Z;
  wi_log : append_io;
  wi_out : bool;
  wi_edge_log : append_io;
  wi_edge_out : bool;
}.

(** One iteration of [writeLoop], by itself: [write_run] of [Interleaving] is the
    same iteration action by action. *)
Definition handle (io : write_io) (ev : envelopeWithAgent) (a : Aggregator) : Aggregator :=
  match foldAdvertise (wi_now io) (ev_Envelope ev) a with
  | (a1, true) => a1
  | (a1, false) =>
      match foldWithdraw (ev_Envelope ev) a1 with
      | (a2, true) => a2
      | (a2, false) =>
          let a3 := emitEnvelope (wi_log io) (wi_out io) ev a2 in
          match joinPeer (wi_now io) (ev_Envelope ev) a3 with
          | (a4, None) => a4
          | (a4, Some edge) =>
              emitEnvelope (wi_edge_log io) (wi_edge_out io) (mkEv (ev_Agent ev) (edge_envelope edge)) a4
          end
      end
  end.

(** [writeLoop] draws one envelope from the queue. *)
Definition write_step (io : write_io) (a : Aggregator) : Aggregator :=
  match ch a with
  | [] => a
  | ev :: rest => handle io ev (set_ch rest a)
  end.
End writer.

(** ** The receive loop *)

Section receive.
Context {S : Type} `{!CursorStore S}.

(** What [subscribeOnce] sends to the agent. *)
Definition subscribe_request (a : Aggregator) (store : S) (ep : AgentEndpoint) (stream : string) : SubscribeRequest :=
  mkSubscribeRequest (ConsumerID (cfg a)) [stream] (cs_Load store (a_Name ep) stream) None.

(** One envelope received on the stream of an endpoint, by itself: [receive_run] of
    [Interleaving] has the counter, the save and the send one by one. *)
Definition receive (ep : AgentEndpoint) (stream : string) (env : EventEnvelope) (st : Aggregator * S)
    : Aggregator * S :=
  let '(a, store) := st in
  let a1 := upd_cnt add_received a in
  let store' := match e_Cursor env with
                | Some c => cs_Save store (a_Name ep) stream (Some c)
                | None => store
                end in
  (if bool_decide (Z.of_nat (length (ch a1)) < QueueDepth (cfg a1))
   then set_ch (ch a1 ++ [mkEv (a_Name ep) env]) a1
   else upd_cnt add_dropped a1, store').

(** How one call of [subscribeOnce] goes: the dial fails, the Subscribe call
    fails, or envelopes arrive until [Recv] fails.  It never returns nil. *)
Inductive session :=
| DialErr
| SubscribeErr
| Received (envs : list EventEnvelope).

Definition session_envs (s : session) : list EventEnvelope :=
  match s with Received envs => envs | _ => [] end.

Definition receive_all (ep : AgentEndpoint) (stream : string) (envs : list EventEnvelope) (st : Aggregator * S)
    : Aggregator * S := foldl (λ st env, receive ep stream env st) st envs.

Definition subscribeOnce (ep : AgentEndpoint) (stream : string) (s : session) (st : Aggregator * S)
    : (Aggregator * S) * list SubscribeRequest :=
  match s with
  | DialErr => (st, [])
  | SubscribeErr => (st, [subscribe_request st.1 st.2 ep stream])
  | Received envs => (receive_all ep stream envs st, [subscribe_request st.1 st.2 ep stream])
  end.

(** The loop over successive sessions; the flag tells whether the context ended
    during the session.  The requests sent are collected. *)
Fixpoint streamLoop (ep : AgentEndpoint) (stream : string) (ss : list (session * bool)) (st : Aggregator * S)
    : (Aggregator * S) * list SubscribeRequest :=
  match ss with
  | [] => (st, [])
  | (s, ended) :: ss' =>
      let '(st1, reqs) := subscribeOnce ep stream s st in
      if (ended : bool) then (st1, reqs)
      else let '(st2, reqs') := streamLoop ep stream ss' (upd_cnt add_errors st1.1, st1.2) in
           (st2, reqs ++ reqs')
  end.
End receive.

(** ** Stats *)

Record AggStats := mkStats {
  s_Counters : Counters;
  s_Subscribers : Z;
  s_WALLastSeq : Z;
  s_SubscriberDropped : Z;
  s_ListenerRegistrySize : Z;
  s_EndpointSliceEntries : Z;
  s_ServicesWatched : Z;
}.

Definition total_drops (m : gmap nat liveSubscriber) : Z :=
  foldr (λ kv acc, sub_drops kv.2 + acc) 0 (map_to_list m).

(** Reading the statistics sweeps the registry.  [len] and [nsvc] are what the
    resolvers' [Len] and [NumServices] return, when they have those methods. *)
Definition agg_Stats (now : Z) (len nsvc : option Z) (a : Aggregator) : Aggregator * AggStats :=
  let '(r', n) := Size now (registry a) in
  (set_registry r' a,
   mkStats (cnt a) (Z.of_nat (size (subs a)))
     (match wal a with Some (w, _) => LastSeq w | None => 0 end)
     (u64 (subsDropped (cnt a) + total_drops (subs a))) n (default 0 len) (default 0 nsvc)).
