(* ===== verification/Fleet.v ===== *)
(** * The fleet

    Model of the endpoint bookkeeping of src/internal/aggregator/aggregator.go:
    [Run]'s seeding, [startEndpoint], [reconcileFleet] and [reconcileLoop].  A
    run is a group of stream goroutines under one cancellable context; the map
    [active] holds, per endpoint name, the cancel function of its run, which is
    a run's number here.  A run whose cancel function is lost goes on. *)
From stdpp Require Import base numbers gmap strings fin_maps list.
From S2P Require Import Prelude Aggregator.
Local Open Scope nat_scope.

(** ** Model *)

Record fleet := mkFleet {
  active : gmap string nat;
  runs : gmap nat AgentEndpoint;
  next_run : nat;
}.

Definition no_fleet : fleet := mkFleet ∅ ∅ 0.

Definition startEndpoint (ep : AgentEndpoint) (fl : fleet) : fleet :=
  mkFleet (<[a_Name ep := next_run fl]> (active fl)) (<[next_run fl := ep]> (runs fl)) (S (next_run fl)).

Definition cancel_endpoint (name : string) (run : nat) (fl : fleet) : fleet :=
  mkFleet (delete name (active fl)) (delete run (runs fl)) (next_run fl).

Definition want_of (eps : list AgentEndpoint) : gmap string AgentEndpoint :=
  foldl (λ m ep, <[a_Name ep := ep]> m) ∅ eps.

Definition cancel_departed (want : gmap string AgentEndpoint) (l : list (string * nat)) (fl : fleet) : fleet :=
  foldl (λ fl nr, if bool_decide (is_Some (want !! nr.1)) then fl else cancel_endpoint nr.1 nr.2 fl) fl l.

Definition start_new (l : list (string * AgentEndpoint)) (fl : fleet) : fleet :=
  foldl (λ fl ne, if bool_decide (is_Some (active fl !! ne.1)) then fl else startEndpoint ne.2 fl) fl l.

(** The orders in which the two [range] loops visit their maps. *)
Record visit := mkVisit {
  v_active : list (string * nat) → list (string * nat);
  v_want : list (string * AgentEndpoint) → list (string * AgentEndpoint);
}.

Definition visit_ok (v : visit) : Prop := (∀ l, v_active v l ≡ₚ l) ∧ (∀ l, v_want v l ≡ₚ l).

Definition reconcileFleet (v : visit) (eps : list AgentEndpoint) (fl : fleet) : fleet :=
  let want := want_of eps in
  start_new (v_want v (map_to_list want)) (cancel_departed want (v_active v (map_to_list (active fl))) fl).

(** [Run]: the static endpoints, then one reconcile per discovery emission. *)
Definition seed (agents : list AgentEndpoint) : fleet :=
  foldl (λ fl ep, startEndpoint ep fl) no_fleet agents.

Definition reconcileLoop (ems : list (visit * list AgentEndpoint)) (fl : fleet) : fleet :=
  foldl (λ fl em, reconcileFleet em.1 em.2 fl) fl ems.

(** ** Properties *)

(** The endpoint that runs under a name. *)
Definition running (fl : fleet) (n : string) : option AgentEndpoint := active fl !! n ≫= λ r, runs fl !! r.

(** Every run can be cancelled, and is registered under its endpoint's name. *)
Record fleet_wf (fl : fleet) : Prop := {
  wf_active : ∀ n r, active fl !! n = Some r → ∃ ep, runs fl !! r = Some ep ∧ a_Name ep = n;
  wf_runs : ∀ r ep, runs fl !! r = Some ep → active fl !! a_Name ep = Some r ∧ r < next_run fl;
}.

Lemma want_of_lookup eps n : is_Some (want_of eps !! n) ↔ n ∈ a_Name <$> eps.
Proof.
  unfold want_of.
  assert (∀ m : gmap string AgentEndpoint,
    is_Some (foldl (λ m ep, <[a_Name ep := ep]> m) m eps !! n) ↔ n ∈ a_Name <$> eps ∨ is_Some (m !! n)) as H.
  { induction eps as [|ep eps IH]; intros m; [set_solver|]. cbn [foldl].
    rewrite IH, lookup_insert_is_Some', fmap_cons, elem_of_cons. naive_solver. }
  rewrite H. split; [|auto]. intros [?|[x Hx]]; [done|]. by rewrite lookup_empty in Hx.
Qed.

Lemma want_of_name eps n ep : want_of eps !! n = Some ep → a_Name ep = n.
Proof.
  unfold want_of. revert n ep.
  assert (∀ m : gmap string AgentEndpoint, map_Forall (λ n ep, a_Name ep = n) m →
    map_Forall (λ n ep, a_Name ep = n) (foldl (λ m ep, <[a_Name ep := ep]> m) m eps)) as H.
  { induction eps as [|e eps IH]; intros m Hm; [done|]. apply IH. by apply map_Forall_insert_2. }
  intros n ep. apply (H ∅), map_Forall_empty.
Qed.

Lemma start_wf ep fl : fleet_wf fl → active fl !! a_Name ep = None → fleet_wf (startEndpoint ep fl).
Proof.
  intros [Ha Hr] Hn. split; cbn.
  - intros n r [[<- <-]|[Hne Hl]]%lookup_insert_Some; [exists ep; by rewrite lookup_insert_eq|].
    destruct (Ha n r Hl) as (ep' & He & Hname). exists ep'. rewrite lookup_insert_ne; [done|].
    intros <-. apply Hr in He as [_ ?]. lia.
  - intros r ep' [[<- <-]|[Hne Hl]]%lookup_insert_Some; [rewrite lookup_insert_eq; split; [done|lia]|].
    destruct (Hr r ep' Hl) as [He Hlt]. rewrite lookup_insert_ne by congruence. split; [done|lia].
Qed.

Lemma start_running ep fl n :
  fleet_wf fl → running (startEndpoint ep fl) n = if decide (n = a_Name ep) then Some ep else running fl n.
Proof.
  intros [Ha Hr]. unfold running. cbn. case_decide as Hn.
  - subst n. rewrite lookup_insert_eq. cbn. by rewrite lookup_insert_eq.
  - rewrite lookup_insert_ne by done. destruct (active fl !! n) as [r|] eqn:E; [|done]. cbn.
    rewrite lookup_insert_ne; [done|]. intros <-. destruct (Ha _ _ E) as (? & He & _). apply Hr in He as [_ ?]. lia.
Qed.

Lemma running_None fl n : fleet_wf fl → running fl n = None ↔ active fl !! n = None.
Proof.
  intros [Ha Hr]. unfold running. destruct (active fl !! n) as [r|] eqn:E; [|done].
  destruct (Ha _ _ E) as (ep & He & _). cbn. rewrite He. done.
Qed.

Lemma start_new_spec l fl :
  fleet_wf fl → (∀ n ep, (n, ep) ∈ l → a_Name ep = n) → NoDup l.*1 →
  fleet_wf (start_new l fl) ∧
  ∀ n, running (start_new l fl) n =
    match running fl n with Some ep => Some ep | None => (list_to_map l : gmap string AgentEndpoint) !! n end.
Proof.
  revert fl. induction l as [|[m ep] l IH]; intros fl Hwf Hl Hnd.
  { split; [done|]. intros n. change (start_new [] fl) with fl. destruct (running fl n) eqn:E; by rewrite ?lookup_empty. }
  rewrite fmap_cons, NoDup_cons in Hnd. destruct Hnd as [Hm Hnd]. cbn [fst] in Hm.
  assert (Hep : a_Name ep = m) by (apply Hl; by left).
  assert (Hl' : ∀ n ep, (n, ep) ∈ l → a_Name ep = n) by (intros; apply Hl; by right).
  change (start_new ((m, ep) :: l) fl)
    with (start_new l (if bool_decide (is_Some (active fl !! m)) then fl else startEndpoint ep fl)).
  cbn [list_to_map foldr uncurry]. case_bool_decide as Hs.
  - destruct (IH fl Hwf Hl' Hnd) as [H1 H2]. split; [done|]. intros n. rewrite H2.
    destruct (running fl n) eqn:E; [done|]. destruct (decide (n = m)) as [->|Hne]; [|cbn; by rewrite lookup_insert_ne].
    apply running_None in E; [|done]. rewrite E in Hs. by destruct Hs.
  - assert (HN : active fl !! a_Name ep = None) by (rewrite Hep; by apply eq_None_not_Some).
    destruct (IH (startEndpoint ep fl)) as [H1 H2]; [by apply start_wf|done|done|]. split; [done|].
    intros n. rewrite H2, start_running, Hep by done. case_decide as Hn.
    + subst n. apply running_None in HN; [|done]. rewrite Hep in HN. rewrite HN. cbn. by rewrite lookup_insert_eq.
    + destruct (running fl n); [done|]. cbn. by rewrite lookup_insert_ne.
Qed.

Lemma cancel_wf n r fl : fleet_wf fl → active fl !! n = Some r → fleet_wf (cancel_endpoint n r fl).
Proof.
  intros [Ha Hr] Hn. split; cbn.
  - intros n' r' [Hne Hl]%lookup_delete_Some. destruct (Ha _ _ Hl) as (ep & He & Hname). exists ep.
    rewrite lookup_delete_ne; [done|]. intros <-. destruct (Ha _ _ Hn) as (ep' & He' & Hn'). congruence.
  - intros r' ep [Hne Hl]%lookup_delete_Some. destruct (Hr _ _ Hl) as [He Hlt]. split; [|done].
    rewrite lookup_delete_ne; [done|]. intros ->. congruence.
Qed.

Lemma cancel_running n r fl n' :
  fleet_wf fl → active fl !! n = Some r →
  running (cancel_endpoint n r fl) n' = if decide (n' = n) then None else running fl n'.
Proof.
  intros [Ha Hr] Hn. unfold running. cbn. case_decide as Hne.
  - subst. by rewrite lookup_delete_eq.
  - rewrite lookup_delete_ne by done. destruct (active fl !! n') as [r'|] eqn:E; [|done]. cbn.
    rewrite lookup_delete_ne; [done|]. intros <-. destruct (Ha _ _ Hn) as (ep & He & Hn1).
    destruct (Ha _ _ E) as (ep' & He' & Hn2). congruence.
Qed.

Lemma cancel_departed_spec want l fl :
  fleet_wf fl → (∀ n r, (n, r) ∈ l → active fl !! n = Some r) → NoDup l.*1 →
  fleet_wf (cancel_departed want l fl) ∧
  ∀ n, running (cancel_departed want l fl) n =
    if decide (n ∈ l.*1 ∧ want !! n = None) then None else running fl n.
Proof.
  revert fl. induction l as [|[m r] l IH]; intros fl Hwf Hl Hnd.
  { split; [done|]. intros n. rewrite decide_False; [done|]. set_solver. }
  rewrite fmap_cons, NoDup_cons in Hnd. destruct Hnd as [Hm Hnd]. cbn [fst] in Hm.
  change (cancel_departed want ((m, r) :: l) fl)
    with (cancel_departed want l (if bool_decide (is_Some (want !! m)) then fl else cancel_endpoint m r fl)).
  assert (Hmr : active fl !! m = Some r) by (apply Hl; by left).
  case_bool_decide as Hs.
  - destruct (IH fl) as [H1 H2]; [done|intros; apply Hl; by right|done|]. split; [done|]. intros n. rewrite H2.
    rewrite fmap_cons. apply not_eq_None_Some in Hs. repeat case_decide; set_solver.
  - apply eq_None_not_Some in Hs. destruct (IH (cancel_endpoint m r fl)) as [H1 H2].
    + by apply cancel_wf.
    + intros n r' Hin. cbn. rewrite lookup_delete_ne; [apply Hl; by right|].
      intros <-. apply Hm. by apply (list_elem_of_fmap_2 fst) in Hin.
    + done.
    + split; [done|]. intros n. rewrite H2, cancel_running, fmap_cons by done. repeat case_decide; set_solver.
Qed.

(** One reconcile: what runs afterwards, by name. *)
Lemma reconcile_spec v eps fl :
  visit_ok v → fleet_wf fl →
  fleet_wf (reconcileFleet v eps fl) ∧
  ∀ n, running (reconcileFleet v eps fl) n =
    match running fl n with
    | Some ep => if decide (n ∈ a_Name <$> eps) then Some ep else None
    | None => want_of eps !! n
    end.
Proof.
  intros [Hv1 Hv2] Hwf. unfold reconcileFleet.
  destruct (cancel_departed_spec (want_of eps) (v_active v (map_to_list (active fl))) fl Hwf) as [Hwf1 Hrun1].
  { intros n r. rewrite Hv1. apply elem_of_map_to_list. }
  { rewrite Hv1. apply NoDup_fst_map_to_list. }
  destruct (start_new_spec (v_want v (map_to_list (want_of eps))) _ Hwf1) as [Hwf2 Hrun2].
  { intros n ep. rewrite Hv2, elem_of_map_to_list. apply want_of_name. }
  { rewrite Hv2. apply NoDup_fst_map_to_list. }
  split; [done|]. intros n. rewrite Hrun2, Hrun1.
  rewrite (list_to_map_proper _ (map_to_list (want_of eps)));
    [|rewrite Hv2; apply NoDup_fst_map_to_list|apply Hv2]. rewrite list_to_map_to_list.
  pose proof (want_of_lookup eps n) as Hw.
  destruct (running fl n) as [ep|] eqn:E; [|by case_decide].
  assert (Hin : n ∈ (v_active v (map_to_list (active fl))).*1).
  { rewrite Hv1. unfold running in E. destruct (active fl !! n) as [r|] eqn:Ea; [|done].
    apply (list_elem_of_fmap_2' fst _ (n, r)); [by apply elem_of_map_to_list|done]. }
  destruct (want_of eps !! n) as [ep'|] eqn:Ew.
  - rewrite decide_False by naive_solver. rewrite decide_True; [done|]. apply Hw. eauto.
  - rewrite decide_True by done. rewrite decide_False; [done|]. rewrite <-Hw. by intros [? ?].
Qed.

Lemma seed_wf agents :
  NoDup (a_Name <$> agents) →
  fleet_wf (seed agents) ∧ ∀ n, is_Some (running (seed agents) n) ↔ n ∈ a_Name <$> agents.
Proof.
  induction agents as [|ep agents IH] using rev_ind; intros Hnd.
  { split; [split; cbn; intros ??; rewrite lookup_empty; done|]. intros n. cbn. split; [by intros [? ?]|set_solver]. }
  rewrite fmap_app, NoDup_app in Hnd. destruct Hnd as (Hnd & Hdis & _). destruct (IH Hnd) as [Hwf Hrun].
  unfold seed. rewrite foldl_app. cbn [foldl]. fold (seed agents).
  assert (HN : active (seed agents) !! a_Name ep = None).
  { apply running_None; [done|]. apply eq_None_not_Some. rewrite Hrun. intros Hin. apply (Hdis _ Hin). set_solver. }
  split; [by apply start_wf|]. intros n. rewrite start_running by done. rewrite fmap_app, elem_of_app, <-Hrun.
  case_decide as Hn; cbn; [subst; set_solver|]. set_solver.
Qed.

(** After any emissions the fleet is that of the last one. *)
Lemma reconcileLoop_names agents ems :
  NoDup (a_Name <$> agents) → Forall (λ em : visit * list AgentEndpoint, visit_ok em.1) ems →
  fleet_wf (reconcileLoop ems (seed agents)) ∧
  ∀ n, is_Some (running (reconcileLoop ems (seed agents)) n) ↔ n ∈ a_Name <$> default agents (snd <$> list.last ems).
Proof.
  intros Hnd Hems. induction ems as [|[v eps] ems IH] using rev_ind; [by apply seed_wf|].
  apply Forall_app in Hems as [Hems [Hv _]%Forall_cons]. destruct (IH Hems) as [Hwf _]. clear IH.
  unfold reconcileLoop. rewrite foldl_app, last_snoc. cbn [foldl fst snd fmap option_fmap option_map default from_option].
  fold (reconcileLoop ems (seed agents)). destruct (reconcile_spec v eps _ Hv Hwf) as [Hwf' Hrun].
  split; [done|]. intros n. rewrite Hrun. destruct (running _ n) as [ep|]; [|apply want_of_lookup].
  case_decide; [naive_solver|]. split; [by intros [? ?]|done].
Qed.

Lemma want_of_elem eps n ep : want_of eps !! n = Some ep → ep ∈ eps.
Proof.
  unfold want_of.
  assert (∀ m : gmap string AgentEndpoint, foldl (λ m ep, <[a_Name ep := ep]> m) m eps !! n = Some ep →
    ep ∈ eps ∨ m !! n = Some ep) as H.
  { induction eps as [|e eps IH]; intros m; [by right|]. cbn [foldl]. intros Hl.
    destruct (IH _ Hl) as [?|[[_ <-]|[_ ?]]%lookup_insert_Some]; [left; by right|left; by left|by right]. }
  intros [?|Hm]%H; [done|]. by rewrite lookup_empty in Hm.
Qed.

Lemma seed_elem agents n ep :
  NoDup (a_Name <$> agents) → running (seed agents) n = Some ep → ep ∈ agents.
Proof.
  induction agents as [|e agents IH] using rev_ind; intros Hnd; [done|].
  rewrite fmap_app, NoDup_app in Hnd. destruct Hnd as (Hnd & _ & _).
  unfold seed. rewrite foldl_app. cbn [foldl]. fold (seed agents).
  rewrite start_running by (by apply seed_wf). rewrite elem_of_app, list_elem_of_singleton.
  case_decide; [intros [= <-]; by right|auto].
Qed.

(** Whatever runs was configured or announced. *)
Lemma reconcileLoop_from agents ems n ep :
  NoDup (a_Name <$> agents) → Forall (λ em : visit * list AgentEndpoint, visit_ok em.1) ems →
  running (reconcileLoop ems (seed agents)) n = Some ep → ep ∈ agents ∨ ∃ em, em ∈ ems ∧ ep ∈ em.2.
Proof.
  intros Hnd Hems. induction ems as [|[v eps] ems IH] using rev_ind; [left; by eapply seed_elem|].
  apply Forall_app in Hems as [Hems [Hv _]%Forall_cons].
  destruct (reconcileLoop_names agents ems Hnd Hems) as [Hwf _].
  unfold reconcileLoop. rewrite foldl_app. cbn [foldl fst snd]. fold (reconcileLoop ems (seed agents)).
  rewrite (proj2 (reconcile_spec v eps _ Hv Hwf)). destruct (running _ n) as [ep'|].
  - case_decide; [|done]. intros Hr. destruct (IH Hems Hr) as [?|(em & ? & ?)]; [by left|right; exists em; set_solver].
  - intros Hw%want_of_elem. right. exists (v, eps). set_solver.
Qed.

(** C35: with distinct static names, after any sequence of discovery emissions
    (and whatever order the maps are visited in) every run can still be
    cancelled, there is one per name, and the names are those of the last
    emission, or the static ones before the first; a name that stays keeps the
    endpoint it was started with. *)
Theorem fleet_tracks_discovery agents ems :
  NoDup (a_Name <$> agents) → Forall (λ em : visit * list AgentEndpoint, visit_ok em.1) ems →
  let fl := reconcileLoop ems (seed agents) in
  fleet_wf fl ∧
  (∀ n, is_Some (running fl n) ↔ n ∈ a_Name <$> default agents (snd <$> list.last ems)) ∧
  ∀ v eps n ep, visit_ok v → running fl n = Some ep → n ∈ a_Name <$> eps →
    running (reconcileFleet v eps fl) n = Some ep.
Proof.
  intros Hnd Hems fl. destruct (reconcileLoop_names agents ems Hnd Hems) as [Hwf Hn].
  split_and!; [done|done|]. intros v eps n ep Hv Hr Hin.
  destruct (reconcile_spec v eps fl Hv Hwf) as [_ ->]. by rewrite Hr, decide_True.
Qed.

(** ** Orphans *)

(** A run no name leads to. *)
Definition orphan (fl : fleet) (r : nat) (ep : AgentEndpoint) : Prop :=
  runs fl !! r = Some ep ∧ r < next_run fl ∧ ∀ n, active fl !! n ≠ Some r.

Lemma start_orphan e fl r ep : orphan fl r ep → orphan (startEndpoint e fl) r ep.
Proof.
  intros (Hr & Hlt & Ha). split_and!; cbn; [rewrite lookup_insert_ne by lia; done|lia|].
  intros n [[_ ?]|[_ ?]]%lookup_insert_Some; [lia|by apply (Ha n)].
Qed.

Lemma cancel_departed_orphan want l fl r ep :
  (∀ n r', (n, r') ∈ l → r' ≠ r) → orphan fl r ep → orphan (cancel_departed want l fl) r ep.
Proof.
  revert fl. induction l as [|[m r'] l IH]; intros fl Hl Ho; [done|].
  change (cancel_departed want ((m, r') :: l) fl)
    with (cancel_departed want l (if bool_decide (is_Some (want !! m)) then fl else cancel_endpoint m r' fl)).
  apply IH; [intros; eapply Hl; by right|]. case_bool_decide; [done|]. destruct Ho as (Hr & Hlt & Ha).
  split_and!; cbn; [|done|].
  - rewrite lookup_delete_ne; [done|]. eapply Hl. by left.
  - intros n [_ ?]%lookup_delete_Some. by apply (Ha n).
Qed.

Lemma start_new_orphan l fl r ep : orphan fl r ep → orphan (start_new l fl) r ep.
Proof.
  revert fl. induction l as [|[m e] l IH]; intros fl Ho; [done|]. apply (IH (if bool_decide _ then fl else _)).
  case_bool_decide; [done|]. by apply start_orphan.
Qed.

Lemma reconcile_orphan v eps fl r ep : visit_ok v → orphan fl r ep → orphan (reconcileFleet v eps fl) r ep.
Proof.
  intros [Hv _] Ho. apply start_new_orphan, cancel_departed_orphan; [|done].
  intros n r'. rewrite Hv, elem_of_map_to_list. intros Hn ->. destruct Ho as (_ & _ & Ha). by apply (Ha n).
Qed.

Lemma seed_from_orphan l fl r ep : orphan fl r ep → orphan (foldl (λ fl ep, startEndpoint ep fl) fl l) r ep.
Proof. revert fl. induction l as [|e l IH]; intros fl Ho; [done|]. apply IH. by apply start_orphan. Qed.

(** A run that at most its own name leads to. *)
Definition held (fl : fleet) (r : nat) (ep : AgentEndpoint) : Prop :=
  runs fl !! r = Some ep ∧ r < next_run fl ∧ ∀ n, active fl !! n = Some r → n = a_Name ep.

Lemma seed_from_held l fl r ep : held fl r ep → held (foldl (λ fl ep, startEndpoint ep fl) fl l) r ep.
Proof.
  revert fl. induction l as [|e l IH]; intros fl (Hr & Hlt & Ha); [done|]. apply IH.
  split_and!; cbn; [rewrite lookup_insert_ne by lia; done|lia|].
  intros n [[_ ?]|[_ ?]]%lookup_insert_Some; [lia|auto].
Qed.

Lemma held_orphan fl r ep ep' : held fl r ep → a_Name ep' = a_Name ep → orphan (startEndpoint ep' fl) r ep.
Proof.
  intros (Hr & Hlt & Ha) Hn. split_and!; cbn; [rewrite lookup_insert_ne by lia; done|lia|].
  intros n [[_ ?]|[Hne Hl]]%lookup_insert_Some; [lia|]. apply Ha in Hl. congruence.
Qed.

Lemma seed_fresh agents n r : active (seed agents) !! n = Some r → r < next_run (seed agents).
Proof.
  revert n r. induction agents as [|e agents IH] using rev_ind; intros n r; [cbn; by rewrite lookup_empty|].
  unfold seed. rewrite foldl_app. cbn. fold (seed agents).
  intros [[_ <-]|[_ Hl]]%lookup_insert_Some; [lia|]. apply IH in Hl. lia.
Qed.

(** A static list that names an endpoint twice starts two runs of which only
    the later can be cancelled: the earlier keeps streaming through every later
    emission, also when its name has left the fleet. *)
Theorem duplicate_agent_never_cancelled pre mid post ep ep' ems :
  a_Name ep' = a_Name ep → Forall (λ em : visit * list AgentEndpoint, visit_ok em.1) ems →
  ∃ r, orphan (reconcileLoop ems (seed (pre ++ ep :: mid ++ ep' :: post))) r ep.
Proof.
  intros Hn Hems. exists (next_run (seed pre)).
  assert (H0 : orphan (seed (pre ++ ep :: mid ++ ep' :: post)) (next_run (seed pre)) ep).
  { unfold seed. rewrite foldl_app. cbn [foldl]. rewrite foldl_app. cbn [foldl]. fold (seed pre).
    apply seed_from_orphan, held_orphan, Hn. apply seed_from_held.
    split_and!; cbn; [by rewrite lookup_insert_eq|lia|].
    intros n [[<- _]|[_ Hl]]%lookup_insert_Some; [done|]. apply seed_fresh in Hl. lia. }
  revert H0. generalize (seed (pre ++ ep :: mid ++ ep' :: post)).
  induction Hems as [|em ems Hv Hems IH]; intros fl Ho; [done|]. apply (IH (reconcileFleet em.1 em.2 fl)).
  by apply reconcile_orphan.
Qed.

(** ** Witnesses *)

Module Demo.
Definition n1 : AgentEndpoint := mkAgent "n1" "10.0.0.1:9000".
Definition n1' : AgentEndpoint := mkAgent "n1" "10.0.0.9:9000".
Definition n2 : AgentEndpoint := mkAgent "n2" "10.0.0.2:9000".
Definition v : visit := mkVisit reverse id.
Lemma v_ok : visit_ok v.
Proof. split; intros l; [apply reverse_Permutation|done]. Qed.
End Demo.

Lemma fleet_tracks_discovery_witness :
  let fl := reconcileLoop [(Demo.v, [Demo.n2; Demo.n1'])] (seed [Demo.n1]) in
  fleet_wf fl ∧ running fl "n1" = Some Demo.n1 ∧ running fl "n2" = Some Demo.n2.
Proof.
  split; [|split; vm_compute; reflexivity].
  apply (fleet_tracks_discovery [Demo.n1] [(Demo.v, [Demo.n2; Demo.n1'])]).
  - apply NoDup_singleton.
  - apply Forall_singleton. exact Demo.v_ok.
Defined.

Lemma duplicate_agent_never_cancelled_witness :
  runs (reconcileLoop [(Demo.v, [Demo.n2])] (seed [Demo.n1; Demo.n1'])) !! 0%nat = Some Demo.n1 ∧
  ∃ r, orphan (reconcileLoop [(Demo.v, [Demo.n2])] (seed [Demo.n1; Demo.n1'])) r Demo.n1.
Proof.
  split; [vm_compute; reflexivity|].
  apply (duplicate_agent_never_cancelled [] [] [] Demo.n1 Demo.n1' [(Demo.v, [Demo.n2])]).
  - reflexivity.
  - apply Forall_singleton. exact Demo.v_ok.
Defined.
