(* ===== verification/AggregatorSpec.v ===== *)
(** * The aggregator: what is emitted, numbered, counted and kept

    Theorems about one iteration of the writer, about the broadcast to
    subscribers, about the agreement of log and broadcast, about the receive loop
    and about the fleet. *)
From Stdlib Require Import Ascii QArith.
From stdpp Require Import base numbers gmap strings sorting relations fin_maps list.
From S2P Require Import Prelude GoStr Json EnvWal EnvWalInv EnvWalLog EnvWalSpec Pb CursorStore ClusterPeers Aggregator.
Local Open Scope Z_scope.

(** ** Offers *)

Definition offers (evs : list liveEnvelope) (s : liveSubscriber) : liveSubscriber :=
  foldl (λ s e, offer e s) s evs.

Lemma offers_conserve evs s :
  ∃ sent, sublist sent evs ∧ sub_ch (offers evs s) = sub_ch s ++ sent ∧ sub_cap (offers evs s) = sub_cap s ∧
    u64 (sub_drops (offers evs s)) = u64 (sub_drops s + Z.of_nat (length evs - length sent)).
Proof.
  revert s. induction evs as [|e evs IH]; intros s.
  { exists []. cbn. rewrite app_nil_r, Z.add_0_r. done. }
  destruct (IH (offer e s)) as (sent & Hsub & Hch & Hcap & Hd).
  change (offers (e :: evs) s) with (offers evs (offer e s)). rewrite Hch, Hcap, Hd.
  pose proof (sublist_length _ _ Hsub) as Hlen. unfold offer. case_bool_decide.
  - exists (e :: sent). cbn. rewrite <-(assoc_L (++)). split_and!; [by apply sublist_skip|done|done|].
    do 2 f_equal; lia.
  - exists sent. cbn. split_and!; [by apply sublist_cons|done|done|].
    unfold u64. rewrite Zplus_mod_idemp_l. f_equal. lia.
Qed.

Lemma offers_fit evs s :
  Z.of_nat (length (sub_ch s) + length evs) ≤ sub_cap s →
  sub_ch (offers evs s) = sub_ch s ++ evs ∧ sub_drops (offers evs s) = sub_drops s.
Proof.
  revert s. induction evs as [|e evs IH]; intros s Hcap; [cbn; by rewrite app_nil_r|].
  change (offers (e :: evs) s) with (offers evs (offer e s)). cbn [length] in Hcap.
  assert (offer e s = mkSub (sub_cap s) (sub_ch s ++ [e]) (sub_drops s)) as ->.
  { unfold offer. by rewrite bool_decide_eq_true_2 by lia. }
  destruct (IH (mkSub (sub_cap s) (sub_ch s ++ [e]) (sub_drops s))) as [-> ->].
  - cbn. rewrite length_app. cbn. lia.
  - cbn. by rewrite <-(assoc_L (++)).
Qed.

(** ** One iteration of the writer *)

Definition is_control (env : EventEnvelope) : Prop :=
  ∃ i, GetIntent env = Some i ∧ (Kind i = KindListenerAdvertise ∨ Kind i = KindListenerWithdraw).

Section writer.
Context `{!ProtoJSON EventEnvelope}.

Lemma assign_seq_subs io ev a :
  subs (assign_seq io ev a).1 = subs a ∧ registry (assign_seq io ev a).1 = registry a.
Proof. unfold assign_seq. destruct (wal a) as [[w fs]|]; [|done]. by destruct (Append _ _ _ _ _) as [[w' fs'] []]. Qed.

Lemma emit_subs io ok ev a :
  subs (emitEnvelope io ok ev a) =
    offer (mkLive (assign_seq io ev a).2 (ev_Agent ev) (ev_Envelope ev)) <$> subs a.
Proof.
  unfold emitEnvelope. destruct (assign_seq_subs io ev a) as [Hs _].
  destruct (assign_seq io ev a) as [a1 q]. cbn in *.
  destruct (Marshal _); [destruct ok|]; cbn; by rewrite Hs.
Qed.

Lemma emit_wal io ok ev a :
  wal (emitEnvelope io ok ev a) = wal (assign_seq io ev a).1 ∧
  liveSeq (emitEnvelope io ok ev a) = liveSeq (assign_seq io ev a).1 ∧
  registry (emitEnvelope io ok ev a) = registry a.
Proof.
  unfold emitEnvelope. destruct (assign_seq_subs io ev a) as [_ Hr].
  destruct (assign_seq io ev a) as [a1 q]. cbn in *. by destruct (Marshal _); [destruct ok|].
Qed.

Lemma fold_control now env a :
  is_control env →
  match foldAdvertise now env a with
  | (a1, true) => subs a1 = subs a ∧ wal a1 = wal a ∧ out a1 = out a ∧ cnt a1 = cnt a
  | (a1, false) => a1 = a ∧ (foldWithdraw env a).2 = true ∧ subs (foldWithdraw env a).1 = subs a ∧
      wal (foldWithdraw env a).1 = wal a ∧ out (foldWithdraw env a).1 = out a ∧ cnt (foldWithdraw env a).1 = cnt a
  end.
Proof.
  intros (i & Hi & Hk). unfold foldAdvertise, foldWithdraw. rewrite Hi.
  case_bool_decide as H1.
  - destruct Hk as [?|Hk]; [done|]. rewrite bool_decide_eq_false_2 by (rewrite Hk; auto).
    by destruct (ListenerFromWithdraw _).
  - by destruct (ListenerFromAdvertise _).
Qed.

Lemma fold_data now env a :
  ¬ is_control env → foldAdvertise now env a = (a, false) ∧ foldWithdraw env a = (a, false).
Proof.
  intros Hn. unfold foldAdvertise, foldWithdraw, is_control in *.
  destruct (GetIntent env) as [i|]; [|done].
  split; rewrite bool_decide_eq_true_2; try done; naive_solver.
Qed.

Lemma joinPeer_frame now env a :
  subs (joinPeer now env a).1 = subs a ∧ wal (joinPeer now env a).1 = wal a ∧
  liveSeq (joinPeer now env a).1 = liveSeq a ∧
  ∀ edge, (joinPeer now env a).2 = Some edge → Kind edge = KindClusterPeerEdge ∧
    ∃ i l how node, GetIntent env = Some i ∧ Kind i = KindNetworkExchange ∧ edge = PeerEdge i l how node.
Proof.
  unfold joinPeer. destruct (GetIntent env) as [i|]; [|done].
  case_bool_decide as Hk; [done|]. do 2 (case_bool_decide; [done|]). destruct (Join _ _ _) as [[l how]|]; [|done].
  split_and!; try done. intros edge [= <-]. split; [done|]. by eexists i, l, how, _.
Qed.

(** What the writer broadcast for one envelope. *)
Definition emitted (io : write_io) (ev : envelopeWithAgent) (a : Aggregator) (evs : list liveEnvelope) : Prop :=
  subs (handle io ev a) = offers evs <$> subs a.

Lemma handle_control io ev a :
  is_control (ev_Envelope ev) →
  emitted io ev a [] ∧ wal (handle io ev a) = wal a ∧ out (handle io ev a) = out a ∧ cnt (handle io ev a) = cnt a.
Proof.
  intros Hc. unfold emitted, handle. pose proof (fold_control (wi_now io) (ev_Envelope ev) a Hc) as HF.
  assert (Hid : offers [] <$> subs a = subs a) by (rewrite <-(map_fmap_id (subs a)) at 2; done).
  destruct (foldAdvertise _ _ a) as [a1 []]; [by rewrite Hid; destruct HF as (-> & -> & -> & ->)|].
  destruct HF as (-> & Ht & HF). destruct (foldWithdraw _ a) as [a2 b]. cbn in *. subst b.
  rewrite Hid. by destruct HF as (-> & -> & -> & ->).
Qed.

Lemma handle_data io ev a :
  ¬ is_control (ev_Envelope ev) →
  ∃ s1, emitted io ev a [mkLive s1 (ev_Agent ev) (ev_Envelope ev)] ∨
    ∃ s2 edge, Kind edge = KindClusterPeerEdge ∧
      emitted io ev a [mkLive s1 (ev_Agent ev) (ev_Envelope ev); mkLive s2 (ev_Agent ev) (edge_envelope edge)].
Proof.
  intros Hn. unfold emitted, handle. destruct (fold_data (wi_now io) (ev_Envelope ev) a Hn) as [-> ->].
  pose proof (emit_subs (wi_log io) (wi_out io) ev a) as Hs1.
  set (a3 := emitEnvelope _ _ ev a) in *. set (s1 := (assign_seq _ ev a).2) in *. exists s1.
  destruct (joinPeer_frame (wi_now io) (ev_Envelope ev) a3) as (Hs & _ & _ & He).
  destruct (joinPeer _ _ a3) as [a4 [edge|]]; cbn in Hs, He.
  - right. eexists _, edge. split; [by apply He|]. rewrite emit_subs, Hs, Hs1.
    rewrite <-map_fmap_compose. reflexivity.
  - left. rewrite Hs, Hs1. reflexivity.
Qed.

(** An advertise or a withdraw is consumed: nothing is broadcast, logged,
    written or counted for it.  Any other envelope is broadcast exactly once to
    every subscriber, followed at once by at most one peer edge tagged with the
    same agent. *)
Theorem handle_emits_once io ev a :
  (is_control (ev_Envelope ev) →
     emitted io ev a [] ∧ wal (handle io ev a) = wal a ∧ out (handle io ev a) = out a ∧ cnt (handle io ev a) = cnt a) ∧
  (¬ is_control (ev_Envelope ev) →
     ∃ s1, emitted io ev a [mkLive s1 (ev_Agent ev) (ev_Envelope ev)] ∨
       ∃ s2 edge, Kind edge = KindClusterPeerEdge ∧
         emitted io ev a [mkLive s1 (ev_Agent ev) (ev_Envelope ev); mkLive s2 (ev_Agent ev) (edge_envelope edge)]).
Proof.
  split; [apply handle_control|apply handle_data].
Qed.

(** ** Log and broadcast agree *)

Definition live_of (e : Entry EventEnvelope) : liveEnvelope := mkLive (Seq e) (Agent e) (Envelope e).

(** The aggregator holds an open, dense log of these contents. *)
Definition logging (a : Aggregator) (q : Z) (l : list diskEntry) : Prop :=
  ∃ w fs old c, wal a = Some (w, fs) ∧ Clean (Env := EventEnvelope) w fs old c ∧ f c = true ∧
    seq w = q ∧ log fs (segments w) = l.

(** [ext] was appended behind [q], and [evs] is what it decodes to. *)
Definition extends (q : Z) (ext : list diskEntry) (evs : list liveEnvelope) : Prop :=
  d_seq <$> ext = seqZ (q + 1) (Z.of_nat (length ext)) ∧ live_of <$> omap to_entry ext = evs ∧
  length evs = length ext.

Lemma extends_app q ext1 evs1 ext2 evs2 :
  extends q ext1 evs1 → extends (q + Z.of_nat (length ext1)) ext2 evs2 → extends q (ext1 ++ ext2) (evs1 ++ evs2).
Proof.
  intros (H1 & H2 & H3) (H4 & H5 & H6). split_and!.
  - rewrite fmap_app, H1, H4, length_app, Nat2Z.inj_add, seqZ_app by lia. do 2 f_equal. lia.
  - by rewrite omap_app, fmap_app, H2, H5.
  - rewrite !length_app. lia.
Qed.

Lemma emit_logs `{!ProtoJSONOk EventEnvelope} io ok ev a q l :
  logging a q l → q < u64_max - 1 → io_ok io → is_Some (Marshal (ev_Envelope ev)) →
  all_bytes is_ascii7 (ev_Agent ev) = true →
  (assign_seq io ev a).2 = q + 1 ∧
  ∃ d, logging (emitEnvelope io ok ev a) (q + 1) (l ++ [d]) ∧
    extends q [d] [mkLive (q + 1) (ev_Agent ev) (ev_Envelope ev)].
Proof.
  intros (w & fs & old & c & Hw & HC & Hf & Hq & Hl) Hlt Hio [b Hm] Hag. subst q l.
  destruct (Append_clean io (ev_Agent ev) (ev_Envelope ev) b w fs old c)
    as (w' & fs' & old' & c' & HA & HC' & Hf' & Hq' & Hl'); [done..|].
  assert (Has : assign_seq io ev a = (set_liveSeq (seq w + 1) (upd_cnt add_walAppends (set_wal (Some (w', fs')) a)), seq w + 1)).
  { unfold assign_seq. by rewrite Hw, HA. }
  rewrite Has. split; [done|]. eexists. split.
  - exists w', fs', old', c'. rewrite (proj1 (emit_wal io ok ev a)), Has. split_and!; try done.
  - split_and!; [done| |done]. cbn. unfold to_entry. cbn.
    by rewrite (unmarshal_compact _ _ Hm), to_valid_utf8_ascii.
Qed.

Lemma Append_no_marshal io agent (e : EventEnvelope) w fs :
  Marshal e = None → Append io agent (Some e) w fs = (w, fs, Err ErrMarshal).
Proof. intros Hm. unfold Append. by rewrite Hm. Qed.

Lemma logging_ext a a' q l : wal a' = wal a → logging a q l → logging a' q l.
Proof. intros E (w & fs & old & c & Hw & H). exists w, fs, old, c. by rewrite E. Qed.

Definition write_ok (io : write_io) : Prop := io_ok (wi_log io) ∧ io_ok (wi_edge_log io).

(** protojson encodes the envelope and every peer edge it can give rise to. *)
Definition encodable (env : EventEnvelope) : Prop :=
  is_Some (Marshal env) ∧
  ∀ i l how node, GetIntent env = Some i → Kind i = KindNetworkExchange →
    is_Some (Marshal (edge_envelope (PeerEdge i l how node))).

(** The log writes succeed, the envelope is encodable and its agent's name is ASCII. *)
Definition smooth (x : write_io * envelopeWithAgent) : Prop :=
  write_ok x.1 ∧ encodable (ev_Envelope x.2) ∧ all_bytes is_ascii7 (ev_Agent x.2) = true.

Lemma offers_app evs1 evs2 (m : gmap nat liveSubscriber) :
  offers evs2 <$> (offers evs1 <$> m) = offers (evs1 ++ evs2) <$> m.
Proof. rewrite <-map_fmap_compose. apply map_fmap_ext. intros i s _. cbn. unfold offers. by rewrite foldl_app. Qed.

Lemma handle_logs `{!ProtoJSONOk EventEnvelope} io ev a q l :
  logging a q l → q < u64_max - 2 → smooth (io, ev) →
  ∃ ext evs, emitted io ev a evs ∧ logging (handle io ev a) (q + Z.of_nat (length ext)) (l ++ ext) ∧
    extends q ext evs ∧ (length ext ≤ 2)%nat.
Proof.
  intros HL Hlt ([Hio1 Hio2] & [Hm HM] & Hag). cbn [fst snd] in *.
  assert (Hdec : is_control (ev_Envelope ev) ∨ ¬ is_control (ev_Envelope ev)).
  { unfold is_control. destruct (GetIntent (ev_Envelope ev)) as [i|]; [|right; naive_solver].
    destruct (decide (Kind i = KindListenerAdvertise)), (decide (Kind i = KindListenerWithdraw)); naive_solver. }
  destruct Hdec as [Hc|Hn].
  - destruct (handle_control io ev a Hc) as (He & Hw & _).
    exists [], []. cbn. rewrite app_nil_r, Z.add_0_r. split_and!; [done|by eapply logging_ext|done|lia].
  - unfold emitted, handle. destruct (fold_data (wi_now io) (ev_Envelope ev) a Hn) as [-> ->].
    destruct (emit_logs (wi_log io) (wi_out io) ev a q l) as (Hs1 & d1 & HL1 & He1); [done|lia|done|done|done|].
    pose proof (emit_subs (wi_log io) (wi_out io) ev a) as Hsub1. rewrite Hs1 in Hsub1.
    set (a3 := emitEnvelope _ _ ev a) in *.
    destruct (joinPeer_frame (wi_now io) (ev_Envelope ev) a3) as (Hs & Hw & _ & Hedge).
    destruct (joinPeer _ _ a3) as [a4 [edge|]]; cbn in Hs, Hw, Hedge.
    + destruct (Hedge edge eq_refl) as (_ & i & lis & how & node & Hi & Hk & Heq).
      assert (Hme : is_Some (Marshal (edge_envelope edge))) by (subst edge; by apply HM).
      set (ev2 := mkEv (ev_Agent ev) (edge_envelope edge)).
      destruct (emit_logs (wi_edge_log io) (wi_edge_out io) ev2 a4 (q + 1) (l ++ [d1]))
        as (Hs2 & d2 & HL2 & He2); [by eapply logging_ext|lia|done|done|done|].
      exists [d1; d2], [mkLive (q + 1) (ev_Agent ev) (ev_Envelope ev); mkLive (q + 1 + 1) (ev_Agent ev) (edge_envelope edge)].
      rewrite emit_subs, Hs2, Hs, Hsub1, <-map_fmap_compose. split_and!; [done| |exact (extends_app q [d1] _ [d2] _ He1 He2)|done].
      rewrite <-(assoc_L (++)) in HL2. replace (q + 1 + 1) with (q + 2) in HL2 by lia. exact HL2.
    + exists [d1], [mkLive (q + 1) (ev_Agent ev) (ev_Envelope ev)].
      rewrite Hs, Hsub1. split_and!; [done|by eapply logging_ext|done|cbn; lia].
Qed.

(** A run of the writer over a list of envelopes. *)
Definition handle_all (l : list (write_io * envelopeWithAgent)) (a : Aggregator) : Aggregator :=
  foldl (λ a x, handle x.1 x.2 a) a l.

Lemma handle_all_logs `{!ProtoJSONOk EventEnvelope} l a q lg :
  logging a q lg → q + 2 * Z.of_nat (length l) < u64_max - 2 → Forall smooth l →
  ∃ ext evs, subs (handle_all l a) = offers evs <$> subs a ∧
    logging (handle_all l a) (q + Z.of_nat (length ext)) (lg ++ ext) ∧ extends q ext evs ∧
    (length ext ≤ 2 * length l)%nat.
Proof.
  intros HL Hlt Hl. revert a q lg HL Hlt. induction Hl as [|[io ev] l Hx Hl IH]; intros a q lg HL Hlt.
  { exists [], []. cbn. rewrite app_nil_r, Z.add_0_r. split_and!; [|done|done..].
    rewrite <-(map_fmap_id (subs a)) at 1. done. }
  cbn [length fst snd] in *.
  destruct (handle_logs io ev a q lg HL) as (ext1 & evs1 & He1 & HL1 & Hx1 & Hn1); [lia|done|].
  destruct (IH (handle io ev a) (q + Z.of_nat (length ext1)) (lg ++ ext1) HL1) as (ext2 & evs2 & He2 & HL2 & Hx2 & Hn2); [lia|].
  change (handle_all ((io, ev) :: l) a) with (handle_all l (handle io ev a)).
  exists (ext1 ++ ext2), (evs1 ++ evs2). split_and!.
  - unfold emitted in He1. by rewrite He2, He1, offers_app.
  - by rewrite length_app, Nat2Z.inj_add, Z.add_assoc, (assoc_L (++)).
  - by apply extends_app.
  - rewrite length_app. lia.
Qed.

Lemma extends_seqs q ext evs : extends q ext evs → le_Seq <$> evs = seqZ (q + 1) (Z.of_nat (length ext)).
Proof.
  intros (<- & <- & Hlen). clear q. rewrite length_fmap in Hlen.
  assert (Hle : ∀ l : list diskEntry, (length (omap to_entry l) ≤ length l)%nat).
  { induction l as [|d l IH]; [done|]. cbn. destruct (to_entry d); cbn; lia. }
  induction ext as [|d ext IH]; [done|]. cbn in *. destruct (to_entry d) as [e|] eqn:E; cbn in *.
  - f_equal; [|apply IH; lia]. unfold to_entry in E. destruct (Unmarshal (d_envelope d)); [|done]. by injection E as <-.
  - specialize (Hle ext). lia.
Qed.
End writer.
