(* ===== verification/ReExport.v ===== *)
(** * The re-export service

    Model of src/internal/aggregator/reexport.go: the filters, the cursor stamp,
    the replay of the log and the live tail of one downstream subscriber. *)
From Stdlib Require Import Ascii QArith.
From stdpp Require Import base numbers gmap strings sorting relations fin_maps list.
From S2P Require Import Prelude GoStr Json EnvWal EnvWalInv EnvWalLog EnvWalSpec Pb CursorStore ClusterPeers Aggregator AggregatorSpec.
Local Open Scope Z_scope.

Record ReExportServer := mkReExport { AggregatorID : string; SubscriberBuffer : Z }.

Definition NewReExportServer : ReExportServer := mkReExport "kloudlens-aggregator" 1024.

(** ** Filters *)

Definition streamMatches (want : string) (env : EventEnvelope) : bool :=
  if bool_decide (want = "") then true
  else match e_Payload env with
       | Some (EventEnvelope_Intent _) => bool_decide (want = "intent")
       | Some (EventEnvelope_Deviation _) => bool_decide (want = "deviation")
       | Some (EventEnvelope_GraphEdge _) => bool_decide (want = "graph_edge")
       | Some (EventEnvelope_Lifecycle _) => bool_decide (want = "lifecycle")
       | Some (EventEnvelope_Audit _) => bool_decide (want = "audit")
       | _ => false
       end.

(** [len(l) > 0 && !slices.Contains(l, v)]. *)
Definition excluded (l : list string) (v : string) : bool := bool_decide (l ≠ []) && bool_decide (v ∉ l).

Definition meta_excluded (f : EventFilter) (m : option ContainerMeta) : bool :=
  match m with
  | None => false
  | Some m => excluded (Namespaces f) (Namespace m) || excluded (Pods f) (Pod m)
  end.

Definition envelopePassesFilter (env : EventEnvelope) (f : option EventFilter) : bool :=
  match f with
  | None => true
  | Some f =>
      match GetIntent env with
      | Some iv =>
          if excluded (Kinds f) (Kind iv) then false
          else if meta_excluded f (Meta iv) then false
          else bool_decide (MinSeverity f = 0) || bool_decide (MinSeverity f ≤ Severity iv)
      | None =>
          match GetDeviation env with
          | Some dv =>
              if excluded (Kinds f) (d_Kind dv) then false
              else if meta_excluded f (d_Meta dv) then false
              else true
          | None =>
              match GetRawSyscall env with
              | Some rs =>
                  if excluded (Kinds f) (SyscallName rs) && excluded (Kinds f) (Category rs) then false
                  else if meta_excluded f (r_Meta rs) then false
                  else bool_decide (MinSeverity f = 0) || bool_decide (MinSeverity f ≤ r_Severity rs)
              | None => true
              end
          end
      end
  end.

Definition stampCursor (r : ReExportServer) (env : EventEnvelope) (seq : Z) (streamName : string) : EventEnvelope :=
  mkEnvelope (Some (mkCursor (AggregatorID r) streamName seq)) (e_Payload env) (e_other env).

(** ** Subscribe *)

(** How a subscription ends. *)
Inductive rx_end := RxFailedPrecondition | RxInternal | RxSend | RxCtxDone.

Section subscribe.
Context `{!ProtoJSON EventEnvelope}.
Context (r : ReExportServer) (streamName : string) (filt : option EventFilter).
(** Whether the n-th [Send] succeeds. *)
Context (send_ok : nat → bool).

Definition passes (env : EventEnvelope) : bool := streamMatches streamName env && envelopePassesFilter env filt.

(** What has been sent, and [lastSentSeq]. *)
Definition rx_state : Type := list EventEnvelope * Z.

Definition send (st : rx_state) (env : EventEnvelope) (seq : Z) : rx_state * bool :=
  if send_ok (length st.1) then ((st.1 ++ [stampCursor r env seq streamName], seq), true) else (st, false).

Definition replay_cb (st : rx_state) (e : Entry EventEnvelope) : rx_state * bool :=
  if negb (passes (Envelope e)) then (st, true) else send st (Envelope e) (Seq e).

Definition replayWAL (w : WAL) (opens : string → open_res) (fromSeq : Z) (st : rx_state)
    : rx_state * option rx_end :=
  match ReadFrom replay_cb fromSeq w opens st with
  | (st', None) => (st', None)
  | (st', Some ErrCursorExpired) => (st', Some RxFailedPrecondition)
  | (st', Some _) => (st', Some RxInternal)
  end.

(** The live tail over what the channel delivers before the context ends. *)
Fixpoint live_tail (evs : list liveEnvelope) (st : rx_state) : rx_state * rx_end :=
  match evs with
  | [] => (st, RxCtxDone)
  | ev :: evs' =>
      if bool_decide (le_Seq ev ≤ st.2) then live_tail evs' st
      else if negb (passes (le_Envelope ev)) then live_tail evs' st
      else match send st (le_Envelope ev) (le_Seq ev) with
           | (st', true) => live_tail evs' st'
           | (st', false) => (st', RxSend)
           end
  end.

(** After registration: replay when a cursor was given and there is a log, then
    the live tail. *)
Definition subscribe_run (cur : option Cursor) (lg : option (WAL * (string → open_res)))
    (evs : list liveEnvelope) : rx_state * rx_end :=
  let replayed :=
    match cur, lg with
    | Some c, Some (w, opens) => replayWAL w opens (CurSeq c) ([], 0)
    | _, _ => (([], 0), None)
    end in
  match replayed with
  | (st, Some e) => (st, e)
  | (st, None) => live_tail evs st
  end.
End subscribe.

(** The whole call: register, read the request, run. *)
Definition stream_of (req : SubscribeRequest) : string :=
  match Streams req with s :: _ => s | [] => "" end.

Definition Subscribe_enter (r : ReExportServer) (a : Aggregator) : Aggregator * nat :=
  registerSubscriber (SubscriberBuffer r) a.

Definition Subscribe `{!ProtoJSON EventEnvelope} (r : ReExportServer) (req : SubscribeRequest) (send_ok : nat → bool)
    (lg : option (WAL * (string → open_res))) (evs : list liveEnvelope) : rx_state * rx_end :=
  subscribe_run r (stream_of req) (Filter req) send_ok (r_Cursor req) lg evs.

(** ** Facts *)

Section facts.
Context `{!ProtoJSON EventEnvelope}.
Context (r : ReExportServer) (sn : string) (filt : option EventFilter) (send_ok : nat → bool).
Hypothesis Hsend : ∀ n, send_ok n = true.

Abbreviation pass := (passes sn filt).

Definition stamp (e : liveEnvelope) : EventEnvelope := stampCursor r (le_Envelope e) (le_Seq e) sn.
Definition passing (evs : list liveEnvelope) : list liveEnvelope :=
  filter (λ e, pass (le_Envelope e) = true) evs.
Definition last_seq (evs : list liveEnvelope) (d : Z) : Z := default d (le_Seq <$> list.last (passing evs)).

Lemma feed_replay es st :
  feed (replay_cb r sn filt send_ok) es st =
    ((st.1 ++ (stamp <$> passing (live_of <$> es)), last_seq (live_of <$> es) st.2), None).
Proof.
  revert st. induction es as [|e es IH]; intros [sent last]; cbn [feed].
  { cbn. by rewrite app_nil_r. }
  unfold replay_cb at 1, send. rewrite fmap_cons. unfold last_seq, passing in *.
  destruct (pass (Envelope e)) eqn:Hp; cbn [negb].
  - rewrite Hsend, IH, filter_cons_True by done. cbn [fst snd]. rewrite fmap_cons, last_cons, <-(assoc_L (++)).
    by destruct (list.last _).
  - rewrite IH, filter_cons_False by (cbn; congruence). done.
Qed.

(** Live events that were replayed, or are filtered out, are skipped. *)
Lemma live_tail_skip evs evs' st :
  Forall (λ e, le_Seq e ≤ st.2 ∨ pass (le_Envelope e) = false) evs →
  live_tail r sn filt send_ok (evs ++ evs') st = live_tail r sn filt send_ok evs' st.
Proof.
  induction 1 as [|e evs He Hevs IH]; [done|]. cbn [app live_tail].
  case_bool_decide; [done|]. destruct He as [?|He]; [lia|]. by rewrite He.
Qed.

(** Younger live events are sent in order. *)
Lemma live_tail_new evs st :
  StronglySorted Z.lt (le_Seq <$> evs) → Forall (λ e, st.2 < le_Seq e) evs →
  (live_tail r sn filt send_ok evs st).1.1 = st.1 ++ (stamp <$> passing evs) ∧
  (live_tail r sn filt send_ok evs st).2 = RxCtxDone.
Proof.
  revert st. induction evs as [|e evs IH]; intros st Hs Hlt; cbn [live_tail].
  { cbn. by rewrite app_nil_r. }
  rewrite fmap_cons in Hs. apply StronglySorted_cons in Hs as [He Hs]. apply Forall_cons in Hlt as [Hlt0 Hlt].
  rewrite bool_decide_eq_false_2 by lia. unfold passing in *.
  destruct (pass (le_Envelope e)) eqn:Hp; cbn [negb].
  - unfold send. rewrite Hsend, filter_cons_True by done. destruct (IH (st.1 ++ [stamp e], le_Seq e)) as [H1 H2].
    + done.
    + rewrite Forall_fmap in He. eapply Forall_impl; [exact He|]. cbn. lia.
    + unfold stamp in *. rewrite H1, H2, fmap_cons. cbn [fst]. by rewrite <-(assoc_L (++)).
  - rewrite filter_cons_False by congruence. by apply IH.
Qed.

(** A sorted list: no passing event lies above the last one. *)
Lemma last_seq_bound evs d e :
  StronglySorted Z.lt (le_Seq <$> evs) → e ∈ evs → pass (le_Envelope e) = true → le_Seq e ≤ last_seq evs d.
Proof.
  intros Hs Hin Hp. unfold last_seq.
  assert (Hf : e ∈ passing evs) by (by apply list_elem_of_filter).
  assert (Hs' : StronglySorted Z.lt (le_Seq <$> passing evs)).
  { eapply StronglySorted_sublist; [apply sublist_fmap, sublist_filter|exact Hs]. }
  revert Hf Hs'. generalize (passing evs). clear. intros l. induction l as [|x l _] using rev_ind; [set_solver|].
  rewrite last_snoc. cbn. rewrite elem_of_app, list_elem_of_singleton, fmap_app. intros [Hin| ->] Hs; [|lia].
  apply Z.lt_le_incl. eapply (StronglySorted_app_1_elem_of Z.lt); [exact Hs|by apply list_elem_of_fmap_2|].
  cbn. by left.
Qed.

Lemma last_seq_le evs d b : Forall (λ e, le_Seq e ≤ b) evs → d ≤ b → last_seq evs d ≤ b.
Proof.
  intros He Hd. unfold last_seq. destruct (list.last (passing evs)) as [x|] eqn:E; [|done]. cbn.
  apply last_Some_elem_of in E. apply list_elem_of_filter in E as [_ Hx]. rewrite Forall_forall in He. auto.
Qed.
End facts.

(** ** Replay, then live: exactly once *)

Section handoff.
Context `{!ProtoJSON EventEnvelope, !ProtoJSONOk EventEnvelope}.

Lemma above_live from l :
  le_Seq <$> (live_of <$> above from l) = Seq <$> above from l ∧ sublist (Seq <$> above from l) (d_seq <$> l).
Proof.
  split; [by rewrite <-list_fmap_compose|]. unfold above.
  induction l as [|d l IH]; [done|]. rewrite filter_cons. case_decide; cbn.
  - unfold to_entry at 1. destruct (Unmarshal _); cbn; [by apply sublist_skip|by apply sublist_cons].
  - by apply sublist_cons.
Qed.

Lemma above_ext from q l ext evs :
  from ≤ q → extends q ext evs → live_of <$> above from (l ++ ext) = (live_of <$> above from l) ++ evs.
Proof.
  intros Hle (Hq & <- & _). rewrite above_app, fmap_app. do 2 f_equal. unfold above.
  assert (filter (λ d, from < d_seq d) ext = ext) as ->; [|done].
  assert (Hall : Forall (λ z, from < z) (d_seq <$> ext)).
  { rewrite Hq, Forall_forall. intros z Hz%elem_of_seqZ. lia. }
  rewrite Forall_fmap in Hall. clear -Hall. induction Hall; [done|]. rewrite filter_cons_True by done. by f_equal.
Qed.

Lemma seqZ_sorted a n : StronglySorted Z.lt (seqZ a n).
Proof.
  destruct (decide (0 ≤ n)) as [Hn|Hn]; [|rewrite seqZ_nil by lia; constructor].
  revert a Hn. induction (Z.to_nat n) as [|k IH] eqn:E in n |- *; intros a Hn.
  - rewrite seqZ_nil by lia. constructor.
  - rewrite seqZ_cons by lia. constructor; [apply (IH (Z.pred n)); lia|].
    apply Forall_forall. intros z Hz%elem_of_seqZ. lia.
Qed.

Lemma logging_inv a q l :
  logging a q l → StronglySorted Z.lt (d_seq <$> l) ∧ Forall (λ d, d_seq d ≤ q) l ∧ 0 ≤ q < u64_max.
Proof.
  intros (w & fs & old & c & _ & HC & _ & <- & <-). pose proof (cl_inv _ _ _ _ HC) as HI.
  rewrite (inv_segs _ _ _ _ HI). split_and!; apply HI.
Qed.

(** Replay of the log up to a point, then a live channel that starts at or
    before that point. *)
Lemma replay_then_live r sn filt send_ok from q0 l0 ext1 evs1 ext2 evs2 :
  (∀ n, send_ok n = true) → 0 ≤ from ≤ q0 →
  StronglySorted Z.lt (d_seq <$> l0) → Forall (λ d, d_seq d ≤ q0) l0 →
  extends q0 ext1 evs1 → extends (q0 + Z.of_nat (length ext1)) ext2 evs2 →
  let st := ((stamp r sn <$> passing sn filt (live_of <$> above from (l0 ++ ext1))),
             last_seq sn filt (live_of <$> above from (l0 ++ ext1)) 0) in
  (live_tail r sn filt send_ok (evs1 ++ evs2) st).1.1 =
    stamp r sn <$> passing sn filt (live_of <$> above from ((l0 ++ ext1) ++ ext2)) ∧
  (live_tail r sn filt send_ok (evs1 ++ evs2) st).2 = RxCtxDone.
Proof.
  intros Hsend Hfrom Hs0 Hle0 Hx1 Hx2 st. set (q1 := q0 + Z.of_nat (length ext1)) in *.
  rewrite (above_ext from q1 (l0 ++ ext1) ext2 evs2) by (lia || done).
  assert (E1 : live_of <$> above from (l0 ++ ext1) = (live_of <$> above from l0) ++ evs1) by (apply (above_ext from q0); [lia|done]).
  unfold st. rewrite E1. clear st E1. set (base := live_of <$> above from l0).
  pose proof (extends_seqs _ _ _ Hx1) as Hq1. pose proof (extends_seqs _ _ _ Hx2) as Hq2.
  destruct (above_live from l0) as [Hb Hsub]. fold base in Hb.
  assert (Hbase : Forall (λ z, z ≤ q0) (le_Seq <$> base)).
  { rewrite Hb. eapply Forall_sublist; [exact Hsub|]. by rewrite Forall_fmap. }
  assert (Hsorted : StronglySorted Z.lt (le_Seq <$> (base ++ evs1))).
  { rewrite fmap_app, Hq1. apply StronglySorted_app_2; [| |apply seqZ_sorted].
    - intros x1 x2 H1 H2%elem_of_seqZ. rewrite Forall_forall in Hbase. specialize (Hbase _ H1). lia.
    - rewrite Hb. by eapply StronglySorted_sublist. }
  assert (Hbound : Forall (λ e, le_Seq e ≤ q1) (base ++ evs1)).
  { apply Forall_app. rewrite Forall_fmap in Hbase. split.
    - eapply Forall_impl; [exact Hbase|]. cbn. lia.
    - assert (Hz : Forall (λ z, z ≤ q1) (le_Seq <$> evs1)).
      { rewrite Hq1, Forall_forall. intros z Hz%elem_of_seqZ. unfold q1. lia. }
      by rewrite Forall_fmap in Hz. }
  rewrite live_tail_skip.
  2: { apply Forall_forall. intros e He. cbn [snd]. destruct (passes sn filt (le_Envelope e)) eqn:Hp; [left|by right].
       apply (last_seq_bound sn filt); [done|set_solver|done]. }
  destruct (live_tail_new r sn filt send_ok Hsend evs2
    (stamp r sn <$> passing sn filt (base ++ evs1), last_seq sn filt (base ++ evs1) 0)) as [H1 H2].
  - rewrite Hq2. apply seqZ_sorted.
  - assert (Hz : Forall (λ z, last_seq sn filt (base ++ evs1) 0 < z) (le_Seq <$> evs2)).
    { rewrite Hq2, Forall_forall. intros z Hz%elem_of_seqZ.
      pose proof (last_seq_le sn filt (base ++ evs1) 0 q1 Hbound ltac:(unfold q1; lia)). lia. }
    by rewrite Forall_fmap in Hz.
  - rewrite H1, H2. split; [|done]. cbn [fst]. unfold passing. by rewrite <-fmap_app, <-filter_app.
Qed.
End handoff.
