(* ===== verification/System.v ===== *)
(** * The aggregator as one state machine

    The goroutines of src/internal/aggregator share the queue, the counters, the
    log, the registry and the subscriber set.  [sys_step] interleaves them, in any
    order, at the grain of one envelope received or handled; [Interleaving] has the
    actions these steps consist of, and proves each step to be a run of them.  The
    lemmas are invariants of every reachable state, by rule induction. *)
From Stdlib Require Import Ascii QArith.
From stdpp Require Import base numbers gmap strings relations fin_maps list.
From S2P Require Import Prelude GoStr Json EnvWal Pb CursorStore ClusterPeers Aggregator AggregatorSpec ReExport.
Local Open Scope Z_scope.

(** ** Counters that wrap *)

(** Equality of 64-bit counters against unbounded counts. *)
Definition eqm (x y : Z) : Prop := ∃ k, x = y + k * u64_mod.

Lemma u64_eqm z : eqm (u64 z) z.
Proof. exists (- (z / u64_mod)). unfold u64. pose proof (Z.div_mod z u64_mod). unfold u64_mod in *. lia. Qed.

Global Instance eqm_equiv : Equivalence eqm.
Proof.
  split.
  - intros x. exists 0. lia.
  - intros x y [k ->]. exists (- k). lia.
  - intros x y z [k ->] [k' ->]. exists (k + k'). lia.
Qed.

Global Instance eqm_add : Proper (eqm ==> eqm ==> eqm) Z.add.
Proof. intros x x' [k ->] y y' [k' ->]. exists (k + k'). lia. Qed.

Lemma inc_eqm z : eqm (inc z) (z + 1).
Proof. apply u64_eqm. Qed.

Lemma eqm_eq x y : x = y → eqm x y.
Proof. by intros ->. Qed.

(** ** The state and its steps *)

(** What has happened so far, counted without bound: envelopes the writer took
    from the queue, those of them that were registry updates, and sessions with
    an agent that failed. *)
Record history := mkHistory { taken : Z; updates : Z; failures : Z }.

Definition is_controlb (env : EventEnvelope) : bool :=
  match GetIntent env with
  | Some i => bool_decide (Kind i = KindListenerAdvertise) || bool_decide (Kind i = KindListenerWithdraw)
  | None => false
  end.

Section system.
Context `{!ProtoJSON EventEnvelope} {S : Type} `{!CursorStore S}.

Record sys := mkSys { s_agg : Aggregator; s_store : S; s_hist : history }.

Definition on_agg (g : Aggregator → Aggregator) (s : sys) : sys := mkSys (g (s_agg s)) (s_store s) (s_hist s).

(** A stream goroutine receives an envelope. *)
Definition do_receive (ep : AgentEndpoint) (stream : string) (env : EventEnvelope) (s : sys) : sys :=
  let st := receive ep stream env (s_agg s, s_store s) in mkSys st.1 st.2 (s_hist s).

(** A stream goroutine counts a failed session. *)
Definition do_fail (s : sys) : sys :=
  mkSys (upd_cnt add_errors (s_agg s)) (s_store s)
    (mkHistory (taken (s_hist s)) (updates (s_hist s)) (failures (s_hist s) + 1)).

(** The writer takes the oldest envelope off the queue. *)
Definition do_write (io : write_io) (ev : envelopeWithAgent) (s : sys) : sys :=
  mkSys (write_step io (s_agg s)) (s_store s)
    (mkHistory (taken (s_hist s) + 1)
       (updates (s_hist s) + (if is_controlb (ev_Envelope ev) then 1 else 0)) (failures (s_hist s))).

(** A re-export goroutine takes the oldest event off its channel. *)
Definition consume (id : nat) (a : Aggregator) : Aggregator :=
  set_subs (alter (λ sb, mkSub (sub_cap sb) (tail (sub_ch sb)) (sub_drops sb)) id (subs a)) (next_sub a) a.

(** The registry holds the resolvers by reference: when a watcher publishes a new
    index, the next lookup sees it. *)
Definition reindex (er : EndpointResolver) (sr : ServiceResolver) (r : Registry) : Registry :=
  mkRegistry (exact r) (wild r) (ttl r) ((λ _, er) <$> resolver r) ((λ _, sr) <$> svc r)
    (((λ _, er) <$> resolver r) ≫= as_PodLocator).

Inductive sys_step : sys → sys → Prop :=
| step_receive ep stream env s : sys_step s (do_receive ep stream env s)
| step_fail s : sys_step s (do_fail s)
| step_write io ev rest s : ch (s_agg s) = ev :: rest → sys_step s (do_write io ev s)
| step_subscribe r s : sys_step s (on_agg (λ a, (Subscribe_enter r a).1) s)
| step_consume id s : sys_step s (on_agg (consume id) s)
| step_unsubscribe id s : sys_step s (on_agg (unregisterSubscriber id) s)
| step_stats now len nsvc s : sys_step s (on_agg (λ a, (agg_Stats now len nsvc a).1) s)
| step_sweep now s : sys_step s (on_agg (λ a, set_registry (Sweep now (registry a)) a) s)
| step_gc rm_ok now w fs s : wal (s_agg s) = Some (w, fs) →
    sys_step s (on_agg (set_wal (Some (GC rm_ok now w fs))) s)
| step_index er sr s : sys_step s (on_agg (λ a, set_registry (reindex er sr (registry a)) a) s).

Definition start (a : Aggregator) (store : S) : sys := mkSys a store (mkHistory 0 0 0).

(** ** Invariants *)

(** What the writer emitted: every envelope that is no registry update, and one
    edge per join. *)
Definition emissions (s : sys) : Z := taken (s_hist s) - updates (s_hist s) + xnodeJoins (cnt (s_agg s)).

Record sys_inv (s : sys) : Prop := {
  si_queue : Z.of_nat (length (ch (s_agg s))) ≤ QueueDepth (cfg (s_agg s));
  si_subs : ∀ id sb, subs (s_agg s) !! id = Some sb →
    (id < next_sub (s_agg s))%nat ∧ 0 < sub_cap sb ∧ Z.of_nat (length (sub_ch sb)) ≤ sub_cap sb;
  si_received : eqm (received (cnt (s_agg s)))
    (dropped (cnt (s_agg s)) + Z.of_nat (length (ch (s_agg s))) + taken (s_hist s));
  si_written : eqm (written (cnt (s_agg s)) + c_errors (cnt (s_agg s))) (emissions s + failures (s_hist s));
  si_logged : eqm (walAppends (cnt (s_agg s)) + walErrors (cnt (s_agg s)))
    (if bool_decide (is_Some (wal (s_agg s))) then emissions s else 0);
}.

Lemma is_controlb_spec env : is_controlb env = true ↔ is_control env.
Proof.
  unfold is_controlb, is_control. destruct (GetIntent env) as [i|]; [|naive_solver].
  rewrite orb_true_iff, !bool_decide_eq_true. naive_solver.
Qed.

(** What an operation of the writer leaves alone. *)
Record same_front (a a' : Aggregator) : Prop := {
  sf_ch : ch a' = ch a;
  sf_cfg : cfg a' = cfg a;
  sf_next : next_sub a' = next_sub a;
  sf_received : received (cnt a') = received (cnt a);
  sf_dropped : dropped (cnt a') = dropped (cnt a);
  sf_wal : is_Some (wal a') ↔ is_Some (wal a);
}.

Lemma same_front_trans a b c : same_front a b → same_front b c → same_front a c.
Proof. intros [? ? ? ? ? H] [? ? ? ? ? H']. split; [congruence..|]. by rewrite H', H. Qed.

(** [n] emissions happened and [j] of them were edges. *)
Record counted (n j : Z) (a a' : Aggregator) : Prop := {
  ct_front : same_front a a';
  ct_joins : eqm (xnodeJoins (cnt a')) (xnodeJoins (cnt a) + j);
  ct_written : eqm (written (cnt a') + c_errors (cnt a')) (written (cnt a) + c_errors (cnt a) + n);
  ct_logged : eqm (walAppends (cnt a') + walErrors (cnt a'))
    (walAppends (cnt a) + walErrors (cnt a) + if bool_decide (is_Some (wal a)) then n else 0);
}.

Lemma counted_trans n j n' j' a b c : counted n j a b → counted n' j' b c → counted (n + n') (j + j') a c.
Proof.
  intros [H1 H2 H3 H4] [H5 H6 H7 H8]. pose proof (sf_wal _ _ H1) as Hw. split.
  - by eapply same_front_trans.
  - by rewrite H6, H2, Z.add_assoc.
  - by rewrite H7, H3, Z.add_assoc.
  - rewrite H8, H4, (bool_decide_ext _ _ Hw). destruct (bool_decide (is_Some (wal a))); by rewrite <-Z.add_assoc.
Qed.

Lemma assign_seq_counted io ev a :
  same_front a (assign_seq io ev a).1 ∧
  xnodeJoins (cnt (assign_seq io ev a).1) = xnodeJoins (cnt a) ∧
  written (cnt (assign_seq io ev a).1) = written (cnt a) ∧
  c_errors (cnt (assign_seq io ev a).1) = c_errors (cnt a) ∧
  eqm (walAppends (cnt (assign_seq io ev a).1) + walErrors (cnt (assign_seq io ev a).1))
    (walAppends (cnt a) + walErrors (cnt a) + if bool_decide (is_Some (wal a)) then 1 else 0).
Proof.
  unfold assign_seq. destruct (wal a) as [[w fs]|] eqn:Hw.
  - rewrite bool_decide_eq_true_2 by eauto.
    destruct (Append _ _ _ w fs) as [[w' fs'] [q|e]]; cbn; (split_and!; [split; cbn; rewrite ?Hw; naive_solver|done|done|done|]);
      rewrite inc_eqm; apply eqm_eq; lia.
  - cbn. split_and!; [split; cbn; naive_solver|done|done|done|by rewrite Z.add_0_r].
Qed.

Lemma emit_counted io ok ev a : counted 1 0 a (emitEnvelope io ok ev a).
Proof.
  destruct (assign_seq_counted io ev a) as ([] & Hj & Hwr & He & Hl). unfold emitEnvelope.
  destruct (assign_seq io ev a) as [a1 q]. cbn [fst] in *. unfold broadcast.
  destruct (Marshal _); [destruct ok|]; (split; [split; cbn; assumption| | |]); cbn [cnt upd_cnt set_subs add_line negb
    add_errors add_written xnodeJoins written c_errors walAppends walErrors]; rewrite ?Hj, ?Hwr, ?He, ?inc_eqm, ?Hl; apply eqm_eq; lia.
Qed.

Lemma joinPeer_counted now env a :
  counted 0 (if (joinPeer now env a).2 is Some _ then 1 else 0) a (joinPeer now env a).1.
Proof.
  assert (Hid : counted 0 0 a a).
  { split; [done| | |]; rewrite ?Z.add_0_r; try done. by destruct (bool_decide _); rewrite Z.add_0_r. }
  unfold joinPeer. destruct (GetIntent env) as [i|]; [|done].
  do 3 (case_bool_decide; [done|]). destruct (Join _ _ _) as [[l how]|]; cbn [fst snd].
  - split; [done| | |]; cbn; rewrite ?inc_eqm, ?Z.add_0_r; try done. by destruct (bool_decide _); rewrite Z.add_0_r.
  - split; [done| | |]; cbn; rewrite ?Z.add_0_r; try done. by destruct (bool_decide _); rewrite Z.add_0_r.
Qed.

Lemma fold_front now env a :
  same_front a (foldAdvertise now env a).1 ∧ same_front a (foldWithdraw env a).1.
Proof.
  unfold foldAdvertise, foldWithdraw. destruct (GetIntent env) as [i|]; [|done].
  split; (case_bool_decide; [done|]); [by destruct (ListenerFromAdvertise _)|by destruct (ListenerFromWithdraw _)].
Qed.

(** One iteration of the writer: an update counts for nothing; anything else is
    one emission, and one more if it joined. *)
Lemma handle_counted io ev a :
  ∃ j, counted (if is_controlb (ev_Envelope ev) then 0 else 1 + j) j a (handle io ev a) ∧
    (is_controlb (ev_Envelope ev) = true → j = 0).
Proof.
  destruct (is_controlb (ev_Envelope ev)) eqn:Hc.
  - exists 0. split; [|done]. destruct (handle_control io ev a) as (_ & Hw & _ & Hk); [by apply is_controlb_spec|].
    assert (Hf : same_front a (handle io ev a)).
    { unfold handle. destruct (fold_front (wi_now io) (ev_Envelope ev) a) as [F1 _].
      pose proof (fold_control (wi_now io) (ev_Envelope ev) a) as HF. rewrite <-is_controlb_spec in HF. specialize (HF Hc).
      destruct (foldAdvertise _ _ a) as [a1 []]; [done|]. destruct HF as (-> & Ht & _).
      destruct (fold_front (wi_now io) (ev_Envelope ev) a) as [_ F2].
      destruct (foldWithdraw _ a) as [a2 b]. cbn in Ht. by subst b. }
    split; [done| | |]; rewrite Hk; apply eqm_eq; [lia..|]. destruct (bool_decide _); lia.
  - assert (Hn : ¬ is_control (ev_Envelope ev)) by (rewrite <-is_controlb_spec; congruence).
    unfold handle. destruct (fold_data (wi_now io) (ev_Envelope ev) a Hn) as [-> ->].
    pose proof (emit_counted (wi_log io) (wi_out io) ev a) as H1. set (a3 := emitEnvelope _ _ ev a) in *.
    pose proof (joinPeer_counted (wi_now io) (ev_Envelope ev) a3) as H2.
    destruct (joinPeer _ _ a3) as [a4 [edge|]]; cbn [fst snd] in H2.
    + exists 1. split; [|done]. pose proof (counted_trans _ _ _ _ _ _ _ H1 H2) as H3.
      exact (counted_trans _ _ _ _ _ _ _ H3 (emit_counted _ _ _ _)).
    + exists 0. split; [|done]. exact (counted_trans _ _ _ _ _ _ _ H1 H2).
Qed.

Lemma handle_subs_bound io ev a (P : liveSubscriber → Prop) :
  (∀ e sb, P sb → P (offer e sb)) → map_Forall (λ _, P) (subs a) → map_Forall (λ _, P) (subs (handle io ev a)).
Proof.
  intros HP Ha.
  assert (H : ∃ evs, emitted io ev a evs).
  { destruct (is_controlb (ev_Envelope ev)) eqn:Hc.
    - exists []. apply handle_control. by apply is_controlb_spec.
    - destruct (handle_data io ev a) as (s1 & [?|(? & ? & _ & ?)]); [rewrite <-is_controlb_spec; congruence|eauto..]. }
  destruct H as [evs He]. unfold emitted in He. rewrite He. intros id sb (sb0 & <- & Hl)%lookup_fmap_Some.
  specialize (Ha _ _ Hl). cbn in *. clear -HP Ha. revert sb0 Ha. induction evs as [|e evs IH]; intros sb0 Ha; [done|].
  apply (IH (offer e sb0)). auto.
Qed.

Definition sub_bounded (sb : liveSubscriber) : Prop := 0 < sub_cap sb ∧ Z.of_nat (length (sub_ch sb)) ≤ sub_cap sb.

Lemma offer_bounded e sb : sub_bounded sb → sub_bounded (offer e sb).
Proof. unfold sub_bounded, offer. intros [? ?]. case_bool_decide; cbn; rewrite ?length_app; cbn; lia. Qed.

Lemma handle_dom io ev a id : is_Some (subs (handle io ev a) !! id) → is_Some (subs a !! id).
Proof.
  destruct (is_controlb (ev_Envelope ev)) eqn:Hc.
  - destruct (handle_control io ev a) as (He & _); [by apply is_controlb_spec|]. unfold emitted in He.
    by rewrite He, lookup_fmap, fmap_is_Some.
  - destruct (handle_data io ev a) as (s1 & [He|(? & ? & _ & He)]); [rewrite <-is_controlb_spec; congruence|..];
      unfold emitted in He; by rewrite He, lookup_fmap, fmap_is_Some.
Qed.

Lemma write_inv io ev rest s : ch (s_agg s) = ev :: rest → sys_inv s → sys_inv (do_write io ev s).
Proof.
  intros Hch [Hq Hs Hr Hw Hl]. set (a0 := set_ch rest (s_agg s)).
  destruct (handle_counted io ev a0) as (j & [[F1 F2 F3 F4 F5 F6] Cj Cw Cl] & Hj).
  assert (Hag : s_agg (do_write io ev s) = handle io ev a0) by (unfold do_write, write_step; cbn; by rewrite Hch).
  unfold emissions in *. split; rewrite ?Hag; unfold emissions; rewrite ?Hag; cbn [s_hist do_write taken updates failures].
  - rewrite F1, F2. cbn. rewrite Hch in Hq. cbn in Hq. lia.
  - intros id sb Hl'. rewrite F3. split.
    + destruct (handle_dom io ev a0 id) as [sb0 H0]; [eauto|]. by apply Hs in H0 as [? _].
    + revert id sb Hl'. apply handle_subs_bound; [apply offer_bounded|]. intros id sb H0. by apply Hs in H0 as [_ ?].
  - rewrite F4, F5, F1. cbn. rewrite Hr, Hch. cbn. apply eqm_eq. lia.
  - rewrite Cw, Cj. cbn [cnt a0 set_ch]. rewrite Hw. apply eqm_eq. destruct (is_controlb _); [|lia].
    rewrite (Hj eq_refl). lia.
  - rewrite Cl, (bool_decide_ext _ _ F6). cbn [cnt wal a0 set_ch]. rewrite Hl.
    destruct (bool_decide _); [|apply eqm_eq; lia]. rewrite Cj. cbn [cnt a0 set_ch]. apply eqm_eq.
    destruct (is_controlb _); [|lia]. rewrite (Hj eq_refl). lia.
Qed.

Lemma receive_inv ep stream env s : sys_inv s → sys_inv (do_receive ep stream env s).
Proof.
  intros [Hq Hs Hr Hw Hl]. unfold do_receive, receive. cbn [upd_cnt ch cfg].
  destruct (decide (Z.of_nat (length (ch (s_agg s))) < QueueDepth (cfg (s_agg s)))) as [Hlt|Hlt];
    [rewrite bool_decide_eq_true_2 by done|rewrite bool_decide_eq_false_2 by done]; split; cbn -[eqm]; try done.
  - rewrite length_app. cbn. lia.
  - rewrite inc_eqm, Hr, length_app. cbn. apply eqm_eq. lia.
  - rewrite !inc_eqm, Hr. apply eqm_eq. lia.
Qed.

(** A step of another goroutine that touches neither queue nor counters. *)
Lemma quiet_inv g s :
  let a := s_agg s in let a' := g a in
  ch a' = ch a → cfg a' = cfg a → received (cnt a') = received (cnt a) → dropped (cnt a') = dropped (cnt a) →
  written (cnt a') = written (cnt a) → c_errors (cnt a') = c_errors (cnt a) →
  walAppends (cnt a') = walAppends (cnt a) → walErrors (cnt a') = walErrors (cnt a) →
  xnodeJoins (cnt a') = xnodeJoins (cnt a) → (is_Some (wal a') ↔ is_Some (wal a)) →
  (∀ id sb, subs a' !! id = Some sb → (id < next_sub a')%nat ∧ sub_bounded sb) →
  sys_inv s → sys_inv (on_agg g s).
Proof.
  intros a a' H1 H2 H3 H4 H5 H6 H7 H8 H9 H10 H11 [Hq Hs Hr Hw Hl]. unfold a', a, emissions in *.
  split; unfold emissions; cbn [on_agg s_agg s_hist]; rewrite ?H1, ?H2, ?H3, ?H4, ?H5, ?H6, ?H7, ?H8, ?H9; try done.
  by rewrite (bool_decide_ext _ _ H10).
Qed.

Lemma sys_step_inv s s' : sys_step s s' → sys_inv s → sys_inv s'.
Proof.
  intros Hstep HI. pose proof (si_subs _ HI) as Hs. destruct Hstep as
    [ep stream env s|s|io ev rest s Hch|r s|id s|id s|now len nsvc s|now s|rm_ok now w fs s Hw|er sr s].
  - by apply receive_inv.
  - destruct HI as [Hq _ Hr Hw Hl]. split; cbn -[eqm]; try done. unfold emissions in *. cbn -[eqm].
    rewrite inc_eqm, Z.add_assoc, Hw. apply eqm_eq. lia.
  - by eapply write_inv.
  - apply quiet_inv; try done. cbn. intros id sb [[<- <-]|[_ Hl]]%lookup_insert_Some.
    + split; [lia|]. unfold sub_bounded. cbn. case_bool_decide; lia.
    + apply Hs in Hl as [? ?]. split; [lia|done].
  - apply quiet_inv; try done. cbn. intros id' sb Hl. rewrite lookup_alter in Hl.
    case_decide as Hid; [|by apply Hs in Hl as [? ?]]. subst id'. apply fmap_Some in Hl as (sb0 & Hl & ->).
    apply Hs in Hl as (? & ? & ?). unfold sub_bounded. cbn. split_and!; [done|done|]. destruct (sub_ch sb0); cbn in *; lia.
  - apply quiet_inv; try (unfold unregisterSubscriber; by destruct (subs (s_agg s) !! id)).
    unfold unregisterSubscriber. destruct (subs (s_agg s) !! id) as [sb|] eqn:E; cbn; intros id' sb' Hl.
    + apply lookup_delete_Some in Hl as [_ Hl]. by apply Hs in Hl as [? ?].
    + by apply Hs in Hl as [? ?].
  - apply quiet_inv; unfold agg_Stats; destruct (Size now (registry (s_agg s))); try done.
  - apply quiet_inv; try done.
  - by apply quiet_inv.
  - by apply quiet_inv.
Qed.

Lemma start_sys_inv c res sv w a (store : S) : New c res sv w = inl a → sys_inv (start a store).
Proof.
  unfold New. intros HN. destruct (_ && _); [done|]. destruct (has_Out c); [|done].
  cbn [negb] in HN. case_bool_decide as Hq; [done|]. injection HN as <-.
  split; unfold emissions; cbn -[eqm]; try done; [cbn in Hq; lia|].
  by destruct (bool_decide _).
Qed.

End system.

(** ** The drop total *)

Lemma total_drops_delete m id sb :
  m !! id = Some sb → total_drops m = sub_drops sb + total_drops (delete id m).
Proof.
  intros Hm. unfold total_drops.
  assert (Hp : ∀ l1 l2 : list (nat * liveSubscriber), l1 ≡ₚ l2 →
    foldr (λ kv acc, sub_drops kv.2 + acc) 0 l1 = foldr (λ kv acc, sub_drops kv.2 + acc) 0 l2).
  { induction 1; cbn; lia. }
  rewrite (Hp _ ((id, sb) :: map_to_list (delete id m))); [done|].
  rewrite <-(map_to_list_insert (delete id m) id sb) by apply lookup_delete_eq. by rewrite insert_delete_id.
Qed.

(** A subscriber that disconnects takes none of its drops out of the
    reported total, whatever it lost before. *)
Theorem disconnect_keeps_drop_total now len nsvc id a :
  s_SubscriberDropped (agg_Stats now len nsvc (unregisterSubscriber id a)).2 =
  s_SubscriberDropped (agg_Stats now len nsvc a).2.
Proof.
  unfold unregisterSubscriber. destruct (subs a !! id) as [sb|] eqn:E; [|done].
  unfold agg_Stats. cbn [registry upd_cnt set_subs]. destruct (Size now (registry a)) as [r n]. cbn.
  rewrite (total_drops_delete _ _ _ E). unfold u64. rewrite Zplus_mod_idemp_l. f_equal. lia.
Qed.

(** ** A concrete aggregator *)

Module Demo.
Global Instance null_proto : ProtoJSON EventEnvelope := {| Marshal _ := Some "{}"; Unmarshal _ := None |}.
Definition ep : AgentEndpoint := mkAgent "n1" "n1:9000".
Definition conf : Config := mkConfig [ep] true [] "" 0 1 false 0.
Definition a : Aggregator := mkAgg (config_defaults conf) [] zero_counters 0 ∅ 0 (NewRegistry 0 None None) None [].
Definition env : EventEnvelope := mkEnvelope None (Some (EventEnvelope_Audit "login")) "".
Definition ok_io : append_io := mkAppendIO 0 WrOk true true 0.
Definition io : write_io := mkWriteIO 0 ok_io true ok_io true.
Definition s0 : sys (S := nullStore) := start a NullCursorStore.
Definition s1 : sys := do_receive ep "intent" env s0.
Definition s2 : sys := do_receive ep "intent" env s1.
Definition s3 : sys := do_write io (mkEv "n1" env) s2.

Lemma s3_reached : rtc sys_step s0 s3.
Proof.
  eapply rtc_l; [apply (step_receive ep "intent" env)|]. eapply rtc_l; [apply (step_receive ep "intent" env)|].
  apply rtc_once. exact (step_write io (mkEv "n1" env) [] s2 eq_refl).
Qed.
End Demo.
