(* ===== verification/Interleaving.v ===== *)
(** * The goroutines of the aggregator, action by action

    src/internal/aggregator/aggregator.go at the grain of its shared accesses: an
    atomic counter, a channel operation, a section under a lock or a system call is
    one step, and any goroutine can run between two of them.  [receive] and
    [handle] of [Aggregator], which the other systems take as one step, are runs of
    these steps that nobody interrupts; the counters balance here in every state,
    with what the goroutines hold in their hands. *)
From Stdlib Require Import Ascii QArith.
From stdpp Require Import base numbers gmap strings relations fin_maps list.
From S2P Require Import Prelude GoStr Json EnvWal Pb CursorStore ClusterPeers Aggregator AggregatorSpec ReExport System.
Local Open Scope Z_scope.

(** ** What the writer does to the aggregator, in pieces *)

Section pieces.
Context `{!ProtoJSON EventEnvelope}.

(** The append to the log, if there is one. *)
Definition append_log (io : append_io) (ev : envelopeWithAgent) (a : Aggregator) : Aggregator * option (res Z) :=
  match wal a with
  | Some (w, fs) =>
      let '(w', fs', r) := Append io (ev_Agent ev) (Some (ev_Envelope ev)) w fs in (set_wal (Some (w', fs')) a, Some r)
  | None => (a, None)
  end.

(** The append counted and the number chosen; only the writer touches [liveSeq]. *)
Definition number (r : option (res Z)) (a : Aggregator) : Aggregator * Z :=
  match r with
  | Some (Err _) => (set_liveSeq (inc (liveSeq a)) (upd_cnt add_walErrors a), inc (liveSeq a))
  | Some (Ok s) => (set_liveSeq s (upd_cnt add_walAppends a), s)
  | None => (set_liveSeq (inc (liveSeq a)) a, inc (liveSeq a))
  end.

(** The line written, or not. *)
Definition out_line (out_ok : bool) (ev : envelopeWithAgent) (a : Aggregator) : Aggregator * bool :=
  match Marshal (ev_Envelope ev) with
  | None => (a, false)
  | Some envBytes => if out_ok then (add_line (ndjson_line (ev_Agent ev) envBytes) a, true) else (a, false)
  end.

Definition tally (ok : bool) (a : Aggregator) : Aggregator := upd_cnt (if ok then add_written else add_errors) a.

Lemma assign_seq_pieces io ev a :
  assign_seq io ev a = number (append_log io ev a).2 (append_log io ev a).1.
Proof.
  unfold assign_seq, append_log, number. destruct (wal a) as [[w fs]|]; [|done].
  destruct (Append _ _ _ w fs) as [[w' fs'] [q|e]]; by destruct a.
Qed.

Lemma emit_pieces io ok ev a :
  emitEnvelope io ok ev a =
    let '(a1, seq) := assign_seq io ev a in
    let '(a2, b) := out_line ok ev (broadcast (mkLive seq (ev_Agent ev) (ev_Envelope ev)) a1) in tally b a2.
Proof.
  unfold emitEnvelope, out_line, tally. destruct (assign_seq io ev a) as [a1 seq].
  destruct (Marshal _) as [b|]; [by destruct ok|done].
Qed.

(** A lookup in the registry, before it is counted. *)
Inductive lookup_res := LSkip | LMiss | LHit (edge : IntentEvent) (vip : bool).

Definition lookup_peer (now : Z) (env : EventEnvelope) (a : Aggregator) : lookup_res :=
  match GetIntent env with
  | None => LSkip
  | Some intent =>
      if bool_decide (Kind intent ≠ KindNetworkExchange) then LSkip
      else if bool_decide (attr AttrPeer (Attributes intent) = "") then LSkip
      else if bool_decide (is_Some (Attributes intent !! AttrPeerPID)) then LSkip
      else match Join (registry a) (attr AttrPeer (Attributes intent)) now with
           | None => LMiss
           | Some (l, how) =>
               LHit (PeerEdge intent l how (GetNodeName (Meta intent))) (bool_decide (how = HowServiceVIP))
           end
  end.

Definition add_xnodeJoins (k : Counters) : Counters := add_joins false k.
Definition add_vipJoins (vip : bool) (k : Counters) : Counters :=
  mkCounters (received k) (written k) (dropped k) (c_errors k) (walAppends k) (walErrors k) (subsDropped k)
    (xnodeJoins k) (xnodeMisses k) (if vip then inc (vipJoins k) else vipJoins k).

Lemma joinPeer_pieces now env a :
  joinPeer now env a =
    match lookup_peer now env a with
    | LSkip => (a, None)
    | LMiss => (upd_cnt add_misses a, None)
    | LHit edge vip => (upd_cnt (add_vipJoins vip) (upd_cnt add_xnodeJoins a), Some edge)
    end.
Proof.
  unfold joinPeer, lookup_peer. destruct (GetIntent env) as [i|]; [|done]. do 3 (case_bool_decide; [done|]).
  destruct (Join _ _ _) as [[l how]|]; [|done]. by destruct (bool_decide (how = _)).
Qed.
End pieces.

(** ** The system *)

(** An envelope in the hands of a stream goroutine: counted as received; its cursor
    saved; refused by the full queue, but not yet counted as dropped. *)
Inductive rphase := RCounted | RSaved | RRefused.
Record holding := mkHold { h_ep : AgentEndpoint; h_stream : string; h_env : EventEnvelope; h_phase : rphase }.

(** Where the writer is.  The flag of an emission tells the envelope of an agent
    from the edge that follows it. *)
Inductive wphase :=
| WIdle
| WTaken (ev : envelopeWithAgent)
| WAppend (first : bool) (ev : envelopeWithAgent)
| WLogged (first : bool) (ev : envelopeWithAgent) (r : option (res Z))
| WNumbered (first : bool) (ev : envelopeWithAgent) (seq : Z)
| WSent (first : bool) (ev : envelopeWithAgent)
| WWritten (first : bool) (ev : envelopeWithAgent) (ok : bool)
| WJoin (ev : envelopeWithAgent)
| WMissed
| WHit (ev : envelopeWithAgent) (edge : IntentEvent) (vip : bool)
| WJoined (ev : envelopeWithAgent) (edge : IntentEvent) (vip : bool).

Section interleaving.
Context `{!ProtoJSON EventEnvelope} {S : Type} `{!CursorStore S}.

(** [i_leaving]: the drops of subscribers that were removed and not added to the
    total. *)
Record isys := mkI {
  i_agg : Aggregator;
  i_store : S;
  i_hist : history;
  i_hands : gmap nat holding;
  i_writer : wphase;
  i_leaving : list Z;
}.

Definition on_i (g : Aggregator → Aggregator) (s : isys) : isys :=
  mkI (g (i_agg s)) (i_store s) (i_hist s) (i_hands s) (i_writer s) (i_leaving s).
Definition with_hands (m : gmap nat holding) (s : isys) : isys :=
  mkI (i_agg s) (i_store s) (i_hist s) m (i_writer s) (i_leaving s).
Definition with_writer (w : wphase) (s : isys) : isys :=
  mkI (i_agg s) (i_store s) (i_hist s) (i_hands s) w (i_leaving s).
Definition with_history (h : history) (s : isys) : isys :=
  mkI (i_agg s) (i_store s) h (i_hands s) (i_writer s) (i_leaving s).

Definition in_phase (p : rphase) (h : holding) : holding := mkHold (h_ep h) (h_stream h) (h_env h) p.

Definition save_cursor (h : holding) (store : S) : S :=
  match e_Cursor (h_env h) with
  | Some c => cs_Save store (a_Name (h_ep h)) (h_stream h) (Some c)
  | None => store
  end.

(** A stream goroutine, identified by a number, at one envelope. *)
Inductive recv_step : isys → isys → Prop :=
| r_count g ep stream env s : i_hands s !! g = None →
    recv_step s (with_hands (<[g := mkHold ep stream env RCounted]> (i_hands s)) (on_i (upd_cnt add_received) s))
| r_save g h s : i_hands s !! g = Some h → h_phase h = RCounted →
    recv_step s (with_hands (<[g := in_phase RSaved h]> (i_hands s))
      (mkI (i_agg s) (save_cursor h (i_store s)) (i_hist s) (i_hands s) (i_writer s) (i_leaving s)))
| r_send g h s : i_hands s !! g = Some h → h_phase h = RSaved →
    Z.of_nat (length (ch (i_agg s))) < QueueDepth (cfg (i_agg s)) →
    recv_step s (with_hands (delete g (i_hands s))
      (on_i (λ a, set_ch (ch a ++ [mkEv (a_Name (h_ep h)) (h_env h)]) a) s))
| r_refused g h s : i_hands s !! g = Some h → h_phase h = RSaved →
    QueueDepth (cfg (i_agg s)) ≤ Z.of_nat (length (ch (i_agg s))) →
    recv_step s (with_hands (<[g := in_phase RRefused h]> (i_hands s)) s)
| r_drop g h s : i_hands s !! g = Some h → h_phase h = RRefused →
    recv_step s (with_hands (delete g (i_hands s)) (on_i (upd_cnt add_dropped) s))
| r_fail s : recv_step s (with_history (mkHistory (taken (i_hist s)) (updates (i_hist s)) (failures (i_hist s) + 1))
    (on_i (upd_cnt add_errors) s)).

(** The writer. *)
Inductive writer_step : isys → isys → Prop :=
| w_take ev rest s : i_writer s = WIdle → ch (i_agg s) = ev :: rest →
    writer_step s (with_writer (WTaken ev)
      (with_history (mkHistory (taken (i_hist s) + 1) (updates (i_hist s)) (failures (i_hist s))) (on_i (set_ch rest) s)))
| w_advertise now ev a s : i_writer s = WTaken ev → foldAdvertise now (ev_Envelope ev) (i_agg s) = (a, true) →
    writer_step s (with_writer WIdle
      (with_history (mkHistory (taken (i_hist s)) (updates (i_hist s) + 1) (failures (i_hist s))) (on_i (λ _, a) s)))
| w_withdraw now ev a s : i_writer s = WTaken ev → (foldAdvertise now (ev_Envelope ev) (i_agg s)).2 = false →
    foldWithdraw (ev_Envelope ev) (i_agg s) = (a, true) →
    writer_step s (with_writer WIdle
      (with_history (mkHistory (taken (i_hist s)) (updates (i_hist s) + 1) (failures (i_hist s))) (on_i (λ _, a) s)))
| w_data now ev s : i_writer s = WTaken ev → (foldAdvertise now (ev_Envelope ev) (i_agg s)).2 = false →
    (foldWithdraw (ev_Envelope ev) (i_agg s)).2 = false → writer_step s (with_writer (WAppend true ev) s)
| w_append io b ev a r s : i_writer s = WAppend b ev → append_log io ev (i_agg s) = (a, r) →
    writer_step s (with_writer (WLogged b ev r) (on_i (λ _, a) s))
| w_number b ev r a q s : i_writer s = WLogged b ev r → number r (i_agg s) = (a, q) →
    writer_step s (with_writer (WNumbered b ev q) (on_i (λ _, a) s))
| w_broadcast b ev q s : i_writer s = WNumbered b ev q →
    writer_step s (with_writer (WSent b ev) (on_i (broadcast (mkLive q (ev_Agent ev) (ev_Envelope ev))) s))
| w_out out_ok b ev a ok s : i_writer s = WSent b ev → out_line out_ok ev (i_agg s) = (a, ok) →
    writer_step s (with_writer (WWritten b ev ok) (on_i (λ _, a) s))
| w_tally b ev ok s : i_writer s = WWritten b ev ok →
    writer_step s (with_writer (if b then WJoin ev else WIdle) (on_i (tally ok) s))
| w_lookup now ev s : i_writer s = WJoin ev →
    writer_step s (with_writer (match lookup_peer now (ev_Envelope ev) (i_agg s) with
                                | LSkip => WIdle
                                | LMiss => WMissed
                                | LHit edge vip => WHit ev edge vip
                                end) s)
| w_miss s : i_writer s = WMissed → writer_step s (with_writer WIdle (on_i (upd_cnt add_misses) s))
| w_join ev edge vip s : i_writer s = WHit ev edge vip →
    writer_step s (with_writer (WJoined ev edge vip) (on_i (upd_cnt add_xnodeJoins) s))
| w_vip ev edge vip s : i_writer s = WJoined ev edge vip →
    writer_step s (with_writer (WAppend false (mkEv (ev_Agent ev) (edge_envelope edge))) (on_i (upd_cnt (add_vipJoins vip)) s)).

(** Everybody else.  A broadcast sends to one channel after the other while their
    owners receive; since the channels are distinct, any such run is also one in
    which the sends happen together. *)
Inductive side_step : isys → isys → Prop :=
| s_subscribe r s : side_step s (on_i (λ a, (Subscribe_enter r a).1) s)
| s_consume id s : side_step s (on_i (consume id) s)
| s_remove id sb s : subs (i_agg s) !! id = Some sb →
    side_step s (mkI (set_subs (delete id (subs (i_agg s))) (next_sub (i_agg s)) (i_agg s)) (i_store s) (i_hist s)
      (i_hands s) (i_writer s) (sub_drops sb :: i_leaving s))
| s_fold_drops l1 n l2 s : i_leaving s = l1 ++ n :: l2 →
    side_step s (mkI (upd_cnt (add_subsDropped n) (i_agg s)) (i_store s) (i_hist s) (i_hands s) (i_writer s) (l1 ++ l2))
| s_sweep now s : side_step s (on_i (λ a, set_registry (Sweep now (registry a)) a) s)
| s_gc rm_ok now w fs s : wal (i_agg s) = Some (w, fs) → side_step s (on_i (set_wal (Some (GC rm_ok now w fs))) s)
| s_index er sr s : side_step s (on_i (λ a, set_registry (reindex er sr (registry a)) a) s).

Definition istep (s s' : isys) : Prop := recv_step s s' ∨ writer_step s s' ∨ side_step s s'.

(** The states in which no goroutine is inside an envelope. *)
Definition idle (s : sys (S := S)) : isys := mkI (s_agg s) (s_store s) (s_hist s) ∅ WIdle [].

(** ** The balance *)

(** What the writer still has to log, and to write: an envelope it took, or an edge
    whose join is counted. *)
Definition to_log (w : wphase) : Z :=
  match w with WTaken _ | WAppend _ _ | WLogged _ _ _ | WJoined _ _ _ => 1 | _ => 0 end.
Definition to_write (w : wphase) : Z :=
  match w with
  | WTaken _ | WAppend _ _ | WLogged _ _ _ | WNumbered _ _ _ | WSent _ _ | WWritten _ _ _ | WJoined _ _ _ => 1
  | _ => 0
  end.

(** Envelopes taken that were no registry updates, and edges. *)
Definition emitted_so_far (s : isys) : Z := taken (i_hist s) - updates (i_hist s) + xnodeJoins (cnt (i_agg s)).

Record balanced (s : isys) : Prop := {
  b_queue : Z.of_nat (length (ch (i_agg s))) ≤ QueueDepth (cfg (i_agg s));
  b_subs : ∀ id sb, subs (i_agg s) !! id = Some sb → (id < next_sub (i_agg s))%nat ∧ sub_bounded sb;
  b_received : eqm (received (cnt (i_agg s)))
    (dropped (cnt (i_agg s)) + Z.of_nat (length (ch (i_agg s))) + taken (i_hist s) + Z.of_nat (size (i_hands s)));
  b_written : eqm (written (cnt (i_agg s)) + c_errors (cnt (i_agg s)) + to_write (i_writer s))
    (emitted_so_far s + failures (i_hist s));
  b_logged : eqm (walAppends (cnt (i_agg s)) + walErrors (cnt (i_agg s)) +
      if bool_decide (is_Some (wal (i_agg s))) then to_log (i_writer s) else 0)
    (if bool_decide (is_Some (wal (i_agg s))) then emitted_so_far s else 0);
}.

(** A result of the append is there exactly when there is a log. *)
Definition log_result_ok (s : isys) : Prop :=
  match i_writer s with WLogged _ _ r => is_Some r ↔ is_Some (wal (i_agg s)) | _ => True end.

Lemma eqm_shift x y z : eqm x y → eqm (x + z) (y + z).
Proof. by intros ->. Qed.

Lemma eqm_l x x' y : eqm x y → x' = x → eqm x' y.
Proof. by intros H ->. Qed.

Lemma eqm_lr x y x' y' : eqm x y → x' - x = y' - y → eqm x' y'.
Proof. intros [k ->] H. exists k. lia. Qed.

(** A step on the aggregator that leaves queue, subscribers and counters alone. *)
Lemma quiet_balanced g w s :
  let a := i_agg s in let a' := g a in
  ch a' = ch a → cfg a' = cfg a → cnt a' = cnt a → (is_Some (wal a') ↔ is_Some (wal a)) →
  (∀ id sb, subs a' !! id = Some sb → (id < next_sub a')%nat ∧ sub_bounded sb) →
  to_log w = to_log (i_writer s) → to_write w = to_write (i_writer s) →
  balanced s → balanced (with_writer w (on_i g s)).
Proof.
  intros a a' H1 H2 H3 H4 H5 H6 H7 [Hq Hs Hr Hw Hl]. unfold a', a, emitted_so_far in *.
  split; unfold emitted_so_far; cbn [with_writer on_i i_agg i_hist i_hands i_writer]; rewrite ?H1, ?H2, ?H3, ?H6, ?H7; try done.
  by rewrite (bool_decide_ext _ _ H4).
Qed.

Lemma writer_id s : with_writer (i_writer s) s = s.
Proof. by destruct s. Qed.

Lemma quiet_side g s :
  let a := i_agg s in let a' := g a in
  ch a' = ch a → cfg a' = cfg a → cnt a' = cnt a → (is_Some (wal a') ↔ is_Some (wal a)) →
  (∀ id sb, subs a' !! id = Some sb → (id < next_sub a')%nat ∧ sub_bounded sb) →
  balanced s → balanced (on_i g s).
Proof.
  intros a a' H1 H2 H3 H4 H5 HB. rewrite <-(writer_id (on_i g s)). cbn [i_writer on_i]. by apply quiet_balanced.
Qed.

Lemma fold_registry now env a :
  (∃ r, (foldAdvertise now env a).1 = set_registry r a) ∧ (∃ r, (foldWithdraw env a).1 = set_registry r a).
Proof.
  assert (Hid : a = set_registry (registry a) a) by (by destruct a).
  unfold foldAdvertise, foldWithdraw. destruct (GetIntent env) as [i|]; [|cbn; eauto].
  split; (case_bool_decide; [cbn; eauto|]); [destruct (ListenerFromAdvertise _)|destruct (ListenerFromWithdraw _)]; cbn; eauto.
Qed.

Lemma append_log_wal io ev a a' r :
  append_log io ev a = (a', r) →
  ∃ w', a' = set_wal w' a ∧ (is_Some w' ↔ is_Some (wal a)) ∧ (is_Some r ↔ is_Some (wal a)).
Proof.
  unfold append_log. destruct (wal a) as [[w fs]|] eqn:Hw.
  - destruct (Append _ _ _ w fs) as [[w' fs'] q]. intros [= <- <-]. eexists. split_and!; [done|split; eauto..].
  - intros [= <- <-]. exists None. split_and!; [|done..]. destruct a. cbn in *. by subst.
Qed.

Lemma out_line_front ok ev a a' b : out_line ok ev a = (a', b) → a' = a ∨ ∃ l, a' = add_line l a.
Proof. unfold out_line. destruct (Marshal _); [destruct ok|]; intros [= <- <-]; eauto. Qed.

Lemma recv_balanced s s' : recv_step s s' → balanced s → balanced s'.
Proof.
  intros Hstep HB. pose proof HB as [Hq Hs Hr Hw Hl]. unfold emitted_so_far in *.
  destruct Hstep as [g ep stream env s Hg|g h s Hg Hp|g h s Hg Hp Hroom|g h s Hg Hp Hfull|g h s Hg Hp|s];
    split; unfold emitted_so_far; cbn -[eqm]; try done.
  - rewrite inc_eqm, Hr, map_size_insert_None by done. apply eqm_eq. lia.
  - rewrite Hr, map_size_insert_Some by (by eexists). done.
  - rewrite length_app. cbn. lia.
  - rewrite Hr, length_app, map_size_delete_Some by (by eexists). cbn.
    assert (size (i_hands s) ≠ 0%nat) by (apply map_size_ne_0_lookup; eauto). apply eqm_eq. lia.
  - rewrite Hr, map_size_insert_Some by (by eexists). done.
  - rewrite inc_eqm, Hr, map_size_delete_Some by (by eexists).
    assert (size (i_hands s) ≠ 0%nat) by (apply map_size_ne_0_lookup; eauto). apply eqm_eq. lia.
  - rewrite inc_eqm. eapply eqm_lr; [exact Hw|]. lia.
Qed.

(** The counters are those of some other aggregator that agrees on the rest. *)
Lemma counted_balanced g w h s :
  let a := i_agg s in let a' := g a in
  ch a' = ch a → cfg a' = cfg a → subs a' = subs a → next_sub a' = next_sub a → wal a' = wal a →
  received (cnt a') = received (cnt a) → dropped (cnt a') = dropped (cnt a) →
  taken h = taken (i_hist s) → failures h = failures (i_hist s) →
  eqm (written (cnt a') + c_errors (cnt a') - (written (cnt a) + c_errors (cnt a)))
    (xnodeJoins (cnt a') - xnodeJoins (cnt a) - (updates h - updates (i_hist s)) + to_write (i_writer s) - to_write w) →
  eqm (walAppends (cnt a') + walErrors (cnt a') - (walAppends (cnt a) + walErrors (cnt a)))
    (if bool_decide (is_Some (wal a))
     then xnodeJoins (cnt a') - xnodeJoins (cnt a) - (updates h - updates (i_hist s)) + to_log (i_writer s) - to_log w else 0) →
  balanced s → balanced (with_writer w (with_history h (on_i g s))).
Proof.
  intros a a' H1 H2 H3 H4 H5 H6 H7 H8 H9 [k HW] [k' HL] [Hq Hs Hr [j Hw] [j' Hl]]. unfold a', a, emitted_so_far in *.
  split; unfold emitted_so_far; cbn [with_writer with_history on_i i_agg i_hist i_hands i_writer]; rewrite ?H1, ?H2, ?H3, ?H4, ?H5, ?H6, ?H7, ?H8, ?H9; try done.
  - exists (k + j). lia.
  - exists (k' + j'). destruct (bool_decide _); lia.
Qed.

Lemma history_id s : with_history (i_hist s) s = s.
Proof. by destruct s. Qed.

Ltac counting := unfold u64_mod; cbn; rewrite ?inc_eqm; apply eqm_eq; lia.

Lemma inc_diff z : eqm (inc z - z) 1.
Proof. destruct (inc_eqm z) as [k H]. exists k. lia. Qed.

Lemma inc_add x z : eqm (x + inc z - (x + z)) 1.
Proof. destruct (inc_eqm z) as [k H]. exists k. lia. Qed.

Lemma inc_add_l x z : eqm (inc z + x - (z + x)) 1.
Proof. destruct (inc_eqm z) as [k H]. exists k. lia. Qed.

Lemma writer_balanced s s' : writer_step s s' → log_result_ok s → balanced s → balanced s'.
Proof.
  intros Hstep HL HB. pose proof (b_subs _ HB) as Hs. destruct Hstep as
    [ev rest s Hw Hch|now ev a s Hw Hf|now ev a s Hw Hf1 Hf2|now ev s Hw Hf1 Hf2|io b ev a r s Hw Hap|b ev r a q s Hw Hn
    |b ev q s Hw|ok b ev a ok' s Hw Ho|b ev ok s Hw|now ev s Hw|s Hw|ev edge vip s Hw|ev edge vip s Hw].
  - destruct HB as [Hq _ Hr Hwr Hl]. unfold emitted_so_far in *. rewrite Hw in *. cbn in Hwr, Hl.
    split; unfold emitted_so_far; cbn -[eqm]; try done.
    + rewrite Hch in Hq. cbn in Hq. lia.
    + rewrite Hr, Hch. cbn. apply eqm_eq. lia.
    + eapply eqm_lr; [exact Hwr|]. lia.
    + destruct (bool_decide _); (eapply eqm_lr; [exact Hl|]; lia).
  - destruct (fold_registry now (ev_Envelope ev) (i_agg s)) as [[r Hr] _]. rewrite Hf in Hr. cbn in Hr. subst a.
    apply counted_balanced; try done; rewrite Hw; cbn; [apply eqm_eq; lia|destruct (bool_decide _); apply eqm_eq; lia].
  - destruct (fold_registry now (ev_Envelope ev) (i_agg s)) as [_ [r Hr]]. rewrite Hf2 in Hr. cbn in Hr. subst a.
    apply counted_balanced; try done; rewrite Hw; cbn; [apply eqm_eq; lia|destruct (bool_decide _); apply eqm_eq; lia].
  - apply (quiet_balanced id); try done; by rewrite Hw.
  - destruct (append_log_wal _ _ _ _ _ Hap) as (w' & -> & Hsome & _).
    apply quiet_balanced; try done; by rewrite Hw.
  - unfold log_result_ok in HL. rewrite Hw in HL. rewrite <-(history_id (on_i (λ _, a) s)).
    destruct r as [[q'|e]|]; injection Hn as <- <-; (apply counted_balanced; [done..| | |done]); rewrite Hw; cbn; try (apply eqm_eq; lia).
    + rewrite bool_decide_eq_true_2 by (apply HL; eauto). rewrite inc_add_l. apply eqm_eq. lia.
    + rewrite bool_decide_eq_true_2 by (apply HL; eauto). rewrite inc_add. apply eqm_eq. lia.
    + rewrite bool_decide_eq_false_2 by (intros H; apply HL in H; by destruct H). apply eqm_eq. lia.
  - apply quiet_balanced; try done; [|by rewrite Hw..]. cbn. intros id sb (sb0 & <- & Hsb)%lookup_fmap_Some.
    apply Hs in Hsb as [? ?]. split; [done|]. by apply offer_bounded.
  - apply out_line_front in Ho as [->|[l ->]]; apply quiet_balanced; try done; by rewrite Hw.
  - rewrite <-(history_id (on_i (tally ok) s)). apply counted_balanced; try done; try (by destruct ok); rewrite Hw; cbn.
    + destruct ok, b; cbn; rewrite ?inc_add, ?inc_add_l; apply eqm_eq; lia.
    + destruct ok, b; cbn; destruct (bool_decide _); apply eqm_eq; lia.
  - apply (quiet_balanced id); try done; rewrite Hw; by destruct (lookup_peer _ _ _).
  - rewrite <-(history_id (on_i (upd_cnt add_misses) s)). apply counted_balanced; try done; rewrite Hw; cbn; [apply eqm_eq; lia|destruct (bool_decide _); apply eqm_eq; lia].
  - rewrite <-(history_id (on_i (upd_cnt add_xnodeJoins) s)). apply counted_balanced; try done; rewrite Hw; cbn.
    + destruct (inc_eqm (xnodeJoins (cnt (i_agg s)))) as [k ->]. exists (- k). lia.
    + destruct (inc_eqm (xnodeJoins (cnt (i_agg s)))) as [k ->]. destruct (bool_decide _); [exists (- k)|exists 0]; lia.
  - rewrite <-(history_id (on_i (upd_cnt (add_vipJoins vip)) s)). apply counted_balanced; try done; rewrite Hw; cbn; [apply eqm_eq; lia|destruct (bool_decide _); apply eqm_eq; lia].
Qed.

Lemma side_balanced s s' : side_step s s' → balanced s → balanced s'.
Proof.
  intros Hstep HB. pose proof (b_subs _ HB) as Hs. destruct Hstep as [r s|id s|id sb s Hsb|l1 n l2 s Hl|now s|rm_ok now w fs s Hw|er sr s].
  - apply quiet_side; try done. cbn. intros id sb [[<- <-]|[_ Hl]]%lookup_insert_Some.
    + split; [lia|]. unfold sub_bounded. cbn. case_bool_decide; lia.
    + apply Hs in Hl as [? ?]. split; [lia|done].
  - apply quiet_side; try done. cbn. intros id' sb Hl. rewrite lookup_alter in Hl.
    case_decide as Hid; [|by apply Hs in Hl as [? ?]]. subst id'. apply fmap_Some in Hl as (sb0 & Hl & ->).
    apply Hs in Hl as (? & ? & ?). unfold sub_bounded. cbn. split_and!; [done|done|]. destruct (sub_ch sb0); cbn in *; lia.
  - destruct HB as [Hq _ Hr Hwr Hl]. split; try done. cbn. intros id' sb' [_ Hl']%lookup_delete_Some. by apply Hs.
  - destruct HB as [Hq _ Hr Hwr Hl']. by split.
  - by apply quiet_side.
  - by apply quiet_side.
  - by apply quiet_side.
Qed.

Lemma result_ok_step s s' : istep s s' → log_result_ok s → log_result_ok s'.
Proof.
  unfold log_result_ok. intros [Hs|[Hs|Hs]].
  - by destruct Hs.
  - destruct Hs as [| | | |io b ev a r s Hw Hap| | | |b ev ok s Hw|now ev s Hw| | |]; cbn; try done.
    + intros _. destruct (append_log_wal _ _ _ _ _ Hap) as (w' & -> & H1 & H2). cbn. by rewrite H1.
    + by destruct b.
    + by destruct (lookup_peer _ _ _).
  - destruct Hs as [| | | | |rm_ok now w fs s Hw|]; cbn; try done. destruct (i_writer s); try done. rewrite Hw. intros H. by rewrite H.
Qed.

Lemma balanced_idle s : balanced (idle s) ↔ sys_inv s.
Proof.
  unfold idle. split.
  - intros [Hq Hs Hr Hw Hl]. unfold emitted_so_far in *. cbn in *. rewrite map_size_empty, Z.add_0_r in Hr. rewrite Z.add_0_r in Hw.
    split; unfold emissions; try done. destruct (bool_decide _); by rewrite Z.add_0_r in Hl.
  - intros [Hq Hs Hr Hw Hl]. split; unfold emitted_so_far; cbn; rewrite ?map_size_empty, ?Z.add_0_r; try done.
    by destruct (bool_decide _); rewrite Z.add_0_r.
Qed.

(** C13: in every state the goroutines can reach from a fresh aggregator, with any
    of them running between any two counter updates, channel operations, locked
    sections and system calls of another, the queue and every subscriber channel
    stay within their capacity, and the counters balance modulo 2^64: received =
    dropped + queued + taken by the writer + in the hands of stream goroutines;
    written + errors + what the writer still has to write = emissions + failed
    sessions; with a log, appends + append errors + what the writer still has to
    log = emissions.  An emission is an envelope taken that was no registry update,
    or the edge of a counted join. *)
Theorem counters_balance c res sv w a (store : S) s :
  New c res sv w = inl a → rtc istep (idle (start a store)) s → balanced s.
Proof.
  intros HN Hr. assert (H0 : balanced (idle (start a store)) ∧ log_result_ok (idle (start a store))).
  { split; [|done]. apply balanced_idle. by eapply start_sys_inv. }
  induction Hr as [|x y z Hs _ IH]; [by destruct H0|]. destruct H0 as [HB HL]. apply IH.
  split; [|by eapply result_ok_step]. destruct Hs as [Hs|[Hs|Hs]]; [by eapply recv_balanced|by eapply writer_balanced|by eapply side_balanced].
Qed.

(** ** The larger steps *)

(** [emitEnvelope] with nobody in between. *)
Lemma emission_run io ok b ev s :
  i_writer s = WAppend b ev →
  rtc istep s (with_writer (if b then WJoin ev else WIdle) (on_i (emitEnvelope io ok ev) s)).
Proof.
  intros Hw. destruct s as [a store h m w lv]. cbn in Hw. subst w. unfold on_i, with_writer. cbn.
  rewrite emit_pieces, assign_seq_pieces.
  destruct (append_log io ev a) as [a1 r] eqn:E1. cbn. destruct (number r a1) as [a2 q] eqn:E2.
  destruct (out_line ok ev (broadcast (mkLive q (ev_Agent ev) (ev_Envelope ev)) a2)) as [a3 d] eqn:E3.
  eapply rtc_l; [right; left; by eapply (w_append io)|]. eapply rtc_l; [right; left; by eapply w_number|].
  eapply rtc_l; [right; left; by eapply w_broadcast|]. eapply rtc_l; [right; left; by eapply (w_out ok)|].
  apply rtc_once. right; left. by eapply w_tally.
Qed.

(** An iteration of [writeLoop] with nobody in between. *)
Lemma write_run io ev rest s :
  ch (s_agg s) = ev :: rest → rtc istep (idle s) (idle (do_write io ev s)).
Proof.
  intros Hch. destruct s as [a store [t u f]]. cbn in Hch. unfold idle, do_write, write_step. cbn. rewrite Hch.
  eapply rtc_l; [right; left; by eapply w_take|]. unfold on_i, with_history, with_writer. cbn.
  set (a0 := set_ch rest a). set (env := ev_Envelope ev). unfold handle. fold env.
  destruct (is_controlb env) eqn:Hc.
  - pose proof (fold_control (wi_now io) env a0) as HF. rewrite <-is_controlb_spec in HF. specialize (HF Hc).
    destruct (foldAdvertise (wi_now io) env a0) as [a1 []] eqn:E1.
    + apply rtc_once. right; left. by eapply (w_advertise (wi_now io)).
    + destruct HF as (-> & Ht & _). destruct (foldWithdraw env a0) as [a2 d] eqn:E2. cbn in Ht. subst d.
      apply rtc_once. right; left. eapply (w_withdraw (wi_now io)); [done|exact (f_equal snd E1)|done].
  - assert (Hn : ¬ is_control env) by (rewrite <-is_controlb_spec; congruence).
    destruct (fold_data (wi_now io) env a0 Hn) as [E1 E2]. rewrite E1, E2, Z.add_0_r.
    eapply rtc_l; [right; left; eapply (w_data (wi_now io)); [done|exact (f_equal snd E1)|exact (f_equal snd E2)]|].
    etrans; [by apply (emission_run (wi_log io) (wi_out io))|]. unfold on_i, with_writer. cbn.
    set (a3 := emitEnvelope _ _ ev a0). rewrite (joinPeer_pieces (wi_now io) env a3).
    eapply rtc_l; [right; left; by eapply (w_lookup (wi_now io))|]. unfold with_writer. cbn. fold env.
    destruct (lookup_peer (wi_now io) env a3) as [| |edge vip].
    + done.
    + apply rtc_once. right; left. by eapply w_miss.
    + eapply rtc_l; [right; left; by eapply w_join|]. eapply rtc_l; [right; left; by eapply w_vip|].
      apply (emission_run (wi_edge_log io) (wi_edge_out io) false (mkEv (ev_Agent ev) (edge_envelope edge))
        (mkI (upd_cnt (add_vipJoins vip) (upd_cnt add_xnodeJoins a3)) store (mkHistory (t + 1) u f) ∅
           (WAppend false (mkEv (ev_Agent ev) (edge_envelope edge))) [])). done.
Qed.

(** One envelope received with nobody in between. *)
Lemma receive_run ep stream env s : rtc istep (idle s) (idle (do_receive ep stream env s)).
Proof.
  destruct s as [a store h]. unfold idle, do_receive, receive. cbn.
  set (h1 := mkHold ep stream env RCounted).
  eapply rtc_l; [left; by apply (r_count 0%nat ep stream env)|].
  eapply rtc_l; [left; apply (r_save 0%nat h1); [by apply lookup_insert_eq|done]|].
  unfold on_i, with_hands. cbn -[insert]. rewrite insert_insert_eq. case_bool_decide as Hq.
  - replace ∅ with (delete 0%nat (<[0%nat := in_phase RSaved h1]> (∅ : gmap nat holding))) by by rewrite delete_insert_eq.
    apply rtc_once. left. by apply (r_send 0%nat (in_phase RSaved h1)); [apply lookup_insert_eq|..].
  - eapply rtc_l; [left; apply (r_refused 0%nat (in_phase RSaved h1)); [apply lookup_insert_eq|done|cbn in *; lia]|].
    unfold with_hands. cbn -[insert]. rewrite insert_insert_eq.
    replace ∅ with (delete 0%nat (<[0%nat := in_phase RRefused (in_phase RSaved h1)]> (∅ : gmap nat holding)))
      by by rewrite delete_insert_eq.
    apply rtc_once. left. by apply (r_drop 0%nat (in_phase RRefused (in_phase RSaved h1))); [apply lookup_insert_eq|].
Qed.

(** The steps of [System] are runs of the finer ones. *)
Theorem larger_steps s s' : rtc sys_step s s' → rtc istep (idle s) (idle s').
Proof.
  assert (Hside : ∀ x y, side_step x y → rtc istep x y) by (intros x y H; apply rtc_once; right; by right).
  induction 1 as [|x y z Hs _ IH]; [done|]. etrans; [|exact IH]. clear z IH.
  destruct Hs as [ep stream env x|x|io ev rest x Hch|r x|id x|id x|now len nsvc x|now x|rm_ok now w fs x Hw|er sr x].
  - apply receive_run.
  - apply rtc_once. left. apply (r_fail (idle x)).
  - by eapply write_run.
  - apply Hside. apply (s_subscribe r (idle x)).
  - apply Hside. apply (s_consume id (idle x)).
  - unfold on_agg, unregisterSubscriber. destruct (subs (s_agg x) !! id) as [sb|] eqn:E; [|by destruct x].
    etrans; [apply Hside; by apply (s_remove id sb (idle x))|].
    apply Hside. by apply (s_fold_drops [] (sub_drops sb) []).
  - replace (on_agg _ x) with (on_agg (λ a, set_registry (Sweep now (registry a)) a) x).
    { apply Hside. apply (s_sweep now (idle x)). }
    unfold on_agg, agg_Stats, Size, Sweep. destruct (Stats now _) as [r' [e w]]; done.
  - apply Hside. apply (s_sweep now (idle x)).
  - apply Hside. by apply (s_gc rm_ok now w fs (idle x)).
  - apply Hside. apply (s_index er sr (idle x)).
Qed.

(** ** The drops of a subscriber that leaves *)

(** Removing a subscriber takes its drops out of the total that is reported, and
    adding them to the accumulator puts them back: a scrape in between sees the
    counter fall. *)
Definition reported (s : isys) : Z := s_SubscriberDropped (agg_Stats 0 None None (i_agg s)).2.

Lemma leaving_hides_drops id sb s :
  subs (i_agg s) !! id = Some sb → 0 ≤ sub_drops sb →
  ∃ s1 s2, side_step s s1 ∧ side_step s1 s2 ∧
    reported s1 = u64 (reported s - sub_drops sb) ∧ reported s2 = reported s.
Proof.
  intros Hsb H0. destruct s as [a store h m w lv]. cbn in Hsb. eexists _, _. split; [by apply (s_remove id sb)|].
  split; [by apply (s_fold_drops [] (sub_drops sb) lv)|]. unfold reported, agg_Stats, Size. cbn.
  destruct (Stats 0 (registry a)) as [r [e x]]. cbn. rewrite (total_drops_delete _ _ _ Hsb). unfold u64.
  rewrite Zminus_mod_idemp_l, Zplus_mod_idemp_l. split; f_equal; lia.
Qed.
End interleaving.

(** ** Witness *)

Module InterleavingDemo.
Import System.Demo.

Definition m0 : isys (S := nullStore) := idle (start a NullCursorStore).
(** Two stream goroutines each with an envelope; the first one's is saved and sent,
    and the writer takes it. *)
Definition m1 : isys := with_hands (<[0%nat := mkHold ep "intent" env RCounted]> (i_hands m0)) (on_i (upd_cnt add_received) m0).
Definition m2 : isys := with_hands (<[1%nat := mkHold ep "audit" env RCounted]> (i_hands m1)) (on_i (upd_cnt add_received) m1).
Definition h3 : holding := in_phase RSaved (mkHold ep "intent" env RCounted).
Definition m3 : isys := with_hands (<[0%nat := h3]> (i_hands m2))
  (mkI (i_agg m2) (save_cursor (mkHold ep "intent" env RCounted) (i_store m2)) (i_hist m2) (i_hands m2) (i_writer m2) (i_leaving m2)).
Definition m4 : isys := with_hands (delete 0%nat (i_hands m3)) (on_i (λ a, set_ch (ch a ++ [mkEv "n1" env]) a) m3).
Definition m5 : isys := with_writer (WTaken (mkEv "n1" env)) (with_history (mkHistory 1 0 0) (on_i (set_ch []) m4)).

Lemma m5_reached : rtc istep m0 m5.
Proof.
  eapply rtc_l; [left; by apply (r_count 0%nat ep "intent" env)|].
  eapply rtc_l; [left; by apply (r_count 1%nat ep "audit" env)|].
  eapply rtc_l; [left; by apply (r_save 0%nat (mkHold ep "intent" env RCounted) m2)|].
  eapply rtc_l; [left; by apply (r_send 0%nat h3 m3)|].
  apply rtc_once. right; left. by apply (w_take (mkEv "n1" env) [] m4).
Qed.
End InterleavingDemo.

(** Two received, none dropped or queued, one in the writer's hands and one still in
    those of its stream goroutine. *)
Lemma counters_balance_witness :
  balanced InterleavingDemo.m5 ∧
  received (cnt (i_agg InterleavingDemo.m5)) = 2 ∧ dropped (cnt (i_agg InterleavingDemo.m5)) = 0 ∧
  ch (i_agg InterleavingDemo.m5) = [] ∧ taken (i_hist InterleavingDemo.m5) = 1 ∧
  size (i_hands InterleavingDemo.m5) = 1%nat ∧ written (cnt (i_agg InterleavingDemo.m5)) = 0.
Proof.
  split; [|vm_compute; repeat split].
  apply (counters_balance System.Demo.conf None None None System.Demo.a NullCursorStore InterleavingDemo.m5).
  - reflexivity.
  - exact InterleavingDemo.m5_reached.
Defined.
