(* ===== verification/PipelineSpec.v ===== *)
(** * The pipeline: from agent streams to downstream subscribers

    Theorems that compose the components: numbering, logging and broadcast of
    the merged stream, the hand-over from replay to live tail, the receive loop
    with its cursor store, the fleet, and the join with the real indexes. *)
From Stdlib Require Import Ascii QArith.
From stdpp Require Import base numbers gmap strings sorting relations fin_maps list.
From S2P Require Import Prelude GoStr Json EnvWal EnvWalInv EnvWalLog EnvWalSpec Pb CursorStore ClusterPeers ClusterPeersSpec K8s Discovery DiscoverySpec Aggregator AggregatorSpec ReExport System.
Local Open Scope Z_scope.

Section pipeline.
Context `{!ProtoJSON EventEnvelope, !ProtoJSONOk EventEnvelope}.

(** C14: while log writes succeed, envelopes can be encoded and agent names are
    ASCII, what the writer broadcasts and what it logs are the same envelopes with
    the same numbers, consecutive and without gaps, over any sequence of envelopes;
    every subscriber is offered all of them in that order. *)
Theorem log_and_broadcast_agree (l : list (write_io * envelopeWithAgent)) a q lg :
  logging a q lg → q + 2 * Z.of_nat (length l) < u64_max - 2 → Forall smooth l →
  ∃ ext evs, subs (handle_all l a) = offers evs <$> subs a ∧
    logging (handle_all l a) (q + Z.of_nat (length ext)) (lg ++ ext) ∧
    live_of <$> omap to_entry ext = evs ∧ le_Seq <$> evs = seqZ (q + 1) (Z.of_nat (length evs)).
Proof.
  intros HL Hlt Hl. destruct (handle_all_logs l a q lg HL Hlt Hl) as (ext & evs & Hs & HL' & Hx & _).
  exists ext, evs. split_and!; try done; [apply Hx|]. rewrite (extends_seqs _ _ _ Hx). by destruct Hx as (_ & _ & ->).
Qed.

(** The broadcast of a whole run of the writer, the same for every subscriber:
    all envelopes that are no registry updates, in order, with edges in between. *)
Lemma handle_all_emitted (l : list (write_io * envelopeWithAgent)) a :
  ∃ evs, subs (handle_all l a) = offers evs <$> subs a ∧
    sublist ((λ x, (ev_Agent x.2, ev_Envelope x.2)) <$> filter (λ x, is_controlb (ev_Envelope x.2) = false) l)
      ((λ e, (le_Agent e, le_Envelope e)) <$> evs).
Proof.
  revert a. induction l as [|[io ev] l IH]; intros a.
  { exists []. split; [|done]. cbn. rewrite <-(map_fmap_id (subs a)) at 1. done. }
  change (handle_all ((io, ev) :: l) a) with (handle_all l (handle io ev a)).
  destruct (IH (handle io ev a)) as (evs & Hs & Hsub). rewrite filter_cons. cbn [fst snd].
  destruct (is_controlb (ev_Envelope ev)) eqn:Hc.
  - destruct (handle_control io ev a) as [He _]; [by apply is_controlb_spec|]. unfold emitted in He.
    exists evs. rewrite Hs, He, offers_app. split; [done|]. by rewrite decide_False by done.
  - rewrite decide_True by done.
    destruct (handle_data io ev a) as (s1 & [He|(s2 & edge & _ & He)]); [rewrite <-is_controlb_spec; congruence|..];
      unfold emitted in He; rewrite He, offers_app in Hs; (eexists; split; [exact Hs|]); rewrite fmap_app, fmap_cons.
    + by apply sublist_skip.
    + apply sublist_skip. by apply sublist_cons.
Qed.

(** Over any run of the writer, with any log and sink failures, there is
    one broadcast that contains every envelope that is no registry update, in
    order; and no subscriber loses any of it silently: its channel gains a
    subsequence of the broadcast and its drop counter the rest, modulo 2^64. *)
Theorem subscriber_loss_is_counted (l : list (write_io * envelopeWithAgent)) a :
  ∃ evs,
    sublist ((λ x, (ev_Agent x.2, ev_Envelope x.2)) <$> filter (λ x, is_controlb (ev_Envelope x.2) = false) l)
      ((λ e, (le_Agent e, le_Envelope e)) <$> evs) ∧
    ∀ id s, subs a !! id = Some s →
      ∃ s' sent, subs (handle_all l a) !! id = Some s' ∧ sublist sent evs ∧ sub_ch s' = sub_ch s ++ sent ∧
        u64 (sub_drops s') = u64 (sub_drops s + Z.of_nat (length evs - length sent)).
Proof.
  destruct (handle_all_emitted l a) as (evs & Hs & Hsub). exists evs. split; [done|]. intros id s Hl.
  destruct (offers_conserve evs s) as (sent & Hsent & Hch & _ & Hd).
  exists (offers evs s), sent. by rewrite Hs, lookup_fmap, Hl.
Qed.

Lemma extends_above q ext evs : extends q ext evs → Forall (λ d, q < d_seq d) ext.
Proof.
  intros (Hq & _ & _). assert (H : Forall (λ z, q < z) (d_seq <$> ext)); [|by rewrite Forall_fmap in H].
  rewrite Hq, Forall_forall. intros z Hz%elem_of_seqZ. lia.
Qed.

(** Replay of the log, then the live tail, behind a registered subscriber; the
    log has grown by records above its old end. *)
Lemma subscribe_once (r : ReExportServer) (req : SubscribeRequest) send_ok c a0 q0 l0 b1 b2 w1 fs1 s :
  (∀ n, send_ok n = true) →
  r_Cursor req = Some c → 0 ≤ CurSeq c ≤ q0 → 0 < SubscriberBuffer r →
  logging a0 q0 l0 → q0 + 2 * Z.of_nat (length b1 + length b2) < u64_max - 2 →
  Z.of_nat (2 * (length b1 + length b2)) ≤ SubscriberBuffer r →
  Forall smooth (b1 ++ b2) →
  let a := (Subscribe_enter r a0).1 in
  let a1 := handle_all b1 a in
  let a2 := handle_all b2 a1 in
  wal a1 = Some (w1, fs1) → (CurSeq c = 0 ∨ oldest w1 ≤ CurSeq c + 1) →
  subs a2 !! (Subscribe_enter r a0).2 = Some s →
  ∃ w2 fs2 ext, wal a2 = Some (w2, fs2) ∧ log fs2 (segments w2) = l0 ++ ext ∧
    Forall (λ d, q0 < d_seq d) ext ∧
    (Subscribe r req send_ok (Some (w1, open_view fs1 (λ _, false))) (sub_ch s)).1.1 =
      (λ e, stampCursor r (Envelope e) (Seq e) (stream_of req)) <$>
        filter (λ e, passes (stream_of req) (Filter req) (Envelope e) = true)
          (above (CurSeq c) (log fs2 (segments w2))).
Proof.
  intros Hsend Hcur Hc Hbuf HL Hlt Hcap Hall a a1 a2 Hw1 Hold Hs.
  apply Forall_app in Hall as [Hb1 Hb2].
  assert (HLa : logging a q0 l0) by (eapply logging_ext; [|exact HL]; done).
  destruct (handle_all_logs b1 a q0 l0 HLa) as (ext1 & evs1 & Hs1 & HL1 & Hx1 & Hn1); [lia|done|].
  destruct (handle_all_logs b2 a1 _ _ HL1) as (ext2 & evs2 & Hs2 & HL2 & Hx2 & Hn2); [lia|done|].
  assert (Hch : sub_ch s = evs1 ++ evs2).
  { fold a1 in Hs1. unfold a2 in Hs. rewrite Hs2, Hs1, offers_app, lookup_fmap in Hs. unfold a in Hs. cbn in Hs.
    rewrite lookup_insert_eq in Hs. injection Hs as <-.
    rewrite bool_decide_eq_false_2 by lia. apply offers_fit. cbn. rewrite length_app.
    destruct Hx1 as (_ & _ & ->), Hx2 as (_ & _ & ->). lia. }
  destruct (logging_inv _ _ _ HLa) as (Hsort & Hle & Hq0).
  pose proof HL1 as (w1' & fs1' & old1 & c1 & Hw1' & HC1 & _ & _ & Hl1). fold a1 in Hw1'.
  rewrite Hw1 in Hw1'. injection Hw1' as <- <-.
  pose proof HL2 as (w2 & fs2 & old2 & c2 & Hw2 & _ & _ & _ & Hl2). exists w2, fs2, (ext1 ++ ext2).
  split; [exact Hw2|]. split; [by rewrite Hl2, (assoc_L (++))|]. split; [by eapply extends_above; apply extends_app|].
  unfold Subscribe, subscribe_run, replayWAL. rewrite Hcur.
  rewrite (ReadFrom_clean _ (CurSeq c) w1 fs1 old1 c1) by (done || lia).
  rewrite decide_False by lia. rewrite feed_replay, Hl1, Hch by done. cbn [fst snd app].
  destruct (replay_then_live r (stream_of req) (Filter req) send_ok (CurSeq c) q0 l0 ext1 evs1 ext2 evs2
    Hsend Hc Hsort Hle Hx1 Hx2) as [H1 _].
  cbn [app] in H1 |- *. rewrite H1, Hl2. unfold passing.
  rewrite (filter_fmap live_of), <-list_fmap_compose. reflexivity.
Qed.

(** C2: a subscriber that resumes from a retained cursor gets, across the
    hand-over from replay to live tail, exactly the matching records above its
    cursor, each once and in order, whatever is appended between its
    registration, the replay and the tail.  This holds while no write to the log
    has failed, every envelope and every edge can be encoded, agent names are
    ASCII, numbers stay below 2^64, the consumer takes every send and its channel
    holds what is broadcast meanwhile. *)
Theorem subscribe_exactly_once (r : ReExportServer) (req : SubscribeRequest) send_ok c a0 q0 l0 b1 b2 w1 fs1 s :
  (∀ n, send_ok n = true) →
  r_Cursor req = Some c → 0 ≤ CurSeq c ≤ q0 → 0 < SubscriberBuffer r →
  logging a0 q0 l0 → q0 + 2 * Z.of_nat (length b1 + length b2) < u64_max - 2 →
  Z.of_nat (2 * (length b1 + length b2)) ≤ SubscriberBuffer r →
  Forall smooth (b1 ++ b2) →
  let a := (Subscribe_enter r a0).1 in
  let a1 := handle_all b1 a in
  let a2 := handle_all b2 a1 in
  wal a1 = Some (w1, fs1) → (CurSeq c = 0 ∨ oldest w1 ≤ CurSeq c + 1) →
  subs a2 !! (Subscribe_enter r a0).2 = Some s →
  ∃ w2 fs2, wal a2 = Some (w2, fs2) ∧
    (Subscribe r req send_ok (Some (w1, open_view fs1 (λ _, false))) (sub_ch s)).1.1 =
      (λ e, stampCursor r (Envelope e) (Seq e) (stream_of req)) <$>
        filter (λ e, passes (stream_of req) (Filter req) (Envelope e) = true)
          (above (CurSeq c) (log fs2 (segments w2))).
Proof.
  intros Hsend Hcur Hc Hbuf HL Hlt Hcap Hall a a1 a2 Hw1 Hold Hs.
  destruct (subscribe_once r req send_ok c a0 q0 l0 b1 b2 w1 fs1 s Hsend Hcur Hc Hbuf HL Hlt Hcap Hall Hw1 Hold Hs)
    as (w2 & fs2 & ext & Hw2 & _ & _ & Hout).
  by exists w2, fs2.
Qed.

(** C40: an envelope whose protojson encoding fails is broadcast under a number
    the log has not assigned; the next envelope then gets the same number, and a
    live subscriber that forwarded the first skips the second. *)
Theorem unencodable_envelope_hides_next io io' ok ev ev' a q l r sn send_ok :
  logging a q l → liveSeq a = q → q < u64_max - 2 → io_ok io' →
  Marshal (ev_Envelope ev) = None → is_Some (Marshal (ev_Envelope ev')) →
  all_bytes is_ascii7 (ev_Agent ev') = true →
  streamMatches sn (ev_Envelope ev) = true → (∀ n, send_ok n = true) →
  let a1 := emitEnvelope io ok ev a in
  let s1 := (assign_seq io ev a).2 in
  let s2 := (assign_seq io' ev' a1).2 in
  s1 = s2 ∧
  (live_tail r sn None send_ok [mkLive s1 (ev_Agent ev) (ev_Envelope ev); mkLive s2 (ev_Agent ev') (ev_Envelope ev')]
     ([], q)).1.1 = [stampCursor r (ev_Envelope ev) s1 sn].
Proof.
  intros HL Hlive Hlt Hio Hn Hm' Hag Hst Hsend a1 s1 s2.
  pose proof HL as (w & fs & old & c & Hw & HC & Hf & Hq & Hl).
  pose proof (inv_seq _ _ _ _ (cl_inv _ _ _ _ HC)) as Hq0.
  assert (Has : assign_seq io ev a =
    (set_liveSeq (inc (liveSeq a)) (upd_cnt add_walErrors (set_wal (Some (w, fs)) a)), inc (liveSeq a))).
  { unfold assign_seq. by rewrite Hw, (Append_no_marshal io (ev_Agent ev) (ev_Envelope ev) w fs Hn). }
  assert (HL1 : logging a1 q l).
  { eapply logging_ext; [|exact HL]. unfold a1. rewrite (proj1 (emit_wal io ok ev a)), Has. done. }
  destruct (emit_logs io' true ev' a1 q l HL1) as [Hs2 _]; [lia|done|done|done|].
  assert (Hs1 : s1 = q + 1).
  { unfold s1. rewrite Has. cbn. unfold inc. rewrite Hlive. apply u64_succ; [unfold_u64; lia|lia]. }
  unfold s2. rewrite Hs2, Hs1. split; [done|]. cbn [live_tail snd le_Seq].
  rewrite bool_decide_eq_false_2 by lia. unfold passes. cbn [le_Envelope]. rewrite Hst. cbn [andb negb le_Envelope envelopePassesFilter].
  unfold send. rewrite Hsend. cbn [fst snd length app le_Seq].
  rewrite bool_decide_eq_true_2 by lia. done.
Qed.
End pipeline.

(** ** The receive loop and the cursor store *)

Section receiving.
Context {S : Type} `{!CursorStore S, !CursorStoreOk S}.

Definition cursor_of (st : Aggregator * S) (ep : AgentEndpoint) (stream : string) : option Cursor :=
  r_Cursor (subscribe_request st.1 st.2 ep stream).

(** A cursor the loop may resume from after having received [envs]. *)
Definition resumable (c0 : option Cursor) (envs : list EventEnvelope) (c : option Cursor) : Prop :=
  c = c0 ∨ ∃ env, env ∈ envs ∧ e_Cursor env = c.

Lemma resumable_trans c0 l1 c1 l2 c2 : resumable c0 l1 c1 → resumable c1 l2 c2 → resumable c0 (l1 ++ l2) c2.
Proof. unfold resumable. set_solver. Qed.

(** The room left in the queue. *)
Definition room (a : Aggregator) : nat := Z.to_nat (QueueDepth (cfg a) - Z.of_nat (length (ch a))).

Lemma receive_spec ep stream env (st : Aggregator * S) :
  has_byte (chr 0) (a_Name ep) = false →
  resumable (cursor_of st ep stream) [env] (cursor_of (receive ep stream env st) ep stream) ∧
  ch (receive ep stream env st).1 = ch st.1 ++ (mkEv (a_Name ep) <$> take (room st.1) [env]) ∧
  cfg (receive ep stream env st).1 = cfg st.1.
Proof.
  intros Hnul. destruct st as [a store]. unfold receive, resumable, cursor_of, room. cbn [upd_cnt ch cfg fst snd].
  split_and!; cbn [fst snd].
  - cbn. destruct (e_Cursor env) as [c|] eqn:E; [|auto].
    destruct (load_save store (a_Name ep) stream (Some c) (a_Name ep) stream Hnul Hnul) as [->|(_ & _ & ->)]; [auto|].
    right. exists env. split; [by left|done].
  - case_bool_decide as Hlt; cbn.
    + replace (Z.to_nat _) with (Datatypes.S (Z.to_nat (QueueDepth (cfg a) - Z.of_nat (length (ch a)) - 1))) by lia.
      cbn. by rewrite take_nil.
    + replace (Z.to_nat _) with 0%nat by lia. cbn. by rewrite app_nil_r.
  - by case_bool_decide.
Qed.

Lemma receive_all_spec ep stream envs (st : Aggregator * S) :
  has_byte (chr 0) (a_Name ep) = false →
  resumable (cursor_of st ep stream) envs (cursor_of (receive_all ep stream envs st) ep stream) ∧
  ch (receive_all ep stream envs st).1 = ch st.1 ++ (mkEv (a_Name ep) <$> take (room st.1) envs) ∧
  cfg (receive_all ep stream envs st).1 = cfg st.1.
Proof.
  intros Hnul. revert st. induction envs as [|env envs IH]; intros st.
  { cbn. rewrite take_nil, app_nil_r. split_and!; try done. by left. }
  change (receive_all ep stream (env :: envs) st) with (receive_all ep stream envs (receive ep stream env st)).
  destruct (receive_spec ep stream env st Hnul) as (Hr1 & Hc1 & Hg1).
  destruct (IH (receive ep stream env st)) as (Hr & Hc & Hg). split_and!; [|rewrite Hc, Hc1|congruence].
  - exact (resumable_trans _ [env] _ envs _ Hr1 Hr).
  - rewrite <-(assoc_L (++)), <-fmap_app. do 2 f_equal. unfold room. rewrite Hc1, Hg1, length_app, length_fmap, length_take.
    fold (room st.1). assert (room st.1 = Z.to_nat (QueueDepth (cfg st.1) - Z.of_nat (length (ch st.1)))) by done.
    destruct (room st.1) as [|k]; cbn [length take app]; [by replace (Z.to_nat _) with 0%nat by lia|].
    rewrite take_nil. cbn [app]. f_equal. f_equal. lia.
Qed.

(** The envelopes the loop received before it ended. *)
Fixpoint loop_envs (ss : list (session * bool)) : list EventEnvelope :=
  match ss with
  | [] => []
  | (s, ended) :: ss' => session_envs s ++ (if ended : bool then [] else loop_envs ss')
  end.

Lemma subscribeOnce_spec ep stream s (st : Aggregator * S) :
  (subscribeOnce ep stream s st).1 = receive_all ep stream (session_envs s) st ∧
  ∀ req, req ∈ (subscribeOnce ep stream s st).2 → req = subscribe_request st.1 st.2 ep stream.
Proof. destruct s; cbn; set_solver. Qed.

(** C32: whatever cursor store is plugged in, every subscription an endpoint's
    loop opens, across any sequence of failed dials, failed calls and broken
    streams, asks for that one stream under the configured consumer id from the
    cursor the loop started with or one that an envelope received by this loop
    carried; and the queue gains, in order, the received envelopes tagged with
    the endpoint, up to its depth.  The agent's name holds no NUL byte, which the
    store uses as a separator. *)
Theorem stream_loop_resumes ep stream ss (st : Aggregator * S) :
  has_byte (chr 0) (a_Name ep) = false →
  (∀ req, req ∈ (streamLoop ep stream ss st).2 →
     ConsumerId req = ConsumerID (cfg st.1) ∧ Streams req = [stream] ∧
     resumable (cursor_of st ep stream) (loop_envs ss) (r_Cursor req)) ∧
  ch (streamLoop ep stream ss st).1.1 = ch st.1 ++ (mkEv (a_Name ep) <$> take (room st.1) (loop_envs ss)).
Proof.
  intros Hnul. revert st. induction ss as [|[s ended] ss IH]; intros st.
  { cbn. rewrite take_nil, app_nil_r. set_solver. }
  cbn [streamLoop loop_envs]. destruct (subscribeOnce_spec ep stream s st) as [H1 H2].
  destruct (receive_all_spec ep stream (session_envs s) st Hnul) as (Hr & Hc & Hg).
  destruct (subscribeOnce ep stream s st) as [st1 reqs]. cbn [fst snd] in H1, H2. subst st1.
  assert (Hreq : ∀ l req, req ∈ reqs → ConsumerId req = ConsumerID (cfg st.1) ∧ Streams req = [stream] ∧
     resumable (cursor_of st ep stream) l (r_Cursor req)).
  { intros l req ->%H2. split_and!; try done. by left. }
  destruct ended; cbn [fst snd].
  { rewrite app_nil_r. split; [apply Hreq|done]. }
  set (st1 := receive_all ep stream (session_envs s) st) in *.
  destruct (IH (upd_cnt add_errors st1.1, st1.2)) as [IH1 IH2].
  destruct (streamLoop ep stream ss (upd_cnt add_errors st1.1, st1.2)) as [st2 reqs']. cbn [fst snd] in IH1, IH2 |- *.
  split.
  - intros req [Hin|Hin]%elem_of_app; [by apply Hreq|]. destruct (IH1 req Hin) as (-> & -> & Hres).
    split_and!; [cbn; by rewrite Hg|done|]. exact (resumable_trans _ _ _ _ _ Hr Hres).
  - rewrite IH2. cbn [ch upd_cnt]. rewrite Hc, <-(assoc_L (++)), <-fmap_app. do 2 f_equal.
    unfold room. cbn [cfg ch upd_cnt]. rewrite Hc, Hg, length_app, length_fmap, length_take. fold (room st.1).
    assert (room st.1 = Z.to_nat (QueueDepth (cfg st.1) - Z.of_nat (length (ch st.1)))) by done.
    rewrite take_app. f_equal. f_equal. lia.
Qed.
End receiving.

(** An envelope that meets a full queue is dropped, counted, and its
    cursor saved all the same: a later subscription resumes behind it. *)
Theorem dropped_envelope_is_acknowledged ep stream env c a (store : fileCursorStore) :
  QueueDepth (cfg a) ≤ Z.of_nat (length (ch a)) → e_Cursor env = Some c →
  wake_closed store = false → Load store (a_Name ep) stream = None →
  let st := receive ep stream env (a, store) in
  ch st.1 = ch a ∧ dropped (cnt st.1) = u64 (dropped (cnt a) + 1) ∧
  r_Cursor (subscribe_request st.1 st.2 ep stream) = Some c.
Proof.
  intros Hfull Hc Hw HL st. unfold st, receive. rewrite Hc. cbn [upd_cnt ch cfg].
  rewrite bool_decide_eq_false_2 by lia. split_and!; try done. cbn.
  unfold Load in HL. destruct (data store !! CursorStore.keyOf (a_Name ep) stream) eqn:E; [done|].
  unfold Save, Save_locked, Save_wake. rewrite E. cbn [wake_closed]. rewrite Hw. cbn.
  unfold Load. cbn [data]. rewrite lookup_insert_eq. by destruct c.
Qed.

(** ** The join with the real indexes behind it *)

(** With the Service index built from the watched objects, a connect that
    is attributed through a Service address really hit the cluster IP and port of
    a watched Service, which the edge names, and the process and image it reports
    are those of a live advertise. *)
Theorem service_join_end_to_end (svals vals : list json) idx pidx r addr now l :
  svc r = Some (service_resolver (applySlices vals vals (applyServices svals idx) pidx).1) →
  Join r addr now = Some (l, HowServiceVIP) →
  (∃ so j host portStr pr, j ∈ svals ∧ dec_service j = Some so ∧ Service l = mkServiceRef (so_Namespace so) (so_Name so) ∧
     SplitHostPort addr = Some (host, portStr) ∧ host ∈ so_ClusterIP so :: so_ClusterIPs so ∧
     pr ∈ so_Ports so ∧ Atoi portStr = Some (sp_Port pr)) ∧
  ∃ s l0, get_live r now s = Some l0 ∧ Process l = Process l0 ∧ l_Image l = l_Image l0.
Proof.
  intros Hsvc HJ. split.
  - unfold Join in HJ. destruct (liveExact r addr now); [done|]. destruct (join_slice r addr now); [done|].
    destruct (join_vip r addr now) as [l3|] eqn:E; [|by destruct (liveWild r addr now)].
    injection HJ as <-. unfold join_vip in E. rewrite Hsvc in E. cbn [ClusterPeers.ResolveVIP service_resolver] in E.
    destruct (Discovery.ResolveVIP _ addr) as [[[bs ns] name]|] eqn:Ev; [|done].
    destruct (ResolveVIP_inv svals vals vals idx pidx addr bs ns name Ev)
      as (host & portStr & so & pr & _ & _ & Ha & (j & Hj & Hdec) & <- & <- & Hip & Hpr & Hport & _).
    destruct (resolveVIP_sound _ _ _ _ _ E) as (l0 & _ & amb & n & ->).
    by exists so, j, host, portStr, pr.
  - destruct (Join_sound _ _ _ _ _ HJ) as (s & l0 & Hs & Hm). exists s, l0. split; [done|].
    by destruct Hm as [->|(_ & sv & amb & n & ->)].
Qed.

(** ** Witnesses *)

Module Demo.
(** A codec for two envelopes, enough to run the pipeline on. *)
Definition env (s : string) : EventEnvelope := mkEnvelope None (Some (EventEnvelope_Lifecycle s)) "".
Definition demo_marshal (e : EventEnvelope) : option string :=
  match e with
  | mkEnvelope None (Some (EventEnvelope_Lifecycle s)) EmptyString =>
      if bool_decide (s = "up") then Some "true" else if bool_decide (s = "down") then Some "false" else None
  | _ => None
  end.
Definition demo_unmarshal (s : string) : option EventEnvelope :=
  if bool_decide (s = "true") then Some (env "up") else if bool_decide (s = "false") then Some (env "down") else None.
Global Instance demo_proto : ProtoJSON EventEnvelope := {| Marshal := demo_marshal; Unmarshal := demo_unmarshal |}.

Lemma demo_marshal_inv e b : demo_marshal e = Some b → e = env "up" ∧ b = "true" ∨ e = env "down" ∧ b = "false".
Proof.
  destruct e as [[c|] [[i|d|o|s|o|o|o]|] [|c' o']]; cbn; try done.
  repeat case_bool_decide; intros [= <-]; subst; auto.
Qed.

Global Instance demo_proto_ok : ProtoJSONOk EventEnvelope.
Proof.
  split; intros e b He; apply demo_marshal_inv in He as [[-> ->]|[-> ->]]; vm_compute; reflexivity.
Qed.

Definition wopts : Options := mkOptions "wal" 0 60 0.
Definition wio : open_io := mkOpenIO true true (λ _, true) true 100.
Definition w0 : WAL * FS :=
  match Open wio wopts ∅ with (fs, Ok w) => (w, fs) | (fs, _) => (mkWAL wopts 0 [] None 0 0, fs) end.
Definition conf : Config := mkConfig [mkAgent "n1" "n1:9000"] true ["intent"] "c" 1 2 false 30.
Definition agg (w : option (WAL * FS)) : Aggregator :=
  mkAgg conf [] zero_counters 0 ∅ 0 (NewRegistry 30 None None) w [].
Definition a0 : Aggregator := agg (Some w0).
Definition ok_io : append_io := mkAppendIO 110 WrOk true true 110.
Definition io : write_io := mkWriteIO 5 ok_io true ok_io true.
Definition up : write_io * envelopeWithAgent := (io, mkEv "n1" (env "up")).
Definition down : write_io * envelopeWithAgent := (io, mkEv "n2" (env "down")).

Lemma w0_open : Open wio wopts ∅ = (w0.2, Ok w0.1).
Proof. vm_compute. reflexivity. Qed.

Lemma a0_logging : logging a0 0 [].
Proof.
  destruct (Open_fresh_clean (Env := EventEnvelope) wio wopts ∅ w0.2 w0.1) as (c & HC & Hf & Hq & Hl).
  - intros name _. apply lookup_empty.
  - exact w0_open.
  - exists w0.1, w0.2, [], c. split_and!; [|done..]. unfold a0, agg. cbn [wal]. by destruct w0.
Qed.

Lemma smooth_env io' agent s :
  io' = io → is_Some (demo_marshal (env s)) → all_bytes is_ascii7 agent = true → smooth (io', mkEv agent (env s)).
Proof. intros -> Hm Ha. split_and!; [by split|by split|done]. Qed.

Lemma up_smooth : smooth up.
Proof. apply smooth_env; [done|vm_compute; eauto|vm_compute; done]. Qed.
Lemma down_smooth : smooth down.
Proof. apply smooth_env; [done|vm_compute; eauto|vm_compute; done]. Qed.

(** A subscriber that resumes from the start while the second envelope arrives. *)
Definition rx : ReExportServer := NewReExportServer.
Definition req : SubscribeRequest := mkSubscribeRequest "down" [] (Some (mkCursor "agg" "" 0)) None.
Definition a1 : Aggregator := handle_all [up] (Subscribe_enter rx a0).1.
Definition a2 : Aggregator := handle_all [down] a1.
Definition w1 : WAL * FS := default w0 (wal a1).
Definition sub : liveSubscriber := default (mkSub 0 [] 0) (subs a2 !! (Subscribe_enter rx a0).2).
Definition got : list EventEnvelope :=
  (Subscribe rx req (λ _, true) (Some (w1.1, open_view w1.2 (λ _, false))) (sub_ch sub)).1.1.

Lemma a1_wal : wal a1 = Some (w1.1, w1.2).
Proof. vm_compute. reflexivity. Qed.
Lemma a2_sub : subs a2 !! (Subscribe_enter rx a0).2 = Some sub.
Proof. vm_compute. reflexivity. Qed.

(** A queue of depth two that is full. *)
Definition full : Aggregator := set_ch [mkEv "n1" (env "up"); mkEv "n1" (env "up")] (agg None).
Definition with_cursor : EventEnvelope := mkEnvelope (Some (mkCursor "n1" "intent" 7)) None "".
Definition store0 : fileCursorStore := mkStore ∅ false false false false.

Definition vip_reg : Registry :=
  Observe 1 (ClusterPeersSpec.Demo.lis "10.0.0.1:8080" "8080" "cart-1" false)
    (NewRegistry 30 None (Some (service_resolver
      (applySlices [DiscoverySpec.Demo.s1; DiscoverySpec.Demo.s2] [DiscoverySpec.Demo.s1; DiscoverySpec.Demo.s2]
         (applyServices [DiscoverySpec.Demo.svc] NewServiceIndex) None).1))).
End Demo.

Lemma log_and_broadcast_agree_witness :
  logging Demo.a0 0 [] ∧
  ∃ ext evs, logging (handle_all [Demo.up; Demo.down] Demo.a0) (0 + Z.of_nat (length ext)) ([] ++ ext) ∧
    live_of <$> omap to_entry ext = evs.
Proof.
  split; [exact Demo.a0_logging|].
  destruct (log_and_broadcast_agree [Demo.up; Demo.down] Demo.a0 0 []) as (ext & evs & _ & HL & Hl & _).
  - exact Demo.a0_logging.
  - vm_compute. reflexivity.
  - constructor; [exact Demo.up_smooth|constructor; [exact Demo.down_smooth|constructor]].
  - exists ext, evs. split; [exact HL|exact Hl].
Defined.

Lemma subscribe_exactly_once_witness :
  Demo.got = [stampCursor Demo.rx (Demo.env "up") 1 ""; stampCursor Demo.rx (Demo.env "down") 2 ""] ∧
  ∃ w2 fs2, wal Demo.a2 = Some (w2, fs2) ∧
    Demo.got = (λ e, stampCursor Demo.rx (Envelope e) (Seq e) "") <$>
      filter (λ e, passes "" None (Envelope e) = true) (above 0 (log fs2 (segments w2))).
Proof.
  split; [vm_compute; reflexivity|].
  apply (subscribe_exactly_once Demo.rx Demo.req (λ _, true) (mkCursor "agg" "" 0) Demo.a0 0 []
    [Demo.up] [Demo.down] Demo.w1.1 Demo.w1.2 Demo.sub).
  - reflexivity.
  - reflexivity.
  - cbn. lia.
  - cbn. lia.
  - exact Demo.a0_logging.
  - vm_compute. reflexivity.
  - cbn. lia.
  - constructor; [exact Demo.up_smooth|constructor; [exact Demo.down_smooth|constructor]].
  - exact Demo.a1_wal.
  - left. reflexivity.
  - exact Demo.a2_sub.
Defined.

Lemma unencodable_envelope_hides_next_witness :
  (live_tail Demo.rx "" None (λ _, true) [mkLive 1 "n1" (Demo.env "odd"); mkLive 1 "n1" (Demo.env "up")] ([], 0)).1.1 =
    [stampCursor Demo.rx (Demo.env "odd") 1 ""].
Proof.
  pose proof (unencodable_envelope_hides_next Demo.ok_io Demo.ok_io true (mkEv "n1" (Demo.env "odd"))
    (mkEv "n1" (Demo.env "up")) Demo.a0 0 [] Demo.rx "" (λ _, true)) as H. cbv zeta in H.
  destruct H as [_ H].
  - exact Demo.a0_logging.
  - reflexivity.
  - vm_compute. reflexivity.
  - repeat split.
  - vm_compute. reflexivity.
  - vm_compute. eexists. reflexivity.
  - vm_compute. reflexivity.
  - reflexivity.
  - reflexivity.
  - exact H.
Defined.

Lemma stream_loop_resumes_witness :
  r_Cursor <$> (streamLoop (mkAgent "n1" "n1:9000") "intent"
     [(DialErr, false); (Received [Demo.with_cursor], false); (SubscribeErr, true)] (Demo.agg None, Demo.store0)).2 =
    [None; Some (mkCursor "n1" "intent" 7)] ∧
  ch (streamLoop (mkAgent "n1" "n1:9000") "intent"
     [(DialErr, false); (Received [Demo.with_cursor], false); (SubscribeErr, true)] (Demo.agg None, Demo.store0)).1.1 =
    [mkEv "n1" Demo.with_cursor].
Proof.
  split; [vm_compute; reflexivity|].
  apply (stream_loop_resumes (S := fileCursorStore) (mkAgent "n1" "n1:9000") "intent"
    [(DialErr, false); (Received [Demo.with_cursor], false); (SubscribeErr, true)] (Demo.agg None, Demo.store0)).
  vm_compute. reflexivity.
Defined.

Lemma dropped_envelope_is_acknowledged_witness :
  r_Cursor (subscribe_request Demo.full (receive (mkAgent "n1" "n1:9000") "intent" Demo.with_cursor (Demo.full, Demo.store0)).2
     (mkAgent "n1" "n1:9000") "intent") = Some (mkCursor "n1" "intent" 7).
Proof.
  apply (dropped_envelope_is_acknowledged (mkAgent "n1" "n1:9000") "intent" Demo.with_cursor (mkCursor "n1" "intent" 7)
    Demo.full Demo.store0).
  - vm_compute. discriminate.
  - reflexivity.
  - reflexivity.
  - vm_compute. reflexivity.
Defined.

Lemma service_join_end_to_end_witness :
  ∃ l, Join Demo.vip_reg "10.96.0.9:80" 5 = Some (l, HowServiceVIP) ∧
    ∃ s l0, get_live Demo.vip_reg 5 s = Some l0 ∧ Process l = Process l0.
Proof.
  eexists. assert (HJ : Join Demo.vip_reg "10.96.0.9:80" 5 =
    Some (set_service (mkServiceRef "shop" "cart") false 0
      (set_expires 31 (ClusterPeersSpec.Demo.lis "10.0.0.1:8080" "8080" "cart-1" false)), HowServiceVIP))
    by (vm_compute; reflexivity).
  split; [exact HJ|].
  destruct (service_join_end_to_end [DiscoverySpec.Demo.svc] [DiscoverySpec.Demo.s1; DiscoverySpec.Demo.s2]
    NewServiceIndex None Demo.vip_reg "10.96.0.9:80" 5 _ eq_refl HJ) as (_ & s & l0 & Hs & Hp & _).
  exists s, l0. split; [exact Hs|exact Hp].
Defined.
