(* ===== verification/ResumeSpec.v ===== *)
(** * Consumers across a restart

    The re-export service of src/internal/aggregator/reexport.go over the log of
    src/internal/aggregator/envwal in two processes, one after the other, on the
    same directory: a consumer that comes back with the cursor of the last
    envelope it got misses nothing and gets nothing twice. *)
From Stdlib Require Import Ascii QArith.
From stdpp Require Import base numbers gmap strings sorting relations fin_maps list.
From S2P Require Import Prelude GoStr Json EnvWal EnvWalInv EnvWalLog EnvWalSpec Pb CursorStore ClusterPeers Aggregator AggregatorSpec ReExport System PipelineSpec.
Local Open Scope Z_scope.

Section resume.
Context `{!ProtoJSON EventEnvelope, !ProtoJSONOk EventEnvelope}.

(** The records above a cursor that a request asks for, as they are sent. *)
Definition wanted_above (r : ReExportServer) (req : SubscribeRequest) (from : Z) (l : list diskEntry) : list EventEnvelope :=
  (λ e, stampCursor r (Envelope e) (Seq e) (stream_of req)) <$>
    filter (λ e, passes (stream_of req) (Filter req) (Envelope e) = true) (above from l).

(** The cursor a consumer resumes with: that of the last envelope it got. *)
Definition resume_point (c : Cursor) (got : list EventEnvelope) : Cursor := default c (list.last got ≫= e_Cursor).

Definition resumed (req : SubscribeRequest) (c : Cursor) : SubscribeRequest :=
  mkSubscribeRequest (ConsumerId req) (Streams req) (Some c) (Filter req).

Lemma wanted_app r req from l1 l2 :
  wanted_above r req from (l1 ++ l2) = wanted_above r req from l1 ++ wanted_above r req from l2.
Proof. unfold wanted_above. by rewrite above_app, filter_app, fmap_app. Qed.

Lemma above_all from l : Forall (λ d, from < d_seq d) l → above from l = omap to_entry l.
Proof.
  intros Hl. unfold above. assert (filter (λ d, from < d_seq d) l = l) as ->; [|done].
  induction Hl; [done|]. rewrite filter_cons_True by done. by f_equal.
Qed.

Lemma above_none from l : Forall (λ d, d_seq d ≤ from) l → above from l = [].
Proof.
  intros Hl. unfold above. assert (filter (λ d, from < d_seq d) l = []) as ->; [|done].
  induction Hl; [done|]. rewrite filter_cons_False by lia. done.
Qed.

(** In a sorted log, nothing wanted lies above the last envelope sent: cut the log
    at the resume point. *)
Lemma resume_cut r req c l q :
  StronglySorted Z.lt (d_seq <$> l) → Forall (λ d, d_seq d ≤ q) l → CurSeq c ≤ q →
  let c' := resume_point c (wanted_above r req (CurSeq c) l) in
  wanted_above r req (CurSeq c') l = [] ∧ CurSeq c ≤ CurSeq c' ≤ q.
Proof.
  intros Hs Hle Hc. induction l as [|d l IH] using rev_ind; [split; [done|cbn; lia]|].
  rewrite fmap_app in Hs. apply Forall_app in Hle as [Hle Hd]. rewrite Forall_singleton in Hd.
  destruct IH as [IH1 IH2]; [by eapply StronglySorted_app_1_l|done|].
  assert (Hlt : Forall (λ d', d_seq d' < d_seq d) l).
  { apply Forall_forall. intros d' Hin. eapply (StronglySorted_app_1_elem_of Z.lt); [exact Hs|by apply list_elem_of_fmap_2|by left]. }
  assert (Hlast : wanted_above r req (CurSeq c) [d] = [] ∨
    ∃ e, wanted_above r req (CurSeq c) [d] = [stampCursor r (Envelope e) (d_seq d) (stream_of req)] ∧ CurSeq c < d_seq d).
  { unfold wanted_above, above. rewrite filter_cons. case_decide; [|by left].
    change (omap to_entry (d :: filter (λ d, CurSeq c < d_seq d) [])) with (match to_entry d with Some y => [y] | None => [] end).
    destruct (to_entry d) as [e|] eqn:E; [|by left]. rewrite filter_cons. case_decide; [|by left]. right. exists e. split; [|done]. cbn.
    unfold to_entry in E. by destruct (Unmarshal (EnvWal.d_envelope d)); [injection E as <-|]. }
  rewrite wanted_app. destruct Hlast as [Hn|(e & He & Hgt)].
  - rewrite Hn, app_nil_r. cbv zeta in *. set (c' := resume_point c _) in *. rewrite wanted_app, IH1. split; [|lia]. cbn [app].
    clearbody c'. unfold wanted_above in *. destruct (decide (CurSeq c' < d_seq d)) as [Hx|Hx].
    + rewrite (above_all (CurSeq c')) by (constructor; [lia|done]). by rewrite (above_all (CurSeq c)) in Hn by (constructor; [lia|done]).
    + by rewrite (above_none (CurSeq c')) by (constructor; [lia|done]).
  - rewrite He. unfold resume_point. rewrite last_snoc. cbn [default from_option mbind option_bind e_Cursor stampCursor CurSeq id].
    split; [|lia]. unfold wanted_above. rewrite above_none; [done|]. apply Forall_app. split; [|by constructor].
    eapply Forall_impl; [exact Hlt|]. cbn. lia.
Qed.

(** C3: a consumer loses nothing over a restart: when the process stops it has
    got the wanted records above its cursor; the log, which must hold a record, is
    opened again, and the consumer comes back with the cursor of the last envelope
    it got while the new process is already writing.  What it got before and gets
    now is, together, every wanted record above its first cursor, each once and in
    order, as long as what it asks for is retained, its channel does not overflow,
    it takes every send, numbers stay below 2^64, no write to the log has failed, and every envelope can be
    encoded and comes from an agent with an ASCII name. *)
Theorem exactly_once_across_restart r req send_ok c a w fs q l io o fs' w' cf res sv a' b1 b2 w1 fs1 s :
  logging a q l → wal a = Some (w, fs) → l ≠ [] → 0 ≤ CurSeq c ≤ q →
  open_ok io → Dir o ≠ "" → Open io o fs = (fs', Ok w') → New cf res sv (Some (w', fs')) = inl a' →
  let got := wanted_above r req (CurSeq c) l in
  let c' := resume_point c got in
  let req' := resumed req c' in
  (∀ n, send_ok n = true) → 0 < SubscriberBuffer r →
  q + 2 * Z.of_nat (length b1 + length b2) < u64_max - 2 →
  Z.of_nat (2 * (length b1 + length b2)) ≤ SubscriberBuffer r → Forall smooth (b1 ++ b2) →
  let a1 := handle_all b1 (Subscribe_enter r a').1 in
  let a2 := handle_all b2 a1 in
  wal a1 = Some (w1, fs1) → (CurSeq c' = 0 ∨ oldest w1 ≤ CurSeq c' + 1) →
  subs a2 !! (Subscribe_enter r a').2 = Some s →
  ∃ w2 fs2, wal a2 = Some (w2, fs2) ∧
    got ++ (Subscribe r req' send_ok (Some (w1, open_view fs1 (λ _, false))) (sub_ch s)).1.1 =
      wanted_above r req (CurSeq c) (log fs2 (segments w2)).
Proof.
  intros HL Hw Hne Hc Hio Hdir HO HN got c' req' Hsend Hbuf Hlt Hcap Hall a1 a2 Hw1 Hold Hs.
  destruct (logging_inv _ _ _ HL) as (Hsort & Hle & Hq).
  destruct (resume_cut r req c l q Hsort Hle ltac:(lia)) as [Hcut Hrange]. fold got c' in Hcut, Hrange.
  destruct HL as (w0 & fs0 & old & cs & Hw0 & HC & Hf & Hq0 & Hl). rewrite Hw in Hw0. injection Hw0 as <- <-.
  destruct (Open_clean io o w fs old cs HC ltac:(by rewrite Hl) Hio Hdir) as (fs2 & w2 & old2 & c2 & HO' & HC' & Hf' & _ & Hq' & Hl').
  rewrite HO in HO'. injection HO' as <- <-.
  assert (HL' : logging a' q l).
  { exists w', fs', old2, c2. split_and!; [|done|done|congruence|congruence]. revert HN. unfold New. repeat case_match; by intros [= <-]. }
  destruct (subscribe_once r req' send_ok c' a' q l b1 b2 w1 fs1 s Hsend eq_refl ltac:(lia) Hbuf HL' Hlt Hcap Hall Hw1 Hold Hs)
    as (w3 & fs3 & ext & Hw3 & Hlog & Hext & Hout).
  exists w3, fs3. split; [done|]. rewrite Hout, Hlog. fold (wanted_above r req (CurSeq c') (l ++ ext)).
  change (got ++ wanted_above r req (CurSeq c') (l ++ ext) = wanted_above r req (CurSeq c) (l ++ ext)).
  rewrite !wanted_app, Hcut. cbn [app]. f_equal. unfold wanted_above.
  rewrite !above_all; [done|..]; (eapply Forall_impl; [exact Hext|]; cbn; lia).
Qed.
End resume.

(** ** Witness *)

Module ResumeDemo.
Import PipelineSpec.Demo.
(** Two records, a restart, and two more around the new subscription. *)
Definition a : Aggregator := handle_all [up; down] a0.
Definition wA : WAL * FS := default w0 (wal a).
Definition wB : WAL * FS := match Open wio wopts wA.2 with (fs, Ok w) => (w, fs) | _ => w0 end.
Definition a' : Aggregator := match New conf None None (Some wB) with inl a' => a' | inr _ => a end.
Definition b1 : Aggregator := handle_all [up] (Subscribe_enter rx a').1.
Definition b2 : Aggregator := handle_all [down] b1.
Definition wC : WAL * FS := default w0 (wal b1).
Definition s : liveSubscriber := default (mkSub 0 [] 0) (subs b2 !! (Subscribe_enter rx a').2).
Definition first : Cursor := mkCursor "agg" "" 0.
Definition got : list EventEnvelope := wanted_above rx req (CurSeq first) (log wA.2 (segments wA.1)).
Definition point : Cursor := resume_point first got.

Lemma a_logging : logging a 2 (log wA.2 (segments wA.1)).
Proof.
  destruct (handle_all_logs [up; down] a0 0 []) as (ext & evs & _ & HL & _ & _).
  - exact a0_logging.
  - vm_compute. reflexivity.
  - constructor; [exact up_smooth|constructor; [exact down_smooth|constructor]].
  - destruct HL as (w & fs & old & c & Hw & HC & Hf & Hq & Hl). fold a in Hw.
    assert (HA : wA = (w, fs)) by (unfold wA; rewrite Hw; reflexivity).
    assert (HQ : seq wA.1 = 2) by (vm_compute; reflexivity). rewrite HA in HQ |- *. cbn [fst snd] in *. clear HA.
    exists w, fs, old, c. repeat (split; [assumption|]). reflexivity.
Qed.
End ResumeDemo.

Lemma exactly_once_across_restart_witness :
  CurSeq ResumeDemo.point = 2 ∧
  ∃ w2 fs2, wal ResumeDemo.b2 = Some (w2, fs2) ∧
    ResumeDemo.got ++
    (Subscribe PipelineSpec.Demo.rx (resumed PipelineSpec.Demo.req ResumeDemo.point) (λ _, true)
      (Some (ResumeDemo.wC.1, open_view ResumeDemo.wC.2 (λ _, false))) (sub_ch ResumeDemo.s)).1.1 =
    wanted_above PipelineSpec.Demo.rx PipelineSpec.Demo.req (CurSeq ResumeDemo.first) (log fs2 (segments w2)).
Proof.
  split; [vm_compute; reflexivity|].
  apply (exactly_once_across_restart PipelineSpec.Demo.rx PipelineSpec.Demo.req (λ _, true) ResumeDemo.first ResumeDemo.a
    ResumeDemo.wA.1 ResumeDemo.wA.2 2 (log ResumeDemo.wA.2 (segments ResumeDemo.wA.1)) PipelineSpec.Demo.wio PipelineSpec.Demo.wopts
    ResumeDemo.wB.2 ResumeDemo.wB.1 PipelineSpec.Demo.conf None None ResumeDemo.a' [PipelineSpec.Demo.up] [PipelineSpec.Demo.down]
    ResumeDemo.wC.1 ResumeDemo.wC.2 ResumeDemo.s).
  - exact ResumeDemo.a_logging.
  - vm_compute. reflexivity.
  - vm_compute. discriminate.
  - cbn. lia.
  - repeat split.
  - discriminate.
  - vm_compute. reflexivity.
  - vm_compute. reflexivity.
  - reflexivity.
  - cbn. lia.
  - vm_compute. reflexivity.
  - cbn. lia.
  - constructor; [exact PipelineSpec.Demo.up_smooth|constructor; [exact PipelineSpec.Demo.down_smooth|constructor]].
  - vm_compute. reflexivity.
  - right. vm_compute. discriminate.
  - vm_compute. reflexivity.
Defined.
