(* ===== verification/EdgeSpec.v ===== *)
(** * Where peer edges come from

    The cross-node hook of src/internal/aggregator/aggregator.go inside the
    running system: advertises and withdraws reach the registry through the
    writer, sweeps and statistics reclaim entries concurrently, and the watchers
    of src/internal/aggregator/discovery swap the indexes under the registry.
    Every edge the writer emits is traced back to the advertise that backs it. *)
From Stdlib Require Import Ascii QArith.
From stdpp Require Import base numbers gmap strings relations fin_maps list.
From S2P Require Import Prelude GoStr Json EnvWal Pb CursorStore ClusterPeers ClusterPeersSpec Aggregator AggregatorSpec ReExport System.
Local Open Scope Z_scope.

(** ** The registry's side of an envelope *)

Definition reg_event (te : Z * EventEnvelope) : option (Z * event) :=
  match GetIntent te.2 with
  | None => None
  | Some i =>
      if bool_decide (Kind i = KindListenerAdvertise)
      then (λ l, (te.1, EObserve l)) <$> ListenerFromAdvertise (Some i)
      else if bool_decide (Kind i = KindListenerWithdraw)
      then (λ l, (te.1, ERemove l)) <$> ListenerFromWithdraw (Some i)
      else None
  end.

Definition reg_events (tr : list (Z * EventEnvelope)) : list (Z * event) := omap reg_event tr.

Definition not_sweep (te : Z * event) : Prop := te.2 ≠ ESweep.
Global Instance not_sweep_dec te : Decision (not_sweep te).
Proof. unfold not_sweep. destruct te.2; [left|left|right]; naive_solver. Defined.

(** The slot an event speaks about. *)
Definition event_slot (e : event) : option slot :=
  match e with EObserve l | ERemove l => slot_of l | ESweep => None end.

Lemma last_word_sweeps T tr s : last_word T (filter not_sweep tr) s = last_word T tr s.
Proof.
  unfold last_word. induction tr as [|[t e] tr IH] using rev_ind; [done|].
  rewrite filter_app, !foldl_app, IH. destruct e; [by rewrite filter_cons_True..|]. rewrite filter_cons_False; [done|].
  by intros Hs.
Qed.

(** The last word is an advertise that nothing later contradicts. *)
Lemma last_word_split T tr s l :
  last_word T tr s = Some l →
  ∃ tr1 t l0 tr2, tr = tr1 ++ (t, EObserve l0) :: tr2 ∧ slot_of l0 = Some s ∧ l = set_expires (t + T) l0 ∧
    Forall (λ te, event_slot te.2 ≠ Some s) tr2.
Proof.
  induction tr as [|[t e] tr IH] using rev_ind; [done|]. unfold last_word at 1. rewrite foldl_app. cbn [foldl snd fst].
  fold (last_word T tr s). intros Hl.
  assert (Hkeep : event_slot e ≠ Some s → last_word T tr s = Some l →
    ∃ tr1 t' l0 tr2, tr ++ [(t, e)] = tr1 ++ (t', EObserve l0) :: tr2 ∧ slot_of l0 = Some s ∧ l = set_expires (t' + T) l0 ∧
      Forall (λ te, event_slot te.2 ≠ Some s) tr2).
  { intros He (tr1 & t' & l0 & tr2 & -> & H1 & H2 & H3)%IH. exists tr1, t', l0, (tr2 ++ [(t, e)]).
    rewrite <-(assoc_L (++)). split_and!; try done. apply Forall_app. by split; [|constructor]. }
  destruct e as [l0|l0|]; [case_decide as Hs..|]; [|by apply Hkeep|done|by apply Hkeep|by apply Hkeep].
  injection Hl as <-. by exists tr, t, l0, [].
Qed.

Lemma omap_split {A B} (g : A → option B) l l1 y l2 :
  omap g l = l1 ++ y :: l2 → ∃ k1 x k2, l = k1 ++ x :: k2 ∧ g x = Some y ∧ omap g k1 = l1 ∧ omap g k2 = l2.
Proof.
  revert l1. induction l as [|x l IH]; intros l1 H; cbn in H; [by destruct l1|].
  destruct (g x) as [z|] eqn:E.
  - destruct l1 as [|z' l1]; injection H as -> H.
    + by exists [], x, l.
    + destruct (IH _ H) as (k1 & x' & k2 & -> & H1 & H2 & H3). exists (x :: k1), x', k2.
      split_and!; try done. cbn. by rewrite E, H2.
  - destruct (IH _ H) as (k1 & x' & k2 & -> & H1 & H2 & H3). exists (x :: k1), x', k2.
    split_and!; try done. cbn. by rewrite E.
Qed.

(** ** Swapping the indexes under a registry *)

Lemma reindex_step er sr r te : reindex er sr (step r te) = step (reindex er sr r) te.
Proof.
  destruct te as [t [l|l|]]; cbn; unfold Observe, Remove, Sweep, Stats, reindex, set_maps, wild_at; cbn; [..|done];
    repeat (case_bool_decide || case_match); done.
Qed.

Lemma reindex_run er sr r tr : reindex er sr (run r tr) = run (reindex er sr r) tr.
Proof.
  revert r. induction tr as [|te tr IH]; intros r; [done|].
  change (run r (te :: tr)) with (run (step r te) tr). rewrite IH, reindex_step. done.
Qed.

(** ** Runs with a clock *)

Section edges.
Context `{!ProtoJSON EventEnvelope} {S : Type} `{!CursorStore S}.

(** A run from a fresh aggregator, with the time of the last look at the clock and
    the envelopes the writer took, each with the time it was handled at. *)
Inductive timed (c : Config) : Z → list (Z * EventEnvelope) → sys (S := S) → Prop :=
| t_start now res sv w a store : New c res sv w = inl a → timed c now [] (start a store)
| t_write now tr s io ev rest : timed c now tr s → ch (s_agg s) = ev :: rest → now ≤ wi_now io →
    timed c (wi_now io) (tr ++ [(wi_now io, ev_Envelope ev)]) (do_write io ev s)
| t_sweep now tr s now' : timed c now tr s → now ≤ now' →
    timed c now' tr (on_agg (λ a, set_registry (Sweep now' (registry a)) a) s)
| t_stats now tr s now' len nsvc : timed c now tr s → now ≤ now' →
    timed c now' tr (on_agg (λ a, (agg_Stats now' len nsvc a).1) s)
| t_index now tr s er sr : timed c now tr s →
    timed c now tr (on_agg (λ a, set_registry (reindex er sr (registry a)) a) s)
| t_other now tr s s' : timed c now tr s → sys_step s s' → registry (s_agg s') = registry (s_agg s) →
    (taken (s_hist s') = taken (s_hist s)) → timed c now tr s'.

(** The edge the writer adds right after an envelope. *)
Definition edge_for (io : write_io) (ev : envelopeWithAgent) (a : Aggregator) : option IntentEvent :=
  (joinPeer (wi_now io) (ev_Envelope ev) (emitEnvelope (wi_log io) (wi_out io) ev a)).2.

(** The registry is what the envelopes and some sweeps make of it, under the
    indexes of the moment. *)
Definition traced (c : Config) (now : Z) (tr : list (Z * EventEnvelope)) (r : Registry) : Prop :=
  ∃ res sv rtr, r = run (NewRegistry (AdvertiseTTL c) res sv) rtr ∧ filter not_sweep rtr = reg_events tr ∧
    Forall (λ te, te.1 ≤ now) rtr.

Lemma traced_event c now tr r te :
  traced c now tr r → now ≤ te.1 → not_sweep te →
  ∀ tr', reg_events tr' = reg_events tr ++ [te] → traced c te.1 tr' (step r te).
Proof.
  intros (res & sv & rtr & -> & Hf & Hle) Hn Hs tr' Htr. exists res, sv, (rtr ++ [te]). split_and!.
  - unfold run. by rewrite foldl_app.
  - rewrite filter_app, Hf, Htr. f_equal. by rewrite filter_cons_True.
  - apply Forall_app. split; [eapply Forall_impl; [exact Hle|]; cbn; lia|by constructor].
Qed.

Lemma traced_later c now now' tr tr' r :
  traced c now tr r → now ≤ now' → reg_events tr' = reg_events tr → traced c now' tr' r.
Proof.
  intros (res & sv & rtr & -> & Hf & Hle) Hn Htr. exists res, sv, rtr. split_and!; [done|congruence|].
  eapply Forall_impl; [exact Hle|]. cbn. lia.
Qed.

Lemma traced_sweep c now now' tr r : traced c now tr r → now ≤ now' → traced c now' tr (Sweep now' r).
Proof.
  intros (res & sv & rtr & -> & Hf & Hle) Hn. exists res, sv, (rtr ++ [(now', ESweep)]). split_and!.
  - unfold run. by rewrite foldl_app.
  - rewrite filter_app, Hf. by rewrite app_nil_r.
  - apply Forall_app. split; [eapply Forall_impl; [exact Hle|]; cbn; lia|constructor; [cbn; lia|done]].
Qed.

Lemma traced_index c now tr r er sr : traced c now tr r → traced c now tr (reindex er sr r).
Proof.
  intros (res & sv & rtr & -> & Hf & Hle). exists ((λ _, er) <$> res), ((λ _, sr) <$> sv), rtr.
  by rewrite reindex_run.
Qed.

(** What the writer does to the registry for one envelope. *)
Lemma handle_registry io ev a :
  registry (handle io ev a) =
    match reg_event (wi_now io, ev_Envelope ev) with Some te => step (registry a) te | None => registry a end.
Proof.
  unfold handle, foldAdvertise, foldWithdraw, reg_event. cbn [snd fst].
  assert (Hdata : registry (match joinPeer (wi_now io) (ev_Envelope ev) (emitEnvelope (wi_log io) (wi_out io) ev a) with
    | (a4, None) => a4
    | (a4, Some edge) => emitEnvelope (wi_edge_log io) (wi_edge_out io) (mkEv (ev_Agent ev) (edge_envelope edge)) a4 end) = registry a).
  { destruct (emit_wal (wi_log io) (wi_out io) ev a) as (_ & _ & <-). set (a3 := emitEnvelope _ _ _ a).
    assert (Hj : registry (joinPeer (wi_now io) (ev_Envelope ev) a3).1 = registry a3).
    { unfold joinPeer. repeat (case_match || case_bool_decide); done. }
    destruct (joinPeer _ _ a3) as [a4 [edge|]]; [|done]. cbn in Hj. rewrite <-Hj.
    by destruct (emit_wal (wi_edge_log io) (wi_edge_out io) (mkEv (ev_Agent ev) (edge_envelope edge)) a4) as (_ & _ & ->). }
  destruct (GetIntent (ev_Envelope ev)) as [i|] eqn:Hi; [|done].
  destruct (decide (Kind i = KindListenerAdvertise)) as [Ha|Ha].
  - rewrite (bool_decide_eq_false_2 (Kind i ≠ _)), (bool_decide_eq_true_2 (Kind i = _)) by auto.
    by destruct (ListenerFromAdvertise _).
  - rewrite (bool_decide_eq_true_2 (Kind i ≠ KindListenerAdvertise)), (bool_decide_eq_false_2 (Kind i = KindListenerAdvertise)) by auto.
    destruct (decide (Kind i = KindListenerWithdraw)) as [Hw|Hw].
    + rewrite (bool_decide_eq_false_2 (Kind i ≠ _)), (bool_decide_eq_true_2 (Kind i = _)) by auto.
      by destruct (ListenerFromWithdraw _).
    + rewrite (bool_decide_eq_true_2 (Kind i ≠ _)), (bool_decide_eq_false_2 (Kind i = _)) by auto. done.
Qed.

Lemma reg_event_shape te x : reg_event te = Some x → x.1 = te.1 ∧ not_sweep x.
Proof.
  unfold reg_event, not_sweep. destruct (GetIntent te.2) as [i|]; [|done].
  repeat case_bool_decide; intros Hx; [| |done]; apply fmap_Some in Hx as (l & _ & ->); done.
Qed.

Lemma timed_traced c now tr s : timed c now tr s → traced c now tr (registry (s_agg s)).
Proof.
  induction 1 as [now res sv w a store HN|now tr s io ev rest _ IH Hch Hn|now tr s now' _ IH Hn
    |now tr s now' len nsvc _ IH Hn|now tr s er sr _ IH|now tr s s' _ IH _ Hr _].
  - exists res, sv, []. split_and!; try done. revert HN. unfold New. repeat case_match; by intros [= <-].
  - unfold do_write, write_step. cbn. rewrite Hch, handle_registry. cbn [registry set_ch].
    assert (Htr : reg_events (tr ++ [(wi_now io, ev_Envelope ev)]) =
      reg_events tr ++ option_list (reg_event (wi_now io, ev_Envelope ev))).
    { unfold reg_events. rewrite omap_app. f_equal. }
    destruct (reg_event (wi_now io, ev_Envelope ev)) as [te|] eqn:E.
    + apply reg_event_shape in E as [Ht Hs]. destruct te as [t e]. cbn in Ht. subst t.
      exact (traced_event c now tr _ (wi_now io, e) IH Hn Hs _ Htr).
    + eapply traced_later; [exact IH|done|]. by rewrite Htr, app_nil_r.
  - by eapply traced_sweep.
  - exact (traced_sweep c now now' tr _ IH Hn).
  - by apply traced_index.
  - by rewrite Hr.
Qed.

Lemma traced_live c now tr r now' s :
  traced c now tr r → now ≤ now' → get_live r now' s = if_live now' (last_word (ttl r) (reg_events tr) s).
Proof.
  intros (res & sv & rtr & -> & Hf & Hle) Hn. destruct (run_params (NewRegistry (AdvertiseTTL c) res sv) rtr) as (-> & _).
  rewrite <-Hf, last_word_sweeps. apply run_refines; [apply get_new|]. eapply Forall_impl; [exact Hle|]. cbn. lia.
Qed.

(** The identity a peer edge carries. *)
Definition edge_peer (e : IntentEvent) : list (option string) :=
  (λ k, Attributes e !! k) <$>
    ["peer_pid"; "peer_process"; "peer_pod"; "peer_namespace"; "peer_container"; "peer_image"; "peer_node"].

(** The identity an advertise carries. *)
Definition advertised_peer (i : IntentEvent) : list (option string) :=
  let m := Meta i in
  Some <$> [attr "pid" (Attributes i); attr "process" (Attributes i); GetPod m; GetNamespace m; GetContainer m; GetImage m; GetNodeName m].

Lemma PeerEdge_peer i l how node :
  edge_peer (PeerEdge i l how node) = Some <$> [PID l; Process l; l_Pod l; l_Namespace l; l_Container l; l_Image l; l_NodeName l].
Proof.
  unfold edge_peer, PeerEdge. cbn [Attributes]. set (m := list_to_map _ : gmap string string).
  destruct (bool_decide (ServiceRef_String (Service l) ≠ "")), (ReplicaAmbiguous l); cbn [fmap list_fmap];
    rewrite ?lookup_insert_ne by discriminate; reflexivity.
Qed.

(** An edge is backed by the envelopes taken so far: its peer is the one a listener
    advertise named, less than [T] ago, and nothing taken since was filed in the
    slot of that listener. *)
Definition backed (tr : list (Z * EventEnvelope)) (now T : Z) (sl : slot) (edge : IntentEvent) : Prop :=
  ∃ tr1 t env i tr2, tr = tr1 ++ (t, env) :: tr2 ∧ GetIntent env = Some i ∧ Kind i = KindListenerAdvertise ∧
    t ≤ now < t + T ∧ edge_peer edge = advertised_peer i ∧
    (slot_of <$> ListenerFromAdvertise (Some i)) = Some (Some sl) ∧
    Forall (λ te, event_slot te.2 ≠ Some sl) (reg_events tr2).

Lemma live_backed c now tr r now' sl l1 l how src node :
  traced c now tr r → now ≤ now' → get_live r now' sl = Some l1 → marked how l1 l →
  backed tr now' (ttl r) sl (PeerEdge src l how node).
Proof.
  intros HR Hn Hl Hm. rewrite (traced_live _ _ _ _ _ _ HR Hn) in Hl.
  destruct (last_word _ (reg_events tr) sl) as [l2|] eqn:E; [|done].
  destruct (last_word_split _ _ _ _ E) as (e1 & t & l0 & e2 & Hsp & Hsl & -> & Hrest).
  apply omap_split in Hsp as (tr1 & [t' env] & tr2 & -> & Hx & _ & <-).
  cbn in Hl. unfold live in Hl. case_bool_decide as Hlt; [|done]. injection Hl as <-. cbn in Hlt.
  unfold reg_event in Hx. cbn [fst snd] in Hx. destruct (GetIntent env) as [i|] eqn:Hi; [|done].
  case_bool_decide as Hk; [|case_bool_decide; [|done]; by destruct (ListenerFromWithdraw _)].
  destruct (ListenerFromAdvertise (Some i)) as [l0'|] eqn:HL; [|done]. injection Hx as -> ->.
  exists tr1, t, env, i, tr2. split_and!; try done.
  - destruct HR as (res & sv & rtr & _ & Hf & Hle). assert (Hin : (t, EObserve l0) ∈ filter not_sweep rtr).
    { rewrite Hf. unfold reg_events. rewrite omap_app. cbn. unfold reg_event. cbn [fst snd]. rewrite Hi, bool_decide_eq_true_2, HL by done.
      set_solver. }
    apply list_elem_of_filter in Hin as [_ Hin]. rewrite Forall_forall in Hle. specialize (Hle _ Hin). cbn in Hle. lia.
  - rewrite PeerEdge_peer. unfold advertised_peer. unfold ListenerFromAdvertise in HL.
    rewrite bool_decide_eq_false_2 in HL by auto. case_bool_decide; [done|]. injection HL as <-.
    by destruct Hm as [->|(_ & s' & amb & n & ->)].
  - rewrite HL. exact (f_equal Some Hsl).
Qed.

(** The edge of an envelope is that of the join the registry answers then. *)
Lemma edge_for_join io ev rest (s : sys (S := S)) edge :
  edge_for io ev (set_ch rest (s_agg s)) = Some edge →
  ∃ src l how node, GetIntent (ev_Envelope ev) = Some src ∧
    Join (registry (s_agg s)) (attr AttrPeer (Attributes src)) (wi_now io) = Some (l, how) ∧ edge = PeerEdge src l how node.
Proof.
  unfold edge_for, joinPeer. intros He.
  destruct (emit_wal (wi_log io) (wi_out io) ev (set_ch rest (s_agg s))) as (_ & _ & Hreg). rewrite Hreg in He. cbn [registry set_ch] in He.
  destruct (GetIntent (ev_Envelope ev)) as [src|]; [|done]. do 3 (case_bool_decide; [done|]).
  destruct (Join _ _ _) as [[l how]|] eqn:HJ; [|done]. injection He as <-. by eexists src, l, how, _.
Qed.

(** C15: every peer edge the writer emits, in any interleaving with receivers,
    sweeps, statistics and index updates, names the peer of a listener advertise
    the writer took less than the TTL ago, field by field, with nothing the
    writer took since then filed under the same listener, neither a newer
    advertise nor a withdraw. *)
Theorem edge_traces_to_advertise c now tr (s : sys (S := S)) io ev rest edge :
  timed c now tr s → ch (s_agg s) = ev :: rest → now ≤ wi_now io →
  edge_for io ev (set_ch rest (s_agg s)) = Some edge →
  ∃ sl, backed tr (wi_now io) (ttl (registry (s_agg s))) sl edge.
Proof.
  intros HT Hch Hn He. apply edge_for_join in He as (src & l & how & node & _ & HJ & ->).
  destruct (Join_sound _ _ _ _ _ HJ) as (sl & l1 & Hl & Hm). exists sl.
  eapply live_backed; [by apply timed_traced|done|done|done].
Qed.
End edges.

(** ** Witness *)

Module EdgeDemo.
Import System.Demo.
(** An advertise at time 10, an exchange with that address at time 20. *)
Definition adv : EventEnvelope :=
  mkEnvelope None (Some (EventEnvelope_Intent (mkIntent KindListenerAdvertise
    {["addr" := "10.0.0.1:8080"; "pid" := "42"; "process" := "cartd"]}
    (Some (mkMeta "n1" "shop" "cart-1" "c" "id" "img" "")) [] 0 1%Q ""))) "".
Definition exch : EventEnvelope :=
  mkEnvelope None (Some (EventEnvelope_Intent (mkIntent KindNetworkExchange
    {["peer" := "10.0.0.1:8080"]} (Some (mkMeta "n2" "shop" "web-1" "c" "id" "img" "")) [] 0 1%Q ""))) "".
Definition big : Config := mkConfig [ep] true [] "" 0 8 false 0.
Definition a0 : Aggregator := mkAgg (config_defaults big) [] zero_counters 0 ∅ 0 (NewRegistry 0 None None) None [].
Definition at_ (t : Z) : write_io := mkWriteIO t ok_io true ok_io true.
Definition q0 : sys (S := nullStore) := start a0 NullCursorStore.
Definition q1 : sys := do_receive ep "intent" exch (do_receive ep "intent" adv q0).
Definition q2 : sys := do_write (at_ 10) (mkEv "n1" adv) q1.

Lemma q2_timed : timed big 10 [(10, adv)] q2.
Proof.
  apply (t_write big 0 [] q1 (at_ 10) (mkEv "n1" adv) [mkEv "n1" exch]); [|reflexivity|discriminate].
  apply (t_other big 0 [] (do_receive ep "intent" adv q0)); [|apply step_receive|reflexivity|reflexivity].
  apply (t_other big 0 [] q0); [|apply step_receive|reflexivity|reflexivity].
  by apply (t_start big 0 None None None).
Qed.
End EdgeDemo.

Lemma edge_traces_to_advertise_witness :
  ∃ edge, edge_for (EdgeDemo.at_ 20) (mkEv "n1" EdgeDemo.exch) (set_ch [] (s_agg EdgeDemo.q2)) = Some edge ∧
    ∃ t env, (t, env) ∈ [(10, EdgeDemo.adv)] ∧ t ≤ 20 < t + 30 * 10 ^ 9.
Proof.
  destruct (edge_for (EdgeDemo.at_ 20) (mkEv "n1" EdgeDemo.exch) (set_ch [] (s_agg EdgeDemo.q2))) as [edge|] eqn:E;
    [|exfalso; vm_compute in E; discriminate E].
  exists edge. split; [reflexivity|].
  destruct (edge_traces_to_advertise EdgeDemo.big 10 [(10, EdgeDemo.adv)] EdgeDemo.q2 (EdgeDemo.at_ 20)
    (mkEv "n1" EdgeDemo.exch) [] edge) as (sl & tr1 & t & env & i & tr2 & Htr & _ & _ & Ht & _).
  - exact EdgeDemo.q2_timed.
  - reflexivity.
  - discriminate.
  - exact E.
  - exists t, env. split; [rewrite Htr; set_solver|]. exact Ht.
Defined.
