(* ===== verification/Run.v ===== *)
(** * Starting and stopping

    Model of [Aggregator.Run] of src/internal/aggregator/aggregator.go with the
    goroutines it starts: the main goroutine (seeding, reconciling, then the
    shutdown sequence over the two wait groups), the writer, and one goroutine
    per endpoint run and stream.  Go sends on a closed channel panic and a wait
    group that never drains hangs, so the order of the shutdown is what matters:
    a state machine, its invariant by rule induction, and termination. *)
From stdpp Require Import base numbers gmap strings relations fin_maps list.
From S2P Require Import Prelude GoStr Json EnvWal Pb CursorStore ClusterPeers Aggregator Fleet AggregatorSpec ReExport System.
Local Open Scope nat_scope.

(** ** Model *)

(** Where a stream goroutine is: at the head of the loop of [streamLoop], inside
    [subscribeOnce], or waiting for the backoff. *)
Inductive gpc := GLoop | GSession | GBackoff.
Global Instance gpc_eq_dec : EqDecision gpc.
Proof. solve_decision. Defined.

Record goroutine := mkG { g_ep : AgentEndpoint; g_stream : string; g_run : nat; g_pc : gpc }.

Definition at_pc (pc : gpc) (g : goroutine) : goroutine := mkG (g_ep g) (g_stream g) (g_run g) pc.

(** Where [Run] is: seeding what is left of the static list, in [reconcileLoop],
    waiting for the context alone, waiting for the stream goroutines, having
    closed the queue, returned. *)
Inductive main_pc := MSeed (l : list AgentEndpoint) | MReconcile | MWaitCtx | MJoin | MClosed | MReturned.

Definition queue_closed (m : main_pc) : bool := match m with MClosed | MReturned => true | _ => false end.

(** The goroutines [startEndpoint] starts for a run. *)
Definition spawn (streams : list string) (ep : AgentEndpoint) (run : nat) : list goroutine :=
  (λ s, mkG ep s run GLoop) <$> streams.

(** Those of the runs numbered from [n] on that a reconcile started. *)
Definition spawn_new (streams : list string) (n : nat) (fl : fleet) : list goroutine :=
  List.seq n (next_run fl - n) ≫= λ r, match runs fl !! r with Some ep => spawn streams ep r | None => [] end.

Section run.
Context `{!ProtoJSON EventEnvelope} {S : Type} `{!CursorStore S}.
(** The store's [Flush], and what its own goroutine does meanwhile. *)
Context (flush : S → S) (background : S → S → Prop).

Record rstate := mkR {
  r_sys : sys (S := S);
  r_fleet : fleet;
  r_gos : list goroutine;
  r_main : main_pc;
  r_done : bool;
  r_writer_done : bool;
}.

Definition streams (st : rstate) : list string := c_Streams (cfg (s_agg (r_sys st))).
Definition queue (st : rstate) : list envelopeWithAgent := ch (s_agg (r_sys st)).

Definition with_sys (s : sys) (st : rstate) : rstate :=
  mkR s (r_fleet st) (r_gos st) (r_main st) (r_done st) (r_writer_done st).
Definition with_gos (gs : list goroutine) (st : rstate) : rstate :=
  mkR (r_sys st) (r_fleet st) gs (r_main st) (r_done st) (r_writer_done st).
Definition with_main (m : main_pc) (st : rstate) : rstate :=
  mkR (r_sys st) (r_fleet st) (r_gos st) m (r_done st) (r_writer_done st).

(** The context of a goroutine is cancelled with the root context or with its
    run. *)
Definition g_done (st : rstate) (g : goroutine) : bool :=
  r_done st || bool_decide (runs (r_fleet st) !! g_run g = None).

Definition do_seed (ep : AgentEndpoint) (l : list AgentEndpoint) (st : rstate) : rstate :=
  mkR (r_sys st) (startEndpoint ep (r_fleet st)) (r_gos st ++ spawn (streams st) ep (next_run (r_fleet st)))
    (MSeed l) (r_done st) (r_writer_done st).

Definition do_reconcile (v : visit) (eps : list AgentEndpoint) (st : rstate) : rstate :=
  let fl := reconcileFleet v eps (r_fleet st) in
  mkR (r_sys st) fl (r_gos st ++ spawn_new (streams st) (next_run (r_fleet st)) fl)
    (r_main st) (r_done st) (r_writer_done st).

Definition cancelled (st : rstate) : rstate :=
  mkR (r_sys st) (r_fleet st) (r_gos st) (r_main st) true (r_writer_done st).
Definition with_store (store : S) (st : rstate) : rstate :=
  with_sys (mkSys (s_agg (r_sys st)) store (s_hist (r_sys st))) st.

(** What arrives from outside: the cancellation, an emission of the discovery
    channel, an envelope of an agent, and what the other goroutines do with the
    shared aggregator and the store. *)
Inductive input_step : rstate → rstate → Prop :=
| in_cancel st : input_step st (cancelled st)
| in_emission v eps st : visit_ok v → r_main st = MReconcile → input_step st (do_reconcile v eps st)
| in_discovery_closed st : r_main st = MReconcile → input_step st (with_main MWaitCtx st)
| in_receive l1 g l2 env st : r_gos st = l1 ++ g :: l2 → g_pc g = GSession →
    input_step st (with_sys (do_receive (g_ep g) (g_stream g) env (r_sys st)) st)
| in_stats now len nsvc st : input_step st (with_sys (on_agg (λ a, (agg_Stats now len nsvc a).1) (r_sys st)) st)
| in_sweep now st : input_step st (with_sys (on_agg (λ a, set_registry (Sweep now (registry a)) a) (r_sys st)) st)
| in_gc rm_ok now w fs st : wal (s_agg (r_sys st)) = Some (w, fs) →
    input_step st (with_sys (on_agg (set_wal (Some (GC rm_ok now w fs))) (r_sys st)) st)
| in_index er sr st :
    input_step st (with_sys (on_agg (λ a, set_registry (reindex er sr (registry a)) a) (r_sys st)) st)
| in_store store st : background (s_store (r_sys st)) store → input_step st (with_store store st).

(** What the downstream consumers do. *)
Inductive client_step : rstate → rstate → Prop :=
| cl_subscribe r st : client_step st (with_sys (on_agg (λ a, (Subscribe_enter r a).1) (r_sys st)) st)
| cl_consume id st : client_step st (with_sys (on_agg (consume id) (r_sys st)) st)
| cl_unsubscribe id st : client_step st (with_sys (on_agg (unregisterSubscriber id) (r_sys st)) st).

(** What the goroutines of [Run] do by themselves. *)
Inductive own_step : rstate → rstate → Prop :=
| own_seed ep l st : r_main st = MSeed (ep :: l) → own_step st (do_seed ep l st)
| own_seeded st : r_main st = MSeed [] →
    own_step st (with_main (if has_Discovery (cfg (s_agg (r_sys st))) then MReconcile else MWaitCtx) st)
| own_done st : r_main st = MReconcile ∨ r_main st = MWaitCtx → r_done st = true → own_step st (with_main MJoin st)
| own_close st : r_main st = MJoin → r_gos st = [] → own_step st (with_main MClosed st)
| own_return st : r_main st = MClosed → r_writer_done st = true →
    own_step st (with_main MReturned (with_store (flush (s_store (r_sys st))) st))
| own_write io ev rest st : queue st = ev :: rest → r_writer_done st = false →
    own_step st (with_sys (do_write io ev (r_sys st)) st)
| own_writer_exit st : queue st = [] → queue_closed (r_main st) = true → r_writer_done st = false →
    own_step st (mkR (r_sys st) (r_fleet st) (r_gos st) (r_main st) (r_done st) true)
| own_enter l1 g l2 st : r_gos st = l1 ++ g :: l2 → g_pc g = GLoop → g_done st g = false →
    own_step st (with_gos (l1 ++ at_pc GSession g :: l2) st)
| own_exit l1 g l2 st : r_gos st = l1 ++ g :: l2 → g_pc g ≠ GSession → g_done st g = true →
    own_step st (with_gos (l1 ++ l2) st)
| own_fail l1 g l2 st : r_gos st = l1 ++ g :: l2 → g_pc g = GSession → g_done st g = false →
    own_step st (with_gos (l1 ++ at_pc GBackoff g :: l2) (with_sys (do_fail (r_sys st)) st))
| own_end l1 g l2 st : r_gos st = l1 ++ g :: l2 → g_pc g = GSession → g_done st g = true →
    own_step st (with_gos (l1 ++ at_pc GLoop g :: l2) st)
| own_retry l1 g l2 st : r_gos st = l1 ++ g :: l2 → g_pc g = GBackoff →
    own_step st (with_gos (l1 ++ at_pc GLoop g :: l2) st).

Definition run_step (st st' : rstate) : Prop := input_step st st' ∨ client_step st st' ∨ own_step st st'.

Definition run_start (a : Aggregator) (store : S) : rstate :=
  mkR (start a store) no_fleet [] (MSeed (Agents (cfg a))) false false.

(** ** The fleet's run numbers *)

Definition fresh (fl : fleet) : Prop := ∀ r ep, runs fl !! r = Some ep → r < next_run fl.

(** Later fleets: numbers only grow, and no run comes back. *)
Definition later (fl fl' : fleet) : Prop :=
  next_run fl ≤ next_run fl' ∧ ∀ r ep, r < next_run fl → runs fl' !! r = Some ep → runs fl !! r = Some ep.

Lemma later_trans fl1 fl2 fl3 : later fl1 fl2 → later fl2 fl3 → later fl1 fl3.
Proof. intros [H1 H2] [H3 H4]. split; [lia|]. intros r ep Hr Hl. apply H2; [done|]. apply H4; [lia|done]. Qed.

Lemma start_later ep fl : fresh fl → later fl (startEndpoint ep fl) ∧ fresh (startEndpoint ep fl).
Proof.
  intros Hf. split; [split; cbn; [lia|]|]; intros r ep'; cbn.
  - intros Hr. by rewrite lookup_insert_ne by lia.
  - intros [[<- _]|[_ Hl]]%lookup_insert_Some; [cbn; lia|]. apply Hf in Hl. cbn. lia.
Qed.

Lemma cancel_later n r fl : fresh fl → later fl (cancel_endpoint n r fl) ∧ fresh (cancel_endpoint n r fl).
Proof.
  intros Hf. split; [split; cbn; [lia|]|]; intros r' ep; cbn.
  - by intros _ [_ ?]%lookup_delete_Some.
  - intros [_ ?]%lookup_delete_Some. by eapply Hf.
Qed.

Lemma later_refl fl : fresh fl → later fl fl ∧ fresh fl.
Proof. done. Qed.

(** A fold of fleet operations that each lead to a later fleet does. *)
Lemma foldl_later {A} (f : fleet → A → fleet) l fl :
  (∀ fl x, fresh fl → later fl (f fl x) ∧ fresh (f fl x)) → fresh fl → later fl (foldl f fl l) ∧ fresh (foldl f fl l).
Proof.
  intros Hs. revert fl. induction l as [|x l IH]; intros fl Hf; [done|]. cbn [foldl].
  destruct (Hs fl x Hf) as [H1 H2]. destruct (IH _ H2) as [H3 H4]. split; [by eapply later_trans|done].
Qed.

Lemma reconcile_later v eps fl : fresh fl → later fl (reconcileFleet v eps fl) ∧ fresh (reconcileFleet v eps fl).
Proof.
  intros Hf. unfold reconcileFleet.
  assert (H : later fl (cancel_departed (want_of eps) (v_active v (map_to_list (active fl))) fl) ∧
              fresh (cancel_departed (want_of eps) (v_active v (map_to_list (active fl))) fl)).
  { apply foldl_later; [|done]. intros fl' [n r] Hf'. cbn. case_bool_decide; [done|by apply cancel_later]. }
  destruct H as [H1 H2]. set (fl1 := cancel_departed _ _ _) in *.
  assert (H : later fl1 (start_new (v_want v (map_to_list (want_of eps))) fl1) ∧
              fresh (start_new (v_want v (map_to_list (want_of eps))) fl1)).
  { apply foldl_later; [|done]. intros fl' [n ep] Hf'. cbn. case_bool_decide; [done|by apply start_later]. }
  destruct H as [H3 H4]. split; [by eapply later_trans|done].
Qed.

(** ** What identifies a goroutine *)

Definition sig (g : goroutine) : nat * string * AgentEndpoint := (g_run g, g_stream g, g_ep g).

Lemma spawn_sig strs ep r : sig <$> spawn strs ep r = (λ s, (r, s, ep)) <$> strs.
Proof. unfold spawn. by rewrite <-list_fmap_compose. Qed.

Definition run_sigs (strs : list string) (fl : fleet) (r : nat) : list (nat * string * AgentEndpoint) :=
  match runs fl !! r with Some ep => (λ s, (r, s, ep)) <$> strs | None => [] end.

Lemma spawn_new_sig strs n fl :
  sig <$> spawn_new strs n fl = List.seq n (next_run fl - n) ≫= run_sigs strs fl.
Proof.
  unfold spawn_new. induction (List.seq n (next_run fl - n)) as [|r l IH]; [done|].
  rewrite !bind_cons, fmap_app, IH. f_equal. unfold run_sigs. destruct (runs fl !! r); [apply spawn_sig|done].
Qed.

(** How often an element occurs. *)
Definition occ {A} `{EqDecision A} (x : A) (l : list A) : nat := length (filter (.= x) l).
Arguments occ : simpl never.

Lemma occ_app {A} `{EqDecision A} (x : A) l k : occ x (l ++ k) = occ x l + occ x k.
Proof. unfold occ. by rewrite filter_app, length_app. Qed.

Lemma occ_cons_le {A} `{EqDecision A} (x y : A) l : occ x l ≤ occ x (y :: l).
Proof. unfold occ. rewrite filter_cons. case_decide; cbn; lia. Qed.

Lemma occ_cons_ne {A} `{EqDecision A} (x y : A) l : y ≠ x → occ x (y :: l) = occ x l.
Proof. intros Hn. unfold occ. by rewrite filter_cons, decide_False. Qed.

Lemma occ_0 {A} `{EqDecision A} (x : A) l : occ x l = 0 ↔ x ∉ l.
Proof.
  unfold occ. rewrite length_zero_iff_nil. induction l as [|y l IH]; [split; [by intros _ ?%not_elem_of_nil|done]|].
  rewrite filter_cons, not_elem_of_cons, <-IH. case_decide; naive_solver.
Qed.

Lemma occ_pos {A} `{EqDecision A} (x : A) l : 0 < occ x l ↔ x ∈ l.
Proof. pose proof (occ_0 x l). destruct (decide (x ∈ l)); destruct (occ x l); split; try done; try lia; naive_solver. Qed.

Lemma occ_run (strs : list string) (r : nat) (ep : AgentEndpoint) (r' : nat) (s' : string) (ep' : AgentEndpoint) :
  occ (r', s', ep') ((λ s, (r, s, ep)) <$> strs) = if decide (r = r' ∧ ep = ep') then occ s' strs else 0.
Proof.
  unfold occ. induction strs as [|s l IH]; [by case_decide|]. rewrite fmap_cons, !filter_cons.
  destruct (decide (r = r' ∧ ep = ep')) as [[-> ->]|Hn].
  - destruct (decide (s = s')) as [->|Hs]; [rewrite !decide_True by done; cbn; by rewrite IH|].
    rewrite !decide_False by congruence. done.
  - rewrite decide_False by naive_solver. done.
Qed.

Lemma spawn_new_occ (strs : list string) n fl (r : nat) (s : string) (ep : AgentEndpoint) :
  occ (r, s, ep) (sig <$> spawn_new strs n fl) =
    if decide (n ≤ r < next_run fl ∧ runs fl !! r = Some ep) then occ s strs else 0.
Proof.
  rewrite spawn_new_sig.
  assert (H : ∀ l, NoDup l → occ (r, s, ep) (l ≫= run_sigs strs fl) =
    if decide (r ∈ l ∧ runs fl !! r = Some ep) then occ s strs else 0).
  { induction 1 as [|r' l Hr' Hl IH]; [rewrite decide_False; [done|by intros [?%not_elem_of_nil _]]|].
    rewrite bind_cons, occ_app, IH. unfold run_sigs.
    assert (Hh : occ (r, s, ep) (match runs fl !! r' with Some ep' => (λ s, (r', s, ep')) <$> strs | None => [] end) =
      if decide (r = r' ∧ runs fl !! r = Some ep) then occ s strs else 0).
    { destruct (runs fl !! r') as [ep'|] eqn:E.
      - rewrite occ_run. repeat case_decide; naive_solver.
      - rewrite decide_False; [done|]. intros [-> ?]. congruence. }
    rewrite Hh. destruct (decide (runs fl !! r = Some ep)); [|rewrite !decide_False by naive_solver; done].
    destruct (decide (r = r')) as [->|Hne].
    - rewrite decide_True, decide_False, decide_True by (rewrite ?elem_of_cons; naive_solver). lia.
    - rewrite (decide_False (P := r = r' ∧ _)) by naive_solver. cbn. apply decide_ext. rewrite elem_of_cons. naive_solver. }
  rewrite H by apply NoDup_seq. apply decide_ext. rewrite elem_of_seq. split; intros [? ?]; split; (done || lia).
Qed.

(** ** The invariant *)

Definition sigs (st : rstate) : list (nat * string * AgentEndpoint) := sig <$> r_gos st.

Definition past_ctx (m : main_pc) : bool := match m with MJoin | MClosed | MReturned => true | _ => false end.

Record run_inv (st : rstate) : Prop := {
  ri_closed : queue_closed (r_main st) = true → r_gos st = [];
  ri_writer : r_writer_done st = true → queue_closed (r_main st) = true ∧ queue st = [];
  ri_returned : r_main st = MReturned → r_writer_done st = true;
  ri_past : past_ctx (r_main st) = true → r_done st = true;
  ri_fresh : fresh (r_fleet st);
  ri_gos : ∀ r s ep, (r, s, ep) ∈ sigs st → r < next_run (r_fleet st) ∧ s ∈ streams st ∧
    ∀ ep', runs (r_fleet st) !! r = Some ep' → ep' = ep;
  ri_count : ∀ r s ep, occ (r, s, ep) (sigs st) ≤ occ s (streams st);
  ri_cover : r_done st = false → ∀ r ep s, runs (r_fleet st) !! r = Some ep → occ (r, s, ep) (sigs st) = occ s (streams st);
  ri_same : ∀ r s ep s' ep', (r, s, ep) ∈ sigs st → (r, s', ep') ∈ sigs st → ep = ep';
}.

(** A step of the shared aggregator that leaves the configuration alone, and the
    queue too once the writer has left. *)
Lemma inv_sys s' st :
  run_inv st → cfg (s_agg s') = cfg (s_agg (r_sys st)) → (r_writer_done st = true → ch (s_agg s') = []) →
  run_inv (with_sys s' st).
Proof.
  intros [H1 H2 H3 H4 H5 H6 H7 H8 H9] Hc Hq. unfold streams, queue in *.
  split; unfold streams, queue, sigs in *; cbn; rewrite ?Hc; try done.
  intros Hw. split; [by apply H2|by apply Hq].
Qed.

(** A goroutine that moves inside its loop. *)
Lemma inv_move gs st : run_inv st → sig <$> gs = sigs st → run_inv (with_gos gs st).
Proof.
  intros [H1 H2 H3 H4 H5 H6 H7 H8 H9] Hs. split; unfold streams, queue, sigs in *; cbn; rewrite ?Hs; try done.
  intros Hc. apply H1 in Hc. rewrite Hc in Hs. by apply fmap_nil_inv in Hs.
Qed.

Lemma inv_leave l1 g l2 st :
  run_inv st → r_gos st = l1 ++ g :: l2 → g_done st g = true → run_inv (with_gos (l1 ++ l2) st).
Proof.
  intros [H1 H2 H3 H4 H5 H6 H7 H8 H9] Hg Hd.
  assert (Hsub : sig <$> (l1 ++ l2) `sublist_of` sigs st).
  { unfold sigs. rewrite Hg. apply fmap_sublist, sublist_app; [done|by apply sublist_cons]. }
  unfold sigs in *. split; unfold streams, queue, sigs in *; cbn; try done.
  - intros Hc. apply H1 in Hc. rewrite Hg in Hc. by destruct l1.
  - intros r s ep Hin. apply H6. by eapply elem_of_sublist.
  - intros r s ep. etrans; [|exact (H7 r s ep)]. rewrite Hg, !fmap_app, fmap_cons, !occ_app.
    pose proof (occ_cons_le (r, s, ep) (sig g) (sig <$> l2)). lia.
  - intros Hnd r ep s Hr. rewrite <-(H8 Hnd r ep s Hr), Hg, !fmap_app, fmap_cons, !occ_app.
    unfold g_done in Hd. rewrite Hnd in Hd. cbn in Hd. apply bool_decide_eq_true in Hd.
    rewrite occ_cons_ne; [done|]. unfold sig. intros [= Hx _ _]. rewrite Hx in Hd. congruence.
  - intros r s ep s' ep' Hx Hy. eapply H9; by eapply elem_of_sublist.
Qed.

(** New runs with their goroutines. *)
Lemma inv_start fl gs m st :
  run_inv st → later (r_fleet st) fl → fresh fl → queue_closed (r_main st) = false → queue_closed m = false →
  past_ctx m = false →
  (∀ r s ep, occ (r, s, ep) (sig <$> gs) =
     if decide (next_run (r_fleet st) ≤ r < next_run fl ∧ runs fl !! r = Some ep) then occ s (streams st) else 0) →
  run_inv (mkR (r_sys st) fl (r_gos st ++ gs) m (r_done st) (r_writer_done st)).
Proof.
  intros [H1 H2 H3 H4 H5 H6 H7 H8 H9] [Hn Hl] Hf Hc Hm Hp Hocc.
  assert (Hgs : ∀ r s ep, (r, s, ep) ∈ sig <$> gs →
     next_run (r_fleet st) ≤ r < next_run fl ∧ runs fl !! r = Some ep ∧ s ∈ streams st).
  { intros r s ep Hin%occ_pos. rewrite Hocc in Hin. case_decide as Hd; [|lia]. apply occ_pos in Hin. naive_solver. }
  unfold sigs in *. split; unfold streams, queue, sigs in *; cbn; rewrite ?fmap_app; try done.
  - rewrite Hm. done.
  - intros Hw. apply H2 in Hw as [? _]. congruence.
  - intros ->. done.
  - by rewrite Hp.
  - intros r s ep [Hin|Hin]%elem_of_app.
    + destruct (H6 _ _ _ Hin) as (Hr & Hs & He). split_and!; [lia|done|]. intros ep' Hr'. apply He, Hl; [lia|done].
    + apply Hgs in Hin as (Hr & He & Hs). split_and!; [lia|done|]. intros ep' Hr'. congruence.
  - intros r s ep. rewrite occ_app, Hocc. case_decide as Hd; [|rewrite Nat.add_0_r; apply H7].
    assert (occ (r, s, ep) (sig <$> r_gos st) = 0) as ->; [|done]. apply occ_0. intros Hin.
    apply H6 in Hin as [Hr _]. lia.
  - intros Hnd r ep s Hr. rewrite occ_app, Hocc. destruct (decide (r < next_run (r_fleet st))) as [Hlt|Hge].
    + rewrite decide_False by lia. rewrite H8 by (done || by apply Hl). lia.
    + rewrite decide_True by (split; [split; [lia|by eapply Hf]|done]).
      assert (occ (r, s, ep) (sig <$> r_gos st) = 0) as ->; [|done]. apply occ_0. intros Hin.
      apply H6 in Hin as [? _]. done.
  - intros r s ep s' ep' [Hx|Hx]%elem_of_app [Hy|Hy]%elem_of_app.
    + by eapply H9.
    + apply H6 in Hx as [? _]. apply Hgs in Hy as [? _]. lia.
    + apply H6 in Hy as [? _]. apply Hgs in Hx as [? _]. lia.
    + apply Hgs in Hx as (_ & Hx & _), Hy as (_ & Hy & _). congruence.
Qed.

Lemma on_agg_inv g st :
  run_inv st → cfg (g (s_agg (r_sys st))) = cfg (s_agg (r_sys st)) → ch (g (s_agg (r_sys st))) = ch (s_agg (r_sys st)) →
  run_inv (with_sys (on_agg g (r_sys st)) st).
Proof. intros HI Hc Hq. apply inv_sys; [done|done|]. intros Hw. cbn. rewrite Hq. by apply (ri_writer _ HI). Qed.

Lemma input_inv st st' : input_step st st' → run_inv st → run_inv st'.
Proof.
  intros Hstep HI. destruct Hstep as [st|v eps st Hv Hm|st Hm|l1 g l2 env st Hg Hpc|now len nsvc st|now st|rm_ok now w fs st Hw|er sr st|store st Hb].
  - destruct HI as [H1 H2 H3 H4 H5 H6 H7 H8 H9]. by split.
  - destruct (reconcile_later v eps (r_fleet st) (ri_fresh _ HI)) as [Hl Hf].
    apply inv_start; try done; [by rewrite Hm..|].
    intros r s ep. apply spawn_new_occ.
  - destruct HI as [H1 H2 H3 H4 H5 H6 H7 H8 H9]. split; try done. cbn. intros Hw. apply H2 in Hw as [Hw _]. by rewrite Hm in Hw.
  - apply inv_sys; [done| |].
    + unfold do_receive, receive. cbn. by case_bool_decide.
    + intros Hw. apply (ri_writer _ HI) in Hw as [Hw _]. apply (ri_closed _ HI) in Hw. rewrite Hw in Hg. by destruct l1.
  - apply on_agg_inv; [done|..]; unfold agg_Stats; by destruct (Size _ _).
  - by apply on_agg_inv.
  - by apply on_agg_inv.
  - by apply on_agg_inv.
  - apply inv_sys; [done|done|]. apply (ri_writer _ HI).
Qed.

Lemma client_inv st st' : client_step st st' → run_inv st → run_inv st'.
Proof.
  intros Hstep HI. destruct Hstep as [r st|id st|id st]; apply on_agg_inv; try done;
    unfold unregisterSubscriber; by destruct (subs _ !! id).
Qed.

Lemma do_write_front io ev rest (s : sys (S := S)) :
  ch (s_agg s) = ev :: rest →
  ch (s_agg (do_write io ev s)) = rest ∧ cfg (s_agg (do_write io ev s)) = cfg (s_agg s).
Proof.
  intros Hq. unfold do_write, write_step. cbn. rewrite Hq.
  destruct (handle_counted io ev (set_ch rest (s_agg s))) as (j & [[-> -> _ _ _ _] _ _ _] & _). done.
Qed.

Lemma own_inv st st' : own_step st st' → run_inv st → run_inv st'.
Proof.
  intros Hstep HI. destruct Hstep as [ep l st Hm|st Hm|st Hm Hd|st Hm Hg|st Hm Hw|io ev rest st Hq Hw|st Hq Hc Hw
    |l1 g l2 st Hg Hpc Hd|l1 g l2 st Hg Hpc Hd|l1 g l2 st Hg Hpc Hd|l1 g l2 st Hg Hpc Hd|l1 g l2 st Hg Hpc].
  - destruct (start_later ep (r_fleet st) (ri_fresh _ HI)) as [Hl Hf].
    apply inv_start; try done; [by rewrite Hm|..].
    intros r s ep'. rewrite spawn_sig, occ_run. apply decide_ext. cbn. split.
    + intros [<- <-]. rewrite lookup_insert_eq. split; [lia|done].
    + intros [Hr Hlk]. assert (r = next_run (r_fleet st)) as -> by lia. rewrite lookup_insert_eq in Hlk. naive_solver.
  - destruct HI as [H1 H2 H3 H4 H5 H6 H7 H8 H9]. rewrite Hm in *.
    split; try done; cbn; destruct (has_Discovery _); try done; intros Hw; destruct (H2 Hw) as [Hx _]; discriminate Hx.
  - destruct HI as [H1 H2 H3 H4 H5 H6 H7 H8 H9]. split; try done. cbn. intros Hw. apply H2 in Hw as [Hw _].
    by destruct Hm as [Hm|Hm]; rewrite Hm in Hw.
  - destruct HI as [H1 H2 H3 H4 H5 H6 H7 H8 H9]. rewrite Hm in *. split; try done; cbn; naive_solver.
  - destruct HI as [H1 H2 H3 H4 H5 H6 H7 H8 H9]. rewrite Hm in *. split; try done; cbn; naive_solver.
  - destruct (do_write_front io ev rest (r_sys st) Hq) as [Hc Hf]. apply inv_sys; [done|done|congruence].
  - destruct HI as [H1 H2 H3 H4 H5 H6 H7 H8 H9]. by split.
  - apply inv_move; [done|]. unfold sigs. by rewrite Hg, !fmap_app.
  - by eapply inv_leave.
  - apply (inv_move _ (with_sys _ st)); [apply inv_sys; try done|].
    + intros Hw. cbn. by apply (ri_writer _ HI).
    + unfold sigs. cbn. by rewrite Hg, !fmap_app.
  - apply inv_move; [done|]. unfold sigs. by rewrite Hg, !fmap_app.
  - apply inv_move; [done|]. unfold sigs. by rewrite Hg, !fmap_app.
Qed.

Lemma run_start_inv a store : run_inv (run_start a store).
Proof.
  split; unfold streams, queue, sigs, run_start; cbn; try done.
  - by intros r s ep ?%not_elem_of_nil.
  - intros. apply Nat.le_0_l.
  - by intros r s ep s' ep' ?%not_elem_of_nil.
Qed.

Lemma run_step_inv st st' : run_step st st' → run_inv st → run_inv st'.
Proof. intros [Hs|[Hs|Hs]]; [by eapply input_inv|by eapply client_inv|by eapply own_inv]. Qed.

Lemma reachable_inv a store st : rtc run_step (run_start a store) st → run_inv st.
Proof.
  intros Hr. cut (run_inv (run_start a store)); [|apply run_start_inv].
  induction Hr as [|x y z Hs _ IH]; intros HI; [done|]. apply IH. by eapply run_step_inv.
Qed.

(** ** Shutting down *)

Definition g_weight (g : goroutine) : nat := match g_pc g with GLoop => 1 | _ => 2 end.

Definition main_weight (n : nat) (m : main_pc) : nat :=
  match m with
  | MSeed l => length l * (n + 1) + 4
  | MReconcile | MWaitCtx => 3
  | MJoin => 2
  | MClosed => 1
  | MReturned => 0
  end.

(** What is left to do once the context is cancelled. *)
Definition work (st : rstate) : nat :=
  main_weight (length (streams st)) (r_main st) + sum_list_with g_weight (r_gos st) + length (queue st) +
  if r_writer_done st then 0 else 1.

Lemma sum_spawn strs ep r : sum_list_with g_weight (spawn strs ep r) = length strs.
Proof. unfold spawn. induction strs as [|s strs IH]; [done|]. cbn. by rewrite IH. Qed.

(** A cancelled aggregator works off what is left, one step at a time. *)
Lemma own_step_work st st' : own_step st st' → r_done st = true → r_done st' = true ∧ work st' < work st.
Proof.
  intros Hstep Hdone. unfold work, streams, queue.
  destruct Hstep as [ep l st Hm|st Hm|st Hm Hd|st Hm Hg|st Hm Hw|io ev rest st Hq Hw|st Hq Hc Hw
    |l1 g l2 st Hg Hpc Hd|l1 g l2 st Hg Hpc Hd|l1 g l2 st Hg Hpc Hd|l1 g l2 st Hg Hpc Hd|l1 g l2 st Hg Hpc];
    (split; [done|]); cbn [do_seed with_main with_gos with_store with_sys r_sys r_fleet r_gos r_main r_done r_writer_done s_agg].
  - rewrite Hm, sum_list_with_app, sum_spawn. unfold streams. cbn [main_weight length]. lia.
  - rewrite Hm. cbn [main_weight length]. destruct (has_Discovery _); cbn [main_weight]; lia.
  - destruct Hm as [Hm|Hm]; rewrite Hm; cbn [main_weight]; lia.
  - rewrite Hm, Hg. cbn [main_weight sum_list_with]. lia.
  - rewrite Hm. cbn [main_weight]. lia.
  - destruct (do_write_front io ev rest (r_sys st) Hq) as [Hc Hf]. rewrite Hc, Hf. unfold queue in Hq.
    rewrite Hq. cbn [length]. lia.
  - rewrite Hw. lia.
  - unfold g_done in Hd. rewrite Hdone in Hd. done.
  - rewrite Hg, !sum_list_with_app. cbn [sum_list_with]. unfold g_weight at 4. destruct (g_pc g); lia.
  - unfold g_done in Hd. rewrite Hdone in Hd. done.
  - rewrite Hg, !sum_list_with_app. cbn [sum_list_with]. unfold g_weight at 2 5. rewrite Hpc. cbn. lia.
  - rewrite Hg, !sum_list_with_app. cbn [sum_list_with]. unfold g_weight at 2 5. rewrite Hpc. cbn. lia.
Qed.

Lemma work_terminates st : r_done st = true → sn own_step st.
Proof.
  intros Hd. remember (work st) as n eqn:Hn. revert st Hd Hn.
  induction (lt_wf n) as [n _ IH]. intros st Hd ->. constructor. intros st' Hs.
  destruct (own_step_work _ _ Hs Hd) as [Hd' Hlt]. by apply (IH (work st')).
Qed.

Definition some_io : write_io := mkWriteIO 0 (mkAppendIO 0 WrOk true true 0) true (mkAppendIO 0 WrOk true true 0) true.

(** Nothing blocks for good: until [Run] has returned, some goroutine can go on. *)
Lemma never_stuck st : run_inv st → r_done st = true → r_main st ≠ MReturned → ∃ st', own_step st st'.
Proof.
  intros HI Hd Hm. destruct (r_main st) as [[|ep l]| | | | |] eqn:E.
  - eexists. by apply own_seeded.
  - eexists. by apply (own_seed ep l).
  - eexists. apply own_done; auto.
  - eexists. apply own_done; auto.
  - destruct (r_gos st) as [|g gs] eqn:Hg; [eexists; by apply own_close|].
    assert (Hgd : g_done st g = true) by (unfold g_done; by rewrite Hd).
    destruct (decide (g_pc g = GSession)) as [Hpc|Hpc]; eexists; [by apply (own_end [] g gs)|by apply (own_exit [] g gs)].
  - destruct (r_writer_done st) eqn:Hw; [eexists; by apply own_return|].
    destruct (queue st) as [|ev rest] eqn:Hq; eexists; [apply own_writer_exit; by rewrite ?E|by apply (own_write some_io ev rest)].
  - done.
Qed.

Lemma own_done_stays st st' : rtc own_step st st' → r_done st = true → r_done st' = true.
Proof. induction 1 as [|x y z Hs _ IH]; intros Hd; [done|]. apply IH. by apply (own_step_work _ _ Hs). Qed.

Lemma own_reachable a store st st' :
  rtc run_step (run_start a store) st → rtc own_step st st' → rtc run_step (run_start a store) st'.
Proof. intros H Ho. etrans; [done|]. eapply rtc_subrel, Ho. by right; right. Qed.

(** The balance of the counters holds along every run. *)
Lemma run_sys_inv st st' : run_step st st' → run_inv st → sys_inv (r_sys st) → sys_inv (r_sys st').
Proof.
  intros [Hs|[Hs|Hs]] _ HI; destruct Hs; cbn [r_sys with_sys with_store with_main with_gos do_seed do_reconcile]; try done;
    try (eapply sys_step_inv; [|exact HI];
         solve [apply step_receive|apply step_subscribe|apply step_consume|apply step_unsubscribe|apply step_stats
               |apply step_sweep|by apply step_gc|apply step_index|apply step_fail|by eapply step_write]);
    destruct HI as [H1 H2 H3 H4 H5]; by split.
Qed.

Lemma reachable_sys_inv c res sv w a store st :
  New c res sv w = inl a → rtc run_step (run_start a store) st → sys_inv (r_sys st).
Proof.
  intros HN Hr. cut (run_inv (run_start a store) ∧ sys_inv (r_sys (run_start a store))).
  - induction Hr as [|x y z Hs _ IH]; intros [H1 H2]; [done|]. apply IH. split; [|by eapply run_sys_inv].
    by eapply run_step_inv.
  - split; [apply run_start_inv|]. by eapply start_sys_inv.
Qed.

Lemma closed_queue_shrinks st st' : r_gos st = [] → run_step st st' → ∃ taken, queue st = taken ++ queue st'.
Proof.
  intros Hg [Hs|[Hs|Hs]];
    [destruct Hs as [| | |l1 g l2 env st Hg'|now len nsvc st| | | |]
    |destruct Hs as [| |id st]
    |destruct Hs as [| | | | |io ev rest st Hq Hw| |l1 g l2 st Hg'|l1 g l2 st Hg'|l1 g l2 st Hg'|l1 g l2 st Hg'|l1 g l2 st Hg']];
    try (rewrite Hg in Hg'; by destruct l1); try (by exists []).
  - exists []. unfold queue. cbn. unfold unregisterSubscriber. by destruct (subs _ !! id).
  - exists [ev]. unfold queue. cbn [with_sys r_sys]. destruct (do_write_front io ev rest (r_sys st) Hq) as [-> _]. done.
Qed.

Lemma run_step_cfg st st' : run_step st st' → cfg (s_agg (r_sys st')) = cfg (s_agg (r_sys st)).
Proof.
  intros [Hs|[Hs|Hs]];
    [destruct Hs as [| | |l1 g l2 env st Hg'|now len nsvc st| | | |]
    |destruct Hs as [| |id st]
    |destruct Hs as [| | | | |io ev rest st Hq Hw| |l1 g l2 st Hg'|l1 g l2 st Hg'|l1 g l2 st Hg'|l1 g l2 st Hg'|l1 g l2 st Hg']]; try done; cbn.
  - by case_bool_decide.
  - unfold unregisterSubscriber. by destruct (subs _ !! id).
  - by destruct (do_write_front io ev rest (r_sys st) Hq).
Qed.

Lemma reachable_cfg a store st : rtc run_step (run_start a store) st → cfg (s_agg (r_sys st)) = cfg a.
Proof.
  intros Hr. change (cfg a) with (cfg (s_agg (r_sys (run_start a store)))).
  induction Hr as [|x y z Hs _ IH]; [done|]. by rewrite IH, (run_step_cfg _ _ Hs).
Qed.

(** C25: nothing is ever sent on the queue after it is closed, which would panic:
    whatever the interleaving of emissions, sessions, cancellation and shutdown,
    once [Run] has closed the queue no stream goroutine is left and no step makes
    the queue longer; the writer leaves only after the close, with the queue
    empty, and [Run] returns only after the writer has left. *)
Theorem close_is_last_send a store st :
  rtc run_step (run_start a store) st →
  (queue_closed (r_main st) = true → r_gos st = [] ∧
     ∀ st', run_step st st' → ∃ taken, queue st = taken ++ queue st') ∧
  (r_writer_done st = true → queue_closed (r_main st) = true ∧ queue st = []) ∧
  (r_main st = MReturned → r_writer_done st = true ∧ r_done st = true).
Proof.
  intros HI%reachable_inv. split_and!.
  - intros Hc. pose proof (ri_closed _ HI Hc) as Hg. split; [done|]. intros st' Hs. by apply closed_queue_shrinks.
  - apply (ri_writer _ HI).
  - intros Hm. split; [by apply (ri_returned _ HI)|]. apply (ri_past _ HI). by rewrite Hm.
Qed.

(** C30: each stream goroutine stands for one of the streams of the configuration
    and the endpoint of its run, which the goroutines of a run share; a run never
    has more of them for a stream than the configuration names it (once, unless an
    operator repeats a name in --streams), and until the context is cancelled every
    run that was not cancelled has exactly that many, whatever sessions failed
    meanwhile. *)
Theorem one_goroutine_per_stream a store st :
  rtc run_step (run_start a store) st →
  (∀ g, g ∈ r_gos st → g_stream g ∈ c_Streams (cfg a) ∧
     ∀ ep, runs (r_fleet st) !! g_run g = Some ep → g_ep g = ep) ∧
  (∀ g g', g ∈ r_gos st → g' ∈ r_gos st → g_run g = g_run g' → g_ep g = g_ep g') ∧
  (∀ r s ep, occ (r, s, ep) (sig <$> r_gos st) ≤ occ s (c_Streams (cfg a))) ∧
  (r_done st = false → ∀ r ep s, runs (r_fleet st) !! r = Some ep →
     occ (r, s, ep) (sig <$> r_gos st) = occ s (c_Streams (cfg a))).
Proof.
  intros Hr. pose proof (reachable_cfg _ _ _ Hr) as Hc. apply reachable_inv in Hr as HI.
  assert (Hs : streams st = c_Streams (cfg a)) by (unfold streams; by rewrite Hc).
  destruct HI as [_ _ _ _ _ H6 H7 H8 H9]. rewrite Hs in *.
  assert (Hin : ∀ g, g ∈ r_gos st → (g_run g, g_stream g, g_ep g) ∈ sigs st).
  { intros g Hg. apply list_elem_of_fmap. by exists g. }
  split_and!; [|intros g g' Hg Hg' He; apply Hin in Hg, Hg'; rewrite He in Hg; by eapply H9|done|done].
  intros g Hg. destruct (H6 _ _ _ (Hin g Hg)) as (_ & ? & He). split; [done|]. intros ep Hep. symmetry. by apply He.
Qed.

(** C20: once the context is cancelled, [Run] returns with nothing left behind:
    from any state it can be in, its goroutines cannot go on forever by
    themselves, and can stop only when [Run] has returned, with no stream
    goroutine, the writer gone and the queue empty, so that every received
    envelope was either dropped, and counted as such, or handled by the writer. *)
Theorem shutdown_drains c res sv w a store st :
  New c res sv w = inl a → rtc run_step (run_start a store) st → r_done st = true →
  sn own_step st ∧
  ∀ st', rtc own_step st st' → nf own_step st' →
    r_main st' = MReturned ∧ r_gos st' = [] ∧ r_writer_done st' = true ∧ queue st' = [] ∧
    eqm (received (cnt (s_agg (r_sys st')))) (dropped (cnt (s_agg (r_sys st'))) + taken (s_hist (r_sys st'))).
Proof.
  intros HN Hr Hd. split; [by apply work_terminates|]. intros st' Ho Hnf.
  pose proof (own_reachable _ _ _ _ Hr Ho) as Hr'. pose proof (reachable_inv _ _ _ Hr') as HI.
  assert (Hm : r_main st' = MReturned).
  { destruct (decide (queue_closed (r_main st') = true)) as [Hc|Hc].
    - destruct (r_main st') eqn:E; try done. exfalso. apply Hnf, never_stuck; [done|by eapply own_done_stays|by rewrite E].
    - exfalso. apply Hnf, never_stuck; [done|by eapply own_done_stays|]. intros E. by rewrite E in Hc. }
  assert (Hw : r_writer_done st' = true) by by apply (ri_returned _ HI).
  destruct (ri_writer _ HI Hw) as [Hc Hq]. split_and!; [done|by apply (ri_closed _ HI)|done|done|].
  pose proof (si_received _ (reachable_sys_inv _ _ _ _ _ _ _ HN Hr')) as Hb. unfold queue in Hq.
  rewrite Hq in Hb. cbn in Hb. by rewrite Z.add_0_r in Hb.
Qed.
End run.

(** ** Witnesses *)

Module RunDemo.
Import System.Demo.
(** Seeded, one session with one envelope, then cancelled. *)
Definition no_background : nullStore → nullStore → Prop := λ _ _, False.
Definition r0 : rstate (S := nullStore) := run_start a NullCursorStore.
Definition r1 : rstate := do_seed ep [] r0.
Definition r2 : rstate := with_main MWaitCtx r1.
Definition g : goroutine := mkG ep "intent" 0 GLoop.
Definition r3 : rstate := with_gos [at_pc GSession g] r2.
Definition r4 : rstate := with_sys (do_receive ep "intent" env (r_sys r3)) r3.
Definition r5 : rstate := mkR (r_sys r4) (r_fleet r4) (r_gos r4) (r_main r4) true (r_writer_done r4).
(** The session ends, the goroutine leaves, the queue is closed and written off. *)
Definition r6 : rstate := with_gos [g] r5.
Definition r7 : rstate := with_main MJoin (with_gos [] r6).
Definition r8 : rstate := with_main MClosed r7.
Definition r9 : rstate := with_sys (do_write io (mkEv "n1" env) (r_sys r8)) r8.
Definition r10 : rstate := mkR (r_sys r9) (r_fleet r9) (r_gos r9) (r_main r9) (r_done r9) true.
Definition r11 : rstate := with_main MReturned (with_sys (mkSys (s_agg (r_sys r10)) NullCursorStore (s_hist (r_sys r10))) r10).

Lemma r5_reached : rtc (run_step id no_background) r0 r5.
Proof.
  eapply rtc_l; [right; right; by apply (own_seed id ep [])|]. fold r1.
  eapply rtc_l; [right; right; by apply own_seeded|]. change (rtc (run_step id no_background) r2 r5).
  eapply rtc_l; [right; right; by apply (own_enter id [] g [])|]. change (rtc (run_step id no_background) r3 r5).
  eapply rtc_l; [left; by apply (in_receive _ [] (at_pc GSession g) [] env)|]. change (rtc (run_step id no_background) r4 r5).
  apply rtc_once. left. apply in_cancel.
Qed.

Lemma r11_reached : rtc (own_step id) r5 r11.
Proof.
  eapply rtc_l; [by apply (own_end id [] (at_pc GSession g) [])|]. change (rtc (own_step id) r6 r11).
  eapply rtc_l; [by apply own_done; [right|]|].
  eapply rtc_l; [by apply (own_exit id [] g [])|]. change (rtc (own_step id) r7 r11).
  eapply rtc_l; [by apply own_close|]. change (rtc (own_step id) r8 r11).
  eapply rtc_l; [by apply (own_write id io (mkEv "n1" env) [])|]. change (rtc (own_step id) r9 r11).
  eapply rtc_l; [by apply own_writer_exit|]. change (rtc (own_step id) r10 r11).
  apply rtc_once. exact (own_return id r10 eq_refl eq_refl).
Qed.

Lemma r11_nf : nf (own_step id) r11.
Proof. intros [st' Hs]. inversion Hs; subst; try done; try (by destruct l1); naive_solver. Qed.

Lemma r11_run : rtc (run_step id no_background) r0 r11.
Proof. exact (own_reachable id no_background a NullCursorStore r5 r11 r5_reached r11_reached). Qed.
End RunDemo.

Lemma close_is_last_send_witness : queue_closed (r_main RunDemo.r11) = true ∧ r_gos RunDemo.r11 = [].
Proof.
  split; [reflexivity|].
  apply (close_is_last_send id RunDemo.no_background System.Demo.a NullCursorStore RunDemo.r11); [exact RunDemo.r11_run|reflexivity].
Defined.

Lemma one_goroutine_per_stream_witness :
  r_done RunDemo.r4 = false ∧ runs (r_fleet RunDemo.r4) !! 0%nat = Some System.Demo.ep ∧
  occ (0%nat, "intent", System.Demo.ep) (sig <$> r_gos RunDemo.r4) = 1%nat.
Proof.
  split; [reflexivity|]. split; [reflexivity|].
  apply (one_goroutine_per_stream id RunDemo.no_background System.Demo.a NullCursorStore RunDemo.r4).
  - eapply rtc_l; [right; right; by apply (own_seed id System.Demo.ep [])|].
    eapply rtc_l; [right; right; by apply own_seeded|].
    eapply rtc_l; [right; right; by apply (own_enter id [] RunDemo.g [])|].
    apply rtc_once. left. by apply (in_receive _ [] (at_pc GSession RunDemo.g) [] System.Demo.env).
  - reflexivity.
  - reflexivity.
Defined.

Lemma shutdown_drains_witness :
  sn (own_step id) RunDemo.r5 ∧ r_main RunDemo.r11 = MReturned ∧
  received (cnt (s_agg (r_sys RunDemo.r11))) = 1%Z ∧ taken (s_hist (r_sys RunDemo.r11)) = 1%Z.
Proof.
  destruct (shutdown_drains id RunDemo.no_background System.Demo.conf None None None System.Demo.a NullCursorStore RunDemo.r5) as [Hsn Hend].
  - reflexivity.
  - exact RunDemo.r5_reached.
  - reflexivity.
  - split; [exact Hsn|]. destruct (Hend RunDemo.r11 RunDemo.r11_reached RunDemo.r11_nf) as [Hm _].
    split; [exact Hm|]. split; vm_compute; reflexivity.
Defined.
