(* ===== verification/GoText.v ===== *)
(** * Go text functions: splitting, trimming, URL escaping

    [strings.Split], [strings.Cut] and [strings.TrimSpace], and the escaping and
    unescaping of [net/url] for path segments and query components, with the
    facts that make a printed text parse back: splitting undoes joining, and
    unescaping undoes escaping, whose output has none of the characters that
    delimit a URL's parts. *)
From Stdlib Require Import Ascii.
From stdpp Require Import base numbers strings list.
From S2P Require Import Prelude GoStr Json.
Local Open Scope Z_scope.

(** ** strings.Split, strings.Cut, strings.TrimSpace *)

Fixpoint Split (sep : ascii) (s : string) : list string :=
  match s with
  | EmptyString => [""]
  | String c s' =>
      if bool_decide (c = sep) then "" :: Split sep s'
      else match Split sep s' with
           | w :: ws => String c w :: ws
           | [] => [String c ""]
           end
  end.

Definition Cut (sep : ascii) (s : string) : option (string * string) :=
  match index_byte sep s with
  | None => None
  | Some i => Some (str_take i s, str_drop (S i) s)
  end.

Definition bytes_str (l : list Z) : string := foldr (λ b s, String (chr b) s) "" l.

(** The UTF-8 encodings of the runes [unicode.IsSpace] accepts. *)
Definition space_runes : list (list Z) :=
  [[9]; [10]; [11]; [12]; [13]; [32]; [194; 133]; [194; 160]; [225; 154; 128];
   [226; 128; 128]; [226; 128; 129]; [226; 128; 130]; [226; 128; 131]; [226; 128; 132]; [226; 128; 133];
   [226; 128; 134]; [226; 128; 135]; [226; 128; 136]; [226; 128; 137]; [226; 128; 138];
   [226; 128; 168]; [226; 128; 169]; [226; 128; 175]; [226; 129; 159]; [227; 128; 128]].

Definition strip_one (runes : list string) (s : string) : option string :=
  foldr (λ r rest, match strip_prefix r s with Some s' => Some s' | None => rest end) None runes.

(** Each round removes at least one byte, so the length is fuel enough. *)
Fixpoint strip_all (runes : list string) (fuel : nat) (s : string) : string :=
  match fuel with
  | O => s
  | S k => match strip_one runes s with Some s' => strip_all runes k s' | None => s end
  end.

Fixpoint rev_onto (s acc : string) : string :=
  match s with EmptyString => acc | String c s' => rev_onto s' (String c acc) end.
Definition str_rev (s : string) : string := rev_onto s "".

Definition trim_left (s : string) : string := strip_all (bytes_str <$> space_runes) (String.length s) s.
Definition trim_right (s : string) : string :=
  str_rev (strip_all ((λ r, bytes_str (reverse r)) <$> space_runes) (String.length s) (str_rev s)).

Definition TrimSpace (s : string) : string := trim_right (trim_left s).

Fixpoint join_with (sep : ascii) (l : list string) : string :=
  match l with
  | [] => ""
  | [w] => w
  | w :: l' => w +:+ String sep (join_with sep l')
  end.

Lemma Split_not_nil sep s : Split sep s ≠ [].
Proof. destruct s as [|c s]; cbn; [done|]. case_bool_decide; [done|]. by destruct (Split _ _). Qed.

Lemma Split_plain sep s : has_byte sep s = false → Split sep s = [s].
Proof.
  induction s as [|c s IH]; cbn; [done|]. intros [Hc Hs]%orb_false_iff. apply bool_decide_eq_false in Hc.
  rewrite bool_decide_eq_false_2 by congruence. by rewrite IH.
Qed.

Lemma Split_cons sep w s : has_byte sep w = false → Split sep (w +:+ String sep s) = w :: Split sep s.
Proof.
  induction w as [|c w IH]; cbn [has_byte].
  - intros _. rewrite str_app_nil_l. cbn. by rewrite bool_decide_eq_true_2.
  - intros [Hc Hs]%orb_false_iff. apply bool_decide_eq_false in Hc. rewrite str_app_cons. cbn.
    rewrite bool_decide_eq_false_2 by congruence. by rewrite IH.
Qed.

Lemma Split_join sep l :
  l ≠ [] → Forall (λ w, has_byte sep w = false) l → Split sep (join_with sep l) = l.
Proof.
  intros Hne Hl. induction Hl as [|w l Hw Hl IH]; [done|]. destruct l as [|w' l]; [by apply Split_plain|].
  change (join_with sep (w :: w' :: l)) with (w +:+ String sep (join_with sep (w' :: l))).
  rewrite Split_cons by done. by rewrite IH.
Qed.

Lemma Cut_join sep a b : has_byte sep a = false → Cut sep (a +:+ String sep b) = Some (a, b).
Proof.
  intros Ha. unfold Cut.
  assert (index_byte sep (a +:+ String sep b) = Some (String.length a)) as ->.
  { induction a as [|c a IH]; [rewrite str_app_nil_l; cbn; by rewrite bool_decide_eq_true_2|]. cbn in Ha. apply orb_false_iff in Ha as [Hc Ha].
    rewrite str_app_cons. cbn. by rewrite Hc, IH. }
  by rewrite str_take_app, str_drop_app_S.
Qed.

Lemma Cut_None sep s : has_byte sep s = false → Cut sep s = None.
Proof.
  intros Hs. unfold Cut. assert (index_byte sep s = None) as ->; [|done].
  induction s as [|c s IH]; [done|]. cbn in *. apply orb_false_iff in Hs as [-> Hs]. by rewrite IH.
Qed.

(** ** net/url *)

(** What is being escaped: a path segment or a query component. *)
Inductive url_mode := PathSegment | QueryComponent.

Definition is_alnum (c : ascii) : bool :=
  let b := byte_of c in
  bool_decide (97 ≤ b ≤ 122) || bool_decide (65 ≤ b ≤ 90) || bool_decide (48 ≤ b ≤ 57).

Definition one_of (l : list ascii) (c : ascii) : bool := bool_decide (c ∈ l).

(** [shouldEscape] for the two modes. *)
Definition should_escape (m : url_mode) (c : ascii) : bool :=
  if is_alnum c then false
  else if one_of ["-"; "_"; "."; "~"]%char c then false
  else if one_of ["$"; "&"; "+"; ","; "/"; ":"; ";"; "="; "?"; "@"]%char c then
    match m with
    | PathSegment => one_of ["/"; ";"; ","; "?"]%char c
    | QueryComponent => true
    end
  else true.

Definition upper_hex (d : Z) : ascii := if bool_decide (d < 10) then chr (48 + d) else chr (55 + d).

Fixpoint escape (m : url_mode) (s : string) : string :=
  match s with
  | EmptyString => ""
  | String c s' =>
      if should_escape m c then
        match m with
        | QueryComponent =>
            if bool_decide (c = " "%char) then String "+" (escape m s')
            else String "%" (String (upper_hex (byte_of c / 16)) (String (upper_hex (byte_of c mod 16)) (escape m s')))
        | PathSegment =>
            String "%" (String (upper_hex (byte_of c / 16)) (String (upper_hex (byte_of c mod 16)) (escape m s')))
        end
      else String c (escape m s')
  end.

Definition PathEscape : string → string := escape PathSegment.
Definition QueryEscape : string → string := escape QueryComponent.

Definition unhex (c : ascii) : option Z :=
  let b := byte_of c in
  if bool_decide (48 ≤ b ≤ 57) then Some (b - 48)
  else if bool_decide (97 ≤ b ≤ 102) then Some (b - 87)
  else if bool_decide (65 ≤ b ≤ 70) then Some (b - 55)
  else None.

(** [PathUnescape], [QueryUnescape]: what the server does with a part. *)
Fixpoint unescape (m : url_mode) (s : string) : option string :=
  match s with
  | EmptyString => Some ""
  | String "%" (String a (String b s')) =>
      match unhex a, unhex b, unescape m s' with
      | Some x, Some y, Some r => Some (String (chr (x * 16 + y)) r)
      | _, _, _ => None
      end
  | String "%" _ => None
  | String c s' =>
      let c' := match m with QueryComponent => if bool_decide (c = "+"%char) then " "%char else c | PathSegment => c end in
      String c' <$> unescape m s'
  end.

Lemma unhex_upper d : 0 ≤ d < 16 → unhex (upper_hex d) = Some d.
Proof.
  intros Hd. assert (Hall : forallb (λ d, bool_decide (unhex (upper_hex d) = Some d)) (seqZ 0 16) = true)
    by (vm_compute; reflexivity).
  rewrite forallb_forall in Hall. apply (bool_decide_unpack _). rewrite (Hall d); [done|].
  apply list_elem_of_In, elem_of_seqZ. lia.
Qed.

(** What the escape of one byte looks like. *)
Lemma unescape_byte m c s r :
  unescape m s = Some r →
  unescape m (String "%" (String (upper_hex (byte_of c / 16)) (String (upper_hex (byte_of c mod 16)) s))) = Some (String c r).
Proof.
  intros Hs. pose proof (byte_of_range c) as Hc. cbn [unescape].
  rewrite (unhex_upper (byte_of c / 16)) by (split; [apply Z.div_pos|apply Z.div_lt_upper_bound]; lia).
  rewrite (unhex_upper (byte_of c mod 16)) by (apply Z.mod_pos_bound; lia).
  rewrite Hs. replace (byte_of c / 16 * 16 + byte_of c mod 16) with (byte_of c) by (pose proof (Z.div_mod (byte_of c) 16); lia).
  by rewrite chr_byte_of.
Qed.

Lemma unescape_plain m c s :
  should_escape m c = false → unescape m (String c s) = String c <$> unescape m s.
Proof.
  destruct m, c as [[] [] [] [] [] [] [] []]; first [intros _; reflexivity|intros Hc; vm_compute in Hc; discriminate].
Qed.

(** Unescaping undoes escaping. *)
Lemma unescape_escape m s : unescape m (escape m s) = Some s.
Proof.
  induction s as [|c s IH]; [done|]. cbn [escape]. destruct (should_escape m c) eqn:Hc.
  - destruct m; [by apply unescape_byte|]. case_bool_decide as Hsp; [|by apply unescape_byte].
    subst c. cbn. by rewrite IH.
  - by rewrite unescape_plain, IH.
Qed.

(** A byte that must be escaped does not occur in the escaped text, unless it is
    one the escapes are written with. *)
Lemma escape_no_byte m d s :
  should_escape m d = true → d ≠ "%"%char → d ≠ "+"%char → has_byte d (escape m s) = false.
Proof.
  intros Hd Hp Hq.
  assert (Hhex : ∀ k, 0 ≤ k < 16 → d ≠ upper_hex k).
  { intros k Hk ->. assert (Hall : forallb (λ k, negb (should_escape m (upper_hex k))) (seqZ 0 16) = true)
      by (destruct m; vm_compute; reflexivity).
    rewrite forallb_forall in Hall. specialize (Hall k). rewrite Hd in Hall.
    discriminate Hall. apply list_elem_of_In, elem_of_seqZ. lia. }
  induction s as [|c s IH]; [done|]. pose proof (byte_of_range c) as Hc.
  assert (Hesc : has_byte d (String "%" (String (upper_hex (byte_of c / 16)) (String (upper_hex (byte_of c mod 16)) (escape m s)))) = false).
  { cbn [has_byte]. rewrite IH, !bool_decide_eq_false_2; [done|..|done]; apply Hhex;
      [apply Z.mod_pos_bound; lia|split; [apply Z.div_pos|apply Z.div_lt_upper_bound]; lia]. }
  cbn [escape]. destruct (should_escape m c) eqn:E.
  - destruct m; [done|]. case_bool_decide; [|done]. cbn. by rewrite IH, bool_decide_eq_false_2.
  - cbn. rewrite IH, bool_decide_eq_false_2; [done|]. intros ->. congruence.
Qed.
