(* ===== verification/KubeApi.v ===== *)
(** * Requests to the API server

    Model of the request side of src/internal/aggregator/discovery: the
    configuration the two watchers start with, the TLS client, the bearer token,
    and the list and watch URLs.  What a request meets on the way (token file,
    transport, status, body) is an argument. *)
From Stdlib Require Import Ascii.
From stdpp Require Import base numbers strings list.
From S2P Require Import Prelude GoStr Json GoText.
Local Open Scope Z_scope.

(** ** Configuration *)

Definition defaultAPIServer : string := "https://kubernetes.default.svc".
Definition defaultCAFile : string := "/var/run/secrets/kubernetes.io/serviceaccount/ca.crt".
Definition defaultTokenFile : string := "/var/run/secrets/kubernetes.io/serviceaccount/token".

(** What both watchers are configured with. *)
Record api_conf := mkApiConf {
  APIServer : string;
  CAFile : string;
  TokenFile : string;
  ReconnectBackoff : Z;
}.

Definition or_default (d s : string) : string := if bool_decide (s = "") then d else s.

Definition api_defaults (c : api_conf) : api_conf :=
  mkApiConf (or_default defaultAPIServer (APIServer c)) (or_default defaultCAFile (CAFile c))
    (or_default defaultTokenFile (TokenFile c))
    (if bool_decide (ReconnectBackoff c = 0) then 2 * 10 ^ 9 else ReconnectBackoff c).

Inductive api_err := ErrNoTarget | ErrNoIndex | ErrReadCA | ErrNoPEM.

(** The CA file: [None] when it cannot be read, else whether it holds a
    certificate. *)
Definition buildClient (ca : option bool) : option api_err :=
  match ca with
  | None => Some ErrReadCA
  | Some false => Some ErrNoPEM
  | Some true => None
  end.

Record EndpointSliceWatcher := mkEndpointSliceWatcher {
  esw_conf : api_conf;
  esw_Namespace : string;
  esw_ServiceName : string;
  esw_TargetPort : Z;
}.

(** [EndpointSliceWatcher.Run] up to the start of its loop; [client] is a preset
    HTTP client, [ca] what is found under a CA file name. *)
Definition agent_Run (client : bool) (ca : string → option bool) (w : EndpointSliceWatcher)
    : EndpointSliceWatcher + api_err :=
  if bool_decide (esw_Namespace w = "") || bool_decide (esw_ServiceName w = "") then inr ErrNoTarget
  else
    let c := api_defaults (esw_conf w) in
    let w' := mkEndpointSliceWatcher c (esw_Namespace w) (esw_ServiceName w) (esw_TargetPort w) in
    if client then inl w'
    else match buildClient (ca (CAFile c)) with Some e => inr e | None => inl w' end.

Definition resource := string.
Definition services_path : resource := "/api/v1/services".
Definition slices_path : resource := "/apis/discovery.k8s.io/v1/endpointslices".
Definition pods_path : resource := "/api/v1/pods".

(** [ServiceWatcher.Run]: the configuration its loops use, and the resources
    they watch. *)
Definition service_Run (client : bool) (ca : string → option bool) (has_index has_pods : bool) (c : api_conf)
    : (api_conf * list resource) + api_err :=
  if negb has_index then inr ErrNoIndex
  else
    let c' := api_defaults c in
    let ok := inl (c', services_path :: slices_path :: (if has_pods then [pods_path] else [])) in
    if client then ok
    else match buildClient (ca (CAFile c')) with Some e => inr e | None => ok end.

(** ** Requests *)

(** [token]: the contents of the token file, if it can be read. *)
Definition bearerAuth (token : option string) : option string :=
  (λ t, "Bearer " +:+ TrimSpace t) <$> token.

Record request := mkRequest { q_url : string; q_auth : string }.

(** What one GET meets: whether the URL parses, the token file, and the response
    with its status, or a transport error. *)
Record http_io (B : Type) := mkHttpIO {
  h_url_ok : bool;
  h_token : option string;
  h_resp : option (Z * B);
}.
Arguments mkHttpIO {_} _ _ _.
Arguments h_url_ok {_} _.
Arguments h_token {_} _.
Arguments h_resp {_} _.

(** The requests sent and the body, when the status is below 400. *)
Definition http_get {B} (url : string) (io : http_io B) : list request * option B :=
  if negb (h_url_ok io) then ([], None)
  else match bearerAuth (h_token io) with
       | None => ([], None)
       | Some auth =>
           ([mkRequest url auth],
            match h_resp io with
            | Some (status, b) => if bool_decide (400 ≤ status) then None else Some b
            | None => None
            end)
       end.

(** ** URLs *)

Definition service_selector (svc : string) : string := "kubernetes.io/service-name=" +:+ svc.

Definition agent_list_url (w : EndpointSliceWatcher) : string :=
  APIServer (esw_conf w) +:+ "/apis/discovery.k8s.io/v1/namespaces/" +:+ PathEscape (esw_Namespace w) +:+
  "/endpointslices?labelSelector=" +:+ QueryEscape (service_selector (esw_ServiceName w)).

Definition agent_watch_url (w : EndpointSliceWatcher) (rv : string) : string :=
  APIServer (esw_conf w) +:+ "/apis/discovery.k8s.io/v1/namespaces/" +:+ PathEscape (esw_Namespace w) +:+
  "/endpointslices?labelSelector=" +:+ QueryEscape (service_selector (esw_ServiceName w)) +:+
  "&resourceVersion=" +:+ QueryEscape rv +:+ "&watch=true&allowWatchBookmarks=true".

Definition list_url (c : api_conf) (path : resource) : string := APIServer c +:+ path.

Definition watch_url (c : api_conf) (path : resource) (rv : string) : string :=
  APIServer c +:+ path +:+ "?resourceVersion=" +:+ rv +:+ "&watch=true&allowWatchBookmarks=true".

(** ** How the server reads a URL

    Path segments and query parameters, unescaped. *)

Definition parse_param (p : string) : option (string * string) :=
  match Cut "=" p with
  | Some (k, v) =>
      match unescape QueryComponent k, unescape QueryComponent v with
      | Some k', Some v' => Some (k', v')
      | _, _ => None
      end
  | None => (λ k, (k, "")) <$> unescape QueryComponent p
  end.

Definition parse_target (u : string) : option (list string * list (string * string)) :=
  let '(p, q) := match Cut "?" u with Some pq => (pq.1, Some pq.2) | None => (u, None) end in
  match mapM (unescape PathSegment) (Split "/" p),
        match q with Some q => mapM parse_param (Split "&" q) | None => Some [] end with
  | Some segs, Some params => Some (segs, params)
  | _, _ => None
  end.

(** The request's target as the server at [base] reads it. *)
Definition server_reads (base url : string) : option (list string * list (string * string)) :=
  strip_prefix base url ≫= parse_target.

Lemma strip_prefix_app p s : strip_prefix p (p +:+ s) = Some s.
Proof.
  induction p as [|c p IH]; [done|]. rewrite str_app_cons. cbn. by rewrite bool_decide_eq_true_2.
Qed.

Lemma parse_param_escaped k v :
  has_byte "=" k = false → unescape QueryComponent k = Some k →
  parse_param (k +:+ String "=" (QueryEscape v)) = Some (k, v).
Proof.
  intros Hk Hu. unfold parse_param. rewrite Cut_join by done. by rewrite Hu, unescape_escape.
Qed.

(** A URL whose query is made of parameters with escaped values. *)
Lemma parse_target_join segs segs' params params' :
  segs ≠ [] → params ≠ [] →
  Forall (λ s, has_byte "/" s = false ∧ has_byte "?" s = false) segs → mapM (unescape PathSegment) segs = Some segs' →
  Forall (λ p, has_byte "&" p = false) params → mapM parse_param params = Some params' →
  parse_target (join_with "/" segs +:+ String "?" (join_with "&" params)) = Some (segs', params').
Proof.
  intros Hs0 Hp0 Hs Hus Hp Hup. unfold parse_target.
  assert (Hq : has_byte "?" (join_with "/" segs) = false).
  { clear -Hs. induction Hs as [|s l [_ Hq] Hl IH]; [done|]. destruct l as [|s' l]; [done|].
    change (join_with "/" (s :: s' :: l)) with (s +:+ String "/" (join_with "/" (s' :: l))).
    rewrite has_byte_app, Hq. cbn [has_byte]. by rewrite IH. }
  rewrite Cut_join by done. cbn [fst snd]. rewrite !Split_join; [|done..|].
  - by rewrite Hus, Hup.
  - eapply Forall_impl; [exact Hs|]. by intros ? [? _].
Qed.

Section request.
Context (ns sel rv : string).

Definition slice_segs : list string :=
  [""; "apis"; "discovery.k8s.io"; "v1"; "namespaces"; PathEscape ns; "endpointslices"].

Lemma slice_segs_ok :
  Forall (λ s, has_byte "/" s = false ∧ has_byte "?" s = false) slice_segs ∧
  mapM (unescape PathSegment) slice_segs =
    Some [""; "apis"; "discovery.k8s.io"; "v1"; "namespaces"; ns; "endpointslices"].
Proof.
  unfold slice_segs, PathEscape. split.
  - repeat (constructor; [split; first [done|by apply escape_no_byte]|]). constructor.
  - cbn [mapM]. rewrite unescape_escape. reflexivity.
Qed.

Lemma slice_path_app t :
  join_with "/" slice_segs +:+ t =
    "/apis/discovery.k8s.io/v1/namespaces/" +:+ PathEscape ns +:+ "/endpointslices" +:+ t.
Proof.
  transitivity ("/apis/discovery.k8s.io/v1/namespaces/" +:+ ((PathEscape ns +:+ "/endpointslices") +:+ t)); [reflexivity|].
  by rewrite str_app_assoc.
Qed.

Definition escaped_param (k v : string) : string := k +:+ String "=" (QueryEscape v).

Lemma escaped_param_ok k v :
  has_byte "=" k = false → has_byte "&" k = false → unescape QueryComponent k = Some k →
  has_byte "&" (escaped_param k v) = false ∧ parse_param (escaped_param k v) = Some (k, v).
Proof.
  intros H1 H2 H3. split; [|by apply parse_param_escaped].
  unfold escaped_param. rewrite has_byte_app, H2. cbn. by apply escape_no_byte.
Qed.

Lemma list_target :
  parse_target ("/apis/discovery.k8s.io/v1/namespaces/" +:+ PathEscape ns +:+
    "/endpointslices?labelSelector=" +:+ QueryEscape sel) =
  Some ([""; "apis"; "discovery.k8s.io"; "v1"; "namespaces"; ns; "endpointslices"], [("labelSelector", sel)]).
Proof.
  destruct slice_segs_ok as [Hs Hu]. destruct (escaped_param_ok "labelSelector" sel) as [Hp Hq]; [done..|].
  rewrite <-(parse_target_join slice_segs _ [escaped_param "labelSelector" sel] [("labelSelector", sel)]).
  - by rewrite slice_path_app.
  - done.
  - done.
  - done.
  - done.
  - by constructor.
  - cbn [mapM]. by rewrite Hq.
Qed.

Lemma watch_target_read :
  parse_target ("/apis/discovery.k8s.io/v1/namespaces/" +:+ PathEscape ns +:+
    "/endpointslices?labelSelector=" +:+ QueryEscape sel +:+
    "&resourceVersion=" +:+ QueryEscape rv +:+ "&watch=true&allowWatchBookmarks=true") =
  Some ([""; "apis"; "discovery.k8s.io"; "v1"; "namespaces"; ns; "endpointslices"],
        [("labelSelector", sel); ("resourceVersion", rv); ("watch", "true"); ("allowWatchBookmarks", "true")]).
Proof.
  destruct slice_segs_ok as [Hs Hu]. destruct (escaped_param_ok "labelSelector" sel) as [Hp Hq]; [done..|].
  destruct (escaped_param_ok "resourceVersion" rv) as [Hp' Hq']; [done..|].
  rewrite <-(parse_target_join slice_segs _
    [escaped_param "labelSelector" sel; escaped_param "resourceVersion" rv; "watch=true"; "allowWatchBookmarks=true"]
    [("labelSelector", sel); ("resourceVersion", rv); ("watch", "true"); ("allowWatchBookmarks", "true")]).
  - by rewrite slice_path_app.
  - done.
  - done.
  - done.
  - done.
  - by repeat constructor.
  - cbn [mapM]. by rewrite Hq, Hq'.
Qed.
End request.

(** Whatever the namespace, the Service name and the resource version are,
    the server reads the list and watch requests as ones for the EndpointSlices
    of exactly that namespace, selected by exactly that Service, from exactly that
    version: nothing in them can change the path or add a parameter. *)
Theorem agent_request_faithful (w : EndpointSliceWatcher) rv :
  let path := [""; "apis"; "discovery.k8s.io"; "v1"; "namespaces"; esw_Namespace w; "endpointslices"] in
  let selector := ("labelSelector", service_selector (esw_ServiceName w)) in
  server_reads (APIServer (esw_conf w)) (agent_list_url w) = Some (path, [selector]) ∧
  server_reads (APIServer (esw_conf w)) (agent_watch_url w rv) =
    Some (path, [selector; ("resourceVersion", rv); ("watch", "true"); ("allowWatchBookmarks", "true")]).
Proof.
  unfold server_reads, agent_list_url, agent_watch_url. rewrite !strip_prefix_app. cbn [mbind option_bind].
  split; [apply list_target|apply watch_target_read].
Qed.

(** The cluster-wide watch puts the resource version into its URL as it is: one
    with an ampersand reads as more parameters. *)
Lemma service_watch_rv_raw :
  server_reads "" (watch_url (mkApiConf "" "" "" 0) pods_path "7&watch=false") =
    Some ([""; "api"; "v1"; "pods"],
          [("resourceVersion", "7"); ("watch", "false"); ("watch", "true"); ("allowWatchBookmarks", "true")]).
Proof. vm_compute. reflexivity. Qed.
