(* ===== verification/Metrics.v ===== *)
(** * Prometheus metrics

    Model of src/internal/aggregator/metrics.go: the described series, and the
    samples a scrape emits from one snapshot of the statistics.  A descriptor is
    its metric name (the help texts are not modelled); [float64] is the Go
    conversion from a 64-bit integer, rounding to the nearest even. *)
From stdpp Require Import base numbers gmap strings fin_maps list.
From S2P Require Import Prelude ClusterPeers Aggregator.
Local Open Scope Z_scope.

(** ** float64 *)

(** Drop the bits below the 53 most significant ones, rounding half to even. *)
Definition float64 (z : Z) : Z :=
  let e := Z.log2 z - 52 in
  if bool_decide (e ≤ 0) then z
  else
    let q := z / 2 ^ e in
    let r := z mod 2 ^ e in
    let up := bool_decide (2 ^ (e - 1) < r) || bool_decide (r = 2 ^ (e - 1)) && Z.odd q in
    (if up then q + 1 else q) * 2 ^ e.

(** ** The collector *)

Inductive ValueType := CounterValue | GaugeValue.

Record PromCollector := mkPromCollector {
  p_received : string;
  p_written : string;
  p_dropped : string;
  p_errors : string;
  p_walAppends : string;
  p_walErrors : string;
  p_walLastSeq : string;
  p_subDrops : string;
  p_subscribers : string;
  p_xnodeJoins : string;
  p_xnodeMisses : string;
  p_vipJoins : string;
  p_registrySize : string;
  p_epsliceEntries : string;
  p_servicesWatched : string;
}.

Definition NewPromCollector : PromCollector := mkPromCollector
  "kloudlens_aggregator_received_total"
  "kloudlens_aggregator_written_total"
  "kloudlens_aggregator_dropped_total"
  "kloudlens_aggregator_errors_total"
  "kloudlens_aggregator_wal_appends_total"
  "kloudlens_aggregator_wal_errors_total"
  "kloudlens_aggregator_wal_last_seq"
  "kloudlens_aggregator_subscriber_dropped_total"
  "kloudlens_aggregator_subscribers_active"
  "kloudlens_agg_xnode_joins_total"
  "kloudlens_agg_xnode_misses_total"
  "kloudlens_agg_vip_joins_total"
  "kloudlens_agg_listener_registry_size"
  "kloudlens_agg_endpointslice_entries"
  "kloudlens_agg_services_watched".

Definition Describe (c : PromCollector) : list string :=
  [p_received c; p_written c; p_dropped c; p_errors c; p_walAppends c; p_walErrors c; p_walLastSeq c;
   p_subDrops c; p_subscribers c; p_xnodeJoins c; p_xnodeMisses c; p_vipJoins c; p_registrySize c;
   p_epsliceEntries c; p_servicesWatched c].

Record Sample := mkSample { m_name : string; m_type : ValueType; m_value : Z }.

Definition MustNewConstMetric (name : string) (t : ValueType) (v : Z) : Sample := mkSample name t v.

Definition samples (c : PromCollector) (s : AggStats) : list Sample :=
  let k := s_Counters s in
  [MustNewConstMetric (p_received c) CounterValue (float64 (received k));
   MustNewConstMetric (p_written c) CounterValue (float64 (written k));
   MustNewConstMetric (p_dropped c) CounterValue (float64 (dropped k));
   MustNewConstMetric (p_errors c) CounterValue (float64 (c_errors k));
   MustNewConstMetric (p_walAppends c) CounterValue (float64 (walAppends k));
   MustNewConstMetric (p_walErrors c) CounterValue (float64 (walErrors k));
   MustNewConstMetric (p_walLastSeq c) GaugeValue (float64 (s_WALLastSeq s));
   MustNewConstMetric (p_subDrops c) CounterValue (float64 (s_SubscriberDropped s));
   MustNewConstMetric (p_subscribers c) GaugeValue (float64 (s_Subscribers s));
   MustNewConstMetric (p_xnodeJoins c) CounterValue (float64 (xnodeJoins k));
   MustNewConstMetric (p_xnodeMisses c) CounterValue (float64 (xnodeMisses k));
   MustNewConstMetric (p_vipJoins c) CounterValue (float64 (vipJoins k));
   MustNewConstMetric (p_registrySize c) GaugeValue (float64 (s_ListenerRegistrySize s));
   MustNewConstMetric (p_epsliceEntries c) GaugeValue (float64 (s_EndpointSliceEntries s));
   MustNewConstMetric (p_servicesWatched c) GaugeValue (float64 (s_ServicesWatched s))].

(** A scrape takes one snapshot, which sweeps the registry. *)
Definition Collect (c : PromCollector) (now : Z) (len nsvc : option Z) (a : Aggregator) : Aggregator * list Sample :=
  let '(a', s) := agg_Stats now len nsvc a in (a', samples c s).

(** ** Properties *)

Lemma float64_exact z : 0 ≤ z < 2 ^ 53 → float64 z = z.
Proof.
  intros Hz. unfold float64. rewrite bool_decide_eq_true_2; [done|].
  destruct (decide (z = 0)) as [->|Hne]; [done|]. assert (Z.log2 z < 53); [|lia]. apply Z.log2_lt_pow2; lia.
Qed.

(** Rounding up the quotient of [z] by [2^e] when the remainder says so. *)
Lemma round_even_bounds z e :
  0 < e → 0 ≤ z →
  let q := z / 2 ^ e in
  let r := z mod 2 ^ e in
  let up := bool_decide (2 ^ (e - 1) < r) || bool_decide (r = 2 ^ (e - 1)) && Z.odd q in
  Z.abs ((if up then q + 1 else q) * 2 ^ e - z) ≤ 2 ^ (e - 1).
Proof.
  intros He Hz q r up.
  assert (Hp : 2 ^ e = 2 * 2 ^ (e - 1)) by (rewrite <-Z.pow_succ_r by lia; f_equal; lia).
  assert (H0 : 0 < 2 ^ (e - 1)) by lia.
  pose proof (Z.div_mod z (2 ^ e) ltac:(lia)) as Hdm. pose proof (Z.mod_pos_bound z (2 ^ e) ltac:(lia)) as Hr.
  fold q r in Hdm, Hr. destruct up eqn:Hup; unfold up in Hup.
  - assert (2 ^ (e - 1) ≤ r); [|nia].
    apply orb_true_iff in Hup as [H|[H _]%andb_true_iff]; apply bool_decide_eq_true in H; lia.
  - apply orb_false_iff in Hup as [H _]. apply bool_decide_eq_false in H. nia.
Qed.

(** The conversion is off by less than one part in 2^53. *)
Lemma float64_error z : 0 ≤ z → Z.abs (float64 z - z) * 2 ^ 53 ≤ z.
Proof.
  intros Hz. unfold float64. case_bool_decide as He; [replace (z - z) with 0 by lia; lia|].
  set (e := Z.log2 z - 52) in *. pose proof (round_even_bounds z e ltac:(lia) Hz) as Hb. cbn zeta in Hb.
  assert (Hz0 : 0 < z). { destruct (decide (z = 0)) as [->|]; [|lia]. unfold e in He. cbn in He. lia. }
  pose proof (Z.log2_spec z Hz0) as [Hlo _].
  assert (Hpow : 2 ^ (e - 1) * 2 ^ 53 = 2 ^ Z.log2 z) by (rewrite <-Z.pow_add_r by lia; f_equal; lia).
  nia.
Qed.

(** The statistics in the order of their series. *)
Definition statistics (s : AggStats) : list Z :=
  let k := s_Counters s in
  [received k; written k; dropped k; c_errors k; walAppends k; walErrors k; s_WALLastSeq s; s_SubscriberDropped s;
   s_Subscribers s; xnodeJoins k; xnodeMisses k; vipJoins k; s_ListenerRegistrySize s; s_EndpointSliceEntries s;
   s_ServicesWatched s].

(** C39: a scrape emits exactly the described series, in the order they are
    described and under pairwise distinct names; a value below 2^53 is the
    statistic itself, a larger one is within one part in 2^53 of it. *)
Theorem scrape_matches_description now len nsvc a :
  let c := NewPromCollector in
  let ms := (Collect c now len nsvc a).2 in
  let s := (agg_Stats now len nsvc a).2 in
  m_name <$> ms = Describe c ∧ NoDup (Describe c) ∧ length ms = length (statistics s) ∧
  ∀ i m v, ms !! i = Some m → statistics s !! i = Some v → 0 ≤ v →
    (v < 2 ^ 53 → m_value m = v) ∧ Z.abs (m_value m - v) * 2 ^ 53 ≤ v.
Proof.
  intros c ms s.
  assert (E : ms = samples c s) by (unfold ms, s, Collect; by destruct (agg_Stats now len nsvc a)).
  rewrite E. clearbody s. split_and!; [done|apply (bool_decide_unpack _); vm_compute; done|done|].
  assert (Hv : m_value <$> samples c s = float64 <$> statistics s) by done.
  intros i m v Hm Hs Hv0. apply (f_equal (.!! i)) in Hv. rewrite !list_lookup_fmap, Hm, Hs in Hv.
  injection Hv as ->. split; [intros ?; by apply float64_exact|by apply float64_error].
Qed.
