(* ===== verification/Watcher.v ===== *)
(** * The watch loops

    Model of the loops of src/internal/aggregator/discovery: [watchLoop] of
    service.go with its [list] and [watch], [loop] of endpointslice.go with its
    [list] and [watchUntilErr], and the goroutines [ServiceWatcher.Run] starts on
    the shared indexes.  The two loops have one shape, which is a section over
    the state they keep; an iteration takes from its arguments what its two
    requests meet and whether the context is cancelled when it starts. *)
From Stdlib Require Import Ascii.
From stdpp Require Import base numbers gmap strings sorting relations fin_maps list.
From S2P Require Import Prelude GoStr Json K8s Discovery AgentDiscovery DiscoverySpec GoText KubeApi.
Local Open Scope Z_scope.

(** ** One loop *)

(** A watch response: the lines, each with whether the context is cancelled when
    it is read, and whether the scanner ends without an error. *)
Definition stream (Line : Type) : Type := list (bool * Line) * bool.

(** What one iteration meets: the list body is a JSON document unless it does not
    parse. *)
Record round (Line : Type) := mkRound {
  rd_cancelled : bool;
  rd_list : http_io (option json);
  rd_watch : http_io (stream Line);
}.
Arguments mkRound {_} _ _ _.
Arguments rd_cancelled {_} _.
Arguments rd_list {_} _.
Arguments rd_watch {_} _.

(** What a loop does: send a request, hand on a state, wait for the backoff. *)
Inductive wact (St : Type) := WRequest (q : request) | WApply (st : St) | WSleep.
Arguments WRequest {_} _.
Arguments WApply {_} _.
Arguments WSleep {_}.

Section loop.
Context {St Line : Type}.
(** The list and watch URLs, the decoding of a list body into the state it
    replaces the old one with and its resource version, and the scan of a watch
    stream. *)
Context (lurl : string) (wurl : string → string) (decode : json → option (St * string)).
Context (scan : list (bool * Line) → bool → St → list St → St * list St * watch_end).

Definition sends (qs : list request) : list (wact St) := WRequest <$> qs.
Definition applies (sts : list St) : list (wact St) := WApply <$> sts.

(** The listed state and its resource version. *)
Definition listed (io : http_io (option json)) : option (St * string) :=
  match (http_get lurl io).2 with Some (Some j) => decode j | _ => None end.

(** [list]: on any failure the state stays as it is. *)
Definition do_list (io : http_io (option json)) (st : St) : list (wact St) * St * option string :=
  match listed io with
  | Some (st', rv) => (sends (http_get lurl io).1, st', Some rv)
  | None => (sends (http_get lurl io).1, st, None)
  end.

(** [watch]: the flag tells whether an error is returned. *)
Definition do_watch (rv : string) (io : http_io (stream Line)) (st : St) : list (wact St) * St * bool :=
  let '(qs, body) := http_get (wurl rv) io in
  match body with
  | None => (sends qs, st, true)
  | Some (lines, scan_ok) =>
      let '(st', applied, e) := scan lines scan_ok st [] in
      (sends qs ++ applies applied, st', watch_err e)
  end.

(** One iteration that finds the context alive. *)
Definition do_round (r : round Line) (st : St) : list (wact St) * St :=
  match do_list (rd_list r) st with
  | (a1, st1, None) => (a1 ++ [WSleep], st1)
  | (a1, st1, Some rv) =>
      let '(a2, st2, err) := do_watch rv (rd_watch r) st1 in
      (a1 ++ WApply st1 :: a2 ++ (if (err : bool) then [WSleep] else []), st2)
  end.

Fixpoint run_loop (rs : list (round Line)) (st : St) : list (wact St) * St :=
  match rs with
  | [] => ([], st)
  | r :: rs' =>
      if rd_cancelled r then ([], st)
      else let '(a1, st1) := do_round r st in
           let '(a2, st2) := run_loop rs' st1 in
           (a1 ++ a2, st2)
  end.

(** ** What a loop hands on *)

Definition applied_of (acts : list (wact St)) : list St :=
  omap (λ a, match a with WApply st => Some st | _ => None end) acts.
Definition requests_of (acts : list (wact St)) : list request :=
  omap (λ a, match a with WRequest q => Some q | _ => None end) acts.
Definition sleeps (acts : list (wact St)) : nat :=
  length (filter (λ a, a = true) ((λ a, match a with WSleep => true | _ => false end) <$> acts)).

(** The round lists this state and resource version. *)
Definition lists (r : round Line) (st : St) (rv : string) : Prop :=
  ∃ j, (http_get lurl (rd_list r)).2 = Some (Some j) ∧ decode j = Some (st, rv).

(** The round's watch delivers these lines. *)
Definition watched (r : round Line) (rv : string) (lines : list (bool * Line)) (scan_ok : bool) : Prop :=
  (http_get (wurl rv) (rd_watch r)).2 = Some (lines, scan_ok).

(** A state that round [r] can hand on: the listed one, or one its watch reached
    from there. *)
Definition from_round (r : round Line) (st : St) : Prop :=
  ∃ st0 rv, lists r st0 rv ∧
    (st = st0 ∨ ∃ lines scan_ok, watched r rv lines scan_ok ∧ st ∈ (scan lines scan_ok st0 []).1.2).

Lemma applied_app a1 a2 : applied_of (a1 ++ a2) = applied_of a1 ++ applied_of a2.
Proof. apply omap_app. Qed.
Lemma requests_app a1 a2 : requests_of (a1 ++ a2) = requests_of a1 ++ requests_of a2.
Proof. apply omap_app. Qed.

Lemma applied_requests qs : applied_of (sends qs) = [].
Proof. unfold applied_of, sends. by induction qs. Qed.
Lemma applied_apply l : applied_of (applies l) = l.
Proof. unfold applied_of, applies. induction l as [|x l IH]; [done|]. cbn. by f_equal. Qed.
Lemma requests_requests qs : requests_of (sends qs) = qs.
Proof. unfold requests_of, sends. induction qs as [|q qs IH]; [done|]. cbn. by f_equal. Qed.
Lemma requests_apply l : requests_of (applies l) = [].
Proof. unfold requests_of, applies. by induction l. Qed.

(** What a round hands on depends on nothing before it. *)
Definition round_applied (r : round Line) : list St :=
  match listed (rd_list r) with
  | None => []
  | Some (st0, rv) =>
      st0 :: match (http_get (wurl rv) (rd_watch r)).2 with
             | None => []
             | Some (lines, scan_ok) => (scan lines scan_ok st0 []).1.2
             end
  end.

(** Whether a round ends in a wait. *)
Definition round_fails (r : round Line) : bool :=
  match listed (rd_list r) with
  | None => true
  | Some (st0, rv) =>
      match (http_get (wurl rv) (rd_watch r)).2 with
      | None => true
      | Some (lines, scan_ok) => watch_err (scan lines scan_ok st0 []).2
      end
  end.

Lemma sleeps_app a1 a2 : sleeps (a1 ++ a2) = (sleeps a1 + sleeps a2)%nat.
Proof. unfold sleeps. by rewrite fmap_app, filter_app, length_app. Qed.

Lemma sleeps_requests qs : sleeps (sends qs) = 0%nat.
Proof. unfold sleeps, sends. by induction qs. Qed.
Lemma sleeps_apply l : sleeps (applies l) = 0%nat.
Proof. unfold sleeps, applies. by induction l. Qed.

Lemma do_round_spec r st :
  applied_of (do_round r st).1 = round_applied r ∧
  sleeps (do_round r st).1 = (if round_fails r then 1 else 0)%nat.
Proof.
  unfold do_round, do_list, round_applied, round_fails.
  destruct (listed (rd_list r)) as [[st0 rv]|]; cbn [fst snd fmap option_fmap option_map].
  - unfold do_watch. destruct (http_get (wurl rv) (rd_watch r)) as [qs body]. cbn [fst snd].
    destruct body as [[lines scan_ok]|]; [destruct (scan lines scan_ok st0 []) as [[st' ap] e]; cbn [fst snd]|];
      cbn [fst]; rewrite !applied_app, !sleeps_app, applied_requests, sleeps_requests;
      change (applied_of (?x :: ?l)) with (applied_of [x] ++ applied_of l).
    + change (sleeps (WApply st0 :: ?l)) with (sleeps l). split.
      * cbn [app]. change (applied_of (WApply st0 :: ?l)) with (st0 :: applied_of l).
        rewrite !applied_app, applied_requests, applied_apply. by destruct (watch_err e); cbn; rewrite app_nil_r.
      * rewrite !sleeps_app, sleeps_requests, sleeps_apply. by destruct (watch_err e).
    + change (sleeps (WApply st0 :: ?l)) with (sleeps l). split.
      * cbn [app]. change (applied_of (WApply st0 :: ?l)) with (st0 :: applied_of l).
        by rewrite applied_app, applied_requests.
      * by rewrite sleeps_app, sleeps_requests.
  - cbn [fst]. by rewrite applied_app, sleeps_app, applied_requests, sleeps_requests.
Qed.

Lemma run_loop_app rs1 rs2 st :
  Forall (λ r, rd_cancelled r = false) rs1 →
  run_loop (rs1 ++ rs2) st =
    ((run_loop rs1 st).1 ++ (run_loop rs2 (run_loop rs1 st).2).1, (run_loop rs2 (run_loop rs1 st).2).2).
Proof.
  intros Hc. revert st. induction Hc as [|r rs1 Hr Hc IH]; intros st; cbn; [by destruct (run_loop rs2 st)|].
  rewrite Hr. destruct (do_round r st) as [a1 st1]. rewrite IH.
  destruct (run_loop rs1 st1) as [a2 st2]. cbn. by rewrite (assoc_L (++)).
Qed.

(** The rounds before the context is cancelled. *)
Fixpoint alive (rs : list (round Line)) : list (round Line) :=
  match rs with [] => [] | r :: rs' => if rd_cancelled r then [] else r :: alive rs' end.

(** Everything a loop hands on, and how often it waits, round by round. *)
Lemma run_loop_spec rs st :
  applied_of (run_loop rs st).1 = alive rs ≫= round_applied ∧
  sleeps (run_loop rs st).1 = length (filter (λ r, round_fails r = true) (alive rs)).
Proof.
  revert st. induction rs as [|r rs IH]; intros st; [done|]. cbn [run_loop alive].
  destruct (rd_cancelled r); [done|]. destruct (do_round_spec r st) as [H1 H2].
  destruct (do_round r st) as [a1 st1]. destruct (IH st1) as [IH1 IH2].
  destruct (run_loop rs st1) as [a2 st2]. cbn [fst] in *.
  rewrite applied_app, sleeps_app, H1, H2, IH1, IH2. split; [done|].
  rewrite filter_cons. destruct (round_fails r); case_decide; done.
Qed.

Lemma round_applied_from r st : st ∈ round_applied r ↔ from_round r st.
Proof.
  unfold round_applied, from_round, lists, watched. split.
  - destruct (listed (rd_list r)) as [[st0 rv]|] eqn:E; [|by intros ?%not_elem_of_nil].
    unfold listed in E. destruct (http_get lurl (rd_list r)).2 as [[j|]|] eqn:Hj; [|done..].
    intros [->|Hin]%elem_of_cons; exists st0, rv; (split; [by exists j|]); [by left|right].
    destruct (http_get (wurl rv) (rd_watch r)).2 as [[lines scan_ok]|]; [|by apply not_elem_of_nil in Hin].
    by exists lines, scan_ok.
  - intros (st0 & rv & (j & Hj & Hd) & H). unfold listed. rewrite Hj, Hd.
    destruct H as [->|(lines & scan_ok & -> & Hin)]; [by left|by right].
Qed.
End loop.

(** ** The cluster-wide watcher *)

(** [rawList]: the raw items and the resource version. *)
Definition dec_version (j : json) : option string :=
  fld "metadata" JNull Some j ≫= fld "resourceVersion" "" dec_string.

Definition decode_objects (j : json) : option (gmap string json * string) :=
  match dec_version j, fld "items" [] (dec_list Some) j with
  | Some rv, Some items => Some (list_state items, rv)
  | _, _ => None
  end.

(** [watchLoop] for one resource. *)
Definition watchLoop (c : api_conf) (path : resource) (rs : list (round watch_line)) (st : gmap string json)
    : list (wact (gmap string json)) * gmap string json :=
  run_loop (list_url c path) (watch_url c path) decode_objects watch_scan rs st.

(** ** The agent watcher *)

Definition decode_slices (j : json) : option (gmap string sliceObject * string) :=
  match dec_version j, list_agents j with
  | Some rv, Some st => Some (st, rv)
  | _, _ => None
  end.

(** [loop]; a state handed on is what [emit] flattens. *)
Definition agent_loop (w : EndpointSliceWatcher) (rs : list (round agent_line)) (st : gmap string sliceObject)
    : list (wact (gmap string sliceObject)) * gmap string sliceObject :=
  run_loop (agent_list_url w) (agent_watch_url w) decode_slices agent_watch rs st.

(** [emit] for the slices in the order visited: what is sent, unless the select
    finds the context done. *)
Definition emit (done : bool) (vals : list sliceObject) (targetPort : Z) : option (list Endpoint) :=
  let endpoints := flatten vals targetPort in
  if done then None else Some endpoints.

(** ** The goroutines of [ServiceWatcher.Run] on the shared indexes *)

(** One call of an apply function, with the objects in the order visited. *)
Inductive apply_ev :=
| EvServices (vals : list json)
| EvSlices (vals vals' : list json)
| EvPods (vals : list json).

Definition indexes : Type := ServiceIndex * option PodEndpointIndex.

Definition apply_one (ev : apply_ev) (ix : indexes) : indexes :=
  match ev with
  | EvServices vals => (applyServices vals ix.1, ix.2)
  | EvSlices vals vals' => applySlices vals vals' ix.1 ix.2
  | EvPods vals => (ix.1, applyPods vals <$> ix.2)
  end.

Definition apply_all (evs : list apply_ev) (ix : indexes) : indexes := foldl (λ ix ev, apply_one ev ix) ix evs.

Definition services_of (evs : list apply_ev) : list (list json) :=
  omap (λ ev, match ev with EvServices v => Some v | _ => None end) evs.
Definition slices_of (evs : list apply_ev) : list (list json * list json) :=
  omap (λ ev, match ev with EvSlices v v' => Some (v, v') | _ => None end) evs.
Definition pods_of (evs : list apply_ev) : list (list json) :=
  omap (λ ev, match ev with EvPods v => Some v | _ => None end) evs.

(** [vals] are the objects of [st] in some order. *)
Definition visits (vals : list json) (st : gmap string json) : Prop := vals ≡ₚ (map_to_list st).*2.

(** [evs] interleaves what the three loops have handed on so far. *)
Record interleaving (tS tE tP : list (gmap string json)) (evs : list apply_ev) : Prop := {
  il_services : ∃ t, t `prefix_of` tS ∧ Forall2 visits (services_of evs) t;
  il_slices : ∃ t, t `prefix_of` tE ∧ Forall2 (λ v st, visits v.1 st ∧ visits v.2 st) (slices_of evs) t;
  il_pods : ∃ t, t `prefix_of` tP ∧ Forall2 visits (pods_of evs) t;
}.

(** The indexes the last event of each kind leaves behind. *)
Definition settled (evs : list apply_ev) (ix : indexes) : indexes :=
  let ix1 := match list.last (services_of evs) with Some v => (applyServices v ix.1, ix.2) | None => ix end in
  let ix2 := match list.last (slices_of evs) with Some v => applySlices v.1 v.2 ix1.1 ix1.2 | None => ix1 end in
  match list.last (pods_of evs) with Some v => (ix2.1, applyPods v <$> ix2.2) | None => ix2 end.

(** The EndpointSlice and the Pod loop write different fields of the pod index. *)
Lemma replace_entry_podIP es idx m :
  foldl replace_entry (mkPodIndex (addrs idx) (ports idx) (byIP idx) m) es =
    mkPodIndex (addrs (foldl replace_entry idx es)) (ports (foldl replace_entry idx es))
      (byIP (foldl replace_entry idx es)) m.
Proof.
  revert idx. induction es as [|e es IH]; intros idx; [done|]. cbn [foldl]. rewrite <-IH. f_equal.
  unfold replace_entry. cbn. by destruct (foldl _ _ _).
Qed.

Lemma Replace_applyPods es vals idx : Replace es (applyPods vals idx) = applyPods vals (Replace es idx).
Proof.
  unfold Replace, applyPods, ReplacePodIdentities. cbn [podIP].
  exact (replace_entry_podIP es (mkPodIndex ∅ ∅ ∅ (podIP idx)) _).
Qed.

Lemma Replace_Replace es es' idx : Replace es (Replace es' idx) = Replace es idx.
Proof. unfold Replace. by rewrite (proj2 (proj2 (proj2 (Replace_fold es' _)))). Qed.

Lemma settled_snoc evs ev ix : settled (evs ++ [ev]) ix = apply_one ev (settled evs ix).
Proof.
  unfold settled, services_of, slices_of, pods_of. rewrite !omap_app.
  fold (services_of evs) (slices_of evs) (pods_of evs).
  destruct ix as [[sv sl] px], ev as [v|v v'|v]; cbn [omap list_omap]; rewrite ?app_nil_r, ?last_snoc;
    destruct (list.last (services_of evs)) as [x1|], (list.last (slices_of evs)) as [[x2 x2']|],
      (list.last (pods_of evs)) as [x3|]; cbn; try done; destruct px; try done;
    unfold applySlices; cbn; by rewrite ?Replace_applyPods, ?Replace_Replace.
Qed.

Lemma apply_all_settled evs ix : apply_all evs ix = settled evs ix.
Proof.
  induction evs as [|ev evs IH] using rev_ind; [by destruct ix|].
  unfold apply_all. rewrite foldl_app. cbn [foldl]. fold (apply_all evs ix). by rewrite IH, settled_snoc.
Qed.
