(* ===== verification/IndexTypes.v ===== *)
(** * What the indexes hold

    The well-formedness of the two indexes of src/internal/aggregator/discovery:
    the types the decoders promise (32-bit ports), and what the rebuild functions
    guarantee on top of them, preserved by every call the watchers make. *)
From Stdlib Require Import Ascii.
From stdpp Require Import base numbers gmap strings sorting relations fin_maps list.
From S2P Require Import Prelude GoStr Json K8s Discovery AgentDiscovery DiscoverySpec GoText KubeApi Watcher.
Local Open Scope Z_scope.

(** ** Decoded numbers *)

Definition is_port (z : Z) : Prop := z ≠ 0 ∧ - 2 ^ 31 ≤ z < 2 ^ 31.

Lemma fld_list_Forall {A} (P : A → Prop) (dec : json → option A) k j l :
  (∀ j x, dec j = Some x → P x) → fld k [] (dec_list dec) j = Some l → Forall P l.
Proof.
  intros HP. unfold fld. destruct j; try done; [intros [= <-]; constructor|].
  destruct (jget k fs) as [v|]; [|intros [= <-]; constructor].
  unfold dec_list. destruct v; try done; [intros [= <-]; constructor|].
  intros Hm%mapM_Some. induction Hm; constructor; eauto.
Qed.

Lemma dec_port_int32 j p : dec_port j = Some p → - 2 ^ 31 ≤ sp_Port p < 2 ^ 31.
Proof.
  unfold dec_port. destruct (fld "name" _ _ j); [|done]. destruct (fld "port" 0 dec_int32 j) as [z|] eqn:Hz; [|done].
  intros [= <-]. cbn. unfold fld in Hz. destruct j as [| | | | |fs]; try done; [injection Hz as <-; lia|].
  destruct (jget "port" fs) as [v|]; [|injection Hz as <-; lia].
  unfold dec_int32 in Hz. destruct v; try done; [injection Hz as <-; lia|]. case_bool_decide; [|done]. by injection Hz as <-.
Qed.

Lemma dec_service_ports j so :
  dec_service j = Some so → Forall (λ p, - 2 ^ 31 ≤ sp_Port p < 2 ^ 31) (so_Ports so).
Proof.
  unfold dec_service. intros H. repeat case_match; simplify_eq/=. eapply fld_list_Forall; [apply dec_port_int32|done].
Qed.

Lemma dec_slice_ports j so :
  dec_slice j = Some so → Forall (λ p, - 2 ^ 31 ≤ sp_Port p < 2 ^ 31) (sl_Ports so).
Proof.
  unfold dec_slice. intros H. repeat case_match; simplify_eq/=. eapply fld_list_Forall; [apply dec_port_int32|done].
Qed.

(** ** Well-formed indexes *)

(** A Service under one of its addresses. *)
Definition entry_ok (ip : string) (en : serviceEntry) : Prop :=
  ip ≠ "" ∧ ip ≠ "None" ∧ en_name en ≠ "" ∧ en_ports en ≠ [] ∧ Forall (λ p, is_port (pf_port p)) (en_ports en).

(** The merged slices of a Service. *)
Definition group_ok (g : sliceGroup) : Prop :=
  map_Forall (λ _ tp, is_port tp) (sg_ports g) ∧ StronglySorted String.le (sg_podIPs g) ∧ NoDup (sg_podIPs g).

Record service_index_ok (idx : ServiceIndex) : Prop := {
  six_services : map_Forall entry_ok (services idx);
  six_slices : map_Forall (λ _, group_ok) (slices idx);
}.

(** The address set and the ports by IP say the same, ports are listed once, and
    what an IP leads to has a name. *)
Record pod_index_ok (idx : PodEndpointIndex) : Prop := {
  pix_addrs : ∀ x, x ∈ addrs idx ↔ ∃ ip q, q ∈ default [] (ports idx !! ip) ∧ x = ip_port ip q;
  pix_ports : map_Forall (λ _ l, NoDup l) (ports idx);
  pix_byIP : map_Forall (λ _ r, pr_pod r ≠ "") (byIP idx);
  pix_podIP : map_Forall (λ ip r, ip ≠ "" ∧ pr_pod r ≠ "") (podIP idx);
}.

Definition indexes_ok (ix : indexes) : Prop :=
  service_index_ok ix.1 ∧ ∀ px, ix.2 = Some px → pod_index_ok px.

Lemma apply_service_ok out j : map_Forall entry_ok out → map_Forall entry_ok (apply_service out j).
Proof.
  intros Ho. unfold apply_service. destruct (dec_service j) as [so|] eqn:Hd; [|done].
  case_bool_decide as Hn; [done|]. destruct (service_ports so) as [|p ps] eqn:Hps; [done|].
  intros ip en [[Hin ->]|Hl]%foldl_insert_all; [|by apply Ho].
  apply clusterIPs_elem in Hin as (_ & H1 & H2). split_and!; [done..|]. cbn. rewrite <-Hps. unfold service_ports.
  apply Forall_fmap, Forall_forall. intros q [Hq Hin]%list_elem_of_filter. split; [done|].
  pose proof (dec_service_ports _ _ Hd) as Hf. rewrite Forall_forall in Hf. by apply Hf.
Qed.

Lemma applyServices_ok vals idx : service_index_ok idx → service_index_ok (applyServices vals idx).
Proof.
  intros [_ Hs]. split; [|done]. cbn. generalize (map_Forall_empty (K := string) entry_ok).
  generalize (∅ : gmap string serviceEntry). induction vals as [|j vals IH]; intros m Hm; [done|].
  by apply IH, apply_service_ok.
Qed.

Lemma group_of_ok g : map_Forall (λ _ tp, is_port tp) (ac_ports g) → group_ok (group_of g).
Proof.
  intros Hp. split_and!; [done|..]; cbn.
  - apply StronglySorted_merge_sort; [apply _|]. intros x y. apply (total String.le).
  - rewrite merge_sort_Permutation. apply NoDup_elements.
Qed.

Lemma apply_slices_ok vals idx : service_index_ok idx → service_index_ok (SetSlices (group_of <$> foldl apply_slice ∅ vals) idx).
Proof.
  intros [Hs _]. split; [done|]. cbn. intros key g (g0 & <- & Hg)%lookup_fmap_Some. apply group_of_ok.
  intros n tp Htp. destruct (apply_slices_ports _ _ _ _ _ Hg Htp) as (so & p & (j & _ & Hd & _) & Hp & _ & <- & Hne).
  split; [done|]. pose proof (dec_slice_ports _ _ Hd) as Hf. rewrite Forall_forall in Hf. by apply Hf.
Qed.

Lemma replace_port_nodup ip acc p :
  map_Forall (λ _ l, NoDup l) acc.2 → map_Forall (λ _ l, NoDup l) (replace_port ip acc p).2.
Proof.
  intros Ha. unfold replace_port. cbn [snd]. destruct (contains _ _) eqn:Hc; [done|].
  apply map_Forall_insert_2; [|done]. apply NoDup_app. split_and!; [|intros q Hq ->%list_elem_of_singleton|apply NoDup_singleton].
  - destruct (acc.2 !! ip) as [l|] eqn:E; [by apply (Ha ip)|constructor].
  - apply contains_elem in Hq. congruence.
Qed.

Lemma Replace_nodup es idx : map_Forall (λ _ l, NoDup l) (ports (Replace es idx)).
Proof.
  unfold Replace. generalize (map_Forall_empty (K := string) (λ _ l, NoDup (A := string) l)).
  change (∅ : gmap string (list string)) with (ports (mkPodIndex ∅ ∅ ∅ (podIP idx))) at 1.
  generalize (mkPodIndex ∅ ∅ ∅ (podIP idx)). clear idx. induction es as [|e es IH]; intros idx Hn; [done|].
  cbn [foldl]. apply IH. unfold replace_entry.
  assert (H : ∀ ps acc, map_Forall (λ _ l, NoDup l) acc.2 →
    map_Forall (λ _ l, NoDup l) (foldl (replace_port (pe_IP e)) acc ps).2).
  { induction ps as [|p ps IHp]; intros acc Ha; [done|]. by apply IHp, replace_port_nodup. }
  specialize (H (pe_Ports e) (addrs idx, ports idx) Hn). by destruct (foldl _ _ _).
Qed.

Lemma Replace_ok es idx : pod_index_ok idx → pod_index_ok (Replace es idx).
Proof.
  intros [_ _ _ Hi]. destruct (Replace_spec es idx) as (H1 & H2 & H3 & H4). split.
  - intros x. rewrite H1. split.
    + intros (ip & p & He & ->). exists ip, (Itoa p). split; [|done]. apply H2. eauto.
    + intros (ip & q & Hq & ->). apply H2 in Hq as (p & He & ->). eauto.
  - apply Replace_nodup.
  - intros ip r Hr. by apply H3 in Hr as (e & _ & _ & Hp & ->).
  - by rewrite H4.
Qed.

Lemma applyPods_ok vals idx : pod_index_ok idx → pod_index_ok (applyPods vals idx).
Proof.
  intros [Ha Hp Hb _]. split; try done. cbn.
  generalize (map_Forall_empty (K := string) (λ ip r, ip ≠ "" ∧ pr_pod r ≠ "")). generalize (∅ : gmap string podRef).
  induction (vals ≫= pod_identities) as [|p l IH]; intros m Hm; [done|]. apply IH.
  destruct (_ || _) eqn:E; [done|]. reflect_bools. by apply map_Forall_insert_2.
Qed.

Lemma NewPodEndpointIndex_ok : pod_index_ok NewPodEndpointIndex.
Proof.
  split; cbn; [|apply map_Forall_empty..]. intros x. split; [set_solver|].
  intros (ip & q & Hq & _). rewrite lookup_empty in Hq. by apply not_elem_of_nil in Hq.
Qed.

Lemma NewServiceIndex_ok : service_index_ok NewServiceIndex.
Proof. split; apply map_Forall_empty. Qed.

(** C31: whatever objects the API server sends and in whatever order the watchers
    apply them, the indexes stay well formed from the empty ones on: every Service
    entry has a name and at least one port, under an address that is one; every
    port is a non-zero 32-bit integer; the addresses behind a Service are sorted
    and distinct; the pod index's address set and its ports by IP agree; and what
    an IP leads to is named. *)
Theorem indexes_well_formed evs (pods : bool) :
  indexes_ok (apply_all evs (NewServiceIndex, if pods then Some NewPodEndpointIndex else None)).
Proof.
  set (ix := (NewServiceIndex, _)). assert (H : indexes_ok ix).
  { split; [apply NewServiceIndex_ok|]. destruct pods; [|done]. intros px [= <-]. apply NewPodEndpointIndex_ok. }
  revert H. generalize ix. clear ix. unfold apply_all. induction evs as [|ev evs IH]; intros ix H; [done|].
  cbn [foldl]. apply IH. destruct H as [H1 H2], ev as [v|v v'|v]; (split; cbn -[applySlices]); [by apply applyServices_ok|done|..].
  - by apply apply_slices_ok.
  - cbn. intros px (px0 & Hp & ->)%fmap_Some. by apply Replace_ok, H2.
  - done.
  - intros px (px0 & Hp & ->)%fmap_Some. by apply applyPods_ok, H2.
Qed.
