(* ===== verification/MainCmd.v ===== *)
(** * The command

    Model of src/cmd/kloudlens-aggregator/main.go: flag values in, a wired
    aggregator or a start-up error out.  The outcomes of the system calls made
    on the way are arguments.  The servers and goroutines [run] starts around
    the aggregator are listed in the result; what they do is modelled in the
    files of their components. *)
From Stdlib Require Import Ascii.
From stdpp Require Import base numbers gmap strings relations fin_maps list.
From S2P Require Import Prelude GoStr Json GoText EnvWal EnvWalInv Pb CursorStore ClusterPeers Discovery AgentDiscovery Aggregator ReExport KubeApi Watcher Metrics.
Local Open Scope Z_scope.

(** ** Flags *)

Record cliFlags := mkFlags {
  f_agents : string;
  f_output : string;
  f_streams : string;
  f_consumerID : string;
  f_backoff : Z;
  f_queueDepth : Z;
  f_metricsAddr : string;
  f_cursorFile : string;
  f_walDir : string;
  f_walMaxBytes : Z;
  f_walSegBytes : Z;
  f_walTTL : Z;
  f_walGCEvery : Z;
  f_reexportAddr : string;
  f_aggregatorID : string;
  f_k8sService : string;
  f_k8sAPIServer : string;
  f_k8sCAFile : string;
  f_k8sTokenFile : string;
  f_agentPort : Z;
  f_resolveVIP : bool;
  f_showVersion : bool;
}.

Definition parse_agent (a : string) : option AgentEndpoint :=
  let a := TrimSpace a in
  if bool_decide (a = "") then None else Some (mkAgent a a).

Definition parseAgents (csv : string) : list AgentEndpoint := omap parse_agent (Split "," csv).

Inductive sink := Stdout | Stderr | File (path : string).

(** [open_ok]: whether the file can be opened for appending. *)
Definition openOutput (open_ok : bool) (p : string) : option sink :=
  if bool_decide (p = "-") then Some Stdout
  else if bool_decide (p = "stderr") then Some Stderr
  else if open_ok then Some (File p) else None.

Definition resolverOrNil (idx : option PodEndpointIndex) : option EndpointResolver := pod_resolver <$> idx.

Definition svcResolverWhen (enabled : bool) (idx : option ServiceIndex) : option ServiceResolver :=
  if negb enabled then None else service_resolver <$> idx.

(** ** Start-up *)

(** The conversion from [int] to [int32]. *)
Definition int32 (z : Z) : Z := (z + 2 ^ 31) mod 2 ^ 32 - 2 ^ 31.

Inductive run_err :=
| ENeedAgents
| EZeroAgents
| EOutput
| ECursors (e : cs_err)
| EWal (e : wal_err)
| EK8sService
| EK8sDiscovery (e : api_err)
| ENew (e : new_err)
| EReexport.

(** The watchers' side of the flags. *)
Definition api_flags (f : cliFlags) : api_conf := mkApiConf (f_k8sAPIServer f) (f_k8sCAFile f) (f_k8sTokenFile f) 0.

(** [ca]: what is found under a CA file name. *)
Definition startK8sDiscovery (ca : string → option bool) (f : cliFlags) : EndpointSliceWatcher + run_err :=
  match Cut "/" (f_k8sService f) with
  | None => inr EK8sService
  | Some (ns, svc) =>
      if bool_decide (ns = "") || bool_decide (svc = "") then inr EK8sService
      else match agent_Run false ca (mkEndpointSliceWatcher (api_flags f) ns svc (int32 (f_agentPort f))) with
           | inr e => inr (EK8sDiscovery e)
           | inl w => inl w
           end
  end.

(** The cluster-wide watch: what its loops run with, or the error that is logged
    while the process goes on. *)
Definition startClusterEndpointWatch (ca : string → option bool) (f : cliFlags) : (api_conf * list resource) + api_err :=
  service_Run false ca true true (api_flags f).

(** The bridge from discovered endpoints to the fleet. *)
Definition bridge (eps : list Endpoint) : list AgentEndpoint := (λ e, mkAgent (ep_Name e) (ep_Addr e)) <$> eps.

Record run_io := mkRunIO {
  ri_out : bool;
  ri_cursor_dir : bool;
  ri_cursor_read : bool;
  ri_cursors : cdir;
  ri_wal : open_io;
  ri_fs : FS;
  ri_ca : string → option bool;
  ri_listen : bool;
}.

(** What is running when [agg.Run] is reached. *)
Record wired := mkWired {
  w_agg : Aggregator;
  w_sink : sink;
  w_cursors : option fileCursorStore;
  w_target : option EndpointSliceWatcher;
  w_cluster : option ((api_conf * list resource) + api_err);
  w_gc_every : option Z;
  w_reexport : option ReExportServer;
  w_metrics : bool;
}.

Definition open_cursors (f : cliFlags) (io : run_io) : option fileCursorStore + cs_err :=
  if bool_decide (f_cursorFile f = "") then inl None
  else match NewFileCursorStore (ri_cursor_dir io) (ri_cursor_read io) (ri_cursors io) with
       | inl c => inl (Some c)
       | inr e => inr e
       end.

Definition wal_options (f : cliFlags) : Options :=
  mkOptions (f_walDir f) (f_walMaxBytes f) (f_walSegBytes f) (f_walTTL f).

Definition open_wal (f : cliFlags) (io : run_io) : option (WAL * FS) + wal_err :=
  if bool_decide (f_walDir f = "") then inl None
  else match Open (ri_wal io) (wal_options f) (ri_fs io) with
       | (fs, Ok w) => inl (Some (w, fs))
       | (_, Err e) => inr e
       end.

Definition watch_k8s (f : cliFlags) (io : run_io) : option EndpointSliceWatcher + run_err :=
  if bool_decide (f_k8sService f = "") then inl None
  else match startK8sDiscovery (ri_ca io) f with inl t => inl (Some t) | inr e => inr e end.

Definition agg_config (f : cliFlags) (agents : list AgentEndpoint) (target : option EndpointSliceWatcher) : Config :=
  mkConfig agents true (Split "," (f_streams f)) (f_consumerID f) (f_backoff f) (f_queueDepth f)
    (bool_decide (is_Some target)) 0.

(** [serveReExport] *)
Definition reexport_server (f : cliFlags) : ReExportServer :=
  if bool_decide (f_aggregatorID f = "") then NewReExportServer
  else mkReExport (f_aggregatorID f) (SubscriberBuffer NewReExportServer).

Definition run (f : cliFlags) (io : run_io) : wired + run_err :=
  if bool_decide (f_agents f = "") && bool_decide (f_k8sService f = "") then inr ENeedAgents else
  let agents := if bool_decide (f_agents f = "") then [] else parseAgents (f_agents f) in
  if negb (bool_decide (f_agents f = "")) && bool_decide (agents = []) && bool_decide (f_k8sService f = "")
  then inr EZeroAgents else
  match openOutput (ri_out io) (f_output f) with None => inr EOutput | Some sk =>
  match open_cursors f io with inr e => inr (ECursors e) | inl cursors =>
  match open_wal f io with inr e => inr (EWal e) | inl w =>
  match watch_k8s f io with inr e => inr e | inl target =>
  let podIndex := (λ _, NewPodEndpointIndex) <$> target in
  let svcIndex := (λ _, NewServiceIndex) <$> target in
  match New (agg_config f agents target) (resolverOrNil podIndex) (svcResolverWhen (f_resolveVIP f) svcIndex) w with
  | inr e => inr (ENew e)
  | inl agg =>
      if negb (bool_decide (f_reexportAddr f = "")) && negb (ri_listen io) then inr EReexport
      else inl (mkWired agg sk cursors target ((λ _, startClusterEndpointWatch (ri_ca io) f) <$> target)
                  (if bool_decide (is_Some w) && bool_decide (0 < f_walGCEvery f) then Some (f_walGCEvery f) else None)
                  (if bool_decide (f_reexportAddr f = "") then None else Some (reexport_server f))
                  (negb (bool_decide (f_metricsAddr f = ""))))
  end end end end end.

(** ** Leaving [run] *)

(** The deferred calls of [run]. *)
Inductive closer := CloseOutput | CloseCursors | CloseWal | CancelCtx | StopReexport.

Global Instance closer_eq_dec : EqDecision closer.
Proof. solve_decision. Defined.

(** The calls deferred by the time [run] returns, in the order they are made:
    the youngest first.  [None] is the return of [agg.Run]. *)
Definition deferred (f : cliFlags) (e : option run_err) : list closer :=
  let cursors := if bool_decide (f_cursorFile f = "") then [] else [CloseCursors] in
  let wal := if bool_decide (f_walDir f = "") then [] else [CloseWal] in
  match e with
  | Some ENeedAgents | Some EZeroAgents | Some EOutput => []
  | Some (ECursors _) => [CloseOutput]
  | Some (EWal _) => cursors ++ [CloseOutput]
  | Some EK8sService | Some (EK8sDiscovery _) | Some (ENew _) | Some EReexport =>
      CancelCtx :: wal ++ cursors ++ [CloseOutput]
  | None =>
      (if bool_decide (f_reexportAddr f = "") then [] else [StopReexport]) ++
      CancelCtx :: wal ++ cursors ++ [CloseOutput]
  end.

(** ** The janitor *)

(** [runWALGC]: one collection per tick until the context is cancelled; a tick
    brings which removals succeed and the time.  [GC] never returns an error. *)
Fixpoint runWALGC (ticks : list (bool * (string → bool) * Z)) (st : WAL * FS) : WAL * FS :=
  match ticks with
  | [] => st
  | (cancelled, rm_ok, now) :: rest =>
      if cancelled : bool then st else runWALGC rest (GC rm_ok now st.1 st.2)
  end.

(** ** The operator's endpoints *)

Definition stats_line (s : AggStats) : string :=
  let k := s_Counters s in
  "received=" +:+ Itoa (received k) +:+ " written=" +:+ Itoa (written k) +:+ " dropped=" +:+ Itoa (dropped k) +:+
  " errors=" +:+ Itoa (c_errors k) +:+ " wal_appends=" +:+ Itoa (walAppends k) +:+ " wal_errors=" +:+ Itoa (walErrors k) +:+
  " wal_last_seq=" +:+ Itoa (s_WALLastSeq s) +:+ " subscriber_dropped=" +:+ Itoa (s_SubscriberDropped s) +:+
  " subscribers=" +:+ Itoa (s_Subscribers s) +:+ String (chr 10) "".

Inductive response := Text (body : string) | Scrape (ms : list Sample) | NotFound.

(** A request to the mux, which reads the statistics for two of its paths. *)
Definition buildMetricsMux (path : string) (now : Z) (len nsvc : option Z) (a : Aggregator) : Aggregator * response :=
  if bool_decide (path = "/healthz") || bool_decide (path = "/readyz") then (a, Text "ok")
  else if bool_decide (path = "/metrics") then
    let '(a', ms) := Collect NewPromCollector now len nsvc a in (a', Scrape ms)
  else if bool_decide (path = "/stats") then
    let '(a', s) := agg_Stats now len nsvc a in (a', Text (stats_line s))
  else (a, NotFound).

(** ** Properties *)

(** Ticks of the janitor keep the log's invariant. *)
Lemma runWALGC_inv `{!ProtoJSON Env} ticks st : wal_inv st → wal_inv (runWALGC ticks st).
Proof.
  revert st. induction ticks as [|[[[] rm_ok] now] rest IH]; intros st HI; [done|done|]. apply IH.
  destruct st as [w fs]. apply (wal_step_inv (Env := Env) (w, fs)); [done|]. cbn [fst snd].
  destruct (GC rm_ok now w fs) as [w' fs'] eqn:E. by eapply step_gc.
Qed.

(** What the /stats line carries, field by field. *)
Definition stats_fields (s : AggStats) : list (string * Z) :=
  let k := s_Counters s in
  [("received", received k); ("written", written k); ("dropped", dropped k); ("errors", c_errors k);
   ("wal_appends", walAppends k); ("wal_errors", walErrors k); ("wal_last_seq", s_WALLastSeq s);
   ("subscriber_dropped", s_SubscriberDropped s); ("subscribers", s_Subscribers s)].

Definition print_field (nv : string * Z) : string := nv.1 +:+ String "=" (Itoa nv.2).

Lemma stats_line_fields s :
  stats_line s = join_with " " (print_field <$> stats_fields s) +:+ String (chr 10) "".
Proof.
  unfold stats_line, stats_fields, print_field. cbn [fmap list_fmap join_with fst snd].
  repeat (rewrite ?str_app_assoc, ?str_app_cons). reflexivity.
Qed.

(** A name [parseAgents] returns unchanged. *)
Definition clean_name (n : string) : Prop := n ≠ "" ∧ has_byte "," n = false ∧ TrimSpace n = n.

(** Printing clean agent addresses between commas and parsing the result
    gives exactly those endpoints in order, named by their address; blank items
    in between are ignored. *)
Theorem parse_agents_roundtrip (names : list string) :
  Forall (λ n, clean_name n ∨ has_byte "," n = false ∧ TrimSpace n = "") names →
  parseAgents (join_with "," names) = (λ n, mkAgent n n) <$> filter (λ n, TrimSpace n ≠ "") names.
Proof.
  intros Hn. destruct (decide (names = [])) as [->|Hne]; [vm_compute; reflexivity|].
  unfold parseAgents. rewrite Split_join; [|done|].
  - clear Hne. induction Hn as [|n names Hx Hn IH]; [done|]. cbn [omap list_omap]. rewrite filter_cons, IH.
    unfold parse_agent. destruct Hx as [(H0 & _ & ->)|(_ & ->)]; [|done].
    rewrite bool_decide_eq_false_2, decide_True by done. done.
  - eapply Forall_impl; [exact Hn|]. unfold clean_name. naive_solver.
Qed.

(** The --k8s-service flag is absent, or a namespace and a name around a slash. *)
Definition k8s_service_ok (f : cliFlags) : Prop :=
  f_k8sService f = "" ∨
  ∃ ns svc, ns ≠ "" ∧ svc ≠ "" ∧ has_byte "/" ns = false ∧ f_k8sService f = ns +:+ String "/" svc.

(** What is found under the CA file name the watchers are given. *)
Definition ca_file (f : cliFlags) (io : run_io) : option bool := ri_ca io (or_default defaultCAFile (f_k8sCAFile f)).

Lemma watch_k8s_spec f io :
  (∃ t, watch_k8s f io = inl t) ↔ k8s_service_ok f ∧ (f_k8sService f ≠ "" → ca_file f io = Some true).
Proof.
  unfold watch_k8s, k8s_service_ok, startK8sDiscovery, ca_file. case_bool_decide as Hk; [naive_solver|].
  unfold agent_Run. cbn [esw_Namespace esw_ServiceName esw_conf esw_TargetPort api_defaults CAFile api_flags]. split.
  - intros [t Ht]. destruct (has_byte "/" (f_k8sService f)) eqn:Hb; [|by rewrite Cut_None in Ht].
    destruct (first_cut _ _ Hb) as (a & b & Heq & Ha). rewrite Heq, Cut_join in Ht by done.
    destruct (bool_decide (a = "") || bool_decide (b = "")) eqn:E; [discriminate Ht|].
    apply orb_false_iff in E as [E1%bool_decide_eq_false E2%bool_decide_eq_false]. split; [right; by exists a, b|]. intros _.
    destruct (ri_ca io _) as [[]|]; [done|cbn in Ht; discriminate Ht..].
  - intros [[?|(ns & sv & H1 & H2 & H3 & ->)] Hca]; [done|]. rewrite Hca by (by destruct ns). rewrite Cut_join by done.
    rewrite !bool_decide_eq_false_2 by done. cbn. eauto.
Qed.

(** Every system call on the way succeeds: files and directories can be made and
    read, no directory is in the way of a segment of the log, and the port is
    free.  What the files hold is another matter. *)
Record calls_fine (f : cliFlags) (io : run_io) : Prop := {
  cf_out : ri_out io = true;
  cf_cursor_dir : ri_cursor_dir io = true;
  cf_cursor_read : ri_cursor_read io = true;
  cf_mkdir : oi_mkdir (ri_wal io) = true;
  cf_readdir : oi_readdir (ri_wal io) = true;
  cf_open : oi_open (ri_wal io) = true;
  cf_segments : ∀ n, ri_fs io !! seg_name n ≠ Some NDir;
  cf_ca : is_Some (ca_file f io);
  cf_listen : ri_listen io = true;
}.

(** The cursor file, when one is asked for, is absent, empty or parses. *)
Definition cursor_file_ok (f : cliFlags) (io : run_io) : Prop :=
  f_cursorFile f = "" ∨ main_file (ri_cursors io) ≠ FGarbage.

Lemma open_cursors_spec f io : calls_fine f io → (∃ c, open_cursors f io = inl c) ↔ cursor_file_ok f io.
Proof.
  intros H. unfold open_cursors, cursor_file_ok, NewFileCursorStore, loadFromDisk.
  rewrite (cf_cursor_dir _ _ H), (cf_cursor_read _ _ H). cbn [negb]. case_bool_decide; [naive_solver|].
  destruct (main_file (ri_cursors io)); naive_solver.
Qed.

Lemma open_wal_fine f io : calls_fine f io → ∃ w, open_wal f io = inl w.
Proof.
  intros H. unfold open_wal, Open, openSegment. case_bool_decide as Hd; [eauto|].
  cbn [wal_options Dir]. rewrite bool_decide_eq_false_2, (cf_mkdir _ _ H), (cf_readdir _ _ H), (cf_open _ _ H) by done.
  cbn [negb orb]. rewrite bool_decide_eq_false_2 by apply (cf_segments _ _ H). eauto.
Qed.

Lemma parseAgents_nil : parseAgents "" = [].
Proof. vm_compute. reflexivity. Qed.

Lemma openOutput_ok p : is_Some (openOutput true p).
Proof. unfold openOutput. repeat case_bool_decide; eauto. Qed.

Lemma New_spec c res sv w :
  has_Out c = true →
  (∃ a, New c res sv w = inl a) ↔ (has_Discovery c = false → Agents c ≠ []) ∧ 0 ≤ QueueDepth c ≤ max_depth.
Proof.
  intros Ho. unfold New. rewrite Ho. cbn [negb config_defaults QueueDepth].
  destruct (has_Discovery c); cbn [negb]; rewrite ?andb_false_r, ?andb_true_r;
    assert (0 ≤ 1024 ≤ max_depth) by done; repeat (case_bool_decide; cbn); naive_solver lia.
Qed.

(** The part of [run] from the moment the watch is decided. *)
Definition finish (f : cliFlags) (io : run_io) (agents : list AgentEndpoint) (sk : sink)
    (c : option fileCursorStore) (w : option (WAL * FS)) (r : option EndpointSliceWatcher + run_err) : wired + run_err :=
  match r with inr e => inr e | inl target =>
  match New (agg_config f agents target) (resolverOrNil ((λ _, NewPodEndpointIndex) <$> target))
          (svcResolverWhen (f_resolveVIP f) ((λ _, NewServiceIndex) <$> target)) w with
  | inr e => inr (ENew e)
  | inl agg =>
      if negb (bool_decide (f_reexportAddr f = "")) && negb (ri_listen io) then inr EReexport
      else inl (mkWired agg sk c target ((λ _, startClusterEndpointWatch (ri_ca io) f) <$> target)
                  (if bool_decide (is_Some w) && bool_decide (0 < f_walGCEvery f) then Some (f_walGCEvery f) else None)
                  (if bool_decide (f_reexportAddr f = "") then None else Some (reexport_server f))
                  (negb (bool_decide (f_metricsAddr f = ""))))
  end end.

(** What [run] does when neither the flag check nor a file stops it. *)
Lemma run_inv f io r :
  run f io = inl r ↔
  (f_k8sService f = "" → parseAgents (f_agents f) ≠ []) ∧
  ∃ sk c w, openOutput (ri_out io) (f_output f) = Some sk ∧ open_cursors f io = inl c ∧ open_wal f io = inl w ∧
    finish f io (parseAgents (f_agents f)) sk c w (watch_k8s f io) = inl r.
Proof.
  unfold run.
  set (agents := if bool_decide (f_agents f = "") then [] else parseAgents (f_agents f)).
  assert (Hag : agents = parseAgents (f_agents f)).
  { unfold agents. case_bool_decide as E; [|done]. by rewrite E, parseAgents_nil. }
  rewrite Hag. clear agents Hag.
  destruct (decide (f_k8sService f = "" ∧ parseAgents (f_agents f) = [])) as [[Hk Ha]|Hne].
  { rewrite (bool_decide_eq_true_2 _ Hk), (bool_decide_eq_true_2 _ Ha), !andb_true_r.
    destruct (bool_decide (f_agents f = "")); cbn; (split; [done|]); intros [H _]; by destruct (H Hk). }
  assert (bool_decide (f_agents f = "") && bool_decide (f_k8sService f = "") = false) as ->.
  { apply andb_false_iff. rewrite !bool_decide_eq_false. destruct (decide (f_agents f = "")) as [E|]; [right|by left].
    intros Hk. apply Hne. by rewrite E, parseAgents_nil. }
  assert (negb (bool_decide (f_agents f = "")) && bool_decide (parseAgents (f_agents f) = []) &&
          bool_decide (f_k8sService f = "") = false) as ->.
  { apply andb_false_iff. rewrite andb_false_iff, !bool_decide_eq_false.
    destruct (decide (f_k8sService f = "")); naive_solver. }
  split.
  - intros HR. split; [naive_solver|].
    destruct (openOutput _ _) as [sk|]; [|done]. destruct (open_cursors f io) as [c|]; [|done].
    destruct (open_wal f io) as [w|]; [|done]. by exists sk, c, w.
  - intros (_ & sk & c & w & -> & -> & -> & HF). exact HF.
Qed.

(** The aggregator of a started process comes from [New]. *)
Lemma run_New f io r : run f io = inl r → ∃ c res sv w, New c res sv w = inl (w_agg r).
Proof.
  intros (_ & sk & c & w & _ & _ & _ & HF)%run_inv. unfold finish in HF.
  destruct (watch_k8s f io) as [t|e]; [|done].
  destruct (New _ _ _ w) as [a|e] eqn:HN; [|done]. destruct (_ && negb (ri_listen io)); [done|].
  injection HF as <-. by do 4 eexists.
Qed.

(** C38: when no system call fails, and no directory carries the name of a segment
    of the log, the process starts exactly when the flags
    name at least one agent or a Service, any Service given is well-formed and
    comes with a CA file that holds a certificate, any cursor file given is
    absent, empty or parses, and the queue depth is not negative and at most what
    a channel can be made with, 2^48 bytes. *)
Theorem startup_decision f io :
  calls_fine f io →
  (∃ w, run f io = inl w) ↔
  (f_k8sService f = "" → parseAgents (f_agents f) ≠ []) ∧
  k8s_service_ok f ∧ (f_k8sService f ≠ "" → ca_file f io = Some true) ∧
  cursor_file_ok f io ∧ 0 ≤ f_queueDepth f ≤ max_depth.
Proof.
  intros Hcalls. rewrite (assoc (∧) (k8s_service_ok f)), <-(watch_k8s_spec f io), <-(open_cursors_spec f io) by done.
  destruct (open_wal_fine f io Hcalls) as [w Hw]. destruct Hcalls as [Ho _ _ _ _ _ _ _ Hli].
  destruct (openOutput_ok (f_output f)) as [sk Hsk].
  assert (Hk : ∀ t, watch_k8s f io = inl t → is_Some t ↔ f_k8sService f ≠ "").
  { intros t. unfold watch_k8s. case_bool_decide; [|destruct (startK8sDiscovery _ _)]; intros [= <-]; naive_solver. }
  assert (HF : ∀ c t, watch_k8s f io = inl t →
    (∃ r, finish f io (parseAgents (f_agents f)) sk c w (inl t) = inl r) ↔
    (f_k8sService f = "" → parseAgents (f_agents f) ≠ []) ∧ 0 ≤ f_queueDepth f ≤ max_depth).
  { intros c t Ht. unfold finish. rewrite Hli, andb_false_r.
    pose proof (New_spec (agg_config f (parseAgents (f_agents f)) t) (resolverOrNil ((λ _, NewPodEndpointIndex) <$> t))
          (svcResolverWhen (f_resolveVIP f) ((λ _, NewServiceIndex) <$> t)) w eq_refl) as HN.
    cbn [agg_config has_Discovery Agents QueueDepth] in HN. specialize (Hk t Ht). rewrite bool_decide_eq_false in HN.
    destruct (New _ _ _ w) as [a|e]; split.
    - intros _. destruct (proj1 HN) as [H1 H2]; [eauto|]. split; [|done]. intros Hs. apply H1. rewrite Hk. naive_solver.
    - eauto.
    - by intros [r Hr].
    - intros [H1 H2]. destruct (proj2 HN) as [a Ha]; [|done]. split; [|done]. rewrite Hk. intros Hs. apply H1.
      by apply dec_stable. }
  setoid_rewrite run_inv. rewrite Ho. split.
  - intros (r & H1 & sk' & c & w' & Hsk' & Hc & Hw' & HR).
    rewrite Hsk in Hsk'. injection Hsk' as <-. rewrite Hw in Hw'. injection Hw' as <-.
    destruct (watch_k8s f io) as [t|e] eqn:Ht; [|done]. split_and!; [done|eauto..| |]; apply (HF c t eq_refl); by exists r.
  - intros (H1 & [t Ht] & [c Hc] & H2). destruct (proj2 (HF c t Ht)) as [r Hr]; [done|]. exists r. split; [done|].
    exists sk, c, w. by rewrite Ht.
Qed.

(** A process that started has its agents and streams from the flags; peer
    addresses are resolved through the cluster exactly when a Service was given,
    Service addresses only if also asked for, both against indexes that start
    empty; the log, its janitor and the re-export server are there exactly when
    their flags say so. *)
Theorem startup_wiring f io r :
  run f io = inl r →
  Agents (cfg (w_agg r)) = parseAgents (f_agents f) ∧ c_Streams (cfg (w_agg r)) = Split "," (f_streams f) ∧
  (has_Discovery (cfg (w_agg r)) = true ↔ f_k8sService f ≠ "") ∧
  (is_Some (resolver (registry (w_agg r))) ↔ f_k8sService f ≠ "") ∧
  (is_Some (svc (registry (w_agg r))) ↔ f_k8sService f ≠ "" ∧ f_resolveVIP f = true) ∧
  (is_Some (wal (w_agg r)) ↔ f_walDir f ≠ "") ∧
  (is_Some (w_gc_every r) ↔ f_walDir f ≠ "" ∧ 0 < f_walGCEvery f) ∧
  (is_Some (w_reexport r) ↔ f_reexportAddr f ≠ "").
Proof.
  intros (_ & sk & c & w & _ & _ & Hw & HF)%run_inv.
  destruct (watch_k8s f io) as [t|e] eqn:Ht; [|done]. unfold finish in HF.
  assert (Hk : is_Some t ↔ f_k8sService f ≠ "").
  { clear HF. revert Ht. unfold watch_k8s. case_bool_decide; [|destruct (startK8sDiscovery _ _)]; intros [= <-]; naive_solver. }
  assert (Hwd : is_Some w ↔ f_walDir f ≠ "").
  { clear HF. revert Hw. unfold open_wal. case_bool_decide; [|destruct (Open _ _ _) as [? []]]; intros [= <-]; naive_solver. }
  pose proof (Split_not_nil "," (f_streams f)) as Hst.
  unfold New in HF. cbn [agg_config Agents has_Discovery has_Out negb] in HF.
  destruct (bool_decide (parseAgents (f_agents f) = []) && _); [done|].
  destruct (bool_decide (_ ∨ _)); [done|].
  destruct (_ && negb (ri_listen io)); [done|]. injection HF as <-. cbn.
  unfold svcResolverWhen, resolverOrNil. split_and!.
  - done.
  - by destruct (Split "," (f_streams f)).
  - by rewrite bool_decide_eq_true.
  - by rewrite !fmap_is_Some.
  - destruct (f_resolveVIP f); cbn; rewrite ?fmap_is_Some; [naive_solver|]. split; [by intros [? ?]|by intros [_ ?]].
  - done.
  - repeat case_bool_decide; cbn; naive_solver.
  - case_bool_decide; naive_solver.
Qed.

(** ** Witnesses *)

Module Demo.
Definition flags (agents service : string) : cliFlags :=
  mkFlags agents "-" "intent,deviation" "c" 0 0 "" "" "" 0 0 0 60 ":9" "edge" service "" "" "" 9000 true false.
Definition io : run_io :=
  mkRunIO true true true (mkCdir FAbsent FAbsent) (mkOpenIO true true (λ _, true) true 100) ∅ (λ _, Some true) true.
Lemma started {A B} (x : A + B) : match x with inl _ => true | inr _ => false end = true → ∃ a, x = inl a.
Proof. destruct x; [eauto|done]. Qed.
End Demo.

Lemma parse_agents_roundtrip_witness :
  parseAgents "n1:9000, ,n2:9000" = [mkAgent "n1:9000" "n1:9000"; mkAgent "n2:9000" "n2:9000"] ∧
  parseAgents (join_with "," ["n1:9000"; " "; "n2:9000"]) =
    (λ n, mkAgent n n) <$> filter (λ n, TrimSpace n ≠ "") ["n1:9000"; " "; "n2:9000"].
Proof.
  split; [vm_compute; reflexivity|]. apply (parse_agents_roundtrip ["n1:9000"; " "; "n2:9000"]).
  constructor; [left|constructor; [right|constructor; [left|constructor]]]; repeat split; try discriminate;
    vm_compute; reflexivity.
Defined.

Lemma startup_decision_witness :
  (∃ w, run (Demo.flags "" "kube/agents") Demo.io = inl w) ∧ ¬ (∃ w, run (Demo.flags " , " "") Demo.io = inl w).
Proof.
  assert (Hio : ∀ a s, calls_fine (Demo.flags a s) Demo.io) by (intros a s; by split; [..|exists true|]).
  split; rewrite (startup_decision _ Demo.io (Hio _ _)).
  - split_and!; [done| |done|by left|done|done]. right. by exists "kube", "agents".
  - intros [H _]. apply H; vm_compute; reflexivity.
Defined.

Lemma startup_wiring_witness :
  ∃ r, run (Demo.flags "" "kube/agents") Demo.io = inl r ∧ is_Some (svc (registry (w_agg r))).
Proof.
  destruct (Demo.started (run (Demo.flags "" "kube/agents") Demo.io)) as [r Hr]; [vm_compute; reflexivity|].
  exists r. split; [exact Hr|].
  destruct (startup_wiring (Demo.flags "" "kube/agents") Demo.io r Hr) as (_ & _ & _ & _ & [_ H] & _).
  apply H. split; [discriminate|reflexivity].
Defined.
