(* ===== verification/Bridge.v ===== *)
(** * From the agent watcher to the fleet

    The two channels and the goroutine between the agent watcher of
    src/internal/aggregator/discovery/endpointslice.go and the reconcile loop of
    src/internal/aggregator/aggregator.go, wired by [startK8sDiscovery] of
    src/cmd/kloudlens-aggregator/main.go.  Every send can block and every wait
    ends with the context, so what matters is that nothing is lost, reordered or
    stuck on the way. *)
From stdpp Require Import base numbers gmap strings relations fin_maps list.
From S2P Require Import Prelude GoStr Json K8s Discovery AgentDiscovery CursorStore ClusterPeers Aggregator Fleet MainCmd.
Local Open Scope nat_scope.

(** ** Model *)

(** The bridge: receiving, holding a converted list it has yet to send, gone. *)
Inductive bridge_pc := BRecv | BSend (conv : list AgentEndpoint) | BDone.

(** The reconcile loop: in its select, waiting for the context because the
    channel was closed, returned. *)
Inductive reconcile_pc := RLoop | RWait | RLeft.

(** [emitted] and [got] are what the watcher sent and what the loop reconciled so
    far, in order. *)
Record pipe := mkPipe {
  emitted : list (list Endpoint);
  src : list (list Endpoint);
  src_closed : bool;
  b_at : bridge_pc;
  outch : list (list AgentEndpoint);
  out_closed : bool;
  r_at : reconcile_pc;
  got : list (visit * list AgentEndpoint);
  p_fleet : fleet;
  ctx_done : bool;
}.

(** Both channels are made with room for four. *)
Definition chan_cap : nat := 4.

Definition pipe_start (agents : list AgentEndpoint) : pipe :=
  mkPipe [] [] false BRecv [] false RLoop [] (seed agents) false.

Definition do_emit (es : list Endpoint) (p : pipe) : pipe :=
  mkPipe (emitted p ++ [es]) (src p ++ [es]) (src_closed p) (b_at p) (outch p) (out_closed p) (r_at p) (got p) (p_fleet p) (ctx_done p).
Definition do_recv (es : list Endpoint) (rest : list (list Endpoint)) (p : pipe) : pipe :=
  mkPipe (emitted p) rest (src_closed p) (BSend (bridge es)) (outch p) (out_closed p) (r_at p) (got p) (p_fleet p) (ctx_done p).
Definition do_send (conv : list AgentEndpoint) (p : pipe) : pipe :=
  mkPipe (emitted p) (src p) (src_closed p) BRecv (outch p ++ [conv]) (out_closed p) (r_at p) (got p) (p_fleet p) (ctx_done p).
(** The bridge returns, and its deferred call closes the channel. *)
Definition do_leave (p : pipe) : pipe :=
  mkPipe (emitted p) (src p) (src_closed p) BDone (outch p) true (r_at p) (got p) (p_fleet p) (ctx_done p).
Definition do_take (v : visit) (eps : list AgentEndpoint) (rest : list (list AgentEndpoint)) (p : pipe) : pipe :=
  mkPipe (emitted p) (src p) (src_closed p) (b_at p) rest (out_closed p) (r_at p) (got p ++ [(v, eps)])
    (reconcileFleet v eps (p_fleet p)) (ctx_done p).
Definition set_r (m : reconcile_pc) (p : pipe) : pipe :=
  mkPipe (emitted p) (src p) (src_closed p) (b_at p) (outch p) (out_closed p) m (got p) (p_fleet p) (ctx_done p).

(** The watcher and the context. *)
Inductive pipe_input : pipe → pipe → Prop :=
| pi_emit es p : src_closed p = false → length (src p) < chan_cap → pipe_input p (do_emit es p)
| pi_cancel p : pipe_input p (mkPipe (emitted p) (src p) (src_closed p) (b_at p) (outch p) (out_closed p) (r_at p) (got p) (p_fleet p) true)
| pi_close p : ctx_done p = true → src_closed p = false →
    pipe_input p (mkPipe (emitted p) (src p) true (b_at p) (outch p) (out_closed p) (r_at p) (got p) (p_fleet p) (ctx_done p)).

(** The bridge and the reconcile loop. *)
Inductive pipe_own : pipe → pipe → Prop :=
| po_recv es rest p : b_at p = BRecv → src p = es :: rest → pipe_own p (do_recv es rest p)
| po_closed p : b_at p = BRecv → src p = [] → src_closed p = true → pipe_own p (do_leave p)
| po_send conv p : b_at p = BSend conv → length (outch p) < chan_cap → pipe_own p (do_send conv p)
| po_giveup conv p : b_at p = BSend conv → ctx_done p = true → pipe_own p (do_leave p)
| po_take v eps rest p : visit_ok v → r_at p = RLoop → outch p = eps :: rest → pipe_own p (do_take v eps rest p)
| po_wait p : r_at p = RLoop → outch p = [] → out_closed p = true → pipe_own p (set_r RWait p)
| po_left p : r_at p ≠ RLeft → ctx_done p = true → pipe_own p (set_r RLeft p).

Definition pipe_step (p p' : pipe) : Prop := pipe_input p p' ∨ pipe_own p p'.

(** ** Invariant *)

(** What the bridge holds in its hands. *)
Definition held (b : bridge_pc) : list (list AgentEndpoint) := match b with BSend conv => [conv] | _ => [] end.

Record pipe_inv (agents : list AgentEndpoint) (p : pipe) : Prop := {
  pv_src : length (src p) ≤ chan_cap;
  pv_out : length (outch p) ≤ chan_cap;
  pv_fleet : p_fleet p = reconcileLoop (got p) (seed agents);
  pv_visits : Forall (λ em : visit * list AgentEndpoint, visit_ok em.1) (got p);
  pv_closed : out_closed p = true ↔ b_at p = BDone;
  pv_src_closed : src_closed p = true → ctx_done p = true;
  pv_bdone : b_at p = BDone → ctx_done p = true;
  pv_wait : r_at p ≠ RLoop → ctx_done p = true;
  pv_order : b_at p ≠ BDone → (got p).*2 ++ outch p ++ held (b_at p) ++ (bridge <$> src p) = bridge <$> emitted p;
  pv_prefix : (got p).*2 ++ outch p `prefix_of` bridge <$> emitted p;
}.

Lemma pipe_step_inv agents p p' : pipe_step p p' → pipe_inv agents p → pipe_inv agents p'.
Proof.
  intros Hs [H1 H2 H3 H4 H5 H6 H7 H8 H9 H10]. destruct Hs as [Hs|Hs].
  - destruct Hs as [es p Hc Hl|p|p Hd Hc]; split; cbn; try done.
    + rewrite length_app. cbn. unfold chan_cap in *. lia.
    + intros Hb. rewrite !fmap_app, <-(H9 Hb), <-!(assoc_L (++)). done.
    + rewrite fmap_app. by apply prefix_app_r.
  - destruct Hs as [es rest p Hb Hsrc|p Hb Hsrc Hc|conv p Hb Hl|conv p Hb Hd|v eps rest p Hv Hr Ho|p Hr Ho Hc|p Hr Hd];
      split; cbn; try done; try (rewrite Hb in *; cbn in * ).
    + rewrite Hsrc in H1. cbn in H1. lia.
    + rewrite H5. naive_solver.
    + intros _. rewrite <-H9, Hsrc by done. done.
    + intros _. by apply H6.
    + rewrite length_app. cbn. unfold chan_cap in *. lia.
    + rewrite H5. naive_solver.
    + intros _. rewrite <-H9 by done. by rewrite <-!(assoc_L (++)).
    + rewrite <-H9 by done. exists (bridge <$> src p). by rewrite <-!(assoc_L (++)).
    + rewrite Ho in H2. cbn in H2. lia.
    + rewrite H3. unfold reconcileLoop. by rewrite foldl_app.
    + apply Forall_app. split; [done|by constructor].
    + intros Hb. rewrite <-(H9 Hb), Ho, fmap_app, <-!(assoc_L (++)). done.
    + rewrite Ho in H10. rewrite fmap_app, <-(assoc_L (++)). done.
    + intros _. apply H7. by apply H5.
Qed.

Lemma pipe_start_inv agents : pipe_inv agents (pipe_start agents).
Proof. split; cbn; try done; unfold chan_cap; lia. Qed.

Lemma pipe_steps_inv agents p p' : rtc pipe_step p p' → pipe_inv agents p → pipe_inv agents p'.
Proof. induction 1; eauto using pipe_step_inv. Qed.

(** ** Progress *)

Definition b_weight (b : bridge_pc) : nat := match b with BRecv => 1 | BSend _ => 3 | BDone => 0 end.
Definition r_weight (r : reconcile_pc) : nat := match r with RLoop => 2 | RWait => 1 | RLeft => 0 end.
Definition pipe_load (p : pipe) : nat := 3 * length (src p) + b_weight (b_at p) + length (outch p) + r_weight (r_at p).

Lemma pipe_own_load p p' :
  pipe_own p p' → pipe_load p' < pipe_load p ∧ emitted p' = emitted p ∧ ctx_done p' = ctx_done p ∧ src_closed p' = src_closed p.
Proof.
  intros Hs. unfold pipe_load. destruct Hs as [es rest p Hb Hsrc|p Hb Hsrc Hc|conv p Hb Hl|conv p Hb Hd|v eps rest p Hv Hr Ho|p Hr Ho Hc|p Hr Hd];
    (split; [|done]); cbn; rewrite ?Hb, ?Hsrc, ?Ho, ?Hr, ?length_app; cbn; try lia.
  destruct (r_at p); cbn; [lia..|done].
Qed.

Lemma pipe_terminates p : sn pipe_own p.
Proof.
  remember (pipe_load p) as n eqn:Hn. revert p Hn. induction (lt_wf n) as [n _ IH]. intros p ->.
  constructor. intros p' Hs. destruct (pipe_own_load _ _ Hs) as [Hlt _]. by apply (IH (pipe_load p')).
Qed.

Lemma pipe_own_keeps p p' :
  rtc pipe_own p p' → emitted p' = emitted p ∧ ctx_done p' = ctx_done p ∧ src_closed p' = src_closed p.
Proof.
  induction 1 as [|x y z Hs _ (-> & -> & ->)]; [done|]. by destruct (pipe_own_load _ _ Hs) as (_ & ? & ? & ?).
Qed.

(** Stuck means that everything sent was reconciled, or that everyone left. *)
Lemma pipe_stuck agents p :
  pipe_inv agents p → nf pipe_own p →
  (ctx_done p = false → outch p = [] ∧ src p = [] ∧ b_at p = BRecv) ∧
  (ctx_done p = true → src_closed p = true → b_at p = BDone ∧ r_at p = RLeft).
Proof.
  intros HI Hnf. split; intros Hd.
  - assert (Hr : r_at p = RLoop).
    { destruct (r_at p) eqn:E; [done|..]; rewrite (pv_wait _ _ HI) in Hd; (done || by rewrite E). }
    assert (Ho : outch p = []).
    { destruct (outch p) as [|eps rest] eqn:E; [done|]. destruct Hnf. eexists. by apply (po_take (mkVisit id id) eps rest). }
    destruct (b_at p) as [|conv|] eqn:Hb.
    + destruct (src p) as [|es rest] eqn:E; [done|]. destruct Hnf. eexists. by apply (po_recv es rest).
    + destruct Hnf. eexists. apply (po_send conv); [done|]. rewrite Ho. unfold chan_cap. cbn. lia.
    + rewrite (pv_bdone _ _ HI Hb) in Hd. done.
  - intros Hc. split.
    + destruct (b_at p) as [|conv|] eqn:Hb; [|destruct Hnf; eexists; by apply (po_giveup conv)|done].
      destruct (src p) as [|es rest] eqn:E; destruct Hnf; eexists; [by apply po_closed|by apply (po_recv es rest)].
    + destruct (r_at p) eqn:E; [destruct Hnf; eexists; apply po_left; by rewrite ?E..|done].
Qed.

(** C27: nothing is lost, reordered or stuck between the agent watcher and the
    fleet: at any time the fleet is what reconciling the first lists the watcher
    sent gives, in the order it sent them; the reconcile loop finds its channel
    closed only after the signal; left to itself the pipeline comes to rest, with
    every list reconciled while the process runs, and with both goroutines gone
    after the signal once the watcher has left. *)
Theorem discovery_in_order agents p :
  rtc pipe_step (pipe_start agents) p →
  p_fleet p = reconcileLoop (got p) (seed agents) ∧
  (got p).*2 ++ outch p `prefix_of` bridge <$> emitted p ∧
  (out_closed p = true ∨ r_at p ≠ RLoop → ctx_done p = true) ∧
  sn pipe_own p ∧
  ∀ p', rtc pipe_own p p' → nf pipe_own p' →
    (ctx_done p = false → (got p').*2 = bridge <$> emitted p) ∧
    (ctx_done p = true → src_closed p = true → b_at p' = BDone ∧ r_at p' = RLeft).
Proof.
  intros Hr. pose proof (pipe_steps_inv agents _ _ Hr (pipe_start_inv agents)) as HI. split_and!.
  - apply HI.
  - apply HI.
  - intros [Hc|Hw]; [apply (pv_bdone _ _ HI); by apply (pv_closed _ _ HI)|by apply (pv_wait _ _ HI)].
  - apply pipe_terminates.
  - intros p' Ho Hnf. destruct (pipe_own_keeps _ _ Ho) as (He & Hd & Hc).
    assert (HI' : pipe_inv agents p').
    { eapply pipe_steps_inv; [|exact HI]. eapply rtc_subrel, Ho. by right. }
    destruct (pipe_stuck agents p' HI' Hnf) as [H1 H2]. rewrite <-He, <-Hd, <-Hc. split; [|exact H2].
    intros Hx. destruct (H1 Hx) as (Ho' & Hs & Hb). pose proof (pv_order _ _ HI') as Hord.
    rewrite Ho', Hs, Hb in Hord. cbn in Hord. rewrite !app_nil_r in Hord. by apply Hord.
Qed.

(** ** Witness *)

Module BridgeDemo.
Definition ep : Endpoint := mkEndpoint "kl/10.0.0.1" "10.0.0.1:9000".
Definition p0 : pipe := pipe_start [].
Definition p1 : pipe := do_emit [ep] p0.
Definition p2 : pipe := do_recv [ep] [] p1.
Definition p3 : pipe := do_send (bridge [ep]) p2.
Definition p4 : pipe := do_take (mkVisit id id) (bridge [ep]) [] p3.

Lemma p1_reached : rtc pipe_step p0 p1.
Proof. apply rtc_once. left. apply pi_emit; [done|]. unfold chan_cap. cbn. lia. Qed.

Lemma p4_from_p1 : rtc pipe_own p1 p4.
Proof.
  eapply rtc_l; [by apply (po_recv [ep] [])|].
  eapply rtc_l; [apply (po_send (bridge [ep])); [done|unfold chan_cap; cbn; lia]|].
  apply rtc_once. by apply (po_take (mkVisit id id) (bridge [ep]) [] p3).
Qed.

Lemma p4_rests : nf pipe_own p4.
Proof. intros [p' Hs]. inversion Hs; subst; cbn in *; congruence. Qed.
End BridgeDemo.

Lemma discovery_in_order_witness :
  (got BridgeDemo.p4).*2 = bridge <$> emitted BridgeDemo.p1 ∧ emitted BridgeDemo.p1 = [[BridgeDemo.ep]].
Proof.
  split; [|reflexivity].
  destruct (discovery_in_order [] BridgeDemo.p1 BridgeDemo.p1_reached) as (_ & _ & _ & _ & Hend).
  apply (Hend BridgeDemo.p4 BridgeDemo.p4_from_p1 BridgeDemo.p4_rests). reflexivity.
Defined.
