(* ===== verification/Flags.v ===== *)
(** * The command line

    Model of [parseFlags] and [main] of src/cmd/kloudlens-aggregator/main.go over
    the parts of package flag, strconv and time they use: the flag syntax, the
    integer and duration syntax with their overflow checks, and what the process
    does with the result. *)
From Stdlib Require Import Ascii SpecFloat.
From stdpp Require Import base numbers gmap strings fin_maps list pretty.
From S2P Require Import Prelude GoStr GoText MainCmd.
Local Open Scope Z_scope.

(** ** strconv.ParseInt with base 0 *)

Definition lower (c : ascii) : ascii :=
  let n := N_of_ascii c in if bool_decide (65 ≤ n ≤ 90)%N then ascii_of_N (n + 32) else c.

Definition digit_of (c : ascii) : option Z :=
  let n := Z.of_N (N_of_ascii (lower c)) in
  if bool_decide (48 ≤ n ≤ 57) then Some (n - 48)
  else if bool_decide (97 ≤ n ≤ 122) then Some (n - 87)
  else None.

(** The digit loop of [ParseUint]; the flag tells whether an underscore was seen. *)
Fixpoint base_digits (base acc : Z) (us : bool) (s : string) : option (Z * bool) :=
  match s with
  | EmptyString => Some (acc, us)
  | String c s' =>
      if bool_decide (c = "_"%char) then base_digits base acc true s'
      else match digit_of c with
           | Some d => if bool_decide (d < base) then base_digits base (acc * base + d) us s' else None
           | None => None
           end
  end.

(** [underscoreOK]: underscores only between digits, or behind a base prefix. *)
Inductive saw := SawStart | SawDigit | SawUnderscore | SawOther.

Fixpoint underscore_loop (hex : bool) (st : saw) (s : string) : bool :=
  match s with
  | EmptyString => match st with SawUnderscore => false | _ => true end
  | String c s' =>
      if match digit_of c with Some d => bool_decide (d < 10) || hex && bool_decide (d < 16) | None => false end
      then underscore_loop hex SawDigit s'
      else if bool_decide (c = "_"%char) then
        match st with SawDigit => underscore_loop hex SawUnderscore s' | _ => false end
      else match st with SawUnderscore => false | _ => underscore_loop hex SawOther s' end
  end.

(** The base a prefix announces, and what is left behind it. *)
Definition base_prefix (s : string) : option (Z * string) :=
  match s with
  | String "0" (String b (String c s')) =>
      let rest := String c s' in
      if bool_decide (lower b = "b"%char) then Some (2, rest)
      else if bool_decide (lower b = "o"%char) then Some (8, rest)
      else if bool_decide (lower b = "x"%char) then Some (16, rest)
      else None
  | _ => None
  end.

Definition underscoreOK (s : string) : bool :=
  match s with
  | String "0" (String b s') =>
      if bool_decide (lower b ∈ ["b"; "o"; "x"]%char) then underscore_loop (bool_decide (lower b = "x"%char)) SawDigit s'
      else underscore_loop false SawStart s
  | _ => underscore_loop false SawStart s
  end.

(** [ParseUint] with base 0, before the range check. *)
Definition parse_uint0 (s : string) : option Z :=
  if bool_decide (s = "") then None
  else
    let '(base, body) := match base_prefix s with
                         | Some br => br
                         | None => match s with String "0" s' => (8, s') | _ => (10, s) end
                         end in
    match base_digits base 0 false body with
    | Some (v, us) => if us && negb (underscoreOK s) then None else Some v
    | None => None
    end.

(** An optional sign, and what is behind it. *)
Definition split_sign (s : string) : bool * string :=
  match s with
  | String "-" s' => (true, s')
  | String "+" s' => (false, s')
  | _ => (false, s)
  end.

Definition ParseInt (s : string) : option Z :=
  let '(neg, body) := split_sign s in
  match parse_uint0 body with
  | None => None
  | Some un =>
      if neg then if bool_decide (2 ^ 63 < un) then None else Some (- un)
      else if bool_decide (2 ^ 63 ≤ un) then None else Some un
  end.

Definition ParseBool (s : string) : option bool :=
  if bool_decide (s ∈ ["1"; "t"; "T"; "true"; "TRUE"; "True"]) then Some true
  else if bool_decide (s ∈ ["0"; "f"; "F"; "false"; "FALSE"; "False"]) then Some false
  else None.

(** ** time.ParseDuration *)

Fixpoint leadingInt (x : Z) (s : string) : option (Z * string) :=
  match s with
  | EmptyString => Some (x, s)
  | String c s' =>
      match digit_val c with
      | None => Some (x, s)
      | Some d =>
          if bool_decide (2 ^ 63 / 10 < x) then None
          else let x' := x * 10 + d in
               if bool_decide (2 ^ 63 < x') then None else leadingInt x' s'
      end
  end.

Fixpoint leadingFraction (x scale : Z) (overflow : bool) (s : string) : Z * Z * string :=
  match s with
  | EmptyString => (x, scale, s)
  | String c s' =>
      match digit_val c with
      | None => (x, scale, s)
      | Some d =>
          if overflow || bool_decide ((2 ^ 63 - 1) / 10 < x) || bool_decide (2 ^ 63 < x * 10 + d)
          then leadingFraction x scale true s'
          else leadingFraction (x * 10 + d) (scale * 10) false s'
      end
  end.

(** The unit runs up to the next digit or point. *)
Fixpoint span_unit (s : string) : string * string :=
  match s with
  | EmptyString => ("", "")
  | String c s' =>
      if bool_decide (c = "."%char) || bool_decide (is_Some (digit_val c)) then ("", s)
      else let '(u, r) := span_unit s' in (String c u, r)
  end.

Definition unit_ns (u : string) : option Z :=
  if bool_decide (u = "ns") then Some 1
  else if bool_decide (u = "us") || bool_decide (u = bytes_str [194; 181; 115]) || bool_decide (u = bytes_str [206; 188; 115])
  then Some (10 ^ 3)
  else if bool_decide (u = "ms") then Some (10 ^ 6)
  else if bool_decide (u = "s") then Some (10 ^ 9)
  else if bool_decide (u = "m") then Some (60 * 10 ^ 9)
  else if bool_decide (u = "h") then Some (3600 * 10 ^ 9)
  else None.

(** [uint64(float64(f) * (float64(unit) / scale))] *)
Definition f64 (z : Z) : spec_float := binary_normalize 53 1024 z 0 false.
Definition f64_trunc (x : spec_float) : Z :=
  match x with
  | S754_finite _ m e => if bool_decide (0 ≤ e) then Z.pos m * 2 ^ e else Z.pos m / 2 ^ (- e)
  | _ => 0
  end.
Definition fraction_ns (f unit scale : Z) : Z :=
  f64_trunc (SFmul 53 1024 (f64 f) (SFdiv 53 1024 (f64 unit) (f64 scale))).

(** One term of the sum, with what is left behind it. *)
Definition duration_term (s : string) : option (Z * string) :=
  match s with
  | EmptyString => None
  | String c _ =>
      if negb (bool_decide (c = "."%char) || bool_decide (is_Some (digit_val c))) then None
      else match leadingInt 0 s with
           | None => None
           | Some (v, s1) =>
               let pre := bool_decide (String.length s1 < String.length s)%nat in
               let '(f, scale, s2, post) :=
                 match s1 with
                 | String "." s1' =>
                     let '(f, scale, s2) := leadingFraction 0 1 false s1' in
                     (f, scale, s2, bool_decide (String.length s2 < String.length s1')%nat)
                 | _ => (0, 1, s1, false)
                 end in
               if negb pre && negb post then None
               else let '(u, s3) := span_unit s2 in
                    match unit_ns u with
                    | None => None
                    | Some unit =>
                        if bool_decide (2 ^ 63 / unit < v) then None
                        else
                          let v' := v * unit + (if bool_decide (0 < f) then fraction_ns f unit scale else 0) in
                          if bool_decide (2 ^ 63 < v') then None else Some (v', s3)
                    end
           end
  end.

(** The loop; each term takes at least one byte. *)
Fixpoint duration_terms (fuel : nat) (d : Z) (s : string) : option Z :=
  match s, fuel with
  | EmptyString, _ => Some d
  | _, O => None
  | _, S k =>
      match duration_term s with
      | None => None
      | Some (v, s') => if bool_decide (2 ^ 63 < d + v) then None else duration_terms k (d + v) s'
      end
  end.

Definition ParseDuration (s : string) : option Z :=
  let '(neg, body) := split_sign s in
  if bool_decide (body = "0") then Some 0
  else if bool_decide (body = "") then None
  else match duration_terms (String.length body) 0 body with
       | None => None
       | Some d => if neg then Some (- d) else if bool_decide (2 ^ 63 - 1 < d) then None else Some d
       end.

(** ** Package flag *)

Inductive fval := FStr (s : string) | FInt (z : Z) | FDur (z : Z) | FBool (b : bool).

(** [Value.Set], for the type of the flag's default. *)
Definition set_value (d : fval) (v : string) : option fval :=
  match d with
  | FStr _ => Some (FStr v)
  | FInt _ => FInt <$> ParseInt v
  | FDur _ => FDur <$> ParseDuration v
  | FBool _ => FBool <$> ParseBool v
  end.

(** What [FlagSet.Parse] ends with: the values, a request for help, an error. *)
Inductive parsed := Parsed (m : gmap string fval) | HelpWanted | BadUsage.

(** A flag argument without its dashes; [None] for a syntax error. *)
Definition flag_name (name : string) : option (string * option string) :=
  match name with
  | EmptyString => None
  | String c s' =>
      if bool_decide (c = "-"%char) || bool_decide (c = "="%char) then None
      else match Cut "=" s' with
           | Some (n, v) => Some (String c n, Some v)
           | None => Some (name, None)
           end
  end.

(** How an argument starts: no flag, the terminator, or a flag. *)
Inductive arg := NoFlag | Terminator | FlagArg (name : string).
Definition classify (s : string) : arg :=
  match s with
  | String "-" (String "-" EmptyString) => Terminator
  | String "-" (String "-" name) => FlagArg name
  | String "-" (String c s') => FlagArg (String c s')
  | _ => NoFlag
  end.

Section flagset.
Context (formal : gmap string fval).

Fixpoint parse_args (args : list string) (m : gmap string fval) : parsed :=
  match args with
  | [] => Parsed m
  | s :: rest =>
      match classify s with
      | NoFlag | Terminator => Parsed m
      | FlagArg body =>
          match flag_name body with
          | None => BadUsage
          | Some (name, value) =>
              match formal !! name with
              | None => if bool_decide (name = "help") || bool_decide (name = "h") then HelpWanted else BadUsage
              | Some d =>
                  let set v next := match set_value d v with
                                    | Some x => next (<[name := x]> m)
                                    | None => BadUsage
                                    end in
                  match d, value with
                  | _, Some v => set v (parse_args rest)
                  | FBool _, None => set "true" (parse_args rest)
                  | _, None => match rest with [] => BadUsage | v :: rest' => set v (parse_args rest') end
                  end
              end
          end
      end
  end.
End flagset.

(** ** parseFlags *)

(** The flags with their defaults. *)
Definition flag_defs : list (string * fval) := [
  ("agents", FStr "");
  ("output", FStr "-");
  ("streams", FStr "intent");
  ("consumer-id", FStr "kloudlens-aggregator");
  ("backoff", FDur (2 * 10 ^ 9));
  ("queue-depth", FInt 16384);
  ("metrics-addr", FStr "");
  ("cursor-file", FStr "");
  ("wal-dir", FStr "");
  ("wal-max-bytes", FInt (Z.shiftl 2 30));
  ("wal-segment-bytes", FInt (Z.shiftl 32 20));
  ("wal-ttl", FDur (2 * 3600 * 10 ^ 9));
  ("wal-gc-interval", FDur (60 * 10 ^ 9));
  ("reexport-addr", FStr "");
  ("aggregator-id", FStr "kloudlens-aggregator");
  ("k8s-service", FStr "");
  ("k8s-apiserver", FStr "");
  ("k8s-ca-file", FStr "");
  ("k8s-token-file", FStr "");
  ("agent-port", FInt 0);
  ("resolve-service-vip", FBool true);
  ("version", FBool false)].

Definition formal : gmap string fval := list_to_map flag_defs.

Definition get_str (m : gmap string fval) (n : string) : string := match m !! n with Some (FStr s) => s | _ => "" end.
Definition get_int (m : gmap string fval) (n : string) : Z := match m !! n with Some (FInt z) => z | _ => 0 end.
Definition get_dur (m : gmap string fval) (n : string) : Z := match m !! n with Some (FDur z) => z | _ => 0 end.
Definition get_bool (m : gmap string fval) (n : string) : bool := match m !! n with Some (FBool b) => b | _ => false end.

(** The struct the flags are bound to. *)
Definition flags_of (m : gmap string fval) : cliFlags :=
  mkFlags (get_str m "agents") (get_str m "output") (get_str m "streams") (get_str m "consumer-id")
    (get_dur m "backoff") (get_int m "queue-depth") (get_str m "metrics-addr") (get_str m "cursor-file")
    (get_str m "wal-dir") (get_int m "wal-max-bytes") (get_int m "wal-segment-bytes") (get_dur m "wal-ttl")
    (get_dur m "wal-gc-interval") (get_str m "reexport-addr") (get_str m "aggregator-id") (get_str m "k8s-service")
    (get_str m "k8s-apiserver") (get_str m "k8s-ca-file") (get_str m "k8s-token-file") (get_int m "agent-port")
    (get_bool m "resolve-service-vip") (get_bool m "version").

(** [flag.Parse] exits the process on a request for help and on an error. *)
Definition parseFlags (args : list string) : cliFlags + Z :=
  match parse_args formal args formal with
  | Parsed m => inl (flags_of m)
  | HelpWanted => inr 0
  | BadUsage => inr 2
  end.

(** ** main *)

Inductive process := Exited (status : Z) (printed : option string) | Started (w : wired).

Definition main (version : string) (args : list string) (io : run_io) : process :=
  match parseFlags args with
  | inr status => Exited status None
  | inl f =>
      if f_showVersion f then Exited 0 (Some version)
      else match run f io with
           | inr (ENew NewPanic) => Exited 2 None
           | inr _ => Exited 1 None
           | inl w => Started w
           end
  end.

(** ** Printing flags *)

Definition print_val (v : fval) : string :=
  match v with
  | FStr s => s
  | FInt z => Itoa z
  | FDur z => Itoa z +:+ "ns"
  | FBool b => if b then "true" else "false"
  end.

Definition print_flag (nv : string * fval) : string := "--" +:+ nv.1 +:+ String "=" (print_val nv.2).

(** The values of the struct under the names of the flags. *)
Definition values_of (f : cliFlags) : list (string * fval) := [
  ("agents", FStr (f_agents f)); ("output", FStr (f_output f)); ("streams", FStr (f_streams f));
  ("consumer-id", FStr (f_consumerID f)); ("backoff", FDur (f_backoff f)); ("queue-depth", FInt (f_queueDepth f));
  ("metrics-addr", FStr (f_metricsAddr f)); ("cursor-file", FStr (f_cursorFile f)); ("wal-dir", FStr (f_walDir f));
  ("wal-max-bytes", FInt (f_walMaxBytes f)); ("wal-segment-bytes", FInt (f_walSegBytes f));
  ("wal-ttl", FDur (f_walTTL f)); ("wal-gc-interval", FDur (f_walGCEvery f));
  ("reexport-addr", FStr (f_reexportAddr f)); ("aggregator-id", FStr (f_aggregatorID f));
  ("k8s-service", FStr (f_k8sService f)); ("k8s-apiserver", FStr (f_k8sAPIServer f));
  ("k8s-ca-file", FStr (f_k8sCAFile f)); ("k8s-token-file", FStr (f_k8sTokenFile f));
  ("agent-port", FInt (f_agentPort f)); ("resolve-service-vip", FBool (f_resolveVIP f)); ("version", FBool (f_showVersion f))].

Definition is_int64 (z : Z) : Prop := - 2 ^ 63 ≤ z < 2 ^ 63.
Definition in_range (v : fval) : Prop := match v with FInt z | FDur z => is_int64 z | _ => True end.

(** ** Numbers *)

Lemma base_digits_decimal s acc v :
  parse_digits acc s = Some v → base_digits 10 acc false s = Some (v, false).
Proof.
  revert acc. induction s as [|c s IH]; intros acc; cbn; [by intros [= <-]|].
  destruct (digit_val c) as [d|] eqn:Hd; [|done]. intros Hp.
  assert (c ≠ "_"%char ∧ digit_of c = Some d ∧ d < 10) as (Hc & Hd' & Hlt).
  { revert Hd. clear. destruct c as [[] [] [] [] [] [] [] []]; vm_compute; intros [= <-]; done. }
  rewrite bool_decide_eq_false_2, Hd', bool_decide_eq_true_2 by done. by apply IH.
Qed.

Lemma digit_val_range c d : digit_val c = Some d → 0 ≤ d < 10.
Proof. unfold digit_val. case_bool_decide; [|done]. intros [= <-]. lia. Qed.

Lemma parse_digits_mono s acc v : 0 ≤ acc → parse_digits acc s = Some v → acc ≤ v.
Proof.
  revert acc. induction s as [|c s IH]; intros acc H0; cbn; [intros [= <-]; lia|].
  destruct (digit_val c) as [d|] eqn:Hd; [|done]. apply digit_val_range in Hd. intros Hp. apply IH in Hp; lia.
Qed.

Lemma digit_cases (P : Z → Prop) d :
  0 ≤ d < 10 → P 0 → P 1 → P 2 → P 3 → P 4 → P 5 → P 6 → P 7 → P 8 → P 9 → P d.
Proof.
  intros Hd. assert (d = 0 ∨ d = 1 ∨ d = 2 ∨ d = 3 ∨ d = 4 ∨ d = 5 ∨ d = 6 ∨ d = 7 ∨ d = 8 ∨ d = 9) as Hc by lia.
  by destruct_or! Hc; subst d.
Qed.

Lemma split_sign_digit d s : 0 ≤ d < 10 → split_sign (String (digit_char d) s) = (false, String (digit_char d) s).
Proof. intros Hd. pattern d. by apply digit_cases. Qed.

Lemma parse_uint0_pretty (x : N) : parse_uint0 (pretty x) = Some (Z.of_N x).
Proof.
  destruct (decide (x = 0)%N) as [->|Hne]; [vm_compute; reflexivity|].
  pose proof (base_digits_decimal _ _ _ (parse_pretty_N x)) as Hb.
  destruct (pretty_N_first x) as (d & s' & Hd & Heq & H0). rewrite Heq in *. unfold parse_uint0.
  rewrite bool_decide_eq_false_2 by done.
  assert (Hm : ∀ d, 0 ≤ d < 10 → d ≠ 0 →
    match base_prefix (String (digit_char d) s') with
    | Some br => br
    | None => match String (digit_char d) s' with String "0" s' => (8, s') | _ => (10, String (digit_char d) s') end
    end = (10, String (digit_char d) s')).
  { intros d0 Hd0. pattern d0. apply digit_cases; [done|done|reflexivity..]. }
  rewrite Hm by (try done; intros ->; naive_solver). by rewrite Hb.
Qed.

Lemma ParseInt_Itoa z : is_int64 z → ParseInt (Itoa z) = Some z.
Proof.
  unfold is_int64. intros Hz. unfold ParseInt. destruct (decide (0 ≤ z)) as [Hp|Hn].
  - rewrite Itoa_nonneg by done. pose proof (parse_uint0_pretty (Z.to_N z)) as Hu.
    destruct (pretty_N_first (Z.to_N z)) as (d & s' & Hd & Heq & _). rewrite Heq in *.
    rewrite split_sign_digit, Hu, Z2N.id by done. by rewrite bool_decide_eq_false_2 by lia.
  - destruct z as [|q|q]; [lia..|]. change (Itoa (Z.neg q)) with (String "-" (pretty (N.pos q))).
    cbn [split_sign]. rewrite parse_uint0_pretty. cbn [Z.of_N]. rewrite bool_decide_eq_false_2 by lia. done.
Qed.

(** ** Durations *)

Lemma leadingInt_digits s t acc v :
  0 ≤ acc → parse_digits acc s = Some v → v ≤ 2 ^ 63 → (∀ c t', t = String c t' → digit_val c = None) →
  leadingInt acc (s +:+ t) = Some (v, t).
Proof.
  revert acc. induction s as [|c s IH]; intros acc H0 Hp Hv Ht.
  - cbn in Hp. injection Hp as ->. rewrite str_app_nil_l. destruct t as [|c t]; [done|]. cbn. by rewrite (Ht c t).
  - rewrite str_app_cons. cbn in Hp |- *. destruct (digit_val c) as [d|] eqn:Hd; [|done].
    apply digit_val_range in Hd. pose proof (parse_digits_mono s (acc * 10 + d) v ltac:(lia) Hp) as Hm.
    rewrite bool_decide_eq_false_2; [|apply Z.nlt_ge, Z.div_le_lower_bound; lia].
    rewrite bool_decide_eq_false_2 by lia. apply IH; try done; lia.
Qed.

Lemma duration_term_ns (x : N) : Z.of_N x ≤ 2 ^ 63 → duration_term (pretty x +:+ "ns") = Some (Z.of_N x, "").
Proof.
  intros Hx. assert (Hl : leadingInt 0 (pretty x +:+ "ns") = Some (Z.of_N x, "ns")).
  { apply leadingInt_digits; [lia|apply parse_pretty_N|done|]. by intros c t' [= <- <-]. }
  destruct (pretty_N_first x) as (d & s' & Hd & Heq & _). rewrite Heq, str_app_cons in *.
  unfold duration_term. rewrite Hl, (digit_val_char d Hd), (bool_decide_eq_true_2 (is_Some _)) by eauto.
  rewrite orb_true_r. cbn [negb].
  assert (Hlen : bool_decide (String.length "ns" < String.length (String (digit_char d) (s' +:+ "ns")))%nat = true).
  { apply bool_decide_eq_true_2. cbn [String.length]. rewrite str_length_app. cbn. lia. }
  rewrite Hlen. cbn -[Z.pow Z.div Z.mul span_unit unit_ns]. change (span_unit "ns") with ("ns", "").
  cbn -[Z.pow Z.div Z.mul unit_ns]. change (unit_ns "ns") with (Some 1). cbn -[Z.pow Z.div Z.mul].
  rewrite (bool_decide_eq_false_2 (0 < 0)), (bool_decide_eq_false_2 (2 ^ 63 `div` 1 < _)) by (rewrite ?Z.div_1_r; lia).
  rewrite bool_decide_eq_false_2 by lia. do 2 f_equal. lia.
Qed.

Lemma ParseDuration_ns z : is_int64 z → ParseDuration (Itoa z +:+ "ns") = Some z.
Proof.
  unfold is_int64. intros Hz.
  assert (Hb : ∀ x : N, Z.of_N x ≤ 2 ^ 63 →
    duration_terms (String.length (pretty x +:+ "ns")) 0 (pretty x +:+ "ns") = Some (Z.of_N x)).
  { intros x Hx. destruct (pretty_N_first x) as (d & s' & Hd & Heq & _).
    pose proof (duration_term_ns x Hx) as Ht. rewrite Heq, str_app_cons in *. cbn [String.length duration_terms].
    rewrite Ht. rewrite bool_decide_eq_false_2 by lia. by destruct (String.length _). }
  unfold ParseDuration. destruct (decide (0 ≤ z)) as [Hp|Hn].
  - rewrite Itoa_nonneg by done. pose proof (Hb (Z.to_N z) ltac:(lia)) as Hd0.
    destruct (pretty_N_first (Z.to_N z)) as (d & s' & Hd & Heq & _). rewrite Heq, str_app_cons in *.
    rewrite split_sign_digit by done. rewrite !bool_decide_eq_false_2, Hd0; [|done|].
    + rewrite Z2N.id by done. by rewrite bool_decide_eq_false_2 by lia.
    + by destruct s'.
  - destruct z as [|q|q]; [lia..|]. change (Itoa (Z.neg q) +:+ "ns") with (String "-" (pretty (N.pos q) +:+ "ns")).
    cbn [split_sign]. pose proof (Hb (N.pos q) ltac:(lia)) as Hd0.
    destruct (pretty_N_first (N.pos q)) as (d & s' & Hd & Heq & _). rewrite Heq, str_app_cons in *.
    rewrite !bool_decide_eq_false_2, Hd0; [done|done|by destruct s'].
Qed.

(** ** Round trip *)

Lemma set_print d v :
  in_range v → match d, v with FStr _, FStr _ | FInt _, FInt _ | FDur _, FDur _ | FBool _, FBool _ => True | _, _ => False end →
  set_value d (print_val v) = Some v.
Proof.
  destruct d, v; intros Hr Hk; try done; cbn.
  - by rewrite ParseInt_Itoa.
  - by rewrite ParseDuration_ns.
  - by destruct b0.
Qed.

(** An argument that sets a flag by name. *)
Lemma parse_args_set m name c n d v x rest :
  name = String c n → c ≠ "-"%char → c ≠ "="%char → has_byte "=" n = false → formal !! name = Some d →
  set_value d v = Some x →
  parse_args formal (("--" +:+ name +:+ String "=" v) :: rest) m = parse_args formal rest (<[name := x]> m).
Proof.
  intros -> Hc1 Hc2 Hn Hd Hx.
  change ("--" +:+ String c n +:+ String "=" v) with (String "-" (String "-" (String c (n +:+ String "=" v)))).
  cbn [parse_args classify]. unfold flag_name. rewrite !bool_decide_eq_false_2 by done. cbn [orb].
  rewrite Cut_join by done. rewrite Hd. cbn zeta. rewrite Hx. by destruct d.
Qed.

(** A flag's name, and a value of its type. *)
Definition settable (nv : string * fval) : Prop :=
  ∃ c n d, nv.1 = String c n ∧ c ≠ "-"%char ∧ c ≠ "="%char ∧ has_byte "=" n = false ∧
    formal !! nv.1 = Some d ∧ set_value d (print_val nv.2) = Some nv.2.

Lemma parse_args_print l m :
  Forall settable l → parse_args formal (print_flag <$> l) m = Parsed (foldl (λ m nv, <[nv.1 := nv.2]> m) m l).
Proof.
  intros Hl. revert m. induction Hl as [|[name v] l (c & n & d & Hn & H1 & H2 & H3 & H4 & H5) Hl IH]; intros m; [done|].
  cbn [fst snd] in *. rewrite fmap_cons. unfold print_flag at 1. cbn [fst snd].
  rewrite (parse_args_set m name c n d _ v) by done. by rewrite IH.
Qed.

(** C37: every configuration can be given on the command line: printing each
    field as a flag and parsing the arguments gives the configuration back, for
    any strings and any 64-bit numbers and durations. *)
Theorem flags_roundtrip (f : cliFlags) :
  Forall (λ nv, in_range nv.2) (values_of f) → parseFlags (print_flag <$> values_of f) = inl f.
Proof.
  intros Hr. unfold parseFlags. rewrite parse_args_print.
  - f_equal. destruct f. vm_compute. reflexivity.
  - unfold values_of in *. repeat (apply Forall_cons in Hr as [? Hr]).
    repeat (constructor; [do 3 eexists; split_and!; [reflexivity|done|done|reflexivity|vm_compute; reflexivity|];
      by apply set_print|]). constructor.
Qed.

(** Without arguments every flag has its default. *)
Lemma parseFlags_default : parseFlags [] = inl (flags_of formal).
Proof. reflexivity. Qed.

Example durations :
  ParseDuration "1h15m30.918s" = Some 4530918000000 ∧ ParseDuration "1.5h" = Some 5400000000000 ∧
  ParseDuration "-.5ms" = Some (-500000) ∧ ParseDuration "3" = None ∧ ParseDuration "9223372036854775808ns" = None ∧
  ParseDuration "0.3333333333333333333h" = Some 1200000000000.
Proof. vm_compute. repeat split. Qed.

Example integers :
  ParseInt "0x_1F" = Some 31 ∧ ParseInt "1_000" = Some 1000 ∧ ParseInt "010" = Some 8 ∧ ParseInt "1__0" = None ∧
  ParseInt "-9223372036854775808" = Some (- 2 ^ 63) ∧ ParseInt "9223372036854775808" = None.
Proof. vm_compute. repeat split. Qed.

Module FlagsDemo.
Definition f : cliFlags := MainCmd.Demo.flags "n1:9000=x" "".
End FlagsDemo.

Lemma flags_roundtrip_witness : parseFlags (print_flag <$> values_of FlagsDemo.f) = inl FlagsDemo.f.
Proof. apply (flags_roundtrip FlagsDemo.f). repeat constructor; done. Defined.
