(* ===== verification/Process.v ===== *)
(** * The process

    The function [run] of src/cmd/kloudlens-aggregator/main.go from the moment
    everything is wired: [Aggregator.Run] inside it, the handlers of the
    re-export server, the goroutine of the cursor store, and then the deferred
    calls, one after the other, until the process exits.  The first of them is
    the graceful stop of the gRPC server, so when the process exits is decided
    by the consumers that are still attached. *)
From stdpp Require Import base numbers gmap strings relations fin_maps list.
From S2P Require Import Prelude GoStr Json EnvWal EnvWalInv Pb CursorStore ClusterPeers Aggregator Fleet AggregatorSpec ReExport System Run MainCmd.
Local Open Scope nat_scope.

(** ** What is relied on *)

(** A cursor store seen from [run]: [Flush], the moves of its goroutine while it
    is open, [Close] up to its wait, and the moves it makes until it returns. *)
Class StoreOps (S : Type) := {
  st_flush : S → S;
  st_background : S → S → Prop;
  st_close : S → S;
  st_closing : S → bool;
  st_drain : S → S → Prop;
  st_drained : S → bool;
  st_rank : S → nat;
}.

(** Closing ends: the goroutine is not stuck, and has at most three moves left. *)
Class StoreLaws (S : Type) `{!StoreOps S} : Prop := {
  close_closing : ∀ s, st_closing (st_close s) = true;
  closing_quiet : ∀ s s', st_closing s = true → ¬ st_background s s';
  drain_closing : ∀ s s', st_closing s = true → st_drain s s' → st_closing s' = true ∧ st_rank s' < st_rank s;
  drain_progress : ∀ s, st_closing s = true → st_drained s = false → ∃ s', st_drain s s';
  rank_bound : ∀ s, st_rank s ≤ 3;
}.

(** A handler of the re-export server: the subscriber it registered, whether it
    is still replaying the log or in the live tail, and whether the context of
    its stream has ended, as it does when the consumer goes away. *)
Inductive hphase := HReplay | HTail.
Record rpc := mkRpc { h_id : nat; h_phase : hphase; h_gone : bool }.

(** [grpc.Server.GracefulStop] blocks until all the pending calls are finished. *)
Class GracefulStop (stop_returns : list rpc → Prop) : Prop := {
  stop_waits : ∀ l, stop_returns l → l = [];
  stop_idle : stop_returns [];
}.

(** ** Model *)

(** Where the main goroutine is: in [agg.Run], about to make the next deferred
    call, waiting for the cursor store's goroutine in [Close], gone. *)
Inductive pmain := PRunning | PReturning (todo : list closer) | PDraining (todo : list closer) | PExited.

Section process.
Context `{!ProtoJSON EventEnvelope} {S : Type} `{!CursorStore S, !StoreOps S}.
Context (stop_returns : list rpc → Prop) (f : cliFlags).

Abbreviation rst := (rstate (S := S)).

Record proc := mkProc { p_run : rst; p_rpcs : list rpc; p_at : pmain }.

Definition agg_of (p : proc) : Aggregator := s_agg (r_sys (p_run p)).
Definition store_of (p : proc) : S := s_store (r_sys (p_run p)).

Definition set_run (r : rst) (p : proc) : proc := mkProc r (p_rpcs p) (p_at p).
Definition set_at (m : pmain) (p : proc) : proc := mkProc (p_run p) (p_rpcs p) m.
Definition set_rpcs (l : list rpc) (p : proc) : proc := mkProc (p_run p) l (p_at p).
Definition on_aggregator (g : Aggregator → Aggregator) (p : proc) : proc :=
  set_run (with_sys (on_agg g (r_sys (p_run p))) (p_run p)) p.

(** The server takes a new call, which registers its subscriber first. *)
Definition do_accept (p : proc) : proc :=
  mkProc (with_sys (on_agg (λ a, (Subscribe_enter (reexport_server f) a).1) (r_sys (p_run p))) (p_run p))
    (p_rpcs p ++ [mkRpc (Subscribe_enter (reexport_server f) (agg_of p)).2 HReplay false]) (p_at p).

(** A handler returns: its deferred call removes the subscriber. *)
Definition do_hangup (h : rpc) (l : list rpc) (p : proc) : proc :=
  set_rpcs l (on_aggregator (unregisterSubscriber (h_id h)) p).

(** What arrives from outside, the end of a consumer's stream apart.  A handler
    goes on at the pace of its consumer; a replay can fail. *)
Inductive world_step : proc → proc → Prop :=
| w_input r p : p_at p ≠ PExited → input_step st_background (p_run p) r → world_step p (set_run r p)
| w_accept p : f_reexportAddr f ≠ "" → p_at p = PRunning → world_step p (do_accept p)
| w_consume h p : p_at p ≠ PExited → h ∈ p_rpcs p → world_step p (on_aggregator (consume (h_id h)) p)
| w_replayed l1 h l2 p : p_at p ≠ PExited → p_rpcs p = l1 ++ h :: l2 → h_phase h = HReplay →
    world_step p (set_rpcs (l1 ++ mkRpc (h_id h) HTail (h_gone h) :: l2) p)
| w_replay_error l1 h l2 p : p_at p ≠ PExited → p_rpcs p = l1 ++ h :: l2 → h_phase h = HReplay →
    world_step p (do_hangup h (l1 ++ l2) p).

(** The stream of a consumer ends: it disconnected or cancelled its call. *)
Inductive gone_step (id : nat) : proc → proc → Prop :=
| gone l1 h l2 p : p_at p ≠ PExited → p_rpcs p = l1 ++ h :: l2 → h_id h = id →
    gone_step id p (set_rpcs (l1 ++ mkRpc (h_id h) (h_phase h) true :: l2) p).

(** What the process does by itself. *)
Inductive proc_own : proc → proc → Prop :=
| p_inner r p : p_at p ≠ PExited → own_step st_flush (p_run p) r → proc_own p (set_run r p)
| p_hangup l1 h l2 p : p_at p ≠ PExited → p_rpcs p = l1 ++ h :: l2 → h_gone h = true →
    proc_own p (do_hangup h (l1 ++ l2) p)
| p_return p : p_at p = PRunning → r_main (p_run p) = MReturned → proc_own p (set_at (PReturning (deferred f None)) p)
| p_stop todo p : p_at p = PReturning (StopReexport :: todo) → stop_returns (p_rpcs p) →
    proc_own p (set_at (PReturning todo) p)
| p_cancel todo p : p_at p = PReturning (CancelCtx :: todo) →
    proc_own p (mkProc (cancelled (p_run p)) (p_rpcs p) (PReturning todo))
| p_close_wal todo p : p_at p = PReturning (CloseWal :: todo) →
    proc_own p (set_at (PReturning todo) (on_aggregator (λ a, set_wal ((λ ws, (Close ws.1, ws.2)) <$> wal a) a) p))
| p_close_cursors todo p : p_at p = PReturning (CloseCursors :: todo) →
    proc_own p (set_at (PDraining todo) (set_run (with_store (st_close (store_of p)) (p_run p)) p))
| p_drain s todo p : p_at p = PDraining todo → st_drain (store_of p) s →
    proc_own p (set_run (with_store s (p_run p)) p)
| p_drained todo p : p_at p = PDraining todo → st_drained (store_of p) = true → proc_own p (set_at (PReturning todo) p)
| p_close_output todo p : p_at p = PReturning (CloseOutput :: todo) → proc_own p (set_at (PReturning todo) p)
| p_exit p : p_at p = PReturning [] → proc_own p (set_at PExited p).

Definition proc_step (p p' : proc) : Prop := world_step p p' ∨ (∃ id, gone_step id p p') ∨ proc_own p p'.

(** Everything but the departure of one consumer. *)
Definition step_without (id : nat) (p p' : proc) : Prop :=
  world_step p p' ∨ (∃ id', id' ≠ id ∧ gone_step id' p p') ∨ proc_own p p'.

Definition proc_start (a : Aggregator) (store : S) : proc := mkProc (run_start a store) [] PRunning.

(** ** What the steps leave alone *)

(** The log has no file open. *)
Definition log_shut (a : Aggregator) : Prop :=
  ∀ w fs c, wal a = Some (w, fs) → cur_seg w = Some c → EnvWal.f c = false.

Definition same_subs (a a' : Aggregator) : Prop :=
  next_sub a' = next_sub a ∧ ∀ id, is_Some (subs a' !! id) ↔ is_Some (subs a !! id).

Lemma cur_seg_head w : cur_seg w = head (filter (λ s, cur w = Some (sid s)) (segments w)).
Proof.
  unfold cur_seg. induction (segments w) as [|s l IH]; [done|]. cbn [list_find]. rewrite filter_cons.
  case_decide; [done|]. rewrite <-IH. by destruct (list_find _ l) as [[??]|].
Qed.

Lemma gc_trim_cur rm_ok max c total l (fs : FS) n :
  filter (λ s, c = Some (sid s)) (gc_trim rm_ok max c total l fs n).1.1 = filter (λ s, c = Some (sid s)) l.
Proof.
  revert total fs n. induction l as [|v l IH]; intros total fs n; [done|]. destruct l as [|x r]; [done|].
  rewrite gc_trim_cons. case_bool_decide; [|done]. case_bool_decide; [done|].
  by rewrite IH, (filter_cons_False _ v).
Qed.

(** A collection spares the current segment. *)
Lemma gc_cur_seg rm_ok now w (fs : FS) : cur_seg (GC rm_ok now w fs).1 = cur_seg w.
Proof.
  rewrite !cur_seg_head. unfold GC, gc_ttl.
  match goal with |- context [gc_trim ?a ?b ?c ?d ?e ?g ?h] =>
    pose proof (gc_trim_cur a b c d e g h) as Hc; destruct (gc_trim a b c d e g h) as [[l fs2] n] end.
  cbn in *. rewrite Hc, list_filter_filter_l; [done|]. intros s Hs. unfold gc_keep. by rewrite bool_decide_eq_true_2.
Qed.

Lemma gc_shut rm_ok now w fs a :
  wal a = Some (w, fs) → log_shut a → log_shut (set_wal (Some (GC rm_ok now w fs)) a).
Proof.
  intros Hw Hs w' fs' c [= Heq] Hc. apply (Hs w fs); [done|].
  by rewrite <-(gc_cur_seg rm_ok now w fs), Heq.
Qed.

Lemma close_shut a : log_shut (set_wal ((λ ws, (Close ws.1, ws.2)) <$> wal a) a).
Proof.
  intros w' fs' c Hw Hc. cbn in Hw. destruct (wal a) as [[w fs]|]; [|done]. injection Hw as <- _.
  cbn in *. unfold Close in Hc. destruct (cur_seg w) as [c0|] eqn:E; [|congruence].
  destruct (EnvWal.f c0) eqn:Hf; [|congruence]. rewrite cur_seg_head in Hc. unfold upd_cur in Hc. cbn in Hc.
  apply head_Some_elem_of in Hc. apply list_elem_of_filter in Hc as [Hc (s & -> & _)%list_elem_of_fmap].
  case_bool_decide as Hd; [done|]. done.
Qed.

Lemma handle_same_subs io ev a : same_subs a (handle io ev a).
Proof.
  destruct (handle_counted io ev a) as (j & [[_ _ Hn _ _ _] _ _ _] & _). split; [done|]. intros id.
  destruct (is_controlb (ev_Envelope ev)) eqn:Hc.
  - destruct (handle_control io ev a) as (He & _); [by apply is_controlb_spec|]. unfold emitted in He.
    by rewrite He, lookup_fmap, fmap_is_Some.
  - destruct (handle_data io ev a) as (s1 & [He|(? & ? & _ & He)]); [rewrite <-is_controlb_spec; congruence|..];
      unfold emitted in He; by rewrite He, lookup_fmap, fmap_is_Some.
Qed.

Lemma own_same_subs r r' :
  own_step st_flush r r' → same_subs (s_agg (r_sys r)) (s_agg (r_sys r')).
Proof.
  destruct 1 as [| | | | |io ev rest st Hq| | | | | |]; try done. cbn. unfold write_step. fold (queue st). rewrite Hq.
  apply (handle_same_subs io ev (set_ch rest (s_agg (r_sys st)))).
Qed.

(** Inputs leave the subscriber set alone; after [Run] has returned they also
    leave the main goroutine there, an open log file closed if it was, and a
    closing store. *)
Lemma input_frame r r' :
  input_step st_background r r' →
  same_subs (s_agg (r_sys r)) (s_agg (r_sys r')) ∧
  (r_main r = MReturned → r_main r' = MReturned) ∧
  (log_shut (s_agg (r_sys r)) → log_shut (s_agg (r_sys r'))) ∧
  (s_store (r_sys r') = s_store (r_sys r) ∨ r_gos r ≠ [] ∨ st_background (s_store (r_sys r)) (s_store (r_sys r'))).
Proof.
  destruct 1 as [st|v eps st Hv Hm|st Hm|l1 g l2 env st Hg Hpc|now len nsvc st|now st|rm_ok now w fs st Hw|er sr st|store st Hb];
    unfold agg_Stats; cbn; try destruct (Size now _) as [rg sz]; cbn; split_and!; try done; try (by left); try congruence.
  - by case_bool_decide.
  - by case_bool_decide.
  - right; left. rewrite Hg. by destruct l1.
  - by apply gc_shut.
  - by right; right.
Qed.

(** Nothing of [Run] is left once it has returned. *)
Lemma returned_quiet r r' : Run.run_inv r → r_main r = MReturned → ¬ own_step st_flush r r'.
Proof.
  intros HI Hm Hs. assert (Hg : r_gos r = []) by (apply (ri_closed _ HI); by rewrite Hm).
  pose proof (ri_returned _ HI Hm) as Hw.
  destruct Hs as [| |st Hd| | | | |l1 g l2 st Hg'|l1 g l2 st Hg'|l1 g l2 st Hg'|l1 g l2 st Hg'|l1 g l2 st Hg'];
    try congruence; try (rewrite Hg in Hg'; by destruct l1). destruct Hd; congruence.
Qed.

(** ** The invariant *)

(** The deferred calls made so far. *)
Definition made (m : pmain) (past : list closer) : Prop :=
  match m with
  | PRunning => past = []
  | PReturning todo => deferred f None = past ++ todo
  | PDraining todo => deferred f None = past ++ CloseCursors :: todo
  | PExited => past = deferred f None
  end.

(** What a deferred call has brought about. *)
Definition effect (p : proc) (c : closer) : Prop :=
  match c with
  | StopReexport => p_rpcs p = []
  | CancelCtx => r_done (p_run p) = true
  | CloseWal => log_shut (agg_of p)
  | CloseCursors => st_closing (store_of p) = true ∧ st_drained (store_of p) = true
  | CloseOutput => True
  end.

(** Every handler has its own registered subscriber. *)
Record calls_ok (p : proc) : Prop := {
  co_subs : ∀ h, h ∈ p_rpcs p → is_Some (subs (agg_of p) !! h_id h);
  co_fresh : ∀ id, is_Some (subs (agg_of p) !! id) → id < next_sub (agg_of p);
  co_nodup : NoDup (h_id <$> p_rpcs p);
  co_serving : f_reexportAddr f = "" → p_rpcs p = [];
}.

Record proc_inv (p : proc) : Prop := {
  pi_run : Run.run_inv (p_run p);
  pi_returned : p_at p ≠ PRunning → r_main (p_run p) = MReturned;
  pi_calls : calls_ok p;
  pi_made : ∃ past, made (p_at p) past ∧ Forall (effect p) past;
  pi_draining : ∀ todo, p_at p = PDraining todo → st_closing (store_of p) = true;
}.

Lemma calls_same p p' :
  same_subs (agg_of p) (agg_of p') → h_id <$> p_rpcs p' = h_id <$> p_rpcs p → calls_ok p → calls_ok p'.
Proof.
  intros [Hn Hs] Hr [H1 H2 H3 H4]. split.
  - intros h Hh. apply Hs. assert (Hi : h_id h ∈ h_id <$> p_rpcs p) by (rewrite <-Hr; by apply list_elem_of_fmap_2).
    apply list_elem_of_fmap in Hi as (h' & -> & Hi). by apply H1.
  - intros id Hid. rewrite Hn. by apply H2, Hs.
  - by rewrite Hr.
  - intros Hf. rewrite (H4 Hf) in Hr. by apply fmap_nil_inv in Hr.
Qed.

Lemma consume_same_subs id a : same_subs a (consume id a).
Proof.
  split; [done|]. intros id'. cbn. rewrite lookup_alter. case_decide; [subst|done].
  destruct (subs a !! id'); cbn; [|done]. split; by eauto.
Qed.

(** The server takes a call. *)
Lemma accept_calls p : f_reexportAddr f ≠ "" → calls_ok p → calls_ok (do_accept p).
Proof.
  intros Hf [H1 H2 H3 H4]. unfold agg_of in *. split; unfold agg_of, do_accept in *; cbn in *.
  - intros h [Hh|Hh]%elem_of_app.
    + rewrite lookup_insert_ne; [by apply H1|]. apply H1, H2 in Hh. lia.
    + apply list_elem_of_singleton in Hh as ->. cbn. by rewrite lookup_insert_eq.
  - intros id Hid. destruct (decide (id = next_sub (s_agg (r_sys (p_run p))))) as [->|Hne]; [lia|].
    rewrite lookup_insert_ne in Hid by done. apply H2 in Hid. lia.
  - rewrite fmap_app. apply NoDup_app. split_and!; [done| |cbn; apply NoDup_singleton].
    intros id (h & -> & Hh)%list_elem_of_fmap Hid. cbn in Hid. apply list_elem_of_singleton in Hid.
    apply H1, H2 in Hh. unfold agg_of in Hid. lia.
  - done.
Qed.

(** A handler returns. *)
Lemma hangup_calls l1 h l2 p : p_rpcs p = l1 ++ h :: l2 → calls_ok p → calls_ok (do_hangup h (l1 ++ l2) p).
Proof.
  intros Hr [H1 H2 H3 H4]. rewrite Hr in H3. rewrite fmap_app, fmap_cons in H3.
  assert (Hid : ∀ id, is_Some (subs (agg_of (do_hangup h (l1 ++ l2) p)) !! id) ↔ is_Some (subs (agg_of p) !! id) ∧ id ≠ h_id h).
  { intros id. unfold agg_of, do_hangup. cbn. unfold unregisterSubscriber.
    destruct (subs (s_agg (r_sys (p_run p))) !! h_id h) as [sb|] eqn:E; cbn.
    - rewrite lookup_delete. case_decide; naive_solver.
    - split; [|tauto]. intros Hx. split; [done|]. intros ->. rewrite E in Hx. by destruct Hx. }
  split.
  - intros h' Hh. apply Hid. split; [apply H1; rewrite Hr; set_solver|]. intros Heq.
    apply NoDup_app in H3 as (_ & Hd & H3). apply NoDup_cons in H3 as [H3 _].
    apply elem_of_app in Hh as [Hh|Hh]; apply (list_elem_of_fmap_2 h_id) in Hh; rewrite Heq in Hh; [|done].
    apply (Hd _ Hh). by left.
  - intros id [Hx _]%Hid. apply H2 in Hx. unfold agg_of, do_hangup in *. cbn. unfold unregisterSubscriber.
    by destruct (subs (s_agg (r_sys (p_run p))) !! h_id h).
  - cbn. rewrite fmap_app. apply NoDup_app in H3 as (Ha & Hb & Hc). apply NoDup_cons in Hc as [_ Hc].
    apply NoDup_app. split_and!; [done|set_solver|done].
  - intros Hf. rewrite (H4 Hf) in Hr. by destruct l1.
Qed.

(** A step that keeps the main goroutine where it is keeps the effects of the
    calls made, when it keeps each of them. *)
Lemma made_keep p p' :
  p_at p' = p_at p → (p_at p ≠ PRunning → ∀ c, effect p c → effect p' c) →
  (∃ past, made (p_at p) past ∧ Forall (effect p) past) → ∃ past, made (p_at p') past ∧ Forall (effect p') past.
Proof.
  intros Hat He (past & Hm & Hp). exists past. rewrite Hat. split; [done|].
  destruct (decide (past = [])) as [->|Hne]; [constructor|].
  eapply Forall_impl; [exact Hp|]. apply He. intros Hr. rewrite Hr in Hm. done.
Qed.

(** ** Preservation *)

Lemma input_proc r p :
  p_at p ≠ PExited → input_step st_background (p_run p) r → StoreLaws S → proc_inv p → proc_inv (set_run r p).
Proof.
  intros Hat Hs HL [H1 H2 H3 H4 H5]. destruct (input_frame _ _ Hs) as (Hsub & Hmain & Hshut & Hst).
  assert (Hkeep : p_at p ≠ PRunning → st_closing (store_of p) = true → store_of (set_run r p) = store_of p).
  { intros Hr Hc. destruct Hst as [?|[Hg|Hb]]; [done| |].
    - destruct Hg. apply (ri_closed _ H1). by rewrite H2.
    - by apply closing_quiet in Hb. }
  split.
  - by eapply input_inv.
  - intros Hr. by apply Hmain, H2.
  - by eapply calls_same.
  - apply (made_keep p); [done| |exact H4]. intros Hr c. destruct c; cbn; try done.
    + intros [Hc Hd]. by rewrite Hkeep.
    + intros Hd. by destruct Hs.
  - cbn. intros todo Ht. rewrite Hkeep; [by eapply H5|by rewrite Ht|by eapply H5].
Qed.

(** A step of the handlers that touches neither the main goroutine, nor the log,
    nor the store. *)
Lemma client_proc r l p :
  client_step (p_run p) r → calls_ok (mkProc r l (p_at p)) → (p_rpcs p = [] → l = []) →
  proc_inv p → proc_inv (mkProc r l (p_at p)).
Proof.
  destruct p as [r0 l0 m0]. intros Hs Hc Hl [H1 H2 H3 H4 H5]. cbn [p_run p_rpcs p_at] in *.
  split; [by eapply client_inv| |done| |].
  - cbn. intros Hr. destruct Hs; by apply H2.
  - apply (made_keep (mkProc r0 l0 m0)); [done| |exact H4]. intros Hr c. destruct Hs as [rx st|id st|id st]; destruct c; cbn; try done.
    intros Hx w fs c' Hw. apply (Hx w fs). revert Hw. unfold agg_of. cbn. unfold unregisterSubscriber.
    by destruct (subs _ !! id).
  - cbn. intros todo Ht. specialize (H5 todo Ht). by destruct Hs.
Qed.

Lemma rpcs_proc l p :
  h_id <$> l = h_id <$> p_rpcs p → proc_inv p → proc_inv (set_rpcs l p).
Proof.
  intros Hl [H1 H2 H3 H4 H5]. split; try done; [by eapply (calls_same p)|].
  apply (made_keep p); [done| |exact H4]. intros _ [] ; cbn; try done.
  intros Hp. rewrite Hp in Hl. by apply fmap_nil_inv in Hl.
Qed.

Lemma hangup_proc l1 h l2 p :
  p_rpcs p = l1 ++ h :: l2 → proc_inv p → proc_inv (do_hangup h (l1 ++ l2) p).
Proof.
  intros Hr HI. apply (client_proc _ (l1 ++ l2) p).
  - apply cl_unsubscribe.
  - by apply hangup_calls; [|apply HI].
  - rewrite Hr. by destruct l1.
  - done.
Qed.

Lemma world_inv p p' : StoreLaws S → world_step p p' → proc_inv p → proc_inv p'.
Proof.
  intros HL Hs HI. destruct Hs as [r p Hat Hs|p Hf Hat|h p Hat Hh|l1 h l2 p Hat Hr Hp|l1 h l2 p Hat Hr Hp].
  - by apply input_proc.
  - split.
    + apply (client_inv (p_run p)); [apply cl_subscribe|apply HI].
    + cbn. by rewrite Hat.
    + apply accept_calls; [done|apply HI].
    + exists []. cbn. by rewrite Hat.
    + cbn. by rewrite Hat.
  - apply (client_proc _ (p_rpcs p) p); [apply cl_consume| |done|done].
    eapply (calls_same p); [apply consume_same_subs|done|apply HI].
  - apply rpcs_proc; [|done]. by rewrite Hr, !fmap_app.
  - by apply hangup_proc.
Qed.

Lemma gone_inv id p p' : gone_step id p p' → proc_inv p → proc_inv p'.
Proof. intros [l1 h l2 q Hat Hr Hid] HI. apply rpcs_proc; [|done]. by rewrite Hr, !fmap_app. Qed.

(** The main goroutine has made the next deferred call. *)
Lemma made_push c todo p p' :
  p_at p = PReturning (c :: todo) → p_at p' = PReturning todo → (∀ c', effect p c' → effect p' c') → effect p' c →
  (∃ past, made (p_at p) past ∧ Forall (effect p) past) → ∃ past, made (p_at p') past ∧ Forall (effect p') past.
Proof.
  intros Hp Hp' Hk Hc (past & Hm & He). rewrite Hp in Hm. exists (past ++ [c]). rewrite Hp'. cbn in *. split.
  - by rewrite <-(assoc_L (++)).
  - apply Forall_app. split; [by eapply Forall_impl|by constructor].
Qed.

Lemma deferred_NoDup : NoDup (deferred f None).
Proof.
  unfold deferred. destruct (bool_decide (f_cursorFile f = "")), (bool_decide (f_walDir f = "")),
    (bool_decide (f_reexportAddr f = "")); apply (bool_decide_unpack _); vm_compute; done.
Qed.

(** While the cursor store is being closed, nothing else rests on it. *)
Lemma made_draining todo p p' :
  p_at p = PReturning (CloseCursors :: todo) ∨ p_at p = PDraining todo → p_at p' = PDraining todo →
  (∀ c, c ≠ CloseCursors → effect p c → effect p' c) →
  (∃ past, made (p_at p) past ∧ Forall (effect p) past) → ∃ past, made (p_at p') past ∧ Forall (effect p') past.
Proof.
  intros Hp Hp' Hk (past & Hm & He).
  assert (Hd : deferred f None = past ++ CloseCursors :: todo) by (destruct Hp as [Hp|Hp]; by rewrite Hp in Hm).
  exists past. rewrite Hp'. split; [done|]. pose proof deferred_NoDup as Hn. rewrite Hd in Hn.
  apply NoDup_app in Hn as (_ & Hn & _). rewrite Forall_forall in *. intros c Hc. apply Hk; [|by apply He].
  intros ->. apply (Hn _ Hc). by left.
Qed.

Lemma own_proc_inv p p' : StoreLaws S → GracefulStop stop_returns → proc_own p p' → proc_inv p → proc_inv p'.
Proof.
  intros HL HG Hs HI. destruct Hs as [r p Hat Hs|l1 h l2 p Hat Hr Hg|p Hat Hm|todo p Hat Hst|todo p Hat|todo p Hat
    |todo p Hat|s todo p Hat Hd|todo p Hat Hd|todo p Hat|p Hat].
  2: by apply hangup_proc.
  all: pose proof HI as [H1 H2 H3 H4 H5].
  - assert (Hrun : p_at p = PRunning).
    { destruct (p_at p); [done|exfalso; eapply (returned_quiet (p_run p)); [done|by apply H2|done]..]. }
    split; [by eapply own_inv|by cbn; rewrite Hrun| |exists []; cbn; by rewrite Hrun|cbn; by rewrite Hrun].
    eapply (calls_same p); [by apply own_same_subs|done..].
  - split; [done|intros _; exact Hm|by eapply (calls_same p)|exists []; split; [done|constructor]|done].
  - split; [done|intros _; cbn; apply H2; by rewrite Hat|by eapply (calls_same p)| |done].
    eapply made_push; [done|done|by intros []|by apply stop_waits|done].
  - split; [by apply (input_inv st_background (p_run p)); [apply in_cancel|]|intros _; cbn; apply H2; by rewrite Hat|by eapply (calls_same p)| |done].
    eapply made_push; [exact Hat|done|by intros []|done|done].
  - split; [by apply on_agg_inv|intros _; cbn; apply H2; by rewrite Hat|by eapply (calls_same p)| |done].
    eapply made_push; [exact Hat|done| |apply close_shut|done].
    intros [] He; try exact He. apply close_shut.
  - split; [|intros _; cbn; apply H2; by rewrite Hat|by eapply (calls_same p)| |intros; apply close_closing].
    + apply inv_sys; [done|done|]. apply (ri_writer _ H1).
    + eapply made_draining; [by left|done|by intros []|done].
  - destruct (drain_closing _ _ (H5 _ Hat) Hd) as [Hc _].
    split; [|done|by eapply (calls_same p)| |done].
    + apply inv_sys; [done|done|]. apply (ri_writer _ H1).
    + eapply made_draining; [by right|done|by intros []|done].
  - split; [done|intros _; cbn; apply H2; by rewrite Hat|by eapply (calls_same p)| |done]. destruct H4 as (past & Hm & He). rewrite Hat in Hm.
    exists (past ++ [CloseCursors]). cbn in *. split; [by rewrite <-(assoc_L (++))|]. apply Forall_app. split.
    + eapply Forall_impl; [exact He|]. by intros [].
    + constructor; [|done]. split; [by eapply H5|done].
  - split; [done|intros _; cbn; apply H2; by rewrite Hat|by eapply (calls_same p)| |done]. eapply made_push; [exact Hat|done|by intros []|done|done].
  - split; [done|intros _; cbn; apply H2; by rewrite Hat|by eapply (calls_same p)| |done]. destruct H4 as (past & Hm & He). rewrite Hat in Hm.
    exists past. cbn in *. rewrite Hm, app_nil_r. split; [done|]. eapply Forall_impl; [exact He|]. by intros [].
Qed.

Lemma proc_start_inv a store : subs a = ∅ → proc_inv (proc_start a store).
Proof.
  intros Hs. split; [apply run_start_inv|done| |by exists []|done].
  split; unfold agg_of; cbn; rewrite ?Hs; try done.
  - by intros h ?%not_elem_of_nil.
  - intros id. rewrite lookup_empty. by intros [? ?].
  - constructor.
Qed.

(** ** Leaving *)

Context `{!StoreLaws S, !GracefulStop stop_returns}.

Lemma proc_step_inv p p' : proc_step p p' → proc_inv p → proc_inv p'.
Proof. intros [Hs|[[id Hs]|Hs]]; [by eapply world_inv|by eapply gone_inv|by eapply own_proc_inv]. Qed.

Lemma proc_steps_inv p p' : rtc proc_step p p' → proc_inv p → proc_inv p'.
Proof. induction 1; eauto using proc_step_inv. Qed.

Lemma own_steps p p' : rtc proc_own p p' → rtc proc_step p p'.
Proof. apply rtc_subrel. by right; right. Qed.

Definition call_weight (c : closer) : nat := match c with CloseCursors => 5 | _ => 1 end.

Definition at_weight (p : proc) : nat :=
  match p_at p with
  | PRunning => 2 + sum_list_with call_weight (deferred f None)
  | PReturning todo => 1 + sum_list_with call_weight todo
  | PDraining todo => 2 + st_rank (store_of p) + sum_list_with call_weight todo
  | PExited => 0
  end.

(** What the process has left to do. *)
Definition load (p : proc) : nat := work (p_run p) + length (p_rpcs p) + at_weight p.

Lemma work_frame s' (r : rst) :
  cfg (s_agg s') = cfg (s_agg (r_sys r)) → ch (s_agg s') = ch (s_agg (r_sys r)) → work (with_sys s' r) = work r.
Proof. intros Hc Hq. unfold work, streams, queue. cbn. by rewrite Hc, Hq. Qed.

Lemma unregister_front id a :
  cfg (unregisterSubscriber id a) = cfg a ∧ ch (unregisterSubscriber id a) = ch a.
Proof. unfold unregisterSubscriber. by destruct (subs a !! id). Qed.

Lemma own_load p p' :
  proc_own p p' → proc_inv p → r_done (p_run p) = true → r_done (p_run p') = true ∧ load p' < load p.
Proof.
  intros Hs HI Hdone. unfold load. destruct Hs as [r p Hat Hs|l1 h l2 p Hat Hr Hg|p Hat Hm|todo p Hat Hst|todo p Hat|todo p Hat
    |todo p Hat|s todo p Hat Hd|todo p Hat Hd|todo p Hat|p Hat]; unfold at_weight; cbn [p_run p_at p_rpcs set_run set_at].
  - destruct (own_step_work _ _ _ Hs Hdone) as [Hd Hlt]. split; [done|].
    destruct (p_at p) as [|todo|todo|] eqn:E; [lia..| |done].
    exfalso. eapply (returned_quiet (p_run p)); [apply HI|apply (pi_returned _ HI); by rewrite E|done].
  - split; [done|]. destruct (unregister_front (h_id h) (agg_of p)) as [Hc Hq].
    unfold do_hangup. cbn [p_run p_at p_rpcs set_rpcs on_aggregator set_run]. rewrite work_frame by done.
    rewrite Hr, !length_app. cbn [length]. unfold store_of. cbn. destruct (p_at p); lia.
  - rewrite Hat. split; [done|lia].
  - rewrite Hat. split; [done|cbn; lia].
  - rewrite Hat. split; [done|]. unfold work, streams, queue. cbn. lia.
  - rewrite Hat. split; [done|]. cbn [on_aggregator set_run p_run p_rpcs]. rewrite work_frame by done. cbn; lia.
  - rewrite Hat. split; [done|]. unfold with_store. rewrite work_frame by done. unfold store_of. cbn [p_run set_run set_at with_sys r_sys s_store].
    pose proof (rank_bound (st_close (s_store (r_sys (p_run p))))). cbn. lia.
  - rewrite Hat. split; [done|]. unfold with_store. rewrite work_frame by done. unfold store_of. cbn [p_run set_run with_sys r_sys s_store].
    pose proof (drain_closing _ _ (pi_draining _ HI _ Hat) Hd) as [_ Hlt]. unfold store_of in *. lia.
  - rewrite Hat. split; [done|lia].
  - rewrite Hat. split; [done|cbn; lia].
  - rewrite Hat. split; [done|cbn; lia].
Qed.

Lemma own_terminates p : proc_inv p → r_done (p_run p) = true → sn proc_own p.
Proof.
  remember (load p) as n eqn:Hn. revert p Hn. induction (lt_wf n) as [n _ IH]. intros p -> HI Hd.
  constructor. intros p' Hs. destruct (own_load _ _ Hs HI Hd) as [Hd' Hlt].
  apply (IH (load p')); [done|done| |done]. by eapply own_proc_inv.
Qed.

Lemma own_done_kept p p' : rtc proc_own p p' → proc_inv p → r_done (p_run p) = true → r_done (p_run p') = true.
Proof.
  induction 1 as [|x y z Hs _ IH]; intros HI Hd; [done|]. destruct (own_load _ _ Hs HI Hd) as [Hd' _].
  apply IH; [by eapply own_proc_inv|done].
Qed.

(** A process that has nothing left to do by itself has exited, or waits for the
    consumers in the graceful stop. *)
Lemma own_stuck p :
  proc_inv p → r_done (p_run p) = true → nf proc_own p →
  p_at p = PExited ∨
  ((∃ todo, p_at p = PReturning (StopReexport :: todo)) ∧ p_rpcs p ≠ [] ∧ Forall (λ h, h_gone h = false) (p_rpcs p)).
Proof.
  intros HI Hd Hnf. destruct (p_at p) as [|[|c todo]|todo|] eqn:Hat; [..|by left].
  - destruct (r_main (p_run p)) eqn:Hm;
      [destruct (never_stuck st_flush (p_run p)) as [r Hr]; [apply HI|done|by rewrite Hm|];
       destruct Hnf; eexists; apply p_inner; [by rewrite Hat|exact Hr]..|].
    destruct Hnf. eexists. by apply p_return.
  - destruct Hnf. eexists. by apply p_exit.
  - destruct c.
    + destruct Hnf. eexists. by eapply p_close_output.
    + destruct Hnf. eexists. by eapply p_close_cursors.
    + destruct Hnf. eexists. by eapply p_close_wal.
    + destruct Hnf. eexists. by eapply p_cancel.
    + right. split; [by exists todo|]. split.
      * intros Hr. destruct Hnf. eexists. eapply p_stop; [exact Hat|]. rewrite Hr. apply stop_idle.
      * apply Forall_forall. intros h (l1 & l2 & Hr)%list_elem_of_split. destruct (h_gone h) eqn:Hg; [|done].
        destruct Hnf. eexists. eapply p_hangup; [by rewrite Hat|exact Hr|exact Hg].
  - destruct (st_drained (store_of p)) eqn:E.
    + destruct Hnf. eexists. by eapply p_drained.
    + destruct (drain_progress _ (pi_draining _ HI _ Hat) E) as [s' Hs']. destruct Hnf. eexists. by eapply p_drain.
Qed.

(** ** When the process exits *)

Lemma started_inv io w store : MainCmd.run f io = inl w → proc_inv (proc_start (w_agg w) store).
Proof.
  intros (c & res & sv & wl & HN)%run_New. apply proc_start_inv. revert HN. unfold New.
  repeat case_match; by intros [= <-].
Qed.

(** The counters balance all the way. *)
Lemma proc_sys_inv p p' : proc_step p p' → proc_inv p → sys_inv (r_sys (p_run p)) → sys_inv (r_sys (p_run p')).
Proof.
  intros Hstep HI HS.
  assert (Hrun : ∀ r', run_step st_flush st_background (p_run p) r' → sys_inv (r_sys r')).
  { intros r' Hs. eapply run_sys_inv; [exact Hs|apply HI|done]. }
  assert (Hcl : ∀ r', client_step (p_run p) r' → sys_inv (r_sys r')) by (intros r' Hs; apply Hrun; by right; left).
  destruct Hstep as [Hs|[[id Hs]|Hs]].
  - destruct Hs; cbn; auto; try (by apply Hrun; left);
      [by apply (Hcl _ (cl_subscribe _ _))|by apply (Hcl _ (cl_consume _ _))|by apply (Hcl _ (cl_unsubscribe _ _))].
  - by destruct Hs.
  - destruct Hs as [r p Hat Hs|l1 h l2 p Hat Hr Hg|p Hat Hm|todo p Hat Hst|todo p Hat|todo p Hat
      |todo p Hat|s todo p Hat Hd|todo p Hat Hd|todo p Hat|p Hat]; cbn; try done.
    + apply Hrun. by right; right.
    + by apply (Hcl _ (cl_unsubscribe _ _)).
    + apply quiet_inv; try done; cbn; [by rewrite fmap_is_Some|]. intros id sb Hl. by apply (si_subs _ HS) in Hl as [? ?].
    + destruct HS as [S1 S2 S3 S4 S5]. by split.
    + destruct HS as [S1 S2 S3 S4 S5]. by split.
Qed.

Lemma reachable_both io w store p :
  MainCmd.run f io = inl w → rtc proc_step (proc_start (w_agg w) store) p → proc_inv p ∧ sys_inv (r_sys (p_run p)).
Proof.
  intros HR Hr. assert (H0 : proc_inv (proc_start (w_agg w) store) ∧ sys_inv (r_sys (p_run (proc_start (w_agg w) store)))).
  { split; [by eapply started_inv|]. apply run_New in HR as (c & res & sv & wl & HN). by eapply start_sys_inv. }
  induction Hr as [|x y z Hs _ IH]; [done|]. apply IH. destruct H0 as [H1 H2]. eauto using proc_step_inv, proc_sys_inv.
Qed.

(** A consumer that stays keeps its handler. *)
Lemma consumer_stays h p p' :
  h ∈ p_rpcs p → h_phase h = HTail → h_gone h = false → step_without (h_id h) p p' → h ∈ p_rpcs p'.
Proof.
  assert (Hrep : ∀ l1 h' l2 x, h ∈ l1 ++ h' :: l2 → h ≠ h' → h ∈ l1 ++ x ++ l2).
  { intros l1 h' l2 x. rewrite !elem_of_app, elem_of_cons. naive_solver. }
  intros Hh Hp Hg [Hs|[(id & Hne & Hs)|Hs]].
  - destruct Hs as [| | |l1 h' l2 p Hat Hr Hp'|l1 h' l2 p Hat Hr Hp']; cbn in *; try done; [set_solver|..]; rewrite Hr in Hh.
    + apply (Hrep _ _ _ [_] Hh). congruence.
    + apply (Hrep _ _ _ [] Hh). congruence.
  - destruct Hs as [l1 h' l2 p Hat Hr Hid]. cbn. rewrite Hr in Hh. apply (Hrep _ _ _ [_] Hh). congruence.
  - destruct Hs as [|l1 h' l2 p Hat Hr Hg'| | | | | | | | |]; cbn in *; try done. rewrite Hr in Hh.
    apply (Hrep _ _ _ [] Hh). congruence.
Qed.

(** With a handler there, the graceful stop has not returned. *)
Lemma consumer_blocks h p :
  proc_inv p → h ∈ p_rpcs p → p_at p = PRunning ∨ ∃ todo, p_at p = PReturning (StopReexport :: todo).
Proof.
  intros HI Hh. assert (Hne : p_rpcs p ≠ []) by (intros E; rewrite E in Hh; by apply not_elem_of_nil in Hh).
  assert (Hf : f_reexportAddr f ≠ "") by (intros E; by apply Hne, (co_serving _ (pi_calls _ HI))).
  destruct (pi_made _ HI) as (past & Hm & He).
  assert (Hpast : StopReexport ∉ past).
  { intros Hin. rewrite Forall_forall in He. by apply Hne, (He _ Hin). }
  assert (Hd : ∃ l, deferred f None = StopReexport :: l) by (unfold deferred; rewrite (bool_decide_eq_false_2 (f_reexportAddr f = "")) by done; cbn; eauto).
  destruct Hd as [l Hd]. unfold made in Hm. destruct (p_at p) as [|todo|todo|]; [by left|rewrite Hd in Hm..].
  - destruct past as [|c past]; [right; cbn in Hm; subst; eauto|]. injection Hm as <- _. set_solver.
  - destruct past as [|c past]; [done|]. injection Hm as <- _. set_solver.
  - destruct Hpast. rewrite Hm. by left.
Qed.

(** What happens to the cursor store: saves and the last flush while [Run] is
    there, then [Close], and the moves of its goroutine before and after. *)
Lemma proc_store p p' :
  proc_step p p' → proc_inv p →
  (p_at p' = PRunning → p_at p = PRunning) ∧
  (store_of p' = store_of p ∨
   p_at p = PRunning ∧ (store_of p' = st_flush (store_of p) ∨ ∃ a st c, store_of p' = cs_Save (store_of p) a st c) ∨
   st_background (store_of p) (store_of p') ∧ p_at p' = p_at p ∨
   p_at p' ≠ PRunning ∧ (store_of p' = st_close (store_of p) ∨ st_closing (store_of p) = true ∧ st_drain (store_of p) (store_of p'))).
Proof.
  intros Hstep HI.
  assert (Hgos : r_gos (p_run p) ≠ [] → p_at p = PRunning).
  { intros Hg. destruct (p_at p) eqn:E; [done|..]; destruct Hg; apply (ri_closed _ (pi_run _ HI));
      (rewrite (pi_returned _ HI); [done|by rewrite E]). }
  destruct Hstep as [Hs|[[id Hs]|Hs]].
  - destruct Hs as [r p Hat Hs|p Hf Hat|h p Hat Hh|l1 h l2 p Hat Hr Hp|l1 h l2 p Hat Hr Hp]; (split; [done|]); try (by left).
    unfold store_of in *. cbn. destruct Hs as [| | |l1 g l2 env st Hg Hpc| | | | |store st Hb]; try (by left).
    + cbn. destruct (e_Cursor env) as [c|]; [|by left]. right; left.
      split; [apply Hgos; rewrite Hg; by destruct l1|]. right. eauto.
    + right; right; left. done.
  - destruct Hs. split; [done|by left].
  - destruct Hs as [r p Hat Hs|l1 h l2 p Hat Hr Hg|p Hat Hm|todo p Hat Hst|todo p Hat|todo p Hat
      |todo p Hat|s todo p Hat Hd|todo p Hat Hd|todo p Hat|p Hat]; (split; [try done|]); try (by left).
    + assert (Hrun : p_at p = PRunning).
      { destruct (p_at p) eqn:E; [done|exfalso; eapply (returned_quiet (p_run p)); [apply HI|apply (pi_returned _ HI); by rewrite E|done]..]. }
      unfold store_of in *. cbn. destruct Hs; try (by left). right; left. cbn. auto.
    + right; right; right. cbn. auto.
    + right; right; right. split; [cbn; by rewrite Hat|]. right. split; [by eapply (pi_draining _ HI)|done].
Qed.

Lemma proc_cfg p p' : proc_step p p' → proc_inv p → cfg (agg_of p') = cfg (agg_of p).
Proof.
  intros Hstep HI.
  assert (Hrun : ∀ r', run_step st_flush st_background (p_run p) r' → cfg (s_agg (r_sys r')) = cfg (agg_of p)).
  { intros r' Hs. by apply (run_step_cfg st_flush st_background). }
  destruct Hstep as [Hs|[[id Hs]|Hs]]; destruct Hs; try done; try (by apply Hrun; left); try (by apply Hrun; right; right);
    apply Hrun; right; left; apply cl_unsubscribe.
Qed.

(** By itself the process only drops the handlers whose consumer is gone. *)
Lemma own_rpcs p p' h :
  rtc proc_own p p' → (h ∈ p_rpcs p' → h ∈ p_rpcs p) ∧ (h_gone h = false → h ∈ p_rpcs p → h ∈ p_rpcs p').
Proof.
  induction 1 as [|x y z Hs _ [IH1 IH2]]; [done|].
  assert (H : (h ∈ p_rpcs y → h ∈ p_rpcs x) ∧ (h_gone h = false → h ∈ p_rpcs x → h ∈ p_rpcs y)); [|naive_solver].
  destruct Hs as [|l1 h' l2 p Hat Hr Hg| | | | | | | | |]; try done. cbn. rewrite Hr. split; [set_solver|].
  intros Hn. rewrite !elem_of_app, elem_of_cons. intros [?|[->|?]]; [by left|congruence|by right].
Qed.

Lemma exited_nf p : p_at p = PExited → nf proc_own p.
Proof. intros Hat [p' Hs]. destruct Hs; congruence. Qed.

(** C21: after the signal, whether the process exits is decided by the
    consumers of the re-export server: what is left to do ends by itself, and if
    every consumer that is attached then goes away the process exits, with the
    queue drained, no file of the log left open and the cursor store closed; if
    one stays, it ends up waiting in the graceful stop for good. *)
Theorem exit_decided_by_consumers io w store p :
  MainCmd.run f io = inl w → rtc proc_step (proc_start (w_agg w) store) p → r_done (p_run p) = true →
  sn proc_own p ∧
  ∀ p', rtc proc_own p p' → nf proc_own p' →
    (Forall (λ h, h_gone h = true) (p_rpcs p) →
       p_at p' = PExited ∧ Forall (effect p') (deferred f None) ∧ queue (p_run p') = [] ∧
       eqm (received (cnt (agg_of p'))) (dropped (cnt (agg_of p')) + taken (s_hist (r_sys (p_run p'))))) ∧
    (¬ Forall (λ h, h_gone h = true) (p_rpcs p) → ∃ todo, p_at p' = PReturning (StopReexport :: todo)).
Proof.
  intros HR Hr Hd. destruct (reachable_both _ _ _ _ HR Hr) as [HI _]. split; [by apply own_terminates|].
  intros p' Ho Hnf. destruct (reachable_both io w store p' HR) as [HI' HS'].
  { etrans; [exact Hr|by apply own_steps]. }
  pose proof (own_done_kept _ _ Ho HI Hd) as Hd'. split.
  - intros Hg. destruct (own_stuck p' HI' Hd' Hnf) as [Hat|(_ & Hne & Hc)].
    + destruct (pi_made _ HI') as (past & Hm & He). rewrite Hat in Hm. unfold made in Hm. rewrite <-Hm.
      assert (Hm' : r_main (p_run p') = MReturned) by (apply (pi_returned _ HI'); by rewrite Hat).
      pose proof (ri_returned _ (pi_run _ HI') Hm') as Hw. destruct (ri_writer _ (pi_run _ HI') Hw) as [_ Hq].
      split_and!; [done|done|done|]. pose proof (si_received _ HS') as Hb. unfold queue, agg_of in *.
      rewrite Hq in Hb. cbn in Hb. by rewrite Z.add_0_r in Hb.
    + exfalso. destruct (p_rpcs p') as [|h l] eqn:E; [done|]. apply Forall_cons in Hc as [Hc _].
      destruct (own_rpcs p p' h Ho) as [Hin _]. rewrite E in Hin. rewrite Forall_forall in Hg.
      rewrite Hg in Hc; [done|]. apply Hin. by left.
  - intros Hg. apply not_Forall_Exists in Hg; [|apply _]. apply Exists_exists in Hg as (h & Hh & Hg). cbn in Hg.
    apply not_true_is_false in Hg. apply (own_rpcs p p' h Ho) in Hh; [|done].
    destruct (own_stuck p' HI' Hd' Hnf) as [Hat|(? & _)]; [|done].
    destruct (consumer_blocks h p' HI' Hh) as [Hp|[todo Hp]]; congruence.
Qed.

(** C22: one consumer that stays attached keeps the process from exiting for as
    long as it likes, whatever else happens, signals included: its subscriber
    stays registered, so its channel is never closed, the graceful stop does not
    return, and none of the later deferred calls, which close the log and the
    cursor store, is reached. *)
Theorem consumer_holds_process io w store p p' h :
  MainCmd.run f io = inl w → rtc proc_step (proc_start (w_agg w) store) p →
  h ∈ p_rpcs p → h_phase h = HTail → h_gone h = false → rtc (step_without (h_id h)) p p' →
  h ∈ p_rpcs p' ∧ is_Some (subs (agg_of p') !! h_id h) ∧
  (p_at p' = PRunning ∨ ∃ todo, p_at p' = PReturning (StopReexport :: todo)).
Proof.
  intros HR Hr Hh Hp Hg Hs. destruct (reachable_both _ _ _ _ HR Hr) as [HI _]. clear HR Hr.
  induction Hs as [x|x y z Hs _ IH].
  - split_and!; [done|by apply (co_subs _ (pi_calls _ HI))|by eapply consumer_blocks].
  - apply IH; [by eapply consumer_stays|]. eapply proc_step_inv; [|done].
    destruct Hs as [?|[(id & _ & ?)|?]]; [by left|right; left; by exists id|by right; right].
Qed.
End process.

(** ** Witnesses *)

Global Instance null_ops : StoreOps nullStore := {|
  st_flush s := s; st_background _ _ := False; st_close s := s; st_closing _ := true; st_drain _ _ := False;
  st_drained _ := true; st_rank _ := 0;
|}.

Global Instance null_laws : StoreLaws nullStore.
Proof. split; cbn; intros; (done || lia). Qed.

Module ProcessDemo.
Import System.Demo.
Definition stop (l : list rpc) : Prop := l = [].
Global Instance stop_ok : GracefulStop stop.
Proof. by split. Qed.

(** One static agent, the re-export server on. *)
Definition flags : cliFlags := MainCmd.Demo.flags "n1:9000" "".
Definition w : wired := match MainCmd.run flags MainCmd.Demo.io with inl w => w | inr _ => mkWired a Stdout None None None None None false end.
Definition p0 : proc (S := nullStore) := proc_start (w_agg w) NullCursorStore.
Definition sub0 : rpc := mkRpc 0 HTail false.

(** A consumer attaches and replays; then the signal arrives. *)
Definition p1 : proc := do_accept flags p0.
Definition p2 : proc := set_rpcs [sub0] p1.
Definition p3 : proc := set_run (cancelled (p_run p2)) p2.
(** Or the consumer leaves before. *)
Definition p4 : proc := set_run (cancelled (p_run p0)) p0.

Lemma w_starts : MainCmd.run flags MainCmd.Demo.io = inl w.
Proof. vm_compute. reflexivity. Qed.

Lemma p2_reached : rtc (proc_step stop flags) p0 p2.
Proof.
  eapply rtc_l; [left; by apply (w_accept flags p0)|].
  apply rtc_once. left. by apply (w_replayed flags [] (mkRpc 0 HReplay false) [] p1).
Qed.

Lemma p3_reached : rtc (step_without stop flags 0) p2 p3.
Proof. apply rtc_once. left. apply (w_input flags (cancelled (p_run p2)) p2); [done|apply in_cancel]. Qed.

Lemma p4_reached : rtc (proc_step stop flags) p0 p4.
Proof. apply rtc_once. left. apply (w_input flags (cancelled (p_run p0)) p0); [done|apply in_cancel]. Qed.

(** The run to the end of a process nobody is attached to. *)
Lemma p4_exits : ∃ p', rtc (proc_own stop flags) p4 p' ∧ p_at p' = PExited.
Proof.
  eexists. split.
  - eapply rtc_l; [apply p_inner; [done|]; by apply (own_seed _ (mkAgent "n1:9000" "n1:9000") [])|].
    eapply rtc_l; [apply p_inner; [done|]; by apply own_seeded|].
    eapply rtc_l; [apply p_inner; [done|]; by apply own_done; [right|]|].
    eapply rtc_l; [apply p_inner; [done|]; by apply (own_exit _ [] (mkG (mkAgent "n1:9000" "n1:9000") "intent" 0 GLoop)
      [mkG (mkAgent "n1:9000" "n1:9000") "deviation" 0 GLoop])|].
    eapply rtc_l; [apply p_inner; [done|]; by apply (own_exit _ [] (mkG (mkAgent "n1:9000" "n1:9000") "deviation" 0 GLoop) [])|].
    eapply rtc_l; [apply p_inner; [done|]; by apply own_close|].
    eapply rtc_l; [apply p_inner; [done|]; by apply own_writer_exit|].
    eapply rtc_l; [apply p_inner; [done|]; by apply own_return|].
    eapply rtc_l; [by apply p_return|].
    eapply rtc_l; [by eapply p_stop|].
    eapply rtc_l; [by eapply p_cancel|].
    eapply rtc_l; [by eapply p_close_output|].
    eapply rtc_l; [by apply p_exit|]. apply rtc_refl.
  - reflexivity.
Qed.
End ProcessDemo.

Lemma exit_decided_by_consumers_witness :
  ∃ p', rtc (proc_own ProcessDemo.stop ProcessDemo.flags) ProcessDemo.p4 p' ∧ p_at p' = PExited ∧
    Forall (effect p') [StopReexport; CancelCtx; CloseOutput].
Proof.
  destruct ProcessDemo.p4_exits as (p' & Hp' & Hat). exists p'. split; [exact Hp'|].
  destruct (exit_decided_by_consumers ProcessDemo.stop ProcessDemo.flags MainCmd.Demo.io ProcessDemo.w NullCursorStore
    ProcessDemo.p4) as [Hsn Hend].
  - exact ProcessDemo.w_starts.
  - exact ProcessDemo.p4_reached.
  - reflexivity.
  - destruct (Hend p' Hp') as [Hall _]; [by apply exited_nf|]. destruct Hall as (He & Hf & _); [constructor|].
    split; [exact He|exact Hf].
Defined.

Lemma consumer_holds_process_witness :
  p_at ProcessDemo.p3 = PRunning ∨ ∃ todo, p_at ProcessDemo.p3 = PReturning (StopReexport :: todo).
Proof.
  apply (consumer_holds_process ProcessDemo.stop ProcessDemo.flags MainCmd.Demo.io ProcessDemo.w NullCursorStore
    ProcessDemo.p2 ProcessDemo.p3 ProcessDemo.sub0).
  - exact ProcessDemo.w_starts.
  - exact ProcessDemo.p2_reached.
  - by left.
  - reflexivity.
  - reflexivity.
  - exact ProcessDemo.p3_reached.
Defined.
