(* ===== verification/Restart.v ===== *)
(** * From one process to the next

    The cursor store of src/internal/aggregator/cursorstore.go inside the
    process of src/cmd/kloudlens-aggregator/main.go: the file store with its
    directory and its flusher as an instance of the store the process relies on,
    and what a process started on the same directory resumes from. *)
From stdpp Require Import base numbers gmap strings relations fin_maps list.
From S2P Require Import Prelude GoStr Json EnvWal Pb CursorStore ClusterPeers Aggregator Fleet AggregatorSpec ReExport System Run MainCmd Process.
Local Open Scope nat_scope.

(** ** The file store as the process sees it *)

(** Saving and loading go through the map; the flusher writes to the directory. *)
Global Instance csys_store : CursorStore csys := {|
  cs_Load x a st := Load (store x) a st;
  cs_Save x a st c := CursorStore.mkSys (cs_Save (store x) a st c) (dir x) (phase x);
|}.

Section file_store.
(** The order in which the map is ranged over, what the system calls of the flush at
    the end of [Run] do, and what those of the writes after [Close] may do. *)
Context (ord : list (string * persistedCursor) → list (string * persistedCursor)) (last_io : flush_io).
Context (drain_may : flush_io → Prop) (drain_io : flush_io) (Hdrain : drain_may drain_io).

Definition flush_with (io : flush_io) (x : csys) : csys :=
  let '(s, d, _) := Flush ord io (store x) (dir x) in CursorStore.mkSys s d (phase x).

Definition close_store (x : csys) : csys := CursorStore.mkSys (Close_start (store x)) (dir x) (phase x).

(** While open, any write may fail. *)
#[local] Instance csys_ops : StoreOps csys := {|
  st_flush := flush_with last_io;
  st_background x y := closing (store x) = false ∧ loop_step ord (λ _, True) x y;
  st_close := close_store;
  st_closing x := closing (store x);
  st_drain := loop_step ord drain_may;
  st_drained x := match phase x with LDone => true | _ => false end;
  st_rank x := rank (phase x);
|}.

#[local] Instance csys_laws : StoreLaws csys.
Proof.
  split; cbn.
  - intros x. unfold Close_start. by destruct (closing (store x)) eqn:E.
  - intros x y Hc [? _]. congruence.
  - intros x y Hc Hs. by destruct (loop_step_closing _ _ _ _ Hs Hc) as (? & ? & _).
  - intros x Hc Hp. apply (loop_progress ord drain_may drain_io); [done|]. intros E. by rewrite E in Hp.
  - intros x. destruct (phase x); cbn; lia.
Qed.

(** The file is coherent with the map; the goroutine ends only after [Close], and
    then, if its writes succeed, with nothing left to write. *)
Record kept (d0 : cfile) (m0 : gmap string persistedCursor) (x : csys) : Prop := {
  k_coherent : coherent ord d0 m0 x;
  k_wake : wake_closed (store x) = closing (store x);
  k_closed : phase x = LClosed ∨ phase x = LDone → closing (store x) = true;
  k_done : (∀ io, drain_may io → io_good io) → phase x = LDone → dirty (store x) = false;
}.

Lemma save_kept d0 m0 x a st c : closing (store x) = false → kept d0 m0 x → kept d0 m0 (cs_Save x a st c).
Proof.
  intros Hc [H1 H2 H3 H4]. cbn. destruct (Save (store x) a st c) as [s'|] eqn:E; cbn; [|by destruct x].
  assert (Hs : closing s' = closing (store x) ∧ wake_closed s' = wake_closed (store x)).
  { revert E. unfold Save, Save_locked, Save_wake. destruct c as [c|]; [|by intros [= <-]].
    destruct (data (store x) !! keyOf a st) as [prev|]; [destruct (_ && _)|]; cbn; try (destruct (wake_closed (store x)) eqn:Hw; [done|]);
      intros [= <-]; by rewrite ?Hw. }
  destruct Hs as [Hs1 Hs2]. split; cbn.
  - eapply cs_step_coherent; [exact H1|]. destruct x as [s d p]. by eapply cs_save.
  - by rewrite Hs1, Hs2.
  - intros Hp. rewrite Hs1. by apply H3.
  - intros _ Hp. rewrite H3 in Hc by auto. done.
Qed.

Lemma flush_kept d0 m0 io x : kept d0 m0 x → kept d0 m0 (flush_with io x).
Proof.
  destruct x as [s d p]. intros [H1 H2 H3 H4]. unfold flush_with. cbn in *.
  destruct (Flush ord io s d) as [[s' d'] e] eqn:HF.
  destruct (flush_cases _ _ _ _ _ _ _ HF) as (Hd & Hc & _ & Hw & Hcase). split; cbn.
  - eapply cs_step_coherent; [exact H1|by eapply cs_flush].
  - congruence.
  - intros Hp. rewrite Hc. by apply H3.
  - intros HD Hp. by destruct Hcase as [(-> & _)|(_ & ? & _)]; [apply H4|].
Qed.

Lemma close_kept d0 m0 x : kept d0 m0 x → kept d0 m0 (close_store x).
Proof.
  destruct x as [s d p]. intros [H1 H2 H3 H4]. unfold close_store. cbn in *. split; cbn.
  - eapply cs_step_coherent; [exact H1|apply cs_close].
  - unfold Close_start. destruct (closing s) eqn:E; [congruence|done].
  - intros _. unfold Close_start. by destruct (closing s) eqn:E.
  - intros HD Hp. unfold Close_start. destruct (closing s); cbn; by apply H4.
Qed.

Lemma loop_kept d0 m0 (P : flush_io → Prop) x y :
  loop_step ord P x y → (closing (store x) = true → ∀ io, P io → drain_may io) → kept d0 m0 x → kept d0 m0 y.
Proof.
  intros Hs HP [H1 H2 H3 H4].
  assert (Hco : coherent ord d0 m0 y).
  { eapply cs_step_coherent; [exact H1|]. apply cs_loop. destruct Hs; by econstructor. }
  destruct Hs as [s d|s d Hw|s d Hw Hc|io s d s' d' e Hc Hio HF|s d Hc|io s d s' d' e Hio HF|io s d s' d' e Hio HF];
    cbn in *; split; cbn; try done; try (by intros [?|?]); try (destruct (flush_cases _ _ _ _ _ _ _ HF) as (_ & Hc' & _ & Hw' & _)).
  - intros _. congruence.
  - congruence.
  - intros _. congruence.
  - intros HD _. by destruct (flush_good _ _ _ _ _ _ _ (HD io (HP Hc io Hio)) HF).
  - congruence.
  - congruence.
  - intros _. rewrite Hc'. apply H3. by left.
  - intros HD _. by destruct (flush_good _ _ _ _ _ _ _ (HD io (HP (H3 (or_introl eq_refl)) io Hio)) HF).
Qed.

(** ** The process over the file store *)

Context `{!ProtoJSON EventEnvelope} (stop_returns : list rpc → Prop) `{!GracefulStop stop_returns}.
Context (f : cliFlags).

Abbreviation step := (proc_step (S := csys) stop_returns f).

Definition open_store (w : wired) (c : fileCursorStore) (io : run_io) : proc (S := csys) :=
  proc_start (w_agg w) (CursorStore.mkSys c (ri_cursors io) LWait).

(** What the process does to the store keeps file and map coherent, and the store
    stays open for as long as [Run] has not returned. *)
Lemma proc_kept d0 m0 p p' :
  step p p' → proc_inv f p → kept d0 m0 (store_of p) ∧ (p_at p = PRunning → closing (store (store_of p)) = false) →
  kept d0 m0 (store_of p') ∧ (p_at p' = PRunning → closing (store (store_of p')) = false).
Proof.
  intros Hs HI [HK HO]. destruct (proc_store _ _ _ _ Hs HI) as [Hat Hst].
  destruct Hst as [Heq|[(Hr & [Heq|(a & st & c & Heq)])|[([Hc Hb] & Heq)|(Hr & [Heq|[Hc Hd]])]]].
  - rewrite Heq. auto.
  - rewrite Heq. split; [by apply flush_kept|]. intros _. cbn. unfold flush_with.
    destruct (Flush ord last_io _ _) as [[s' d'] e] eqn:HF. cbn.
    destruct (flush_cases _ _ _ _ _ _ _ HF) as (_ & -> & _). auto.
  - rewrite Heq. split; [apply save_kept; auto|]. intros _. cbn. specialize (HO Hr).
    unfold Save, Save_locked, Save_wake. destruct c as [c|]; [|done].
    destruct (data _ !! _) as [prev|]; [destruct (_ && _)|]; cbn; try done; by destruct (wake_closed _).
  - split; [eapply loop_kept; [exact Hb|congruence|done]|]. intros Hr. destruct (closing (store (store_of p'))) eqn:E; [|done].
    exfalso. revert E. destruct Hb; cbn in *; try congruence;
      destruct (flush_cases _ _ _ _ _ _ _ H0) as (_ & Hx & _); congruence.
  - rewrite Heq. split; [by apply close_kept|done].
  - split; [eapply loop_kept; [exact Hd|auto|done]|done].
Qed.

Lemma proc_steps_kept d0 m0 p p' :
  rtc step p p' → proc_inv f p → kept d0 m0 (store_of p) ∧ (p_at p = PRunning → closing (store (store_of p)) = false) →
  proc_inv f p' ∧ kept d0 m0 (store_of p') ∧ (p_at p' = PRunning → closing (store (store_of p')) = false) ∧
  cfg (agg_of p') = cfg (agg_of p).
Proof.
  induction 1 as [|x y z Hs _ IH]; intros HI HK; [tauto|].
  destruct IH as (? & ? & ? & ->); [by eapply (proc_step_inv stop_returns f)|by eapply proc_kept|]. split_and!; try done. by eapply proc_cfg.
Qed.

(** What a start on a given cursor file needs and finds. *)
Lemma run_cursors io w :
  MainCmd.run f io = inl w → f_cursorFile f ≠ "" →
  ∃ c, w_cursors w = Some c ∧ c = mkStore (data c) false false false false ∧
    loadFromDisk (ri_cursor_read io) (main_file (ri_cursors io)) ∅ = inl (data c) ∧
    ConsumerID (cfg (w_agg w)) = if bool_decide (f_consumerID f = "") then "kloudlens-aggregator" else f_consumerID f.
Proof.
  intros (_ & sk & c & wl & _ & Hc & _ & HF)%MainCmd.run_inv Hf. unfold open_cursors in Hc.
  rewrite bool_decide_eq_false_2 in Hc by done. unfold NewFileCursorStore in Hc.
  destruct (ri_cursor_dir io); [|done]. cbn [negb] in Hc. destruct (loadFromDisk _ _ _) as [m|e] eqn:HL; [|done].
  injection Hc as <-. unfold finish in HF. destruct (watch_k8s f io) as [t|e]; [|done].
  destruct (New _ _ _ wl) as [a|e] eqn:HN; [|done]. destruct (_ && negb (ri_listen io)); [done|]. injection HF as <-.
  eexists. split_and!; [done|done|done|]. cbn [w_agg]. revert HN. unfold New. cbn [agg_config has_Out negb].
  destruct (_ && _); [done|]. destruct (bool_decide (_ ∨ _)); [done|]. by intros [= <-].
Qed.

(** A file that can be read has one reading. *)
Lemma load_unique ok ok' g m m' : loadFromDisk ok g ∅ = inl m → loadFromDisk ok' g ∅ = inl m' → m = m'.
Proof. destruct g; cbn; destruct ok, ok'; cbn; try done; congruence. Qed.

Lemma open_kept io w c :
  MainCmd.run f io = inl w → f_cursorFile f ≠ "" → w_cursors w = Some c →
  proc_inv f (open_store w c io) ∧ kept (main_file (ri_cursors io)) (data c) (store_of (open_store w c io)) ∧
  closing (store (store_of (open_store w c io))) = false.
Proof.
  intros HR Hf Hc. destruct (run_cursors io w HR Hf) as (c' & Hc' & Hst & _). rewrite Hc in Hc'. injection Hc' as <-.
  split; [by eapply started_inv|]. rewrite Hst. split; [|done]. split; cbn; try done; [split; cbn; auto|by intros [?|?]].
Qed.

(** C5: a process that exited is picked up where it stopped: started again with
    the same flags on the cursor file it left, the next process asks every agent
    for every stream from the very cursor this one would have asked for next.  The
    writes after [Close] succeed, whatever earlier ones did, and the cursors are
    plain text and were saved for the stream they name. *)
Theorem restart_resumes io w c p io' w' :
  MainCmd.run f io = inl w → f_cursorFile f ≠ "" → w_cursors w = Some c →
  rtc step (open_store w c io) p → p_at p = PExited → (∀ io, drain_may io → io_good io) →
  (∀ l, ord l ≡ₚ l) → well_keyed (data (store (store_of p))) →
  MainCmd.run f io' = inl w' → ri_cursors io' = dir (store_of p) →
  ∃ c', w_cursors w' = Some c' ∧
    ∀ ep stream, subscribe_request (w_agg w') c' ep stream = subscribe_request (agg_of p) (store_of p) ep stream.
Proof.
  intros HR Hf Hc Hr Hat HD Hord Hwk HR' Hdir. destruct (open_kept io w c HR Hf Hc) as (HI0 & HK0 & HO0).
  destruct (proc_steps_kept _ _ _ _ Hr HI0 (conj HK0 (λ _, HO0))) as (HI & HK & _ & Hcfg).
  destruct (run_cursors io w HR Hf) as (c1 & Hc1 & Hst1 & HL1 & Hid1). rewrite Hc in Hc1. injection Hc1 as <-.
  destruct (run_cursors io' w' HR' Hf) as (c' & Hc' & Hst' & HL' & Hid').
  exists c'. split; [done|]. intros ep stream. unfold subscribe_request. rewrite Hid', Hcfg. unfold open_store, agg_of. cbn [proc_start p_run run_start r_sys start s_agg].
  rewrite Hid1. f_equal. cbn. unfold Load.
  assert (Hd : data c' = data (store (store_of p))); [|by rewrite Hd].
  assert (Hph : phase (store_of p) = LDone).
  { destruct (pi_made _ _ HI) as (past & Hm & He). rewrite Hat in Hm. unfold made in Hm. rewrite Hm, Forall_forall in He.
    destruct (He CloseCursors) as [_ Hdr].
    - unfold deferred. rewrite (bool_decide_eq_false_2 (f_cursorFile f = "")) by done. rewrite !elem_of_app, elem_of_cons, !elem_of_app. set_solver.
    - cbn in Hdr. by destruct (phase (store_of p)). }
  destruct (k_coherent _ _ _ HK) as [_ HC]. rewrite Hdir in HL'.
  destruct (HC (k_done _ _ _ HK HD Hph)) as [[Hm Hdata]|Hm]; rewrite Hm in HL'.
  - rewrite Hdata. by eapply load_unique.
  - eapply load_unique; [exact HL'|]. by apply load_payload.
Qed.

(** A save never meets a closed channel: while a stream goroutine is there, the
    store is open. *)
Lemma process_save_ok io w c p a st cur :
  MainCmd.run f io = inl w → f_cursorFile f ≠ "" → w_cursors w = Some c →
  rtc step (open_store w c io) p → r_gos (p_run p) ≠ [] → is_Some (Save (store (store_of p)) a st cur).
Proof.
  intros HR Hf Hc Hr Hg. destruct (open_kept io w c HR Hf Hc) as (HI0 & HK0 & HO0).
  destruct (proc_steps_kept _ _ _ _ Hr HI0 (conj HK0 (λ _, HO0))) as (HI & HK & HO & _).
  assert (Hrun : p_at p = PRunning).
  { destruct (p_at p) eqn:E; [done|..]; destruct Hg; apply (ri_closed _ (pi_run _ _ HI));
      (rewrite (pi_returned _ _ HI); [done|by rewrite E]). }
  unfold Save, Save_locked, Save_wake. destruct cur as [cur|]; [|eauto].
  destruct (data _ !! _) as [prev|]; [destruct (_ && _)|]; cbn; eauto; by rewrite (k_wake _ _ _ HK), HO.
Qed.

(** ** A crash

    The process stops between any two steps; the files stay as they are. *)

(** Everything the store holds has been written: nothing was saved since it was
    opened or written last; in particular right after a flush whose system calls
    succeed. *)
Definition written (p : proc (S := csys)) : Prop :=
  dirty (store (store_of p)) = false ∨ ∃ io x, io_good io ∧ store_of p = flush_with io x.

Lemma written_clean p : written p → dirty (store (store_of p)) = false.
Proof.
  intros [?|(io & x & Hio & Heq)]; [done|]. rewrite Heq. unfold flush_with.
  destruct (Flush ord io (store x) (dir x)) as [[s' d'] e] eqn:HF. cbn. by destruct (flush_good _ _ _ _ _ _ _ Hio HF).
Qed.

(** A step leaves the cursor file, or writes to it what the store holds. *)
Lemma step_file p p' :
  step p p' → proc_inv f p →
  main_file (dir (store_of p')) = main_file (dir (store_of p)) ∨
  main_file (dir (store_of p')) = FDisk (payload ord (data (store (store_of p)))).
Proof.
  intros Hs HI. assert (HF : ∀ io s d s' d' e, flushLockedBare ord io s d = (s', d', e) →
    main_file d' = main_file d ∨ main_file d' = FDisk (payload ord (data s))).
  { intros io0 s d s' d' e HF. destruct (flush_cases _ _ _ _ _ _ _ HF) as (_ & _ & _ & _ & [(_ & ? & _)|(_ & _ & ?)]); auto. }
  assert (HL : ∀ P x y, loop_step ord P x y →
    main_file (dir y) = main_file (dir x) ∨ main_file (dir y) = FDisk (payload ord (data (store x)))).
  { intros P x y [| | | | | |]; cbn; eauto. }
  destruct (proc_store _ _ _ _ Hs HI) as [_ Hst].
  destruct Hst as [Heq|[(_ & [Heq|(a & st & cu & Heq)])|[([_ Hb] & _)|(_ & [Heq|[_ Hd]])]]]; rewrite ?Heq; eauto.
  - cbn. unfold flush_with. destruct (Flush ord last_io _ _) as [[s' d'] e] eqn:E. cbn. by eapply HF.
  - exact (HL _ _ _ Hd).
Qed.

(** Over a run the cursor file stays, or comes to hold what the store held at a
    moment of the run. *)
Lemma file_of_earlier q p :
  rtc step q p → proc_inv f q →
  main_file (dir (store_of p)) = main_file (dir (store_of q)) ∨
  ∃ p0, rtc step q p0 ∧ rtc step p0 p ∧ main_file (dir (store_of p)) = FDisk (payload ord (data (store (store_of p0)))).
Proof.
  intros Hr HI. revert p Hr. refine (rtc_ind_r _ _ _ _); [by left|]. intros p p' Hr Hs IH.
  destruct (step_file p p' Hs) as [Hw|Hw]; [by eapply (proc_steps_inv stop_returns f)|rewrite Hw..].
  - destruct IH as [?|(p0 & H1 & H2 & H3)]; [by left|right]. exists p0. split_and!; [done|by eapply rtc_r|done].
  - right. exists p. split_and!; [done|by apply rtc_once|done].
Qed.

(** C6: a crash costs at most the cursors since the last write: let everything the
    store held be written at some moment of the process, as it is when it starts
    and after every flush whose system calls succeed; then, whenever the process
    stops after that and whatever later writes did, the one started next on the
    same cursor file resumes every stream of every agent as of one and the same
    moment between the two.  The cursors of that moment are plain text and were
    saved for the stream they name. *)
Theorem crash_resumes_earlier io w c q p io' w' :
  MainCmd.run f io = inl w → f_cursorFile f ≠ "" → w_cursors w = Some c →
  rtc step (open_store w c io) q → written q → rtc step q p → (∀ l, ord l ≡ₚ l) →
  MainCmd.run f io' = inl w' → ri_cursors io' = dir (store_of p) →
  ∃ c' p0, w_cursors w' = Some c' ∧ rtc step q p0 ∧ rtc step p0 p ∧
    (well_keyed (data (store (store_of p0))) →
     ∀ ep stream, subscribe_request (w_agg w') c' ep stream = subscribe_request (agg_of p0) (store_of p0) ep stream).
Proof.
  intros HR Hf Hc Hrq Hwr Hr Hord HR' Hdir. destruct (open_kept io w c HR Hf Hc) as (HI0 & HK0 & HO0).
  destruct (run_cursors io w HR Hf) as (c1 & Hc1 & Hst1 & HL1 & Hid1). rewrite Hc in Hc1. injection Hc1 as <-.
  destruct (run_cursors io' w' HR' Hf) as (c' & Hc' & Hst' & HL' & Hid'). rewrite Hdir in HL'.
  assert (Hsame : ∀ p0, rtc step (open_store w c io) p0 → data c' = data (store (store_of p0)) →
    ∀ ep stream, subscribe_request (w_agg w') c' ep stream = subscribe_request (agg_of p0) (store_of p0) ep stream).
  { intros p0 Hp0 Hd ep stream. destruct (proc_steps_kept _ _ _ _ Hp0 HI0 (conj HK0 (λ _, HO0))) as (_ & _ & _ & Hcfg).
    unfold subscribe_request. rewrite Hid', Hcfg. unfold open_store, agg_of. cbn [proc_start p_run run_start r_sys start s_agg].
    rewrite Hid1. f_equal. cbn. unfold Load. by rewrite Hd. }
  destruct (proc_steps_kept _ _ _ _ Hrq HI0 (conj HK0 (λ _, HO0))) as (HIq & HKq & _).
  exists c'. destruct (file_of_earlier q p Hr HIq) as [Hm|(p0 & H1 & H2 & Hm)]; rewrite Hm in HL'.
  - exists q. split_and!; [done|done|done|]. intros Hwk. apply Hsame; [done|].
    destruct (k_coherent _ _ _ HKq) as [_ HC]. destruct (HC (written_clean q Hwr)) as [[Hm0 Hd0]|Hm0]; rewrite Hm0 in HL'.
    + rewrite Hd0. by eapply load_unique.
    + eapply load_unique; [exact HL'|]. by apply load_payload.
  - exists p0. split_and!; [done..|]. intros Hwk. apply Hsame; [by etrans|]. eapply load_unique; [exact HL'|]. by apply load_payload.
Qed.

(** C23: an envelope that was received but not yet written does not survive a
    crash, and is not asked for again: whenever an agent's stream delivers one
    with a newer cursor while the flusher waits, the queue has room and the cursors
    are plain text saved for the stream they name, the flusher can write that
    cursor out before the writer gets to the envelope; it is then in the queue
    only, neither logged nor written, while a process started on that file resumes
    behind it. *)
Theorem crash_loses_queued io w c p l1 g l2 env cur :
  MainCmd.run f io = inl w → f_cursorFile f ≠ "" → w_cursors w = Some c → rtc step (open_store w c io) p →
  r_gos (p_run p) = l1 ++ g :: l2 → g_pc g = GSession → phase (store_of p) = LWait →
  e_Cursor env = Some cur →
  (∀ prev, data (store (store_of p)) !! keyOf (a_Name (g_ep g)) (g_stream g) = Some prev → (pc_Seq prev ≤ CurSeq cur)%Z) →
  (Z.of_nat (length (queue (p_run p))) < QueueDepth (cfg (agg_of p)))%Z →
  (∀ l, ord l ≡ₚ l) → well_keyed (<[keyOf (a_Name (g_ep g)) (g_stream g) := mkPersisted (NodeId cur) (Pb.Stream cur) (CurSeq cur)]> (data (store (store_of p)))) →
  ∃ p', rtc step p p' ∧
    queue (p_run p') = queue (p_run p) ++ [mkEv (a_Name (g_ep g)) env] ∧
    wal (agg_of p') = wal (agg_of p) ∧ out (agg_of p') = out (agg_of p) ∧
    ∃ c', NewFileCursorStore true true (dir (store_of p')) = inl c' ∧ Load c' (a_Name (g_ep g)) (g_stream g) = Some cur.
Proof.
  intros HR Hf Hc Hr Hg Hpc Hph Hcur Hprev Hroom Hord Hwk. destruct (open_kept io w c HR Hf Hc) as (HI0 & HK0 & HO0).
  destruct (proc_steps_kept _ _ _ _ Hr HI0 (conj HK0 (λ _, HO0))) as (HI & HK & HO & _).
  assert (Hrun : p_at p = PRunning).
  { destruct (p_at p) eqn:E; [done|..]; exfalso; (assert (Hnil : r_gos (p_run p) = [] ) by
      (apply (ri_closed _ (pi_run _ _ HI)); rewrite (pi_returned _ _ HI); [done|by rewrite E])); rewrite Hg in Hnil; by destruct l1. }
  specialize (HO Hrun). pose proof (k_wake _ _ _ HK) as Hwc. rewrite HO in Hwc.
  set (key := keyOf (a_Name (g_ep g)) (g_stream g)) in *. set (pc := mkPersisted (NodeId cur) (Pb.Stream cur) (CurSeq cur)) in *.
  set (s1 := mkStore (<[key := pc]> (data (store (store_of p)))) true false true false).
  assert (Hsave : Save (store (store_of p)) (a_Name (g_ep g)) (g_stream g) (Some cur) = Some s1).
  { unfold Save, Save_locked, Save_wake. fold key. destruct (data (store (store_of p)) !! key) as [prev|] eqn:E.
    - rewrite bool_decide_eq_false_2 by (specialize (Hprev prev eq_refl); lia). cbn. by rewrite Hwc, HO.
    - cbn. by rewrite Hwc, HO. }
  set (r1 := with_sys (do_receive (g_ep g) (g_stream g) env (r_sys (p_run p))) (p_run p)).
  assert (Hst1 : s_store (r_sys r1) = CursorStore.mkSys s1 (dir (store_of p)) LWait).
  { unfold r1, do_receive, receive. rewrite Hcur. cbn [with_sys r_sys s_store fst snd cs_Save csys_store file_store].
    change (s_store (r_sys (p_run p))) with (store_of p). rewrite Hsave, Hph. done. }
  set (fin := CursorStore.mkSys (mkStore (data s1) false false true false) (mkCdir (FDisk (payload ord (data s1))) FAbsent) LWait).
  set (at_ := λ ph, with_store (CursorStore.mkSys s1 (dir (store_of p)) ph) r1).
  assert (Hin : ∀ q r, p_at q = PRunning → input_step st_background (p_run q) r → step q (set_run r q)).
  { intros q r Hq Hs. left. apply w_input; [by rewrite Hq|done]. }
  exists (set_run (with_store fin r1) p). split_and!.
  - eapply rtc_l; [apply (Hin p r1 Hrun); by apply (in_receive _ l1 g l2)|].
    eapply rtc_l; [apply (Hin (set_run r1 p) (at_ LWoken) Hrun); apply in_store; cbn [p_run set_run]; rewrite Hst1; split; [done|apply loop_tick]|].
    eapply rtc_l; [apply (Hin (set_run (at_ LWoken) p) (at_ LFlush) Hrun);
      exact (in_store st_background _ (at_ LWoken) (conj eq_refl (loop_check_open ord (λ _, True) s1 (dir (store_of p)) eq_refl)))|].
    apply rtc_once. apply (Hin (set_run (at_ LFlush) p) (with_store fin r1) Hrun).
    exact (in_store st_background fin (at_ LFlush) (conj eq_refl (loop_flush ord (λ _, True) (mkFlushIO None true) s1 (dir (store_of p)) _ _ None I eq_refl))).
  - unfold queue, with_store, r1. cbn. rewrite bool_decide_eq_true_2 by exact Hroom. done.
  - unfold agg_of. cbn. by rewrite bool_decide_eq_true_2 by exact Hroom.
  - unfold agg_of. cbn. by rewrite bool_decide_eq_true_2 by exact Hroom.
  - unfold store_of. cbn [p_run set_run with_store with_sys r_sys s_store fin dir]. unfold NewFileCursorStore. cbn [negb main_file].
    rewrite (load_payload ord Hord) by exact Hwk. eexists. split; [done|]. unfold Load. cbn [data s1]. fold key.
    rewrite lookup_insert_eq. unfold pc. by destruct cur.
Qed.
End file_store.

(** ** Witness *)

Module RestartDemo.
Import System.Demo ProcessDemo.
(** The flush at the end of [Run] fails; the one of the closing goroutine does not. *)
Definition bad : flush_io := mkFlushIO None false.
Definition ord (l : list (string * persistedCursor)) := l.
Lemma good : io_good CursorStore.Demo.ok.
Proof. by split. Qed.
Definition flags : cliFlags :=
  mkFlags "n1:9000" "-" "intent" "c" 0 0 "" "cursors.json" "" 0 0 0 60 "" "edge" "" "" "" "" 9000 true false.
Definition io_on (d : cdir) : run_io :=
  mkRunIO true true true d (mkOpenIO true true (λ _, true) true 100) ∅ (λ _, Some true) true.
Definition w : wired := match MainCmd.run flags (io_on (mkCdir FAbsent FAbsent)) with inl w => w | inr _ => ProcessDemo.w end.
Definition c : fileCursorStore := mkStore ∅ false false false false.
Definition ag : AgentEndpoint := mkAgent "n1:9000" "n1:9000".
Definition sent : EventEnvelope := mkEnvelope (Some (mkCursor "n1" "intent" 7)) (Some (EventEnvelope_Audit "login")) "".
Definition g (pc : gpc) : goroutine := mkG ag "intent" 0 pc.

Lemma wired_empty : MainCmd.run flags (io_on (mkCdir FAbsent FAbsent)) = inl w.
Proof. vm_compute. reflexivity. Qed.

Abbreviation step := (proc_step (S := csys) (StoreOps0 := csys_ops ord bad io_good) stop flags).

Lemma last_flush s d :
  closing s = true →
  let r := flushLockedBare ord CursorStore.Demo.ok s d in
  loop_step ord io_good (CursorStore.mkSys s d LWoken) (CursorStore.mkSys r.1.1 r.1.2 LDone).
Proof.
  intros Hc r. apply (loop_check_closing _ _ CursorStore.Demo.ok s d r.1.1 r.1.2 r.2); [done|by split|].
  unfold r. by destruct (flushLockedBare ord CursorStore.Demo.ok s d) as [[??]?].
Qed.

(** One envelope arrives; then the signal, and [Run] returns. *)
Definition p0 : proc (S := csys) := open_store w c (io_on (mkCdir FAbsent FAbsent)).
Definition r1 : rstate := do_seed ag [] (p_run p0).
Definition r2 : rstate := with_gos [g GSession] (with_main MWaitCtx r1).
Definition r3 : rstate := cancelled (with_sys (do_receive ag "intent" sent (r_sys r2)) r2).
Definition r4 : rstate := with_main MClosed (with_gos [] r3).
Definition r5 : rstate := with_sys (do_write io (mkEv "n1:9000" sent) (r_sys r4)) r4.
Definition r6 : rstate := Eval vm_compute in
  with_main MReturned (with_store (flush_with ord bad (s_store (r_sys r5)))
    (mkR (r_sys r5) (r_fleet r5) [] MClosed true true)).

Lemma returns : rtc step p0 (mkProc r6 [] PRunning).
Proof.
  assert (H : ∃ p, rtc step p0 p ∧ p = mkProc r6 [] PRunning); [|by destruct H as (? & ? & ->)].
  eexists. split.
  - eapply rtc_l; [right; right; apply p_inner; [done|]; by apply (own_seed _ ag [])|].
    eapply rtc_l; [right; right; apply p_inner; [done|]; by apply own_seeded|].
    eapply rtc_l; [right; right; apply p_inner; [done|]; by apply (own_enter _ [] (g GLoop) [])|].
    eapply rtc_l; [left; apply w_input; [done|]; by apply (in_receive _ [] (g GSession) [] sent)|].
    eapply rtc_l; [left; apply w_input; [done|]; by apply in_cancel|].
    eapply rtc_l; [right; right; apply p_inner; [done|]; by apply (own_end _ [] (g GSession) [])|].
    eapply rtc_l; [right; right; apply p_inner; [done|]; by apply (own_exit _ [] (g GLoop) [])|].
    eapply rtc_l; [right; right; apply p_inner; [done|]; by apply own_done; [right|]|].
    eapply rtc_l; [right; right; apply p_inner; [done|]; by apply own_close|].
    eapply rtc_l; [right; right; apply p_inner; [done|]; by apply (own_write _ io (mkEv "n1:9000" sent) [])|].
    eapply rtc_l; [right; right; apply p_inner; [done|]; by apply own_writer_exit|].
    eapply rtc_l; [right; right; apply p_inner; [done|]; by apply own_return|]. apply rtc_refl.
  - vm_compute. reflexivity.
Qed.

(** The deferred calls. *)
Lemma exits : ∃ p, rtc step p0 p ∧ p_at p = PExited ∧
  data (store (store_of p)) = {[keyOf "n1:9000" "intent" := mkPersisted "n1" "intent" 7]} ∧
  (∃ w', MainCmd.run flags (io_on (dir (store_of p))) = inl w') ∧
  cs_Load (store_of p) "n1:9000" "intent" = Some (mkCursor "n1" "intent" 7).
Proof.
  eexists. split; [|split; [|split; [|split]]].
  - etrans; [exact returns|].
    eapply rtc_l; [right; right; by apply p_return|].
    eapply rtc_l; [right; right; by eapply p_cancel|].
    eapply rtc_l; [right; right; by eapply p_close_cursors|].
    eapply rtc_l; [right; right; eapply p_drain; [reflexivity|apply loop_tick]|].
    eapply rtc_l; [right; right; eapply p_drain; [reflexivity|by apply last_flush]|].
    eapply rtc_l; [right; right; by eapply p_drained|].
    eapply rtc_l; [right; right; by eapply p_close_output|].
    eapply rtc_l; [right; right; by apply p_exit|]. apply rtc_refl.
  - reflexivity.
  - vm_compute. reflexivity.
  - apply MainCmd.Demo.started. vm_compute. reflexivity.
  - vm_compute. reflexivity.
Qed.

(** A session is open. *)
Lemma session : rtc step p0 (mkProc r2 [] PRunning).
Proof.
  eapply rtc_l; [right; right; apply p_inner; [done|]; by apply (own_seed _ ag [])|].
  eapply rtc_l; [right; right; apply p_inner; [done|]; by apply own_seeded|].
  apply rtc_once. right; right. apply (p_inner _ _ r2 (mkProc (with_main MWaitCtx r1) [] PRunning)); [done|].
  by apply (own_enter _ [] (g GLoop) []).
Qed.

Lemma restarts d : main_file d = FAbsent → ∃ w', MainCmd.run flags (io_on d) = inl w'.
Proof. destruct d as [m t]. cbn. intros ->. apply MainCmd.Demo.started. vm_compute. reflexivity. Qed.

Lemma keyed : well_keyed {[keyOf "n1:9000" "intent" := mkPersisted "n1" "intent" 7]}.
Proof. intros k p [<- <-]%lookup_singleton_Some. exists "n1:9000". repeat split; vm_compute; reflexivity. Qed.
End RestartDemo.

Lemma restart_resumes_witness :
  ∃ io' w' c', MainCmd.run RestartDemo.flags io' = inl w' ∧ w_cursors w' = Some c' ∧
    r_Cursor (subscribe_request (w_agg w') c' RestartDemo.ag "intent") = Some (mkCursor "n1" "intent" 7).
Proof.
  destruct RestartDemo.exits as (p & Hr & Hat & Hd & [w' Hw'] & HL).
  destruct (restart_resumes RestartDemo.ord RestartDemo.bad io_good CursorStore.Demo.ok RestartDemo.good ProcessDemo.stop RestartDemo.flags
    (RestartDemo.io_on (mkCdir FAbsent FAbsent)) RestartDemo.w RestartDemo.c p (RestartDemo.io_on (dir (store_of p))) w')
    as (c' & Hc' & Hreq).
  - exact RestartDemo.wired_empty.
  - discriminate.
  - vm_compute. reflexivity.
  - exact Hr.
  - exact Hat.
  - intros io H. exact H.
  - reflexivity.
  - rewrite Hd. exact RestartDemo.keyed.
  - exact Hw'.
  - reflexivity.
  - exists (RestartDemo.io_on (dir (store_of p))), w', c'. split; [exact Hw'|]. split; [exact Hc'|].
    rewrite Hreq. exact HL.
Defined.

(** The only flush of this process failed: the next one resumes as of its start. *)
Lemma crash_resumes_earlier_witness :
  ∃ io' w' c' q, MainCmd.run RestartDemo.flags io' = inl w' ∧ w_cursors w' = Some c' ∧
    rtc RestartDemo.step RestartDemo.p0 q ∧ rtc RestartDemo.step q (mkProc RestartDemo.r6 [] PRunning).
Proof.
  destruct (RestartDemo.restarts (dir (store_of (mkProc RestartDemo.r6 [] PRunning)))) as [w' Hw']; [reflexivity|].
  destruct (crash_resumes_earlier RestartDemo.ord RestartDemo.bad io_good CursorStore.Demo.ok RestartDemo.good ProcessDemo.stop RestartDemo.flags
    (RestartDemo.io_on (mkCdir FAbsent FAbsent)) RestartDemo.w RestartDemo.c RestartDemo.p0 (mkProc RestartDemo.r6 [] PRunning)
    (RestartDemo.io_on (dir (store_of (mkProc RestartDemo.r6 [] PRunning)))) w') as (c' & q & Hc' & H1 & H2 & _).
  - exact RestartDemo.wired_empty.
  - discriminate.
  - vm_compute. reflexivity.
  - apply rtc_refl.
  - left. reflexivity.
  - exact RestartDemo.returns.
  - reflexivity.
  - exact Hw'.
  - reflexivity.
  - exists (RestartDemo.io_on (dir (store_of (mkProc RestartDemo.r6 [] PRunning)))), w', c', q.
    split; [exact Hw'|]. split; [exact Hc'|]. split; [exact H1|exact H2].
Defined.

Lemma crash_loses_queued_witness :
  ∃ p', rtc RestartDemo.step (mkProc RestartDemo.r2 [] PRunning) p' ∧
    queue (p_run p') = [mkEv "n1:9000" RestartDemo.sent] ∧
    ∃ c', NewFileCursorStore true true (dir (store_of p')) = inl c' ∧
      Load c' "n1:9000" "intent" = Some (mkCursor "n1" "intent" 7).
Proof.
  destruct (crash_loses_queued RestartDemo.ord RestartDemo.bad io_good CursorStore.Demo.ok RestartDemo.good ProcessDemo.stop RestartDemo.flags
    (RestartDemo.io_on (mkCdir FAbsent FAbsent)) RestartDemo.w RestartDemo.c (mkProc RestartDemo.r2 [] PRunning)
    [] (RestartDemo.g GSession) [] RestartDemo.sent (mkCursor "n1" "intent" 7)) as (p' & Hp' & Hq & _ & _ & Hc').
  - exact RestartDemo.wired_empty.
  - discriminate.
  - vm_compute. reflexivity.
  - exact RestartDemo.session.
  - reflexivity.
  - reflexivity.
  - vm_compute. reflexivity.
  - reflexivity.
  - intros prev H. vm_compute in H. discriminate H.
  - vm_compute. reflexivity.
  - reflexivity.
  - exact RestartDemo.keyed.
  - exists p'. split; [exact Hp'|]. split; [rewrite Hq; vm_compute; reflexivity|exact Hc'].
Defined.
