(* ===== verification/WatcherSpec.v ===== *)
(** * What the watch loops achieve

    The composition of the watchers with what they feed: the indexes three
    goroutines write, an address resolved from them against what the API server
    sent, recovery after failures, and the fleet the agent watcher leads to. *)
From Stdlib Require Import Ascii.
From stdpp Require Import base numbers gmap strings sorting relations fin_maps list.
From S2P Require Import Prelude GoStr Json K8s Discovery AgentDiscovery DiscoverySpec GoText KubeApi Aggregator Fleet Watcher MainCmd.
Local Open Scope Z_scope.

(** ** States and the objects they hold *)

(** The round brings object [j]: an item of its list, or the object of a line
    that adds or changes one. *)
Definition sent (c : api_conf) (path : resource) (r : round watch_line) (j : json) : Prop :=
  (∃ doc items, (http_get (list_url c path) (rd_list r)).2 = Some (Some doc) ∧
     fld "items" [] (dec_list Some) doc = Some items ∧ j ∈ items) ∨
  (∃ rv lines scan_ok b ty, (http_get (watch_url c path rv) (rd_watch r)).2 = Some (lines, scan_ok) ∧
     (b, WLEvent ty j) ∈ lines ∧ (ty = "ADDED" ∨ ty = "MODIFIED")).

Definition all_of (P : json → Prop) (st : gmap string json) : Prop := map_Forall (λ _ j, P j) st.

Lemma all_of_visits P vals st : visits vals st → all_of P st → ∀ j, j ∈ vals → P j.
Proof.
  intros Hv HP j. rewrite Hv. intros ([k j'] & -> & Hin)%list_elem_of_fmap.
  apply elem_of_map_to_list in Hin. by apply (HP k).
Qed.

Lemma list_state_all P items : (∀ j, j ∈ items → P j) → all_of P (list_state items).
Proof.
  intros HP. unfold list_state.
  assert (H : ∀ m, all_of P m →
    all_of P (foldl (λ m j, match keyOf j with Some k => <[k := j]> m | None => m end) m items)); [|by apply H, map_Forall_empty].
  induction items as [|j items IH]; intros m Hm; [done|]. cbn [foldl]. apply IH; [intros; apply HP; by right|].
  destruct (keyOf j); [|done]. apply map_Forall_insert_2; [apply HP; by left|done].
Qed.

Lemma watch_line_all P ln st :
  all_of P st → (∀ ty j, ln = WLEvent ty j → ty = "ADDED" ∨ ty = "MODIFIED" → P j) → all_of P (watch_line_step ln st).1.
Proof.
  intros Hst HP. destruct ln as [|ty j]; [done|]. unfold watch_line_step.
  destruct (bool_decide (ty = "ADDED") || bool_decide (ty = "MODIFIED")) eqn:E.
  - apply orb_true_iff in E. rewrite !bool_decide_eq_true in E. cbn [fst]. destruct (keyOf j); [|done].
    apply map_Forall_insert_2; [by apply (HP ty)|done].
  - repeat case_bool_decide; try done. cbn [fst]. destruct (keyOf j); [|done]. by apply map_Forall_delete.
Qed.

Lemma watch_scan_all P lines scan_ok st applied :
  all_of P st → Forall (all_of P) applied →
  (∀ b ty j, (b, WLEvent ty j) ∈ lines → ty = "ADDED" ∨ ty = "MODIFIED" → P j) →
  Forall (all_of P) (watch_scan lines scan_ok st applied).1.2.
Proof.
  revert st applied. induction lines as [|[[] ln] rest IH]; intros st applied Hst Hap HP; [done|done|].
  cbn [watch_scan].
  assert (Hst' : all_of P (watch_line_step ln st).1).
  { apply watch_line_all; [done|]. intros ty j ->. eapply (HP false). by left. }
  assert (HP' : ∀ b ty j, (b, WLEvent ty j) ∈ rest → ty = "ADDED" ∨ ty = "MODIFIED" → P j)
    by (intros ????; eapply HP; by right).
  destruct (watch_line_step ln st) as [st' []]; cbn [fst] in *; [apply IH|apply IH|]; try done.
  apply Forall_app. by rewrite Forall_singleton.
Qed.

(** A state a loop hands on holds objects one round brought. *)
Lemma loop_state_sent c path rs st0 st :
  st ∈ applied_of (watchLoop c path rs st0).1 → ∃ r, r ∈ alive rs ∧ all_of (sent c path r) st.
Proof.
  unfold watchLoop. rewrite (proj1 (run_loop_spec _ _ _ _ _ _)), list_elem_of_bind.
  intros (r & Hst & Hr). exists r. split; [done|].
  apply round_applied_from in Hst as (stl & rv & (doc & Hdoc & Hdec) & H).
  assert (Hl : all_of (sent c path r) stl).
  { unfold decode_objects in Hdec. destruct (dec_version doc); [|done].
    destruct (fld "items" _ _ doc) as [items|] eqn:Hi; [|done]. injection Hdec as <- <-.
    apply list_state_all. intros j Hj. left. eauto. }
  destruct H as [->|(lines & ok & Hw & Hin)]; [done|].
  assert (H : Forall (all_of (sent c path r)) (watch_scan lines ok stl []).1.2).
  { apply watch_scan_all; [done|done|]. intros b ty j Hj Hty. right. by exists rv, lines, ok, b, ty. }
  by rewrite Forall_forall in H; apply H.
Qed.

Lemma last_elem {A} (l : list A) x : list.last l = Some x → x ∈ l.
Proof. intros (l' & ->)%last_Some. set_solver. Qed.

(** The last call of a kind visits a state its loop handed on. *)
Lemma last_visited {A B} (R : A → B → Prop) l t tr v :
  t `prefix_of` tr → Forall2 R l t → list.last l = Some v → ∃ st, st ∈ tr ∧ R v st.
Proof.
  intros [k ->] Hf [i Hi]%last_elem%list_elem_of_lookup.
  destruct (Forall2_lookup_l _ _ _ _ _ Hf Hi) as (st & Hst & HR).
  exists st. split; [|done]. apply elem_of_app. left. by eapply list_elem_of_lookup_2.
Qed.

(** The Services and the slices behind an answer: the index answers only once
    both loops have handed something on, and from the last state of each. *)
Lemma resolve_settled evs pidx addr a :
  ResolveVIP (settled evs (NewServiceIndex, pidx)).1 addr = Some a →
  ∃ v vs vs', list.last (services_of evs) = Some v ∧ list.last (slices_of evs) = Some (vs, vs') ∧
    ResolveVIP (applySlices vs vs' (applyServices v NewServiceIndex) pidx).1 addr = Some a.
Proof.
  intros H.
  assert (H' : ResolveVIP (mkServiceIndex
      (match list.last (services_of evs) with Some v => foldl apply_service ∅ v | None => ∅ end)
      (match list.last (slices_of evs) with Some v => group_of <$> foldl apply_slice ∅ v.1 | None => ∅ end)) addr = Some a).
  { rewrite <-H. f_equal. unfold settled.
    by destruct (list.last (services_of evs)), (list.last (slices_of evs)) as [[? ?]|], (list.last (pods_of evs)). }
  clear H. destruct (list.last (services_of evs)) as [v|].
  - destruct (list.last (slices_of evs)) as [[vs vs']|]; [by exists v, vs, vs'|].
    unfold ResolveVIP in H'. cbn [services slices] in H'. repeat case_match; by rewrite ?lookup_empty in *.
  - unfold ResolveVIP in H'. cbn [services slices] in H'. repeat case_match; by rewrite ?lookup_empty in *.
Qed.

(** The object decodes to a slice of the Service [key]. *)
Definition slice_for (key : string) (j : json) (sl : svcSliceObject) : Prop :=
  dec_slice j = Some sl ∧ svc_name_of sl ≠ "" ∧ key = svc_key (sl_Namespace sl) (svc_name_of sl).

(** Where the answer of a Service address comes from. *)
Lemma vip_sources c rsS rsE rsP evs pidx addr bs ns name :
  interleaving (applied_of (watchLoop c services_path rsS ∅).1) (applied_of (watchLoop c slices_path rsE ∅).1)
    (applied_of (watchLoop c pods_path rsP ∅).1) evs →
  ResolveVIP (apply_all evs (NewServiceIndex, pidx)).1 addr = Some (bs, ns, name) →
  bs ≠ [] ∧ ∃ rS rE host portStr so pr, rS ∈ alive rsS ∧ rE ∈ alive rsE ∧
    SplitHostPort addr = Some (host, portStr) ∧
    (∃ j, sent c services_path rS j ∧ dec_service j = Some so) ∧ so_Namespace so = ns ∧ so_Name so = name ∧
    host ∈ so_ClusterIP so :: so_ClusterIPs so ∧ pr ∈ so_Ports so ∧ Atoi portStr = Some (sp_Port pr) ∧
    ∀ b, b ∈ bs → ∃ ip j sl j' sl' p,
      sent c slices_path rE j ∧ slice_for (svc_key ns name) j sl ∧ ready_ip sl ip ∧
      sent c slices_path rE j' ∧ slice_for (svc_key ns name) j' sl' ∧ p ∈ sl_Ports sl' ∧ sp_Name p = sp_Name pr ∧
      b = ip_port ip (Itoa (sp_Port p)).
Proof.
  intros [(tS & HpS & HS) (tE & HpE & HE) _] HR. rewrite apply_all_settled in HR.
  destruct (resolve_settled _ _ _ _ HR) as (v & vs & vs' & Hv & Hvs & HR').
  destruct (last_visited _ _ _ _ _ HpS HS Hv) as (stS & HinS & HvS).
  destruct (last_visited _ _ _ _ _ HpE HE Hvs) as (stE & HinE & [HvE _]).
  apply loop_state_sent in HinS as (rS & HrS & HaS), HinE as (rE & HrE & HaE).
  pose proof (all_of_visits _ _ _ HvS HaS) as HsS. pose proof (all_of_visits _ _ _ HvE HaE) as HsE. cbn in HsE.
  apply vip_backends in HR' as (Hne & host & portStr & so & pr & Ha & (j & Hj & Hd) & Hns & Hnm & Hip & Hpr & Hat & Hb).
  split; [done|]. exists rS, rE, host, portStr, so, pr. split_and!; try done; [by exists j; auto|].
  intros b Hin. destruct (Hb b Hin) as (ip & sl & sl' & p & (j1 & Hj1 & Hd1) & Hr & (j2 & Hj2 & Hd2) & Hp).
  destruct Hp as (Hp & Hpn & ->). exists ip, j1, sl, j2, sl', p. split_and!; auto.
Qed.

(** While the watchers run, and however their goroutines interleave, a
    Service address resolves only to what the API server sent: the Service that
    publishes the address came in one round of the Service loop, and the slices
    whose ready addresses and target ports make up the backends in one round of
    the EndpointSlice loop, each labelled with that Service; there is at least one backend. *)
Theorem vip_from_apiserver c rsS rsE rsP evs pidx addr bs ns name :
  interleaving (applied_of (watchLoop c services_path rsS ∅).1) (applied_of (watchLoop c slices_path rsE ∅).1)
    (applied_of (watchLoop c pods_path rsP ∅).1) evs →
  ResolveVIP (apply_all evs (NewServiceIndex, pidx)).1 addr = Some (bs, ns, name) →
  bs ≠ [] ∧ ∃ rS rE host portStr so pr, rS ∈ alive rsS ∧ rE ∈ alive rsE ∧
    SplitHostPort addr = Some (host, portStr) ∧
    (∃ j, sent c services_path rS j ∧ dec_service j = Some so) ∧ so_Namespace so = ns ∧ so_Name so = name ∧
    host ∈ so_ClusterIP so :: so_ClusterIPs so ∧ pr ∈ so_Ports so ∧ Atoi portStr = Some (sp_Port pr) ∧
    ∀ b, b ∈ bs → ∃ ip j sl j' sl' p,
      sent c slices_path rE j ∧ slice_for (svc_key ns name) j sl ∧ ready_ip sl ip ∧
      sent c slices_path rE j' ∧ slice_for (svc_key ns name) j' sl' ∧ p ∈ sl_Ports sl' ∧ sp_Name p = sp_Name pr ∧
      b = ip_port ip (Itoa (sp_Port p)).
Proof. apply vip_sources. Qed.

(** How the three goroutines interleave on the shared indexes is invisible:
    the indexes are those the last call of each kind leaves behind, so two
    schedules of the same calls leave the same indexes. *)
Theorem interleaving_invisible evs evs' ix :
  services_of evs = services_of evs' → slices_of evs = slices_of evs' → pods_of evs = pods_of evs' →
  apply_all evs ix = settled evs ix ∧ apply_all evs' ix = apply_all evs ix.
Proof.
  intros HS HE HP. rewrite !apply_all_settled. split; [done|]. unfold settled. by rewrite HS, HE, HP.
Qed.

(** ** Recovery *)

(** The two watches are one scan, over the step for a line. *)
Section scan.
Context {St Line : Type} (step : Line → St → St * watch_out).

Fixpoint scan_with (lines : list (bool * Line)) (scan_ok : bool) (st : St) (applied : list St)
    : St * list St * watch_end :=
  match lines with
  | [] => (st, applied, if scan_ok then WCleanEOF else WError)
  | (cancelled, ln) :: rest =>
      if cancelled : bool then (st, applied, WCancelled)
      else match step ln st with
           | (_, WOErr) => (st, applied, WError)
           | (st', WOSkip) => scan_with rest scan_ok st' applied
           | (st', WOApply) => scan_with rest scan_ok st' (applied ++ [st'])
           end
  end.

Definition fold_lines (lines : list (bool * Line)) (st : St) : St := foldl (λ st x, (step x.2 st).1) st lines.

(** A line the watch goes on after: read with the context alive, and no error;
    one that is skipped changes nothing. *)
Definition good_line (x : bool * Line) : Prop :=
  x.1 = false ∧ ∀ st, (step x.2 st).2 ≠ WOErr ∧ ((step x.2 st).2 = WOSkip → (step x.2 st).1 = st).

Lemma scan_acc lines scan_ok st ap ap' :
  (scan_with lines scan_ok st (ap ++ ap')).1.2 = ap ++ (scan_with lines scan_ok st ap').1.2.
Proof.
  revert st ap'. induction lines as [|[[] ln] rest IH]; intros st ap'; [done|done|]. cbn [scan_with].
  destruct (step ln st) as [st' []]; [rewrite <-(assoc_L (++)); apply IH|apply IH|done].
Qed.

Lemma scan_end lines scan_ok st ap ap' :
  (scan_with lines scan_ok st ap).2 = (scan_with lines scan_ok st ap').2.
Proof.
  revert st ap ap'. induction lines as [|[[] ln] rest IH]; intros st ap ap'; [done|done|]. cbn.
  destruct (step ln st) as [st' []]; auto.
Qed.

Lemma scan_good lines scan_ok st ap :
  Forall good_line lines → list.last ap = Some st →
  list.last (scan_with lines scan_ok st ap).1.2 = Some (fold_lines lines st) ∧
  (scan_with lines scan_ok st ap).2 = if scan_ok then WCleanEOF else WError.
Proof.
  intros Hl. revert st ap. induction Hl as [|[b ln] rest [Hb Hs] Hl IH]; intros st ap Hap; [done|].
  cbn [fst snd] in *. subst b. destruct (Hs st) as [Herr Hskip]. cbn [scan_with fold_lines foldl fst snd].
  destruct (step ln st) as [st' []]; cbn [fst snd] in *; [|rewrite Hskip in * by done|done].
  - apply IH. by rewrite last_snoc.
  - by apply IH.
Qed.
End scan.

Lemma watch_scan_with lines scan_ok st ap :
  watch_scan lines scan_ok st ap = scan_with watch_line_step lines scan_ok st ap.
Proof.
  revert st ap. induction lines as [|[[] ln] rest IH]; intros st ap; [done|done|]. cbn.
  destruct (watch_line_step ln st) as [st' []]; by rewrite ?IH.
Qed.

Lemma agent_watch_with lines scan_ok st ap :
  agent_watch lines scan_ok st ap = scan_with agent_line_step lines scan_ok st ap.
Proof.
  revert st ap. induction lines as [|[[] ln] rest IH]; intros st ap; [done|done|]. cbn.
  destruct (agent_line_step ln st) as [st' []]; by rewrite ?IH.
Qed.

(** Whatever came before, a round with a list and good lines leaves the folded
    state as the last one handed on. *)
Section recovery.
Context {St Line : Type} (lurl : string) (wurl : string → string) (decode : json → option (St * string)).
Context (step : Line → St → St * watch_out).
Context (scan : list (bool * Line) → bool → St → list St → St * list St * watch_end).
Context (Hscan : ∀ lines ok st ap, scan lines ok st ap = scan_with step lines ok st ap).

Lemma round_good r st0 rv lines ok :
  lists lurl decode r st0 rv → watched wurl r rv lines ok → Forall (good_line step) lines →
  list.last (round_applied lurl wurl decode scan r) = Some (fold_lines step lines st0) ∧
  round_fails lurl wurl decode scan r = negb ok.
Proof.
  intros (j & Hj & Hd) Hw Hl. unfold round_applied, round_fails, listed. rewrite Hj, Hd. unfold watched in Hw.
  rewrite Hw, Hscan. destruct (scan_good step lines ok st0 [st0] Hl eq_refl) as [H1 H2].
  change [st0] with ([st0] ++ []) in H1, H2. rewrite scan_acc in H1. rewrite (scan_end step lines ok st0 _ []) in H2.
  split; [exact H1|rewrite H2; by destruct ok].
Qed.

Lemma loop_recovers rs r st st0 rv lines ok :
  Forall (λ r, rd_cancelled r = false) (rs ++ [r]) →
  lists lurl decode r st0 rv → watched wurl r rv lines ok → Forall (good_line step) lines →
  list.last (applied_of (run_loop lurl wurl decode scan (rs ++ [r]) st).1) = Some (fold_lines step lines st0).
Proof.
  intros Hc Hli Hw Hl. rewrite (proj1 (run_loop_spec _ _ _ _ _ _)).
  assert (alive (rs ++ [r]) = rs ++ [r]) as ->.
  { clear -Hc. induction Hc as [|x l Hx Hc IH]; [done|]. cbn. by rewrite Hx, IH. }
  rewrite bind_app. cbn [mbind list_bind]. rewrite app_nil_r.
  destruct (round_good r st0 rv lines ok Hli Hw Hl) as [Hr _].
  apply last_Some in Hr as (l' & ->). by rewrite (assoc_L (++)), last_snoc.
Qed.
End recovery.

Lemma good_event b ty j : b = false → ty ≠ "ERROR" → good_line watch_line_step (b, WLEvent ty j).
Proof. intros -> Hty. split; [done|]. intros st. cbn. repeat case_match; try done; by reflect_bools. Qed.
Lemma good_agent_event b ty s : b = false → ty ≠ "ERROR" → good_line agent_line_step (b, ALEvent ty s).
Proof. intros -> Hty. split; [done|]. intros st. cbn. repeat case_match; try done; by reflect_bools. Qed.

(** The rounds end in one that lists and then watches without an error line, and
    leads to [st]: the listed objects updated by every event. *)
Definition caught_up (c : api_conf) (path : resource) (rs : list (round watch_line)) (st : gmap string json) : Prop :=
  Forall (λ r, rd_cancelled r = false) rs ∧ ∃ rs0 r st0 rv lines ok, rs = rs0 ++ [r] ∧
    lists (list_url c path) decode_objects r st0 rv ∧ watched (watch_url c path) r rv lines ok ∧
    Forall (good_line watch_line_step) lines ∧ st = fold_lines watch_line_step lines st0.

Definition agent_caught_up (w : EndpointSliceWatcher) (rs : list (round agent_line)) (st : gmap string sliceObject) : Prop :=
  Forall (λ r, rd_cancelled r = false) rs ∧ ∃ rs0 r st0 rv lines ok, rs = rs0 ++ [r] ∧
    lists (agent_list_url w) decode_slices r st0 rv ∧ watched (agent_watch_url w) r rv lines ok ∧
    Forall (good_line agent_line_step) lines ∧ st = fold_lines agent_line_step lines st0.

Lemma watchLoop_caught_up c path rs st st0 :
  caught_up c path rs st → list.last (applied_of (watchLoop c path rs st0).1) = Some st.
Proof.
  intros (Hc & rs0 & r & st1 & rv & lines & ok & -> & Hl & Hw & Hg & ->).
  eapply loop_recovers; eauto using watch_scan_with.
Qed.

Lemma agent_loop_caught_up w rs st st0 :
  agent_caught_up w rs st → list.last (applied_of (agent_loop w rs st0).1) = Some st.
Proof.
  intros (Hc & rs0 & r & st1 & rv & lines & ok & -> & Hl & Hw & Hg & ->).
  eapply loop_recovers; eauto using agent_watch_with.
Qed.

(** All calls the loops made are done. *)
Record quiescent (tS tE tP : list (gmap string json)) (evs : list apply_ev) : Prop := {
  q_services : Forall2 visits (services_of evs) tS;
  q_slices : Forall2 (λ v st, visits v.1 st ∧ visits v.2 st) (slices_of evs) tE;
  q_pods : Forall2 visits (pods_of evs) tP;
}.

Lemma Forall2_last {A B} (R : A → B → Prop) l t y :
  Forall2 R l t → list.last t = Some y → ∃ x, list.last l = Some x ∧ R x y.
Proof.
  intros Hf (t' & ->)%last_Some. apply Forall2_app_inv_r in Hf as (l1 & l2 & _ & Hf & ->).
  apply Forall2_cons_inv_r in Hf as (x & l2' & Hx & Hnil & ->). apply Forall2_nil_inv_r in Hnil as ->.
  exists x. by rewrite last_snoc.
Qed.

(** C28: whatever failed before (unreadable token, transport and status errors,
    lists that do not decode, broken watches), one round of each loop that goes
    through is enough: once its calls are done the indexes are rebuilt from
    exactly the objects listed then, updated by every event since. *)
Theorem indexes_catch_up c rsS rsE rsP stS stE stP evs idx pidx :
  caught_up c services_path rsS stS → caught_up c slices_path rsE stE → caught_up c pods_path rsP stP →
  quiescent (applied_of (watchLoop c services_path rsS ∅).1) (applied_of (watchLoop c slices_path rsE ∅).1)
    (applied_of (watchLoop c pods_path rsP ∅).1) evs →
  ∃ vS vE vE' vP, visits vS stS ∧ visits vE stE ∧ visits vE' stE ∧ visits vP stP ∧
    apply_all evs (idx, Some pidx) =
      (mkServiceIndex (foldl apply_service ∅ vS) (group_of <$> foldl apply_slice ∅ vE),
       Some (applyPods vP (Replace (podEntriesFromSlices vE') pidx))).
Proof.
  intros HS HE HP [QS QE QP].
  destruct (Forall2_last _ _ _ _ QS (watchLoop_caught_up _ _ _ _ ∅ HS)) as (vS & HvS & HS').
  destruct (Forall2_last _ _ _ _ QE (watchLoop_caught_up _ _ _ _ ∅ HE)) as ([vE vE'] & HvE & HE1 & HE2).
  destruct (Forall2_last _ _ _ _ QP (watchLoop_caught_up _ _ _ _ ∅ HP)) as (vP & HvP & HP').
  exists vS, vE, vE', vP. split_and!; [done..|]. rewrite apply_all_settled. unfold settled.
  by rewrite HvS, HvE, HvP.
Qed.

(** ** The fleet *)

(** What [emit] sends for a state, and the bridge hands to the aggregator. *)
Definition announces (tp : Z) (st : gmap string sliceObject) (eps : list AgentEndpoint) : Prop :=
  ∃ vals es, vals ≡ₚ (map_to_list st).*2 ∧ emit false vals tp = Some es ∧ eps = bridge es.

(** A ready address of a slice that publishes the wanted port. *)
Definition wanted (tp : Z) (st : gmap string sliceObject) (name addr : string) : Prop :=
  ∃ k s ep ip, st !! k = Some s ∧ ep ∈ as_Endpoints s ∧ ip ∈ ae_Addresses ep ∧ pickPort s tp ≠ 0 ∧
    endpointReady ep = true ∧ name = as_Name s +:+ String "/" ip ∧ addr = ip_port ip (Itoa (pickPort s tp)).

Lemma announces_wanted tp st eps ep : announces tp st eps → ep ∈ eps ↔ wanted tp st (a_Name ep) (a_Addr ep).
Proof.
  intros (vals & es & Hv & [= <-] & ->). unfold bridge, wanted. rewrite list_elem_of_fmap. setoid_rewrite flatten_elem. split.
  - intros (e & -> & s & ep' & ip & Hs & Hep & Hip & Hp & Hr & ->).
    rewrite Hv in Hs. apply list_elem_of_fmap in Hs as ([k s'] & -> & Hk%elem_of_map_to_list).
    by exists k, s', ep', ip.
  - intros (k & s & ep' & ip & Hs & Hep & Hip & Hp & Hr & Hn & Ha).
    exists (mkEndpoint (a_Name ep) (a_Addr ep)). split; [by destruct ep|]. exists s, ep', ip. split_and!; try done.
    + rewrite Hv. apply (list_elem_of_fmap_2' snd _ (k, s)); [by apply elem_of_map_to_list|done].
    + by rewrite Hn, Ha.
Qed.

(** C26: the fleet follows the cluster through every failure, when the statically
    configured agents have distinct names: after a round of the agent watcher that
    goes through, and once its emissions are reconciled, the aggregator runs
    exactly one run for each ready address of the slices the API server holds then
    that publish the wanted port, each of which can be cancelled; every endpoint it
    runs was announced or configured. *)
Theorem fleet_reaches_cluster w rs st agents ems :
  NoDup (a_Name <$> agents) → agent_caught_up w rs st →
  Forall2 (λ (em : visit * list AgentEndpoint) st, visit_ok em.1 ∧ announces (esw_TargetPort w) st em.2) ems
    (applied_of (agent_loop w rs ∅).1) →
  let fl := reconcileLoop ems (seed agents) in
  fleet_wf fl ∧
  (∀ n, is_Some (running fl n) ↔ ∃ addr, wanted (esw_TargetPort w) st n addr) ∧
  ∀ n ep, running fl n = Some ep → ep ∈ agents ∨ ∃ em, em ∈ ems ∧ ep ∈ em.2.
Proof.
  intros Hnd Hcu Hems fl.
  assert (Hv : Forall (λ em : visit * list AgentEndpoint, visit_ok em.1) ems).
  { eapply Forall2_Forall_l; [exact Hems|]. apply Forall_true. by intros ?? [? _]. }
  destruct (reconcileLoop_names agents ems Hnd Hv) as [Hwf Hn].
  destruct (Forall2_last _ _ _ _ Hems (agent_loop_caught_up _ _ _ ∅ Hcu)) as ([v eps] & Hlast & _ & Han).
  split_and!; [done| |].
  - intros n. unfold fl. rewrite Hn, Hlast. cbn [fmap option_fmap option_map snd default from_option].
    rewrite list_elem_of_fmap. split.
    + intros (ep & -> & Hin). exists (a_Addr ep). by apply (announces_wanted _ _ _ _ Han).
    + intros (addr & Hw). exists (mkAgent n addr). split; [done|]. by apply (announces_wanted _ _ _ _ Han).
  - intros n ep. by apply reconcileLoop_from.
Qed.

(** ** Waiting *)

(** A loop waits for its backoff once for each round that fails, and never
    otherwise; a round whose watch ends without an error does not fail, so a
    server that closes watches cleanly is listed again at once, however often. *)
Theorem wait_per_failure c path w rs rs' st st' :
  sleeps (watchLoop c path rs st).1 =
    length (filter (λ r, round_fails (list_url c path) (watch_url c path) decode_objects watch_scan r = true) (alive rs)) ∧
  sleeps (agent_loop w rs' st').1 =
    length (filter (λ r, round_fails (agent_list_url w) (agent_watch_url w) decode_slices agent_watch r = true) (alive rs')) ∧
  ∀ r st0 rv lines, lists (list_url c path) decode_objects r st0 rv → watched (watch_url c path) r rv lines true →
    Forall (good_line watch_line_step) lines →
    round_fails (list_url c path) (watch_url c path) decode_objects watch_scan r = false.
Proof.
  split_and!; [apply run_loop_spec|apply run_loop_spec|]. intros r st0 rv lines Hl Hw Hg.
  by apply (round_good _ _ _ watch_line_step _ watch_scan_with r st0 rv lines true).
Qed.

(** ** Witnesses *)

(** The schedule that runs one loop after the other. *)
Definition in_turn (tS tE tP : list (gmap string json)) : list apply_ev :=
  let vals (st : gmap string json) := (map_to_list st).*2 in
  ((λ st, EvServices (vals st)) <$> tS) ++ ((λ st, EvSlices (vals st) (vals st)) <$> tE) ++ ((λ st, EvPods (vals st)) <$> tP).

Lemma omap_fmap_some {A B C} (f : A → B) (g : B → option C) (h : A → C) (l : list A) :
  (∀ x, g (f x) = Some (h x)) → omap g (f <$> l) = h <$> l.
Proof. intros H. induction l as [|x l IH]; [done|]. cbn. rewrite H. by f_equal. Qed.
Lemma omap_fmap_none {A B C} (f : A → B) (g : B → option C) (l : list A) : (∀ x, g (f x) = None) → omap g (f <$> l) = [].
Proof. intros H. induction l as [|x l IH]; [done|]. cbn. by rewrite H. Qed.

Lemma in_turn_quiescent tS tE tP : quiescent tS tE tP (in_turn tS tE tP).
Proof.
  unfold in_turn. split; unfold services_of, slices_of, pods_of; rewrite !omap_app.
  - rewrite (omap_fmap_some _ _ (λ st : gmap string json, (map_to_list st).*2)), !omap_fmap_none, app_nil_r by done.
    rewrite Forall2_fmap_l. apply Forall_Forall2_diag, Forall_true. intros st. cbn. unfold visits. repeat split; reflexivity.
  - rewrite omap_fmap_none, (omap_fmap_some _ _ (λ st : gmap string json, ((map_to_list st).*2, (map_to_list st).*2))),
      omap_fmap_none, app_nil_r by done. cbn [app].
    rewrite Forall2_fmap_l. apply Forall_Forall2_diag, Forall_true. intros st. cbn. unfold visits. repeat split; reflexivity.
  - rewrite !omap_fmap_none, (omap_fmap_some _ _ (λ st : gmap string json, (map_to_list st).*2)) by done. cbn [app].
    rewrite Forall2_fmap_l. apply Forall_Forall2_diag, Forall_true. intros st. cbn. unfold visits. repeat split; reflexivity.
Qed.

Lemma quiescent_interleaving tS tE tP evs : quiescent tS tE tP evs → interleaving tS tE tP evs.
Proof. intros [? ? ?]. split; eauto. Qed.

Module WatchDemo.
Import DiscoverySpec.Demo.
Definition c : api_conf := api_defaults (mkApiConf "" "" "" 0).
Definition listing (items : list json) : json :=
  JObj [("metadata", JObj [("resourceVersion", JStr "7")]); ("items", JArr items)].
(** A round whose list is refused, and one that goes through. *)
Definition refused {L} : round L := mkRound false (mkHttpIO true (Some "tok") (Some (403, None))) (mkHttpIO true None None).
Definition served {L} (items : list json) (ls : list (bool * L)) : round L :=
  mkRound false (mkHttpIO true (Some "tok") (Some (200, Some (listing items))))
    (mkHttpIO true (Some "tok") (Some (200, (ls, true)))).
Definition rsS : list (round watch_line) := [refused; served [svc] []].
Definition rsE : list (round watch_line) := [served [s3] []; refused; served [s1] [(false, WLEvent "ADDED" s2)]].
Definition rsP : list (round watch_line) := [served [] []].
Definition evs : list apply_ev :=
  in_turn (applied_of (watchLoop c services_path rsS ∅).1) (applied_of (watchLoop c slices_path rsE ∅).1)
    (applied_of (watchLoop c pods_path rsP ∅).1).
Definition w : EndpointSliceWatcher := mkEndpointSliceWatcher c "kloudlens" "agent" 9000.
Definition agent_item (name ip : string) : json := JObj [
  ("metadata", JObj [("name", JStr name)]);
  ("ports", JArr [JObj [("name", JStr "grpc"); ("port", JNum 9000)]]);
  ("endpoints", JArr [JObj [("addresses", JArr [JStr ip])]])].
Definition rsA : list (round agent_line) := [refused; served [agent_item "kl-a" "10.1.0.2"] []].
Definition ems : list (visit * list AgentEndpoint) :=
  (λ st, (Fleet.Demo.v, bridge (flatten (map_to_list st).*2 9000))) <$> applied_of (agent_loop w rsA ∅).1.
Definition stA : gmap string sliceObject := default ∅ (list.last (applied_of (agent_loop w rsA ∅).1)).
End WatchDemo.

Lemma vip_from_apiserver_witness :
  ∃ rS rE, rS ∈ alive WatchDemo.rsS ∧ rE ∈ alive WatchDemo.rsE.
Proof.
  destruct (vip_from_apiserver WatchDemo.c WatchDemo.rsS WatchDemo.rsE WatchDemo.rsP WatchDemo.evs None
    "10.96.0.9:80" ["10.0.0.1:8080"; "10.0.0.2:8080"] "shop" "cart") as (_ & rS & rE & ? & ? & ? & ? & HS & HE & _).
  - apply quiescent_interleaving, in_turn_quiescent.
  - vm_compute. reflexivity.
  - exists rS, rE. split; assumption.
Defined.

Lemma interleaving_invisible_witness :
  apply_all [EvPods []; EvServices [DiscoverySpec.Demo.svc]] (NewServiceIndex, Some NewPodEndpointIndex) =
  apply_all [EvServices [DiscoverySpec.Demo.svc]; EvPods []] (NewServiceIndex, Some NewPodEndpointIndex).
Proof.
  apply (interleaving_invisible [EvServices [DiscoverySpec.Demo.svc]; EvPods []]
    [EvPods []; EvServices [DiscoverySpec.Demo.svc]]); reflexivity.
Defined.

Lemma indexes_catch_up_witness :
  NumServices (apply_all WatchDemo.evs (NewServiceIndex, Some NewPodEndpointIndex)).1 = 1 ∧
  ∃ vS vE, length vS = 1%nat ∧ length vE = 2%nat ∧
    (apply_all WatchDemo.evs (NewServiceIndex, Some NewPodEndpointIndex)).1 =
      mkServiceIndex (foldl apply_service ∅ vS) (group_of <$> foldl apply_slice ∅ vE).
Proof.
  split; [vm_compute; reflexivity|].
  set (stS := list_state [DiscoverySpec.Demo.svc]).
  set (stE := list_state [DiscoverySpec.Demo.s1; DiscoverySpec.Demo.s2]).
  destruct (indexes_catch_up WatchDemo.c WatchDemo.rsS WatchDemo.rsE WatchDemo.rsP stS stE ∅
    WatchDemo.evs NewServiceIndex NewPodEndpointIndex) as (vS & vE & vE' & vP & HS & HE & _ & _ & Heq).
  - split; [by repeat constructor|]. exists [WatchDemo.refused], (WatchDemo.served [DiscoverySpec.Demo.svc] []), stS, "7", [], true.
    split_and!; [reflexivity| |reflexivity|constructor|reflexivity].
    eexists. split; [reflexivity|]. vm_compute. reflexivity.
  - split; [by repeat constructor|].
    exists [WatchDemo.served [DiscoverySpec.Demo.s3] []; WatchDemo.refused],
      (WatchDemo.served [DiscoverySpec.Demo.s1] [(false, WLEvent "ADDED" DiscoverySpec.Demo.s2)]),
      (list_state [DiscoverySpec.Demo.s1]), "7", [(false, WLEvent "ADDED" DiscoverySpec.Demo.s2)], true.
    split_and!; [reflexivity| |reflexivity|constructor; [by apply good_event|constructor]|vm_compute; reflexivity].
    eexists. split; [reflexivity|]. vm_compute. reflexivity.
  - split; [by repeat constructor|]. exists [], (WatchDemo.served [] []), ∅, "7", [], true.
    split_and!; [reflexivity| |reflexivity|constructor|reflexivity].
    eexists. split; [reflexivity|]. vm_compute. reflexivity.
  - apply in_turn_quiescent.
  - exists vS, vE. split_and!; [rewrite HS|rewrite HE|rewrite Heq]; reflexivity.
Defined.

Lemma fleet_reaches_cluster_witness :
  let fl := reconcileLoop WatchDemo.ems (seed [Fleet.Demo.n1]) in
  running fl "kl-a/10.1.0.2" = Some (mkAgent "kl-a/10.1.0.2" "10.1.0.2:9000") ∧ fleet_wf fl.
Proof.
  split; [vm_compute; reflexivity|].
  apply (fleet_reaches_cluster WatchDemo.w WatchDemo.rsA WatchDemo.stA).
  - apply NoDup_singleton.
  - split; [by repeat constructor|].
    exists [WatchDemo.refused], (WatchDemo.served [WatchDemo.agent_item "kl-a" "10.1.0.2"] []), WatchDemo.stA, "7", [], true.
    split_and!; [reflexivity| |reflexivity|constructor|reflexivity].
    eexists. split; [reflexivity|]. vm_compute. reflexivity.
  - unfold WatchDemo.ems. rewrite Forall2_fmap_l. apply Forall_Forall2_diag, Forall_true. intros st.
    split; [exact Fleet.Demo.v_ok|by exists (map_to_list st).*2, (flatten (map_to_list st).*2 9000)].
Defined.
