(* ===== verification/WholeSpec.v ===== *)
(** * The aggregator with its watchers

    The cluster-wide watchers of src/internal/aggregator/discovery/service.go and
    the aggregator of src/internal/aggregator/aggregator.go in one run: the
    watchers' calls rebuild the two indexes the registry resolves peers with,
    between any two steps of the aggregator's goroutines.  A peer edge that was
    attributed through a Service address is traced to both of its sources. *)
From Stdlib Require Import Ascii QArith.
From stdpp Require Import base numbers gmap strings relations fin_maps list.
From S2P Require Import Prelude GoStr Json EnvWal Pb CursorStore ClusterPeers ClusterPeersSpec K8s Discovery DiscoverySpec Aggregator AggregatorSpec ReExport System EdgeSpec GoText KubeApi Watcher WatcherSpec.
Local Open Scope Z_scope.

(** ** Which slots a backend address is looked up in *)

(** The slot of the listener [l] found under the backend address [b]: the address
    itself, or, on its port, the slot of the pod the index places its IP on.  Only
    a listener of a pod of that name with no other live one on the port may sit in
    a slot of another namespace; without a pod index, only one with no other. *)
Definition slot_for (r : Registry) (now : Z) (b : string) (l : Listener) (sl : slot) : Prop :=
  sl = SExact b ∨
  ∃ host port p, SplitHostPort b = Some (host, port) ∧ sl = SWild (String ":" port) p ∧
    match podLoc r with
    | None => sole_on r now (String ":" port) l
    | Some pl => ∃ ns pod, ClusterPeers.PodForIP pl host = Some (ns, pod) ∧
        (p = podIdent ns pod ∨ l_Pod l = pod ∧ sole_on r now (String ":" port) l)
    end.

Lemma live_backend_slot r now b l : live_backend r now b = Some l → ∃ sl, slot_for r now b l sl ∧ get_live r now sl = Some l.
Proof.
  unfold live_backend. destruct (liveExact r b now) as [l'|] eqn:E.
  - intros [= <-]. exists (SExact b). split; [by left|by apply liveExact_sound].
  - intros (host & port & p & Hb & Hl & Hp)%liveWild_sound. eexists. split; [|exact Hl]. right. by exists host, port, p.
Qed.

(** A join through a Service: the address resolved to backends, and the answer is
    the listener of one of them. *)
Lemma Join_vip r addr now l :
  Join r addr now = Some (l, HowServiceVIP) →
  ∃ sv bs ns name b l0 sl, svc r = Some sv ∧ ClusterPeers.ResolveVIP sv addr = Some (bs, ns, name) ∧
    b ∈ bs ∧ slot_for r now b l0 sl ∧ get_live r now sl = Some l0 ∧ marked HowServiceVIP l0 l ∧ Service l = mkServiceRef ns name.
Proof.
  unfold Join. destruct (liveExact r addr now); [done|]. destruct (join_slice r addr now); [done|].
  destruct (join_vip r addr now) as [l3|] eqn:E; [|by destruct (liveWild r addr now)].
  intros [= <-]. unfold join_vip in E. destruct (svc r) as [sv|]; [|done].
  destruct (ClusterPeers.ResolveVIP sv addr) as [[[bs ns] name]|] eqn:Ev; [|done].
  destruct (resolveVIP_sound _ _ _ _ _ E) as (l0 & Hin & amb & n & ->).
  apply list_elem_of_omap in Hin as (b & Hb & Hlb). destruct (live_backend_slot _ _ _ _ Hlb) as (sl & Hsl & Hl).
  exists sv, bs, ns, name, b, l0, sl. split_and!; try done. right. eauto.
Qed.

Lemma PeerEdge_via src l how node :
  Attributes (PeerEdge src l how node) !! "via" = Some (Via how) ∧
  attr "peer_service" (Attributes (PeerEdge src l how node)) = ServiceRef_String (Service l) ∧
  attr "peer_pod" (Attributes (PeerEdge src l how node)) = l_Pod l.
Proof.
  unfold PeerEdge, attr. cbn [Attributes].
  destruct (bool_decide (ServiceRef_String (Service l) ≠ "")) eqn:E, (ReplicaAmbiguous l);
    rewrite ?lookup_insert_ne by discriminate; rewrite ?lookup_insert_eq; (split_and!; [reflexivity| |reflexivity]); cbn; try done;
    apply bool_decide_eq_false, dec_stable in E; by rewrite E.
Qed.

(** ** Runs *)

Section whole.
Context `{!ProtoJSON EventEnvelope} {S : Type} `{!CursorStore S}.

Definition no_indexes : indexes := (NewServiceIndex, Some NewPodEndpointIndex).

(** What the registry looks peers up in after the watchers' calls [evs]. *)
Definition pods_after (evs : list apply_ev) : EndpointResolver :=
  pod_resolver (default NewPodEndpointIndex (apply_all evs no_indexes).2).
Definition pod_at (evs : list apply_ev) (ip : string) : option (string * string) :=
  Discovery.PodForIP (default NewPodEndpointIndex (apply_all evs no_indexes).2) ip.
Definition services_after (evs : list apply_ev) : ServiceResolver := service_resolver (apply_all evs no_indexes).1.

(** A run of the aggregator and the watchers: the time of the last look at the
    clock, the envelopes the writer took, and the watchers' calls. *)
Inductive whole (c : Config) : Z → list (Z * EventEnvelope) → list apply_ev → sys (S := S) → Prop :=
| wh_start now w a store : New c (Some (pods_after [])) (Some (services_after [])) w = inl a →
    whole c now [] [] (start a store)
| wh_write now tr evs s io ev rest : whole c now tr evs s → ch (s_agg s) = ev :: rest → now ≤ wi_now io →
    whole c (wi_now io) (tr ++ [(wi_now io, ev_Envelope ev)]) evs (do_write io ev s)
| wh_sweep now tr evs s now' : whole c now tr evs s → now ≤ now' →
    whole c now' tr evs (on_agg (λ a, set_registry (Sweep now' (registry a)) a) s)
| wh_stats now tr evs s now' len nsvc : whole c now tr evs s → now ≤ now' →
    whole c now' tr evs (on_agg (λ a, (agg_Stats now' len nsvc a).1) s)
| wh_apply now tr evs s e : whole c now tr evs s →
    whole c now tr (evs ++ [e])
      (on_agg (λ a, set_registry (reindex (pods_after (evs ++ [e])) (services_after (evs ++ [e])) (registry a)) a) s)
| wh_other now tr evs s s' : whole c now tr evs s → sys_step s s' → registry (s_agg s') = registry (s_agg s) →
    taken (s_hist s') = taken (s_hist s) → whole c now tr evs s'.

Lemma whole_timed c now tr evs s : whole c now tr evs s → timed c now tr s.
Proof.
  induction 1 as [now w a store HN|now tr evs s io ev rest _ IH Hch Hn|now tr evs s now' _ IH Hn
    |now tr evs s now' len nsvc _ IH Hn|now tr evs s e _ IH|now tr evs s s' _ IH Hs Hr Ht].
  - by eapply t_start.
  - by eapply t_write.
  - by eapply t_sweep.
  - by eapply t_stats.
  - by eapply t_index.
  - by eapply t_other.
Qed.

(** The registry looks peers up in the indexes the calls left behind. *)
Lemma whole_resolvers c now tr evs s :
  whole c now tr evs s →
  svc (registry (s_agg s)) = Some (services_after evs) ∧ resolver (registry (s_agg s)) = Some (pods_after evs) ∧
  podLoc (registry (s_agg s)) = Some (mkPodLocator (pod_at evs)).
Proof.
  induction 1 as [now w a store HN|now tr evs s io ev rest _ IH Hch Hn|now tr evs s now' _ IH Hn
    |now tr evs s now' len nsvc _ IH Hn|now tr evs s e _ IH|now tr evs s s' _ IH Hs Hr Ht].
  - revert HN. unfold New. repeat case_match; by intros [= <-].
  - unfold do_write, write_step. cbn. rewrite Hch, handle_registry. cbn [registry set_ch].
    destruct (reg_event _) as [te|]; [|done]. by destruct (step_params (registry (s_agg s)) te) as (_ & -> & -> & ->).
  - exact IH.
  - exact IH.
  - cbn. destruct IH as (-> & -> & _). done.
  - by rewrite Hr.
Qed.

(** C16: a peer edge that went through a Service address has both of its sources:
    the address the workload dialled is a cluster IP and port of a Service the
    API server sent in one round of the Service loop, which the edge names; and
    the peer is that of a listener advertise the writer took less than the TTL
    ago and nothing taken since speaks about, filed under the address of a ready
    backend, with the target port of that Service port, which the API server
    sent in one round of the EndpointSlice loop for that Service, or filed as a
    wildcard listener on that port under the pod the pod index of the moment places
    the backend's IP on (under a pod of that name, when it is the only live
    wildcard listener of the port); whatever the interleaving of watchers and
    aggregator. *)
Theorem vip_edge_end_to_end conf c rsS rsE rsP now tr evs (s : sys (S := S)) io ev rest src edge :
  whole c now tr evs s →
  interleaving (applied_of (watchLoop conf services_path rsS ∅).1) (applied_of (watchLoop conf slices_path rsE ∅).1)
    (applied_of (watchLoop conf pods_path rsP ∅).1) evs →
  ch (s_agg s) = ev :: rest → now ≤ wi_now io → GetIntent (ev_Envelope ev) = Some src →
  edge_for io ev (set_ch rest (s_agg s)) = Some edge → Attributes edge !! "via" = Some "service-vip" →
  ∃ rS rE host portStr so pr b sl l, rS ∈ alive rsS ∧ rE ∈ alive rsE ∧
    SplitHostPort (attr AttrPeer (Attributes src)) = Some (host, portStr) ∧
    (∃ j, sent conf services_path rS j ∧ dec_service j = Some so) ∧
    host ∈ so_ClusterIP so :: so_ClusterIPs so ∧ pr ∈ so_Ports so ∧ Atoi portStr = Some (sp_Port pr) ∧
    attr "peer_service" (Attributes edge) = ServiceRef_String (mkServiceRef (so_Namespace so) (so_Name so)) ∧
    (∃ ip j sle j' sle' p, sent conf slices_path rE j ∧ slice_for (svc_key (so_Namespace so) (so_Name so)) j sle ∧ ready_ip sle ip ∧
       sent conf slices_path rE j' ∧ slice_for (svc_key (so_Namespace so) (so_Name so)) j' sle' ∧ p ∈ sl_Ports sle' ∧
       sp_Name p = sp_Name pr ∧ b = ip_port ip (Itoa (sp_Port p))) ∧
    podLoc (registry (s_agg s)) = Some (mkPodLocator (pod_at evs)) ∧
    slot_for (registry (s_agg s)) (wi_now io) b l sl ∧ get_live (registry (s_agg s)) (wi_now io) sl = Some l ∧
    attr "peer_pod" (Attributes edge) = l_Pod l ∧ backed tr (wi_now io) (ttl (registry (s_agg s))) sl edge.
Proof.
  intros HW Hint Hch Hn Hsrc He Hvia. apply edge_for_join in He as (src' & l & how & node & Hsrc' & HJ & ->).
  rewrite Hsrc in Hsrc'. injection Hsrc' as <-. destruct (PeerEdge_via src l how node) as (Hv & Hps & Hpod).
  rewrite Hv in Hvia. assert (how = HowServiceVIP) as -> by (destruct how; cbn in Hvia; congruence).
  destruct (Join_vip _ _ _ _ HJ) as (sv & bs & ns & name & b & l0 & sl & Hsv & Hres & Hb & Hsl & Hl & Hm & Hserv).
  destruct (whole_resolvers _ _ _ _ _ HW) as (Hsvc & _ & Hloc). rewrite Hsvc in Hsv. injection Hsv as <-.
  destruct (vip_sources _ _ _ _ _ _ _ _ _ _ Hint Hres) as (_ & rS & rE & host & portStr & so & pr & HrS & HrE & Ha & Hj & <- & <- & Hip & Hpr & Hat & Hbs).
  exists rS, rE, host, portStr, so, pr, b, sl, l0. split_and!; try done.
  - by rewrite Hps, Hserv.
  - exact (Hbs b Hb).
  - rewrite Hpod. by destruct Hm as [->|(_ & sv' & amb & n & ->)].
  - eapply live_backed; [by eapply timed_traced, whole_timed|done|done|done].
Qed.

(** A run goes on with any calls of the watchers. *)
Fixpoint applies (seen es : list apply_ev) (s : sys (S := S)) : sys (S := S) :=
  match es with
  | [] => s
  | e :: es' => applies (seen ++ [e]) es'
      (on_agg (λ a, set_registry (reindex (pods_after (seen ++ [e])) (services_after (seen ++ [e])) (registry a)) a) s)
  end.

Lemma whole_applies c now tr es : ∀ seen s, whole c now tr seen s → whole c now tr (seen ++ es) (applies seen es s).
Proof.
  induction es as [|e es IH]; intros seen s HW; cbn [applies]; [by rewrite app_nil_r|].
  rewrite cons_middle, (assoc_L (++)). by apply IH, wh_apply.
Qed.
End whole.

(** ** Witness *)

Module WholeDemo.
Import System.Demo EdgeDemo.
(** The advertise of a backend, then the watchers' calls, then a connect to the
    Service's cluster IP. *)
Definition dial : IntentEvent := mkIntent KindNetworkExchange {["peer" := "10.96.0.9:80"]}
  (Some (mkMeta "n2" "shop" "web-1" "c" "id" "img" "")) [] 0 1%Q "".
Definition dial_env : EventEnvelope := mkEnvelope None (Some (EventEnvelope_Intent dial)) "".
Definition a0 : Aggregator :=
  mkAgg (config_defaults big) [] zero_counters 0 ∅ 0 (NewRegistry 0 (Some (pods_after [])) (Some (services_after []))) None [].
Definition q0 : sys (S := nullStore) := start a0 NullCursorStore.
Definition q1 : sys := do_receive ep "intent" dial_env (do_receive ep "intent" adv q0).
Definition q2 : sys := do_write (at_ 10) (mkEv "n1" adv) q1.
Definition q3 : sys := applies [] WatchDemo.evs q2.

Lemma q3_whole : whole big 10 [(10, adv)] WatchDemo.evs q3.
Proof.
  apply (whole_applies big 10 [(10, adv)] WatchDemo.evs [] q2).
  apply (wh_write big 0 [] [] q1 (at_ 10) (mkEv "n1" adv) [mkEv "n1" dial_env]); [|reflexivity|discriminate].
  apply (wh_other big 0 [] [] (do_receive ep "intent" adv q0)); [|apply step_receive|reflexivity|reflexivity].
  apply (wh_other big 0 [] [] q0); [|apply step_receive|reflexivity|reflexivity].
  by apply (wh_start big 0 None).
Qed.
End WholeDemo.

Lemma vip_edge_end_to_end_witness :
  ∃ edge, edge_for (EdgeDemo.at_ 20) (mkEv "n1" WholeDemo.dial_env) (set_ch [] (s_agg WholeDemo.q3)) = Some edge ∧
    attr "peer_service" (Attributes edge) = "shop/cart" ∧
    ∃ b sl l, slot_for (registry (s_agg WholeDemo.q3)) 20 b l sl ∧ attr "peer_pod" (Attributes edge) = l_Pod l ∧
      backed [(10, EdgeDemo.adv)] 20 (30 * 10 ^ 9) sl edge.
Proof.
  destruct (edge_for (EdgeDemo.at_ 20) (mkEv "n1" WholeDemo.dial_env) (set_ch [] (s_agg WholeDemo.q3))) as [edge|] eqn:E;
    [|exfalso; vm_compute in E; discriminate E].
  exists edge.
  destruct (vip_edge_end_to_end WatchDemo.c EdgeDemo.big WatchDemo.rsS WatchDemo.rsE WatchDemo.rsP 10 [(10, EdgeDemo.adv)]
    WatchDemo.evs WholeDemo.q3 (EdgeDemo.at_ 20) (mkEv "n1" WholeDemo.dial_env) [] WholeDemo.dial edge)
    as (rS & rE & host & portStr & so & pr & b & sl & l & _ & _ & _ & _ & _ & _ & _ & _ & _ & _ & Hsl & _ & Hpod & Hb).
  - exact WholeDemo.q3_whole.
  - apply quiescent_interleaving, in_turn_quiescent.
  - vm_compute. reflexivity.
  - discriminate.
  - reflexivity.
  - exact E.
  - vm_compute in E. injection E as <-. vm_compute. reflexivity.
  - split; [reflexivity|]. split; [vm_compute in E; injection E as <-; vm_compute; reflexivity|].
    exists b, sl, l. split; [exact Hsl|]. split; [exact Hpod|]. exact Hb.
Defined.
